(* ===== verification/_CoqProject ===== *)
-Q . S2P
Prelude.v
GoString.v
GoConv.v
Utf8.v
Json.v
Mime.v
Duration.v
Config.v
SdpText.v
SdpMux.v
SdpMid.v
SdpVideo.v
SdpAnswer.v
Path.v
Router.v
Recording.v
AudioPrime.v
Server.v
HttpApi.v
Contract.v
Session.v
SessionLife.v
Manager.v
ManagerLife.v
ManagerLinear.v
ManagerTimer.v
Gateway.v
ProbePeer.v
Probe.v
Main.v
