(* ===== verification/Prelude.v ===== *)
(** * Home Brain RTC gateway: verification development (root file)

    The repository holds a Go service that terminates the WebRTC sessions of an
    Alexa skill: a client posts an SDP offer, the service answers it through
    pion/webrtc, records the Opus audio it receives and closes the session on
    request, on failure or after a time limit.  This development models the
    service's own logic and proves what makes it correct.

    ** The program and the files

    Requests enter at [HttpApi] and go to [Manager], which calls [Server]'s
    NewSession for a new id; NewSession checks the offer and edits pion's answer
    with the [Sdp*] files; the [Session] it returns owns a recorder
    ([Recording]) and the audio prime ([AudioPrime]).  [Main] starts and stops
    all of it from a configuration ([Config]); [Probe] is the command that tests
    a running gateway.

    - [Prelude] (this file): results of fallible functions, tactics, lemmas on
      lists and on selections of goroutines.
    - [GoString], [GoConv], [Duration], [Path]: the functions of Go's strings,
      unicode/utf8, strconv, time and path/filepath that the program calls, on
      arbitrary bytes and with their bounds; [Router]: net/url's path escapes
      and net/http's ServeMux (patterns, the routing tree, redirects).
    - [Utf8], [Json]: laws of UTF-8 and encoding/json as the program uses it:
      the decoder of a stream, decoding into structs, Marshal; [Mime]:
      mime.ParseMediaType.
    - [SdpText]: lines and media sections of an SDP text, the common view.
    - [SdpMux], [SdpMid], [SdpVideo] (internal/rtc/server.go): the three answer
      normalizers, with the source's index loops and flag arrays;
      [SdpAnswer]: validateOffer, the composed pipeline of NewSession and the
      logged metadata.
    - [Recording] (internal/recording/recorder.go): file names, containment,
      the recorder's life.
    - [AudioPrime] (internal/rtc/audio_prime.go, audio_prime_tone.go).
    - [Contract]: what session.go and session_manager.go rely on in each other,
      as a labelled transition system over a session's life.
    - [Session] (internal/rtc/session.go): the session's struct and all its
      goroutines as a step relation; [SessionLife]: its runs follow the contract.
    - [Manager] (internal/rtc/session_manager.go): the manager's map and all
      calls, expiry timers and terminal callbacks as a step relation;
      [ManagerLife]: it keeps to the contract and goes along with everything a
      session does; [ManagerLinear]: its concurrent calls are linearizable;
      [ManagerTimer]: with a TTL every live session's expiry timer is armed.
    - [Server] (internal/rtc/server.go): NewServer and NewSession.
    - [Config] (internal/config/config.go): Load and its parsers.
    - [HttpApi] (internal/httpapi/handler.go): the registered patterns,
      authorization, request bodies and handlers, over the class [SessionService] with the laws [SessionLaws].
    - [Gateway]: the manager as an instance of that class, NewSession inside
      it, histories of requests, expiries and ends of sessions, and the theorems
      about the composed service.
    - [ProbePeer], [Probe] (cmd/rtc-probe/main.go): building, using and closing
      the probe's peer; runProbe over the class [SessionAPI], the HTTP client,
      the command, and the client against the gateway's handler.
    - [Main] (cmd/rtc-server/main.go): start-up and shutdown.

    ** State and operations

    Strings are lists of bytes.  A Session's state is the record of its guarded
    fields and of what it shares with timers, recorder and peer; a goroutine is
    a program counter, a section under the mutex is one step, and everything
    done outside it is a step of its own, so every interleaving is a run.  The
    Manager's state is its map, a heap of entries and a heap of sessions seen
    through the contract of Contract.v (Close runs once and calls onTerminal,
    later callers wait and get its error, the expiry timer is made, handed over
    and stopped or fires); runs interleave calls, timers and sessions that close
    on their own.  Sequential code is a function of its inputs and of what the
    code outside the repository answers (records such as [peerCalls],
    [engineCalls], [osCalls], [httpCalls]); what it does to the outside is
    returned as a list of actions where the order or number of them matters.

    ** What the theorems show

    - SDP: each normalizer's loops compute a section-by-section reference
      ([normalizeMux_refines_sections], [normalizeMid_refines_sections],
      [normalizeVideo_refines_sections]) and with it exactly the edits they are
      there for, with the sections concerned described by predicates on the text
      that do not mention the code: [activeMux] and [component2]
      ([normalizeMux_removes_only_component2]), [lostMid] and [attributeStart]
      ([normalizeMid_restores_lost_mids]), [rejectedVideo] and [rewrittenBody]
      ([normalizeVideo_rewrites_rejected_video]); every other section comes out
      line for line.  The pipeline keeps the number, order and identity of the
      sections ([normalizeAnswer_preserves_structure]) and is idempotent
      ([normalizeAnswer_idempotent]); offers are accepted exactly if they offer
      Opus ([validateOffer_spec]).  The theorems on mid and video edits and on
      the pipeline are about answers with CRLF, which is what pion produces;
      [normalizeAnswer_lf_twice] is an LF answer on which the pipeline is not
      idempotent, and [mixed_endings_embed_lines] shows what an offer with mixed
      endings does.
    - Sessions, over all interleavings: after Close everything is released,
      recorder, peer, callback and prime are used at most once, all closers get
      the same error, a stale grace timer closes nothing, no goroutine is
      stuck, and a Close ends within eight steps of its own.
    - The two models meet: the labels of any run of a session are a sequence of
      the contract ([session_refines_contract]); the manager moves a session
      only by labels of the contract ([manager_follows_contract]), and follows
      any session of the other model step by step
      ([manager_simulates_session]).
    - Manager, over all interleavings: when no call is in flight map and open
      sessions correspond ([manager_quiescent]), CloseAll is final for every
      Create that reserved before it ([manager_close_all]; one that reserves
      later is not refused, [create_after_close_all]), entries are removed only
      by their owner or on request, and calls made one at a time implement a
      finite map ([manager_refines_map], a refinement); concurrent calls are
      linearizable with respect to it ([manager_linearizable]).
    - API and composition: the handler of a path is that of the most specific
      registered pattern ([router_most_specific]), ids survive the URL
      ([session_path_roundtrip]), bodies beyond 1 MiB are never accepted
      ([create_body_limit]), the JSON a client prints is the request the server
      decodes ([request_body_roundtrip]); no unauthorized or malformed request reaches the
      manager ([service_access]); responses follow the set of live ids
      ([http_live_ids], proved from the laws); after any sequence of requests,
      expiries and sessions that close on their own, the gateway's sessions are
      those a log of them tells without a look at the manager
      ([gateway_history]); a creation answers what NewSession answers
      ([gateway_create]), and NewSession releases what it opened on every error
      ([NewSession_spec]); the probe's client over the wire is the
      session service itself ([client_create_is_service_create]); over a network that
      loses requests or responses or cuts bodies a probe leaves no session
      behind, but for two cases the theorem names ([probe_leaves_no_session]);
      it leaves no peer connection open
      ([probe_run_releases]).
    - Recordings stay in their directory under distinct, safe, short names, and
      the writer gets exactly the packets before the first Close.
    - The audio prime writes exactly the frames of its duration.
    - Configuration: Load accepts exactly the documented values
      ([Load_spec], [parsePublicIPv4_spec]), as values of their Go types
      ([Load_well_typed]), what it accepts passes NewServer
      ([config_starts]), and once it listens the server closes all sessions as
      its last action ([run_closes_sessions]).

    ** Bounds and fuel

    Loops over indices take fuel proved enough for every input: the lines of an
    SDP text plus one for the section loops, three times the lines plus one for
    the video loop (each iteration adds at most two lines), the length of a
    string for decoding runes, for the terms of a duration and for the members
    of a JSON value (each consumes a byte; [runes_fuel_enough], [loops_fuel],
    [stringLit_unquote]), the scanner's own limit of 10000 for its nesting, five steps for a call of the manager other than CloseAll (and four
    more per session for CloseAll).  Integers are Z with the width's test where
    Go tests it (strconv, time.ParseDuration, uint16 ports); the counter
    disconnectGeneration wraps around at 2^64, and the theorem on stale grace
    timers holds below 2^64 state changes of one session.

    ** What is not modelled, and why

    - pion/webrtc, pion/sdp, pion/ice and the OGG writer are third-party code:
      their answers are parameters, and so are sha256 and url.Parse.
    - Logging (apart from the probe's output, which is its result), signal
      handling, the timeouts of net/http and the wall-clock ticker behind the
      audio prime.
    - Data races below the granularity of a mutex section, and the scheduling
      of Go: theorems about runs hold for every schedule, progress is stated
      per goroutine.
    - The skill's JavaScript, deployment files and documents.
    - [gateway_history] is about requests, expiries and ends of sessions one
      after the other, each to its end; how the calls of concurrent handlers,
      timers and sessions interleave is the subject of [manager_linearizable]
      and [manager_quiescent]. *)

From stdpp Require Export base tactics list gmap.
From Stdlib Require Export ZArith Lia.

Declare Scope gateway_scope.
Delimit Scope gateway_scope with gw.
Open Scope gateway_scope.

Create HintDb gateway.

(** ** Results of fallible Go functions: a value and an error, as a sum *)

Inductive result (E A : Type) : Type :=
| Ok (a : A)
| Err (e : E).
Arguments Ok {E A} a.
Arguments Err {E A} e.

Definition result_bind {E A B} (r : result E A) (f : A → result E B) : result E B :=
  match r with
  | Ok a => f a
  | Err e => Err e
  end.

Definition is_ok {E A} (r : result E A) : bool :=
  match r with Ok _ => true | Err _ => false end.

Notation "'let!' x ':=' e 'in' k" := (result_bind e (λ x, k))
  (at level 10, x name, e at level 100, k at level 200) : gateway_scope.
Notation "'guard!' b 'else' err 'in' k" := (if b then k else Err err)
  (at level 10, b at level 100, err at level 100, k at level 200) : gateway_scope.

Lemma result_bind_Ok {E A B} (r : result E A) (f : A → result E B) b :
  result_bind r f = Ok b ↔ ∃ a, r = Ok a ∧ f a = Ok b.
Proof. destruct r as [a|e]; simpl; [|by split; [|intros (?&?&?)]]. split; [by exists a|by intros (?&[= ->]&?)]. Qed.

Lemma result_bind_Err {E A B} (r : result E A) (f : A → result E B) e :
  result_bind r f = Err e ↔ r = Err e ∨ ∃ a, r = Ok a ∧ f a = Err e.
Proof.
  destruct r as [a|e']; simpl.
  - split; [intros H; right; by exists a|by intros [?|(?&[= ->]&?)]].
  - split; [by intros [= ->]; left|by intros [[= ->]|(?&?&?)]].
Qed.

(** ** Tactics *)

(** Split every boolean conjunction, disjunction and equality test of the context. *)
Ltac bool_simpl :=
  repeat match goal with
  | H : _ && _ = true |- _ => apply andb_true_iff in H as [? ?]
  | H : _ || _ = false |- _ => apply orb_false_iff in H as [? ?]
  | H : negb _ = true |- _ => apply negb_true_iff in H
  | H : negb _ = false |- _ => apply negb_false_iff in H
  | H : bool_decide _ = true |- _ => apply bool_decide_eq_true_1 in H
  | H : bool_decide _ = false |- _ => apply bool_decide_eq_false_1 in H
  end.

(** Case on every [if] and [match] of the goal or of a hypothesis. *)
Ltac cases := repeat (case_match; simplify_eq/=; bool_simpl).

(** Case on the matches of the goal only. *)
Ltac goal_cases := repeat match goal with |- context [match ?x with _ => _ end] => destruct x eqn:? end.

(** Case on the matches of [H], an equation of an optional result with a
    triple, and replace the triple's components. *)
Ltac step_cases H :=
  repeat first [discriminate H | match type of H with context [match ?x with _ => _ end] => destruct x eqn:? end];
  injection H as <- <- <-.

(** ** Lists *)

Fixpoint take_while {A} (p : A → bool) (l : list A) : list A :=
  match l with
  | [] => []
  | x :: r => if p x then x :: take_while p r else []
  end.

Fixpoint drop_while {A} (p : A → bool) (l : list A) : list A :=
  match l with
  | [] => []
  | x :: r => if p x then drop_while p r else l
  end.

(** The Go loop [for i < len(l) && p(l[i]) { i++ }], started at index [i]
    with [suffix] the elements of [l] from [i] on; the result is the final [i]. *)
Fixpoint scan {A} (p : A → bool) (suffix : list A) (i : nat) : nat :=
  match suffix with
  | [] => i
  | x :: r => if p x then scan p r (S i) else i
  end.

(** The first index at which [p] holds, counting from [i]: the Go loop that
    breaks at the first hit. *)
Fixpoint find_from {A} (p : A → bool) (suffix : list A) (i : nat) : option nat :=
  match suffix with
  | [] => None
  | x :: r => if p x then Some i else find_from p r (S i)
  end.

Lemma find_from_Some {A} (p : A → bool) l i k :
  find_from p l i = Some k →
  ∃ l1 x l2, l = l1 ++ x :: l2 ∧ k = i + length l1 ∧ p x = true ∧ forallb (λ y, negb (p y)) l1 = true.
Proof.
  revert i; induction l as [|x l IH]; intros i; simpl; [done|]. destruct (p x) eqn:E.
  - intros [= <-]. exists [], x, l. simpl. split_and!; [done|lia|done|done].
  - intros (l1&y&l2&->&->&Hy&Hl1)%IH. exists (x :: l1), y, l2. simpl. rewrite E. split_and!; [done|lia|done|done].
Qed.

Lemma find_from_None {A} (p : A → bool) l i :
  find_from p l i = None → forallb (λ y, negb (p y)) l = true.
Proof.
  revert i; induction l as [|x l IH]; intros i; simpl; [done|]. destruct (p x); [done|]. apply IH.
Qed.

(** Go's [append(lines, ""); copy(lines[i+1:], lines[i:]); lines[i] = x]. *)
Definition insert_at {A} (i : nat) (x : A) (l : list A) : list A :=
  take i l ++ x :: drop i l.

(** Go's slice expression [l[lo:hi]]. *)
Definition slice {A} (lo hi : nat) (l : list A) : list A := take (hi - lo) (drop lo l).

Lemma take_drop_while {A} (p : A → bool) l : take_while p l ++ drop_while p l = l.
Proof. induction l as [|x l IH]; simpl; [done|]. destruct (p x); simpl; by rewrite ?IH. Qed.

Lemma take_while_forallb {A} (p : A → bool) l : forallb p (take_while p l) = true.
Proof. induction l as [|x l IH]; simpl; [done|]. destruct (p x) eqn:E; simpl; by rewrite ?E, ?IH. Qed.

Lemma take_while_app {A} (p : A → bool) l1 l2 :
  forallb p l1 = true → take_while p (l1 ++ l2) = l1 ++ take_while p l2.
Proof. induction l1 as [|x l1 IH]; simpl; [done|]. intros [-> H]%andb_true_iff. by rewrite IH. Qed.

Lemma drop_while_app {A} (p : A → bool) l1 l2 :
  forallb p l1 = true → drop_while p (l1 ++ l2) = drop_while p l2.
Proof. induction l1 as [|x l1 IH]; simpl; [done|]. intros [-> H]%andb_true_iff. by rewrite IH. Qed.

(** The list is exhausted or its first element fails [p]: what stops a scan. *)
Definition stops {A} (p : A → bool) (l : list A) : Prop :=
  match l with [] => True | x :: _ => p x = false end.

Lemma scan_app {A} (p : A → bool) l1 l2 i :
  forallb p l1 = true → stops p l2 → scan p (l1 ++ l2) i = i + length l1.
Proof.
  revert i; induction l1 as [|x l1 IH]; intros i; simpl.
  - intros _ Hs. destruct l2 as [|y l2]; simpl in *; [lia|]. rewrite Hs. lia.
  - intros [-> H]%andb_true_iff Hs. rewrite IH by done. lia.
Qed.

Lemma insert_at_length {A} i (x : A) l : length (insert_at i x l) = S (length l).
Proof. unfold insert_at. rewrite length_app. simpl. rewrite length_take, length_drop. lia. Qed.

Lemma insert_at_app {A} (l1 l2 : list A) x : insert_at (length l1) x (l1 ++ l2) = l1 ++ x :: l2.
Proof. unfold insert_at. by rewrite take_app_length, drop_app_length. Qed.

Lemma slice_app {A} (l1 l2 l3 : list A) :
  slice (length l1) (length l1 + length l2) (l1 ++ l2 ++ l3) = l2.
Proof.
  unfold slice. rewrite drop_app_length.
  replace (length l1 + length l2 - length l1) with (length l2) by lia. apply take_app_length.
Qed.

Lemma existsb_elem {A} (p : A → bool) l : existsb p l = true ↔ ∃ x, x ∈ l ∧ p x = true.
Proof. rewrite existsb_exists. by setoid_rewrite list_elem_of_In. Qed.

Lemma forallb_impl {A} (p q : A → bool) l :
  (∀ x, p x = true → q x = true) → forallb p l = true → forallb q l = true.
Proof. intros H. rewrite !forallb_forall. auto. Qed.

Lemma forallb_Forall {A} (p : A → bool) l : forallb p l = true ↔ Forall (λ x, p x = true) l.
Proof. rewrite forallb_forall, Forall_forall. by setoid_rewrite list_elem_of_In. Qed.

Lemma list_insert_middle {A} (l1 l2 : list A) n x y :
  n = length l1 → <[n := x]> (l1 ++ y :: l2) = l1 ++ x :: l2.
Proof. intros ->. rewrite <- (Nat.add_0_r (length l1)), insert_app_r. done. Qed.

Lemma foldl_fixed {A B} (f : A → B → A) (a : A) (l : list B) :
  (∀ b, b ∈ l → f a b = a) → foldl f a l = a.
Proof.
  induction l as [|b l IH]; simpl; intros H; [done|].
  rewrite H by by left. apply IH. intros c Hc. apply H. by right.
Qed.

(** The elements at the indices [seq (length l1) (length l2)] of [l1 ++ l2 ++ l3]
    are those of [l2]. *)
Lemma lookup_seq_middle {A} (l1 l2 l3 : list A) i x :
  i ∈ seq (length l1) (length l2) → (l1 ++ l2 ++ l3) !! i = Some x → x ∈ l2.
Proof.
  rewrite elem_of_seq. intros [H1 H2] Hx.
  rewrite lookup_app_r in Hx by lia. rewrite lookup_app_l in Hx by lia.
  by apply list_elem_of_lookup_2 in Hx.
Qed.

Lemma map_const_replicate {A B} (b : B) (l : list A) : map (λ _, b) l = replicate (length l) b.
Proof. induction l; simpl; by f_equal. Qed.

Lemma filter_all_true {A} (P : A → Prop) `{!∀ x, Decision (P x)} (l : list A) :
  (∀ x, x ∈ l → P x) → filter P l = l.
Proof.
  induction l as [|x l IH]; intros Hall; [done|]. rewrite filter_cons_True by (apply Hall; by left).
  f_equal. apply IH. intros y Hy. apply Hall. by right.
Qed.

Lemma removelast_cons_ne {A} (x : A) l : l ≠ [] → removelast (x :: l) = x :: removelast l.
Proof. by destruct l. Qed.

Lemma sublist_removelast {A} (l k : list A) :
  l `sublist_of` k → removelast l `sublist_of` removelast k.
Proof.
  induction 1 as [|x l k H IH|x l k H IH]; [done|..].
  - destruct l as [|y l]; [apply sublist_nil_l|].
    assert (k ≠ []) by (intros ->; by apply sublist_nil_r in H).
    rewrite (removelast_cons_ne x (y :: l)), (removelast_cons_ne x k) by done.
    by apply sublist_skip.
  - destruct k as [|y k]; [by apply sublist_nil_r in H as ->|].
    rewrite (removelast_cons_ne x) by done. by apply sublist_cons.
Qed.

Lemma Forall_filter_keep {A} (P Q : A → Prop) `{!∀ x, Decision (Q x)} (l : list A) :
  Forall P l → Forall P (filter Q l).
Proof. rewrite !Forall_forall. intros Hall x Hx%list_elem_of_filter. apply Hall, Hx. Qed.

Lemma sublist_Forall {A} (P : A → Prop) (l k : list A) :
  l `sublist_of` k → Forall P k → Forall P l.
Proof. induction 1; rewrite ?Forall_cons; naive_solver. Qed.

(** ** The elements of a list that satisfy a boolean test

    Used for the goroutines inside a critical body: at most one of them. *)

Fixpoint sel {A} (f : A → bool) (l : list A) : list A :=
  match l with
  | [] => []
  | x :: r => if f x then x :: sel f r else sel f r
  end.

Lemma sel_app {A} (f : A → bool) l k : sel f (l ++ k) = sel f l ++ sel f k.
Proof. induction l as [|x l IH]; simpl; [done|]. case_match; simpl; by rewrite IH. Qed.

Lemma elem_of_sel {A} (f : A → bool) l x : x ∈ sel f l ↔ f x = true ∧ x ∈ l.
Proof.
  induction l as [|y l IH]; simpl; [rewrite !elem_of_nil; by split; [|intros [_ ?]]|].
  destruct (f y) eqn:E; rewrite ?elem_of_cons, ?IH; split.
  - intros [->|[? ?]]; auto.
  - intros [? [->|?]]; auto.
  - intros [? ?]; auto.
  - intros [? [->|?]]; [congruence|auto].
Qed.

Lemma sel_none {A} (f : A → bool) l x : sel f l = [] → x ∈ l → f x = false.
Proof.
  intros H Hx. apply not_true_iff_false. intros Hf.
  assert (x ∈ sel f l) as Hs by by apply elem_of_sel. rewrite H in Hs. by apply elem_of_nil in Hs.
Qed.

(** Replacing an element: by one of the same kind outside, from outside to
    inside an empty selection, and the only one inside. *)
Lemma sel_insert_out {A} (f : A → bool) l i x y :
  l !! i = Some x → f x = false → f y = false → sel f (<[i := y]> l) = sel f l.
Proof.
  revert i; induction l as [|z l IH]; intros [|i]; simpl; try done.
  - by intros [= ->] -> ->.
  - intros. by rewrite IH.
Qed.

Lemma sel_insert_enter {A} (f : A → bool) l i x y :
  l !! i = Some x → sel f l = [] → f y = true → sel f (<[i := y]> l) = [y].
Proof.
  revert i; induction l as [|z l IH]; intros [|i]; simpl; try done; destruct (f z) eqn:E; try done.
  - by intros _ -> ->.
  - intros. by apply IH.
Qed.

Lemma sel_insert_inside {A} (f : A → bool) l i x y z :
  l !! i = Some x → f x = true → sel f l = [z] → z = x ∧ sel f (<[i := y]> l) = if f y then [y] else [].
Proof.
  revert i; induction l as [|w l IH]; intros [|i]; simpl; try done.
  - intros [= ->] ->. intros [= -> ->]. split; [done|]. by destruct (f y).
  - intros Hi Hx. destruct (f w) eqn:E; [|by apply IH]. intros [= -> Hn].
    apply list_elem_of_lookup_2 in Hi. apply (sel_none _ _ _ Hn) in Hi. congruence.
Qed.

Lemma elem_of_insert_or {A} (l : list A) i x y : x ∈ <[i := y]> l → x = y ∨ x ∈ l.
Proof.
  intros (j&Hj)%list_elem_of_lookup. destruct (decide (i = j)) as [->|Hne].
  - apply list_lookup_insert_Some in Hj as [(_&->&_)|[? _]]; [by left|done].
  - rewrite list_lookup_insert_ne in Hj by done. right. by eapply list_elem_of_lookup_2.
Qed.

(** An element leaving the selection. *)
Lemma sel_insert_leave {A} (f : A → bool) l i x y :
  l !! i = Some x → f x = true → f y = false →
  ∃ l1 l2, sel f l = l1 ++ x :: l2 ∧ sel f (<[i := y]> l) = l1 ++ l2.
Proof.
  revert i; induction l as [|z l IH]; intros [|i]; simpl; try done.
  - intros [= ->] -> ->. by exists [], (sel f l).
  - intros Hi Hx Hy. destruct (IH i Hi Hx Hy) as (l1&l2&E1&E2). rewrite E1, E2.
    destruct (f z); [by exists (z :: l1), l2|by exists l1, l2].
Qed.

Lemma sel_insert_started {A} (f : A → bool) l i x y started :
  l !! i = Some x → f x = false → f y = false → sel f started = [] →
  sel f (<[i := y]> l ++ started) = sel f l.
Proof. intros Hi Hx Hy Hs. rewrite sel_app, Hs, app_nil_r. by eapply sel_insert_out. Qed.

Lemma elem_of_middle {A} (l1 l2 : list A) x y : x ∈ l1 ++ y :: l2 ↔ x = y ∨ x ∈ l1 ++ l2.
Proof. rewrite !elem_of_app, elem_of_cons. tauto. Qed.

Lemma NoDup_omap {A B} (f : A → option B) (l : list A) :
  NoDup l → (∀ x y z, x ∈ l → y ∈ l → f x = Some z → f y = Some z → x = y) → NoDup (omap f l).
Proof.
  induction 1 as [|x l Hx Hl IH]; intros Hinj; simpl; [constructor|].
  assert (NoDup (omap f l)) as Hnd by (apply IH; intros; eapply Hinj; eauto; by right).
  destruct (f x) as [z|] eqn:E; [|done]. constructor; [|done].
  intros (y&Hy&Ey)%list_elem_of_omap. apply Hx.
  assert (x = y) as ->; [|done]. eapply Hinj; eauto; [by left|by right].
Qed.

Lemma forallb_drop_while {A} (p q : A → bool) l : forallb p l = true → forallb p (drop_while q l) = true.
Proof. induction l as [|x l IH]; simpl; [done|]. intros [Hx Hl]%andb_true_iff. case_match; simpl; rewrite ?Hx; auto. Qed.

Lemma forallb_rev {A} (p : A → bool) l : forallb p (rev l) = forallb p l.
Proof.
  induction l as [|x l IH]; simpl; [done|]. rewrite forallb_app, IH. simpl. rewrite andb_true_r. apply andb_comm.
Qed.

Lemma forallb_take {A} (p : A → bool) n l : forallb p l = true → forallb p (take n l) = true.
Proof.
  revert n; induction l as [|x l IH]; intros [|n]; simpl; try done.
  intros [-> Hl]%andb_true_iff. simpl. auto.
Qed.

Lemma drop_while_stops {A} (p : A → bool) l : stops p (drop_while p l).
Proof. induction l as [|x l IH]; simpl; [done|]. by case_match. Qed.

Lemma stops_take {A} (p : A → bool) n l : stops p l → stops p (take n l).
Proof. by destruct l, n. Qed.

(** What [rev . drop_while . rev] leaves starts as before. *)
Lemma drop_while_rev_prefix {A} (p : A → bool) l : ∃ t, l = rev (drop_while p (rev l)) ++ t.
Proof.
  exists (rev (take_while p (rev l))).
  by rewrite <- rev_app_distr, take_drop_while, rev_involutive.
Qed.

Lemma sel_replace_same {A} (f : A → bool) l i x y :
  l !! i = Some x → f y = f x →
  (sel f l = [] → sel f (<[i := y]> l) = []) ∧
  (∀ z, sel f l = [z] → ∃ z', sel f (<[i := y]> l) = [z'] ∧ ((z' = y ∧ z = x) ∨ z' = z)).
Proof.
  intros Hi Hf. destruct (f x) eqn:Hx.
  - split.
    + intros Hs. apply list_elem_of_lookup_2 in Hi. by rewrite (sel_none _ _ _ Hs Hi) in Hx.
    + intros z Hs. destruct (sel_insert_inside _ _ _ _ y _ Hi Hx Hs) as [-> ->]. rewrite Hf. exists y. auto.
  - rewrite (sel_insert_out _ _ _ _ _ Hi Hx Hf). split; [done|]. intros z Hs. exists z. auto.
Qed.
