(* ===== verification/GoString.v ===== *)
(** * Go strings: bytes, UTF-8 decoding and the functions of package strings

    A Go string is its list of bytes.  This file holds the functions of the
    Go standard library packages strings, unicode/utf8 and unicode that the
    gateway calls, on arbitrary bytes (invalid UTF-8 included), with the laws
    the components use: [Split]/[Join] round trips for the two line
    separators, and what the fields of [Fields] look like. *)

From S2P Require Import Prelude.
From stdpp Require Export strings.
From Stdlib Require Export Strings.Byte.

Abbreviation gostring := (list byte).

Definition lit (s : String.string) : gostring := String.list_byte_of_string s.
Notation "§ s" := (lit s%string) (at level 8, s at level 0, format "§ s") : gateway_scope.

#[global] Instance byte_eq_decision : EqDecision byte := Byte.byte_eq_dec.
#[global] Program Instance byte_countable : Countable byte :=
  inj_countable Byte.to_N Byte.of_N _.
Next Obligation. apply Byte.of_to_N. Qed.

(** Equality of Go strings, [s == t]. *)
Definition seqb (s t : gostring) : bool := bool_decide (s = t).

(** The numeric value of a byte and the byte of a number modulo 256. *)
Definition bval (c : byte) : Z := Z.of_N (Byte.to_N c).
Definition bchr (z : Z) : byte := default Byte.x00 (Byte.of_N (Z.to_N (z mod 256))).

Definition CR : byte := Byte.x0d.
Definition LF : byte := Byte.x0a.
Definition crlf : gostring := [CR; LF].
Definition lf : gostring := [LF].

(** ** strings.HasPrefix, TrimPrefix, Contains *)

Fixpoint HasPrefix (s p : gostring) {struct p} : bool :=
  match p, s with
  | [], _ => true
  | x :: p', y :: s' => bool_decide (x = y) && HasPrefix s' p'
  | _ :: _, [] => false
  end.

Definition TrimPrefix (s p : gostring) : gostring :=
  if HasPrefix s p then drop (length p) s else s.

Fixpoint Contains (s sub : gostring) : bool :=
  HasPrefix s sub || match s with [] => false | _ :: s' => Contains s' sub end.

(** ** strings.Split, Join, ReplaceAll (with a non-empty separator) *)

Definition cons_head (c : byte) (l : list gostring) : list gostring :=
  match l with
  | [] => [[c]]
  | h :: t => (c :: h) :: t
  end.

(** [skip] bytes of the separator found last remain to be passed over. *)
Fixpoint split_go (sep : gostring) (skip : nat) (s : gostring) : list gostring :=
  match s with
  | [] => [[]]
  | c :: s' =>
      match skip with
      | S k => split_go sep k s'
      | O =>
          if HasPrefix s sep then [] :: split_go sep (length sep - 1) s'
          else cons_head c (split_go sep 0 s')
      end
  end.

Definition Split (s sep : gostring) : list gostring := split_go sep 0 s.

Fixpoint Join (l : list gostring) (sep : gostring) : gostring :=
  match l with
  | [] => []
  | [x] => x
  | x :: r => x ++ sep ++ Join r sep
  end.

Definition ReplaceAll (s old new : gostring) : gostring := Join (Split s old) new.

(** ** unicode/utf8: DecodeRuneInString *)

Definition RuneError : Z := 0xFFFD.
Definition MaxASCII : Z := 0x7F.

(** The lead-byte table of package utf8: length of the sequence and the
    accepted range of its second byte; [None] for an invalid lead byte. *)
Definition lead_info (p0 : Z) : option (nat * Z * Z) :=
  if (p0 <? 0xC2)%Z then None
  else if (p0 <=? 0xDF)%Z then Some (2, 0x80%Z, 0xBF%Z)
  else if (p0 =? 0xE0)%Z then Some (3, 0xA0%Z, 0xBF%Z)
  else if (p0 =? 0xED)%Z then Some (3, 0x80%Z, 0x9F%Z)
  else if (p0 <=? 0xEF)%Z then Some (3, 0x80%Z, 0xBF%Z)
  else if (p0 =? 0xF0)%Z then Some (4, 0x90%Z, 0xBF%Z)
  else if (p0 <=? 0xF3)%Z then Some (4, 0x80%Z, 0xBF%Z)
  else if (p0 =? 0xF4)%Z then Some (4, 0x80%Z, 0x8F%Z)
  else None.

Definition continuation (z : Z) : bool := (0x80 <=? z)%Z && (z <=? 0xBF)%Z.

(** The rune at the start of a non-empty string and its width in bytes;
    [(RuneError, 1)] for an invalid encoding. *)
Definition DecodeRune (s : gostring) : Z * nat :=
  match s with
  | [] => (RuneError, 0)
  | c0 :: r =>
      let p0 := bval c0 in
      if (p0 <? 0x80)%Z then (p0, 1) else
      match lead_info p0 with
      | None => (RuneError, 1)
      | Some (n, lo, hi) =>
          match n, map bval r with
          | 2, p1 :: _ =>
              if (lo <=? p1)%Z && (p1 <=? hi)%Z then
                (Z.lor (Z.shiftl (Z.land p0 0x1F) 6) (Z.land p1 0x3F), 2)
              else (RuneError, 1)
          | 3, p1 :: p2 :: _ =>
              if (lo <=? p1)%Z && (p1 <=? hi)%Z && continuation p2 then
                (Z.lor (Z.shiftl (Z.land p0 0x0F) 12)
                   (Z.lor (Z.shiftl (Z.land p1 0x3F) 6) (Z.land p2 0x3F)), 3)
              else (RuneError, 1)
          | 4, p1 :: p2 :: p3 :: _ =>
              if (lo <=? p1)%Z && (p1 <=? hi)%Z && continuation p2 && continuation p3 then
                (Z.lor (Z.shiftl (Z.land p0 0x07) 18)
                   (Z.lor (Z.shiftl (Z.land p1 0x3F) 12)
                      (Z.lor (Z.shiftl (Z.land p2 0x3F) 6) (Z.land p3 0x3F))), 4)
              else (RuneError, 1)
          | _, _ => (RuneError, 1)
          end
      end
  end.

(** [for _, r := range s]: the runes of [s], each with the bytes it came from. *)
Fixpoint runes_fuel (n : nat) (s : gostring) : list (Z * gostring) :=
  match n, s with
  | S n', _ :: _ =>
      let '(r, w) := DecodeRune s in
      (r, take w s) :: runes_fuel n' (drop w s)
  | _, _ => []
  end.

Definition runes (s : gostring) : list (Z * gostring) := runes_fuel (length s) s.

(** utf8.AppendRune for a valid rune; an invalid one is encoded as U+FFFD. *)
Definition EncodeRune (r : Z) : gostring :=
  let r := if (r <? 0)%Z || (0x10FFFF <? r)%Z || ((0xD800 <=? r)%Z && (r <=? 0xDFFF)%Z)
           then RuneError else r in
  if (r <=? 0x7F)%Z then [bchr r]
  else if (r <=? 0x7FF)%Z then
    [bchr (Z.lor 0xC0 (Z.shiftr r 6)); bchr (Z.lor 0x80 (Z.land r 0x3F))]
  else if (r <=? 0xFFFF)%Z then
    [bchr (Z.lor 0xE0 (Z.shiftr r 12)); bchr (Z.lor 0x80 (Z.land (Z.shiftr r 6) 0x3F));
     bchr (Z.lor 0x80 (Z.land r 0x3F))]
  else
    [bchr (Z.lor 0xF0 (Z.shiftr r 18)); bchr (Z.lor 0x80 (Z.land (Z.shiftr r 12) 0x3F));
     bchr (Z.lor 0x80 (Z.land (Z.shiftr r 6) 0x3F)); bchr (Z.lor 0x80 (Z.land r 0x3F))].

(** ** package unicode *)

(** unicode.IsSpace: the White_Space property. *)
Definition IsSpace (r : Z) : bool :=
  ((9 <=? r)%Z && (r <=? 13)%Z) || (r =? 32)%Z || (r =? 0x85)%Z || (r =? 0xA0)%Z ||
  (r =? 0x1680)%Z || ((0x2000 <=? r)%Z && (r <=? 0x200A)%Z) || (r =? 0x2028)%Z ||
  (r =? 0x2029)%Z || (r =? 0x202F)%Z || (r =? 0x205F)%Z || (r =? 0x3000)%Z.

(** ** strings.Fields and TrimSpace *)

Fixpoint fields_go (segs : list (Z * gostring)) (cur : gostring) : list gostring :=
  match segs with
  | [] => match cur with [] => [] | _ => [cur] end
  | (r, b) :: rest =>
      if IsSpace r then
        match cur with
        | [] => fields_go rest []
        | _ => cur :: fields_go rest []
        end
      else fields_go rest (cur ++ b)
  end.

Definition Fields (s : gostring) : list gostring := fields_go (runes s) [].

(** [strings.TrimSpace(s) == ""]: the only use the gateway makes of TrimSpace. *)
Definition blank (s : gostring) : bool := forallb (λ seg, IsSpace seg.1) (runes s).

(** ** strings.ToLower

    Only ASCII letters, and the two other code points whose lower case is an
    ASCII letter (U+0130 and the Kelvin sign U+212A), are mapped: the gateway
    compares lowered text with ASCII literals only, and every other code point
    stays outside ASCII. *)

Definition lowerRune (r : Z) : Z :=
  if ((65 <=? r) && (r <=? 90))%Z then (r + 32)%Z
  else if (r =? 0x130)%Z then 0x69%Z
  else if (r =? 0x212A)%Z then 0x6B%Z
  else r.

Definition ToLower (s : gostring) : gostring := concat (map (λ seg, EncodeRune (lowerRune seg.1)) (runes s)).

(** ** Line framing: the separator a text is split with

    Every normalizer of the gateway starts with the same choice: CRLF when the
    text contains one, LF otherwise. *)

Definition lineSeparatorOf (text : gostring) : gostring :=
  if Contains text crlf then crlf else lf.

Definition linesOf (text : gostring) : list gostring := Split text (lineSeparatorOf text).

(** The two separators never overlap a line they follow. *)
Definition line_sep (sep : gostring) : Prop := sep = lf ∨ sep = crlf.

(** [x] ends with a carriage return. *)
Definition ends_CR (x : gostring) : bool := bool_decide (last x = Some CR).

(** Lines that [Join] and [linesOf] carry back and forth: no line contains
    the separator; with CRLF there are at least two of them, and with LF none
    but the last ends with a carriage return. *)
Definition framed (sep : gostring) (lines : list gostring) : Prop :=
  Forall (λ x, Contains x sep = false) lines ∧ lines ≠ [] ∧
  ((sep = crlf ∧ 2 ≤ length lines) ∨
   (sep = lf ∧ Forall (λ x, ends_CR x = false) (removelast lines))).

(** ** Laws *)

Lemma HasPrefix_true s p : HasPrefix s p = true ↔ ∃ t, s = p ++ t.
Proof.
  revert s; induction p as [|x p IH]; intros s; simpl.
  - split; [by exists s|done].
  - destruct s as [|y s]; simpl; [by split; [|intros (?&?)]|].
    rewrite andb_true_iff, IH, bool_decide_eq_true. split.
    + intros (->&t&->). by exists t.
    + intros (t&[= -> ->]). by eauto.
Qed.

Lemma HasPrefix_app p t : HasPrefix (p ++ t) p = true.
Proof. apply HasPrefix_true. by exists t. Qed.

Lemma HasPrefix_mono s t p : HasPrefix s p = true → HasPrefix (s ++ t) p = true.
Proof. rewrite !HasPrefix_true. intros (u&->). exists (u ++ t). by rewrite app_assoc. Qed.

(** A string with a non-empty prefix has it at its head, whatever [t] follows. *)
Lemma HasPrefix_app_l s t p :
  length p ≤ length s → HasPrefix (s ++ t) p = HasPrefix s p.
Proof.
  revert s; induction p as [|x p IH]; intros [|y s]; simpl; intros; [done|done|lia|]. by rewrite IH by lia.
Qed.

Lemma TrimPrefix_app p t : TrimPrefix (p ++ t) p = t.
Proof. unfold TrimPrefix. by rewrite HasPrefix_app, drop_app_length. Qed.

Lemma seqb_eq s t : seqb s t = true ↔ s = t.
Proof. apply bool_decide_eq_true. Qed.

Lemma seqb_refl s : seqb s s = true.
Proof. by apply seqb_eq. Qed.

Lemma existsb_seqb_elem x l : existsb (seqb x) l = true ↔ x ∈ l.
Proof.
  rewrite existsb_elem. split.
  - intros (y&Hy&->%seqb_eq). done.
  - intros H. exists x. by rewrite seqb_refl.
Qed.

Lemma seqb_neq s t : seqb s t = false ↔ s ≠ t.
Proof. apply bool_decide_eq_false. Qed.

(** *** Contains *)

Lemma Contains_true s sub : Contains s sub = true ↔ ∃ a b, s = a ++ sub ++ b.
Proof.
  induction s as [|c s IH]; cbn [Contains]; rewrite orb_true_iff, HasPrefix_true.
  - split.
    + intros [(t&E)|]; [|done]. by exists [], t.
    + intros (a&b&E). left. destruct a; [by exists b|done].
  - rewrite IH. split.
    + intros [(t&E)|(a&b&->)]; [by exists [], t|by exists (c :: a), b].
    + intros ([|c' a]&b&E); simplify_eq/=; [left; by exists b|right; by exists a, b].
Qed.

Lemma Contains_app_l s t sub : Contains (s ++ t) sub = false → Contains s sub = false.
Proof.
  intros H. apply not_true_iff_false. apply not_true_iff_false in H. contradict H.
  apply Contains_true in H as (a&b&->). apply Contains_true. exists a, (b ++ t).
  by rewrite <- !app_assoc.
Qed.

Lemma Contains_app_r s t sub : Contains (s ++ t) sub = false → Contains t sub = false.
Proof.
  intros H. apply not_true_iff_false. apply not_true_iff_false in H. contradict H.
  apply Contains_true in H as (a&b&->). apply Contains_true. exists (s ++ a), b.
  by rewrite <- !app_assoc.
Qed.

(** *** Split and Join *)

Lemma split_go_cons sep k s : ∃ h t, split_go sep k s = h :: t.
Proof.
  revert k; induction s as [|c s IH]; intros k; simpl; [by exists [], []|].
  destruct k; [|apply IH]. case_match; [by eexists _, _|].
  destruct (IH 0) as (h&t&->). by eexists _, _.
Qed.

Lemma Split_nonempty s sep : Split s sep ≠ [].
Proof. unfold Split. by destruct (split_go_cons sep 0 s) as (h&t&->). Qed.

Lemma Join_cons_head c l sep : l ≠ [] → Join (cons_head c l) sep = c :: Join l sep.
Proof. destruct l as [|h [|h' t]]; done. Qed.

Lemma Join_cons x l sep : l ≠ [] → Join (x :: l) sep = x ++ sep ++ Join l sep.
Proof. by destruct l. Qed.

Lemma Join_split_go sep k s : sep ≠ [] → Join (split_go sep k s) sep = drop k s.
Proof.
  intros Hsep. revert k; induction s as [|c s IH]; intros k; simpl; [by destruct k|].
  destruct k as [|k]; [|apply IH]. case_match.
  - rewrite Join_cons by (destruct (split_go_cons sep (length sep - 1) s) as (?&?&->); done).
    rewrite IH. apply HasPrefix_true in H as (t&H). destruct sep as [|y sep]; [done|].
    simplify_eq/=. f_equal. replace (length sep - 0) with (length sep) by lia.
    by rewrite drop_app_length.
  - rewrite Join_cons_head by (destruct (split_go_cons sep 0 s) as (?&?&->); done).
    by rewrite IH, drop_0.
Qed.

Lemma Join_Split s sep : sep ≠ [] → Join (Split s sep) sep = s.
Proof. apply Join_split_go. Qed.

Lemma split_go_skip sep u t : split_go sep (length u) (u ++ t) = split_go sep 0 t.
Proof. by induction u. Qed.

Lemma line_sep_nonempty sep : line_sep sep → sep ≠ [].
Proof. by intros [->| ->]. Qed.

(** A separator that cannot start inside a line it follows. *)
Definition no_overlap (sep : gostring) : Prop :=
  sep ≠ [] ∧ ∀ c x t, HasPrefix (c :: x) sep = false → HasPrefix (c :: x ++ sep ++ t) sep = false.

Lemma byte_no_overlap c : no_overlap [c].
Proof. split; [done|]. intros d x t. simpl. done. Qed.

Lemma line_sep_no_overlap sep : line_sep sep → no_overlap sep.
Proof.
  intros [->| ->]; [apply byte_no_overlap|]. split; [done|]. intros c x t. simpl.
  destruct x as [|d x]; simpl.
  - intros _. by rewrite andb_false_r.
  - destruct x; done.
Qed.

Lemma split_go_line sep x t :
  no_overlap sep → Contains x sep = false →
  split_go sep 0 (x ++ sep ++ t) = x :: split_go sep 0 t.
Proof.
  intros [Hne Hs]. induction x as [|c x IH]; intros Hc.
  - destruct sep as [|y sep]; [done|]. pose proof (HasPrefix_app (y :: sep) t) as H.
    cbn [app split_go] in *. rewrite H. simpl. rewrite Nat.sub_0_r. by rewrite split_go_skip.
  - cbn [Contains] in Hc. apply orb_false_iff in Hc as [Hp Hc]. simpl.
    rewrite Hs by done. by rewrite IH.
Qed.

Lemma split_go_last sep x : Contains x sep = false → split_go sep 0 x = [x].
Proof.
  induction x as [|c x IH]; intros Hc; [done|].
  cbn [Contains] in Hc. apply orb_false_iff in Hc as [Hp Hc]. cbn [split_go]. by rewrite Hp, IH.
Qed.

Lemma Split_Join lines sep :
  no_overlap sep → lines ≠ [] → Forall (λ x, Contains x sep = false) lines →
  Split (Join lines sep) sep = lines.
Proof.
  intros Hs Hne H. unfold Split. induction H as [|x l Hx Hl IH]; [done|].
  destruct l as [|y l]; [by apply split_go_last|].
  rewrite Join_cons by done. rewrite split_go_line by done. by rewrite IH.
Qed.

Lemma split_go_head_prefix sep s h t : split_go sep 0 s = h :: t → ∃ u, s = h ++ u.
Proof.
  revert h t; induction s as [|c s IH]; intros h t; simpl.
  - intros [= <- <-]. by exists [].
  - case_match; [intros [= <- <-]; by eexists|].
    destruct (split_go sep 0 s) as [|h' t']; simpl; intros [= <- <-]; [by eexists|].
    destruct (IH h' t' eq_refl) as (u&->). by exists u.
Qed.

Lemma HasPrefix_of_prefix s t p : HasPrefix s p = true → HasPrefix (s ++ t) p = true.
Proof. apply HasPrefix_mono. Qed.

Lemma split_go_no_sep sep k s : sep ≠ [] →
  Forall (λ x, Contains x sep = false) (split_go sep k s).
Proof.
  intros Hsep. assert (Contains [] sep = false) as Hnil by (by destruct sep).
  revert k; induction s as [|c s IH]; intros k; simpl; [by repeat constructor|].
  destruct k as [|k]; [|done]. case_match eqn:Hp; [by constructor|].
  specialize (IH 0). destruct (split_go sep 0 s) as [|h t] eqn:E; simpl.
  { by destruct (split_go_cons sep 0 s) as (?&?&?); congruence. }
  apply Forall_cons in IH as [Hh Ht]. constructor; [|done].
  cbn [Contains]. rewrite Hh, orb_false_r. apply not_true_iff_false. intros Hc.
  destruct (split_go_head_prefix _ _ _ _ E) as (u&->).
  apply (HasPrefix_of_prefix _ u) in Hc. simpl in Hc. congruence.
Qed.

Lemma Split_no_sep s sep : sep ≠ [] → Forall (λ x, Contains x sep = false) (Split s sep).
Proof. apply split_go_no_sep. Qed.

Lemma ends_CR_true x : ends_CR x = true ↔ ∃ y, x = y ++ [CR].
Proof. unfold ends_CR. by rewrite bool_decide_eq_true, last_Some. Qed.

Lemma ends_CR_cons c x : x ≠ [] → ends_CR (c :: x) = ends_CR x.
Proof. unfold ends_CR. by destruct x. Qed.

(** A line that holds no LF and does not end with CR starts no CRLF. *)
Lemma Contains_crlf_line x t :
  Contains x lf = false → ends_CR x = false → Contains t crlf = false →
  Contains (x ++ lf ++ t) crlf = false.
Proof.
  intros Hlf Hcr Ht. induction x as [|c x IH]; [done|].
  cbn [Contains app] in *. apply orb_false_iff in Hlf as [Hc Hlf].
  destruct x as [|d x].
  - simpl. rewrite Ht. simpl in Hc. rewrite andb_true_r in Hc. unfold ends_CR in Hcr. simpl in Hcr.
    rewrite (bool_decide_eq_false_2 (CR = c)); [done|]. intros <-. by vm_compute in Hcr.
  - rewrite ends_CR_cons in Hcr by done. rewrite IH by done. rewrite orb_false_r.
    cbn [Contains] in Hlf. apply orb_false_iff in Hlf as [Hd _]. simpl in *.
    rewrite andb_true_r in Hd. by rewrite Hd, andb_false_r.
Qed.

Lemma Contains_crlf_of_LF_free x : Contains x lf = false → Contains x crlf = false.
Proof.
  intros H. apply not_true_iff_false. apply not_true_iff_false in H. contradict H.
  apply Contains_true in H as (a&b&->). apply Contains_true. exists (a ++ [CR]), b.
  by rewrite <- !app_assoc.
Qed.

Lemma Join_lf_no_crlf lines :
  Forall (λ x, Contains x lf = false) lines →
  Forall (λ x, ends_CR x = false) (removelast lines) →
  Contains (Join lines lf) crlf = false.
Proof.
  induction lines as [|x [|y l] IH]; intros H1 H2; [done| |].
  - apply Forall_cons in H1 as [H1 _]. by apply Contains_crlf_of_LF_free.
  - apply Forall_cons in H1 as [Hx H1]. simpl removelast in H2.
    apply Forall_cons in H2 as [Hx2 H2].
    rewrite Join_cons by done. apply Contains_crlf_line; auto.
Qed.

Lemma Join_lf_no_crlf_inv lines :
  Contains (Join lines lf) crlf = false →
  Forall (λ x, ends_CR x = false) (removelast lines).
Proof.
  induction lines as [|x [|y l] IH]; intros H; [done..|].
  rewrite Join_cons in H by done. simpl removelast. constructor.
  - apply not_true_iff_false. intros (z&->)%ends_CR_true. apply not_true_iff_false in H.
    apply H, Contains_true. exists z, (Join (y :: l) lf). by rewrite <- !app_assoc.
  - apply IH. by apply Contains_app_r, Contains_app_r in H.
Qed.

Lemma lineSeparatorOf_sep text : line_sep (lineSeparatorOf text).
Proof. unfold lineSeparatorOf, line_sep. case_match; auto. Qed.

Lemma Join_linesOf text : Join (linesOf text) (lineSeparatorOf text) = text.
Proof. apply Join_Split, line_sep_nonempty, lineSeparatorOf_sep. Qed.

Lemma framed_sep sep lines : framed sep lines → line_sep sep.
Proof. intros (_&_&[[-> _]|[-> _]]); [by right|by left]. Qed.

Lemma framed_lineSeparatorOf sep lines :
  framed sep lines → lineSeparatorOf (Join lines sep) = sep.
Proof.
  intros (H&_&[[-> Hl]|[-> Hcr]]); unfold lineSeparatorOf.
  - destruct lines as [|x [|y l]]; simpl in Hl; [lia..|].
    rewrite (proj2 (Contains_true _ _)); [done|]. exists x, (Join (y :: l) crlf).
    by rewrite Join_cons.
  - by rewrite Join_lf_no_crlf.
Qed.

Lemma framed_linesOf sep lines : framed sep lines → linesOf (Join lines sep) = lines.
Proof.
  intros H. unfold linesOf. rewrite framed_lineSeparatorOf by done.
  pose proof (line_sep_no_overlap _ (framed_sep _ _ H)). destruct H as (?&?&_). by apply Split_Join.
Qed.

Lemma linesOf_framed text : framed (lineSeparatorOf text) (linesOf text).
Proof.
  pose proof (Join_linesOf text) as HJ.
  assert (Forall (λ x, Contains x (lineSeparatorOf text) = false) (linesOf text)) as HF
    by (apply Split_no_sep, line_sep_nonempty, lineSeparatorOf_sep).
  assert (linesOf text ≠ []) as Hne by apply Split_nonempty.
  split; [done|split; [done|]]. unfold lineSeparatorOf in *.
  destruct (Contains text crlf) eqn:E; [left|right]; (split; [done|]).
  - destruct (linesOf text) as [|x [|y l]]; [done| |simpl; lia].
    apply Forall_cons in HF as [HF _]. simpl in HJ. congruence.
  - apply Join_lf_no_crlf_inv. by rewrite HJ.
Qed.

#[export] Hint Resolve lineSeparatorOf_sep linesOf_framed Split_nonempty framed_sep : gateway.

(** *** Fields: non-empty, without ASCII white space *)

(** A byte that is no ASCII white space. *)
Definition wordByte (c : byte) : bool := (0x80 <=? bval c)%Z || negb (IsSpace (bval c)).

(** A decoded segment is one ASCII byte or has only bytes from 0x80 on. *)
Definition segment_ok (seg : Z * gostring) : Prop :=
  seg.2 ≠ [] ∧ ((∃ c, seg.2 = [c] ∧ seg.1 = bval c) ∨ Forall (λ c, (0x80 <= bval c)%Z) seg.2).

Lemma lead_info_lo p n lo hi : lead_info p = Some (n, lo, hi) → (0x80 <= lo)%Z ∧ 2 ≤ n ≤ 4.
Proof. unfold lead_info. intros H. repeat case_match; simplify_eq; lia. Qed.

Lemma DecodeRune_segment c s : segment_ok ((DecodeRune (c :: s)).1, take (DecodeRune (c :: s)).2 (c :: s)).
Proof.
  assert (∀ r, (0x80 <= bval c)%Z → segment_ok (r, take 1 (c :: s))) as Hone.
  { intros r Hc. split; [done|]. right. simpl. by repeat constructor. }
  unfold DecodeRune. destruct (bval c <? 0x80)%Z eqn:E0.
  { split; [done|]. left. by exists c. }
  apply Z.ltb_ge in E0. destruct (lead_info (bval c)) as [[[n lo] hi]|] eqn:El; [|by apply Hone].
  apply lead_info_lo in El as [Hlo _]. unfold continuation.
  destruct n as [|[|[|[|[|n]]]]], s as [|c1 [|c2 [|c3 s]]]; cbn [map]; try (by apply Hone);
    match goal with |- context [if ?b then _ else _] => destruct b eqn:Hm end; try (by apply Hone); bool_simpl;
    repeat match goal with H : (_ <=? _)%Z = true |- _ => apply Z.leb_le in H end.
  all:
    (split; simpl; [done|]; right; repeat constructor; lia).
Qed.

Lemma runes_segments s : Forall segment_ok (runes s).
Proof.
  unfold runes. generalize (length s). intros n; revert s.
  induction n as [|n IH]; intros [|c s]; cbn [runes_fuel]; try done.
  pose proof (DecodeRune_segment c s) as H. destruct (DecodeRune (c :: s)) as [r w].
  by constructor.
Qed.

Lemma fields_go_words segs cur :
  Forall segment_ok segs → forallb wordByte cur = true →
  Forall (λ f, f ≠ [] ∧ forallb wordByte f = true) (fields_go segs cur).
Proof.
  intros Hs. revert cur. induction Hs as [|[r b] segs [Hne Hseg] Hs IH]; intros cur Hcur; simpl.
  - destruct cur; [done|]. by repeat constructor.
  - destruct (IsSpace r) eqn:Er.
    + destruct cur; [by apply IH|]. constructor; [done|by apply IH].
    + apply IH. rewrite forallb_app, Hcur. simpl. simpl in Hseg.
      destruct Hseg as [(c&->& ->)|Hb].
      * simpl. unfold wordByte. rewrite Er, orb_true_r. done.
      * apply forallb_Forall. eapply Forall_impl; [exact Hb|]. intros c Hc. unfold wordByte.
        by rewrite (proj2 (Z.leb_le _ _) Hc).
Qed.

Lemma Fields_words s : Forall (λ f, f ≠ [] ∧ forallb wordByte f = true) (Fields s).
Proof. apply fields_go_words; [apply runes_segments|done]. Qed.


#[global] Arguments lit : simpl never.
#[global] Arguments HasPrefix : simpl never.
#[global] Arguments TrimPrefix : simpl never.
#[global] Arguments Contains : simpl never.
