(* ===== verification/GoConv.v ===== *)
(** * Package strconv: decimal integers and booleans

    The conversions the gateway calls, with their errors as [None]:
    [Atoi] (a 64-bit int), [ParseUint] in base 10 for a given bit size, and
    [ParseBool].  The bounds theorems say what a successful conversion
    returns and the round trip that every number in range is read back. *)

From S2P Require Import Prelude GoString.

Definition isDigit (c : byte) : bool := ((48 <=? bval c) && (bval c <=? 57))%Z.

(** The digits of [s] read on top of [acc], most significant first. *)
Fixpoint decimal (acc : Z) (s : gostring) : option Z :=
  match s with
  | [] => Some acc
  | c :: r => if isDigit c then decimal (acc * 10 + (bval c - 48))%Z r else None
  end.

Definition ParseDecimal (s : gostring) : option Z :=
  match s with [] => None | _ => decimal 0 s end.

(** strconv.ParseUint(s, 10, bits). *)
Definition ParseUint (s : gostring) (bits : Z) : option Z :=
  match ParseDecimal s with
  | Some v => if (v <? 2 ^ bits)%Z then Some v else None
  | None => None
  end.

(** strconv.Atoi on a platform with 64-bit int. *)
Definition Atoi (s : gostring) : option Z :=
  let '(neg, digits) :=
    match s with
    | c :: r => if bool_decide (c = "-"%byte) then (true, r)
                else if bool_decide (c = "+"%byte) then (false, r) else (false, s)
    | [] => (false, s)
    end in
  match ParseDecimal digits with
  | Some v =>
      if neg then (if (v <=? 2 ^ 63)%Z then Some (- v)%Z else None)
      else (if (v <? 2 ^ 63)%Z then Some v else None)
  | None => None
  end.

(** strconv.ParseBool. *)
Definition ParseBool (s : gostring) : option bool :=
  if bool_decide (s ∈ [§"1"; §"t"; §"T"; §"TRUE"; §"true"; §"True"]) then Some true
  else if bool_decide (s ∈ [§"0"; §"f"; §"F"; §"FALSE"; §"false"; §"False"]) then Some false
  else None.

(** The decimal digits of a natural number (strconv.Itoa on non-negative numbers). *)
Fixpoint digits_fuel (fuel : nat) (n : Z) (acc : gostring) : gostring :=
  match fuel with
  | O => acc
  | S f =>
      let acc := bchr (48 + n mod 10) :: acc in
      if (n <? 10)%Z then acc else digits_fuel f (n / 10) acc
  end.

Definition Itoa (n : Z) : gostring := digits_fuel (S (Z.to_nat n)) n [].

Lemma bval_range c : (0 <= bval c < 256)%Z.
Proof. unfold bval. pose proof (Byte.to_N_bounded c). lia. Qed.

Lemma bval_inj c d : bval c = bval d → c = d.
Proof.
  unfold bval. intros H%N2Z.inj. pose proof (Byte.of_to_N c). pose proof (Byte.of_to_N d). congruence.
Qed.

Lemma bval_bchr z : (0 <= z < 256)%Z → bval (bchr z) = z.
Proof.
  intros H. unfold bval, bchr. rewrite Z.mod_small by lia.
  destruct (Byte.of_N (Z.to_N z)) as [c|] eqn:E; simpl.
  - apply Byte.to_of_N in E. rewrite E. lia.
  - apply Byte.of_N_None_iff in E. lia.
Qed.

Lemma isDigit_range c : isDigit c = true → (0 <= bval c - 48 <= 9)%Z.
Proof. unfold isDigit. intros [?%Z.leb_le ?%Z.leb_le]%andb_true_iff. lia. Qed.

Lemma decimal_nonneg acc s v : (0 <= acc)%Z → decimal acc s = Some v → (acc <= v)%Z.
Proof.
  revert acc; induction s as [|c s IH]; intros acc Ha; simpl; [intros [= <-]; lia|].
  case_match eqn:Hd; [|done]. apply isDigit_range in Hd. intros H.
  apply IH in H; nia.
Qed.

Lemma ParseDecimal_nonneg s v : ParseDecimal s = Some v → (0 <= v)%Z.
Proof. destruct s; [done|]. apply decimal_nonneg. lia. Qed.

Lemma ParseUint_range s bits v : ParseUint s bits = Some v → (0 <= v < 2 ^ bits)%Z.
Proof.
  unfold ParseUint. case_match eqn:E; [|done]. case_match eqn:L; [|done]. intros [= <-].
  apply ParseDecimal_nonneg in E. apply Z.ltb_lt in L. lia.
Qed.

Lemma decimal_app acc s t v : decimal acc s = Some v → decimal acc (s ++ t) = decimal v t.
Proof.
  revert acc; induction s as [|c s IH]; intros acc; simpl; [by intros [= ->]|].
  case_match; [|done]. apply IH.
Qed.

Lemma isDigit_bchr d : (0 <= d <= 9)%Z → isDigit (bchr (48 + d)) = true.
Proof. intros H. unfold isDigit. rewrite bval_bchr by lia. apply andb_true_iff. split; apply Z.leb_le; lia. Qed.

Lemma digits_fuel_decimal fuel n acc :
  (0 <= n)%Z → (Z.to_nat n < fuel) → ∃ k, ∀ a,
  decimal a (digits_fuel fuel n acc) = decimal (a * 10 ^ Z.of_nat k + n)%Z acc.
Proof.
  revert n acc; induction fuel as [|f IH]; intros n acc Hn Hf; [lia|]. simpl.
  pose proof (Z.mod_pos_bound n 10 ltac:(lia)) as Hm.
  case_match eqn:L.
  - apply Z.ltb_lt in L. exists 1. intros a. simpl. rewrite isDigit_bchr by lia.
    rewrite bval_bchr by lia. rewrite Z.mod_small by lia. f_equal. lia.
  - apply Z.ltb_ge in L.
    destruct (IH (n / 10)%Z (bchr (48 + n mod 10) :: acc)) as (k&Hk).
    { apply Z.div_pos; lia. }
    { pose proof (Z.div_lt n 10 ltac:(lia) ltac:(lia)).
      pose proof (Z.div_pos n 10 ltac:(lia) ltac:(lia)). lia. }
    exists (S k). intros a. rewrite Hk. simpl. rewrite isDigit_bchr by lia.
    rewrite bval_bchr by lia. f_equal.
    rewrite Nat2Z.inj_succ, Z.pow_succ_r by lia. pose proof (Z.div_mod n 10 ltac:(lia)). lia.
Qed.

Lemma digits_fuel_nonempty f n acc : digits_fuel (S f) n acc ≠ [].
Proof.
  revert n acc; induction f as [|f IH]; intros n acc.
  - simpl. by case_match.
  - change (digits_fuel (S (S f)) n acc) with
      (if (n <? 10)%Z then bchr (48 + n mod 10) :: acc
       else digits_fuel (S f) (n / 10) (bchr (48 + n mod 10) :: acc)).
    case_match; [done|apply IH].
Qed.

Lemma ParseUint_Itoa n bits : (0 <= n < 2 ^ bits)%Z → ParseUint (Itoa n) bits = Some n.
Proof.
  intros H. unfold ParseUint, ParseDecimal.
  assert (Itoa n ≠ []) as Hne by apply digits_fuel_nonempty.
  destruct (digits_fuel_decimal (S (Z.to_nat n)) n [] ltac:(lia) ltac:(lia)) as (k&Hk).
  specialize (Hk 0%Z). fold (Itoa n) in Hk. simpl in Hk.
  destruct (Itoa n) as [|c r]; [done|]. rewrite Hk. simpl.
  by rewrite (proj2 (Z.ltb_lt _ _)) by lia.
Qed.

#[export] Hint Resolve bval_range ParseUint_range ParseDecimal_nonneg : gateway.
