(* ===== verification/Utf8.v ===== *)
(** * UTF-8: decoding and encoding are inverse

    Laws of [DecodeRune], [EncodeRune] and [runes] ([GoString.v]) used by the
    JSON encoder and decoder: what is decoded from a valid sequence is encoded
    back to it, a sequence decodes the same whatever follows it, and a string
    is read sequence by sequence.  [ToValidUTF8] is what a string becomes when
    it is decoded rune by rune and encoded again: every byte that belongs to
    no valid sequence is replaced by U+FFFD. *)

From S2P Require Import Prelude GoString GoConv.

(** [lia] with division and remainder by constants. *)
Ltac lia_div := Z.div_mod_to_equations; lia.

(** ** Definitions *)

(** Decoded rune by rune and encoded again. *)
Definition ToValidUTF8 (s : gostring) : gostring := concat (map (λ seg, EncodeRune seg.1) (runes s)).

(** utf8.ValidString. *)
Definition ValidString (s : gostring) : bool :=
  forallb (λ seg, negb ((seg.1 =? RuneError)%Z && (length seg.2 =? 1))) (runes s).

(** [seg] is the encoding of [r], and is read as such whatever follows it. *)
Definition encodes (seg : gostring) (r : Z) : Prop :=
  seg ≠ [] ∧ (∀ t, DecodeRune (seg ++ t) = (r, length seg)) ∧ EncodeRune r = seg ∧
  ((∃ c, seg = [c] ∧ r = bval c ∧ (bval c < 0x80)%Z) ∨
   (0x80 <= r)%Z ∧ 2 ≤ length seg ∧ Forall (λ c, (0x80 <= bval c)%Z) seg).

Section BitFields.
Local Open Scope Z_scope.

Lemma lor_field a b n : 0 <= n → 0 <= b < 2 ^ n → Z.lor (Z.shiftl a n) b = a * 2 ^ n + b.
Proof.
  intros Hn Hb. enough (Z.land (Z.shiftl a n) b = 0) as H.
  { pose proof (Z.add_lor_land (Z.shiftl a n) b) as E. rewrite H, Z.shiftl_mul_pow2 in E by done.
    rewrite Z.shiftl_mul_pow2 by done. lia. }
  apply Z.bits_inj'. intros i Hi. rewrite Z.land_spec, Z.bits_0.
  destruct (Z.lt_ge_cases i n); [by rewrite Z.shiftl_spec_low|].
  rewrite <- (Z.mod_small b (2 ^ n)), Z.mod_pow2_bits_high, andb_false_r by lia. done.
Qed.

Lemma land_field a n : 0 <= n → Z.land a (Z.ones n) = a mod 2 ^ n.
Proof. intros. by rewrite Z.land_ones. Qed.

(** The payload of a lead byte and of a continuation byte. *)
Lemma land_1F p : Z.land p 0x1F = p mod 32. Proof. exact (land_field p 5 ltac:(lia)). Qed.
Lemma land_0F p : Z.land p 0x0F = p mod 16. Proof. exact (land_field p 4 ltac:(lia)). Qed.
Lemma land_07 p : Z.land p 0x07 = p mod 8. Proof. exact (land_field p 3 ltac:(lia)). Qed.
Lemma land_3F p : Z.land p 0x3F = p mod 64. Proof. exact (land_field p 6 ltac:(lia)). Qed.
Lemma shiftr_6 r : Z.shiftr r 6 = r / 64. Proof. exact (Z.shiftr_div_pow2 r 6 ltac:(lia)). Qed.
Lemma shiftr_12 r : Z.shiftr r 12 = r / 4096. Proof. exact (Z.shiftr_div_pow2 r 12 ltac:(lia)). Qed.
Lemma shiftr_18 r : Z.shiftr r 18 = r / 262144. Proof. exact (Z.shiftr_div_pow2 r 18 ltac:(lia)). Qed.

(** The marker of a byte of a sequence, on a payload that fits. *)
Lemma lor_C0 x : 0 <= x < 32 → Z.lor 0xC0 x = 0xC0 + x.
Proof. intros. exact (lor_field 6 x 5 ltac:(lia) ltac:(lia)). Qed.
Lemma lor_E0 x : 0 <= x < 16 → Z.lor 0xE0 x = 0xE0 + x.
Proof. intros. exact (lor_field 14 x 4 ltac:(lia) ltac:(lia)). Qed.
Lemma lor_F0 x : 0 <= x < 8 → Z.lor 0xF0 x = 0xF0 + x.
Proof. intros. exact (lor_field 30 x 3 ltac:(lia) ltac:(lia)). Qed.
Lemma lor_80 x : 0 <= x < 64 → Z.lor 0x80 x = 0x80 + x.
Proof. intros. exact (lor_field 2 x 6 ltac:(lia) ltac:(lia)). Qed.

Lemma bchr_eq z c : z = bval c → bchr z = c.
Proof. intros ->. apply bval_inj, bval_bchr, bval_range. Qed.

(** The rune of a sequence of two, three or four bytes. *)
Definition rune2 (a b : Z) : Z := Z.lor (Z.shiftl (Z.land a 0x1F) 6) (Z.land b 0x3F).
Definition rune3 (a b c : Z) : Z := Z.lor (Z.shiftl (Z.land a 0x0F) 12) (Z.lor (Z.shiftl (Z.land b 0x3F) 6) (Z.land c 0x3F)).
Definition rune4 (a b c d : Z) : Z :=
  Z.lor (Z.shiftl (Z.land a 0x07) 18) (Z.lor (Z.shiftl (Z.land b 0x3F) 12) (Z.lor (Z.shiftl (Z.land c 0x3F) 6) (Z.land d 0x3F))).

Lemma rune2_val a b : rune2 a b = a mod 32 * 64 + b mod 64.
Proof. unfold rune2. rewrite land_1F, land_3F, lor_field; lia_div. Qed.
Lemma rune3_val a b c : rune3 a b c = a mod 16 * 4096 + (b mod 64 * 64 + c mod 64).
Proof. unfold rune3. rewrite land_0F, !land_3F, (lor_field _ (c mod 64)), lor_field; lia_div. Qed.
Lemma rune4_val a b c d : rune4 a b c d = a mod 8 * 262144 + (b mod 64 * 4096 + (c mod 64 * 64 + d mod 64)).
Proof. unfold rune4. rewrite land_07, !land_3F, (lor_field _ (d mod 64)), (lor_field (b mod 64)), lor_field; lia_div. Qed.
End BitFields.

(** ** Valid sequences *)

Section Sequences.
Local Open Scope Z_scope.

Lemma EncodeRune_2 c0 c1 :
  0xC2 <= bval c0 <= 0xDF → 0x80 <= bval c1 <= 0xBF →
  0x80 <= rune2 (bval c0) (bval c1) ∧ EncodeRune (rune2 (bval c0) (bval c1)) = [c0; c1].
Proof.
  intros H0 H1. rewrite rune2_val. set (r := _ + _). assert (0x80 <= r <= 0x7FF) by (subst r; lia_div).
  split; [lia|]. unfold EncodeRune.
  rewrite (proj2 (Z.ltb_ge _ _)), (proj2 (Z.ltb_ge 0x10FFFF _)), (proj2 (Z.leb_gt 0xD800 _)) by lia. cbn [orb andb].
  rewrite (proj2 (Z.leb_gt r 0x7F)), (proj2 (Z.leb_le r 0x7FF)) by lia.
  rewrite shiftr_6, land_3F, lor_C0, lor_80 by (subst r; lia_div). repeat f_equal; apply bchr_eq; subst r; lia_div.
Qed.

Lemma EncodeRune_3 c0 c1 c2 :
  0xE0 <= bval c0 <= 0xEF → 0x80 <= bval c1 <= 0xBF → 0x80 <= bval c2 <= 0xBF →
  (bval c0 = 0xE0 → 0xA0 <= bval c1) → (bval c0 = 0xED → bval c1 <= 0x9F) →
  0x80 <= rune3 (bval c0) (bval c1) (bval c2) ∧ EncodeRune (rune3 (bval c0) (bval c1) (bval c2)) = [c0; c1; c2].
Proof.
  intros H0 H1 H2 Ha Hb. rewrite rune3_val. set (r := _ + _).
  assert (0x800 <= r <= 0xFFFF) by (subst r; lia_div).
  assert (r < 0xD800 \/ 0xDFFF < r) by (subst r; lia_div).
  split; [lia|]. unfold EncodeRune.
  rewrite (proj2 (Z.ltb_ge _ 0)), (proj2 (Z.ltb_ge 0x10FFFF _)) by lia.
  assert ((0xD800 <=? r) && (r <=? 0xDFFF) = false) as -> by lia. cbn [orb].
  rewrite (proj2 (Z.leb_gt r 0x7F)), (proj2 (Z.leb_gt r 0x7FF)), (proj2 (Z.leb_le r 0xFFFF)) by lia.
  rewrite shiftr_12, shiftr_6, !land_3F, lor_E0, !lor_80 by (subst r; lia_div). repeat f_equal; apply bchr_eq; subst r; lia_div.
Qed.

Lemma EncodeRune_4 c0 c1 c2 c3 :
  0xF0 <= bval c0 <= 0xF4 → 0x80 <= bval c1 <= 0xBF → 0x80 <= bval c2 <= 0xBF → 0x80 <= bval c3 <= 0xBF →
  (bval c0 = 0xF0 → 0x90 <= bval c1) → (bval c0 = 0xF4 → bval c1 <= 0x8F) →
  0x80 <= rune4 (bval c0) (bval c1) (bval c2) (bval c3) ∧
  EncodeRune (rune4 (bval c0) (bval c1) (bval c2) (bval c3)) = [c0; c1; c2; c3].
Proof.
  intros H0 H1 H2 H3 Ha Hb. rewrite rune4_val. set (r := _ + _).
  assert (0x10000 <= r <= 0x10FFFF) by (subst r; lia_div).
  split; [lia|]. unfold EncodeRune.
  rewrite (proj2 (Z.ltb_ge _ 0)), (proj2 (Z.ltb_ge 0x10FFFF _)), (proj2 (Z.leb_gt r 0xDFFF)), andb_false_r by lia. cbn [orb].
  rewrite (proj2 (Z.leb_gt r 0x7F)), (proj2 (Z.leb_gt r 0x7FF)), (proj2 (Z.leb_gt r 0xFFFF)) by lia.
  rewrite shiftr_18, shiftr_12, shiftr_6, !land_3F, lor_F0, !lor_80 by (subst r; lia_div). repeat f_equal; apply bchr_eq; subst r; lia_div.
Qed.
End Sequences.

(** The table of lead bytes. *)
Lemma lead_info_spec p n lo hi :
  lead_info p = Some (n, lo, hi) → (0x80 <= lo ∧ hi <= 0xBF)%Z ∧
  (n = 2 ∧ (0xC2 <= p <= 0xDF)%Z ∨
   n = 3 ∧ (0xE0 <= p <= 0xEF)%Z ∧ (p = 0xE0 → lo = 0xA0)%Z ∧ (p = 0xED → hi = 0x9F)%Z ∨
   n = 4 ∧ (0xF0 <= p <= 0xF4)%Z ∧ (p = 0xF0 → lo = 0x90)%Z ∧ (p = 0xF4 → hi = 0x8F)%Z).
Proof.
  unfold lead_info. intros H. repeat case_match; simplify_eq; bool_simpl;
    repeat match goal with
    | H : (_ <? _)%Z = _ |- _ => first [apply Z.ltb_lt in H|apply Z.ltb_ge in H]
    | H : (_ <=? _)%Z = _ |- _ => first [apply Z.leb_le in H|apply Z.leb_gt in H]
    | H : (_ =? _)%Z = _ |- _ => first [apply Z.eqb_eq in H|apply Z.eqb_neq in H]
    end; lia.
Qed.

Section Decoding.
Variables (c0 c1 c2 c3 : byte) (lo hi : Z).

Lemma encodes_2 :
  lead_info (bval c0) = Some (2, lo, hi) → (lo <=? bval c1)%Z && (bval c1 <=? hi)%Z = true →
  encodes [c0; c1] (rune2 (bval c0) (bval c1)).
Proof.
  intros Hl Hm. pose proof (lead_info_spec _ _ _ _ Hl) as [Hb [[_ H0]|[[? _]|[? _]]]]; [|done|done].
  pose proof (EncodeRune_2 c0 c1 H0 ltac:(lia)) as [Hr He].
  split_and!; [done| |exact He|right; split_and!; [exact Hr|done|repeat constructor; lia]].
  intros t. unfold DecodeRune. cbn [app]. rewrite (proj2 (Z.ltb_ge _ _)), Hl by lia. cbn [map]. by rewrite Hm.
Qed.

Lemma encodes_3 :
  lead_info (bval c0) = Some (3, lo, hi) → (lo <=? bval c1)%Z && (bval c1 <=? hi)%Z && continuation (bval c2) = true →
  encodes [c0; c1; c2] (rune3 (bval c0) (bval c1) (bval c2)).
Proof.
  intros Hl Hm. pose proof (lead_info_spec _ _ _ _ Hl) as [Hb [[? _]|[(_&H0&Ha&Hd)|[? _]]]]; [done| |done].
  assert (0x80 <= bval c2 <= 0xBF)%Z as H2 by (unfold continuation in Hm; lia).
  pose proof (EncodeRune_3 c0 c1 c2 H0 ltac:(lia) H2 ltac:(lia) ltac:(lia)) as [Hr He].
  split_and!; [done| |exact He|right; split_and!; [exact Hr|simpl; lia|repeat constructor; lia]].
  intros t. unfold DecodeRune. cbn [app]. rewrite (proj2 (Z.ltb_ge _ _)), Hl by lia. cbn [map]. by rewrite Hm.
Qed.

Lemma encodes_4 :
  lead_info (bval c0) = Some (4, lo, hi) →
  (lo <=? bval c1)%Z && (bval c1 <=? hi)%Z && continuation (bval c2) && continuation (bval c3) = true →
  encodes [c0; c1; c2; c3] (rune4 (bval c0) (bval c1) (bval c2) (bval c3)).
Proof.
  intros Hl Hm. pose proof (lead_info_spec _ _ _ _ Hl) as [Hb [[? _]|[[? _]|(_&H0&Ha&Hd)]]]; [done|done|].
  assert (0x80 <= bval c2 <= 0xBF ∧ 0x80 <= bval c3 <= 0xBF)%Z as [H2 H3] by (unfold continuation in Hm; lia).
  pose proof (EncodeRune_4 c0 c1 c2 c3 H0 ltac:(lia) H2 H3 ltac:(lia) ltac:(lia)) as [Hr He].
  split_and!; [done| |exact He|right; split_and!; [exact Hr|simpl; lia|repeat constructor; lia]].
  intros t. unfold DecodeRune. cbn [app]. rewrite (proj2 (Z.ltb_ge _ _)), Hl by lia. cbn [map]. by rewrite Hm.
Qed.
End Decoding.

Lemma encodes_ascii c : (bval c < 0x80)%Z → encodes [c] (bval c).
Proof.
  intros Hc. pose proof (bval_range c) as Hr. split_and!; [done| | |left; by exists c].
  - intros t. unfold DecodeRune. cbn [app]. by rewrite (proj2 (Z.ltb_lt _ _) Hc).
  - unfold EncodeRune. assert ((bval c <? 0) || (0x10FFFF <? bval c) || ((0xD800 <=? bval c) && (bval c <=? 0xDFFF)) = false)%Z as -> by lia.
    rewrite (proj2 (Z.leb_le _ _)) by lia. f_equal. by apply bchr_eq.
Qed.

(** What is decoded is a valid sequence, or one byte that starts none. *)
Lemma DecodeRune_cases c s :
  let '(r, w) := DecodeRune (c :: s) in
  encodes (take w (c :: s)) r ∧ w = length (take w (c :: s)) ∨ r = RuneError ∧ w = 1 ∧ (0x80 <= bval c)%Z.
Proof.
  destruct (Z.ltb_spec (bval c) 0x80) as [Hc|Hc].
  { unfold DecodeRune. rewrite (proj2 (Z.ltb_lt _ _) Hc). left. split; [by apply encodes_ascii|done]. }
  unfold DecodeRune. rewrite (proj2 (Z.ltb_ge _ _) Hc).
  destruct (lead_info (bval c)) as [[[n lo] hi]|] eqn:El; [|by right].
  destruct n as [|[|[|[|[|n]]]]], s as [|c1 [|c2 [|c3 s]]]; cbn [map]; try (by right);
    match goal with |- context [if ?b then _ else _] => destruct b eqn:Hm end; try (by right); left; (split; [|done]);
    first [exact (encodes_2 _ _ _ _ El Hm)|exact (encodes_3 _ _ _ _ _ El Hm)|exact (encodes_4 _ _ _ _ _ _ El Hm)].
Qed.

Lemma DecodeRune_width c s : 1 ≤ (DecodeRune (c :: s)).2.
Proof.
  pose proof (DecodeRune_cases c s) as H. destruct (DecodeRune (c :: s)) as [r w]; simpl.
  destruct H as [[[Hne _] Hw]|(_&->&_)]; [|done]. destruct w; [done|lia].
Qed.

(** ** Strings, sequence by sequence *)

Lemma runes_fuel_enough n m s : length s ≤ n → length s ≤ m → runes_fuel n s = runes_fuel m s.
Proof.
  revert m s. induction n as [|n IH]; intros m [|c s] Hn Hm; [by destruct m|simpl in Hn; lia|by destruct m|].
  destruct m as [|m]; [simpl in Hm; lia|]. cbn [runes_fuel]. pose proof (DecodeRune_width c s) as Hw.
  destruct (DecodeRune (c :: s)) as [r w]. simpl in *. f_equal. destruct w as [|w]; [lia|]. simpl.
  apply IH; rewrite length_drop; lia.
Qed.

Lemma runes_cons c s :
  runes (c :: s) = let '(r, w) := DecodeRune (c :: s) in (r, take w (c :: s)) :: runes (drop w (c :: s)).
Proof.
  unfold runes. cbn [length runes_fuel]. pose proof (DecodeRune_width c s) as Hw.
  destruct (DecodeRune (c :: s)) as [r w]. simpl in Hw. f_equal. destruct w as [|w]; [lia|]. simpl.
  apply runes_fuel_enough; rewrite length_drop; lia.
Qed.

Lemma runes_encodes seg r t : encodes seg r → runes (seg ++ t) = (r, seg) :: runes t.
Proof.
  intros (Hne&Hd&_). specialize (Hd t). destruct seg as [|c seg]; [done|]. cbn [app] in *. rewrite runes_cons, Hd.
  change (c :: seg ++ t) with ((c :: seg) ++ t). by rewrite take_app_length, drop_app_length.
Qed.

(** A string is a valid sequence or a stray byte, and the rest of the string. *)
Lemma runes_ind (P : gostring → Prop) :
  P [] → (∀ seg r t, encodes seg r → P t → P (seg ++ t)) →
  (∀ c t, DecodeRune (c :: t) = (RuneError, 1) → (0x80 <= bval c)%Z → P t → P (c :: t)) → ∀ s, P s.
Proof.
  intros Hnil Hseg Hbad s. induction s as [s IH] using (induction_ltof1 _ length). unfold ltof in IH.
  destruct s as [|c s]; [done|]. pose proof (DecodeRune_cases c s) as Hc. pose proof (DecodeRune_width c s) as Hw.
  destruct (DecodeRune (c :: s)) as [r w] eqn:Hd. simpl in Hw. destruct Hc as [[He _]|(->&->&Hc)].
  - rewrite <- (take_drop w (c :: s)). apply (Hseg _ r); [done|]. apply IH. rewrite length_drop. simpl. lia.
  - apply Hbad; [done|done|]. apply IH. simpl. lia.
Qed.

Lemma ToValidUTF8_encodes seg r t : encodes seg r → ToValidUTF8 (seg ++ t) = seg ++ ToValidUTF8 t.
Proof. intros He. unfold ToValidUTF8. rewrite (runes_encodes seg r t He). simpl. f_equal. apply He. Qed.

Lemma ValidString_encodes seg r t : encodes seg r → ValidString (seg ++ t) = ValidString t.
Proof.
  intros He. unfold ValidString. rewrite (runes_encodes seg r t He). cbn [map forallb fst snd].
  destruct He as (_&_&_&[(c&->&->&Hc)|(_&Hl&_)]).
  - unfold RuneError. rewrite (proj2 (Z.eqb_neq _ _)); [done|lia].
  - rewrite (proj2 (Nat.eqb_neq _ 1)), andb_false_r; [done|lia].
Qed.

(** A valid string is encoded back as it was. *)
Lemma ToValidUTF8_valid s : ValidString s = true → ToValidUTF8 s = s.
Proof.
  induction s as [|seg r t He IH|c t Hd Hc IH] using runes_ind; [done| |].
  - rewrite (ValidString_encodes seg r t He), (ToValidUTF8_encodes seg r t He). intros H. by rewrite IH.
  - unfold ValidString. rewrite runes_cons, Hd. done.
Qed.

Lemma ValidString_ascii s : forallb (λ c, (bval c <? 0x80)%Z) s = true → ValidString s = true.
Proof.
  induction s as [|c s IH]; [done|]. cbn [forallb]. intros [Hc%Z.ltb_lt Hs]%andb_true_iff.
  rewrite <- (IH Hs). change (c :: s) with ([c] ++ s). eapply ValidString_encodes, encodes_ascii, Hc.
Qed.

#[global] Arguments DecodeRune : simpl never.
#[global] Arguments EncodeRune : simpl never.

Lemma EncodeRune_nonempty r : EncodeRune r ≠ [].
Proof. unfold EncodeRune. by repeat case_match. Qed.

Lemma ToValidUTF8_nil s : ToValidUTF8 s = [] → s = [].
Proof.
  destruct s as [|c s]; [done|]. unfold ToValidUTF8. rewrite runes_cons. destruct (DecodeRune (c :: s)) as [r w]. simpl.
  intros [H _]%app_eq_nil. by destruct (EncodeRune_nonempty r).
Qed.
