(* ===== verification/Json.v ===== *)
(** * Package encoding/json: what the gateway and the probe use of it

    [value] reads one JSON value at the head of a text, with the scanner's
    limit on nesting; it tells a text that is wrong from one that ends too
    early, because a decoder reads from a stream.  [decodeStruct] fills the
    string fields of a struct (exact names first, then names equal under case
    folding; the last of several wins; null leaves a field alone; unknown
    names are refused by a strict decoder).  [objectText] and [quoteString]
    print as Marshal and Encoder do, with HTML escaping.

    The laws: a value is recognized from the bytes up to its end, whatever
    follows ([value_stream], [value_short]); the fuel of the member loops is
    enough; what is printed is read back, with invalid UTF-8 replaced. *)

From S2P Require Import Prelude GoString GoConv Utf8.

(** ** Values and the outcome of reading one *)

(** Strings and keys are kept as they are written, between the quotes. *)
#[warnings="-register-all"] Inductive jvalue :=
| JNull
| JBool (b : bool)
| JNumber (text : gostring)
| JString (raw : gostring)
| JArray (elements : list jvalue)
| JObject (members : list (gostring * jvalue)).

(** [Short]: the text ends before the value does.  [Bad]: no continuation of
    what was read is a value. *)
Inductive parsed (A : Type) := Got (a : A) (rest : gostring) | Short | Bad.
Arguments Got {A} _ _.
Arguments Short {A}.
Arguments Bad {A}.

Definition pmap {A B} (f : A → B) (p : parsed A) : parsed B :=
  match p with Got a r => Got (f a) r | Short => Short | Bad => Bad end.
Definition pbind {A B} (p : parsed A) (f : A → gostring → parsed B) : parsed B :=
  match p with Got a r => f a r | Short => Short | Bad => Bad end.

Definition isByte (c d : byte) : bool := bool_decide (c = d).
Definition quote : byte := Byte.x22.
Definition backslash : byte := Byte.x5c.

Definition isSpace (c : byte) : bool := isByte c Byte.x20 || isByte c Byte.x09 || isByte c Byte.x0d || isByte c Byte.x0a.
Definition skipSpace (s : gostring) : gostring := drop_while isSpace s.

(** The first byte that is no white space decides. *)
Definition onByte {A} (s : gostring) (f : byte → gostring → parsed A) : parsed A :=
  match skipSpace s with [] => Short | c :: r => f c r end.

(** ** Literals *)

Definition hexDigit (c : byte) : option Z :=
  let z := bval c in
  if ((48 <=? z) && (z <=? 57))%Z then Some (z - 48)%Z
  else if ((97 <=? z) && (z <=? 102))%Z then Some (z - 97 + 10)%Z
  else if ((65 <=? z) && (z <=? 70))%Z then Some (z - 65 + 10)%Z
  else None.
Definition isHex (c : byte) : bool := match hexDigit c with Some _ => true | None => false end.

(** In a string, after a backslash, or with [n] more digits than one to come. *)
Inductive stringState := InString | InStringEsc | InStringEscU (n : nat).

Definition shortEscape (c : byte) : bool :=
  existsb (isByte c) ["b"%byte; "f"%byte; "n"%byte; "r"%byte; "t"%byte; backslash; "/"%byte; quote].

Fixpoint stringLit (st : stringState) (s : gostring) : parsed gostring :=
  match s with
  | [] => Short
  | c :: r =>
      match st with
      | InString =>
          if isByte c quote then Got [] r
          else if isByte c backslash then pmap (cons c) (stringLit InStringEsc r)
          else if (bval c <? 0x20)%Z then Bad
          else pmap (cons c) (stringLit InString r)
      | InStringEsc =>
          if shortEscape c then pmap (cons c) (stringLit InString r)
          else if isByte c "u"%byte then pmap (cons c) (stringLit (InStringEscU 3) r)
          else Bad
      | InStringEscU n =>
          if isHex c then pmap (cons c) (stringLit (match n with O => InString | S m => InStringEscU m end) r)
          else Bad
      end
  end.

Inductive numberState := NumNeg | NumZero | NumInt | NumDot | NumFrac | NumE | NumESign | NumExp.

Definition numberStep (st : numberState) (c : byte) : option numberState :=
  let exponent := isByte c "e"%byte || isByte c "E"%byte in
  match st with
  | NumNeg => if isByte c "0"%byte then Some NumZero else if isDigit c then Some NumInt else None
  | NumZero => if isByte c "."%byte then Some NumDot else if exponent then Some NumE else None
  | NumInt => if isDigit c then Some NumInt else if isByte c "."%byte then Some NumDot else if exponent then Some NumE else None
  | NumDot => if isDigit c then Some NumFrac else None
  | NumFrac => if isDigit c then Some NumFrac else if exponent then Some NumE else None
  | NumE => if isByte c "+"%byte || isByte c "-"%byte then Some NumESign else if isDigit c then Some NumExp else None
  | NumESign => if isDigit c then Some NumExp else None
  | NumExp => if isDigit c then Some NumExp else None
  end.

Definition numberFinal (st : numberState) : bool :=
  match st with NumZero | NumInt | NumFrac | NumExp => true | _ => false end.

Fixpoint number (st : numberState) (s : gostring) : parsed gostring :=
  match s with
  | [] => if numberFinal st then Got [] [] else Short
  | c :: r =>
      match numberStep st c with
      | Some st' => pmap (cons c) (number st' r)
      | None => if numberFinal st then Got [] s else Bad
      end
  end.

(** The rest of true, false or null. *)
Fixpoint word (w s : gostring) : parsed unit :=
  match w, s with
  | [], _ => Got tt s
  | _, [] => Short
  | d :: w', c :: r => if isByte c d then word w' r else Bad
  end.

(** ** Arrays, objects and values *)

Section Nested.
Variable value : gostring → parsed jvalue.

(** After "[" or, when not [first], after a comma.  The fuel is the length of
    the text: every turn reads a byte. *)
Fixpoint elements (fuel : nat) (first : bool) (s : gostring) : parsed (list jvalue) :=
  match fuel with
  | O => Short
  | S fuel =>
      onByte s (λ c r,
        if first && isByte c "]"%byte then Got [] r
        else pbind (value s) (λ v r,
          onByte r (λ c r,
            if isByte c ","%byte then pmap (cons v) (elements fuel false r)
            else if isByte c "]"%byte then Got [v] r
            else Bad)))
  end.

(** After "{" or, when not [first], after a comma. *)
Fixpoint members (fuel : nat) (first : bool) (s : gostring) : parsed (list (gostring * jvalue)) :=
  match fuel with
  | O => Short
  | S fuel =>
      onByte s (λ c r,
        if first && isByte c "}"%byte then Got [] r
        else if isByte c quote then
          pbind (stringLit InString r) (λ key r,
            onByte r (λ c r,
              if isByte c ":"%byte then
                pbind (value r) (λ v r,
                  onByte r (λ c r,
                    if isByte c ","%byte then pmap (cons (key, v)) (members fuel false r)
                    else if isByte c "}"%byte then Got [(key, v)] r
                    else Bad))
              else Bad))
        else Bad)
  end.
End Nested.

(** The scanner's maxNestingDepth. *)
Definition maxNestingDepth : nat := Z.to_nat 10000.

(** One value, white space before it included; [depth] levels may be opened. *)
Fixpoint value (depth : nat) (s : gostring) : parsed jvalue :=
  onByte s (λ c r,
    if isByte c "{"%byte then
      match depth with O => Bad | S d => pmap JObject (members (value d) (S (length r)) true r) end
    else if isByte c "["%byte then
      match depth with O => Bad | S d => pmap JArray (elements (value d) (S (length r)) true r) end
    else if isByte c quote then pmap JString (stringLit InString r)
    else if isByte c "-"%byte then pmap (JNumber ∘ cons c) (number NumNeg r)
    else if isByte c "0"%byte then pmap (JNumber ∘ cons c) (number NumZero r)
    else if isDigit c then pmap (JNumber ∘ cons c) (number NumInt r)
    else if isByte c "t"%byte then pmap (λ _, JBool true) (word §"rue" r)
    else if isByte c "f"%byte then pmap (λ _, JBool false) (word §"alse" r)
    else if isByte c "n"%byte then pmap (λ _, JNull) (word §"ull" r)
    else Bad).

(** ** Decoder.Decode: the next value of a stream

    [Blank]: white space only.  [Scalar]: a string, number or literal that ends
    with the stream; the decoder waits for one more byte or the end. *)
Inductive nextValue :=
| Blank | Complete (v : jvalue) (rest : gostring) | Scalar (v : jvalue) | Malformed | Incomplete.

Definition isScalar (v : jvalue) : bool :=
  match v with JArray _ | JObject _ => false | _ => true end.

Definition scanValue (s : gostring) : nextValue :=
  match skipSpace s with
  | [] => Blank
  | _ =>
      match value maxNestingDepth s with
      | Got v rest => match rest with [] => if isScalar v then Scalar v else Complete v [] | _ => Complete v rest end
      | Bad => Malformed
      | Short => Incomplete
      end
  end.

(** ** unquote *)

Definition unescape (c : byte) : option byte :=
  if existsb (isByte c) [quote; backslash; "/"%byte; "'"%byte] then Some c
  else if isByte c "b"%byte then Some Byte.x08
  else if isByte c "f"%byte then Some Byte.x0c
  else if isByte c "n"%byte then Some Byte.x0a
  else if isByte c "r"%byte then Some Byte.x0d
  else if isByte c "t"%byte then Some Byte.x09
  else None.

(** The number of a \uXXXX at the head of [s]. *)
Definition getu4 (s : gostring) : option Z :=
  match s with
  | b :: u :: d0 :: d1 :: d2 :: d3 :: _ =>
      if isByte b backslash && isByte u "u"%byte then
        match hexDigit d0, hexDigit d1, hexDigit d2, hexDigit d3 with
        | Some h0, Some h1, Some h2, Some h3 => Some (((h0 * 16 + h1) * 16 + h2) * 16 + h3)%Z
        | _, _, _, _ => None
        end
      else None
  | _ => None
  end.

(** utf16.IsSurrogate, and utf16.DecodeRune on a pair that is one. *)
Definition IsSurrogate (r : Z) : bool := ((0xD800 <=? r) && (r <? 0xE000))%Z.
Definition surrogatePair (r1 : Z) (r2 : option Z) : option Z :=
  match r2 with
  | Some r2 =>
      if ((0xD800 <=? r1) && (r1 <? 0xDC00) && (0xDC00 <=? r2) && (r2 <? 0xE000))%Z
      then Some (Z.lor (Z.shiftl (r1 - 0xD800) 10) (r2 - 0xDC00) + 0x10000)%Z else None
  | None => None
  end.

Fixpoint unquote_fuel (fuel : nat) (s : gostring) : option gostring :=
  match fuel, s with
  | _, [] => Some []
  | O, _ => None
  | S fuel, c :: r =>
      if isByte c backslash then
        match r with
        | [] => None
        | e :: r' =>
            if isByte e "u"%byte then
              match getu4 s with
              | None => None
              | Some rr =>
                  if IsSurrogate rr then
                    match surrogatePair rr (getu4 (drop 6 s)) with
                    | Some dec => app (EncodeRune dec) <$> unquote_fuel fuel (drop 12 s)
                    | None => app (EncodeRune RuneError) <$> unquote_fuel fuel (drop 6 s)
                    end
                  else app (EncodeRune rr) <$> unquote_fuel fuel (drop 6 s)
              end
            else match unescape e with Some b => cons b <$> unquote_fuel fuel r' | None => None end
        end
      else if isByte c quote || (bval c <? 0x20)%Z then None
      else let '(rr, size) := DecodeRune s in app (EncodeRune rr) <$> unquote_fuel fuel (drop size s)
  end.

(** The string a literal stands for; the decoder only asks for it on what the
    scanner let through, where it is defined ([stringLit_unquote]). *)
Definition unquote (raw : gostring) : option gostring := unquote_fuel (length raw) raw.

(** ** Decoding into a struct of string fields *)

(** foldName, on the runes that are equal to an ASCII one under case folding:
    besides the letters, U+017F to S and U+212A to K.  Any other rune is left
    as it is: no field name of the program contains one. *)
Definition foldRune (r : Z) : Z :=
  if ((97 <=? r) && (r <=? 122))%Z then (r - 32)%Z
  else if (r =? 0x17F)%Z then 0x53%Z
  else if (r =? 0x212A)%Z then 0x4B%Z
  else r.
Definition foldName (s : gostring) : list Z := map (λ seg, foldRune seg.1) (runes s).

Section Struct.
Variables (names : list gostring) (strict : bool).

Definition fieldNamed (key : gostring) : option gostring :=
  match list_find (λ n, n = key) names with
  | Some (_, n) => Some n
  | None => snd <$> list_find (λ n, foldName n = foldName key) names
  end.

(** The fields set so far; a field that is not there is the empty string.
    [None] once there is an error: the decoder goes on but returns it. *)
Definition setMember (fields : option (gmap gostring gostring)) (m : gostring * jvalue) : option (gmap gostring gostring) :=
  match fields with
  | None => None
  | Some fields =>
      match fieldNamed (default [] (unquote m.1)) with
      | None => if strict then None else Some fields
      | Some n =>
          match m.2 with
          | JString raw => Some (<[n := default [] (unquote raw)]> fields)
          | JNull => Some fields
          | _ => None
          end
      end
  end.

Definition decodeStruct (v : jvalue) : option (gmap gostring gostring) :=
  match v with
  | JObject ms => foldl setMember (Some ∅) ms
  | JNull => Some ∅
  | _ => None
  end.
End Struct.

(** ** Marshal *)

Definition hexChar (d : Z) : byte := if (d <? 10)%Z then bchr (48 + d) else bchr (87 + d).

Definition escapeASCII (c : byte) : gostring :=
  if isByte c quote || isByte c backslash then [backslash; c]
  else if isByte c Byte.x08 then [backslash; "b"%byte]
  else if isByte c Byte.x0c then [backslash; "f"%byte]
  else if isByte c Byte.x0a then [backslash; "n"%byte]
  else if isByte c Byte.x0d then [backslash; "r"%byte]
  else if isByte c Byte.x09 then [backslash; "t"%byte]
  else if (bval c <? 0x20)%Z || isByte c "<"%byte || isByte c ">"%byte || isByte c "&"%byte
  then §"\u00" ++ [hexChar (Z.shiftr (bval c) 4); hexChar (Z.land (bval c) 0xF)]
  else [c].

Definition escapeRune (seg : Z * gostring) : gostring :=
  let '(r, b) := seg in
  if (r =? RuneError)%Z && (length b =? 1) then §"\ufffd"
  else if (r =? 0x2028)%Z || (r =? 0x2029)%Z then §"\u202" ++ [hexChar (Z.land r 0xF)]
  else match b with [c] => escapeASCII c | _ => b end.

Definition escape (s : gostring) : gostring := concat (map escapeRune (runes s)).
Definition quoteString (s : gostring) : gostring := quote :: escape s ++ [quote].

(** An object of the given keys and texts of values. *)
Definition objectText (fields : list (gostring * gostring)) : gostring :=
  "{"%byte :: Join (map (λ f, quoteString f.1 ++ ":"%byte :: f.2) fields) §"," ++ ["}"%byte].

#[global] Opaque maxNestingDepth.

(** ** Reading from a stream

    [agree P t p q]: [p], read from the head of a text, is what [q] is when [t]
    follows the text: an error stays an error, and a value that is [P] or
    followed by something stays that value. *)

Definition agree {A} (P : A → Prop) (t : gostring) (p q : parsed A) : Prop :=
  match p with
  | Got a r => r ≠ [] ∨ P a → q = Got a (r ++ t)
  | Short => True
  | Bad => q = Bad
  end.

Definition always {A} (_ : A) : Prop := True.
Definition never {A} (_ : A) : Prop := False.

Section Agree.
Context {A B : Type} (t : gostring).

Lemma agree_map (P : A → Prop) (Q : B → Prop) (f : A → B) p q :
  (∀ a, Q (f a) → P a) → agree P t p q → agree Q t (pmap f p) (pmap f q).
Proof. intros HQ. destruct p; simpl; [|done|by intros ->]. intros H [Hr|HP]; rewrite H; auto. Qed.

Lemma agree_bind (P : A → Prop) (Q : B → Prop) p q (f g : A → gostring → parsed B) :
  agree P t p q → (∀ a r, p = Got a r → r ≠ [] ∨ P a → agree Q t (f a r) (g a (r ++ t))) →
  (∀ a, P a ∨ f a [] = Short) → agree Q t (pbind p f) (pbind q g).
Proof.
  intros H Hf Hs. destruct p as [a r| |]; simpl in *; [|done|by rewrite H].
  destruct (Hs a) as [HP|Hnil]; [rewrite H; auto|]. destruct r; [by rewrite Hnil|]. rewrite H; [|by left]. by apply Hf; [|left].
Qed.

Lemma skipSpace_app s c r : skipSpace s = c :: r → skipSpace (s ++ t) = c :: r ++ t.
Proof.
  unfold skipSpace. induction s as [|d s IH]; [done|]. simpl. destruct (isSpace d); [done|]. by intros [= -> ->].
Qed.

Lemma agree_byte (P : A → Prop) s (f g : byte → gostring → parsed A) :
  (∀ c r, skipSpace s = c :: r → agree P t (f c r) (g c (r ++ t))) → agree P t (onByte s f) (onByte (s ++ t) g).
Proof.
  intros H. unfold onByte. destruct (skipSpace s) as [|c r] eqn:E; [done|]. rewrite (skipSpace_app _ _ _ E). by apply H.
Qed.
End Agree.

Lemma stringLit_agree t st s : agree always t (stringLit st s) (stringLit st (s ++ t)).
Proof.
  revert st. induction s as [|c s IH]; intros st; [done|]. destruct st as [| |n]; cbn [stringLit app].
  all: repeat match goal with |- context [if ?b then _ else _] => destruct b end; first [done|apply (agree_map t always); [done|apply IH]].
Qed.

Lemma number_agree t st s : agree never t (number st s) (number st (s ++ t)).
Proof.
  revert st. induction s as [|c s IH]; intros st; cbn [number app].
  - destruct (numberFinal st); [|done]. by intros [].
  - destruct (numberStep st c); [apply (agree_map t never); [done|apply IH]|]. by destruct (numberFinal st).
Qed.

Lemma word_agree t w s : agree always t (word w s) (word w (s ++ t)).
Proof. revert s. induction w as [|d w IH]; intros [|c s]; simpl; try done. destruct (isByte c d); [apply IH|done]. Qed.

(** What is left is shorter than what was read. *)

Lemma pmap_Got {A B} (f : A → B) p b r : pmap f p = Got b r → ∃ a, p = Got a r ∧ b = f a.
Proof. destruct p; [|done|done]. intros [= <- <-]. eauto. Qed.

Lemma pbind_Got {A B} (p : parsed A) (f : A → gostring → parsed B) b r :
  pbind p f = Got b r → ∃ a r', p = Got a r' ∧ f a r' = Got b r.
Proof. destruct p; [|done|done]. simpl. eauto. Qed.

Lemma skipSpace_length s : length (skipSpace s) ≤ length s.
Proof. unfold skipSpace. induction s as [|c s IH]; simpl; [done|]. destruct (isSpace c); simpl; lia. Qed.

Lemma onByte_Got {A} s (f : byte → gostring → parsed A) a r :
  onByte s f = Got a r → ∃ c r', skipSpace s = c :: r' ∧ length r' < length s ∧ f c r' = Got a r.
Proof.
  unfold onByte. pose proof (skipSpace_length s) as Hl. destruct (skipSpace s) as [|c r']; [done|].
  intros H. exists c, r'. split_and!; [done|simpl in Hl; lia|done].
Qed.

Ltac got_cases H :=
  repeat match type of H with
  | pmap _ _ = Got _ _ => apply pmap_Got in H as (?&H&?)
  | (if ?b then _ else _) = Got _ _ => destruct b eqn:?
  | Bad = Got _ _ => discriminate H
  | Short = Got _ _ => discriminate H
  | Got _ _ = Got _ _ => injection H as ??
  end.

Lemma stringLit_length st s x r : stringLit st s = Got x r → length r < length s.
Proof.
  revert st x. induction s as [|c s IH]; intros st x H; [done|].
  destruct st as [| |n]; cbn [stringLit] in H; got_cases H; subst; simpl; try lia; specialize (IH _ _ H); lia.
Qed.

Lemma number_length st s x r : number st s = Got x r → length r ≤ length s.
Proof.
  revert st x. induction s as [|c s IH]; intros st x H; cbn [number] in H.
  - destruct (numberFinal st); [|done]. by injection H as <- <-.
  - destruct (numberStep st c); got_cases H; subst; simpl; [|lia]. specialize (IH _ _ H). lia.
Qed.

Lemma word_length w s x r : word w s = Got x r → length r ≤ length s.
Proof.
  revert s. induction w as [|d w IH]; intros [|c s] H; simpl in H; simplify_eq; [done|done|].
  got_cases H. specialize (IH _ H). simpl. lia.
Qed.

(** ** Arrays and objects over a reader of values *)

(** A value that ends with a byte of its own, and not where the next byte is
    none of a number. *)
Definition delimited (v : jvalue) : Prop := match v with JNumber _ => False | _ => True end.

Section NestedLaws.
Variable val : gostring → parsed jvalue.
Hypothesis (Hlength : ∀ s v r, val s = Got v r → length r < length s).

Lemma elements_length n first s l r : elements val n first s = Got l r → length r < length s.
Proof using Hlength.
  revert first s l. induction n as [|n IH]; intros first s l H; [done|]. cbn [elements] in H.
  apply onByte_Got in H as (c&r1&_&Hl1&H). got_cases H; subst; [done|].
  apply pbind_Got in H as (v&r2&Hv&H). apply Hlength in Hv.
  apply onByte_Got in H as (d&r3&_&Hl3&H). got_cases H; subst; [|lia]. apply IH in H. lia.
Qed.

Lemma members_length n first s l r : members val n first s = Got l r → length r < length s.
Proof using Hlength.
  revert first s l. induction n as [|n IH]; intros first s l H; [done|]. cbn [members] in H.
  apply onByte_Got in H as (c&r1&_&Hl1&H). got_cases H; subst; [done|].
  apply pbind_Got in H as (k&r2&Hk&H). apply stringLit_length in Hk.
  apply onByte_Got in H as (d&r3&_&Hl3&H). got_cases H.
  apply pbind_Got in H as (v&r4&Hv&H). apply Hlength in Hv.
  apply onByte_Got in H as (e&r5&_&Hl5&H). got_cases H; subst; [|lia]. apply IH in H. lia.
Qed.

Variable (t : gostring).
Hypothesis (Hagree : ∀ s, agree delimited t (val s) (val (s ++ t))).

Lemma elements_agree n m first s :
  length s < n → length (s ++ t) < m → agree always t (elements val n first s) (elements val m first (s ++ t)).
Proof using Hlength Hagree.
  revert m first s. induction n as [|n IH]; intros [|m] first s Hn Hm; [lia|lia|lia|]. cbn [elements].
  apply agree_byte. intros c r _. destruct (first && isByte c "]"%byte); [done|].
  apply (agree_bind t delimited); [apply Hagree| |by right]. intros v r1 Hv _.
  apply Hlength in Hv. apply agree_byte. intros d r2 Hr2.
  destruct (isByte d ","%byte); [|by destruct (isByte d "]"%byte)].
  apply (agree_map t always); [done|]. pose proof (skipSpace_length r1) as Hl. rewrite Hr2 in Hl. simpl in Hl.
  rewrite length_app in Hm. apply IH; rewrite ?length_app; lia.
Qed.

Lemma members_agree n m first s :
  length s < n → length (s ++ t) < m → agree always t (members val n first s) (members val m first (s ++ t)).
Proof using Hlength Hagree.
  revert m first s. induction n as [|n IH]; intros [|m] first s Hn Hm; [lia|lia|lia|]. cbn [members].
  apply agree_byte. intros c r Hr. destruct (first && isByte c "}"%byte); [done|]. destruct (isByte c quote); [|done].
  apply (agree_bind t always); [apply stringLit_agree| |by left]. intros key r1 Hkey _. apply stringLit_length in Hkey.
  apply agree_byte. intros d r2 Hr2. destruct (isByte d ":"%byte); [|done].
  apply (agree_bind t delimited); [apply Hagree| |by right]. intros v r3 Hv _. apply Hlength in Hv.
  apply agree_byte. intros e r4 Hr4. destruct (isByte e ","%byte); [|by destruct (isByte e "}"%byte)].
  apply (agree_map t always); [done|].
  pose proof (skipSpace_length s). pose proof (skipSpace_length r1). pose proof (skipSpace_length r3).
  rewrite Hr in *. rewrite Hr2 in *. rewrite Hr4 in *. simpl in *. rewrite length_app in Hm. apply IH; rewrite ?length_app; lia.
Qed.
End NestedLaws.

Lemma value_length depth s v r : value depth s = Got v r → length r < length s.
Proof.
  revert s v r. induction depth as [|d IH]; intros s v r H; cbn [value] in H;
    apply onByte_Got in H as (c&r1&_&Hl&H); got_cases H;
    try (apply elements_length in H; [lia|exact IH]); try (apply members_length in H; [lia|exact IH]);
    first [apply stringLit_length in H; lia|apply number_length in H; lia|apply word_length in H; lia].
Qed.

(** A value is recognized from the bytes up to its end. *)
Lemma value_agree depth t s : agree delimited t (value depth s) (value depth (s ++ t)).
Proof.
  revert s. induction depth as [|d IH]; intros s; cbn [value]; apply agree_byte; intros c r _.
  all: repeat match goal with |- agree _ _ (if ?b then _ else _) _ => destruct b end; try done.
  all: try (apply (agree_map t always); [done|first [apply stringLit_agree|apply word_agree]]).
  all: try (apply (agree_map t never); [done|apply number_agree]).
  - apply (agree_map t always); [done|]. apply members_agree; [apply value_length|done|lia|lia].
  - apply (agree_map t always); [done|]. apply elements_agree; [apply value_length|done|lia|lia].
Qed.

(** The fuel of the loops is enough: more of it changes nothing. *)
Lemma agree_nil {A} (p q : parsed A) : agree always [] p q → agree always [] q p → p = q.
Proof.
  unfold agree. destruct p as [a r| |], q as [b k| |]; intros H1 H2; try done;
    first [rewrite (H1 (or_intror I)), app_nil_r; done|rewrite (H2 (or_intror I)), app_nil_r; done].
Qed.

Lemma loops_fuel depth n m first s : length s < n → length s < m →
  elements (value depth) n first s = elements (value depth) m first s ∧
  members (value depth) n first s = members (value depth) m first s.
Proof.
  pose proof (elements_agree _ (value_length depth) [] (value_agree depth [])) as He.
  pose proof (members_agree _ (value_length depth) [] (value_agree depth [])) as Hm.
  intros Hn Hn'. split; apply agree_nil; rewrite <- (app_nil_r s) at 2; (apply He || apply Hm); rewrite ?app_nil_r; done.
Qed.

(** A decoder that has found a value or an error need not read on. *)
Lemma scanValue_stream s t :
  match scanValue s with
  | Complete v rest => scanValue (s ++ t) = Complete v (rest ++ t)
  | Malformed => scanValue (s ++ t) = Malformed
  | _ => True
  end.
Proof.
  unfold scanValue. destruct (skipSpace s) as [|c r] eqn:Hs; [done|]. rewrite (skipSpace_app t s c r Hs).
  pose proof (value_agree maxNestingDepth t s) as H. unfold agree in H.
  destruct (value maxNestingDepth s) as [v rest| |]; [|done|by rewrite H].
  destruct rest as [|d rest]; [|by rewrite H; [|left]].
  destruct (isScalar v) eqn:Hv; [done|]. rewrite H by (right; by destruct v). simpl. destruct t; [by rewrite Hv|done].
Qed.

(** ** Strings: what is printed is read back *)

Lemma isByte_true c d : isByte c d = true ↔ c = d.
Proof. apply bool_decide_eq_true. Qed.

(** [x] stands inside a string literal. *)
Definition inLiteral (x : gostring) : Prop := ∀ u, stringLit InString (x ++ u) = pmap (app x) (stringLit InString u).

(** ... where it denotes [y]. *)
Definition denotes (x y : gostring) : Prop :=
  inLiteral x ∧ x ≠ [] ∧ ∀ n u, unquote_fuel (S n) (x ++ u) = app y <$> unquote_fuel n u.

Lemma pmap_pmap {A B C} (f : A → B) (g : B → C) p : pmap g (pmap f p) = pmap (g ∘ f) p.
Proof. by destruct p. Qed.

Lemma isByte_high c d : (0x80 <= bval c)%Z → (bval d < 0x80)%Z → isByte c d = false.
Proof. intros Hc Hd. apply bool_decide_eq_false. intros ->. lia. Qed.

Lemma bchr_ascii_range z : (0 <= z < 0x80)%Z → bval (bchr z) = z.
Proof. intros. apply bval_bchr. lia. Qed.

Lemma hexDigit_hexChar d : (0 <= d < 16)%Z → hexDigit (hexChar d) = Some d.
Proof.
  intros Hd. unfold hexDigit, hexChar. destruct (Z.ltb_spec d 10); rewrite bchr_ascii_range by lia.
  - assert ((48 <=? 48 + d) && (48 + d <=? 57) = true)%Z as -> by lia. f_equal. lia.
  - assert ((48 <=? 87 + d) && (87 + d <=? 57) = false)%Z as -> by lia.
    assert ((97 <=? 87 + d) && (87 + d <=? 102) = true)%Z as -> by lia. f_equal. lia.
Qed.

Lemma denotes_short e b : shortEscape e = true → isByte e "u"%byte = false → unescape e = Some b → denotes [backslash; e] [b].
Proof.
  intros He Hu Hb. split_and!; [|done|].
  - intros u. cbn [app stringLit]. change (isByte backslash quote) with false. change (isByte backslash backslash) with true.
    rewrite He, pmap_pmap. done.
  - intros n u. cbn [app unquote_fuel]. change (isByte backslash backslash) with true. by rewrite Hu, Hb.
Qed.

Lemma denotes_u4 d0 d1 d2 d3 h0 h1 h2 h3 :
  hexDigit d0 = Some h0 → hexDigit d1 = Some h1 → hexDigit d2 = Some h2 → hexDigit d3 = Some h3 →
  let r := (((h0 * 16 + h1) * 16 + h2) * 16 + h3)%Z in
  IsSurrogate r = false → denotes [backslash; "u"%byte; d0; d1; d2; d3] (EncodeRune r).
Proof.
  intros H0 H1 H2 H3 r Hr. split_and!; [|done|].
  - intros u. cbn [app stringLit]. change (isByte backslash quote) with false. change (isByte backslash backslash) with true.
    change (shortEscape "u"%byte) with false. change (isByte "u"%byte "u"%byte) with true.
    unfold isHex. rewrite H0, H1, H2, H3, !pmap_pmap. done.
  - intros n u. cbn [app unquote_fuel]. change (isByte backslash backslash) with true. change (isByte "u"%byte "u"%byte) with true.
    assert (getu4 (backslash :: "u"%byte :: d0 :: d1 :: d2 :: d3 :: u) = Some r) as ->; [|by rewrite Hr].
    unfold getu4. by rewrite H0, H1, H2, H3.
Qed.

Lemma denotes_encodes seg r :
  encodes seg r → forallb (λ c, negb (isByte c quote || isByte c backslash || (bval c <? 0x20)%Z)) seg = true → denotes seg seg.
Proof.
  intros (Hne&Hd&He&_) Hsafe. split_and!; [|done|].
  - clear Hd He. intros u. induction seg as [|c seg IH]; [done|]. cbn [forallb] in Hsafe. apply andb_true_iff in Hsafe as [Hc Hsafe].
    apply negb_true_iff, orb_false_iff in Hc as [[Hq Hb]%orb_false_iff Hl]. cbn [app stringLit]. rewrite Hq, Hb, Hl.
    destruct seg as [|d seg]; [done|]. rewrite IH, pmap_pmap; done.
  - intros n u. specialize (Hd u). destruct seg as [|c seg]; [done|]. cbn [forallb] in Hsafe. apply andb_true_iff in Hsafe as [Hc _].
    apply negb_true_iff, orb_false_iff in Hc as [[Hq Hb]%orb_false_iff Hl]. cbn [app unquote_fuel] in *. rewrite Hq, Hb, Hl, Hd. cbn [orb].
    change (c :: seg ++ u) with ((c :: seg) ++ u). by rewrite drop_app_length, He.
Qed.

Lemma denotes_high seg r : encodes seg r → Forall (λ c, (0x80 <= bval c)%Z) seg → denotes seg seg.
Proof.
  intros He Hh. apply (denotes_encodes seg r He), forallb_Forall. eapply Forall_impl; [exact Hh|]. cbn beta. intros c Hc.
  rewrite !isByte_high by (done || (vm_compute; reflexivity)). by rewrite (proj2 (Z.ltb_ge (bval c) 0x20)) by lia.
Qed.

Lemma denotes_escapeASCII c : (bval c < 0x80)%Z → denotes (escapeASCII c) [c].
Proof.
  intros Hc. pose proof (bval_range c) as Hr. unfold escapeASCII.
  destruct (isByte c quote || isByte c backslash) eqn:Hqb.
  { apply orb_true_iff in Hqb as [->%isByte_true| ->%isByte_true]; by apply denotes_short. }
  repeat match goal with |- denotes (if isByte c ?d then _ else _) _ =>
    let E := fresh in destruct (isByte c d) eqn:E; [apply isByte_true in E as ->; by apply denotes_short|] end.
  destruct (encodes_ascii c Hc) as (_&_&He&_).
  destruct ((bval c <? 0x20)%Z || _ || _ || _) eqn:Hesc.
  - rewrite <- He. change (§"\u00" ++ ?l) with (backslash :: "u"%byte :: "0"%byte :: "0"%byte :: l).
    replace (bval c) with (((0 * 16 + 0) * 16 + Z.shiftr (bval c) 4) * 16 + Z.land (bval c) 0xF)%Z at 3
      by (rewrite land_0F, Z.shiftr_div_pow2 by lia; change (2 ^ 4)%Z with 16%Z; lia_div).
    apply denotes_u4; [done|done| | |].
    + apply hexDigit_hexChar. rewrite Z.shiftr_div_pow2 by lia. change (2 ^ 4)%Z with 16%Z. lia_div.
    + apply hexDigit_hexChar. rewrite land_0F. lia_div.
    + unfold IsSurrogate. rewrite land_0F, Z.shiftr_div_pow2 by lia. change (2 ^ 4)%Z with 16%Z. lia_div.
  - apply (denotes_encodes _ _ (encodes_ascii c Hc)). repeat apply orb_false_iff in Hesc as [Hesc _].
    cbn [forallb]. rewrite Hqb, Hesc. done.
Qed.

Lemma denotes_escapeRune seg r : encodes seg r → denotes (escapeRune (r, seg)) seg.
Proof.
  intros He. unfold escapeRune. pose proof He as (_&_&Henc&[(c&->&->&Hc)|(Hr&Hl&Hh)]).
  - unfold RuneError. rewrite !(proj2 (Z.eqb_neq _ _)) by lia. by apply denotes_escapeASCII.
  - rewrite (proj2 (Nat.eqb_neq (length seg) 1)), andb_false_r by lia.
    destruct ((r =? 0x2028)%Z || (r =? 0x2029)%Z) eqn:Hsep.
    + rewrite <- Henc. change (§"\u202" ++ ?l) with (backslash :: "u"%byte :: "2"%byte :: "0"%byte :: "2"%byte :: l).
      apply orb_true_iff in Hsep as [->%Z.eqb_eq| ->%Z.eqb_eq];
        [by apply (denotes_u4 "2" "0" "2" "8" 2 0 2 8)|by apply (denotes_u4 "2" "0" "2" "9" 2 0 2 9)].
    + destruct seg as [|c [|d seg]]; [by destruct He|simpl in Hl; lia|]. by eapply denotes_high.
Qed.

Lemma denotes_fffd : denotes §"\ufffd" (EncodeRune RuneError).
Proof. by apply (denotes_u4 "f" "f" "f" "d" 15 15 15 13). Qed.

Lemma escape_encodes seg r t : encodes seg r → escape (seg ++ t) = escapeRune (r, seg) ++ escape t.
Proof. intros He. unfold escape. by rewrite (runes_encodes seg r t He). Qed.

Lemma escape_stray c t : DecodeRune (c :: t) = (RuneError, 1) → escape (c :: t) = §"\ufffd" ++ escape t.
Proof. intros Hd. unfold escape. rewrite runes_cons, Hd. done. Qed.

Lemma inLiteral_app x y : inLiteral x → inLiteral y → inLiteral (x ++ y).
Proof.
  intros Hx Hy u. rewrite <- app_assoc, Hx, Hy, pmap_pmap. destruct (stringLit InString u); [|done|done]. simpl. by rewrite app_assoc.
Qed.

Lemma escape_inLiteral s : inLiteral (escape s).
Proof.
  induction s as [|seg r t He IH|c t Hd _ IH] using runes_ind.
  - intros u. change (escape []) with (@nil byte). cbn [app]. by destruct (stringLit InString u).
  - rewrite (escape_encodes seg r t He). apply inLiteral_app; [apply denotes_escapeRune, He|done].
  - rewrite (escape_stray c t Hd). apply inLiteral_app; [apply denotes_fffd|done].
Qed.

(** A literal ends at its closing quote and denotes the string, with invalid
    UTF-8 replaced. *)
Lemma stringLit_escape s t : stringLit InString (escape s ++ quote :: t) = Got (escape s) t.
Proof. rewrite escape_inLiteral. cbn [stringLit]. change (isByte quote quote) with true. simpl. by rewrite app_nil_r. Qed.

Lemma unquote_escape s : unquote (escape s) = Some (ToValidUTF8 s).
Proof.
  unfold unquote. generalize (le_n (length (escape s))). generalize (length (escape s)) at 2 3 as n.
  induction s as [|seg r t He IH|c t Hd _ IH] using runes_ind; intros n Hn; [by destruct n| |].
  - rewrite (escape_encodes seg r t He) in *. rewrite (ToValidUTF8_encodes seg r t He).
    destruct (denotes_escapeRune seg r He) as (_&Hne&Hu). rewrite length_app in Hn.
    destruct n as [|n]; [destruct (escapeRune (r, seg)); [done|simpl in Hn; lia]|]. rewrite Hu, IH; [done|].
    destruct (escapeRune (r, seg)); [done|simpl in Hn; lia].
  - rewrite (escape_stray c t Hd) in *. destruct denotes_fffd as (_&_&Hu).
    assert (ToValidUTF8 (c :: t) = EncodeRune RuneError ++ ToValidUTF8 t) as -> by (unfold ToValidUTF8; by rewrite runes_cons, Hd).
    rewrite length_app in Hn. change (length §"\ufffd") with 6 in Hn. destruct n as [|n]; [lia|]. rewrite Hu, IH; [done|lia].
Qed.

(** A literal the scanner accepts is one [unquote] decodes: the decoder's
    [unquote] never fails. *)

Lemma isHex_Some c : isHex c = true → is_Some (hexDigit c).
Proof. unfold isHex. destruct (hexDigit c); [eauto|done]. Qed.

Definition literal (raw : gostring) : Prop := stringLit InString (raw ++ [quote]) = Got raw [].

Lemma stringLit_raw st s raw r : stringLit st s = Got raw r → stringLit st (raw ++ [quote]) = Got raw [].
Proof.
  revert st raw. induction s as [|c s IH]; intros st raw H; [done|].
  destruct st as [| |n]; cbn [stringLit] in H.
  - destruct (isByte c quote) eqn:Hq; [by injection H as <- <-|]. got_cases H; subst; cbn [app stringLit];
      rewrite Hq, ?Heqb, ?Heqb0, (IH _ _ H); done.
  - got_cases H; subst; cbn [app stringLit]; rewrite ?Heqb, ?Heqb0, (IH _ _ H); done.
  - got_cases H; subst; cbn [app stringLit]; rewrite ?Heqb, (IH _ _ H); done.
Qed.

Lemma literal_high seg t : Forall (λ c, (0x80 <= bval c)%Z) seg → literal (seg ++ t) → literal t.
Proof.
  unfold literal. induction 1 as [|c seg Hc Hs IH]; [done|]. cbn [app stringLit].
  rewrite !isByte_high by (done || (vm_compute; reflexivity)). rewrite (proj2 (Z.ltb_ge (bval c) 0x20)) by lia.
  intros H. apply IH. destruct (stringLit InString _); [|done|done]. simpl in H. by injection H as -> ->.
Qed.

Lemma literal_escape e t :
  literal (backslash :: e :: t) →
  isByte e "u"%byte = false ∧ is_Some (unescape e) ∧ literal t ∨
  isByte e "u"%byte = true ∧ ∃ rr, getu4 (backslash :: e :: t) = Some rr ∧ literal (drop 4 t) ∧ 4 ≤ length t.
Proof.
  unfold literal. cbn [app stringLit]. change (isByte backslash quote) with false. change (isByte backslash backslash) with true.
  intros H. destruct (shortEscape e) eqn:He; [left|destruct (isByte e "u"%byte) eqn:Hu; [right|done]].
  - split_and!.
    + apply bool_decide_eq_false. intros ->. done.
    + unfold shortEscape in He. unfold unescape. cbn [existsb] in *.
      repeat match goal with |- context [isByte e ?d] => destruct (isByte e d); cbn [orb] in *; eauto end. done.
    + apply pmap_Got in H as (y&H&Hy). apply pmap_Got in H as (z&H&->). injection Hy as <-. exact H.
  - split; [done|]. apply isByte_true in Hu as ->.
    destruct t as [|d0 [|d1 [|d2 [|d3 t]]]]; cbn [app stringLit] in H;
      repeat match type of H with
      | context [isHex ?d] => let E := fresh "Hd" in destruct (isHex d) eqn:E; cbn [pmap] in H
      end; try discriminate H.
    destruct (isHex_Some _ Hd) as [h0 H0], (isHex_Some _ Hd0) as [h1 H1], (isHex_Some _ Hd1) as [h2 H2], (isHex_Some _ Hd2) as [h3 H3].
    eexists. split_and!; [unfold getu4; rewrite H0, H1, H2, H3; reflexivity| |simpl; lia].
    rewrite !pmap_pmap in H. apply pmap_Got in H as (y&H&Hy). injection Hy as ->. exact H.
Qed.

Lemma getu4_escape s r : getu4 s = Some r → ∃ t, s = backslash :: "u"%byte :: t.
Proof.
  destruct s as [|b [|u [|d0 [|d1 [|d2 [|d3 t]]]]]]; try done. unfold getu4.
  destruct (isByte b backslash) eqn:Hb, (isByte u "u"%byte) eqn:Hu; try done.
  apply isByte_true in Hb as ->. apply isByte_true in Hu as ->. eauto.
Qed.

Lemma literal_unquote n raw : length raw ≤ n → literal raw → is_Some (unquote_fuel n raw).
Proof.
  revert raw. induction n as [|n IH]; intros [|c r] Hn Hl; [eauto|simpl in Hn; lia|eauto|]. cbn [unquote_fuel].
  assert (∀ (f : gostring → gostring) t, length t ≤ n → literal t → is_Some (f <$> unquote_fuel n t)) as Hgo
    by (intros f t Ht Hlit; destruct (IH t Ht Hlit) as [x ->]; eauto).
  destruct (isByte c backslash) eqn:Hb.
  - apply isByte_true in Hb as ->. destruct r as [|e r]; [done|].
    destruct (literal_escape e r Hl) as [(Hu&[b Hesc]&Ht)|(Hu&rr&Hr&Ht&H4)]; rewrite Hu.
    + rewrite Hesc. apply Hgo; [simpl in Hn; lia|done].
    + rewrite Hr. change (drop 6 (backslash :: e :: r)) with (drop 4 r). change (drop 12 (backslash :: e :: r)) with (drop 10 r).
      simpl in Hn. destruct (IsSurrogate rr); [|apply Hgo; [rewrite length_drop; lia|done]].
      destruct (surrogatePair rr (getu4 (drop 4 r))) eqn:Hp; [|apply Hgo; [rewrite length_drop; lia|done]].
      apply Hgo; [rewrite length_drop; lia|].
      destruct (getu4 (drop 4 r)) as [r2|] eqn:Hg; [|done]. destruct (getu4_escape _ _ Hg) as [t Hd]. rewrite Hd in Ht.
      destruct (literal_escape _ _ Ht) as [(Hx&_&_)|(_&_&_&Ht'&_)]; [done|].
      replace (drop 10 r) with (drop 6 (drop 4 r)) by (by rewrite drop_drop). by rewrite Hd.
  - destruct (isByte c quote || (bval c <? 0x20)%Z) eqn:Hbad.
    { unfold literal in Hl. cbn [app stringLit] in Hl. rewrite Hb in Hl. revert Hl.
      destruct (isByte c quote); [done|]. cbn [orb] in Hbad. by rewrite Hbad. }
    pose proof (DecodeRune_cases c r) as Hc. pose proof (DecodeRune_width c r) as Hw. destruct (DecodeRune (c :: r)) as [rr w]. simpl in Hw.
    apply Hgo; [rewrite length_drop; simpl in *; lia|].
    rewrite <- (take_drop w (c :: r)) in Hl. destruct Hc as [[(_&_&_&[(d&Hd&_&Hlow)|(_&_&Hh)]) _]|(_&->&Hh)].
    + rewrite Hd in Hl. unfold literal in Hl |- *. destruct w; [done|]. injection Hd as <- Hd. cbn [app stringLit] in Hl.
      rewrite Hb in Hl. apply orb_false_iff in Hbad as [Hq Hlt]. rewrite Hq, Hlt in Hl. apply pmap_Got in Hl as (y&Hl&Hy).
      injection Hy as <-. exact Hl.
    + by apply (literal_high _ _ Hh).
    + apply (literal_high [c]); [by repeat constructor|done].
Qed.

Lemma stringLit_unquote s raw r : stringLit InString s = Got raw r → is_Some (unquote raw).
Proof. intros H%stringLit_raw. by apply literal_unquote. Qed.

(** ** Objects: what is printed is read back *)

(** [x] is read as [v], whatever follows. *)
Definition reads (depth : nat) (x : gostring) (v : jvalue) : Prop := ∀ u, value depth (x ++ u) = Got v u.

Lemma reads_quoteString depth s : reads depth (quoteString s) (JString (escape s)).
Proof.
  intros u. unfold quoteString. cbn [app]. rewrite <- app_assoc. cbn [app].
  assert (value depth (quote :: escape s ++ quote :: u) = pmap JString (stringLit InString (escape s ++ quote :: u))) as ->
    by (by destruct depth).
  by rewrite stringLit_escape.
Qed.

Lemma onByte_cons {A} c r (f : byte → gostring → parsed A) : isSpace c = false → onByte (c :: r) f = f c r.
Proof. intros H. unfold onByte, skipSpace. simpl. by rewrite H. Qed.

Lemma members_text depth n first fields ms t :
  fields ≠ [] → Forall2 (λ f m, m.1 = escape f.1 ∧ reads depth f.2 m.2) fields ms →
  let s := Join (map (λ f, quoteString f.1 ++ ":"%byte :: f.2) fields) §"," ++ "}"%byte :: t in
  length s < n → members (value depth) n first s = Got ms t.
Proof.
  intros Hne Hall. revert n first Hne. induction Hall as [|[k x] [k' v] fields ms [Hk Hx] Hall IH]; [done|].
  intros n first _ s Hn. cbn [fst snd] in *. subst k'. destruct n as [|n]; [lia|].
  set (more := match fields with [] => "}"%byte :: t | _ => ","%byte :: Join (map (λ f, quoteString f.1 ++ ":"%byte :: f.2) fields) §"," ++ "}"%byte :: t end).
  assert (s = quote :: escape k ++ quote :: ":"%byte :: x ++ more) as Hs.
  { subst s more. unfold quoteString. destruct fields as [|f fields]; cbn [map Join app];
      rewrite <- !app_assoc; cbn [app]; rewrite <- ?app_assoc; cbn [app]; rewrite <- ?app_assoc; done. }
  rewrite Hs in *. cbn [members]. rewrite onByte_cons by done. change (isByte quote "}"%byte) with false. rewrite andb_false_r.
  change (isByte quote quote) with true. rewrite stringLit_escape. cbn [pbind].
  rewrite onByte_cons by done. change (isByte ":"%byte ":"%byte) with true. rewrite Hx. cbn [pbind]. subst more.
  destruct fields as [|f fields]; [by inversion Hall|]. rewrite onByte_cons by done. change (isByte ","%byte ","%byte) with true.
  rewrite IH; [done|done|]. clear -Hn. cbn [length] in Hn. rewrite length_app in Hn. cbn [length] in Hn. rewrite length_app in Hn.
  cbn [length] in Hn. lia.
Qed.

Lemma reads_objectText depth fields ms :
  fields ≠ [] → Forall2 (λ f m, m.1 = escape f.1 ∧ reads depth f.2 m.2) fields ms → reads (S depth) (objectText fields) (JObject ms).
Proof.
  intros Hne Hall u. unfold objectText. cbn [app]. rewrite <- app_assoc. cbn [app value]. rewrite onByte_cons by done.
  change (isByte "{"%byte "{"%byte) with true. rewrite (members_text depth _ _ fields ms u Hne Hall); [done|lia].
Qed.

(** An object of strings, as Marshal prints a struct or a map of strings. *)
Definition stringsText (fields : list (gostring * gostring)) : gostring :=
  objectText (map (λ f, (f.1, quoteString f.2)) fields).
Definition stringMembers (fields : list (gostring * gostring)) : list (gostring * jvalue) :=
  map (λ f, (escape f.1, JString (escape f.2))) fields.

Lemma maxNestingDepth_S : ∃ d, maxNestingDepth = S d.
Proof. exists (pred maxNestingDepth). with_strategy transparent [maxNestingDepth] unfold maxNestingDepth. lia. Qed.

Lemma scanValue_stringsText fields t :
  fields ≠ [] → scanValue (stringsText fields ++ t) = Complete (JObject (stringMembers fields)) t.
Proof.
  intros Hne. unfold scanValue. destruct (skipSpace (stringsText fields ++ t)) eqn:Hs; [done|].
  destruct maxNestingDepth_S as [d ->]. unfold stringsText.
  rewrite (reads_objectText d _ (stringMembers fields)); [by destruct t|by destruct fields|].
  clear. induction fields as [|f fields IH]; constructor; [|exact IH]. split; [done|apply reads_quoteString].
Qed.

(** A text that opens with a brace and is an object holds no object before its
    end: cut short, it is the beginning of a value. *)
Lemma scanValue_cut text v n :
  (∃ r, text = "{"%byte :: r) → scanValue text = Complete v [] → n < length text →
  scanValue (take n text) = match n with O => Blank | _ => Incomplete end.
Proof.
  intros [r0 Hr0] Hall Hn. pose proof (scanValue_stream (take n text) (drop n text)) as H.
  assert (length (drop n text) ≠ 0) as Hd by (rewrite length_drop; lia).
  rewrite take_drop, Hall in H. revert Hd H. generalize (drop n text) as u. intros u Hd H. destruct n as [|n]; [done|].
  rewrite Hr0 in H |- *. cbn [take] in *. clear Hr0. revert H. generalize (take n r0) as r. intros r H.
  unfold scanValue in *. change (skipSpace ("{"%byte :: r)) with ("{"%byte :: r) in *. cbn beta iota in *.
  destruct maxNestingDepth_S as [d E]. rewrite E in *. cbn [value] in *. rewrite onByte_cons in * by done.
  change (isByte "{"%byte "{"%byte) with true in *. cbn beta iota in *.
  destruct (members _ _ _ _) as [ms k| |]; cbn [pmap] in *; [|done|done].
  destruct k as [|c k]; [destruct u; [done|]|]; cbn in H; by injection H.
Qed.

Lemma scanValue_stringsText_prefix fields n :
  fields ≠ [] → n < length (stringsText fields) →
  scanValue (take n (stringsText fields)) = match n with O => Blank | _ => Incomplete end.
Proof.
  intros Hne. pose proof (scanValue_stringsText fields [] Hne) as Hall. rewrite app_nil_r in Hall.
  eapply scanValue_cut; [|exact Hall]. by eexists.
Qed.

Lemma scanValue_spaces ws : forallb isSpace ws = true → scanValue ws = Blank.
Proof. intros H. unfold scanValue, skipSpace. rewrite <- (app_nil_r ws) at 1. by rewrite drop_while_app. Qed.

(** The first bytes of an object and white space: a beginning, or all of it. *)
Lemma scanValue_stringsText_take fields ws n :
  fields ≠ [] → forallb isSpace ws = true → n ≠ 0 →
  scanValue (take n (stringsText fields ++ ws)) = Incomplete ∨
  ∃ rest, forallb isSpace rest = true ∧ scanValue (take n (stringsText fields ++ ws)) = Complete (JObject (stringMembers fields)) rest.
Proof.
  intros Hne Hws Hn. destruct (Nat.lt_ge_cases n (length (stringsText fields))) as [Hlt|Hge].
  - left. rewrite take_app_le, scanValue_stringsText_prefix by (done || lia). by destruct n.
  - right. rewrite take_app_ge, scanValue_stringsText by done. eexists. split; [|done]. by apply forallb_take.
Qed.

Lemma ToValidUTF8_ascii s : forallb (λ c, (bval c <? 0x80)%Z) s = true → ToValidUTF8 s = s.
Proof. intros H. by apply ToValidUTF8_valid, ValidString_ascii. Qed.

(** The struct a decoder makes of an object of strings: field by field, the
    last one wins; [None] if a strict decoder meets an unknown name. *)
Definition setString (names : list gostring) (strict : bool) (fields : option (gmap gostring gostring)) (f : gostring * gostring) :=
  match fields with
  | None => None
  | Some m => match fieldNamed names (ToValidUTF8 f.1) with
              | Some n => Some (<[n := ToValidUTF8 f.2]> m)
              | None => if strict then None else Some m
              end
  end.

Lemma decodeStruct_stringMembers names strict fields :
  decodeStruct names strict (JObject (stringMembers fields)) = foldl (setString names strict) (Some ∅) fields.
Proof.
  unfold decodeStruct. generalize (Some (∅ : gmap gostring gostring)) as m. induction fields as [|f fields IH]; intros m; [done|].
  cbn [stringMembers map foldl]. fold (stringMembers fields). rewrite IH. f_equal. unfold setMember, setString. cbn [fst snd].
  destruct m; [|done]. rewrite !unquote_escape. cbn [default from_option]. done.
Qed.

(** ** Maps of strings: Marshal sorts the keys *)

Fixpoint keyLeb (a b : gostring) : bool :=
  match a, b with
  | [], _ => true
  | _, [] => false
  | c :: a', d :: b' => if (bval c =? bval d)%Z then keyLeb a' b' else (bval c <? bval d)%Z
  end.

Fixpoint insertKey (f : gostring * gostring) (l : list (gostring * gostring)) : list (gostring * gostring) :=
  match l with
  | [] => [f]
  | g :: r => if keyLeb f.1 g.1 then f :: l else g :: insertKey f r
  end.

Definition sortKeys (l : list (gostring * gostring)) : list (gostring * gostring) := foldr insertKey [] l.

#[global] Arguments scanValue : simpl never.
#[global] Arguments stringsText : simpl never.
#[global] Arguments objectText : simpl never.
