(* ===== verification/Mime.v ===== *)
(** * Package mime: ParseMediaType

    The media type of a Content-Type header, with the errors of package mime:
    a type/subtype of token characters, then parameters, whose names must not
    repeat with different values.  The handler uses the type and whether there
    was an error; the values of the parameters are read (quoted or not) to find
    where they end and to compare repeated ones, and then dropped. *)

From S2P Require Import Prelude GoString GoConv Utf8 Json.

(** ** strings.TrimSpace and TrimLeftFunc(s, unicode.IsSpace), on runes *)

Definition spaceRune (seg : Z * gostring) : bool := IsSpace seg.1.
Definition bytesOf (segs : list (Z * gostring)) : gostring := concat (map snd segs).
Definition TrimLeft (s : gostring) : gostring := bytesOf (drop_while spaceRune (runes s)).
Definition TrimSpace (s : gostring) : gostring :=
  bytesOf (rev (drop_while spaceRune (rev (drop_while spaceRune (runes s))))).

(** ** Tokens and values *)

Definition tokenChar (c : byte) : bool :=
  let z := bval c in
  ((48 <=? z) && (z <=? 57) || (65 <=? z) && (z <=? 90) || (97 <=? z) && (z <=? 122))%Z ||
  existsb (isByte c) §"!#$%&'*+-.^_`|~".

Definition tspecial (c : byte) : bool := existsb (isByte c) (quote :: §"()<>@,;:\/[]?=").

Definition consumeToken (s : gostring) : gostring * gostring := (take_while tokenChar s, drop_while tokenChar s).

(** After the opening quote: the value and what follows the closing one. *)
Fixpoint quoted (s : gostring) : option (gostring * gostring) :=
  match s with
  | [] => None
  | c :: r =>
      let plain := (λ vr, (c :: vr.1, vr.2)) <$> quoted r in
      if isByte c quote then Some ([], r)
      else if isByte c backslash then
        match r with
        | d :: r' => if tspecial d then (λ vr, (d :: vr.1, vr.2)) <$> quoted r' else plain
        | [] => plain
        end
      else if isByte c CR || isByte c LF then None
      else plain
  end.

(** [None]: the value is empty and nothing was read. *)
Definition consumeValue (s : gostring) : option (gostring * gostring) :=
  match s with
  | [] => None
  | c :: r =>
      if isByte c quote then quoted r
      else match consumeToken s with ([], _) => None | vr => Some vr end
  end.

Definition consumeMediaParam (s : gostring) : option (gostring * gostring * gostring) :=
  match TrimLeft s with
  | c :: r =>
      if negb (isByte c ";"%byte) then None
      else
        let '(param, r) := consumeToken (TrimLeft r) in
        if seqb param [] then None
        else match TrimLeft r with
             | d :: r =>
                 if negb (isByte d "="%byte) then None
                 else match consumeValue (TrimLeft r) with
                      | Some (value, rest) => Some (ToLower param, value, rest)
                      | None => None
                      end
             | [] => None
             end
  | [] => None
  end.

(** ** ParseMediaType *)

(** checkMediaTypeDisposition(s) == nil. *)
Definition checkMediaType (s : gostring) : bool :=
  let '(typ, rest) := consumeToken s in
  if seqb typ [] then false
  else match rest with
       | [] => true
       | c :: rest =>
           isByte c "/"%byte &&
           let '(subtype, rest) := consumeToken rest in negb (seqb subtype []) && seqb rest []
       end.

(** The loop over the parameters; every turn reads a semicolon.  Continued
    parameters (name*0) live in maps of their own, by a name that their key
    begins with: one map by keys finds the same repetitions. *)
Fixpoint mediaParams (fuel : nat) (s : gostring) (params : gmap gostring gostring) : bool :=
  match fuel with
  | O => false
  | S fuel =>
      match TrimLeft s with
      | [] => true
      | v =>
          match consumeMediaParam v with
          | None => seqb (TrimSpace v) §";"
          | Some (key, value, rest) =>
              match params !! key with
              | Some old => if seqb old value then mediaParams fuel rest (<[key := value]> params) else false
              | None => mediaParams fuel rest (<[key := value]> params)
              end
          end
      end
  end.

Definition ParseMediaType (v : gostring) : option gostring :=
  let base := take_while (λ c, negb (isByte c ";"%byte)) v in
  let mediatype := TrimSpace (ToLower base) in
  if negb (checkMediaType mediatype) then None
  else let rest := drop (length base) v in
       if mediaParams (S (length rest)) rest ∅ then Some mediatype else None.

(** ** The loop ends *)

Lemma bytesOf_app a b : bytesOf (a ++ b) = bytesOf a ++ bytesOf b.
Proof. unfold bytesOf. by rewrite map_app, concat_app. Qed.

Lemma bytesOf_runes s : bytesOf (runes s) = s.
Proof.
  induction s as [|seg r t He IH|c t Hd _ IH] using runes_ind; [done| |].
  - rewrite (runes_encodes seg r t He). change (seg ++ bytesOf (runes t) = seg ++ t). by rewrite IH.
  - rewrite runes_cons, Hd. change (c :: bytesOf (runes t) = c :: t). by rewrite IH.
Qed.

Lemma bytesOf_drop_while p l : length (bytesOf (drop_while p l)) ≤ length (bytesOf l).
Proof.
  rewrite <- (take_drop_while p l) at 2. rewrite bytesOf_app, length_app. lia.
Qed.

Lemma TrimLeft_length s : length (TrimLeft s) ≤ length s.
Proof. rewrite <- (bytesOf_runes s) at 2. apply bytesOf_drop_while. Qed.

Lemma drop_while_length {A} (p : A → bool) l : length (drop_while p l) ≤ length l.
Proof. rewrite <- (take_drop_while p l) at 2. rewrite length_app. lia. Qed.

Lemma consumeToken_length s : length (consumeToken s).2 ≤ length s.
Proof. apply drop_while_length. Qed.

Lemma quoted_length s value rest : quoted s = Some (value, rest) → length rest < length s.
Proof.
  revert value rest. induction s as [s IH] using (induction_ltof1 _ length). unfold ltof in IH.
  intros value rest H. destruct s as [|c r]; [done|]. cbn [quoted] in H.
  assert (∀ t (d : byte), length t < length (c :: r) → (λ vr, (d :: vr.1, vr.2)) <$> quoted t = Some (value, rest) → length rest < length (c :: r)) as Hgo.
  { intros t d Ht Hq. destruct (quoted t) as [[v1 r1]|] eqn:E; [|done]. injection Hq as <- <-. specialize (IH t Ht _ _ E). lia. }
  destruct (isByte c quote); [injection H as <- <-; simpl; lia|].
  destruct (isByte c backslash).
  - destruct r as [|d r']; [by apply Hgo in H; [|simpl; lia]|].
    destruct (tspecial d); (eapply Hgo; [|exact H]); simpl; lia.
  - destruct (isByte c CR || isByte c LF); [done|]. eapply Hgo; [|exact H]. simpl. lia.
Qed.

Lemma consumeValue_length s value rest : consumeValue s = Some (value, rest) → length rest < length s.
Proof.
  destruct s as [|c r]; [done|]. cbn [consumeValue]. destruct (isByte c quote); [intros H%quoted_length; simpl; lia|].
  pose proof (take_drop_while tokenChar (c :: r)) as Ht. unfold consumeToken.
  destruct (take_while tokenChar (c :: r)) as [|d t]; [done|]. intros [= <- <-]. rewrite <- Ht at 2. simpl. rewrite length_app. lia.
Qed.

Lemma consumeMediaParam_length s key value rest : consumeMediaParam s = Some (key, value, rest) → length rest < length s.
Proof.
  unfold consumeMediaParam. pose proof (TrimLeft_length s) as H0. destruct (TrimLeft s) as [|c r]; [done|].
  destruct (negb (isByte c ";"%byte)); [done|]. pose proof (TrimLeft_length r) as H1. pose proof (consumeToken_length (TrimLeft r)) as H2.
  destruct (consumeToken (TrimLeft r)) as [param r2]. destruct (seqb param []); [done|].
  pose proof (TrimLeft_length r2) as H3. destruct (TrimLeft r2) as [|d r3]; [done|]. destruct (negb (isByte d "="%byte)); [done|].
  pose proof (TrimLeft_length r3) as H4. destruct (consumeValue (TrimLeft r3)) as [[v r4]|] eqn:Hv; [|done].
  apply consumeValue_length in Hv. intros [= _ _ <-]. simpl in *. lia.
Qed.

Lemma mediaParams_fuel n m s params : length s < n → length s < m → mediaParams n s params = mediaParams m s params.
Proof.
  revert m s params. induction n as [|n IH]; intros [|m] s params Hn Hm; [lia|lia|lia|]. cbn [mediaParams].
  pose proof (TrimLeft_length s) as Hl. destruct (TrimLeft s) as [|c v] eqn:E; [done|].
  destruct (consumeMediaParam (c :: v)) as [[[key value] rest]|] eqn:Hp; [|done]. apply consumeMediaParam_length in Hp.
  destruct (params !! key) as [old|]; [destruct (seqb old value); [|done]|]; apply IH; lia.
Qed.

(** ** What it accepts

    A type and subtype in any letter case, with any parameters of different
    names, is the type in lower case. *)

Definition token (s : gostring) : Prop := s ≠ [] ∧ forallb tokenChar s = true.

Lemma ascii_cases (P : byte → bool) : forallb (λ n, P (bchr (Z.of_nat n))) (seq 0 128) = true → ∀ c, (bval c < 0x80)%Z → P c = true.
Proof.
  intros H c Hc. rewrite forallb_forall in H. pose proof (bval_range c).
  specialize (H (Z.to_nat (bval c))). rewrite Z2Nat.id in H by lia. rewrite (bchr_eq _ c eq_refl) in H. apply H, in_seq. lia.
Qed.

Lemma tokenChar_ascii c : tokenChar c = true → (bval c < 0x80)%Z.
Proof.
  unfold tokenChar. intros [H|H]%orb_true_iff; [lia|]. apply existsb_elem in H as (d&Hd&->%isByte_true).
  revert d Hd. apply Forall_forall. apply (bool_decide_eq_true_1 _). vm_compute. reflexivity.
Qed.

(** A token character is no white space, quote or separator, and stays one in
    lower case. *)
Lemma tokenChar_facts c : tokenChar c = true →
  IsSpace (bval c) = false ∧ isByte c quote = false ∧ isByte c ";"%byte = false ∧
  EncodeRune (lowerRune (bval c)) = [bchr (lowerRune (bval c))] ∧ tokenChar (bchr (lowerRune (bval c))) = true.
Proof.
  intros Hc. pose proof (ascii_cases (λ c, negb (tokenChar c) ||
    (negb (IsSpace (bval c)) && negb (isByte c quote) && negb (isByte c ";"%byte) &&
     bool_decide (EncodeRune (lowerRune (bval c)) = [bchr (lowerRune (bval c))]) && tokenChar (bchr (lowerRune (bval c))))))
    as H. specialize (H ltac:(vm_compute; reflexivity) c (tokenChar_ascii c Hc)). cbn beta in H.
  rewrite Hc in H. cbn [negb orb] in H.
  apply andb_true_iff in H as [H ?]. apply andb_true_iff in H as [H ?%bool_decide_eq_true_1].
  apply andb_true_iff in H as [H ?%negb_true_iff]. apply andb_true_iff in H as [?%negb_true_iff ?%negb_true_iff]. done.
Qed.

Lemma runes_ascii_cons c s : (bval c < 0x80)%Z → runes (c :: s) = (bval c, [c]) :: runes s.
Proof. intros Hc. exact (runes_encodes [c] (bval c) s (encodes_ascii c Hc)). Qed.

Lemma TrimLeft_cons c s : (bval c < 0x80)%Z → TrimLeft (c :: s) = if IsSpace (bval c) then TrimLeft s else c :: s.
Proof.
  intros Hc. unfold TrimLeft. rewrite (runes_ascii_cons c s Hc). cbn [drop_while].
  change (spaceRune (bval c, [c])) with (IsSpace (bval c)). destruct (IsSpace (bval c)); [done|]. change (c :: bytesOf (runes s) = c :: s). by rewrite bytesOf_runes.
Qed.

Lemma TrimLeft_token s u : token s → TrimLeft (s ++ u) = s ++ u.
Proof.
  intros [Hne Hs]. destruct s as [|c s]; [done|]. cbn [forallb] in Hs. apply andb_true_iff in Hs as [Hc _]. cbn [app].
  rewrite TrimLeft_cons by by apply tokenChar_ascii. destruct (tokenChar_facts c Hc) as (->&_). done.
Qed.

Lemma consumeToken_app s u : forallb tokenChar s = true → stops tokenChar u → consumeToken (s ++ u) = (s, u).
Proof.
  intros Hs Hu. unfold consumeToken. rewrite take_while_app, drop_while_app by done.
  destruct u as [|c u]; [by rewrite app_nil_r|]. simpl in *. by rewrite Hu, app_nil_r.
Qed.

Lemma ToLower_token s u : forallb tokenChar s = true →
  ToLower (s ++ u) = map (λ c, bchr (lowerRune (bval c))) s ++ ToLower u.
Proof.
  unfold ToLower. induction s as [|c s IH]; [done|]. cbn [forallb]. intros [Hc Hs]%andb_true_iff. cbn [app].
  rewrite runes_ascii_cons by by apply tokenChar_ascii. cbn [map concat fst]. destruct (tokenChar_facts c Hc) as (_&_&_&->&_).
  cbn [app]. by rewrite <- IH.
Qed.

Lemma lower_token s : token s → token (ToLower s).
Proof.
  intros [Hne Hs]. rewrite <- (app_nil_r s), (ToLower_token s [] Hs). change (ToLower []) with (@nil byte). rewrite app_nil_r.
  split; [by destruct s|]. clear Hne. induction s as [|c s IH]; [done|]. cbn [forallb map] in *.
  apply andb_true_iff in Hs as [Hc Hs]. rewrite IH by done. destruct (tokenChar_facts c Hc) as (_&_&_&_&->). done.
Qed.

Definition parameterText (p : gostring * gostring) : gostring := §"; " ++ p.1 ++ §"=" ++ p.2.

Lemma consumeMediaParam_text key value more :
  token key → token value → stops tokenChar more →
  consumeMediaParam (parameterText (key, value) ++ more) = Some (ToLower key, value, more).
Proof.
  intros Hk Hv Hm. unfold consumeMediaParam, parameterText. cbn [fst snd]. rewrite <- !app_assoc.
  change (§"; " ++ ?u) with (";"%byte :: " "%byte :: u). change (§"=" ++ ?u) with ("="%byte :: u).
  rewrite TrimLeft_cons by done. change (IsSpace (bval ";"%byte)) with false. cbn [negb isByte]. change (isByte ";"%byte ";"%byte) with true.
  cbn [negb]. rewrite TrimLeft_cons by done. change (IsSpace (bval " "%byte)) with true. rewrite TrimLeft_token by done.
  rewrite consumeToken_app by (done || apply Hk). rewrite (proj2 (seqb_neq key []) (proj1 Hk)).
  rewrite TrimLeft_cons by done. change (IsSpace (bval "="%byte)) with false. change (isByte "="%byte "="%byte) with true. cbn [negb].
  rewrite TrimLeft_token by done. pose proof (consumeToken_app value more (proj2 Hv) Hm) as Hc.
  destruct Hv as [Hne Hv]. destruct value as [|c value]; [done|]. cbn [app] in *. unfold consumeValue. rewrite Hc.
  cbn [forallb] in Hv. apply andb_true_iff in Hv as [Hc0 _]. destruct (tokenChar_facts c Hc0) as (_&->&_). done.
Qed.

Lemma parameters_stop ps : stops tokenChar (concat (map parameterText ps)).
Proof. by destruct ps. Qed.

Lemma mediaParams_text n ps params :
  Forall (λ p, token p.1 ∧ token p.2) ps → NoDup (map (λ p, ToLower p.1) ps) →
  Forall (λ p, params !! ToLower p.1 = None) ps →
  length (concat (map parameterText ps)) < n → mediaParams n (concat (map parameterText ps)) params = true.
Proof.
  revert n params. induction ps as [|[key value] ps IH]; intros [|n] params Ht Hd Hp Hn; try (simpl in Hn; lia); [done|].
  cbn [mediaParams map concat] in *. apply Forall_cons in Ht as [[Hk Hv] Ht]. apply NoDup_cons in Hd as [Hnew Hd].
  apply Forall_cons in Hp as [Hp0 Hp]. cbn [fst snd] in *.
  assert (TrimLeft (parameterText (key, value) ++ concat (map parameterText ps)) = parameterText (key, value) ++ concat (map parameterText ps)) as ->
    by (unfold parameterText at 1 3; rewrite <- !app_assoc; change (§"; " ++ ?u) with (";"%byte :: " "%byte :: u); by rewrite TrimLeft_cons).
  rewrite length_app in Hn. pose proof (consumeMediaParam_text key value _ Hk Hv (parameters_stop ps)) as Hparam.
  destruct (parameterText (key, value) ++ concat (map parameterText ps)) as [|c v]; [done|]. rewrite Hparam, Hp0.
  apply IH; [done|done| |change (length (parameterText (key, value))) with (2 + length (key ++ §"=" ++ value)) in Hn; lia].
  apply Forall_forall. intros p Hin. rewrite lookup_insert_ne.
  - by apply (proj1 (Forall_forall _ _) Hp).
  - intros He. apply Hnew. rewrite He. apply list_elem_of_fmap. by exists p.
Qed.

Lemma TrimSpace_token s : forallb (λ c, (bval c <? 0x80)%Z && negb (IsSpace (bval c))) s = true → TrimSpace s = s.
Proof.
  intros Hs. unfold TrimSpace.
  assert (forallb (λ seg, negb (spaceRune seg)) (runes s) = true) as Hr.
  { induction s as [|c s IH]; [done|]. cbn [forallb] in Hs. apply andb_true_iff in Hs as [[Hc%Z.ltb_lt Hsp]%andb_true_iff Hs].
    rewrite runes_ascii_cons by done. cbn [forallb spaceRune fst]. unfold spaceRune at 1. cbn [fst]. rewrite Hsp. by apply IH. }
  assert (∀ l, forallb (λ seg, negb (spaceRune seg)) l = true → drop_while spaceRune l = l) as Hid.
  { intros [|x l]; [done|]. cbn [forallb drop_while]. by intros [->%negb_true_iff _]%andb_true_iff. }
  rewrite (Hid (runes s) Hr), Hid by by rewrite forallb_rev. by rewrite rev_involutive, bytesOf_runes.
Qed.

Lemma token_plain s : forallb tokenChar s = true → forallb (λ c, (bval c <? 0x80)%Z && negb (IsSpace (bval c))) s = true.
Proof.
  apply forallb_impl. intros c Hc. destruct (tokenChar_facts c Hc) as (->&_). pose proof (tokenChar_ascii c Hc). lia.
Qed.

Lemma token_no_semicolon s : forallb tokenChar s = true → forallb (λ c, negb (isByte c ";"%byte)) s = true.
Proof. apply forallb_impl. intros c Hc. by destruct (tokenChar_facts c Hc) as (_&_&->&_). Qed.

Lemma ParseMediaType_text typ subtype ps :
  token typ → token subtype → Forall (λ p, token p.1 ∧ token p.2) ps → NoDup (map (λ p, ToLower p.1) ps) →
  ParseMediaType (typ ++ §"/" ++ subtype ++ concat (map parameterText ps)) = Some (ToLower (typ ++ §"/" ++ subtype)).
Proof.
  intros Ht Hs Hps Hd. set (base := typ ++ §"/" ++ subtype). set (text := concat (map parameterText ps)).
  assert (typ ++ §"/" ++ subtype ++ text = base ++ text) as -> by (unfold base; by rewrite <- !app_assoc).
  assert (ToLower base = ToLower typ ++ §"/" ++ ToLower subtype) as Hlow.
  { unfold base. rewrite (ToLower_token typ _ (proj2 Ht)). pose proof (ToLower_token typ [] (proj2 Ht)) as E.
    change (ToLower []) with (@nil byte) in E. rewrite !app_nil_r in E. by rewrite E. }
  destruct (lower_token _ Ht) as [Hn1 Hl1], (lower_token _ Hs) as [Hn2 Hl2].
  assert (forallb (λ c, negb (isByte c ";"%byte)) base = true) as Hbase.
  { unfold base. by rewrite !forallb_app, (token_no_semicolon typ), (token_no_semicolon subtype) by (apply Ht || apply Hs). }
  unfold ParseMediaType. rewrite take_while_app by done.
  assert (take_while (λ c, negb (isByte c ";"%byte)) text = []) as -> by (unfold text; by destruct ps). rewrite app_nil_r, drop_app_length.
  rewrite Hlow, TrimSpace_token by (rewrite !forallb_app, (token_plain (ToLower typ)), (token_plain (ToLower subtype)) by done; reflexivity).
  unfold checkMediaType. rewrite consumeToken_app by done. rewrite (proj2 (seqb_neq _ []) Hn1). change (§"/" ++ ?u) with ("/"%byte :: u).
  change (isByte "/"%byte "/"%byte) with true. pose proof (consumeToken_app (ToLower subtype) [] Hl2 I) as Hc. rewrite app_nil_r in Hc.
  cbn beta iota. change (isByte "/"%byte "/"%byte) with true. rewrite Hc, (proj2 (seqb_neq _ []) Hn2). change (seqb [] []) with true. cbn [andb negb]. unfold text.
  rewrite mediaParams_text; [done|done|done| |lia]. apply Forall_forall. intros p _. apply lookup_empty.
Qed.
