(* ===== verification/Duration.v ===== *)
(** * time.ParseDuration

    A duration is an int64 count of nanoseconds.  [ParseDuration] reads a
    sequence of decimal numbers with units; the fraction of a number is scaled
    in float64 arithmetic, here the IEEE 754 operations of SpecFloat at
    precision 53.  Results: every parsed duration is an int64, and an integer
    followed by a unit is read as their product whenever that is an int64. *)

From Stdlib Require Import Floats.SpecFloat.
From S2P Require Import Prelude GoString GoConv.

Definition Millisecond : Z := 1000000.
Definition Second : Z := 1000 * Millisecond.
Definition Minute : Z := 60 * Second.

(** ** float64 *)

Definition float64 : Type := spec_float.
Definition f64OfZ (z : Z) : float64 := binary_normalize 53 1024 z 0 false.
Definition f64Mul : float64 → float64 → float64 := SFmul 53 1024.
Definition f64Div : float64 → float64 → float64 := SFdiv 53 1024.

(** uint64(x) for a finite [x] of the range the parser meets: truncation. *)
Definition f64ToUint (x : float64) : Z :=
  match x with
  | S754_finite false m e => if (0 <=? e)%Z then Z.pos m * 2 ^ e else Z.pos m / 2 ^ (- e)
  | _ => 0
  end.

(** ** The parser *)

Definition two63 : Z := 2 ^ 63.

(** leadingInt: the digits at the head, [None] on overflow. *)
Fixpoint leadingInt (x : Z) (s : gostring) : option (Z * gostring) :=
  match s with
  | c :: r =>
      if isDigit c then
        if (two63 / 10 <? x)%Z then None
        else let x := (x * 10 + (bval c - 48))%Z in if (two63 <? x)%Z then None else leadingInt x r
      else Some (x, s)
  | [] => Some (x, s)
  end.

(** leadingFraction: digits that would overflow are skipped. *)
Fixpoint leadingFraction (x : Z) (scale : float64) (overflow : bool) (s : gostring) : Z * float64 * gostring :=
  match s with
  | c :: r =>
      if isDigit c then
        if overflow then leadingFraction x scale true r
        else if ((two63 - 1) / 10 <? x)%Z then leadingFraction x scale true r
        else let y := (x * 10 + (bval c - 48))%Z in
             if (two63 <? y)%Z then leadingFraction x scale true r
             else leadingFraction y (f64Mul scale (f64OfZ 10)) false r
      else (x, scale, s)
  | [] => (x, scale, s)
  end.

Definition unitByte (c : byte) : bool := negb (bool_decide (c = "."%byte) || isDigit c).

Fixpoint spanUnit (s : gostring) : gostring * gostring :=
  match s with
  | c :: r => if unitByte c then let '(u, rest) := spanUnit r in (c :: u, rest) else ([], s)
  | [] => ([], [])
  end.

Definition unitMap (u : gostring) : option Z :=
  if seqb u §"ns" then Some 1%Z
  else if seqb u §"us" || seqb u (Byte.xc2 :: Byte.xb5 :: §"s") || seqb u (Byte.xce :: Byte.xbc :: §"s") then Some 1000%Z
  else if seqb u §"ms" then Some Millisecond
  else if seqb u §"s" then Some Second
  else if seqb u §"m" then Some Minute
  else if seqb u §"h" then Some (60 * Minute)%Z
  else None.

(** The scaled fraction. *)
Definition fractionOf (f : Z) (scale : float64) (unit : Z) : Z :=
  if (0 <? f)%Z then f64ToUint (f64Mul (f64OfZ f) (f64Div (f64OfZ unit) scale)) else 0.

(** One number with its unit: its nanoseconds and the rest. *)
Definition durationTerm (s : gostring) : option (Z * gostring) :=
  match leadingInt 0 s with
  | None => None
  | Some (v, s1) =>
      let pre := negb (length s1 =? length s) in
      let '(f, scale, s2, post) :=
        match s1 with
        | c :: r =>
            if bool_decide (c = "."%byte) then
              let '(f, scale, s2) := leadingFraction 0 (f64OfZ 1) false r in
              (f, scale, s2, negb (length s2 =? length r))
            else (0%Z, f64OfZ 1, s1, false)
        | [] => (0%Z, f64OfZ 1, s1, false)
        end in
      if negb (pre || post) then None
      else let '(u, s3) := spanUnit s2 in
           match unitMap u with
           | None => None
           | Some unit =>
               if (two63 / unit <? v)%Z then None
               else let v := (v * unit + fractionOf f scale unit)%Z in
                    if (two63 <? v)%Z then None else Some (v, s3)
           end
  end.

Fixpoint durationLoop (fuel : nat) (d : Z) (s : gostring) : option Z :=
  match s, fuel with
  | [], _ => Some d
  | _, O => None
  | _, S fuel =>
      match durationTerm s with
      | None => None
      | Some (v, rest) => let d := (d + v)%Z in if (two63 <? d)%Z then None else durationLoop fuel d rest
      end
  end.

Definition ParseDuration (s : gostring) : option Z :=
  let '(neg, s) :=
    match s with
    | c :: r => if bool_decide (c = "-"%byte) then (true, r)
                else if bool_decide (c = "+"%byte) then (false, r) else (false, s)
    | [] => (false, s)
    end in
  if seqb s §"0" then Some 0%Z
  else match s with
  | [] => None
  | _ => match durationLoop (length s) 0 s with
         | None => None
         | Some d => if neg then Some (- d)%Z else if (two63 - 1 <? d)%Z then None else Some d
         end
  end.

Example durations :
  map ParseDuration [§"10m"; §"1.5s"; §"90ms"; §"1h15m30.918273645s"; §"-2s"; §".5h"; §"0"; []; §"5"; §"1.s"; §".s"; §"9223372036854775808ns"]
  = [Some (10 * Minute); Some (1500 * Millisecond); Some (90 * Millisecond); Some 4530918273645; Some (-2 * Second);
     Some (30 * Minute); Some 0; None; None; Some Second; None; None]%Z.
Proof. vm_compute. reflexivity. Qed.

(** ** The fuel is enough: every term consumes a byte *)

Lemma leadingInt_suffix x s y r : leadingInt x s = Some (y, r) → length r ≤ length s.
Proof.
  revert x. induction s as [|c s IH]; intros x; cbn [leadingInt]; [by intros [= _ <-]|].
  repeat case_match; try done; [intros H'%IH; simpl; lia|by intros [= _ <-]].
Qed.

Lemma leadingFraction_suffix x sc o s y sc' r : leadingFraction x sc o s = (y, sc', r) → length r ≤ length s.
Proof.
  revert x sc o. induction s as [|c s IH]; intros x sc o; cbn [leadingFraction]; [by intros [= _ _ <-]|].
  repeat case_match; try (intros H'%IH; simpl; lia); by intros [= _ _ <-].
Qed.

Lemma spanUnit_app s u r : spanUnit s = (u, r) → s = u ++ r.
Proof.
  revert u. induction s as [|c s IH]; intros u; cbn [spanUnit]; [by intros [= <- <-]|].
  case_match; [|by intros [= <- <-]]. destruct (spanUnit s) as [u' r'].
  intros [= <- <-]. by rewrite (IH u' eq_refl).
Qed.

Lemma unitMap_pos u v : unitMap u = Some v → (0 < v)%Z ∧ u ≠ [].
Proof.
  unfold unitMap. intros H. split.
  - repeat (case_match; [injection H as <-; vm_compute; done|]). done.
  - by intros ->.
Qed.

Lemma durationTerm_shorter s v r : durationTerm s = Some (v, r) → length r < length s.
Proof.
  unfold durationTerm. destruct (leadingInt 0 s) as [[x s1]|] eqn:Hl; [|done]. apply leadingInt_suffix in Hl.
  set (frac := match s1 with [] => _ | _ => _ end).
  assert (length frac.1.2 ≤ length s1) as Hf.
  { subst frac. destruct s1 as [|c r']; [done|]. case_match; [|done].
    destruct (leadingFraction _ _ _ r') as [[f sc] s2] eqn:Hf. apply leadingFraction_suffix in Hf. simpl. lia. }
  destruct frac as [[[f sc] s2] post]. cbn [fst snd] in Hf. case_match; [done|].
  destruct (spanUnit s2) as [u s3] eqn:Hu. apply spanUnit_app in Hu as ->.
  destruct (unitMap u) as [unit|] eqn:Hm; [|done]. apply unitMap_pos in Hm as [_ Hne].
  repeat (case_match; [done|]). intros [= _ <-]. rewrite length_app in Hf. destruct u; [done|]. simpl in Hf. lia.
Qed.

Lemma durationLoop_fuel fuel fuel' d s : length s ≤ fuel → length s ≤ fuel' → durationLoop fuel d s = durationLoop fuel' d s.
Proof.
  revert fuel' d s. induction fuel as [|f IH]; intros fuel' d s H1 H2.
  - destruct s; [by destruct fuel'|simpl in H1; lia].
  - destruct s as [|c s]; [by destruct fuel'|]. destruct fuel' as [|f']; [simpl in H2; lia|].
    cbn [durationLoop]. destruct (durationTerm (c :: s)) as [[v r]|] eqn:E; [|done].
    apply durationTerm_shorter in E. simpl in E, H1, H2. case_match; [done|]. apply IH; lia.
Qed.

(** ** Range *)

Lemma leadingInt_nonneg x s y r : (0 <= x)%Z → leadingInt x s = Some (y, r) → (0 <= y)%Z.
Proof.
  revert x. induction s as [|c s IH]; intros x Hx; cbn [leadingInt]; [by intros [= <- _]|].
  case_match eqn:Hd; [|by intros [= <- _]]. apply isDigit_range in Hd.
  case_match; [done|]. case_match; [done|]. apply IH. lia.
Qed.

Lemma f64ToUint_nonneg x : (0 <= f64ToUint x)%Z.
Proof. destruct x as [| | |[] m e]; simpl; try lia. case_match eqn:E; [nia|]. apply Z.div_pos; [lia|]. apply Z.pow_pos_nonneg; lia. Qed.

Lemma durationTerm_nonneg s v r : durationTerm s = Some (v, r) → (0 <= v)%Z.
Proof.
  unfold durationTerm. destruct (leadingInt 0 s) as [[x s1]|] eqn:Hl; [|done]. apply leadingInt_nonneg in Hl; [|lia].
  destruct (match s1 with [] => _ | _ => _ end) as [[[f sc] s2] post]. case_match; [done|].
  destruct (spanUnit s2) as [u s3]. destruct (unitMap u) as [unit|] eqn:Hm; [|done]. apply unitMap_pos in Hm as [Hp _].
  repeat (case_match; [done|]). intros [= <- _]. unfold fractionOf. pose proof (f64ToUint_nonneg (f64Mul (f64OfZ f) (f64Div (f64OfZ unit) sc))).
  case_match; nia.
Qed.

Lemma durationLoop_range fuel d s d' : (0 <= d <= two63)%Z → durationLoop fuel d s = Some d' → (0 <= d' <= two63)%Z.
Proof.
  revert d s. induction fuel as [|f IH]; intros d s Hd; destruct s; cbn [durationLoop]; try done; try by intros [= <-].
  destruct (durationTerm _) as [[v r]|] eqn:Ht; [|done]. apply durationTerm_nonneg in Ht.
  case_match eqn:L; [done|]. apply Z.ltb_ge in L. apply IH. lia.
Qed.

Lemma ParseDuration_range s d : ParseDuration s = Some d → (- two63 <= d < two63)%Z.
Proof.
  unfold ParseDuration. set (body := match s with [] => _ | _ => _ end). destruct body as [neg t].
  case_match; [by intros [= <-]|]. destruct t as [|c t]; [done|].
  destruct (durationLoop _ 0 _) as [x|] eqn:E; [|done]. apply durationLoop_range in E; [|done].
  destruct neg; [intros [= <-]; unfold two63 in *; lia|]. case_match eqn:L; [done|]. apply Z.ltb_ge in L. intros [= <-]. lia.
Qed.

(** ** Integers with a unit *)

Lemma leadingInt_decimal x s v r :
  (0 <= x)%Z → decimal x s = Some v → (v <= two63)%Z → (∀ c r', r = c :: r' → isDigit c = false) →
  leadingInt x (s ++ r) = Some (v, r).
Proof.
  intros Hx Hd Hv Hr. revert x Hx Hd. induction s as [|c s IH]; intros x Hx; cbn [decimal app leadingInt].
  - intros [= ->]. destruct r as [|c r]; [done|]. cbn [leadingInt]. by rewrite (Hr c r eq_refl).
  - case_match eqn:Hc; [|done]. intros Hd. pose proof (isDigit_range c Hc). assert (x * 10 + (bval c - 48) <= v)%Z by (eapply decimal_nonneg; [|exact Hd]; lia).
    rewrite (proj2 (Z.ltb_ge _ _)) by (apply Z.div_le_lower_bound; lia).
    cbv zeta. rewrite (proj2 (Z.ltb_ge _ _)) by lia. apply IH; [lia|done].
Qed.

Lemma spanUnit_all u : forallb unitByte u = true → spanUnit u = (u, []).
Proof. induction u as [|c u IH]; [done|]. cbn [forallb spanUnit]. intros [-> H]%andb_true_iff. by rewrite IH. Qed.

Lemma unitMap_bytes u v : unitMap u = Some v → forallb unitByte u = true.
Proof.
  unfold unitMap. repeat case_match; try done; intros _; bool_simpl;
    repeat match goal with H : _ || _ = true |- _ => apply orb_true_iff in H as [H|H] | H : seqb _ _ = true |- _ => apply seqb_eq in H as -> end;
    vm_compute; reflexivity.
Qed.

Lemma Itoa_decimal n : (0 <= n)%Z → decimal 0 (Itoa n) = Some n.
Proof.
  intros Hn. destruct (digits_fuel_decimal (S (Z.to_nat n)) n [] ltac:(lia) ltac:(lia)) as (k&Hk).
  unfold Itoa. by rewrite Hk.
Qed.

Lemma durationTerm_integer n u unit :
  (0 <= n)%Z → unitMap u = Some unit → (n * unit <= two63)%Z → durationTerm (Itoa n ++ u) = Some (n * unit, [])%Z.
Proof.
  intros Hn Hu Hmax. destruct (unitMap_pos _ _ Hu) as [Hp Hne]. pose proof (unitMap_bytes _ _ Hu) as Hb.
  destruct u as [|c u]; [done|]. cbn [forallb] in Hb. apply andb_true_iff in Hb as [Hc Hb].
  unfold unitByte in Hc. apply negb_true_iff, orb_false_iff in Hc as [Hdot Hdig].
  unfold durationTerm. rewrite (leadingInt_decimal 0 (Itoa n) n (c :: u)); [|done|by apply Itoa_decimal|nia|by intros ?? [= <- _]].
  rewrite Hdot. cbn [app]. rewrite length_app.
  assert (length (Itoa n) ≠ 0) as Hl by (pose proof (digits_fuel_nonempty (Z.to_nat n) n []) as H; unfold Itoa; by destruct (digits_fuel _ _ _)).
  rewrite (proj2 (Nat.eqb_neq _ _)) by (simpl; lia). cbn [negb orb].
  rewrite spanUnit_all by (cbn [forallb unitByte]; unfold unitByte; by rewrite Hdot, Hdig). rewrite Hu.
  rewrite (proj2 (Z.ltb_ge _ _)) by (apply Z.div_le_lower_bound; lia).
  unfold fractionOf. cbn. rewrite Z.add_0_r. by rewrite (proj2 (Z.ltb_ge _ _)) by lia.
Qed.

Lemma ParseDuration_integer n u unit :
  (0 <= n)%Z → unitMap u = Some unit → (n * unit < two63)%Z → ParseDuration (Itoa n ++ u) = Some (n * unit)%Z.
Proof.
  intros Hn Hu Hmax. pose proof (durationTerm_integer n u unit Hn Hu ltac:(lia)) as Ht.
  destruct (unitMap_pos _ _ Hu) as [Hp Hne].
  assert (∃ c t, Itoa n ++ u = c :: t ∧ isDigit c = true ∧ t ≠ []) as (c&t&E&Hd&Htne).
  { pose proof (Itoa_decimal n Hn) as Hdec. pose proof (digits_fuel_nonempty (Z.to_nat n) n []) as H. fold (Itoa n) in H.
    destruct (Itoa n) as [|c t]; [done|]. exists c, (t ++ u). cbn [decimal] in Hdec. split_and!; [done|by destruct (isDigit c)|].
    intros [_ ?]%app_nil. done. }
  unfold ParseDuration. rewrite E in *.
  assert (c ≠ "-"%byte ∧ c ≠ "+"%byte) as [Hm Hpl] by (by split; intros ->).
  rewrite !bool_decide_eq_false_2 by done.
  rewrite (proj2 (seqb_neq _ _)) by (intros [= _ ?]; done).
  change (durationLoop (length (c :: t)) 0 (c :: t)) with
    (match durationTerm (c :: t) with None => None | Some (v, rest) => let d := (0 + v)%Z in
       if (two63 <? d)%Z then None else durationLoop (length t) d rest end).
  rewrite Ht. cbv zeta. rewrite Z.add_0_l, (proj2 (Z.ltb_ge _ _)) by lia.
  replace (durationLoop (length t) (n * unit) []) with (Some (n * unit)%Z) by (by destruct t).
  by rewrite (proj2 (Z.ltb_ge _ _)) by lia.
Qed.
