(* ===== verification/Config.v ===== *)
(** * Configuration (internal/config/config.go)

    [Load] reads the environment variables in the order of the source and stops
    at the first one it rejects.  [parsePublicIPv4] is netip.ParseAddr for
    IPv4 addresses followed by the mask tests against the special-purpose
    prefixes; [ensureWritableDirectory] runs against the outcomes of its
    system calls ([osCalls]) and returns the probe files it leaves behind. *)

From S2P Require Import Prelude GoString GoConv Duration.

(** ** IPv4 addresses (package net/netip) *)

(** parseIPv4Fields: [fields] are the octets read (last first), [val] and
    [digLen] the value and the number of digits of the current one. *)
Fixpoint parseIPv4Fields (fields : list Z) (val : Z) (digLen : nat) (s : gostring) : option (list Z) :=
  match s with
  | [] => if length fields <? 3 then None else Some (rev (val :: fields))
  | c :: r =>
      if isDigit c then
        if (digLen =? 1) && (val =? 0)%Z then None
        else let val := (val * 10 + (bval c - 48))%Z in
             if (255 <? val)%Z then None else parseIPv4Fields fields val (S digLen) r
      else if bool_decide (c = "."%byte) then
        if (digLen =? 0) || (length r =? 0) then None
        else if length fields =? 3 then None
        else parseIPv4Fields (val :: fields) 0 0 r
      else None
  end.

Definition addrOf (octets : list Z) : Z := foldl (λ a o, a * 256 + o)%Z 0%Z octets.

(** netip.ParseAddr(raw) with Is4: a textual IPv4 address, as its 32 bits.  A
    text with a colon or a percent sign is an IPv6 address or an error. *)
Definition ParseAddr4 (raw : gostring) : option Z := option_map addrOf (parseIPv4Fields [] 0 0 raw).

Record prefix := { prefixAddr : Z; prefixBits : Z }.
Definition pfx (a b c d bits : Z) : prefix := {| prefixAddr := addrOf [a; b; c; d]; prefixBits := bits |}.

(** netip.Prefix.Contains on IPv4. *)
Definition prefixContains (p : prefix) (ip : Z) : bool :=
  (Z.shiftr (Z.lxor ip (prefixAddr p)) (32 - prefixBits p) =? 0)%Z.

Definition nonPublicIPv4Prefixes : list prefix :=
  [pfx 0 0 0 0 8; pfx 10 0 0 0 8; pfx 100 64 0 0 10; pfx 127 0 0 0 8; pfx 169 254 0 0 16; pfx 172 16 0 0 12;
   pfx 192 0 0 0 24; pfx 192 0 2 0 24; pfx 192 31 196 0 24; pfx 192 52 193 0 24; pfx 192 88 99 0 24;
   pfx 192 168 0 0 16; pfx 192 175 48 0 24; pfx 198 18 0 0 15; pfx 198 51 100 0 24; pfx 203 0 113 0 24;
   pfx 224 0 0 0 4; pfx 240 0 0 0 4]%Z.

(** ** Errors *)

Inductive directoryError := ErrPathEmpty | ErrMkdirAll | ErrStat | ErrNotDirectory | ErrNotWritable | ErrProbeClose | ErrProbeRemove.

Inductive configError :=
| ErrNoEnvironment
| ErrPublicIP
| ErrPort (name : gostring)
| ErrPortRange
| ErrToken
| ErrRecordingsDir (e : directoryError)
| ErrSessionTTL
| ErrLogLevel
| ErrBool (name : gostring)
| ErrAudioPrimeDuration
| ErrAudioPrimeMode.

(** ** Parsers of single values *)

Definition valueOr (value fallback : gostring) : gostring := if seqb value [] then fallback else value.

Definition parsePort (raw : gostring) (fallback : Z) (name : gostring) : result configError Z :=
  if seqb raw [] then Ok fallback
  else match ParseUint raw 16 with
       | None => Err (ErrPort name)
       | Some value => if (value =? 0)%Z then Err (ErrPort name) else Ok value
       end.

Definition parseBool (raw name : gostring) : result configError bool :=
  if seqb raw [] then Ok false
  else match ParseBool raw with None => Err (ErrBool name) | Some value => Ok value end.

Definition parsePublicIPv4 (raw : gostring) : result configError Z :=
  match ParseAddr4 raw with
  | None => Err ErrPublicIP
  | Some addr => if existsb (λ p, prefixContains p addr) nonPublicIPv4Prefixes then Err ErrPublicIP else Ok addr
  end.

Inductive logLevel := LevelDebug | LevelInfo | LevelWarn | LevelError.

Definition parseLogLevel (raw : gostring) : result configError logLevel :=
  let s := ToLower raw in
  if seqb s §"debug" then Ok LevelDebug
  else if seqb s §"info" then Ok LevelInfo
  else if seqb s §"warn" || seqb s §"warning" then Ok LevelWarn
  else if seqb s §"error" then Ok LevelError
  else Err ErrLogLevel.

(** ** The recordings directory *)

(** What the operating system answers: whether MkdirAll succeeded, whether the
    path is a directory (if Stat succeeded), the name of the created probe, and
    whether closing and removing it succeeded. *)
Record osCalls := {
  MkdirAll : bool;
  StatIsDir : option bool;
  CreateTemp : option gostring;
  ProbeClose : bool;
  ProbeRemove : bool
}.

(** The probe files left in the directory, and the result. *)
Definition ensureWritableDirectory (os : osCalls) (path : gostring) : list gostring * result directoryError unit :=
  if blank path then ([], Err ErrPathEmpty)
  else if negb (MkdirAll os) then ([], Err ErrMkdirAll)
  else match StatIsDir os with
  | None => ([], Err ErrStat)
  | Some false => ([], Err ErrNotDirectory)
  | Some true =>
      match CreateTemp os with
      | None => ([], Err ErrNotWritable)
      | Some probePath =>
          let left := if ProbeRemove os then [] else [probePath] in
          if negb (ProbeClose os) then (left, Err ErrProbeClose)
          else if negb (ProbeRemove os) then (left, Err ErrProbeRemove)
          else (left, Ok tt)
      end
  end.

(** ** Load *)

Definition defaultHTTPAddr : gostring := §":8080".
Definition defaultUDPPortMin : Z := 40000.
Definition defaultUDPPortMax : Z := 40020.
Definition defaultRecordings : gostring := §"/data/recordings".
Definition defaultSessionTTL : Z := 10 * Minute.
Definition defaultAudioPrime : Z := 10 * Second.
Definition defaultAudioPrimeMode : gostring := §"silence".
Definition audioPrimeFrame : Z := 20 * Millisecond.
Definition defaultLogLevelName : gostring := §"info".

Record config := {
  HTTPAddr : gostring;
  PublicIP : Z;
  UDPPortMin : Z;
  UDPPortMax : Z;
  SessionAPIToken : gostring;
  RecordingsDir : gostring;
  SessionTTL : Z;
  LogLevel : logLevel;
  ICELite : bool;
  AudioPrimeEnabled : bool;
  AudioPrimeDuration : Z;
  AudioPrimeMode : gostring
}.

(** A duration variable: the fallback if it is unset, otherwise parsed and tested. *)
Definition durationOr (raw : gostring) (fallback : Z) (ok : Z → bool) (e : configError) : result configError Z :=
  if seqb raw [] then Ok fallback
  else match ParseDuration raw with None => Err e | Some d => if ok d then Ok d else Err e end.

Definition validTTL (d : Z) : bool := (0 <? d)%Z.
Definition validPrime (d : Z) : bool := negb ((d <? audioPrimeFrame)%Z || negb (Z.rem d audioPrimeFrame =? 0)%Z).
Definition validMode (m : gostring) : bool := seqb m §"silence" || seqb m §"tone".

Definition Load (os : osCalls) (env : option (gostring → gostring)) : result configError config :=
  match env with
  | None => Err ErrNoEnvironment
  | Some getenv =>
      let! publicIP := parsePublicIPv4 (getenv §"PUBLIC_IP") in
      let! portMin := parsePort (getenv §"UDP_PORT_MIN") defaultUDPPortMin §"UDP_PORT_MIN" in
      let! portMax := parsePort (getenv §"UDP_PORT_MAX") defaultUDPPortMax §"UDP_PORT_MAX" in
      guard! negb (portMax <? portMin)%Z else ErrPortRange in
      let token := getenv §"SESSION_API_TOKEN" in
      guard! negb (blank token) else ErrToken in
      let recordingsDir := valueOr (getenv §"RECORDINGS_DIR") defaultRecordings in
      match snd (ensureWritableDirectory os recordingsDir) with
      | Err e => Err (ErrRecordingsDir e)
      | Ok _ =>
          let! ttl := durationOr (getenv §"SESSION_TTL") defaultSessionTTL validTTL ErrSessionTTL in
          let! level := parseLogLevel (valueOr (getenv §"LOG_LEVEL") defaultLogLevelName) in
          let! iceLite := parseBool (getenv §"ICE_LITE") §"ICE_LITE" in
          let! audioPrimeEnabled := parseBool (getenv §"RTC_AUDIO_PRIME_ENABLED") §"RTC_AUDIO_PRIME_ENABLED" in
          let! audioPrimeDuration :=
            durationOr (getenv §"RTC_AUDIO_PRIME_DURATION") defaultAudioPrime validPrime ErrAudioPrimeDuration in
          let audioPrimeMode := valueOr (getenv §"RTC_AUDIO_PRIME_MODE") defaultAudioPrimeMode in
          guard! validMode audioPrimeMode else ErrAudioPrimeMode in
          Ok {| HTTPAddr := valueOr (getenv §"HTTP_ADDR") defaultHTTPAddr;
                PublicIP := publicIP; UDPPortMin := portMin; UDPPortMax := portMax;
                SessionAPIToken := token; RecordingsDir := recordingsDir; SessionTTL := ttl; LogLevel := level;
                ICELite := iceLite; AudioPrimeEnabled := audioPrimeEnabled;
                AudioPrimeDuration := audioPrimeDuration; AudioPrimeMode := audioPrimeMode |}
      end
  end.

(** ** Lemmas: octets and addresses *)

Definition octet (o : Z) : Prop := (0 <= o <= 255)%Z.
Definition dotted (l : list Z) : gostring := Join (map Itoa l) §".".

(** Every octet's text: a digit, or a shorter octet's text and a digit. *)
Lemma octet_cases v : octet v →
  ((v < 10)%Z ∧ Itoa v = [bchr (48 + v)]) ∨
  ((10 <= v)%Z ∧ Itoa v = Itoa (v / 10) ++ [bchr (48 + v mod 10)]).
Proof.
  intros Hv.
  assert (forallb (λ n, let v := Z.of_nat n in
    if (v <? 10)%Z then seqb (Itoa v) [bchr (48 + v)] else seqb (Itoa v) (Itoa (v / 10) ++ [bchr (48 + v mod 10)])) (seq 0 256) = true)
    as H by (vm_compute; reflexivity).
  rewrite forallb_forall in H. specialize (H (Z.to_nat v)). cbv zeta in H. rewrite Z2Nat.id in H by (unfold octet in Hv; lia).
  assert (In (Z.to_nat v) (seq 0 256)) as Hin by (apply in_seq; unfold octet in Hv; lia). specialize (H Hin).
  destruct (Z.ltb_spec v 10); apply seqb_eq in H; auto.
Qed.

Lemma octet_snoc v d : octet (v * 10 + d) → (0 < v)%Z → (0 <= d <= 9)%Z → Itoa (v * 10 + d) = Itoa v ++ [bchr (48 + d)].
Proof.
  intros Ho Hv Hd. destruct (octet_cases _ Ho) as [[? _]|[_ ->]]; [lia|].
  replace ((v * 10 + d) / 10)%Z with v by (apply (Z.div_unique _ 10 v d); lia).
  replace ((v * 10 + d) mod 10)%Z with d by (apply (Z.mod_unique _ 10 v d); lia). done.
Qed.

Lemma digit_bchr c : isDigit c = true → bchr (48 + (bval c - 48)) = c.
Proof. intros H%isDigit_range. apply bval_inj. rewrite bval_bchr; lia. Qed.

(** The digits of an octet are read to its value. *)
Lemma parse_octet fields v s : octet v →
  parseIPv4Fields fields 0 0 (Itoa v ++ s) = parseIPv4Fields fields v (length (Itoa v)) s.
Proof.
  intros Hv. revert s. assert (0 <= v)%Z as H0 by (unfold octet in Hv; lia).
  revert Hv. induction (Z.lt_wf 0 v) as [v _ IH]. intros Hv s.
  assert (Hdig : ∀ d, (0 <= d <= 9)%Z → isDigit (bchr (48 + d)) = true ∧ bval (bchr (48 + d)) = (48 + d)%Z)
    by (intros d Hd; split; [by apply isDigit_bchr|apply bval_bchr; lia]).
  destruct (octet_cases v Hv) as [[Hlt E]|[Hge E]].
  - rewrite E. cbn [app parseIPv4Fields length]. destruct (Hdig v) as [-> ->]; [lia|]. cbn [Nat.eqb andb].
    replace (0 * 10 + (48 + v - 48))%Z with v by lia. by rewrite (proj2 (Z.ltb_ge _ _)) by lia.
  - pose proof (Z.mod_pos_bound v 10 ltac:(lia)) as Hm. pose proof (Z.div_lt v 10 ltac:(lia) ltac:(lia)) as Hd.
    assert (1 <= v / 10)%Z as Hq by (apply Z.div_le_lower_bound; lia).
    rewrite E, <- app_assoc, IH by (unfold octet in *; lia). cbn [app parseIPv4Fields].
    destruct (Hdig (v mod 10)%Z) as [-> ->]; [lia|]. rewrite (proj2 (Z.eqb_neq (v / 10) 0)) by lia. rewrite andb_false_r.
    replace (v / 10 * 10 + (48 + v mod 10 - 48))%Z with v by (pose proof (Z.div_mod v 10 ltac:(lia)); lia).
    rewrite (proj2 (Z.ltb_ge _ _)) by (unfold octet in Hv; lia). f_equal. rewrite length_app. simpl. lia.
Qed.

Lemma Itoa_length_pos v : length (Itoa v) ≠ 0.
Proof. pose proof (digits_fuel_nonempty (Z.to_nat v) v []) as H. fold (Itoa v) in H. by destruct (Itoa v). Qed.

Lemma parse_dotted l fields :
  l ≠ [] → Forall octet l → length fields + length l = 4 → parseIPv4Fields fields 0 0 (dotted l) = Some (rev fields ++ l).
Proof.
  revert fields. induction l as [|v l IH]; intros fields Hne Hl Hlen; [done|]. inversion_clear Hl as [|?? Hv Hl'].
  destruct l as [|w l].
  - unfold dotted. cbn [map Join]. rewrite <- (app_nil_r (Itoa v)), parse_octet by done. cbn [parseIPv4Fields].
    simpl in Hlen. by rewrite (proj2 (Nat.ltb_ge _ _)) by lia.
  - change (dotted (v :: w :: l)) with (Itoa v ++ "."%byte :: dotted (w :: l)). rewrite parse_octet by done.
    cbn [parseIPv4Fields]. rewrite (proj2 (Nat.eqb_neq (length (Itoa v)) 0)) by apply Itoa_length_pos.
    assert (length (dotted (w :: l)) ≠ 0) as Hd.
    { unfold dotted. cbn [map]. destruct l; [apply Itoa_length_pos|]. cbn [Join map]. rewrite length_app. pose proof (Itoa_length_pos w). lia. }
    rewrite (proj2 (Nat.eqb_neq _ 0)) by done. cbn [orb isDigit bval]. simpl length in Hlen.
    rewrite (proj2 (Nat.eqb_neq (length fields) 3)) by lia.
    change (isDigit "."%byte) with false. cbn [bool_decide decide_rel]. rewrite bool_decide_eq_true_2 by done.
    rewrite IH by (done || simpl; lia). cbn [rev]. by rewrite <- app_assoc.
Qed.

(** What has been read of the current octet. *)
Definition partial (val : Z) (digLen : nat) (cur : gostring) : Prop :=
  digLen = length cur ∧ (digLen = 0 ∧ val = 0%Z ∨ cur = Itoa val ∧ octet val).

Lemma partial_digit val k cur c :
  partial val k cur → isDigit c = true → (k =? 1) && (val =? 0)%Z = false → (val * 10 + (bval c - 48) <= 255)%Z →
  partial (val * 10 + (bval c - 48)) (S k) (cur ++ [c]).
Proof.
  intros [-> Hp] Hc Hz Hle. pose proof (isDigit_range c Hc) as Hd. split; [rewrite length_app; simpl; lia|]. right.
  destruct Hp as [[H0 ->]|[-> Ho]].
  - destruct cur; [|done]. split; [|unfold octet; lia]. cbn [app]. rewrite Z.mul_0_l, Z.add_0_l.
    destruct (octet_cases (bval c - 48)) as [[_ ->]|[? _]]; [unfold octet; lia| |lia]. by rewrite digit_bchr.
  - assert (0 < val)%Z as Hv.
    { destruct (Z.eq_dec val 0%Z) as [->|]; [done|]. unfold octet in Ho. lia. }
    assert (octet (val * 10 + (bval c - 48))) by (unfold octet; lia). split; [|done].
    by rewrite octet_snoc, digit_bchr by (done || lia).
Qed.

Lemma parse_sound s fields val k cur out :
  parseIPv4Fields fields val k s = Some out → partial val k cur → length fields ≤ 3 → (k = 0 → s = [] → length fields < 3) →
  ∃ l, out = rev fields ++ l ∧ length out = 4 ∧ Forall octet l ∧ cur ++ s = dotted l.
Proof.
  revert fields val k cur. induction s as [|c s IH]; intros fields val k cur; cbn [parseIPv4Fields].
  - intros H [Hk Hp] Hf Hne. destruct (Nat.ltb_spec (length fields) 3) as [|Hge]; [done|]. injection H as <-.
    destruct Hp as [[-> ->]|[-> Ho]]; [specialize (Hne eq_refl eq_refl); lia|].
    exists [val]. cbn [rev]. split_and!; [done| |by apply Forall_singleton|by rewrite app_nil_r].
    rewrite length_app, length_rev. simpl. lia.
  - destruct (isDigit c) eqn:Hc.
    + destruct ((k =? 1) && (val =? 0)%Z) eqn:Hz; [done|]. cbv zeta.
      destruct (Z.ltb_spec 255 (val * 10 + (bval c - 48))) as [|Hle]; [done|]. intros H Hp Hf Hne.
      destruct (IH _ _ _ _ H (partial_digit _ _ _ _ Hp Hc Hz Hle) Hf) as (l&Ho&Hl&Hoct&Hs); [done|].
      exists l. by rewrite <- app_assoc in Hs.
    + case_bool_decide as Hdot; [subst c|done].
      destruct ((k =? 0) || (length s =? 0)) eqn:Hk; [done|]. apply orb_false_iff in Hk as [Hk%Nat.eqb_neq Hs%Nat.eqb_neq].
      destruct (Nat.eqb_spec (length fields) 3) as [|Hf3]; [done|]. intros H [Hlen Hp] Hf _.
      destruct Hp as [[? _]|[-> Ho]]; [done|].
      destruct (IH (val :: fields) 0%Z 0 [] H) as (l&Hout&Hl&Hoct&Hd).
      * by split; [|left].
      * simpl; lia.
      * intros _ ->. done.
      * exists (val :: l). cbn [rev] in Hout. rewrite <- app_assoc in Hout. split_and!; [done|done|by constructor|].
        cbn [app] in Hd. rewrite Hd. destruct l as [|w l]; [|done].
        rewrite Hout, !length_app, length_rev in Hl. simpl in Hl. lia.
Qed.

(** netip's reading of an IPv4 address: four decimal octets without leading zeros. *)
Lemma parseIPv4Fields_spec s out :
  parseIPv4Fields [] 0 0 s = Some out ↔ length out = 4 ∧ Forall octet out ∧ s = dotted out.
Proof.
  split.
  - intros H. destruct (parse_sound s [] 0 0 [] out H) as (l&->&Hl&Ho&Hs); [by split; [|left]|simpl; lia|simpl; lia|]. done.
  - intros (Hl&Ho&->). rewrite parse_dotted by (done || by destruct out). done.
Qed.

(** ** Special-purpose ranges *)

(** First and last address of the blocks that are not public. *)
Definition specialRanges : list (list Z * list Z) :=
  [([0; 0; 0; 0], [0; 255; 255; 255]); ([10; 0; 0; 0], [10; 255; 255; 255]); ([100; 64; 0; 0], [100; 127; 255; 255]);
   ([127; 0; 0; 0], [127; 255; 255; 255]); ([169; 254; 0; 0], [169; 254; 255; 255]); ([172; 16; 0; 0], [172; 31; 255; 255]);
   ([192; 0; 0; 0], [192; 0; 0; 255]); ([192; 0; 2; 0], [192; 0; 2; 255]); ([192; 31; 196; 0], [192; 31; 196; 255]);
   ([192; 52; 193; 0], [192; 52; 193; 255]); ([192; 88; 99; 0], [192; 88; 99; 255]); ([192; 168; 0; 0], [192; 168; 255; 255]);
   ([192; 175; 48; 0], [192; 175; 48; 255]); ([198; 18; 0; 0], [198; 19; 255; 255]); ([198; 51; 100; 0], [198; 51; 100; 255]);
   ([203; 0; 113; 0], [203; 0; 113; 255]); ([224; 0; 0; 0], [239; 255; 255; 255]); ([240; 0; 0; 0], [255; 255; 255; 255])]%Z.

Definition special (ip : Z) : Prop := Exists (λ r, addrOf r.1 <= ip <= addrOf r.2)%Z specialRanges.

(** A prefix is the block of addresses that share its leading bits. *)
Lemma prefixContains_range p ip :
  (0 <= ip)%Z → (0 <= prefixBits p <= 32)%Z → (0 <= prefixAddr p)%Z → (prefixAddr p mod 2 ^ (32 - prefixBits p) = 0)%Z →
  prefixContains p ip = true ↔ (prefixAddr p <= ip <= prefixAddr p + 2 ^ (32 - prefixBits p) - 1)%Z.
Proof.
  intros Hip Hb Ha Hm. unfold prefixContains. set (k := (32 - prefixBits p)%Z) in *.
  assert (0 < 2 ^ k)%Z as Hk by (apply Z.pow_pos_nonneg; lia).
  rewrite Z.eqb_eq, Z.shiftr_lxor, !Z.shiftr_div_pow2 by lia. rewrite Z.lxor_eq_0_iff.
  pose proof (Z.div_mod (prefixAddr p) (2 ^ k) ltac:(lia)) as Hp. rewrite Hm in Hp.
  pose proof (Z.div_mod ip (2 ^ k) ltac:(lia)) as Hi. pose proof (Z.mod_pos_bound ip (2 ^ k) Hk).
  split; [intros E; rewrite E in Hi; nia|]. intros Hr. symmetry. apply (Z.div_unique _ _ _ (ip - prefixAddr p)); lia.
Qed.

Definition rangeOf (p : prefix) : Z * Z := (prefixAddr p, prefixAddr p + 2 ^ (32 - prefixBits p) - 1)%Z.

Lemma nonPublic_special ip : (0 <= ip)%Z → existsb (λ p, prefixContains p ip) nonPublicIPv4Prefixes = true ↔ special ip.
Proof.
  intros Hip. unfold special.
  assert (Forall (λ p, 0 <= prefixBits p <= 32 ∧ 0 <= prefixAddr p ∧ prefixAddr p mod 2 ^ (32 - prefixBits p) = 0)%Z nonPublicIPv4Prefixes) as Hw.
  { apply (bool_decide_eq_true_1 _). vm_compute. reflexivity. }
  assert (map rangeOf nonPublicIPv4Prefixes = map (λ r, (addrOf r.1, addrOf r.2)) specialRanges) as Hr by (vm_compute; reflexivity).
  rewrite existsb_exists, Exists_exists. rewrite Forall_forall in Hw. setoid_rewrite list_elem_of_In in Hw. split.
  - intros (p&Hin&Hc). destruct (Hw p Hin) as (Hb&Ha&Hm). apply prefixContains_range in Hc; [|done..].
    pose proof (in_map rangeOf _ _ Hin) as Hin'. rewrite Hr, in_map_iff in Hin'. destruct Hin' as (r&[= E1 E2]&Hin').
    exists r. rewrite list_elem_of_In. split; [done|]. rewrite E1, E2. done.
  - intros (r&Hin&Hc). rewrite list_elem_of_In in Hin. pose proof (in_map (λ r, (addrOf r.1, addrOf r.2)) _ _ Hin) as Hin'.
    rewrite <- Hr, in_map_iff in Hin'. destruct Hin' as (p&[= E1 E2]&Hin'). exists p. split; [done|].
    destruct (Hw p Hin') as (Hb&Ha&Hm). apply prefixContains_range; [done..|]. cbv beta in Hc. by rewrite <- E1, <- E2 in Hc.
Qed.

(** ** What is accepted *)

Definition publicAddress (raw : gostring) (ip : Z) : Prop :=
  ∃ a b c d, Forall octet [a; b; c; d] ∧ raw = dotted [a; b; c; d] ∧ ip = addrOf [a; b; c; d] ∧ ¬ special ip.

Definition portValue (raw : gostring) (fallback v : Z) : Prop :=
  raw = [] ∧ v = fallback ∨ raw ≠ [] ∧ ParseUint raw 16 = Some v ∧ (1 <= v <= 65535)%Z.

Definition boolValue (raw : gostring) (b : bool) : Prop :=
  raw = [] ∧ b = false ∨ raw ≠ [] ∧ ParseBool raw = Some b.

Definition durationValue (raw : gostring) (fallback : Z) (ok : Z → bool) (d : Z) : Prop :=
  raw = [] ∧ d = fallback ∨ raw ≠ [] ∧ ParseDuration raw = Some d ∧ ok d = true.

(** A directory that exists or can be made and takes and gives back a file. *)
Definition usableDirectory (os : osCalls) (path : gostring) : Prop :=
  blank path = false ∧ MkdirAll os = true ∧ StatIsDir os = Some true ∧ is_Some (CreateTemp os) ∧
  ProbeClose os = true ∧ ProbeRemove os = true.

Lemma addrOf_nonneg l : Forall octet l → (0 <= addrOf l)%Z.
Proof.
  unfold addrOf. intros Hl. assert (∀ a, (0 <= a)%Z → (0 <= foldl (λ a o, a * 256 + o)%Z a l)%Z) as H; [|by apply H].
  induction Hl as [|o l Ho Hl IH]; intros a Ha; cbn [foldl]; [done|]. apply IH. unfold octet in Ho. lia.
Qed.

Lemma ParseAddr4_spec raw ip :
  ParseAddr4 raw = Some ip ↔ ∃ a b c d, Forall octet [a; b; c; d] ∧ raw = dotted [a; b; c; d] ∧ ip = addrOf [a; b; c; d].
Proof.
  unfold ParseAddr4. split.
  - destruct (parseIPv4Fields [] 0 0 raw) as [out|] eqn:E; [|done]. intros [= <-].
    apply parseIPv4Fields_spec in E as (Hl&Ho&->). destruct out as [|a [|b [|c [|d [|]]]]]; try done. by exists a, b, c, d.
  - intros (a&b&c&d&Ho&->&->). rewrite (proj2 (parseIPv4Fields_spec _ [a; b; c; d])); done.
Qed.

Lemma parsePublicIPv4_Ok raw ip : parsePublicIPv4 raw = Ok ip ↔ publicAddress raw ip.
Proof.
  unfold parsePublicIPv4, publicAddress. destruct (ParseAddr4 raw) as [x|] eqn:E.
  - apply ParseAddr4_spec in E as (a&b&c&d&Ho&->&->). pose proof (nonPublic_special _ (addrOf_nonneg _ Ho)) as Hs.
    destruct (existsb _ _); split.
    + done.
    + intros (a'&b'&c'&d'&Ho'&Heq&->&Hn). destruct Hn.
      assert (Some (addrOf [a; b; c; d]) = Some (addrOf [a'; b'; c'; d'])) as [= <-]; [|by apply Hs].
      rewrite <- (proj2 (ParseAddr4_spec (dotted [a; b; c; d]) _)) by eauto 10. apply ParseAddr4_spec. eauto 10.
    + intros [= <-]. exists a, b, c, d. split_and!; [done..|]. by intros ?%Hs.
    + intros (a'&b'&c'&d'&Ho'&Heq&->&Hn).
      assert (Some (addrOf [a; b; c; d]) = Some (addrOf [a'; b'; c'; d'])) as [= <-]; [|done].
      rewrite <- (proj2 (ParseAddr4_spec (dotted [a; b; c; d]) _)) by eauto 10. apply ParseAddr4_spec. eauto 10.
  - split; [done|]. intros (a&b&c&d&Ho&->&->&_).
    rewrite (proj2 (ParseAddr4_spec (dotted [a; b; c; d]) _)) in E by eauto 10. done.
Qed.

Lemma parsePort_Ok raw fallback name v : parsePort raw fallback name = Ok v ↔ portValue raw fallback v.
Proof.
  unfold parsePort, portValue. destruct (seqb raw []) eqn:E; [apply seqb_eq in E as ->|apply seqb_neq in E].
  - split; [intros [= <-]; by left|by intros [[_ ->]|[? _]]].
  - destruct (ParseUint raw 16) as [x|] eqn:Ep; [|by split; [|intros [[? _]|(_&?&_)]]].
    pose proof (ParseUint_range _ _ _ Ep) as Hr. change (2 ^ 16)%Z with 65536%Z in Hr.
    destruct (Z.eqb_spec x 0) as [->|Hx].
    + split; [done|]. intros [[? _]|(_&[= <-]&?)]; [done|lia].
    + split; [|by intros [[? _]|(_&[= <-]&_)]]. intros [= <-]. right. split_and!; [done|done|lia|lia].
Qed.

Lemma parseBool_Ok raw name b : parseBool raw name = Ok b ↔ boolValue raw b.
Proof.
  unfold parseBool, boolValue. destruct (seqb raw []) eqn:E; [apply seqb_eq in E as ->|apply seqb_neq in E].
  - split; [intros [= <-]; by left|by intros [[_ ->]|[? _]]].
  - destruct (ParseBool raw) as [x|]; split; try done; [intros [= <-]; by right|by intros [[? _]|[_ [= <-]]]|by intros [[? _]|[_ ?]]].
Qed.

Lemma durationOr_Ok raw fallback ok e d : durationOr raw fallback ok e = Ok d ↔ durationValue raw fallback ok d.
Proof.
  unfold durationOr, durationValue. destruct (seqb raw []) eqn:E; [apply seqb_eq in E as ->|apply seqb_neq in E].
  - split; [intros [= <-]; by left|by intros [[_ ->]|[? _]]].
  - destruct (ParseDuration raw) as [x|]; [|by split; [|intros [[? _]|(_&?&_)]]]. destruct (ok x) eqn:Hx.
    + split; [intros [= <-]; by right|by intros [[? _]|(_&[= <-]&_)]].
    + split; [done|]. intros [[? _]|(_&[= <-]&?)]; [done|congruence].
Qed.

Lemma ensureWritableDirectory_Ok os path :
  snd (ensureWritableDirectory os path) = Ok tt ↔ usableDirectory os path.
Proof.
  unfold ensureWritableDirectory, usableDirectory. destruct (blank path); [by split; [|intros [? _]]|].
  destruct (MkdirAll os); cbn [negb]; [|by split; [|intros (_&?&_)]].
  destruct (StatIsDir os) as [[]|]; [|by split; [|intros (_&_&?&_)]..].
  destruct (CreateTemp os); [|by split; [|intros (_&_&_&[??]&_)]].
  destruct (ProbeClose os); cbn [negb]; [|by split; [|intros (_&_&_&_&?&_)]].
  destruct (ProbeRemove os); cbn [negb]; [|by split; [|intros (_&_&_&_&_&?)]]. split; [|done]. intros _. split_and!; eauto.
Qed.

(** Whatever the system answers, a probe file is left only if it could not be removed. *)
Lemma ensureWritableDirectory_leaves os path :
  fst (ensureWritableDirectory os path) ≠ [] → ProbeRemove os = false ∧ is_Some (CreateTemp os).
Proof. unfold ensureWritableDirectory. repeat case_match; simpl; try done; eauto. Qed.

Definition levelNames (l : logLevel) : list gostring :=
  match l with
  | LevelDebug => [§"debug"]
  | LevelInfo => [§"info"]
  | LevelWarn => [§"warn"; §"warning"]
  | LevelError => [§"error"]
  end.

Lemma parseLogLevel_Ok raw l : parseLogLevel raw = Ok l ↔ ToLower raw ∈ levelNames l.
Proof.
  unfold parseLogLevel. set (s := ToLower raw). split.
  - repeat case_match; try done; intros [= <-]; cbn [levelNames]; rewrite ?elem_of_cons;
      repeat match goal with H : _ || _ = true |- _ => apply orb_true_iff in H as [H|H] | H : seqb _ _ = true |- _ => apply seqb_eq in H end; auto.
  - clearbody s. destruct l; cbn [levelNames]; rewrite ?elem_of_cons, ?elem_of_nil.
    + by intros [->|[]].
    + by intros [->|[]].
    + by intros [->|[->|[]]].
    + by intros [->|[]].
Qed.

(** ** Why a value is refused *)

Lemma parsePublicIPv4_Err raw e : parsePublicIPv4 raw = Err e → e = ErrPublicIP ∧ ∀ ip, ¬ publicAddress raw ip.
Proof.
  intros H. split; [|intros ip Hip%parsePublicIPv4_Ok; congruence].
  unfold parsePublicIPv4 in H. by repeat case_match; simplify_eq.
Qed.

Lemma parsePort_Err raw fallback name e :
  parsePort raw fallback name = Err e → e = ErrPort name ∧ raw ≠ [] ∧ ∀ d v, ¬ portValue raw d v.
Proof.
  intros H. assert (raw ≠ []) as Hne by (by intros ->). split_and!; [|done|].
  - unfold parsePort in H. by repeat case_match; simplify_eq.
  - intros d v [[? _]|Hv]; [done|]. assert (portValue raw fallback v) as Hf%(parsePort_Ok _ _ name) by by right. congruence.
Qed.

Lemma parseBool_Err raw name e : parseBool raw name = Err e → e = ErrBool name ∧ ∀ b, ¬ boolValue raw b.
Proof.
  intros H. split; [|intros b Hb%(parseBool_Ok _ name); congruence]. unfold parseBool in H. by repeat case_match; simplify_eq.
Qed.

Lemma durationOr_Err raw fallback ok e e' :
  durationOr raw fallback ok e = Err e' → e' = e ∧ ∀ d, ¬ durationValue raw fallback ok d.
Proof.
  intros H. split; [|intros d Hd%(durationOr_Ok _ _ _ e); congruence]. unfold durationOr in H. by repeat case_match; simplify_eq.
Qed.

Lemma parseLogLevel_Err raw e : parseLogLevel raw = Err e → e = ErrLogLevel ∧ ∀ l, ToLower raw ∉ levelNames l.
Proof.
  intros H. split; [|intros l Hl%parseLogLevel_Ok; congruence]. unfold parseLogLevel in H. by repeat case_match; simplify_eq.
Qed.

Section Accepts.
Variables (os : osCalls) (getenv : gostring → gostring).

(** The configuration an environment describes. *)
Record accepts (cfg : config) : Prop := {
  acc_ip : publicAddress (getenv §"PUBLIC_IP") (PublicIP cfg);
  acc_min : portValue (getenv §"UDP_PORT_MIN") 40000 (UDPPortMin cfg);
  acc_max : portValue (getenv §"UDP_PORT_MAX") 40020 (UDPPortMax cfg);
  acc_ports : (UDPPortMin cfg <= UDPPortMax cfg)%Z;
  acc_token : SessionAPIToken cfg = getenv §"SESSION_API_TOKEN" ∧ blank (SessionAPIToken cfg) = false;
  acc_dir : RecordingsDir cfg = valueOr (getenv §"RECORDINGS_DIR") §"/data/recordings" ∧ usableDirectory os (RecordingsDir cfg);
  acc_ttl : durationValue (getenv §"SESSION_TTL") (10 * Minute) (λ d, 0 <? d)%Z (SessionTTL cfg);
  acc_level : ToLower (valueOr (getenv §"LOG_LEVEL") §"info") ∈ levelNames (LogLevel cfg);
  acc_lite : boolValue (getenv §"ICE_LITE") (ICELite cfg);
  acc_prime : boolValue (getenv §"RTC_AUDIO_PRIME_ENABLED") (AudioPrimeEnabled cfg);
  acc_duration : durationValue (getenv §"RTC_AUDIO_PRIME_DURATION") (10 * Second) validPrime (AudioPrimeDuration cfg);
  acc_mode : AudioPrimeMode cfg = valueOr (getenv §"RTC_AUDIO_PRIME_MODE") §"silence" ∧
             (AudioPrimeMode cfg = §"silence" ∨ AudioPrimeMode cfg = §"tone");
  acc_addr : HTTPAddr cfg = valueOr (getenv §"HTTP_ADDR") §":8080"
}.

(** What is wrong with the environment, for each error. *)
Definition blames (e : configError) : Prop :=
  match e with
  | ErrNoEnvironment => False
  | ErrPublicIP => ∀ ip, ¬ publicAddress (getenv §"PUBLIC_IP") ip
  | ErrPort name => (name = §"UDP_PORT_MIN" ∨ name = §"UDP_PORT_MAX") ∧ getenv name ≠ [] ∧ ∀ d v, ¬ portValue (getenv name) d v
  | ErrPortRange => ∃ lo hi, portValue (getenv §"UDP_PORT_MIN") 40000 lo ∧ portValue (getenv §"UDP_PORT_MAX") 40020 hi ∧ (hi < lo)%Z
  | ErrToken => blank (getenv §"SESSION_API_TOKEN") = true
  | ErrRecordingsDir _ => ¬ usableDirectory os (valueOr (getenv §"RECORDINGS_DIR") §"/data/recordings")
  | ErrSessionTTL => ∀ d, ¬ durationValue (getenv §"SESSION_TTL") (10 * Minute) (λ d, 0 <? d)%Z d
  | ErrLogLevel => ∀ l, ToLower (valueOr (getenv §"LOG_LEVEL") §"info") ∉ levelNames l
  | ErrBool name => (name = §"ICE_LITE" ∨ name = §"RTC_AUDIO_PRIME_ENABLED") ∧ ∀ b, ¬ boolValue (getenv name) b
  | ErrAudioPrimeDuration => ∀ d, ¬ durationValue (getenv §"RTC_AUDIO_PRIME_DURATION") (10 * Second) validPrime d
  | ErrAudioPrimeMode => let m := valueOr (getenv §"RTC_AUDIO_PRIME_MODE") §"silence" in m ≠ §"silence" ∧ m ≠ §"tone"
  end.

Lemma validMode_true m : validMode m = true ↔ m = §"silence" ∨ m = §"tone".
Proof. unfold validMode. rewrite orb_true_iff, !seqb_eq. done. Qed.

Lemma guard_Ok {E A} (b : bool) (e : E) (k : result E A) a : (guard! b else e in k) = Ok a ↔ b = true ∧ k = Ok a.
Proof. by destruct b; split; [|intros [_ ?]| |intros [? _]]. Qed.

Lemma guard_Err {E A} (b : bool) (e e' : E) (k : result E A) :
  (guard! b else e in k) = Err e' ↔ b = false ∧ e' = e ∨ b = true ∧ k = Err e'.
Proof.
  destruct b; split; [by right|by intros [[? _]|[_ ?]]|intros [= ->]; by left|by intros [[_ ->]|[? _]]].
Qed.

Lemma Load_accepts cfg : Load os (Some getenv) = Ok cfg ↔ accepts cfg.
Proof.
  unfold Load, defaultRecordings. split.
  - intros (ip&Hip&H)%result_bind_Ok. apply result_bind_Ok in H as (lo&Hlo&H). apply result_bind_Ok in H as (hi&Hhi&H).
    apply guard_Ok in H as [Hr H]. cbv zeta in H. apply guard_Ok in H as [Ht H].
    destruct (snd (ensureWritableDirectory os _)) as [[]|e] eqn:Hd; [|done].
    apply result_bind_Ok in H as (ttl&Httl&H). apply result_bind_Ok in H as (lv&Hlv&H). apply result_bind_Ok in H as (il&Hil&H).
    apply result_bind_Ok in H as (ap&Hap&H). apply result_bind_Ok in H as (ad&Had&H). apply guard_Ok in H as [Hm [= <-]].
    apply negb_true_iff, Z.ltb_ge in Hr. apply negb_true_iff in Ht.
    constructor; cbn.
    + by apply parsePublicIPv4_Ok.
    + by eapply parsePort_Ok.
    + by eapply parsePort_Ok.
    + done.
    + done.
    + split; [done|]. by apply ensureWritableDirectory_Ok.
    + by eapply durationOr_Ok.
    + by apply parseLogLevel_Ok.
    + by eapply parseBool_Ok.
    + by eapply parseBool_Ok.
    + by eapply durationOr_Ok.
    + split; [done|]. by apply validMode_true.
    + done.
  - intros []. destruct cfg as [ha ip lo hi tok dir ttl lv il ap ad am].
    cbn [HTTPAddr PublicIP UDPPortMin UDPPortMax SessionAPIToken RecordingsDir SessionTTL LogLevel ICELite AudioPrimeEnabled
      AudioPrimeDuration AudioPrimeMode] in *.
    apply result_bind_Ok. exists ip. split; [by apply parsePublicIPv4_Ok|].
    apply result_bind_Ok. exists lo. split; [by apply parsePort_Ok|].
    apply result_bind_Ok. exists hi. split; [by apply parsePort_Ok|].
    apply guard_Ok. split; [apply negb_true_iff; by apply Z.ltb_ge|]. cbv zeta. destruct acc_token0 as [-> Ht].
    apply guard_Ok. split; [by rewrite Ht|]. destruct acc_dir0 as [-> Hd].
    rewrite (proj2 (ensureWritableDirectory_Ok _ _) Hd).
    apply result_bind_Ok. exists ttl. split; [by apply durationOr_Ok|].
    apply result_bind_Ok. exists lv. split; [by apply parseLogLevel_Ok|].
    apply result_bind_Ok. exists il. split; [by apply parseBool_Ok|].
    apply result_bind_Ok. exists ap. split; [by apply parseBool_Ok|].
    apply result_bind_Ok. exists ad. split; [by apply durationOr_Ok|]. destruct acc_mode0 as [-> Hm].
    apply guard_Ok. split; [by apply validMode_true|]. by rewrite acc_addr0.
Qed.

Lemma Load_blames e : Load os (Some getenv) = Err e → blames e.
Proof.
  unfold Load. intros H. apply result_bind_Err in H as [(->&?)%parsePublicIPv4_Err|(ip&_&H)]; [done|].
  apply result_bind_Err in H as [(->&Hne&Hv)%parsePort_Err|(lo&Hlo&H)]; [by split; [left|]|].
  apply result_bind_Err in H as [(->&Hne&Hv)%parsePort_Err|(hi&Hhi&H)]; [by split; [right|]|].
  apply guard_Err in H as [[Hr ->]|[_ H]].
  { apply negb_false_iff, Z.ltb_lt in Hr. exists lo, hi. split_and!; [by eapply parsePort_Ok..|done]. }
  cbv zeta in H. apply guard_Err in H as [[Ht ->]|[_ H]]; [by apply negb_false_iff in Ht|].
  destruct (snd (ensureWritableDirectory os _)) as [[]|d] eqn:Hd.
  2: { injection H as <-. cbn [blames]. rewrite <- ensureWritableDirectory_Ok. unfold defaultRecordings in Hd. congruence. }
  apply result_bind_Err in H as [(->&?)%durationOr_Err|(ttl&_&H)]; [done|].
  apply result_bind_Err in H as [(->&?)%parseLogLevel_Err|(lv&_&H)]; [done|].
  apply result_bind_Err in H as [(->&?)%parseBool_Err|(il&_&H)]; [by split; [left|]|].
  apply result_bind_Err in H as [(->&?)%parseBool_Err|(ap&_&H)]; [by split; [right|]|].
  apply result_bind_Err in H as [(->&?)%durationOr_Err|(ad&_&H)]; [done|].
  apply guard_Err in H as [[Hm ->]|[_ H]]; [|done]. cbn [blames].
  by split; intros Heq; rewrite (proj2 (validMode_true _)) in Hm by auto.
Qed.
End Accepts.

(** ** Properties *)

(** C36. parsePublicIPv4 accepts exactly the texts of four decimal octets
    without leading zeros whose address lies in none of the special-purpose
    ranges (given by their first and last addresses), returns that address,
    and has one error for everything else. *)
Theorem parsePublicIPv4_spec raw :
  (∀ ip, parsePublicIPv4 raw = Ok ip ↔
     ∃ a b c d, Forall octet [a; b; c; d] ∧ raw = dotted [a; b; c; d] ∧ ip = addrOf [a; b; c; d] ∧ ¬ special ip) ∧
  (∀ e, parsePublicIPv4 raw = Err e → e = ErrPublicIP).
Proof. split; [apply parsePublicIPv4_Ok|by intros e [-> _]%parsePublicIPv4_Err]. Qed.

(** C18. Load returns exactly the configuration the environment describes
    (every variable parsed or defaulted, every test passed), every error is
    justified by the environment, and without a reader it is refused. *)
Theorem Load_spec os :
  (∀ getenv cfg, Load os (Some getenv) = Ok cfg ↔ accepts os getenv cfg) ∧
  (∀ getenv e, Load os (Some getenv) = Err e → blames os getenv e) ∧
  Load os None = Err ErrNoEnvironment.
Proof. split_and!; [apply Load_accepts|apply Load_blames|done]. Qed.

(** The environment of the tests, with every optional variable unset, and one
    with some set. *)
Definition sampleOs : osCalls :=
  {| MkdirAll := true; StatIsDir := Some true; CreateTemp := Some §"/data/recordings/.write-probe-1"; ProbeClose := true; ProbeRemove := true |}.
Definition sampleGetenv (extra : list (gostring * gostring)) (name : gostring) : gostring :=
  match list_find (λ p, p.1 = name) (extra ++ [(§"PUBLIC_IP", §"8.8.8.8"); (§"SESSION_API_TOKEN", §"test-secret")]) with
  | Some (_, (_, v)) => v
  | None => []
  end.
Definition sampleConfig : config :=
  {| HTTPAddr := §":8080"; PublicIP := 0x08080808; UDPPortMin := 40000; UDPPortMax := 40020; SessionAPIToken := §"test-secret";
     RecordingsDir := §"/data/recordings"; SessionTTL := 600000000000; LogLevel := LevelInfo; ICELite := false;
     AudioPrimeEnabled := false; AudioPrimeDuration := 10000000000; AudioPrimeMode := §"silence" |}.

Example Load_defaults : Load sampleOs (Some (sampleGetenv [])) = Ok sampleConfig.
Proof. vm_compute. reflexivity. Qed.

Example Load_rejections :
  map (λ extra, Load sampleOs (Some (sampleGetenv [extra])))
    [(§"PUBLIC_IP", §"172.31.0.1"); (§"UDP_PORT_MIN", §"40021"); (§"UDP_PORT_MAX", §"65536"); (§"SESSION_API_TOKEN", §" ");
     (§"SESSION_TTL", §"0s"); (§"LOG_LEVEL", §"verbose"); (§"ICE_LITE", §"yes"); (§"RTC_AUDIO_PRIME_DURATION", §"30ms");
     (§"RTC_AUDIO_PRIME_MODE", §"noise")]
  = [Err ErrPublicIP; Err ErrPortRange; Err (ErrPort §"UDP_PORT_MAX"); Err ErrToken; Err ErrSessionTTL; Err ErrLogLevel;
     Err (ErrBool §"ICE_LITE"); Err ErrAudioPrimeDuration; Err ErrAudioPrimeMode].
Proof. vm_compute. reflexivity. Qed.

(** ** The Go types *)

Definition uint16 (z : Z) : Prop := (0 <= z < 2 ^ 16)%Z.
Definition int64 (z : Z) : Prop := (- 2 ^ 63 <= z < 2 ^ 63)%Z.

(** A configuration's numbers are values of the types of [Config]'s fields: an
    IPv4 address, ports, durations. *)
Record wellTyped (cfg : config) : Prop := {
  wt_ip : (0 <= PublicIP cfg < 2 ^ 32)%Z;
  wt_min : uint16 (UDPPortMin cfg);
  wt_max : uint16 (UDPPortMax cfg);
  wt_ttl : int64 (SessionTTL cfg);
  wt_prime : int64 (AudioPrimeDuration cfg)
}.


Lemma addrOf_range a b c d : Forall octet [a; b; c; d] → (0 <= addrOf [a; b; c; d] < 2 ^ 32)%Z.
Proof.
  intros H. inversion_clear H as [|?? Ha H1]. inversion_clear H1 as [|?? Hb H2]. inversion_clear H2 as [|?? Hc H3].
  inversion_clear H3 as [|?? Hd _]. unfold octet, addrOf in *. cbn [foldl]. lia.
Qed.

Lemma portValue_range raw fallback v : (1 <= fallback <= 65535)%Z → portValue raw fallback v → (1 <= v <= 65535)%Z.
Proof. by intros Hf [[_ ->]|(_&_&?)]. Qed.

Lemma durationValue_range raw fallback ok d : int64 fallback → durationValue raw fallback ok d → int64 d.
Proof. intros Hf [[_ ->]|(_&Hd&_)]; [done|]. by apply ParseDuration_range in Hd. Qed.

Lemma durationValue_ok raw fallback ok d : ok fallback = true → durationValue raw fallback ok d → ok d = true.
Proof. by intros Hf [[_ ->]|(_&_&?)]. Qed.

(** C24. Whatever the environment holds, a configuration that [Load] returns is
    made of values of its Go types, although they come from decimal strings of
    any length: no port, address or duration was truncated or wrapped around.
    The ports are a non-empty range without 0, the session lifetime is
    positive, and the audio prime lasts a whole number of frames, at least one. *)
Theorem Load_well_typed (os : osCalls) (getenv : gostring → gostring) (cfg : config) :
  Load os (Some getenv) = Ok cfg →
  wellTyped cfg ∧ (1 <= UDPPortMin cfg <= UDPPortMax cfg)%Z ∧ (0 < SessionTTL cfg)%Z ∧
  ∃ frames, (1 <= frames)%Z ∧ AudioPrimeDuration cfg = (frames * audioPrimeFrame)%Z.
Proof.
  intros Ha%Load_accepts. destruct Ha as [(a&b&c&d&Ho&_&Hip&_) Hmin Hmax Hports _ _ Httl _ _ _ Hprime _ _].
  pose proof (addrOf_range _ _ _ _ Ho) as Hr. rewrite <- Hip in Hr.
  apply portValue_range in Hmin as Hmin', Hmax as Hmax'; [|done..].
  pose proof (durationValue_range _ (10 * Minute) _ _ ltac:(done) Httl) as Ht.
  pose proof (durationValue_ok _ (10 * Minute) _ _ eq_refl Httl) as Hpos%Z.ltb_lt.
  pose proof (durationValue_range _ (10 * Second) _ _ ltac:(done) Hprime) as Hp.
  pose proof (durationValue_ok _ (10 * Second) _ _ eq_refl Hprime) as Hv.
  unfold validPrime in Hv. apply negb_true_iff, orb_false_iff in Hv as [Hlo%Z.ltb_ge Hrem%negb_false_iff%Z.eqb_eq].
  split; [split; unfold uint16; (done || lia)|]. split_and!; [lia|lia|done|].
  apply Z.rem_divide in Hrem as [k Hk]; [|done]. exists k. split; [|done]. unfold audioPrimeFrame, Millisecond in *. lia.
Qed.

Lemma Load_well_typed_witness :
  wellTyped sampleConfig ∧ ∃ frames, AudioPrimeDuration sampleConfig = (frames * audioPrimeFrame)%Z.
Proof.
  assert (Load sampleOs (Some (sampleGetenv [])) = Ok sampleConfig) as Hl by (vm_compute; reflexivity).
  destruct (Load_well_typed sampleOs (sampleGetenv []) sampleConfig Hl) as (Hw&_&_&frames&_&Hf).
  split; [exact Hw|]. exists frames. exact Hf.
Defined.
