(* ===== verification/SdpText.v ===== *)
(** * SDP texts as lines and media sections

    The three normalizers of internal/rtc/server.go walk the lines of an SDP
    text by index, each finding the end of the current media section with the
    same inner loop.  This file defines that loop ([sectionEndAt]) and the
    view the specifications are written against: [sectionsOf] cuts the lines
    into the session part and the media sections, each a media line followed
    by lines that are not media lines. *)

From S2P Require Import Prelude GoString.

(** [strings.HasPrefix(line, "m=")]. *)
Definition isMedia (line : gostring) : bool := HasPrefix line (§"m=").
Definition notMedia (line : gostring) : bool := negb (isMedia line).

(** [end := i; for end < len(lines) && !strings.HasPrefix(lines[end], "m=") { end++ }]. *)
Definition sectionEndAt (lines : list gostring) (i : nat) : nat :=
  scan notMedia (drop i lines) i.

(** The session-level lines and the media sections. *)
Fixpoint sectionsOf (lines : list gostring) : list gostring * list (list gostring) :=
  match lines with
  | [] => ([], [])
  | line :: rest =>
      let '(pre, secs) := sectionsOf rest in
      if isMedia line then ([], (line :: pre) :: secs) else (line :: pre, secs)
  end.

(** A media section: its media line first, no other media line after it. *)
Definition is_section (sec : list gostring) : Prop :=
  match sec with
  | [] => False
  | m :: body => isMedia m = true ∧ forallb notMedia body = true
  end.

Definition sectioned (pre : list gostring) (secs : list (list gostring)) : Prop :=
  forallb notMedia pre = true ∧ Forall is_section secs.

Lemma sectionsOf_concat lines : (sectionsOf lines).1 ++ concat (sectionsOf lines).2 = lines.
Proof.
  induction lines as [|l lines IH]; simpl; [done|].
  destruct (sectionsOf lines) as [pre secs]; simpl in *. destruct (isMedia l); simpl; by rewrite IH.
Qed.

Lemma sectionsOf_sectioned lines : sectioned (sectionsOf lines).1 (sectionsOf lines).2.
Proof.
  unfold sectioned. induction lines as [|l lines IH]; simpl; [done|].
  destruct (sectionsOf lines) as [pre secs]; simpl in *. destruct IH as [Hp Hs].
  destruct (isMedia l) eqn:E; simpl.
  - split; [done|]. constructor; [done|done].
  - unfold notMedia at 1. by rewrite E.
Qed.

Lemma sectionsOf_pre pre lines :
  forallb notMedia pre = true →
  sectionsOf (pre ++ lines) = (pre ++ (sectionsOf lines).1, (sectionsOf lines).2).
Proof.
  induction pre as [|p pre IH]; simpl; [by destruct (sectionsOf lines)|].
  intros [Hp%negb_true_iff H]%andb_true_iff. rewrite IH by done. by rewrite Hp.
Qed.

Lemma sectionsOf_unique pre secs :
  sectioned pre secs → sectionsOf (pre ++ concat secs) = (pre, secs).
Proof.
  intros [Hp Hs]. rewrite sectionsOf_pre by done.
  assert (sectionsOf (concat secs) = ([], secs)) as ->; [|simpl; by rewrite app_nil_r].
  clear pre Hp. induction Hs as [|[|m body] secs Hsec Hs IH]; simpl; [done|by destruct Hsec|].
  destruct Hsec as [Hm Hb]. rewrite sectionsOf_pre by done. rewrite IH. simpl.
  by rewrite Hm, app_nil_r.
Qed.

Lemma stops_sections secs : Forall is_section secs → stops notMedia (concat secs).
Proof.
  intros H. destruct H as [|[|m body] secs Hsec _]; simpl; [done|by destruct Hsec|].
  destruct Hsec as [Hm _]. by unfold notMedia; rewrite Hm.
Qed.

(** The inner loop started just after a media line ends where its section ends. *)
Lemma sectionEndAt_spec front m body secs :
  forallb notMedia body = true → Forall is_section secs →
  sectionEndAt (front ++ (m :: body) ++ concat secs) (S (length front)) =
  length front + S (length body).
Proof.
  intros Hb Hs. unfold sectionEndAt.
  replace (S (length front)) with (length (front ++ [m])) by (rewrite length_app; simpl; lia).
  replace (front ++ (m :: body) ++ concat secs) with ((front ++ [m]) ++ body ++ concat secs)
    by (by rewrite <- app_assoc).
  rewrite drop_app_length, scan_app by (done || by apply stops_sections).
  rewrite length_app. simpl. lia.
Qed.

#[export] Hint Resolve sectionsOf_sectioned stops_sections : gateway.
