(* ===== verification/SdpMux.v ===== *)
(** * normalizeAlexaRTCPMuxCandidates (internal/rtc/server.go)

    The normalizer removes the RTCP (component 2) candidates of the active
    audio sections that negotiate rtcp-mux.  It is modelled with its array of
    removal flags and its nested index loops; [muxSection] is the
    section-by-section reference the loops are proved to compute.

    [ice.UnmarshalCandidate] is third-party code: the definitions take it as
    an argument, only its success being observed. *)

From S2P Require Import Prelude GoString GoConv SdpText.

Section Mux.

(** [err == nil] of [ice.UnmarshalCandidate]. *)
Variable UnmarshalCandidate : gostring → bool.

(** The body of the loop over the lines of a section: is this line removed? *)
Definition removableCandidate (line : gostring) : bool :=
  if negb (HasPrefix line (§"a=candidate:")) then false else
  let candidateFields := Fields line in
  match candidateFields with
  | f0 :: f1 :: _ =>
      if negb (seqb f1 (§"2")) then false
      else if seqb f0 (§"a=candidate:") then false
      else UnmarshalCandidate (TrimPrefix (Join candidateFields (§" ")) (§"a="))
  | _ => false
  end.

(** The m-line tests: an audio section whose port is a positive integer. *)
Definition activeAudioLine (line : gostring) : bool :=
  match Fields line with
  | f0 :: f1 :: _ =>
      seqb f0 (§"m=audio") && match Atoi f1 with Some port => (0 <? port)%Z | None => false end
  | _ => false
  end.

(** The loop over [sectionStart+1 .. sectionEnd-1] that sets the removal flags. *)
Definition markSection (lines : list gostring) (lo hi : nat) (remove : list bool) : list bool :=
  foldl (λ rm i,
    match lines !! i with
    | Some line => if removableCandidate line then <[i := true]> rm else rm
    | None => rm
    end) remove (seq lo (hi - lo)).

(** One iteration of the outer loop, at index [sectionStart]. *)
Definition muxIteration (lines : list gostring) (remove : list bool) (sectionStart : nat) : list bool :=
  match lines !! sectionStart with
  | None => remove
  | Some line =>
      if negb (isMedia line) then remove else
      let sectionEnd := sectionEndAt lines (S sectionStart) in
      if negb (activeAudioLine line) then remove else
      if negb (existsb (seqb (§"a=rtcp-mux")) (slice (S sectionStart) sectionEnd lines)) then remove
      else markSection lines (S sectionStart) sectionEnd remove
  end.

(** The final loop: the lines whose flag is not set. *)
Fixpoint keepLines (lines : list gostring) (remove : list bool) : list gostring :=
  match lines, remove with
  | line :: ls, r :: rs => if r then keepLines ls rs else line :: keepLines ls rs
  | _, _ => []
  end.

Definition muxFlags (lines : list gostring) : list bool :=
  foldl (muxIteration lines) (replicate (length lines) false) (seq 0 (length lines)).

Definition normalizeAlexaRTCPMuxCandidates (answer : gostring) : gostring :=
  let lineSeparator := lineSeparatorOf answer in
  let lines := Split answer lineSeparator in
  Join (keepLines lines (muxFlags lines)) lineSeparator.

(** ** Reference: one section at a time *)

Definition muxEligible (sec : list gostring) : bool :=
  match sec with
  | m :: body => activeAudioLine m && existsb (seqb (§"a=rtcp-mux")) body
  | [] => false
  end.

Definition muxSection (sec : list gostring) : list gostring :=
  if muxEligible sec then
    match sec with
    | m :: body => m :: filter (λ l, removableCandidate l = false) body
    | [] => []
    end
  else sec.

Definition sectionFlags (sec : list gostring) : list bool :=
  match sec with
  | m :: body => false :: (if muxEligible sec then map removableCandidate body
                           else map (λ _, false) body)
  | [] => []
  end.

(** ** The loops compute the reference *)

Lemma markSection_spec pre body post front flags :
  length front = length pre →
  markSection (pre ++ body ++ post) (length pre) (length pre + length body)
    (front ++ replicate (length body) false ++ flags) =
  front ++ map removableCandidate body ++ flags.
Proof.
  unfold markSection. intros Hl.
  replace (length pre + length body - length pre) with (length body) by lia.
  revert pre front Hl; induction body as [|l body IH]; intros pre front Hl; simpl; [done|].
  rewrite list_lookup_middle by done.
  assert (∀ b, front ++ b :: replicate (length body) false ++ flags =
    (front ++ [b]) ++ replicate (length body) false ++ flags) as Hassoc
    by (intros; by rewrite <- app_assoc).
  set (step := λ (rm : list bool) i, _) in *.
  assert ((if removableCandidate l
     then <[length pre:=true]> (front ++ false :: replicate (length body) false ++ flags)
     else front ++ false :: replicate (length body) false ++ flags) =
    (front ++ [removableCandidate l]) ++ replicate (length body) false ++ flags) as ->.
  { rewrite <- app_assoc. simpl. case_match; [|done].
    by rewrite list_insert_middle. }
  specialize (IH (pre ++ [l]) (front ++ [removableCandidate l])).
  rewrite !length_app in IH. simpl in IH. rewrite !Nat.add_1_r in IH.
  subst step. rewrite <- app_assoc in IH. simpl in IH.
  rewrite IH by (by rewrite Hl). by rewrite <- app_assoc.
Qed.
Lemma muxIteration_skip pre body post rm :
  forallb notMedia body = true →
  foldl (muxIteration (pre ++ body ++ post)) rm (seq (length pre) (length body)) = rm.
Proof.
  intros Hb. apply foldl_fixed. intros i Hi. unfold muxIteration.
  destruct ((pre ++ body ++ post) !! i) as [l|] eqn:E; [|done].
  apply lookup_seq_middle in E; [|done].
  rewrite forallb_Forall, Forall_forall in Hb. specialize (Hb l E). simpl in Hb.
  unfold notMedia in Hb. by rewrite Hb.
Qed.

Lemma sectionFlags_length sec : length (sectionFlags sec) = length sec.
Proof. destruct sec as [|m body]; simpl; [done|]. case_match; by rewrite length_map. Qed.

Lemma muxIteration_section pre m body secs front flags :
  length front = length pre → is_section (m :: body) → Forall is_section secs →
  foldl (muxIteration (pre ++ (m :: body) ++ concat secs))
    (front ++ replicate (S (length body)) false ++ flags)
    (seq (length pre) (S (length body))) =
  front ++ sectionFlags (m :: body) ++ flags.
Proof.
  intros Hl [Hm Hb] Hs. simpl seq. cbn [foldl].
  assert (muxIteration (pre ++ (m :: body) ++ concat secs)
    (front ++ replicate (S (length body)) false ++ flags) (length pre) =
    front ++ sectionFlags (m :: body) ++ flags) as ->.
  { unfold muxIteration. cbn [app]. rewrite list_lookup_middle by done. rewrite Hm.
    change (pre ++ m :: body ++ concat secs) with (pre ++ (m :: body) ++ concat secs).
    rewrite sectionEndAt_spec by done. simpl.
    replace (pre ++ m :: body ++ concat secs) with ((pre ++ [m]) ++ body ++ concat secs)
      by (by rewrite <- app_assoc).
    replace (S (length pre)) with (length (pre ++ [m])) by (rewrite length_app; simpl; lia).
    replace (length pre + S (length body)) with (length (pre ++ [m]) + length body)
      by (rewrite length_app; simpl; lia).
    rewrite slice_app.
    assert (front ++ false :: replicate (length body) false ++ flags =
      (front ++ [false]) ++ replicate (length body) false ++ flags) as -> by (by rewrite <- app_assoc).
    destruct (activeAudioLine m); simpl; [|by rewrite <- app_assoc, map_const_replicate].
    destruct (existsb _ body); simpl; [|by rewrite <- app_assoc, map_const_replicate].
    rewrite markSection_spec by (rewrite !length_app; simpl; lia). by rewrite <- app_assoc. }
  replace (pre ++ (m :: body) ++ concat secs) with ((pre ++ [m]) ++ body ++ concat secs)
    by (by rewrite <- app_assoc).
  replace (S (length pre)) with (length (pre ++ [m])) by (rewrite length_app; simpl; lia).
  by apply muxIteration_skip.
Qed.

Lemma muxIteration_sections pre secs front :
  length front = length pre → Forall is_section secs →
  foldl (muxIteration (pre ++ concat secs)) (front ++ replicate (length (concat secs)) false)
    (seq (length pre) (length (concat secs))) =
  front ++ concat (map sectionFlags secs).
Proof.
  intros Hl Hs. revert pre front Hl.
  induction Hs as [|sec secs Hsec Hs IH]; intros pre front Hl; simpl; [done|].
  rewrite length_app, seq_app, replicate_add, foldl_app.
  destruct sec as [|m body]; [by destruct Hsec|].
  rewrite (muxIteration_section pre m body secs front) by done.
  rewrite !app_assoc. rewrite <- length_app.
  apply IH. rewrite !length_app, sectionFlags_length, Hl. done.
Qed.

Lemma muxFlags_sections pre secs :
  sectioned pre secs →
  muxFlags (pre ++ concat secs) = map (λ _, false) pre ++ concat (map sectionFlags secs).
Proof.
  intros [Hp Hs]. unfold muxFlags. rewrite length_app, seq_app, replicate_add, foldl_app.
  pose proof (muxIteration_skip [] pre (concat secs)) as Hskip. simpl in Hskip.
  rewrite Hskip by done. rewrite <- map_const_replicate.
  simpl. apply muxIteration_sections; [by rewrite length_fmap|done].
Qed.

Lemma keepLines_app l1 l2 r1 r2 :
  length l1 = length r1 → keepLines (l1 ++ l2) (r1 ++ r2) = keepLines l1 r1 ++ keepLines l2 r2.
Proof.
  revert r1; induction l1 as [|l l1 IH]; intros [|r r1]; simpl; try done; [lia..|].
  intros [= H]. rewrite IH by done. by case_match.
Qed.

Lemma keepLines_map (p : gostring → bool) l : keepLines l (map p l) = filter (λ x, p x = false) l.
Proof.
  induction l as [|x l IH]; simpl; [done|]. destruct (p x) eqn:E.
  - rewrite filter_cons_False by congruence. done.
  - rewrite filter_cons_True by done. by rewrite IH.
Qed.

Lemma keepLines_section sec : keepLines sec (sectionFlags sec) = muxSection sec.
Proof.
  destruct sec as [|m body]; [done|]. unfold muxSection, sectionFlags.
  destruct (muxEligible (m :: body)); simpl; f_equal; [apply keepLines_map|].
  rewrite keepLines_map. by apply filter_all_true.
Qed.

Lemma keepLines_muxFlags pre secs :
  sectioned pre secs →
  keepLines (pre ++ concat secs) (muxFlags (pre ++ concat secs)) =
  pre ++ concat (map muxSection secs).
Proof.
  intros H. rewrite muxFlags_sections by done. rewrite keepLines_app by (by rewrite length_map).
  rewrite keepLines_map, filter_all_true by done. f_equal.
  clear H pre. induction secs as [|sec secs IH]; simpl; [done|].
  rewrite keepLines_app by (by rewrite sectionFlags_length). by rewrite keepLines_section, IH.
Qed.

Lemma normalizeMux_lines answer :
  normalizeAlexaRTCPMuxCandidates answer =
  Join ((sectionsOf (linesOf answer)).1 ++ concat (map muxSection (sectionsOf (linesOf answer)).2))
    (lineSeparatorOf answer).
Proof.
  unfold normalizeAlexaRTCPMuxCandidates. fold (linesOf answer).
  rewrite <- (sectionsOf_concat (linesOf answer)) at 1 2.
  by rewrite keepLines_muxFlags by apply sectionsOf_sectioned.
Qed.

(** ** The sections after the removal *)

Lemma muxSection_is_section sec : is_section sec → is_section (muxSection sec).
Proof.
  destruct sec as [|m body]; [done|]. intros [Hm Hb]. unfold muxSection.
  case_match; split; [done|..|done|done].
  rewrite forallb_Forall in *. by apply Forall_filter_keep.
Qed.

Lemma existsb_filter_keep {A} (p q : A → bool) (l : list A) :
  (∀ x, p x = true → q x = false) → existsb p (filter (λ x, q x = false) l) = existsb p l.
Proof.
  intros H. induction l as [|x l IH]; [done|]. simpl. destruct (p x) eqn:E.
  - rewrite filter_cons_True by auto. simpl. by rewrite E.
  - destruct (q x) eqn:Q; [rewrite filter_cons_False by congruence|rewrite filter_cons_True by done];
      simpl; by rewrite ?E.
Qed.

Lemma muxSection_eligible sec : muxEligible (muxSection sec) = muxEligible sec.
Proof.
  unfold muxSection. destruct (muxEligible sec) eqn:E; [|done]. destruct sec as [|m body]; [done|].
  simpl in *. rewrite existsb_filter_keep; [done|].
  intros x Hx%seqb_eq. by rewrite <- Hx.
Qed.

Lemma filter_filter_same {A} (P : A → Prop) `{!∀ x, Decision (P x)} (l : list A) :
  filter P (filter P l) = filter P l.
Proof. apply filter_all_true. intros x Hx%list_elem_of_filter. tauto. Qed.

Lemma muxSection_idem sec : muxSection (muxSection sec) = muxSection sec.
Proof.
  unfold muxSection at 1. rewrite muxSection_eligible. unfold muxSection.
  destruct (muxEligible sec); [|done]. destruct sec as [|m body]; [done|].
  by rewrite filter_filter_same.
Qed.

Lemma muxSection_sublist sec : muxSection sec `sublist_of` sec.
Proof.
  unfold muxSection. destruct sec as [|m body]; case_match; try done.
  apply sublist_skip, sublist_filter.
Qed.

Lemma concat_muxSection_sublist secs : concat (map muxSection secs) `sublist_of` concat secs.
Proof. induction secs; simpl; [done|]. apply sublist_app; [apply muxSection_sublist|done]. Qed.

(** Either nothing changes or a section with its media line and its
    rtcp-mux line is left: the text keeps at least two lines. *)
Lemma muxSections_long secs :
  map muxSection secs = secs ∨ 2 ≤ length (concat (map muxSection secs)).
Proof.
  induction secs as [|sec secs IH]; simpl; [by left|]. rewrite length_app.
  destruct (muxEligible sec) eqn:E.
  - right. rewrite <- muxSection_eligible in E. destruct (muxSection sec) as [|m [|x body]]; simpl in *.
    + done.
    + by rewrite andb_false_r in E.
    + lia.
  - destruct IH as [IH|IH]; [left|right; lia]. rewrite IH. f_equal. unfold muxSection. by rewrite E.
Qed.

Lemma muxSections_framed sep pre secs :
  framed sep (pre ++ concat secs) → framed sep (pre ++ concat (map muxSection secs)).
Proof.
  intros (HF&Hne&Hsep). destruct (muxSections_long secs) as [->|Hlong]; [by split|].
  assert (pre ++ concat (map muxSection secs) `sublist_of` pre ++ concat secs) as Hsub
    by (apply sublist_app; [done|apply concat_muxSection_sublist]).
  split; [by eapply sublist_Forall|]. split.
  { intros [-> E]%app_eq_nil. rewrite E in Hlong. simpl in Hlong. lia. }
  destruct Hsep as [[-> _]|[-> Hcr]]; [left|right]; (split; [done|]).
  - rewrite length_app. lia.
  - eapply sublist_Forall; [by apply sublist_removelast|done].
Qed.

Lemma muxSections_sectioned pre secs :
  sectioned pre secs → sectioned pre (map muxSection secs).
Proof.
  intros [Hp Hs]. split; [done|]. apply Forall_fmap. eapply Forall_impl; [done|].
  apply muxSection_is_section.
Qed.

Lemma normalizeMux_linesOf answer :
  linesOf (normalizeAlexaRTCPMuxCandidates answer) =
    (sectionsOf (linesOf answer)).1 ++ concat (map muxSection (sectionsOf (linesOf answer)).2) ∧
  lineSeparatorOf (normalizeAlexaRTCPMuxCandidates answer) = lineSeparatorOf answer.
Proof.
  rewrite normalizeMux_lines.
  assert (framed (lineSeparatorOf answer) ((sectionsOf (linesOf answer)).1 ++
    concat (map muxSection (sectionsOf (linesOf answer)).2))) as Hf.
  { apply muxSections_framed. rewrite sectionsOf_concat. apply linesOf_framed. }
  split; [by apply framed_linesOf|by apply framed_lineSeparatorOf].
Qed.

Lemma normalizeMux_sectionsOf answer :
  sectionsOf (linesOf (normalizeAlexaRTCPMuxCandidates answer)) =
  ((sectionsOf (linesOf answer)).1, map muxSection (sectionsOf (linesOf answer)).2).
Proof.
  destruct (normalizeMux_linesOf answer) as [-> _].
  apply sectionsOf_unique, muxSections_sectioned, sectionsOf_sectioned.
Qed.

(** ** Properties *)

(** The flag-and-index loops of [normalizeAlexaRTCPMuxCandidates] compute the
    section-by-section reference on every answer: the session part is kept, an
    active audio section that has the line [a=rtcp-mux] loses exactly its
    well-formed component-2 candidates, every other section is kept as it is,
    and the line separator is the one of the answer. *)
Theorem normalizeMux_refines_sections (answer : gostring) :
  normalizeAlexaRTCPMuxCandidates answer =
  Join ((sectionsOf (linesOf answer)).1 ++ concat (map muxSection (sectionsOf (linesOf answer)).2))
    (lineSeparatorOf answer).
Proof. apply normalizeMux_lines. Qed.

(** Normalizing twice is normalizing once, on every answer and for every
    candidate parser. *)
Theorem normalizeMux_idempotent (answer : gostring) :
  normalizeAlexaRTCPMuxCandidates (normalizeAlexaRTCPMuxCandidates answer) =
  normalizeAlexaRTCPMuxCandidates answer.
Proof.
  rewrite (normalizeMux_lines (normalizeAlexaRTCPMuxCandidates answer)).
  rewrite normalizeMux_sectionsOf. destruct (normalizeMux_linesOf answer) as [_ ->].
  rewrite (normalizeMux_lines answer). simpl. rewrite map_map.
  f_equal. f_equal. f_equal. apply map_ext. apply muxSection_idem.
Qed.

(** A candidate line of component 2 with a foundation that the ICE library parses. *)
Definition component2 (line : gostring) : Prop :=
  HasPrefix line §"a=candidate:" = true ∧
  (∃ foundation rest, Fields line = foundation :: §"2" :: rest ∧ foundation ≠ §"a=candidate:") ∧
  UnmarshalCandidate (TrimPrefix (Join (Fields line) §" ") §"a=") = true.

(** An audio section with a positive port that has an rtcp-mux line. *)
Definition activeMux (sec : list gostring) : Prop :=
  ∃ m body text port rest, sec = m :: body ∧ Fields m = §"m=audio" :: text :: rest ∧ Atoi text = Some port ∧ (0 < port)%Z ∧
    §"a=rtcp-mux" ∈ body.

Lemma removableCandidate_true line : removableCandidate line = true ↔ component2 line.
Proof.
  unfold removableCandidate, component2. destruct (HasPrefix line §"a=candidate:"); cbn [negb]; [|naive_solver].
  destruct (Fields line) as [|f0 [|f1 rest]]; [naive_solver..|].
  destruct (seqb f1 §"2") eqn:E1; cbn [negb]; [apply seqb_eq in E1 as ->|apply seqb_neq in E1; naive_solver].
  destruct (seqb f0 §"a=candidate:") eqn:E0; [apply seqb_eq in E0|apply seqb_neq in E0]; naive_solver.
Qed.

#[global] Instance component2_dec line : Decision (component2 line).
Proof.
  destruct (removableCandidate line) eqn:E; [left; by apply removableCandidate_true|right].
  intros H%removableCandidate_true. congruence.
Defined.

Lemma component2_false line : ¬ component2 line ↔ removableCandidate line = false.
Proof. rewrite <- removableCandidate_true. by destruct (removableCandidate line). Qed.

Lemma activeMux_eligible sec : activeMux sec → muxEligible sec = true.
Proof.
  intros (m&body&text&port&rest&->&Hm&Hp&Hlt&Hin). cbn [muxEligible]. unfold activeAudioLine. rewrite Hm, Hp, seqb_refl.
  rewrite (proj2 (Z.ltb_lt _ _)) by done. cbn [andb]. by apply existsb_seqb_elem.
Qed.

Lemma activeMux_iff sec : activeMux sec ↔ muxEligible sec = true.
Proof.
  split; [apply activeMux_eligible|]. destruct sec as [|m body]; [done|]. cbn [muxEligible].
  intros [Ha Hx]%andb_true_iff. apply existsb_seqb_elem in Hx. unfold activeAudioLine in Ha.
  destruct (Fields m) as [|f0 [|f1 rest]] eqn:Hf; try done. apply andb_true_iff in Ha as [H0%seqb_eq Hp]. subst f0.
  destruct (Atoi f1) as [port|] eqn:Hport; [|done]. apply Z.ltb_lt in Hp.
  by exists m, body, f1, port, rest.
Qed.

Lemma activeMux_eligible_false sec : ¬ activeMux sec → muxEligible sec = false.
Proof. rewrite activeMux_iff. by destruct (muxEligible sec). Qed.

Lemma muxSection_inactive sec : ¬ activeMux sec → muxSection sec = sec.
Proof. intros H%activeMux_eligible_false. unfold muxSection. by rewrite H. Qed.

Lemma muxSection_active m body :
  activeMux (m :: body) → muxSection (m :: body) = m :: filter (λ l, ¬ component2 l) body.
Proof.
  intros H%activeMux_eligible. unfold muxSection. rewrite H. f_equal. apply list_filter_iff. intros l. by rewrite component2_false.
Qed.

(** C11. The normalizer keeps the line separator, the session part and the
    number and order of the media sections.  An active audio section with
    rtcp-mux - media line [m=audio] with a port that is a positive integer, and
    a line [a=rtcp-mux] - becomes its media line followed by its other lines,
    in order, less the parsable candidates of component 2; every other section
    comes out line for line. *)
Theorem normalizeMux_removes_only_component2 (answer : gostring) :
  let result := normalizeAlexaRTCPMuxCandidates answer in
  lineSeparatorOf result = lineSeparatorOf answer ∧
  (sectionsOf (linesOf result)).1 = (sectionsOf (linesOf answer)).1 ∧
  Forall2 (λ sec sec', ∃ m body, sec = m :: body ∧
      (activeMux sec → sec' = m :: filter (λ l, ¬ component2 l) body) ∧
      (¬ activeMux sec → sec' = sec))
    (sectionsOf (linesOf answer)).2 (sectionsOf (linesOf result)).2.
Proof.
  intros result. subst result. rewrite normalizeMux_sectionsOf. cbn [fst snd].
  split; [apply normalizeMux_linesOf|]. split; [done|].
  apply Forall2_fmap_r, Forall_Forall2_diag. eapply Forall_impl; [apply sectionsOf_sectioned|].
  intros [|m body] Hsec; [by destruct Hsec|]. exists m, body.
  split; [done|]. split; [apply muxSection_active|apply muxSection_inactive].
Qed.

End Mux.

(** An active audio section with rtcp-mux, a rejected one and one without
    rtcp-mux, each with the same candidates. *)
Example normalizeMux_sections :
  let candidates := [§"a=candidate:1 1 udp 1 10.0.0.1 9 typ host"; §"a=candidate:1 2 udp 1 10.0.0.1 9 typ host"] in
  let answer := Join ([§"v=0"; §"m=audio 9 RTP 111"; §"a=rtcp-mux"] ++ candidates ++
                      [§"m=audio 0 RTP 111"; §"a=rtcp-mux"] ++ candidates ++
                      [§"m=video 9 RTP 96"; §"a=rtcp-mux"] ++ candidates ++ [§"m=audio 9 RTP 111"] ++ candidates) lf in
  linesOf (normalizeAlexaRTCPMuxCandidates (λ _, true) answer) =
    [§"v=0"; §"m=audio 9 RTP 111"; §"a=rtcp-mux"] ++ take 1 candidates ++
    [§"m=audio 0 RTP 111"; §"a=rtcp-mux"] ++ candidates ++
    [§"m=video 9 RTP 96"; §"a=rtcp-mux"] ++ candidates ++ [§"m=audio 9 RTP 111"] ++ candidates.
Proof. vm_compute. reflexivity. Qed.
