(* ===== verification/SdpMid.v ===== *)
(** * normalizeAlexaRejectedMediaMIDs (internal/rtc/server.go)

    A media section the answer rejects (port 0) and that lost its [a=mid:]
    line gets the mid of the offer's section at the same position back.  The
    model follows the code: the parsed media line, the offer's sections found
    by an index loop, the section starts of the answer, and the insertion
    point.  [midSection] is the section-by-section reference. *)

From S2P Require Import Prelude GoString GoConv SdpText.

Record alexaOfferMediaSection := {
  mediaType : gostring;
  mid : gostring
}.

(** ** alexaMediaLineFields *)

(** The fields of a media line, or [None] when it is not well formed. *)
Definition alexaMediaLineFields (line : gostring) : option (list gostring) :=
  let fields := Fields line in
  match fields with
  | f0 :: f1 :: _ :: _ :: _ =>
      if negb (HasPrefix f0 (§"m=")) || seqb (TrimPrefix f0 (§"m=")) [] then None else
      match Split f1 (§"/") with
      | [p0] =>
          if seqb p0 [] then None
          else match ParseUint p0 16 with Some _ => Some fields | None => None end
      | [p0; p1] =>
          if seqb p0 [] then None else
          match ParseUint p0 16 with
          | None => None
          | Some _ =>
              match ParseUint p1 32 with
              | Some portCount => if (portCount =? 0)%Z then None else Some fields
              | None => None
              end
          end
      | _ => None
      end
  | _ => None
  end.

Definition field (n : nat) (fields : list gostring) : gostring := default [] (fields !! n).

(** ** alexaOfferMediaSections *)

(** The mid of the first [a=mid:] line at the indices [sectionLine .. sectionEnd-1]. *)
Fixpoint firstMid (body : list gostring) : gostring :=
  match body with
  | [] => []
  | line :: rest =>
      if HasPrefix line (§"a=mid:") then TrimPrefix line (§"a=mid:") else firstMid rest
  end.

Definition offerSectionAt (line : gostring) (body : list gostring) : alexaOfferMediaSection :=
  {| mediaType := match alexaMediaLineFields line with
                  | Some fields => TrimPrefix (field 0 fields) (§"m=")
                  | None => []
                  end;
     mid := firstMid body |}.

(** [for lineIndex := 0; lineIndex < len(lines); lineIndex++], which continues
    at the end of each section it has read. *)
Fixpoint offerSectionsLoop (fuel : nat) (lines : list gostring) (lineIndex : nat) : list alexaOfferMediaSection :=
  match fuel with
  | O => []
  | S fuel' =>
      match lines !! lineIndex with
      | None => []
      | Some line =>
          if negb (isMedia line) then offerSectionsLoop fuel' lines (S lineIndex) else
          let sectionEnd := sectionEndAt lines (S lineIndex) in
          offerSectionAt line (slice (S lineIndex) sectionEnd lines)
            :: offerSectionsLoop fuel' lines sectionEnd
      end
  end.

Definition alexaOfferMediaSections (offer : gostring) : list alexaOfferMediaSection :=
  let lines := Split offer (lineSeparatorOf offer) in
  offerSectionsLoop (S (length lines)) lines 0.

(** ** alexaRejectedMediaMIDInsertAt: [None] for the code's -1 *)

Definition alexaRejectedMediaMIDInsertAt (section : list gostring) (sectionIndex : nat)
    (offerSections : list alexaOfferMediaSection) : option nat :=
  match section, offerSections !! sectionIndex with
  | m :: body, Some offerSection =>
      match alexaMediaLineFields m with
      | None => None
      | Some answerFields =>
          if negb (seqb (field 1 answerFields) (§"0")) then None else
          let answerMediaType := TrimPrefix (field 0 answerFields) (§"m=") in
          if seqb answerMediaType [] || negb (seqb answerMediaType (mediaType offerSection))
             || seqb (mid offerSection) [] then None
          else if existsb (λ line, HasPrefix line (§"a=mid:")) body then None
          else match find_from (λ line, HasPrefix line (§"a=")) body 1 with
               | Some i => Some i
               | None =>
                   let insertAt := length section in
                   if (1 <? insertAt) && seqb (field (insertAt - 1) section) []
                   then Some (insertAt - 1) else Some insertAt
               end
      end
  | _, _ => None
  end.

(** ** normalizeAlexaRejectedMediaMIDs *)

Fixpoint sectionStarts (lineIndex : nat) (lines : list gostring) : list nat :=
  match lines with
  | [] => []
  | line :: rest =>
      if isMedia line then lineIndex :: sectionStarts (S lineIndex) rest
      else sectionStarts (S lineIndex) rest
  end.

(** The loop over the section starts; [normalized] accumulates the lines. *)
Fixpoint midLoop (lines : list gostring) (offerSections : list alexaOfferMediaSection)
    (sectionIndex : nat) (starts : list nat) (normalized : list gostring) : list gostring :=
  match starts with
  | [] => normalized
  | sectionStart :: rest =>
      let sectionEnd := match rest with [] => length lines | next :: _ => next end in
      let section := slice sectionStart sectionEnd lines in
      let normalized' :=
        match alexaRejectedMediaMIDInsertAt section sectionIndex offerSections,
              offerSections !! sectionIndex with
        | Some insertAt, Some o =>
            ((normalized ++ take insertAt section) ++ [§"a=mid:" ++ mid o]) ++ drop insertAt section
        | _, _ => normalized ++ section
        end in
      midLoop lines offerSections (S sectionIndex) rest normalized'
  end.

Definition normalizeAlexaRejectedMediaMIDs (offer answer : gostring) : gostring :=
  let offerSections := alexaOfferMediaSections offer in
  match offerSections with
  | [] => answer
  | _ =>
      let lineSeparator := lineSeparatorOf answer in
      let lines := Split answer lineSeparator in
      match sectionStarts 0 lines with
      | [] => answer
      | start0 :: _ =>
          Join (midLoop lines offerSections 0 (sectionStarts 0 lines) (take start0 lines)) lineSeparator
      end
  end.

(** ** Reference: one section at a time *)

Definition midSection (offerSections : list alexaOfferMediaSection) (i : nat) (sec : list gostring) : list gostring :=
  match alexaRejectedMediaMIDInsertAt sec i offerSections, offerSections !! i with
  | Some insertAt, Some o => insert_at insertAt (§"a=mid:" ++ mid o) sec
  | _, _ => sec
  end.

(** ** The index loops compute the section views *)

Definition offerSectionOf (sec : list gostring) : alexaOfferMediaSection :=
  match sec with
  | m :: body => offerSectionAt m body
  | [] => {| mediaType := []; mid := [] |}
  end.

Lemma offerSectionsLoop_skip fuel pre body post :
  forallb notMedia body = true →
  offerSectionsLoop (length body + fuel) (pre ++ body ++ post) (length pre) =
  offerSectionsLoop fuel (pre ++ body ++ post) (length pre + length body).
Proof.
  revert pre; induction body as [|l body IH]; intros pre Hb; simpl; [by rewrite Nat.add_0_r|].
  simpl in Hb. apply andb_true_iff in Hb as [Hl%negb_true_iff Hb].
  rewrite list_lookup_middle by done. rewrite Hl. simpl.
  replace (pre ++ l :: body ++ post) with ((pre ++ [l]) ++ body ++ post) by (by rewrite <- app_assoc).
  specialize (IH (pre ++ [l]) Hb). rewrite length_app in IH. simpl in IH.
  rewrite !Nat.add_1_r in IH. rewrite IH. f_equal. lia.
Qed.

Lemma offerSectionsLoop_sections fuel pre secs :
  Forall is_section secs → length secs < fuel →
  offerSectionsLoop fuel (pre ++ concat secs) (length pre) = map offerSectionOf secs.
Proof.
  intros Hs. revert fuel pre.
  induction Hs as [|sec secs Hsec Hs IH]; intros fuel pre Hf; simpl in *.
  - destruct fuel as [|fuel]; [lia|]. simpl. rewrite app_nil_r, lookup_ge_None_2 by lia. done.
  - destruct fuel as [|fuel]; [lia|]. destruct sec as [|m body]; [by destruct Hsec|].
    destruct Hsec as [Hm Hb]. simpl. rewrite list_lookup_middle by done. rewrite Hm. simpl.
    change (pre ++ m :: body ++ concat secs) with (pre ++ (m :: body) ++ concat secs).
    rewrite sectionEndAt_spec by done. f_equal.
    + f_equal. pose proof (slice_app (pre ++ [m]) body (concat secs)) as Hsl.
      rewrite length_app in Hsl. simpl in Hsl. rewrite <- app_assoc in Hsl. simpl in Hsl.
      rewrite Nat.add_1_r in Hsl. simpl in *.
      by replace (length pre + S (length body)) with (S (length pre + length body)) by lia.
    + replace (length pre + S (length body)) with (length (pre ++ m :: body)) by (by rewrite length_app).
      replace (pre ++ (m :: body) ++ concat secs) with ((pre ++ m :: body) ++ concat secs)
        by (by rewrite <- app_assoc).
      apply IH. lia.
Qed.

Lemma sections_length pre secs : Forall is_section secs → length secs ≤ length (pre ++ concat secs).
Proof.
  intros Hs. rewrite length_app.
  induction Hs as [|[|m body] secs Hsec Hs IH]; simpl; [lia|by destruct Hsec|].
  rewrite length_app. lia.
Qed.

Lemma alexaOfferMediaSections_sections offer :
  alexaOfferMediaSections offer = map offerSectionOf (sectionsOf (linesOf offer)).2.
Proof.
  unfold alexaOfferMediaSections. fold (linesOf offer).
  pose proof (sectionsOf_concat (linesOf offer)) as Hcat.
  pose proof (sectionsOf_sectioned (linesOf offer)) as [Hp Hs].
  destruct (sectionsOf (linesOf offer)) as [pre secs]; cbn [fst snd] in *. rewrite <- Hcat.
  pose proof (sections_length [] secs Hs) as Hlen. simpl in Hlen.
  pose proof (offerSectionsLoop_skip (S (length (concat secs))) [] pre (concat secs) Hp) as Hskip.
  cbn [app length Nat.add] in Hskip. rewrite length_app, <- Nat.add_succ_r, Hskip.
  apply offerSectionsLoop_sections; [done|lia].
Qed.

Lemma sectionStarts_skip i body rest :
  forallb notMedia body = true →
  sectionStarts i (body ++ rest) = sectionStarts (i + length body) rest.
Proof.
  revert i; induction body as [|l body IH]; intros i; simpl; [by rewrite Nat.add_0_r|].
  intros [Hl%negb_true_iff Hb]%andb_true_iff. rewrite Hl, IH by done. f_equal. lia.
Qed.

(** The section starts are the offsets of the sections. *)
Fixpoint offsets (i : nat) (secs : list (list gostring)) : list nat :=
  match secs with
  | [] => []
  | sec :: rest => i :: offsets (i + length sec) rest
  end.

Lemma sectionStarts_sections i secs :
  Forall is_section secs → sectionStarts i (concat secs) = offsets i secs.
Proof.
  intros Hs. revert i. induction Hs as [|[|m body] secs Hsec Hs IH]; intros i; simpl;
    [done|by destruct Hsec|]. destruct Hsec as [Hm Hb].
  rewrite Hm, sectionStarts_skip by done. f_equal. rewrite IH. f_equal. lia.
Qed.

(** [midSection] on the list of sections, numbered from [i]. *)
Fixpoint midSections (offerSections : list alexaOfferMediaSection) (i : nat)
    (secs : list (list gostring)) : list (list gostring) :=
  match secs with
  | [] => []
  | sec :: rest => midSection offerSections i sec :: midSections offerSections (S i) rest
  end.

Lemma midLoop_sections os i pre secs acc :
  Forall is_section secs →
  midLoop (pre ++ concat secs) os i (offsets (length pre) secs) acc =
  acc ++ concat (midSections os i secs).
Proof.
  intros Hs. revert i pre acc.
  induction Hs as [|sec secs Hsec Hs IH]; intros i pre acc; simpl; [by rewrite app_nil_r|].
  assert (slice (length pre)
    match offsets (length pre + length sec) secs with
    | [] => length (pre ++ sec ++ concat secs)
    | next :: _ => next
    end (pre ++ sec ++ concat secs) = sec) as ->.
  { rewrite <- (slice_app pre sec (concat secs)) at 3. f_equal.
    destruct secs as [|sec' secs]; simpl; [|done]. rewrite !length_app. simpl. lia. }
  specialize (IH (S i) (pre ++ sec)). rewrite length_app, <- app_assoc in IH. rewrite IH.
  rewrite app_assoc. f_equal. unfold midSection, insert_at.
  repeat case_match; by rewrite <- ?app_assoc.
Qed.

Lemma midSections_no_offer i secs : midSections [] i secs = secs.
Proof.
  revert i; induction secs as [|sec secs IH]; intros i; simpl; [done|]. rewrite IH. f_equal.
  unfold midSection, alexaRejectedMediaMIDInsertAt. by destruct sec.
Qed.

Lemma normalizeMid_lines offer answer :
  normalizeAlexaRejectedMediaMIDs offer answer =
  Join ((sectionsOf (linesOf answer)).1 ++
        concat (midSections (alexaOfferMediaSections offer) 0 (sectionsOf (linesOf answer)).2))
    (lineSeparatorOf answer).
Proof.
  unfold normalizeAlexaRejectedMediaMIDs.
  pose proof (sectionsOf_concat (linesOf answer)) as Hcat.
  pose proof (sectionsOf_sectioned (linesOf answer)) as [Hp Hs].
  destruct (alexaOfferMediaSections offer) as [|o os] eqn:Eo.
  { rewrite midSections_no_offer, Hcat. by rewrite Join_linesOf. }
  fold (linesOf answer).
  destruct (sectionsOf (linesOf answer)) as [pre secs]; cbn [fst snd] in *. rewrite <- Hcat.
  rewrite sectionStarts_skip, sectionStarts_sections by done. simpl Nat.add.
  destruct secs as [|sec secs].
  { simpl in *. by rewrite Hcat, Join_linesOf. }
  cbn [offsets]. rewrite take_app_length.
  f_equal. by apply (midLoop_sections (o :: os) 0 pre (sec :: secs) pre).
Qed.

(** ** The insertion point *)

(** The answer rejected this section and lost the mid of the offer's section
    at the same position. *)
Definition rejectedWithoutMid (os : list alexaOfferMediaSection) (i : nat) (sec : list gostring) : Prop :=
  ∃ m body o fields,
    sec = m :: body ∧ os !! i = Some o ∧ alexaMediaLineFields m = Some fields ∧
    field 1 fields = §"0" ∧ TrimPrefix (field 0 fields) (§"m=") = mediaType o ∧
    mediaType o ≠ [] ∧ mid o ≠ [] ∧
    existsb (λ line, HasPrefix line (§"a=mid:")) body = false.

(** Where a line is inserted into the body of a section: immediately before
    its first attribute line, and without one at its end, or before the empty
    line the text ends with. *)
Definition attributeStart (before after : list gostring) : Prop :=
  Forall (λ line, HasPrefix line §"a=" = false) before ∧
  ((∃ attribute rest, after = attribute :: rest ∧ HasPrefix attribute §"a=" = true) ∨
   after = [[]] ∨
   (after = [] ∧ last before ≠ Some [])).

Lemma insertAt_position m body k :
  match find_from (λ line, HasPrefix line (§"a=")) body 1 with
  | Some i => Some i
  | None => if (1 <? length (m :: body)) && seqb (field (length (m :: body) - 1) (m :: body)) []
            then Some (length (m :: body) - 1) else Some (length (m :: body))
  end = Some k →
  ∃ before after, body = before ++ after ∧ k = S (length before) ∧ attributeStart before after.
Proof.
  destruct (find_from _ body 1) as [i|] eqn:E.
  - intros [= <-]. apply find_from_Some in E as (l1&x&l2&->&->&Hx&Hl1). exists l1, (x :: l2).
    split_and!; [done|done|]. split; [|by left; exists x, l2].
    rewrite forallb_Forall in Hl1. eapply Forall_impl; [exact Hl1|]. intros y Hy. by apply negb_true_iff in Hy.
  - apply find_from_None in E. rewrite forallb_Forall in E.
    assert (Forall (λ line, HasPrefix line §"a=" = false) body) as Hf
      by (eapply Forall_impl; [exact E|]; intros y Hy; by apply negb_true_iff in Hy).
    destruct body as [|x body _] using rev_ind.
    { intros [= <-]. exists [], []. split_and!; [done|done|]. split; [done|by right; right]. }
    rewrite length_cons, length_app. cbn [length]. rewrite (proj2 (Nat.ltb_lt 1 _)) by lia. cbn [andb].
    replace (S (length body + 1) - 1) with (length (m :: body)) by (simpl; lia). unfold field.
    change (m :: body ++ [x]) with ((m :: body) ++ [x]). rewrite list_lookup_middle by done. change (default [] (Some x)) with x.
    destruct (seqb x []) eqn:Ex; intros Hk; injection Hk as <-.
    + apply seqb_eq in Ex as ->. exists body, [[]]. apply Forall_app in Hf as [Hf _].
      split_and!; [done|done|]. split; [done|by right; left].
    + apply seqb_neq in Ex. exists (body ++ [x]), []. rewrite app_nil_r, length_app. split_and!; [done|simpl; lia|].
      split; [done|]. right. right. split; [done|]. rewrite last_snoc. congruence.
Qed.

Lemma insertAt_Some os i sec k :
  alexaRejectedMediaMIDInsertAt sec i os = Some k →
  rejectedWithoutMid os i sec ∧
  ∃ m before after, sec = m :: before ++ after ∧ k = S (length before) ∧ attributeStart before after.
Proof.
  unfold alexaRejectedMediaMIDInsertAt. destruct sec as [|m body]; [done|].
  destruct (os !! i) as [o|] eqn:Eo; [|done].
  destruct (alexaMediaLineFields m) as [fields|] eqn:Ef; [|done].
  destruct (seqb (field 1 fields) (§"0")) eqn:E0; [|done]. apply seqb_eq in E0.
  destruct (seqb (TrimPrefix _ _) []) eqn:E1; [done|]. apply seqb_neq in E1.
  destruct (seqb (TrimPrefix _ _) (mediaType o)) eqn:E2; [|done]. apply seqb_eq in E2.
  destruct (seqb (mid o) []) eqn:E3; [done|]. apply seqb_neq in E3.
  destruct (existsb _ body) eqn:E4; [done|]. cbn [negb orb].
  intros (before&after&->&->&Hat)%insertAt_position. split; [|by exists m, before, after].
  exists m, (before ++ after), o, fields. split_and!; try done. by rewrite <- E2.
Qed.

Lemma insertAt_None os i sec :
  rejectedWithoutMid os i sec → ∃ k, alexaRejectedMediaMIDInsertAt sec i os = Some k.
Proof.
  intros (m&body&o&fields&->&Eo&Ef&E0&E1&Ht&E3&E4).
  unfold alexaRejectedMediaMIDInsertAt. rewrite Eo, Ef, E0, E1.
  rewrite (seqb_refl (mediaType o)). rewrite (proj2 (seqb_neq _ _) Ht), (proj2 (seqb_neq _ _) E3), E4.
  simpl. case_match; [by eexists|]. case_match; by eexists.
Qed.

Lemma midSection_rejected os i sec :
  rejectedWithoutMid os i sec →
  ∃ o m before after, os !! i = Some o ∧ sec = m :: before ++ after ∧ attributeStart before after ∧
    midSection os i sec = m :: before ++ (§"a=mid:" ++ mid o) :: after.
Proof.
  intros H. destruct (insertAt_None _ _ _ H) as (k&Hk).
  destruct (insertAt_Some _ _ _ _ Hk) as (_&m&before&after&->&->&Hat). destruct H as (m'&body&o&fields&_&Eo&_).
  exists o, m, before, after. split_and!; [done..|]. unfold midSection. rewrite Hk, Eo.
  exact (insert_at_app (m :: before) after _).
Qed.

Lemma midSection_other os i sec : ¬ rejectedWithoutMid os i sec → midSection os i sec = sec.
Proof.
  intros H. unfold midSection. destruct (alexaRejectedMediaMIDInsertAt sec i os) as [k|] eqn:E; [|done].
  by apply insertAt_Some in E as [E _].
Qed.

Lemma existsb_insert_at {A} (p : A → bool) k x l : p x = true → existsb p (insert_at k x l) = true.
Proof. intros H. unfold insert_at. rewrite existsb_app. simpl. rewrite H. apply orb_true_r. Qed.

Lemma midLine_prefix o : HasPrefix (§"a=mid:" ++ mid o) (§"a=mid:") = true.
Proof. apply HasPrefix_app. Qed.

Lemma midSection_cases os i sec :
  midSection os i sec = sec ∨
  ∃ m body o k, sec = m :: body ∧ os !! i = Some o ∧ mid o ≠ [] ∧
    midSection os i sec = m :: insert_at k (§"a=mid:" ++ mid o) body.
Proof.
  destruct (alexaRejectedMediaMIDInsertAt sec i os) as [k|] eqn:E.
  - apply insertAt_Some in E as [H _]. right.
    destruct (midSection_rejected _ _ _ H) as (o&m&before&after&Ho&Hsec&_&->).
    destruct H as (m'&body&o'&fields&_&Ho'&_&_&_&_&Hm&_).
    assert (o' = o) as -> by congruence.
    exists m, (before ++ after), o, (length before). split_and!; [done..|]. by rewrite insert_at_app.
  - left. unfold midSection. by rewrite E.
Qed.

Lemma midSection_has_mid os i m body :
  existsb (λ line, HasPrefix line (§"a=mid:")) body = true → midSection os i (m :: body) = m :: body.
Proof.
  intros H. apply midSection_other. intros (m'&body'&o&fields&Heq&_&_&_&_&_&_&Hno). simplify_eq. congruence.
Qed.

Lemma midSection_idem os i sec : midSection os i (midSection os i sec) = midSection os i sec.
Proof.
  destruct (midSection_cases os i sec) as [E|(m&body&o&k&->&_&_&Heq)]; [by rewrite !E|].
  rewrite Heq. by apply midSection_has_mid, existsb_insert_at, midLine_prefix.
Qed.

Lemma midSection_is_section os i sec : is_section sec → is_section (midSection os i sec).
Proof.
  destruct (midSection_cases os i sec) as [->|(m&body&o&k&->&_&_&->)]; [done|].
  intros [Hm Hb]. split; [done|]. unfold insert_at. rewrite forallb_app. simpl.
  rewrite forallb_Forall in *. rewrite andb_true_iff, !forallb_Forall.
  split; [by apply Forall_take|by apply Forall_drop].
Qed.

Lemma midSections_lookup os i secs j :
  midSections os i secs !! j = midSection os (i + j) <$> secs !! j.
Proof.
  revert i j; induction secs as [|sec secs IH]; intros i [|j]; simpl; try done.
  - by rewrite Nat.add_0_r.
  - rewrite IH. by rewrite Nat.add_succ_r.
Qed.

Lemma midSections_total os i secs : length (midSections os i secs) = length secs.
Proof. revert i; induction secs as [|sec secs IH]; intros i; simpl; [done|]. by rewrite IH. Qed.

Lemma midSections_sections os i secs :
  Forall is_section secs → Forall is_section (midSections os i secs).
Proof.
  intros Hs. revert i. induction Hs; intros i; simpl; constructor; [|done].
  by apply midSection_is_section.
Qed.

Lemma midSections_idem os i secs : midSections os i (midSections os i secs) = midSections os i secs.
Proof.
  revert i; induction secs as [|sec secs IH]; intros i; simpl; [done|]. by rewrite midSection_idem, IH.
Qed.

(** ** The inserted lines come from the offer *)

Lemma firstMid_line body : firstMid body ≠ [] → (§"a=mid:" ++ firstMid body) ∈ body.
Proof.
  induction body as [|line body IH]; cbn [firstMid]; [done|].
  destruct (HasPrefix line (§"a=mid:")) eqn:E.
  - intros _. apply HasPrefix_true in E as (t&->). rewrite TrimPrefix_app. by left.
  - intros H. right. by apply IH.
Qed.

Lemma offer_mid_line offer i o :
  alexaOfferMediaSections offer !! i = Some o → mid o ≠ [] →
  (§"a=mid:" ++ mid o) ∈ linesOf offer.
Proof.
  rewrite alexaOfferMediaSections_sections. rewrite list_lookup_fmap.
  destruct ((sectionsOf (linesOf offer)).2 !! i) as [sec|] eqn:E; [|done]. simpl. intros [= <-] Hm.
  apply list_elem_of_lookup_2 in E. rewrite <- (sectionsOf_concat (linesOf offer)).
  apply elem_of_app. right. apply list_elem_of_In, in_concat. exists sec.
  rewrite <- !list_elem_of_In. split; [done|]. destruct sec as [|m body]; simpl in *; [done|].
  right. by apply firstMid_line.
Qed.

Lemma offer_line_no_crlf offer line : line ∈ linesOf offer → Contains line crlf = false.
Proof.
  intros H. assert (Contains line (lineSeparatorOf offer) = false) as Hc.
  { pose proof (linesOf_framed offer) as (HF&_). rewrite Forall_forall in HF. by apply HF. }
  unfold lineSeparatorOf in Hc. destruct (Contains offer crlf); [done|].
  by apply Contains_crlf_of_LF_free.
Qed.

Lemma Forall_insert_at {A} (P : A → Prop) k x l : P x → Forall P l → Forall P (insert_at k x l).
Proof.
  intros Hx Hl. unfold insert_at. rewrite Forall_app, Forall_cons.
  split_and!; [by apply Forall_take|done|by apply Forall_drop].
Qed.

Lemma midSections_no_crlf offer i secs :
  Forall (λ x, Contains x crlf = false) (concat secs) →
  Forall (λ x, Contains x crlf = false) (concat (midSections (alexaOfferMediaSections offer) i secs)).
Proof.
  revert i; induction secs as [|sec secs IH]; intros i; simpl; [done|].
  rewrite !Forall_app. intros [H1 H2]. split; [|by apply IH].
  destruct (midSection_cases (alexaOfferMediaSections offer) i sec) as [->|(m&body&o&k&->&Ho&Hm&->)]; [done|].
  apply Forall_cons in H1 as [H1 H1']. constructor; [done|]. apply Forall_insert_at; [|done].
  eapply offer_line_no_crlf, offer_mid_line; done.
Qed.

Lemma midSections_length os i secs : length (concat secs) ≤ length (concat (midSections os i secs)).
Proof.
  revert i; induction secs as [|sec secs IH]; intros i; simpl; [lia|]. rewrite !length_app.
  specialize (IH (S i)).
  destruct (midSection_cases os i sec) as [->|(m&body&o&k&->&_&_&->)]; [lia|].
  simpl. rewrite insert_at_length. lia.
Qed.

Lemma midSections_framed offer pre secs :
  framed crlf (pre ++ concat secs) →
  framed crlf (pre ++ concat (midSections (alexaOfferMediaSections offer) 0 secs)).
Proof.
  intros (HF&_&Hl). assert (2 ≤ length (pre ++ concat secs)) as Hlen by (destruct Hl as [[_ ?]|[? _]]; done).
  apply Forall_app in HF as [HF1 HF2].
  pose proof (midSections_length (alexaOfferMediaSections offer) 0 secs) as Hmono.
  rewrite length_app in Hlen.
  split_and!.
  - apply Forall_app. split; [done|]. by apply midSections_no_crlf.
  - intros E. apply (f_equal length) in E. rewrite length_app in E. simpl in E. lia.
  - left. rewrite length_app. split; [done|]. lia.
Qed.

Lemma normalizeMid_sectionsOf offer answer :
  Contains answer crlf = true →
  lineSeparatorOf (normalizeAlexaRejectedMediaMIDs offer answer) = crlf ∧
  sectionsOf (linesOf (normalizeAlexaRejectedMediaMIDs offer answer)) =
  ((sectionsOf (linesOf answer)).1,
   midSections (alexaOfferMediaSections offer) 0 (sectionsOf (linesOf answer)).2).
Proof.
  intros Hc. rewrite normalizeMid_lines.
  assert (lineSeparatorOf answer = crlf) as Hsep by (unfold lineSeparatorOf; by rewrite Hc).
  pose proof (linesOf_framed answer) as Hf. rewrite Hsep in *.
  rewrite <- (sectionsOf_concat (linesOf answer)) in Hf.
  apply (midSections_framed offer) in Hf.
  split; [by apply framed_lineSeparatorOf|]. rewrite framed_linesOf by done.
  pose proof (sectionsOf_sectioned (linesOf answer)) as [Hp Hs].
  apply sectionsOf_unique. split; [done|]. by apply midSections_sections.
Qed.

(** ** Rejected sections, read off the texts *)

Definition wellFormedPort (text : gostring) : Prop :=
  (∃ n, ParseUint text 16 = Some n) ∨
  ∃ port count n k, text = port ++ §"/" ++ count ∧ ParseUint port 16 = Some n ∧ ParseUint count 32 = Some k ∧ k ≠ 0%Z.

(** A media line with its media type, its port and at least two more words. *)
Definition mediaLine (media port line : gostring) : Prop :=
  media ≠ [] ∧ wellFormedPort port ∧
  ∃ proto fmt more, Fields line = (§"m=" ++ media) :: port :: proto :: fmt :: more.

(** The first mid line of a body. *)
Definition firstMidIs (value : gostring) (body : list gostring) : Prop :=
  ∃ before after, body = before ++ (§"a=mid:" ++ value) :: after ∧
    Forall (λ line, HasPrefix line §"a=mid:" = false) before.

(** Section [i] of an answer is rejected (port 0) and without a mid line, and
    the offer's section [i], of the same media type, has the mid [value]. *)
Definition lostMid (offer : gostring) (i : nat) (sec : list gostring) (value : gostring) : Prop :=
  ∃ m body om obody media port,
    sec = m :: body ∧ mediaLine media §"0" m ∧ Forall (λ line, HasPrefix line §"a=mid:" = false) body ∧
    (sectionsOf (linesOf offer)).2 !! i = Some (om :: obody) ∧ mediaLine media port om ∧ firstMidIs value obody ∧ value ≠ [].

Lemma ParseUint_no_slash s bits n : ParseUint s bits = Some n → Contains s §"/" = false.
Proof.
  unfold ParseUint, ParseDecimal. destruct s as [|c s]; [done|]. intros H.
  assert (∃ v, decimal 0 (c :: s) = Some v) as [v Hd] by (destruct (decimal 0 (c :: s)); [eauto|done]). clear H.
  revert Hd. generalize 0%Z, (c :: s). clear. intros acc s. revert acc. induction s as [|c s IH]; intros acc; [done|].
  cbn [decimal]. destruct (isDigit c) eqn:E; [|done]. intros Hd.
  change (HasPrefix (c :: s) §"/" || Contains s §"/" = false). rewrite (IH _ Hd), orb_false_r.
  destruct (HasPrefix (c :: s) §"/") eqn:Hp; [|done]. apply HasPrefix_true in Hp as (t&[= -> _]). done.
Qed.

(** The code's port test. *)
Definition portTest (text : gostring) : bool :=
  match Split text §"/" with
  | [p0] => if seqb p0 [] then false else bool_decide (is_Some (ParseUint p0 16))
  | [p0; p1] =>
      if seqb p0 [] then false else
      bool_decide (is_Some (ParseUint p0 16)) && match ParseUint p1 32 with Some k => negb (k =? 0)%Z | None => false end
  | _ => false
  end.

Lemma portTest_spec text : portTest text = true ↔ wellFormedPort text.
Proof.
  unfold portTest. pose proof (Join_Split text §"/" ltac:(done)) as HJ. split.
  - destruct (Split text §"/") as [|p0 [|p1 [|p2 ps]]]; [done|..|done]; (destruct (seqb p0 []); [done|]).
    + intros [n Hn]%bool_decide_eq_true_1. left. exists n. by rewrite <- HJ.
    + intros [[n Hn]%bool_decide_eq_true_1 Hk]%andb_true_iff. destruct (ParseUint p1 32) as [k|] eqn:Ek; [|done].
      apply negb_true_iff, Z.eqb_neq in Hk. right. by exists p0, p1, n, k.
  - assert (∀ p bits n, ParseUint p bits = Some n → seqb p [] = false) as Hne by (intros p bits n Hn; apply seqb_neq; by intros ->).
    intros [(n&Hn)|(p&q&n&k&->&Hn&Hk&Hk0)].
    + pose proof (Split_Join [text] §"/" (byte_no_overlap _) ltac:(done)) as Hs. change (Join [text] §"/") with text in Hs.
      rewrite Hs by (constructor; [by eapply ParseUint_no_slash|done]). rewrite (Hne _ _ _ Hn), Hn. done.
    + pose proof (Split_Join [p; q] §"/" (byte_no_overlap _) ltac:(done)) as Hs. change (Join [p; q] §"/") with (p ++ §"/" ++ q) in Hs.
      rewrite Hs by (repeat constructor; by eapply ParseUint_no_slash). rewrite (Hne _ _ _ Hn), Hn, Hk.
      apply Z.eqb_neq in Hk0. by rewrite Hk0.
Qed.

Lemma alexaMediaLineFields_spec line fields :
  alexaMediaLineFields line = Some fields ↔ fields = Fields line ∧ ∃ media port, mediaLine media port line.
Proof.
  assert (Hc : alexaMediaLineFields line = match Fields line with
    | f0 :: f1 :: _ :: _ :: _ =>
        if negb (HasPrefix f0 §"m=") || seqb (TrimPrefix f0 §"m=") [] then None
        else if portTest f1 then Some (Fields line) else None
    | _ => None end).
  { unfold alexaMediaLineFields, portTest. destruct (Fields line) as [|f0 [|f1 [|f2 [|f3 more]]]]; try done.
    destruct (negb _ || _); [done|]. destruct (Split f1 §"/") as [|p0 [|p1 [|p2 ps]]]; try done; (destruct (seqb p0 []); [done|]);
      destruct (ParseUint p0 16); try done. cbn [andb]. destruct (ParseUint p1 32) as [k|]; [|done]. by destruct (k =? 0)%Z. }
  rewrite Hc. split.
  - destruct (Fields line) as [|f0 [|f1 [|f2 [|f3 more]]]] eqn:Hf; try done.
    destruct (HasPrefix f0 §"m=") eqn:Hp; [|done]. apply HasPrefix_true in Hp as (media&->). rewrite TrimPrefix_app.
    destruct (seqb media []) eqn:Hm; [done|]. apply seqb_neq in Hm. cbn [negb orb].
    destruct (portTest f1) eqn:Ht; [|done]. apply portTest_spec in Ht. intros [= <-].
    split; [done|]. exists media, f1. split_and!; [done..|]. by exists f2, f3, more.
  - intros (->&media&port&Hm&Hport&proto&fmt&more&->). rewrite HasPrefix_app, TrimPrefix_app.
    apply seqb_neq in Hm. rewrite Hm. apply portTest_spec in Hport. by rewrite Hport.
Qed.

Lemma firstMid_spec body value : value ≠ [] → firstMid body = value ↔ firstMidIs value body.
Proof.
  intros Hv. unfold firstMidIs. induction body as [|line body IH]; cbn [firstMid].
  { split; [by intros <-|]. by intros ([|]&after&?&_). }
  destruct (HasPrefix line §"a=mid:") eqn:Hp.
  - apply HasPrefix_true in Hp as (t&->). rewrite TrimPrefix_app. split.
    + intros <-. by exists [], body.
    + intros ([|b before]&after&Heq&Hf); [by injection Heq as -> _|]. injection Heq as <- _.
      apply Forall_cons in Hf as [Hf _]. discriminate (eq_trans (eq_sym (HasPrefix_app §"a=mid:" t)) Hf).
  - rewrite IH. split.
    + intros (before&after&->&Hf). exists (line :: before), after. split; [done|]. by constructor.
    + intros ([|b before]&after&Heq&Hf); injection Heq as -> ->; [discriminate (eq_trans (eq_sym (HasPrefix_app §"a=mid:" value)) Hp)|].
      apply Forall_cons in Hf as [_ Hf]. by exists before, after.
Qed.

Lemma no_mid_existsb body :
  existsb (λ line, HasPrefix line §"a=mid:") body = false ↔ Forall (λ line, HasPrefix line §"a=mid:" = false) body.
Proof.
  induction body as [|line body IH]; [done|]. cbn [existsb]. by rewrite orb_false_iff, IH, Forall_cons.
Qed.

Lemma field_media media rest : TrimPrefix (field 0 ((§"m=" ++ media) :: rest)) §"m=" = media.
Proof. apply (TrimPrefix_app §"m="). Qed.

(** The code's test is the one read off the texts. *)
Lemma rejectedWithoutMid_spec offer i sec :
  rejectedWithoutMid (alexaOfferMediaSections offer) i sec ↔
  ∃ o, alexaOfferMediaSections offer !! i = Some o ∧ lostMid offer i sec (mid o).
Proof.
  unfold lostMid, rejectedWithoutMid. rewrite alexaOfferMediaSections_sections. setoid_rewrite list_lookup_fmap. split.
  - intros (m&body&o&fields&->&Ho&Hf&H0&Ht&Hne&Hm&Hb). exists o. split; [done|].
    apply alexaMediaLineFields_spec in Hf as (->&media&port&Hmedia&Hport&proto&fmt&more&HF). rewrite HF in H0, Ht.
    cbn in H0. subst port. rewrite field_media in Ht. subst media.
    destruct ((sectionsOf (linesOf offer)).2 !! i) as [[|om obody]|] eqn:Hi; [..|done]; cbn in Ho; injection Ho as <-; [done|].
    cbn [offerSectionOf offerSectionAt mediaType mid] in *.
    destruct (alexaMediaLineFields om) as [ofields|] eqn:Hof; [|done].
    apply alexaMediaLineFields_spec in Hof as (->&omedia&oport&Hom&Hoport&oproto&ofmt&omore&HoF).
    rewrite HoF, field_media in HF.
    exists m, body, om, obody, omedia, oport. split_and!; try done.
    + split_and!; [done..|]. by exists proto, fmt, more.
    + by apply no_mid_existsb.
    + split_and!; [done..|]. by exists oproto, ofmt, omore.
    + by apply firstMid_spec.
  - intros (o&Ho&m&body&om&obody&media&port&->&Hm&Hb&Hi&Hom&Hmid&Hne). rewrite Hi in Ho. injection Ho as <-.
    cbn [offerSectionOf offerSectionAt mediaType mid] in *.
    exists m, body, (offerSectionAt om obody), (Fields m). rewrite Hi. cbn [offerSectionAt mediaType mid].
    assert (alexaMediaLineFields om = Some (Fields om)) as -> by (apply alexaMediaLineFields_spec; eauto).
    destruct Hm as (Hmedia&Hport&proto&fmt&more&HF). destruct Hom as (_&_&oproto&ofmt&omore&HoF).
    assert (alexaMediaLineFields m = Some (Fields m)) as ->.
    { apply alexaMediaLineFields_spec. split; [done|]. exists media, §"0". split_and!; [done..|]. by exists proto, fmt, more. }
    rewrite HF, HoF, !field_media. split_and!; try done. by apply no_mid_existsb.
Qed.

Lemma lostMid_value offer i sec value :
  lostMid offer i sec value → ∃ o, alexaOfferMediaSections offer !! i = Some o ∧ mid o = value.
Proof.
  intros (m&body&om&obody&media&port&_&_&_&Hi&_&Hmid&Hne). exists (offerSectionAt om obody).
  rewrite alexaOfferMediaSections_sections, list_lookup_fmap, Hi. split; [done|]. by apply firstMid_spec.
Qed.

Lemma lostMid_rejected offer i sec value :
  lostMid offer i sec value → rejectedWithoutMid (alexaOfferMediaSections offer) i sec.
Proof.
  intros H. destruct (lostMid_value _ _ _ _ H) as (o&Ho&<-). apply rejectedWithoutMid_spec. by exists o.
Qed.

Lemma midSection_lost offer i sec value :
  lostMid offer i sec value →
  ∃ m before after, sec = m :: before ++ after ∧ attributeStart before after ∧
    midSection (alexaOfferMediaSections offer) i sec = m :: before ++ (§"a=mid:" ++ value) :: after.
Proof.
  intros H. destruct (lostMid_value _ _ _ _ H) as (o&Ho&<-).
  destruct (midSection_rejected _ _ _ (lostMid_rejected _ _ _ _ H)) as (o'&m&before&after&Ho'&?&?&?).
  assert (o' = o) as -> by congruence. by exists m, before, after.
Qed.

Lemma midSection_kept offer i sec :
  (∀ value, ¬ lostMid offer i sec value) → midSection (alexaOfferMediaSections offer) i sec = sec.
Proof. intros H. apply midSection_other. rewrite rejectedWithoutMid_spec. intros (o&_&Hl). by eapply H. Qed.

Lemma midSection_lost_cases offer i sec :
  midSection (alexaOfferMediaSections offer) i sec = sec ∨
  ∃ value m before after, lostMid offer i sec value ∧ sec = m :: before ++ after ∧ attributeStart before after ∧
    midSection (alexaOfferMediaSections offer) i sec = m :: before ++ (§"a=mid:" ++ value) :: after.
Proof.
  destruct (alexaRejectedMediaMIDInsertAt sec i (alexaOfferMediaSections offer)) as [k|] eqn:E.
  - right. apply insertAt_Some in E as [(o&Ho&Hl)%rejectedWithoutMid_spec _]. exists (mid o).
    destruct (midSection_lost _ _ _ _ Hl) as (m&before&after&?&?&?). by exists m, before, after.
  - left. unfold midSection. by rewrite E.
Qed.

(** ** Properties *)

(** The index loops of [normalizeAlexaRejectedMediaMIDs], with the offer's
    sections found by [alexaOfferMediaSections], compute the section-by-section
    reference: section [i] of the answer becomes [midSection] of it against the
    offer's section [i]; the session part and the separator are kept. *)
Theorem normalizeMid_refines_sections (offer answer : gostring) :
  normalizeAlexaRejectedMediaMIDs offer answer =
  Join ((sectionsOf (linesOf answer)).1 ++
        concat (midSections (map offerSectionOf (sectionsOf (linesOf offer)).2) 0
                  (sectionsOf (linesOf answer)).2))
    (lineSeparatorOf answer).
Proof. rewrite <- alexaOfferMediaSections_sections. apply normalizeMid_lines. Qed.

(** C10. In a CRLF answer, section [i] changes exactly when its media line is
    well formed with port 0, no [a=mid:] line is in it, and the offer's section
    [i] has the same media type and a non-empty mid: then that mid's line is
    inserted once, immediately before the first attribute line (without one at
    the section's end, before the empty line that ends the text).  Every other
    section, the session part and the line separator are kept. *)
Theorem normalizeMid_restores_lost_mids (offer answer : gostring) :
  Contains answer crlf = true →
  let result := normalizeAlexaRejectedMediaMIDs offer answer in
  let secs := (sectionsOf (linesOf answer)).2 in
  let secs' := (sectionsOf (linesOf result)).2 in
  lineSeparatorOf result = crlf ∧
  (sectionsOf (linesOf result)).1 = (sectionsOf (linesOf answer)).1 ∧
  length secs' = length secs ∧
  ∀ i sec, secs !! i = Some sec →
    (∀ value, lostMid offer i sec value →
      ∃ m before after, sec = m :: before ++ after ∧ attributeStart before after ∧
        secs' !! i = Some (m :: before ++ (§"a=mid:" ++ value) :: after)) ∧
    ((∀ value, ¬ lostMid offer i sec value) → secs' !! i = Some sec).
Proof.
  intros Hc result secs secs'. destruct (normalizeMid_sectionsOf offer answer Hc) as [Hsep Hr].
  subst result secs secs'. rewrite Hr. cbn [fst snd]. split_and!; [done|done|apply midSections_total|].
  intros i sec Hi. rewrite midSections_lookup, Hi. cbn [fmap option_fmap option_map Nat.add]. split.
  - intros value Hl. destruct (midSection_lost _ _ _ _ Hl) as (m&before&after&?&?&->). by exists m, before, after.
  - intros Hn. by rewrite midSection_kept.
Qed.

Lemma normalizeMid_restores_lost_mids_witness :
  let offer := §"v=0" ++ crlf ++ §"m=video 9 UDP/TLS/RTP/SAVPF 102" ++ crlf ++ §"a=mid:1" ++ crlf in
  let answer := §"v=0" ++ crlf ++ §"m=video 0 UDP/TLS/RTP/SAVPF 102" ++ crlf ++ §"a=inactive" ++ crlf in
  Contains answer crlf = true ∧
  ∃ m before after, attributeStart before after ∧
    (sectionsOf (linesOf (normalizeAlexaRejectedMediaMIDs offer answer))).2 !! 0 = Some (m :: before ++ §"a=mid:1" :: after).
Proof.
  intros offer answer. assert (Contains answer crlf = true) as Hc by reflexivity. split; [exact Hc|].
  destruct (normalizeMid_restores_lost_mids offer answer Hc) as (_&_&_&H).
  destruct (H 0 [§"m=video 0 UDP/TLS/RTP/SAVPF 102"; §"a=inactive"; []] eq_refl) as [H1 _].
  destruct (H1 §"1") as (m&before&after&_&Hat&Hs); [|exists m, before, after; split; [exact Hat|exact Hs]].
  exists §"m=video 0 UDP/TLS/RTP/SAVPF 102", [§"a=inactive"; []], §"m=video 9 UDP/TLS/RTP/SAVPF 102", [§"a=mid:1"; []], §"video", §"9".
  split_and!; [reflexivity| |repeat constructor|reflexivity| | |discriminate].
  - split_and!; [discriminate|left; exists 0%Z; reflexivity|exists §"UDP/TLS/RTP/SAVPF", §"102", []; reflexivity].
  - split_and!; [discriminate|left; exists 9%Z; reflexivity|exists §"UDP/TLS/RTP/SAVPF", §"102", []; reflexivity].
  - exists [], [[]]. split; [reflexivity|constructor].
Defined.

(** Restoring mids twice is restoring them once, on CRLF answers. *)
Theorem normalizeMid_idempotent (offer answer : gostring) :
  Contains answer crlf = true →
  normalizeAlexaRejectedMediaMIDs offer (normalizeAlexaRejectedMediaMIDs offer answer) =
  normalizeAlexaRejectedMediaMIDs offer answer.
Proof.
  intros Hc. destruct (normalizeMid_sectionsOf offer answer Hc) as [Hs Hr].
  rewrite (normalizeMid_lines offer (normalizeAlexaRejectedMediaMIDs offer answer)), Hs, Hr.
  cbn [fst snd]. rewrite midSections_idem, (normalizeMid_lines offer answer).
  unfold lineSeparatorOf. by rewrite Hc.
Qed.

Lemma normalizeMid_idempotent_witness :
  let offer := §"v=0" ++ crlf ++ §"m=video 9 UDP/TLS/RTP/SAVPF 102" ++ crlf ++ §"a=mid:1" ++ crlf in
  let answer := §"v=0" ++ crlf ++ §"m=video 0 UDP/TLS/RTP/SAVPF 102" ++ crlf ++ §"a=inactive" ++ crlf in
  Contains answer crlf = true ∧
  normalizeAlexaRejectedMediaMIDs offer (normalizeAlexaRejectedMediaMIDs offer answer) =
  normalizeAlexaRejectedMediaMIDs offer answer.
Proof.
  intros offer answer. assert (Contains answer crlf = true) as Hc by reflexivity.
  split; [exact Hc|]. exact (normalizeMid_idempotent offer answer Hc).
Defined.

(** An offer whose line endings are mixed is split at CRLF only: the mid read
    from it takes the following LF-terminated lines along, and they are copied
    into the answer. *)
Example mixed_endings_embed_lines :
  let offer := §"v=0" ++ crlf ++ §"m=video 9 UDP/TLS/RTP/SAVPF 102" ++ crlf ++ §"a=mid:1" ++ lf ++ §"a=setup:active" ++ crlf in
  let answer := §"v=0" ++ crlf ++ §"m=video 0 UDP/TLS/RTP/SAVPF 102" ++ crlf in
  normalizeAlexaRejectedMediaMIDs offer answer =
  §"v=0" ++ crlf ++ §"m=video 0 UDP/TLS/RTP/SAVPF 102" ++ crlf ++ §"a=mid:1" ++ lf ++ §"a=setup:active" ++ crlf.
Proof. vm_compute. reflexivity. Qed.
