(* ===== verification/SdpVideo.v ===== *)
(** * normalizeAlexaRejectedVideoPayloads (internal/rtc/server.go)

    A video section the answer rejects with the payload list [0] (or none) is
    rewritten to the payload the offer selected, gets the offer's rtpmap line
    for it and an [a=inactive] direction.  The code edits one slice in place
    while walking it by index, inserting lines and skipping over some of
    them; [videoLoop] is that loop, [videoSections] the reference that edits
    one section at a time. *)

From S2P Require Import Prelude GoString GoConv SdpText.

(** ** sdpFieldSpans: the words of a line between blanks and tabs *)

Definition isBlank (c : byte) : bool := bool_decide (c = " "%byte) || bool_decide (c = Byte.x09).
Definition notBlank (c : byte) : bool := negb (isBlank c).

Fixpoint spansLoop (fuel : nat) (line : gostring) (index : nat) : list (nat * nat) :=
  match fuel with
  | O => []
  | S fuel' =>
      if length line <=? index then [] else
      let index := scan isBlank (drop index line) index in
      if index =? length line then [] else
      let start := index in
      let index := scan notBlank (drop index line) index in
      (start, index) :: spansLoop fuel' line index
  end.

Definition sdpFieldSpans (line : gostring) : list (nat * nat) := spansLoop (S (length line)) line 0.

(** [line[span[0]:span[1]]]. *)
Definition spanText (line : gostring) (span : nat * nat) : gostring := slice span.1 span.2 line.

(** ** alexaRTPMapPayload and alexaSectionHasRTPMap *)

Definition alexaRTPMapPayload (line : gostring) : option gostring :=
  if negb (HasPrefix line (§"a=rtpmap:")) then None else
  let value := TrimPrefix line (§"a=rtpmap:") in
  match sdpFieldSpans value with
  | span0 :: _ :: _ => Some (spanText value span0)
  | _ => None
  end.

Definition mapsPayload (payload line : gostring) : bool :=
  match alexaRTPMapPayload line with Some p => seqb p payload | None => false end.

Definition alexaSectionHasRTPMap (lines : list gostring) (payload : gostring) : bool :=
  existsb (mapsPayload payload) lines.

(** ** alexaOfferedVideoPayloads *)

Record alexaOfferedVideoPayload := {
  payload : gostring;
  rtpmap : gostring
}.

Definition noVideoPayload : alexaOfferedVideoPayload := {| payload := []; rtpmap := [] |}.

(** The first rtpmap line of the section for [selected]; [rest] are the lines after the media line. *)
Fixpoint selectedRtpmap (selected : gostring) (rest : list gostring) : gostring :=
  match rest with
  | [] => []
  | line :: rest' =>
      if isMedia line then []
      else if mapsPayload selected line then line
      else selectedRtpmap selected rest'
  end.

Definition offeredVideoPayload (line : gostring) (rest : list gostring) : alexaOfferedVideoPayload :=
  match Fields line with
  | _ :: _ :: _ :: first :: more =>
      let selected := if existsb (seqb (§"102")) (first :: more) then §"102" else first in
      {| payload := selected; rtpmap := selectedRtpmap selected rest |}
  | _ => noVideoPayload
  end.

(** [for lineIndex := 0; ...]: [lines] from the current index on. *)
Fixpoint offeredVideoLoop (lines : list gostring) : list alexaOfferedVideoPayload :=
  match lines with
  | [] => []
  | line :: rest =>
      if HasPrefix line (§"m=video ") then offeredVideoPayload line rest :: offeredVideoLoop rest
      else offeredVideoLoop rest
  end.

Definition alexaOfferedVideoPayloads (offer : gostring) : list alexaOfferedVideoPayload :=
  offeredVideoLoop (Split (ReplaceAll offer crlf lf) lf).

(** ** normalizeAlexaRejectedVideoMLine *)

Definition normalizeAlexaRejectedVideoMLine (line payload : gostring) : gostring * bool :=
  if seqb payload [] then (line, false) else
  match sdpFieldSpans line with
  | s0 :: s1 :: s2 :: rest =>
      if negb (seqb (spanText line s0) (§"m=video")) || negb (seqb (spanText line s1) (§"0"))
      then (line, false) else
      match rest with
      | [] =>
          let trailingWhitespace := drop s2.2 line in
          let separator := if seqb trailingWhitespace [] then §" " else trailingWhitespace in
          (take s2.2 line ++ separator ++ payload, true)
      | [s3] =>
          if negb (seqb (spanText line s3) (§"0")) then (line, false)
          else (take s3.1 line ++ payload ++ drop s3.2 line, true)
      | _ => (line, false)
      end
  | _ => (line, false)
  end.

(** ** normalizeAlexaRejectedVideoPayloads *)

(** [if insertAt == len(lines) && insertAt > 0 && lines[insertAt-1] == "" { insertAt-- }]. *)
Definition beforeFinalNewline (lines : list gostring) (insertAt : nat) : nat :=
  if (insertAt =? length lines) && (0 <? insertAt) && bool_decide (lines !! (insertAt - 1) = Some [])
  then insertAt - 1 else insertAt.

Definition inactiveLine : gostring := §"a=inactive".
Definition isOtherDirection (line : gostring) : bool :=
  seqb line (§"a=sendrecv") || seqb line (§"a=sendonly") || seqb line (§"a=recvonly").

(** The switch over [lines[sectionLine]]; [acc] holds the lines and [hasDirection]. *)
Definition directionStep (acc : list gostring * bool) (sectionLine : nat) : list gostring * bool :=
  match acc.1 !! sectionLine with
  | None => acc
  | Some line =>
      if seqb line inactiveLine then (acc.1, true)
      else if isOtherDirection line then (<[sectionLine := inactiveLine]> acc.1, true)
      else acc
  end.

(** The loop over the indices [lo .. hi-1] of the section. *)
Definition directionLoop (lines : list gostring) (lo hi : nat) : list gostring * bool :=
  foldl directionStep (lines, false) (seq lo (hi - lo)).

(** The insertion of the offer's rtpmap line: the new lines and section end. *)
Definition insertRtpmap (lines : list gostring) (offered : alexaOfferedVideoPayload)
    (lineIndex sectionEnd : nat) : list gostring * nat :=
  if negb (seqb (rtpmap offered) []) &&
     negb (alexaSectionHasRTPMap (slice (S lineIndex) sectionEnd lines) (payload offered))
  then
    let insertAt := match find_from (λ l, HasPrefix l (§"a=")) (slice (S lineIndex) sectionEnd lines) (S lineIndex) with
                    | Some sectionLine => sectionLine
                    | None => sectionEnd
                    end in
    (insert_at (beforeFinalNewline lines insertAt) (rtpmap offered) lines, S sectionEnd)
  else (lines, sectionEnd).

(** The loop over [lineIndex]; [videoIndex] counts the video sections met. *)
Fixpoint videoLoop (fuel : nat) (offeredPayloads : list alexaOfferedVideoPayload)
    (lines : list gostring) (lineIndex videoIndex : nat) : option (list gostring) :=
  match fuel with
  | O => None
  | S fuel' =>
      match lines !! lineIndex with
      | None => Some lines
      | Some line =>
          if negb (HasPrefix line (§"m=video "))
          then videoLoop fuel' offeredPayloads lines (S lineIndex) videoIndex else
          let offered := default noVideoPayload (offeredPayloads !! videoIndex) in
          let '(normalizedLine, eligible) := normalizeAlexaRejectedVideoMLine line (payload offered) in
          if negb eligible then videoLoop fuel' offeredPayloads lines (S lineIndex) (S videoIndex) else
          let lines := <[lineIndex := normalizedLine]> lines in
          let '(lines, sectionEnd) := insertRtpmap lines offered lineIndex (sectionEndAt lines (S lineIndex)) in
          let '(lines, hasDirection) := directionLoop lines (S lineIndex) sectionEnd in
          if hasDirection then videoLoop fuel' offeredPayloads lines (S lineIndex) (S videoIndex)
          else
            let lines := insert_at (beforeFinalNewline lines sectionEnd) inactiveLine lines in
            videoLoop fuel' offeredPayloads lines (S (S lineIndex)) (S videoIndex)
      end
  end.

(** [None] would be the loop running out of fuel; [normalizeVideo_refines_sections]
    shows it never does. *)
Definition normalizeAlexaRejectedVideoPayloads (offer answer : gostring) : option gostring :=
  let offeredPayloads := alexaOfferedVideoPayloads offer in
  match offeredPayloads with
  | [] => Some answer
  | _ =>
      let lineSeparator := lineSeparatorOf answer in
      let lines := Split answer lineSeparator in
      (λ lines', Join lines' lineSeparator) <$> videoLoop (3 * length lines + 1) offeredPayloads lines 0 0
  end.

(** ** Reference: one section at a time *)

(** Insertion at the end of a section, before the empty last line of the text. *)
Definition appendLine (isLast : bool) (x : gostring) (body : list gostring) : list gostring :=
  if isLast && bool_decide (last body = Some []) then removelast body ++ [x; []] else body ++ [x].

Definition insertAttribute (isLast : bool) (x : gostring) (body : list gostring) : list gostring :=
  match find_from (λ l, HasPrefix l (§"a=")) body 0 with
  | Some i => insert_at i x body
  | None => appendLine isLast x body
  end.

Definition inactivate (line : gostring) : gostring := if isOtherDirection line then inactiveLine else line.
Definition isDirection (line : gostring) : bool := seqb line inactiveLine || isOtherDirection line.

Definition withRtpmap (isLast : bool) (offered : alexaOfferedVideoPayload) (body : list gostring) : list gostring :=
  if negb (seqb (rtpmap offered) []) && negb (alexaSectionHasRTPMap body (payload offered))
  then insertAttribute isLast (rtpmap offered) body else body.

Definition withInactive (isLast : bool) (body : list gostring) : list gostring :=
  if existsb isDirection body then map inactivate body
  else appendLine isLast inactiveLine (map inactivate body).

Definition videoSection (isLast : bool) (offered : alexaOfferedVideoPayload) (sec : list gostring) : list gostring :=
  match sec with
  | [] => []
  | m :: body =>
      let '(m', eligible) := normalizeAlexaRejectedVideoMLine m (payload offered) in
      if eligible then m' :: withInactive isLast (withRtpmap isLast offered body) else sec
  end.

Definition isVideo (sec : list gostring) : bool :=
  match sec with m :: _ => HasPrefix m (§"m=video ") | [] => false end.

Fixpoint videoSections (offeredPayloads : list alexaOfferedVideoPayload) (videoIndex : nat)
    (secs : list (list gostring)) : list (list gostring) :=
  match secs with
  | [] => []
  | sec :: rest =>
      if isVideo sec then
        videoSection (match rest with [] => true | _ => false end)
          (default noVideoPayload (offeredPayloads !! videoIndex)) sec
        :: videoSections offeredPayloads (S videoIndex) rest
      else sec :: videoSections offeredPayloads videoIndex rest
  end.

(** ** The loop computes the reference *)

Lemma video_is_media line : HasPrefix line (§"m=video ") = true → isMedia line = true.
Proof.
  intros (t&->)%HasPrefix_true. apply HasPrefix_true. by exists (§"video " ++ t).
Qed.

Lemma videoLoop_skip fuel os pre body post vi :
  forallb notMedia body = true →
  videoLoop (length body + fuel) os (pre ++ body ++ post) (length pre) vi =
  videoLoop fuel os (pre ++ body ++ post) (length pre + length body) vi.
Proof.
  revert pre; induction body as [|l body IH]; intros pre Hb; [by rewrite Nat.add_0_r|].
  simpl in Hb. apply andb_true_iff in Hb as [Hl%negb_true_iff Hb].
  cbn [length Nat.add videoLoop app]. rewrite list_lookup_middle by done.
  destruct (HasPrefix l (§"m=video ")) eqn:E; [apply video_is_media in E; congruence|]. simpl negb.
  cbn [negb]. replace (pre ++ l :: body ++ post) with ((pre ++ [l]) ++ body ++ post) by (by rewrite <- app_assoc).
  specialize (IH (pre ++ [l]) Hb). rewrite length_app in IH. simpl in IH.
  rewrite !Nat.add_1_r in IH. rewrite IH. f_equal. lia.
Qed.

(** [isLast]: no section follows. *)
Definition noneAfter (secs : list (list gostring)) : bool := match secs with [] => true | _ => false end.

Lemma last_removelast {A} (l : list A) x : last l = Some x → l = removelast l ++ [x].
Proof.
  induction l as [|y [|z l] IH]; [done|by intros [= ->]|].
  intros H. rewrite removelast_cons_ne by done. simpl. f_equal. by apply IH.
Qed.

Lemma lookup_last {A} (pre : list A) m body :
  (pre ++ m :: body) !! (length pre + length body) = last (m :: body).
Proof.
  rewrite last_lookup. simpl. rewrite lookup_app_r by lia. f_equal. lia.
Qed.

Lemma beforeFinalNewline_spec pre m body secs x :
  m ≠ [] → Forall is_section secs →
  insert_at (beforeFinalNewline (pre ++ (m :: body) ++ concat secs) (length pre + S (length body))) x
    (pre ++ (m :: body) ++ concat secs) =
  pre ++ (m :: appendLine (noneAfter secs) x body) ++ concat secs.
Proof.
  intros Hm Hs. unfold beforeFinalNewline, appendLine. destruct secs as [|sec secs].
  - simpl concat. rewrite !app_nil_r, length_app. simpl length. rewrite Nat.eqb_refl.
    rewrite (proj2 (Nat.ltb_lt 0 _)) by lia. cbn [andb noneAfter].
    replace (length pre + S (length body) - 1) with (length pre + length body) by lia.
    rewrite lookup_last.
    assert (bool_decide (last (m :: body) = Some []) = bool_decide (last body = Some [])) as ->.
    { destruct body; [|done]. simpl. by rewrite bool_decide_eq_false_2 by congruence. }
    case_bool_decide as Hl.
    + apply last_Some in Hl as [b ->]. rewrite removelast_last, length_app. simpl length.
      replace (length pre + (length b + 1)) with (length (pre ++ m :: b)) by (rewrite length_app; simpl; lia).
      replace (pre ++ m :: b ++ [[]]) with ((pre ++ m :: b) ++ [[]]) by (by rewrite <- app_assoc).
      rewrite insert_at_app. by rewrite <- app_assoc.
    + replace (length pre + S (length body)) with (length (pre ++ m :: body)) by (by rewrite length_app).
      rewrite <- (app_nil_r (pre ++ m :: body)) at 2. rewrite insert_at_app. by rewrite <- app_assoc.
  - assert ((length pre + S (length body) =? length (pre ++ (m :: body) ++ concat (sec :: secs))) = false) as ->.
    { apply Nat.eqb_neq. rewrite !length_app. simpl. rewrite length_app.
      apply Forall_cons in Hs as [Hsec _]. destruct sec; [by destruct Hsec|]. simpl. lia. }
    cbn [andb noneAfter].
    replace (length pre + S (length body)) with (length (pre ++ m :: body)) by (by rewrite length_app).
    replace (pre ++ (m :: body) ++ concat (sec :: secs)) with ((pre ++ m :: body) ++ concat (sec :: secs))
      by (by rewrite <- app_assoc).
    rewrite insert_at_app. rewrite <- !app_assoc. simpl. by rewrite <- app_assoc.
Qed.

Lemma find_from_shift {A} (p : A → bool) l i :
  find_from p l i = (λ k, i + k) <$> find_from p l 0.
Proof.
  revert i; induction l as [|x l IH]; intros i; simpl; [done|]. destruct (p x); simpl; [f_equal; lia|].
  rewrite (IH (S i)), (IH 1). destruct (find_from p l 0); simpl; [f_equal; lia|done].
Qed.

Lemma find_from_lt {A} (p : A → bool) l i k : find_from p l i = Some k → i ≤ k < i + length l.
Proof.
  revert i; induction l as [|x l IH]; intros i; simpl; [done|]. destruct (p x).
  - intros [= ->]. lia.
  - intros H%IH. lia.
Qed.

Lemma insert_at_middle {A} (l1 l2 l3 : list A) k x :
  k ≤ length l2 → insert_at (length l1 + k) x (l1 ++ l2 ++ l3) = l1 ++ insert_at k x l2 ++ l3.
Proof.
  intros Hk. unfold insert_at. rewrite take_app_add, drop_app_add.
  rewrite take_app_le, drop_app_le by done. by rewrite <- !app_assoc.
Qed.

Lemma slice_body {A} (pre body : list A) (m : A) (secs : list (list A)) :
  slice (S (length pre)) (length pre + S (length body)) (pre ++ (m :: body) ++ concat secs) = body.
Proof.
  pose proof (slice_app (pre ++ [m]) body (concat secs)) as H. rewrite length_app in H. simpl in H.
  rewrite <- app_assoc in H. simpl in H. rewrite Nat.add_1_r in H.
  by replace (length pre + S (length body)) with (S (length pre) + length body) by lia.
Qed.

Lemma insertRtpmap_spec o pre m body secs :
  m ≠ [] → Forall is_section secs →
  insertRtpmap (pre ++ (m :: body) ++ concat secs) o (length pre) (length pre + S (length body)) =
  (pre ++ (m :: withRtpmap (noneAfter secs) o body) ++ concat secs,
   length pre + S (length (withRtpmap (noneAfter secs) o body))).
Proof.
  intros Hm Hs. unfold insertRtpmap, withRtpmap. rewrite slice_body.
  destruct (negb (seqb (rtpmap o) []) && _) eqn:E; [|done]. unfold insertAttribute.
  rewrite find_from_shift. destruct (find_from _ body 0) as [k|] eqn:Ef; cbn [fmap option_fmap option_map].
  - apply find_from_lt in Ef.
    assert (beforeFinalNewline (pre ++ (m :: body) ++ concat secs) (S (length pre) + k) = S (length pre) + k) as ->.
    { unfold beforeFinalNewline. rewrite (proj2 (Nat.eqb_neq _ _)); [done|].
      rewrite !length_app. simpl. lia. }
    rewrite insert_at_length. f_equal; [|lia].
    pose proof (insert_at_middle (pre ++ [m]) body (concat secs) k (rtpmap o) ltac:(lia)) as H.
    rewrite length_app in H. simpl in H. rewrite Nat.add_1_r in H.
    rewrite <- !app_assoc in H. exact H.
  - rewrite beforeFinalNewline_spec by done. f_equal. unfold appendLine.
    destruct (noneAfter secs && bool_decide (last body = Some [])) eqn:El.
    + apply andb_true_iff in El as [_ El%bool_decide_eq_true]. apply last_removelast in El.
      apply (f_equal length) in El. rewrite length_app in *. simpl in *. lia.
    + rewrite length_app. simpl. lia.
Qed.

Lemma directionLoop_spec pre body post :
  directionLoop (pre ++ body ++ post) (length pre) (length pre + length body) =
  (pre ++ map inactivate body ++ post, existsb isDirection body).
Proof.
  unfold directionLoop. replace (length pre + length body - length pre) with (length body) by lia.
  assert (∀ b, foldl directionStep (pre ++ body ++ post, b) (seq (length pre) (length body)) =
    (pre ++ map inactivate body ++ post, b || existsb isDirection body)) as H; [|by rewrite H].
  revert pre. induction body as [|l body IH]; intros pre b; [by rewrite orb_false_r|].
  cbn [length seq foldl map existsb].
  assert (directionStep (pre ++ (l :: body) ++ post, b) (length pre) =
    ((pre ++ [inactivate l]) ++ body ++ post, b || isDirection l)) as ->.
  { unfold directionStep, inactivate, isDirection. cbn [fst app]. rewrite list_lookup_middle by done.
    rewrite <- app_assoc. cbn [app]. destruct (seqb l inactiveLine) eqn:E1.
    - apply seqb_eq in E1 as ->. by rewrite orb_true_r.
    - destruct (isOtherDirection l); cbn [orb]; [|by rewrite orb_false_r].
      rewrite orb_true_r. by rewrite list_insert_middle. }
  specialize (IH (pre ++ [inactivate l]) (b || isDirection l)).
  rewrite length_app in IH. simpl in IH. rewrite Nat.add_1_r in IH. rewrite IH.
  by rewrite <- app_assoc, orb_assoc.
Qed.

(** What the loops need of an offered payload: its rtpmap line is an rtpmap line for it. *)
Definition offered_ok (o : alexaOfferedVideoPayload) : Prop :=
  (rtpmap o ≠ [] → alexaRTPMapPayload (rtpmap o) = Some (payload o)) ∧
  (payload o ≠ [] → forallb wordByte (payload o) = true).

Lemma rtpmap_prefix line p : alexaRTPMapPayload line = Some p → ∃ t, line = §"a=rtpmap:" ++ t.
Proof.
  unfold alexaRTPMapPayload. destruct (HasPrefix line _) eqn:E; [|done].
  intros _. by apply HasPrefix_true.
Qed.

Lemma rtpmap_notMedia line p : alexaRTPMapPayload line = Some p → notMedia line = true.
Proof. by intros (t&->)%rtpmap_prefix. Qed.

Lemma notMedia_inactivate l : notMedia l = true → notMedia (inactivate l) = true.
Proof. unfold inactivate. by case_match. Qed.

Lemma forallb_map_inactivate body :
  forallb notMedia body = true → forallb notMedia (map inactivate body) = true.
Proof.
  rewrite !forallb_Forall, Forall_fmap. intros H. eapply Forall_impl; [exact H|].
  apply notMedia_inactivate.
Qed.

Lemma forallb_insert_at {A} (p : A → bool) k x l :
  p x = true → forallb p l = true → forallb p (insert_at k x l) = true.
Proof.
  rewrite !forallb_Forall. intros Hx Hl. unfold insert_at. rewrite Forall_app, Forall_cons.
  split_and!; [by apply Forall_take|done|by apply Forall_drop].
Qed.

Lemma forallb_appendLine (p : gostring → bool) isLast x body :
  p x = true → forallb p body = true → forallb p (appendLine isLast x body) = true.
Proof.
  intros Hx Hb. unfold appendLine. destruct (isLast && _) eqn:E.
  - apply andb_true_iff in E as [_ [b ->]%bool_decide_eq_true%last_Some].
    rewrite removelast_last. rewrite !forallb_app in *. simpl in *.
    apply andb_true_iff in Hb as [-> Hb]. by rewrite Hx, Hb.
  - rewrite forallb_app, Hb. simpl. by rewrite Hx.
Qed.

Lemma withRtpmap_notMedia isLast o body :
  offered_ok o → forallb notMedia body = true → forallb notMedia (withRtpmap isLast o body) = true.
Proof.
  intros [Ho _] Hb. unfold withRtpmap. destruct (negb (seqb (rtpmap o) []) && _) eqn:E; [|done].
  apply andb_true_iff in E as [E%negb_true_iff%seqb_neq _].
  assert (notMedia (rtpmap o) = true) by (eapply rtpmap_notMedia; by apply Ho).
  unfold insertAttribute. case_match; [by apply forallb_insert_at|by apply forallb_appendLine].
Qed.

Lemma withInactive_notMedia isLast body :
  forallb notMedia body = true → forallb notMedia (withInactive isLast body) = true.
Proof.
  intros Hb. unfold withInactive. case_match; [by apply forallb_map_inactivate|].
  apply forallb_appendLine; [done|]. by apply forallb_map_inactivate.
Qed.

Lemma appendLine_length isLast x body : length (appendLine isLast x body) = S (length body).
Proof.
  unfold appendLine. destruct (isLast && _) eqn:E; [|rewrite length_app; simpl; lia].
  apply andb_true_iff in E as [_ [b ->]%bool_decide_eq_true%last_Some].
  rewrite removelast_last, !length_app. simpl. lia.
Qed.

Lemma withRtpmap_length isLast o body : length (withRtpmap isLast o body) ≤ S (length body).
Proof.
  unfold withRtpmap, insertAttribute. repeat case_match; rewrite ?insert_at_length, ?appendLine_length; lia.
Qed.

Lemma MLine_nonempty line p m' : normalizeAlexaRejectedVideoMLine line p = (m', true) → m' ≠ [] ∧ p ≠ [].
Proof.
  unfold normalizeAlexaRejectedVideoMLine. destruct (seqb p []) eqn:E; [done|]. apply seqb_neq in E.
  intros H. split; [|done]. intros ->.
  repeat case_match; simplify_eq;
    match goal with H : _ = [] |- _ => apply (f_equal length) in H; rewrite !length_app in H; destruct p; simpl in H; [done|lia] end.
Qed.

Lemma videoLoop_skip_le fuel os pre body post vi :
  forallb notMedia body = true → length body ≤ fuel →
  videoLoop fuel os (pre ++ body ++ post) (length pre) vi =
  videoLoop (fuel - length body) os (pre ++ body ++ post) (length pre + length body) vi.
Proof.
  intros Hb Hf. rewrite <- videoLoop_skip by done. f_equal. lia.
Qed.

(** Fuel for the sections still to be walked: two insertions per section at most. *)
Fixpoint videoCost (secs : list (list gostring)) : nat :=
  match secs with
  | [] => 1
  | sec :: rest => length sec + 2 + videoCost rest
  end.

Lemma videoCost_bound secs : Forall is_section secs → videoCost secs ≤ 3 * length (concat secs) + 1.
Proof.
  induction 1 as [|[|m body] secs Hsec Hs IH]; simpl in *; [lia|done|]. rewrite length_app. lia.
Qed.

Lemma app_cons_middle {A} (pre : list A) m body post :
  pre ++ (m :: body) ++ post = (pre ++ [m]) ++ body ++ post.
Proof. by rewrite <- app_assoc. Qed.

(** One eligible section: after the edits the loop stands at the end of the new section. *)
Lemma videoLoop_edited fuel os o pre m' body secs vi :
  m' ≠ [] → offered_ok o → forallb notMedia body = true → Forall is_section secs →
  length body + 2 ≤ fuel →
  let lines0 := pre ++ (m' :: body) ++ concat secs in
  let '(lines1, sectionEnd) := insertRtpmap lines0 o (length pre) (sectionEndAt lines0 (S (length pre))) in
  let '(lines2, hasDirection) := directionLoop lines1 (S (length pre)) sectionEnd in
  let newBody := withInactive (noneAfter secs) (withRtpmap (noneAfter secs) o body) in
  ∃ fuel', fuel - (length body + 2) ≤ fuel' ∧
    (if hasDirection then videoLoop fuel os lines2 (S (length pre)) vi
     else videoLoop fuel os (insert_at (beforeFinalNewline lines2 sectionEnd) inactiveLine lines2)
            (S (S (length pre))) vi) =
    videoLoop fuel' os (pre ++ (m' :: newBody) ++ concat secs) (length pre + S (length newBody)) vi.
Proof.
  intros Hm Ho Hb Hs Hfuel. cbn zeta.
  rewrite sectionEndAt_spec, insertRtpmap_spec by done.
  set (body1 := withRtpmap (noneAfter secs) o body).
  assert (forallb notMedia body1 = true) as Hb1 by by apply withRtpmap_notMedia.
  assert (length body1 ≤ S (length body)) as Hl1 by apply withRtpmap_length.
  pose proof (directionLoop_spec (pre ++ [m']) body1 (concat secs)) as Hdir.
  rewrite length_app in Hdir. simpl length in Hdir. rewrite Nat.add_1_r, <- !app_cons_middle in Hdir.
  replace (length pre + S (length body1)) with (S (length pre) + length body1) by lia.
  rewrite Hdir. clear Hdir.
  pose proof (forallb_map_inactivate body1 Hb1) as Hb2.
  unfold withInactive. destruct (existsb isDirection body1).
  - exists (fuel - length (map inactivate body1)). rewrite length_map. split; [lia|].
    pose proof (videoLoop_skip_le fuel os (pre ++ [m']) (map inactivate body1) (concat secs) vi Hb2) as H.
    rewrite length_app in H. simpl length in H. rewrite Nat.add_1_r, <- app_cons_middle in H.
    rewrite H by (rewrite length_map; lia). rewrite length_map. f_equal. lia.
  - pose proof (beforeFinalNewline_spec pre m' (map inactivate body1) secs inactiveLine Hm Hs) as Hbf.
    rewrite length_map in Hbf.
    replace (S (length pre) + length body1) with (length pre + S (length body1)) by lia. rewrite Hbf.
    pose proof (appendLine_length (noneAfter secs) inactiveLine (map inactivate body1)) as Hlen.
    rewrite length_map in Hlen.
    pose proof (forallb_appendLine notMedia (noneAfter secs) inactiveLine _ eq_refl Hb2) as Hb3.
    destruct (appendLine (noneAfter secs) inactiveLine (map inactivate body1)) as [|x body3]; [done|].
    simpl in Hlen, Hb3. apply andb_true_iff in Hb3 as [_ Hb3].
    exists (fuel - length body3). split; [lia|].
    pose proof (videoLoop_skip_le fuel os (pre ++ [m'; x]) body3 (concat secs) vi Hb3) as H.
    rewrite length_app in H. simpl length in H.
    rewrite (Nat.add_comm (length pre) 2), <- app_assoc in H. simpl in H.
    simpl. rewrite H by lia. f_equal. lia.
Qed.

Lemma offered_default_ok os i : Forall offered_ok os → offered_ok (default noVideoPayload (os !! i)).
Proof.
  intros H. destruct (os !! i) as [o|] eqn:E; simpl; [|done].
  by eapply Forall_lookup_1.
Qed.

Lemma videoLoop_sections fuel os pre secs vi :
  Forall offered_ok os → Forall is_section secs → videoCost secs ≤ fuel →
  videoLoop fuel os (pre ++ concat secs) (length pre) vi = Some (pre ++ concat (videoSections os vi secs)).
Proof.
  intros Hos Hs. revert fuel pre vi.
  induction Hs as [|sec secs Hsec Hs IH]; intros fuel pre vi Hf; simpl in Hf.
  { destruct fuel as [|fuel]; [lia|]. simpl. by rewrite app_nil_r, lookup_ge_None_2 by lia. }
  destruct sec as [|m body]; [by destruct Hsec|]. destruct Hsec as [Hm Hb].
  destruct fuel as [|fuel]; [lia|]. simpl in Hf.
  assert (∀ f pre vi b', forallb notMedia b' = true → videoCost secs + length b' ≤ f → ∀ m,
    videoLoop f os (pre ++ (m :: b') ++ concat secs) (S (length pre)) vi =
    Some (pre ++ (m :: b') ++ concat (videoSections os vi secs))) as Hskip.
  { intros f pre' vi' b' Hb' Hf' m'.
    pose proof (videoLoop_skip_le f os (pre' ++ [m']) b' (concat secs) vi' Hb') as H.
    rewrite length_app in H. simpl length in H. rewrite Nat.add_1_r, <- app_cons_middle in H.
    rewrite H by lia. replace (S (length pre') + length b') with (length (pre' ++ m' :: b'))
      by (rewrite length_app; simpl; lia).
    rewrite app_assoc. rewrite IH by lia. by rewrite <- app_assoc. }
  cbn [concat videoLoop]. rewrite app_cons_middle at 1. rewrite <- app_assoc. cbn [app].
  rewrite list_lookup_middle by done.
  change (pre ++ m :: body ++ concat secs) with (pre ++ (m :: body) ++ concat secs).
  cbn [videoSections isVideo concat].
  destruct (HasPrefix m (§"m=video ")) eqn:Ev; cbn [negb]; [|apply Hskip; [done|lia]].
  set (o := default noVideoPayload (os !! vi)).
  assert (offered_ok o) as Ho by by apply offered_default_ok.
  cbn [videoSection]. destruct (normalizeAlexaRejectedVideoMLine m (payload o)) as [m' eligible] eqn:EM.
  destruct eligible; cbn [negb]; [|apply Hskip; [done|lia]].
  apply MLine_nonempty in EM as [Hm' _].
  cbn [app]. rewrite list_insert_middle by done.
  pose proof (videoLoop_edited fuel os o pre m' body secs (S vi) Hm' Ho Hb Hs ltac:(lia)) as Hed.
  cbn zeta in Hed. change (pre ++ m' :: body ++ concat secs) with (pre ++ (m' :: body) ++ concat secs).
  destruct (insertRtpmap _ _ _ _) as [lines1 se]. destruct (directionLoop _ _ _) as [lines2 has].
  destruct Hed as (fuel'&Hf'&Heq). rewrite Heq. unfold noneAfter in *.
  set (newBody := withInactive _ _) in *.
  replace (length pre + S (length newBody)) with (length (pre ++ m' :: newBody)) by (by rewrite length_app).
  replace (pre ++ (m' :: newBody) ++ concat secs) with ((pre ++ m' :: newBody) ++ concat secs)
    by (by rewrite <- app_assoc).
  rewrite IH by lia. by rewrite <- app_assoc.
Qed.

(** ** What the offer contributes *)

Lemma mapsPayload_true p line : mapsPayload p line = true → alexaRTPMapPayload line = Some p.
Proof. unfold mapsPayload. case_match; [|done]. by intros ->%seqb_eq. Qed.

Lemma selectedRtpmap_spec sel rest :
  selectedRtpmap sel rest ≠ [] →
  alexaRTPMapPayload (selectedRtpmap sel rest) = Some sel ∧ selectedRtpmap sel rest ∈ rest.
Proof.
  induction rest as [|line rest IH]; cbn [selectedRtpmap]; [done|].
  destruct (isMedia line); [done|]. destruct (mapsPayload sel line) eqn:E.
  - intros _. split; [by apply mapsPayload_true|by left].
  - intros H. destruct (IH H). split; [done|by right].
Qed.

Lemma offeredVideoPayload_ok line rest :
  offered_ok (offeredVideoPayload line rest) ∧
  (rtpmap (offeredVideoPayload line rest) ≠ [] → rtpmap (offeredVideoPayload line rest) ∈ rest).
Proof.
  unfold offeredVideoPayload. pose proof (Fields_words line) as Hw.
  destruct (Fields line) as [|f0 [|f1 [|f2 [|f3 more]]]]; try done.
  set (sel := if existsb _ _ then _ else _). cbn [payload rtpmap].
  assert (forallb wordByte sel = true) as Hsel.
  { rewrite !Forall_cons in Hw. subst sel. case_match; [done|].
    by destruct Hw as (_&_&_&[_ ?]&_). }
  split; [split|]; cbn [payload rtpmap].
  - intros H. by destruct (selectedRtpmap_spec _ _ H).
  - done.
  - intros H. by destruct (selectedRtpmap_spec _ _ H).
Qed.

Lemma offeredVideoLoop_ok lines :
  Forall (λ o, offered_ok o ∧ (rtpmap o ≠ [] → rtpmap o ∈ lines)) (offeredVideoLoop lines).
Proof.
  induction lines as [|line rest IH]; cbn [offeredVideoLoop]; [done|].
  assert (Forall (λ o, offered_ok o ∧ (rtpmap o ≠ [] → rtpmap o ∈ line :: rest)) (offeredVideoLoop rest)) as Hr.
  { eapply Forall_impl; [exact IH|]. intros o [Ho Hin]. split; [done|]. intros H. right. auto. }
  case_match; [|done]. constructor; [|done].
  destruct (offeredVideoPayload_ok line rest) as [Ho Hin]. split; [done|]. intros H'. right. auto.
Qed.

Lemma alexaOfferedVideoPayloads_ok offer : Forall offered_ok (alexaOfferedVideoPayloads offer).
Proof. eapply Forall_impl; [apply offeredVideoLoop_ok|]. by intros o [Ho _]. Qed.

(** An offered rtpmap line holds no LF. *)
Lemma alexaOfferedVideoPayloads_no_lf offer :
  Forall (λ o, Contains (rtpmap o) lf = false) (alexaOfferedVideoPayloads offer).
Proof.
  eapply Forall_impl; [apply offeredVideoLoop_ok|]. intros o [_ Hin].
  destruct (decide (rtpmap o = [])) as [->|Hne]; [done|]. specialize (Hin Hne).
  pose proof (Split_no_sep (ReplaceAll offer crlf lf) lf ltac:(done)) as HF.
  rewrite Forall_forall in HF. by apply HF.
Qed.

Lemma videoSections_no_offer vi secs : videoSections [] vi secs = secs.
Proof.
  revert vi; induction secs as [|[|m body] secs IH]; intros vi; cbn [videoSections isVideo]; [done|..].
  - by rewrite IH.
  - rewrite !IH. by case_match.
Qed.

Lemma normalizeVideo_lines offer answer :
  normalizeAlexaRejectedVideoPayloads offer answer =
  Some (Join ((sectionsOf (linesOf answer)).1 ++
        concat (videoSections (alexaOfferedVideoPayloads offer) 0 (sectionsOf (linesOf answer)).2))
    (lineSeparatorOf answer)).
Proof.
  unfold normalizeAlexaRejectedVideoPayloads.
  pose proof (alexaOfferedVideoPayloads_ok offer) as Hos.
  pose proof (sectionsOf_concat (linesOf answer)) as Hcat.
  pose proof (sectionsOf_sectioned (linesOf answer)) as [Hp Hs].
  destruct (alexaOfferedVideoPayloads offer) as [|o os].
  { by rewrite videoSections_no_offer, Hcat, Join_linesOf. }
  fold (linesOf answer).
  destruct (sectionsOf (linesOf answer)) as [pre secs]; cbn [fst snd] in *. rewrite <- Hcat.
  pose proof (videoCost_bound secs Hs) as Hcost.
  pose proof (videoLoop_skip_le (3 * length (pre ++ concat secs) + 1) (o :: os) [] pre (concat secs) 0 Hp) as Hskip.
  rewrite length_app in *. cbn [app length Nat.add] in Hskip. rewrite Hskip by lia.
  rewrite videoLoop_sections by (done || lia). done.
Qed.

(** ** The words of a line *)

(** A line as blank runs and words, and a trailing blank run. *)
Fixpoint render (toks : list (gostring * gostring)) (trail : gostring) : gostring :=
  match toks with
  | [] => trail
  | (b, t) :: r => b ++ t ++ render r trail
  end.

Definition word (t : gostring) : Prop := t ≠ [] ∧ forallb notBlank t = true.

Fixpoint wf_rest (toks : list (gostring * gostring)) : Prop :=
  match toks with
  | [] => True
  | (b, t) :: r => b ≠ [] ∧ forallb isBlank b = true ∧ word t ∧ wf_rest r
  end.

Definition wf_toks (toks : list (gostring * gostring)) : Prop :=
  match toks with
  | [] => True
  | (b, t) :: r => forallb isBlank b = true ∧ word t ∧ wf_rest r
  end.

Fixpoint tokSpans (i : nat) (toks : list (gostring * gostring)) : list (nat * nat) :=
  match toks with
  | [] => []
  | (b, t) :: r =>
      (i + length b, i + length b + length t) :: tokSpans (i + length b + length t) r
  end.

Lemma stops_blank_rest toks trail :
  wf_rest toks → forallb isBlank trail = true → stops notBlank (render toks trail).
Proof.
  destruct toks as [|[b t] r]; simpl.
  - intros _ H. destruct trail as [|c tr]; simpl in *; [done|]. apply andb_true_iff in H as [H _].
    unfold notBlank. by rewrite H.
  - intros (Hne&Hb&_) _. destruct b as [|c b]; [done|]. simpl in *. apply andb_true_iff in Hb as [Hb _].
    unfold notBlank. by rewrite Hb.
Qed.

Lemma spansLoop_render fuel pre toks trail :
  wf_toks toks → forallb isBlank trail = true → length toks < fuel →
  spansLoop fuel (pre ++ render toks trail) (length pre) = tokSpans (length pre) toks.
Proof.
  revert fuel pre; induction toks as [|[b t] r IH]; intros fuel pre Hwf Htr Hf;
    (destruct fuel as [|fuel]; [simpl in Hf; lia|]); cbn [spansLoop].
  - rewrite drop_app_length. simpl render.
    rewrite <- (app_nil_r trail) at 2. rewrite scan_app by done. rewrite length_app.
    destruct trail; simpl; [by rewrite Nat.add_0_r, (proj2 (Nat.leb_le _ _)) by lia|].
    rewrite (proj2 (Nat.leb_gt _ _)) by lia. by rewrite Nat.eqb_refl.
  - destruct Hwf as (Hb&[Ht Hw]&Hr). cbn [render tokSpans].
    assert (stops isBlank (t ++ render r trail)) as Hst.
    { destruct t as [|c t]; [done|]. simpl in *. apply andb_true_iff in Hw as [Hw%negb_true_iff _]. done. }
    rewrite drop_app_length, scan_app by done.
    replace (length pre + length b) with (length (pre ++ b)) by (by rewrite length_app).
    replace (pre ++ b ++ t ++ render r trail) with ((pre ++ b) ++ t ++ render r trail) by (by rewrite <- app_assoc).
    rewrite drop_app_length, scan_app by (done || by apply stops_blank_rest).
    assert (0 < length t) by (destruct t; [done|simpl; lia]).
    rewrite (proj2 (Nat.leb_gt _ _)) by (rewrite !length_app; lia).
    rewrite (proj2 (Nat.eqb_neq _ _)) by (rewrite !length_app; lia). f_equal.
    replace (length (pre ++ b) + length t) with (length (pre ++ b ++ t)) by (rewrite !length_app; lia).
    replace ((pre ++ b) ++ t ++ render r trail) with ((pre ++ b ++ t) ++ render r trail)
      by (by rewrite <- !app_assoc).
    apply IH; [|done|simpl in Hf; lia]. destruct r as [|[b' t'] r]; [done|]. simpl in *. tauto.
Qed.

Lemma render_length toks trail : wf_toks toks → length toks ≤ length (render toks trail).
Proof.
  intros Hwf. assert (∀ r, wf_rest r → length r ≤ length (render r trail)) as H.
  { induction r as [|[b t] r IH]; simpl; [lia|]. intros (?&?&[Ht _]&Hr).
    rewrite !length_app. specialize (IH Hr). destruct t; [done|]. simpl. lia. }
  destruct toks as [|[b t] r]; simpl; [lia|]. destruct Hwf as (_&[Ht _]&Hr).
  rewrite !length_app. specialize (H r Hr). destruct t; [done|]. simpl. lia.
Qed.

Lemma sdpFieldSpans_render toks trail :
  wf_toks toks → forallb isBlank trail = true → sdpFieldSpans (render toks trail) = tokSpans 0 toks.
Proof.
  intros Hwf Htr. unfold sdpFieldSpans. apply (spansLoop_render _ []); [done..|].
  pose proof (render_length toks trail Hwf). simpl. lia.
Qed.

(** Every line is its words and blanks. *)
Lemma line_render_rest n line :
  length line ≤ n → stops notBlank line →
  ∃ toks trail, line = render toks trail ∧ wf_rest toks ∧ forallb isBlank trail = true.
Proof.
  revert line; induction n as [|n IH]; intros line Hn Hst.
  { destruct line; [|simpl in Hn; lia]. by exists [], []. }
  destruct line as [|c line]; [by exists [], []|]. simpl in Hst. apply negb_false_iff in Hst.
  set (b := take_while isBlank line). set (l1 := drop_while isBlank line).
  set (t := take_while notBlank l1). set (l2 := drop_while notBlank l1).
  assert (line = b ++ t ++ l2) as Hline by (by subst b t l1 l2; rewrite !take_drop_while).
  assert (forallb isBlank (c :: b) = true) as Hb by (simpl; rewrite Hst; apply take_while_forallb).
  destruct (decide (t = [])) as [Ht|Ht].
  - exists [], (c :: line). split_and!; [done..|].
    assert (l1 = []) as Hl1.
    { pose proof (drop_while_stops isBlank line) as Hs. fold l1 in Hs. subst t. destruct l1 as [|d l1]; [done|].
      simpl in *. unfold notBlank in Ht. by rewrite Hs in Ht. }
    subst l2 l1 t. rewrite Hl1 in *. simpl in *. rewrite app_nil_r in Hline. by rewrite Hline.
  - destruct (IH l2) as (toks&trail&Hl2&Hwf&Htr).
    { apply (f_equal length) in Hline. rewrite !length_app in Hline. simpl in Hn.
      destruct t; [done|]. simpl in Hline. lia. }
    { apply drop_while_stops. }
    exists ((c :: b, t) :: toks), trail. simpl. rewrite <- Hl2, <- Hline. split_and!; try done.
    split; [done|]. apply take_while_forallb.
Qed.

Lemma line_render line :
  ∃ toks trail, line = render toks trail ∧ wf_toks toks ∧ forallb isBlank trail = true.
Proof.
  destruct (line_render_rest (length (" "%byte :: line)) (" "%byte :: line)) as (toks&trail&Heq&Hwf&Htr); [done..|].
  destruct toks as [|[b t] r]; simpl in *.
  - exists [], line. destruct trail; simplify_eq/=. split_and!; [done..|]. by bool_simpl.
  - destruct Hwf as (Hne&Hb&Ht&Hr). destruct b as [|c b]; [done|]. simplify_eq/=.
    exists ((b, t) :: r), trail. split_and!; [done| |done]. simpl. by bool_simpl.
Qed.

Lemma spanText_at (L l1 t l2 : gostring) i j :
  L = l1 ++ t ++ l2 → i = length l1 → j = i + length t → spanText L (i, j) = t.
Proof. intros -> -> ->. unfold spanText. cbn [fst snd]. apply slice_app. Qed.

Lemma take_at (L l1 l2 : gostring) i : L = l1 ++ l2 → i = length l1 → take i L = l1.
Proof. intros -> ->. apply take_app_length. Qed.

Lemma drop_at (L l1 l2 : gostring) i : L = l1 ++ l2 → i = length l1 → drop i L = l2.
Proof. intros -> ->. apply drop_app_length. Qed.

Ltac by_assoc := solve [by rewrite <- ?app_assoc, ?app_nil_r | by rewrite ?length_app; lia].

(** The four-word case of a media line, with the pieces the code cuts out. *)
Lemma MLine_four b0 t0 b1 t1 b2 t2 b3 t3 trail p :
  wf_toks [(b0, t0); (b1, t1); (b2, t2); (b3, t3)] → forallb isBlank trail = true → p ≠ [] →
  normalizeAlexaRejectedVideoMLine (render [(b0, t0); (b1, t1); (b2, t2); (b3, t3)] trail) p =
  if seqb t0 (§"m=video") && seqb t1 (§"0") && seqb t3 (§"0")
  then (render [(b0, t0); (b1, t1); (b2, t2); (b3, p)] trail, true)
  else (render [(b0, t0); (b1, t1); (b2, t2); (b3, t3)] trail, false).
Proof.
  intros Hwf Htr Hp. unfold normalizeAlexaRejectedVideoMLine. rewrite (proj2 (seqb_neq _ _) Hp).
  rewrite sdpFieldSpans_render by done. cbn [tokSpans fst snd].
  set (L := render _ trail).
  assert (L = b0 ++ t0 ++ b1 ++ t1 ++ b2 ++ t2 ++ b3 ++ t3 ++ trail) as HL by done. clearbody L.
  rewrite (spanText_at L b0 t0 (b1 ++ t1 ++ b2 ++ t2 ++ b3 ++ t3 ++ trail)) by (done || by_assoc).
  rewrite (spanText_at L (b0 ++ t0 ++ b1) t1 (b2 ++ t2 ++ b3 ++ t3 ++ trail))
    by (rewrite ?HL; by_assoc).
  rewrite (spanText_at L (b0 ++ t0 ++ b1 ++ t1 ++ b2 ++ t2 ++ b3) t3 trail) by (rewrite ?HL; by_assoc).
  rewrite (take_at L (b0 ++ t0 ++ b1 ++ t1 ++ b2 ++ t2 ++ b3) (t3 ++ trail)) by (rewrite ?HL; by_assoc).
  rewrite (drop_at L (b0 ++ t0 ++ b1 ++ t1 ++ b2 ++ t2 ++ b3 ++ t3) trail) by (rewrite ?HL; by_assoc).
  destruct (seqb t0 _), (seqb t1 _), (seqb t3 _); cbn [negb orb andb render]; by rewrite <- ?app_assoc.
Qed.

Definition separatorOf (trail : gostring) : gostring := if seqb trail [] then §" " else trail.

Lemma MLine_three b0 t0 b1 t1 b2 t2 trail p :
  wf_toks [(b0, t0); (b1, t1); (b2, t2)] → forallb isBlank trail = true → p ≠ [] →
  normalizeAlexaRejectedVideoMLine (render [(b0, t0); (b1, t1); (b2, t2)] trail) p =
  if seqb t0 (§"m=video") && seqb t1 (§"0")
  then (render [(b0, t0); (b1, t1); (b2, t2); (separatorOf trail, p)] [], true)
  else (render [(b0, t0); (b1, t1); (b2, t2)] trail, false).
Proof.
  intros Hwf Htr Hp. unfold normalizeAlexaRejectedVideoMLine. rewrite (proj2 (seqb_neq _ _) Hp).
  rewrite sdpFieldSpans_render by done. cbn [tokSpans fst snd].
  set (L := render _ trail).
  assert (L = b0 ++ t0 ++ b1 ++ t1 ++ b2 ++ t2 ++ trail) as HL by done. clearbody L.
  rewrite (spanText_at L b0 t0 (b1 ++ t1 ++ b2 ++ t2 ++ trail)) by (done || by_assoc).
  rewrite (spanText_at L (b0 ++ t0 ++ b1) t1 (b2 ++ t2 ++ trail)) by (rewrite ?HL; by_assoc).
  rewrite (take_at L (b0 ++ t0 ++ b1 ++ t1 ++ b2 ++ t2) trail) by (rewrite ?HL; by_assoc).
  rewrite (drop_at L (b0 ++ t0 ++ b1 ++ t1 ++ b2 ++ t2) trail) by (rewrite ?HL; by_assoc).
  fold (separatorOf trail).
  destruct (seqb t0 _), (seqb t1 _); cbn [negb orb andb render]; by rewrite <- ?app_assoc, ?app_nil_r.
Qed.

(** The rewritten media line: the rejected section's first three words, and
    the payload as the only format. *)
Lemma MLine_eligible line p m' :
  normalizeAlexaRejectedVideoMLine line p = (m', true) →
  ∃ b0 b1 b2 t2 b3 trail,
    m' = render [(b0, §"m=video"); (b1, §"0"); (b2, t2); (b3, p)] trail ∧
    wf_rest [(b1, §"0"); (b2, t2)] ∧ b3 ≠ [] ∧ forallb isBlank b0 = true ∧
    forallb isBlank b3 = true ∧ forallb isBlank trail = true ∧
    ((∃ tr, line = render [(b0, §"m=video"); (b1, §"0"); (b2, t2)] tr ∧ forallb isBlank tr = true) ∨
     line = render [(b0, §"m=video"); (b1, §"0"); (b2, t2); (b3, §"0")] trail).
Proof.
  intros H. destruct (MLine_nonempty _ _ _ H) as [_ Hp].
  destruct (line_render line) as (toks&trail&->&Hwf&Htr).
  destruct toks as [|[b0 t0] [|[b1 t1] [|[b2 t2] [|[b3 t3] [|[b4 t4] toks]]]]].
  1-3: unfold normalizeAlexaRejectedVideoMLine in H; rewrite (proj2 (seqb_neq _ _) Hp) in H;
    by rewrite sdpFieldSpans_render in H.
  - rewrite MLine_three in H by done.
    destruct (seqb t0 _) eqn:E0, (seqb t1 _) eqn:E1; try done. apply seqb_eq in E0 as ->, E1 as ->.
    simpl in H. injection H as <-. exists b0, b1, b2, t2, (separatorOf trail), [].
    simpl in Hwf. destruct Hwf as (?&?&?).
    assert (separatorOf trail ≠ [] ∧ forallb isBlank (separatorOf trail) = true) as [Hs1 Hs2].
    { unfold separatorOf. destruct (seqb trail []) eqn:Es; [done|]. by apply seqb_neq in Es. }
    split_and!; try done; try (simpl; tauto). left. by exists trail.
  - rewrite MLine_four in H by done.
    destruct (seqb t0 _) eqn:E0, (seqb t1 _) eqn:E1, (seqb t3 _) eqn:E3; try done.
    apply seqb_eq in E0 as ->, E1 as ->, E3 as ->. simpl in H. injection H as <-.
    exists b0, b1, b2, t2, b3, trail. simpl in Hwf. destruct Hwf as (?&?&Hr).
    split_and!; solve [simpl; tauto | by right].
  - unfold normalizeAlexaRejectedVideoMLine in H. rewrite (proj2 (seqb_neq _ _) Hp) in H.
    rewrite sdpFieldSpans_render in H by done. cbn [tokSpans] in H. repeat case_match; simplify_eq.
Qed.

Lemma wordByte_notBlank c : wordByte c = true → notBlank c = true.
Proof.
  unfold wordByte, notBlank, isBlank. intros H. apply negb_true_iff, orb_false_iff.
  split; apply bool_decide_eq_false; intros ->; by vm_compute in H.
Qed.

Lemma payload_word p : p ≠ [] → forallb wordByte p = true → word p.
Proof.
  intros Hp Hw. split; [done|]. eapply forallb_impl; [|exact Hw]. apply wordByte_notBlank.
Qed.

(** A rewritten line is left alone by a second rewriting. *)
Lemma MLine_idem line p m' :
  forallb wordByte p = true → normalizeAlexaRejectedVideoMLine line p = (m', true) →
  (normalizeAlexaRejectedVideoMLine m' p).1 = m'.
Proof.
  intros Hw H. destruct (MLine_nonempty _ _ _ H) as [_ Hp].
  apply MLine_eligible in H as (b0&b1&b2&t2&b3&trail&->&Hwf&Hb3&Hb0&Hbl3&Htr&_).
  pose proof (payload_word p Hp Hw).
  assert (word (§"m=video")) by (split; done).
  rewrite MLine_four; [|simpl in *; tauto|done|done].
  rewrite !seqb_refl. cbn [andb]. destruct (seqb p _) eqn:E; [|done]. by apply seqb_eq in E as ->.
Qed.

Lemma HasPrefix_video_render toks trail b0 b1 b2 t2 :
  wf_rest [(b1, §"0"); (b2, t2)] → forallb isBlank b0 = true →
  HasPrefix (render ((b0, §"m=video") :: (b1, §"0") :: toks) trail) (§"m=video ") =
  HasPrefix (b0 ++ §"m=video" ++ b1) (§"m=video ").
Proof.
  intros (Hne&_) Hb0. cbn [render].
  replace (b0 ++ §"m=video" ++ b1 ++ §"0" ++ render toks trail)
    with ((b0 ++ §"m=video" ++ b1) ++ §"0" ++ render toks trail) by (by rewrite <- !app_assoc).
  apply HasPrefix_app_l. rewrite !length_app. destruct b1; [done|]. simpl. lia.
Qed.

Lemma MLine_keeps_prefix line p m' :
  normalizeAlexaRejectedVideoMLine line p = (m', true) →
  HasPrefix m' (§"m=video ") = HasPrefix line (§"m=video ").
Proof.
  intros (b0&b1&b2&t2&b3&trail&->&Hwf&_&Hb0&_&_&[(tr&->&_)| ->])%MLine_eligible;
    by rewrite !(HasPrefix_video_render _ _ b0 b1 b2 t2) by done.
Qed.

(** ** The edited section *)

Lemma elem_of_insert_at {A} k (x y : A) l : y ∈ insert_at k x l ↔ y = x ∨ y ∈ l.
Proof.
  unfold insert_at. rewrite elem_of_app, elem_of_cons. rewrite <- (take_drop k l) at 3.
  rewrite elem_of_app. tauto.
Qed.

Lemma elem_of_appendLine isLast x y body : y ∈ appendLine isLast x body ↔ y = x ∨ y ∈ body.
Proof.
  unfold appendLine. destruct (isLast && _) eqn:E.
  - apply andb_true_iff in E as [_ [b ->]%bool_decide_eq_true%last_Some]. rewrite removelast_last.
    rewrite !elem_of_app, !elem_of_cons, elem_of_nil. tauto.
  - rewrite elem_of_app, list_elem_of_singleton. tauto.
Qed.

Lemma elem_of_withRtpmap isLast o y body :
  y ∈ withRtpmap isLast o body → (y = rtpmap o ∧ rtpmap o ≠ []) ∨ y ∈ body.
Proof.
  unfold withRtpmap, insertAttribute. destruct (seqb (rtpmap o) []) eqn:E; [by right|]. apply seqb_neq in E.
  case_match; [|by right]. case_match; rewrite ?elem_of_insert_at, ?elem_of_appendLine; tauto.
Qed.

Lemma elem_of_withInactive isLast y body :
  y ∈ withInactive isLast body → y = inactiveLine ∨ ∃ z, z ∈ body ∧ y = inactivate z.
Proof.
  assert (y ∈ map inactivate body → ∃ z, z ∈ body ∧ y = inactivate z) as Hmap
    by (intros (z&->&Hz)%list_elem_of_fmap; by exists z).
  unfold withInactive. case_match; [by right; apply Hmap|].
  rewrite elem_of_appendLine. intros [->|Hy]; [by left|]. right. by apply Hmap.
Qed.

Lemma inactivate_in_withInactive isLast z body : z ∈ body → inactivate z ∈ withInactive isLast body.
Proof.
  intros Hz. unfold withInactive. assert (inactivate z ∈ map inactivate body) by (by apply list_elem_of_fmap_2).
  case_match; [done|]. rewrite elem_of_appendLine. by right.
Qed.

Lemma inactivate_not_other l : isOtherDirection (inactivate l) = false.
Proof. unfold inactivate. by case_match. Qed.

Lemma isDirection_inactivate l : isDirection l = true → isDirection (inactivate l) = true.
Proof. unfold inactivate. by case_match. Qed.

Lemma inactivate_fixed l : isOtherDirection l = false → inactivate l = l.
Proof. unfold inactivate. by intros ->. Qed.

Lemma withInactive_directions isLast body :
  existsb isDirection (withInactive isLast body) = true ∧
  forallb (λ l, negb (isOtherDirection l)) (withInactive isLast body) = true.
Proof.
  split.
  - apply existsb_elem. unfold withInactive. destruct (existsb isDirection body) eqn:E.
    + apply existsb_elem in E as (l&Hl&Hd). exists (inactivate l).
      split; [by apply list_elem_of_fmap_2|by apply isDirection_inactivate].
    + exists inactiveLine. rewrite elem_of_appendLine. by split; [left|].
  - apply forallb_Forall, Forall_forall. intros y [->|(z&_&->)]%elem_of_withInactive; [done|].
    by rewrite inactivate_not_other.
Qed.

Lemma mapsPayload_inactivate p l : mapsPayload p l = true → inactivate l = l.
Proof.
  intros (t&->)%mapsPayload_true%rtpmap_prefix. apply inactivate_fixed.
  unfold isOtherDirection. rewrite !orb_false_iff, !seqb_neq. split_and!; discriminate.
Qed.

Lemma withRtpmap_has isLast o body :
  offered_ok o → rtpmap o ≠ [] → alexaSectionHasRTPMap (withRtpmap isLast o body) (payload o) = true.
Proof.
  intros [Ho _] Hne. specialize (Ho Hne). unfold withRtpmap. rewrite (proj2 (seqb_neq _ _) Hne). cbn [negb andb].
  destruct (alexaSectionHasRTPMap body (payload o)) eqn:E; [done|]. cbn [negb].
  apply existsb_elem. exists (rtpmap o). unfold mapsPayload. rewrite Ho, seqb_refl. split; [|done].
  unfold insertAttribute. case_match; rewrite ?elem_of_insert_at, ?elem_of_appendLine; by left.
Qed.

Lemma withInactive_has isLast body p :
  alexaSectionHasRTPMap body p = true → alexaSectionHasRTPMap (withInactive isLast body) p = true.
Proof.
  intros (l&Hl&Hp)%existsb_elem. apply existsb_elem. exists l. split; [|done].
  rewrite <- (mapsPayload_inactivate p l) by done. by apply inactivate_in_withInactive.
Qed.

Definition editedBody (isLast : bool) (o : alexaOfferedVideoPayload) (body : list gostring) : list gostring :=
  withInactive isLast (withRtpmap isLast o body).

Lemma withRtpmap_fixed isLast o body :
  rtpmap o = [] ∨ alexaSectionHasRTPMap body (payload o) = true → withRtpmap isLast o body = body.
Proof. unfold withRtpmap. intros [->| ->]; [done|]. by rewrite andb_false_r. Qed.

Lemma withInactive_fixed isLast body :
  existsb isDirection body = true → forallb (λ l, negb (isOtherDirection l)) body = true →
  withInactive isLast body = body.
Proof.
  unfold withInactive. intros -> H. rewrite <- (map_id body) at 2. apply map_ext_in. intros l Hl%list_elem_of_In.
  rewrite forallb_Forall, Forall_forall in H. by apply inactivate_fixed, negb_true_iff, H.
Qed.

Lemma editedBody_idem isLast o body :
  offered_ok o → editedBody isLast o (editedBody isLast o body) = editedBody isLast o body.
Proof.
  intros Ho. unfold editedBody at 1. rewrite withRtpmap_fixed.
  - by apply withInactive_fixed; apply withInactive_directions.
  - destruct (decide (rtpmap o = [])); [by left|right]. by apply withInactive_has, withRtpmap_has.
Qed.

Lemma videoSection_cases isLast o sec :
  videoSection isLast o sec = sec ∨
  ∃ m m' body, sec = m :: body ∧ normalizeAlexaRejectedVideoMLine m (payload o) = (m', true) ∧
    videoSection isLast o sec = m' :: editedBody isLast o body.
Proof.
  destruct sec as [|m body]; [by left|]. simpl.
  destruct (normalizeAlexaRejectedVideoMLine m (payload o)) as [m' []] eqn:E; [right|by left].
  by exists m, m', body.
Qed.

Lemma videoSection_isVideo isLast o sec : isVideo (videoSection isLast o sec) = isVideo sec.
Proof.
  destruct (videoSection_cases isLast o sec) as [->|(m&m'&body&->&E&->)]; [done|].
  simpl. by eapply MLine_keeps_prefix.
Qed.

Lemma editedBody_notMedia isLast o body :
  offered_ok o → forallb notMedia body = true → forallb notMedia (editedBody isLast o body) = true.
Proof. intros Ho Hb. by apply withInactive_notMedia, withRtpmap_notMedia. Qed.

Lemma videoSection_is_section isLast o sec :
  offered_ok o → isVideo sec = true → is_section sec → is_section (videoSection isLast o sec).
Proof.
  intros Ho Hv. destruct (videoSection_cases isLast o sec) as [->|(m&m'&body&->&E&->)]; [done|].
  intros [Hm Hb]. split; [|by apply editedBody_notMedia].
  apply video_is_media. by rewrite (MLine_keeps_prefix _ _ _ E).
Qed.

Lemma videoSection_idem isLast o sec :
  offered_ok o → videoSection isLast o (videoSection isLast o sec) = videoSection isLast o sec.
Proof.
  intros Ho. destruct (videoSection_cases isLast o sec) as [E|(m&m'&body&->&E&Heq)]; [by rewrite !E|].
  rewrite Heq. destruct (MLine_nonempty _ _ _ E) as [_ Hp].
  pose proof (MLine_idem _ _ _ (proj2 Ho Hp) E) as Hid. simpl.
  destruct (normalizeAlexaRejectedVideoMLine m' (payload o)) as [m'' []]; simpl in Hid; subst; [|done].
  f_equal. by apply editedBody_idem.
Qed.

Lemma videoSections_noneAfter os vi secs :
  match videoSections os vi secs with [] => true | _ => false end =
  match secs with [] => true | _ => false end.
Proof. destruct secs as [|sec secs]; [done|]. cbn [videoSections]. by destruct (isVideo sec). Qed.

Lemma videoSections_sections os vi secs :
  Forall offered_ok os → Forall is_section secs → Forall is_section (videoSections os vi secs).
Proof.
  intros Hos Hs. revert vi. induction Hs as [|sec secs Hsec Hs IH]; intros vi; cbn [videoSections]; [done|].
  destruct (isVideo sec) eqn:E; constructor; try done.
  apply videoSection_is_section; [by apply offered_default_ok|done|done].
Qed.

Lemma videoSections_idem os vi secs :
  Forall offered_ok os → videoSections os vi (videoSections os vi secs) = videoSections os vi secs.
Proof.
  intros Hos. revert vi. induction secs as [|sec secs IH]; intros vi; cbn [videoSections]; [done|].
  destruct (isVideo sec) eqn:E; cbn [videoSections].
  - rewrite videoSection_isVideo, E, videoSections_noneAfter, IH.
    rewrite videoSection_idem by by apply offered_default_ok. done.
  - by rewrite E, IH.
Qed.

(** The number of video sections before section [i]. *)
Definition videoIndexOf (secs : list (list gostring)) (i : nat) : nat :=
  length (filter (λ sec, isVideo sec = true) (take i secs)).

Lemma videoSections_lookup os vi secs i sec :
  secs !! i = Some sec →
  videoSections os vi secs !! i =
  Some (if isVideo sec
        then videoSection (S i =? length secs)
               (default noVideoPayload (os !! (vi + videoIndexOf secs i))) sec
        else sec).
Proof.
  revert vi i. induction secs as [|s secs IH]; intros vi [|i] Hi; simplify_eq/=.
  - unfold videoIndexOf. simpl. rewrite Nat.add_0_r. destruct (isVideo sec); [|done]. by destruct secs.
  - unfold videoIndexOf. cbn [take]. rewrite filter_cons.
    destruct (isVideo s) eqn:E; simpl; rewrite (IH _ i Hi); unfold videoIndexOf;
      [|done]. rewrite Nat.add_succ_r. done.
Qed.

Lemma videoSections_length os vi secs : length (videoSections os vi secs) = length secs.
Proof.
  revert vi; induction secs as [|s secs IH]; intros vi; cbn [videoSections]; [done|].
  case_match; simpl; by rewrite IH.
Qed.

(** ** Framing of the result *)

Lemma Contains_crlf_cons c s : c ≠ CR → Contains (c :: s) crlf = Contains s crlf.
Proof.
  intros Hc. change (Contains (c :: s) crlf) with (HasPrefix (c :: s) crlf || Contains s crlf).
  unfold HasPrefix, crlf. by rewrite bool_decide_eq_false_2 by congruence.
Qed.

Lemma Contains_crlf_app x y :
  Contains x crlf = false → Contains y crlf = false → head y ≠ Some LF → Contains (x ++ y) crlf = false.
Proof.
  intros Hx Hy Hh. induction x as [|c x IH]; [done|].
  change (HasPrefix (c :: x) crlf || Contains x crlf = false) in Hx. apply orb_false_iff in Hx as [Hp Hx].
  change (HasPrefix (c :: x ++ y) crlf || Contains (x ++ y) crlf = false). rewrite IH, orb_false_r by done.
  destruct x as [|d x]; [|done]. unfold HasPrefix, crlf. destruct y as [|d y]; simpl; [by rewrite andb_false_r|].
  simpl in Hh. rewrite (bool_decide_eq_false_2 (LF = d)) by congruence. by rewrite andb_false_r.
Qed.

Lemma wordByte_not_CR_LF c : wordByte c = true → c ≠ CR ∧ c ≠ LF.
Proof. intros H. split; intros ->; by vm_compute in H. Qed.

Lemma Contains_crlf_word p y : forallb wordByte p = true → Contains (p ++ y) crlf = Contains y crlf.
Proof.
  induction p as [|c p IH]; [done|]. simpl. intros [[Hc _]%wordByte_not_CR_LF Hp]%andb_true_iff.
  rewrite Contains_crlf_cons by done. by apply IH.
Qed.

(** Replacing a piece of a line by a word brings no CRLF in. *)
Lemma Contains_crlf_replace a p b :
  p ≠ [] → forallb wordByte p = true → Contains a crlf = false → Contains b crlf = false →
  Contains (a ++ p ++ b) crlf = false.
Proof.
  intros Hp Hw Ha Hb. apply Contains_crlf_app; [done|by rewrite Contains_crlf_word|].
  destruct p as [|c p]; [done|]. simpl in *. apply andb_true_iff in Hw as [Hw _].
  apply wordByte_not_CR_LF in Hw. intros [= ->]. tauto.
Qed.

Lemma MLine_no_crlf line p m' :
  forallb wordByte p = true → Contains line crlf = false →
  normalizeAlexaRejectedVideoMLine line p = (m', true) → Contains m' crlf = false.
Proof.
  intros Hw Hl H. destruct (MLine_nonempty _ _ _ H) as [_ Hp].
  unfold normalizeAlexaRejectedVideoMLine in H. rewrite (proj2 (seqb_neq _ _) Hp) in H.
  assert (∀ n, Contains (take n line) crlf = false) as Htake.
  { intros n. rewrite <- (take_drop n line) in Hl. by apply Contains_app_l in Hl. }
  assert (∀ n, Contains (drop n line) crlf = false) as Hdrop.
  { intros n. rewrite <- (take_drop n line) in Hl. by apply Contains_app_r in Hl. }
  destruct (sdpFieldSpans line) as [|s0 [|s1 [|s2 [|s3 [|s4 rest]]]]]; try done.
  all: destruct (negb _ || negb _) eqn:E; [done|].
  - injection H as <-. rewrite app_assoc. rewrite <- (app_nil_r p), <- app_assoc.
    destruct (seqb (drop s2.2 line) []).
    + rewrite app_assoc. apply Contains_crlf_replace; [done..| |done].
      apply Contains_crlf_app; done.
    + rewrite app_assoc, take_drop. by apply Contains_crlf_replace.
  - destruct (seqb (spanText line s3) (§"0")); [|done]. injection H as <-. by apply Contains_crlf_replace.
  - done.
Qed.

Lemma Forall_concat_intro {A} (P : A → Prop) (ls : list (list A)) :
  Forall (Forall P) ls → Forall P (concat ls).
Proof. induction 1; simpl; [done|]. by apply Forall_app. Qed.

Lemma Forall_concat_elim {A} (P : A → Prop) (ls : list (list A)) :
  Forall P (concat ls) → Forall (Forall P) ls.
Proof. induction ls; simpl; [done|]. rewrite Forall_app. intros [? ?]. by constructor; auto. Qed.

Lemma videoSection_no_crlf isLast o sec :
  offered_ok o → Contains (rtpmap o) lf = false →
  Forall (λ x, Contains x crlf = false) sec →
  Forall (λ x, Contains x crlf = false) (videoSection isLast o sec).
Proof.
  intros Ho Hr Hsec. destruct (videoSection_cases isLast o sec) as [->|(m&m'&body&->&E&->)]; [done|].
  apply Forall_cons in Hsec as [Hm Hb]. destruct (MLine_nonempty _ _ _ E) as [_ Hp].
  constructor; [by eapply MLine_no_crlf; [apply (proj2 Ho)|..]|].
  rewrite Forall_forall in *. intros y [->|(z&Hz&->)]%elem_of_withInactive; [done|].
  unfold inactivate. case_match; [done|].
  apply elem_of_withRtpmap in Hz as [[-> _]|Hz]; [|by apply Hb].
  by apply Contains_crlf_of_LF_free.
Qed.

Lemma videoSections_no_crlf os vi secs :
  Forall offered_ok os → Forall (λ o, Contains (rtpmap o) lf = false) os →
  Forall (λ x, Contains x crlf = false) (concat secs) →
  Forall (λ x, Contains x crlf = false) (concat (videoSections os vi secs)).
Proof.
  intros Hos Hlf H. apply Forall_concat_intro. apply Forall_concat_elim in H. revert vi.
  induction H as [|sec secs Hsec H IH]; intros vi; cbn [videoSections]; [done|].
  case_match; (constructor; [|done]); [|done].
  apply videoSection_no_crlf; [by apply offered_default_ok| |done].
  destruct (os !! vi) as [o|] eqn:E; [|done]. exact (Forall_lookup_1 _ _ _ _ Hlf E).
Qed.

Lemma editedBody_length isLast o body : length body ≤ length (editedBody isLast o body).
Proof.
  unfold editedBody, withInactive, withRtpmap, insertAttribute.
  repeat case_match; rewrite ?appendLine_length, ?length_map, ?insert_at_length, ?appendLine_length; lia.
Qed.

Lemma videoSections_long os vi secs : length (concat secs) ≤ length (concat (videoSections os vi secs)).
Proof.
  revert vi; induction secs as [|sec secs IH]; intros vi; cbn [videoSections concat]; [done|].
  destruct (isVideo sec); simpl; rewrite !length_app; [|specialize (IH vi); lia].
  specialize (IH (S vi)). match goal with |- context [videoSection ?l ?o sec] =>
    destruct (videoSection_cases l o sec) as [->|(m&m'&body&->&_&->)] end; [lia|].
  simpl. match goal with |- context [editedBody ?l ?o body] => pose proof (editedBody_length l o body) end. lia.
Qed.

Lemma normalizeVideo_sectionsOf offer answer :
  Contains answer crlf = true →
  ∃ result, normalizeAlexaRejectedVideoPayloads offer answer = Some result ∧
    Contains result crlf = true ∧
    sectionsOf (linesOf result) = ((sectionsOf (linesOf answer)).1,
      videoSections (alexaOfferedVideoPayloads offer) 0 (sectionsOf (linesOf answer)).2).
Proof.
  intros Hc. eexists. split; [apply normalizeVideo_lines|].
  assert (lineSeparatorOf answer = crlf) as Hsep by (unfold lineSeparatorOf; by rewrite Hc). rewrite Hsep.
  pose proof (linesOf_framed answer) as Hf. rewrite Hsep in Hf.
  pose proof (sectionsOf_concat (linesOf answer)) as Hcat.
  pose proof (sectionsOf_sectioned (linesOf answer)) as [Hp Hs].
  destruct (sectionsOf (linesOf answer)) as [pre secs]; cbn [fst snd] in *. rewrite <- Hcat in Hf.
  destruct Hf as (HF&_&[[_ Hlen]|[? _]]); [|done]. apply Forall_app in HF as [HF1 HF2].
  pose proof (videoSections_long (alexaOfferedVideoPayloads offer) 0 secs) as Hlong.
  assert (framed crlf (pre ++ concat (videoSections (alexaOfferedVideoPayloads offer) 0 secs))) as Hf'.
  { rewrite length_app in Hlen. split_and!.
    - apply Forall_app. split; [done|]. apply videoSections_no_crlf;
        [apply alexaOfferedVideoPayloads_ok|apply alexaOfferedVideoPayloads_no_lf|done].
    - intros E%(f_equal length). rewrite length_app in E. simpl in E. lia.
    - left. rewrite length_app. split; [done|lia]. }
  split.
  - pose proof (framed_lineSeparatorOf _ _ Hf') as H. unfold lineSeparatorOf in H. by case_match.
  - rewrite framed_linesOf by done. apply sectionsOf_unique. split; [done|].
    apply videoSections_sections; [apply alexaOfferedVideoPayloads_ok|done].
Qed.

(** The code cuts a line into its words. *)
Lemma spanTexts_render pre toks trail :
  map (spanText (pre ++ render toks trail)) (tokSpans (length pre) toks) = map snd toks.
Proof.
  revert pre; induction toks as [|[b t] r IH]; intros pre; [done|]. cbn [render tokSpans map snd].
  rewrite (spanText_at _ (pre ++ b) t (render r trail)) by by_assoc. f_equal.
  replace (length pre + length b + length t) with (length (pre ++ b ++ t)) by by_assoc.
  replace (pre ++ b ++ t ++ render r trail) with ((pre ++ b ++ t) ++ render r trail) by by_assoc.
  apply IH.
Qed.

(** ** Rejected video sections, read off the texts *)

(** The words of a line, cut at blanks and tabs: [acc] is the word being read. *)
Fixpoint wordsFrom (acc line : gostring) : list gostring :=
  match line with
  | [] => if seqb acc [] then [] else [acc]
  | c :: rest =>
      if bool_decide (c ∈ [" "%byte; Byte.x09])
      then (if seqb acc [] then [] else [acc]) ++ wordsFrom [] rest
      else wordsFrom (acc ++ [c]) rest
  end.

Definition lineWords (line : gostring) : list gostring := wordsFrom [] line.

Lemma isBlank_elem c : bool_decide (c ∈ [" "%byte; Byte.x09]) = isBlank c.
Proof.
  unfold isBlank. rewrite <- bool_decide_or. apply bool_decide_ext.
  rewrite list_elem_of_In. simpl. naive_solver.
Qed.

Lemma wordsFrom_blank b rest : forallb isBlank b = true → wordsFrom [] (b ++ rest) = wordsFrom [] rest.
Proof.
  induction b as [|c b IH]; [done|]. cbn [forallb app wordsFrom]. intros [Hc Hb]%andb_true_iff. rewrite isBlank_elem, Hc.
  by apply IH.
Qed.

Lemma wordsFrom_word acc t rest : forallb notBlank t = true → wordsFrom acc (t ++ rest) = wordsFrom (acc ++ t) rest.
Proof.
  revert acc. induction t as [|c t IH]; intros acc; [by rewrite app_nil_r|]. cbn [forallb app wordsFrom].
  intros [Hc%negb_true_iff Ht]%andb_true_iff. rewrite isBlank_elem, Hc, IH by done. by rewrite <- app_assoc.
Qed.

Lemma wordsFrom_stop t rest : t ≠ [] → stops notBlank rest → wordsFrom t rest = t :: wordsFrom [] rest.
Proof.
  intros Ht%seqb_neq. destruct rest as [|c rest]; cbn [wordsFrom stops].
  - intros _. by rewrite Ht.
  - intros Hc%negb_false_iff. rewrite isBlank_elem, Hc, Ht. done.
Qed.

Lemma wf_rest_toks toks : wf_rest toks → wf_toks toks.
Proof. destruct toks as [|[b t] r]; [done|]. by intros (_&?&?&?). Qed.

Lemma lineWords_render toks trail :
  wf_toks toks → forallb isBlank trail = true → lineWords (render toks trail) = map snd toks.
Proof.
  unfold lineWords. intros Hwf Htr. induction toks as [|[b t] r IH].
  { simpl. rewrite <- (app_nil_r trail). by rewrite wordsFrom_blank. }
  destruct Hwf as (Hb&[Ht Hw]&Hr). cbn [render map snd]. rewrite wordsFrom_blank, wordsFrom_word by done.
  rewrite wordsFrom_stop by (done || by apply stops_blank_rest). f_equal. by apply IH, wf_rest_toks.
Qed.

(** An rtpmap line for a payload. *)
Definition mapsTo (payload line : gostring) : Prop :=
  ∃ value encoding more, line = §"a=rtpmap:" ++ value ∧ lineWords value = payload :: encoding :: more.

(** The payload an offered video section selects: 102 if it is offered,
    otherwise the first. *)
Definition selects (mediaLine payload : gostring) : Prop :=
  ∃ media port proto first more, Fields mediaLine = media :: port :: proto :: first :: more ∧
    payload = (if bool_decide (§"102" ∈ first :: more) then §"102" else first).

(** The first rtpmap line for the payload in the offered section. *)
Definition offeredRtpmap (payload line : gostring) (offered : list gostring) : Prop :=
  ∃ before after, offered = before ++ line :: after ∧ mapsTo payload line ∧ Forall (λ l, ¬ mapsTo payload l) before.

(** A media line that rejects video with no payload, or with the payload 0. *)
Definition rejectsVideo (proto line : gostring) : Prop :=
  HasPrefix line §"m=video " = true ∧
  (lineWords line = [§"m=video"; §"0"; proto] ∨ lineWords line = [§"m=video"; §"0"; proto; §"0"]).

(** The video sections of the offer; it may mix line endings. *)
Definition offerVideos (offer : gostring) : list (list gostring) :=
  filter (λ sec, isVideo sec = true) (sectionsOf (Split (ReplaceAll offer crlf lf) lf)).2.

(** The [n]-th video section of an answer, with media line [m], is rejected
    and the offer's selects [payload]; [offered] is the body of the offer's. *)
Definition rejectedVideo (offer : gostring) (n : nat) (m proto payload : gostring) (offered : list gostring) : Prop :=
  rejectsVideo proto m ∧ ∃ om, offerVideos offer !! n = Some (om :: offered) ∧ selects om payload.

Definition directions : list gostring := [§"a=sendrecv"; §"a=sendonly"; §"a=recvonly"; §"a=inactive"].
Definition stilled (line : gostring) : gostring := if bool_decide (line ∈ directions) then §"a=inactive" else line.

(** The end of a section: before the empty line if the text ends with it there. *)
Definition atEnd (isLast : Prop) (before after : list gostring) : Prop :=
  (after = [] ∧ ¬ (isLast ∧ last before = Some [])) ∨ (isLast ∧ after = [[]]).

Definition beforeAttributes (isLast : Prop) (before after : list gostring) : Prop :=
  Forall (λ line, HasPrefix line §"a=" = false) before ∧
  ((∃ attribute rest, after = attribute :: rest ∧ HasPrefix attribute §"a=" = true) ∨ atEnd isLast before after).

(** What becomes of the body: the offered rtpmap line is added before the first
    attribute if no line maps the payload, every direction is made inactive,
    and [a=inactive] is added at the end if there is no direction. *)
Definition rewrittenBody (isLast : Prop) (payload : gostring) (offered body body' : list gostring) : Prop :=
  ∃ mapped,
    ((∃ line before after, offeredRtpmap payload line offered ∧ Forall (λ l, ¬ mapsTo payload l) body ∧
        body = before ++ after ∧ mapped = before ++ line :: after ∧ beforeAttributes isLast before after) ∨
     ((Exists (mapsTo payload) body ∨ ∀ line, ¬ offeredRtpmap payload line offered) ∧ mapped = body)) ∧
    ((Exists (λ l, l ∈ directions) body ∧ body' = map stilled mapped) ∨
     (Forall (λ l, l ∉ directions) body ∧
      ∃ before after, mapped = before ++ after ∧ body' = before ++ §"a=inactive" :: after ∧ atEnd isLast before after)).

(** *** The code's tests are these *)

Lemma mapsPayload_spec p line : mapsPayload p line = true ↔ mapsTo p line.
Proof.
  unfold mapsPayload, alexaRTPMapPayload, mapsTo. destruct (HasPrefix line §"a=rtpmap:") eqn:Hp; cbn [negb].
  2: { split; [done|]. intros (value&e&more&->&_). by rewrite HasPrefix_app in Hp. }
  apply HasPrefix_true in Hp as (value&->). rewrite TrimPrefix_app.
  destruct (line_render value) as (toks&trail&Hv&Hwf&Htr).
  pose proof (lineWords_render toks trail Hwf Htr) as Hw. pose proof (sdpFieldSpans_render toks trail Hwf Htr) as Hs.
  pose proof (spanTexts_render [] toks trail) as Ht. cbn [app length] in Ht. rewrite <- Hv in *. rewrite Hs.
  destruct toks as [|[b0 t0] [|[b1 t1] toks]]; cbn [tokSpans map snd] in *.
  - split; [done|]. by intros (v&e&more&->%app_inv_head&Hx); congruence.
  - split; [done|]. by intros (v&e&more&->%app_inv_head&Hx); congruence.
  - assert (spanText value (0 + length b0, 0 + length b0 + length t0) = t0) as -> by (by injection Ht). rewrite seqb_eq. split.
    + intros ->. by exists value, t1, (map snd toks).
    + intros (v&e&more&->%app_inv_head&Hx). congruence.
Qed.

Lemma existsb_maps p body : existsb (mapsPayload p) body = true ↔ Exists (mapsTo p) body.
Proof.
  induction body as [|l body IH]; [by rewrite Exists_nil|]. cbn [existsb].
  by rewrite orb_true_iff, Exists_cons, IH, mapsPayload_spec.
Qed.

Lemma existsb_maps_false p body : existsb (mapsPayload p) body = false ↔ Forall (λ l, ¬ mapsTo p l) body.
Proof.
  induction body as [|l body IH]; [done|]. cbn [existsb].
  by rewrite orb_false_iff, Forall_cons, IH, <- not_true_iff_false, mapsPayload_spec.
Qed.

(** The rewritten media line: the rejected section's first three words, and
    the payload as the only format. *)
Lemma MLine_words line p m' :
  forallb wordByte p = true → normalizeAlexaRejectedVideoMLine line p = (m', true) →
  ∃ proto, lineWords m' = [§"m=video"; §"0"; proto; p] ∧
    (lineWords line = [§"m=video"; §"0"; proto] ∨ lineWords line = [§"m=video"; §"0"; proto; §"0"]).
Proof.
  intros Hw H. destruct (MLine_nonempty _ _ _ H) as [_ Hp].
  apply MLine_eligible in H as (b0&b1&b2&t2&b3&trail&->&Hwf&Hb3&Hb0&Hbl3&Htr&Hline).
  pose proof (payload_word p Hp Hw) as Hpw.
  assert (word (§"m=video") ∧ word (§"0")) as [Hv H0] by (split; split; done).
  exists t2. split; [by rewrite lineWords_render by (done || (simpl in *; tauto))|].
  destruct Hline as [(tr&->&Htr')| ->]; [left|right];
    by rewrite lineWords_render by (done || (simpl in *; tauto)).
Qed.

Lemma MLine_rejects line p proto :
  p ≠ [] → lineWords line = [§"m=video"; §"0"; proto] ∨ lineWords line = [§"m=video"; §"0"; proto; §"0"] →
  (normalizeAlexaRejectedVideoMLine line p).2 = true.
Proof.
  intros Hp. destruct (line_render line) as (toks&trail&->&Hwf&Htr). rewrite lineWords_render by done.
  intros [H|H]; destruct toks as [|[b0 t0] [|[b1 t1] [|[b2 t2] [|[b3 t3] [|? ?]]]]]; try done; simpl in H.
  - injection H as -> -> ->. by rewrite MLine_three.
  - injection H as -> -> -> ->. by rewrite MLine_four.
Qed.

Lemma selectedRtpmap_body sel body secs :
  forallb notMedia body = true → Forall is_section secs → selectedRtpmap sel (body ++ concat secs) = selectedRtpmap sel body.
Proof.
  intros Hb Hs. induction body as [|l body IH].
  - destruct Hs as [|[|m b] secs Hsec _]; [done|by destruct Hsec|]. destruct Hsec as [Hm _]. simpl. by rewrite Hm.
  - cbn [forallb] in Hb. apply andb_true_iff in Hb as [Hl%negb_true_iff Hb]. simpl. rewrite Hl, IH by done. done.
Qed.

Definition offeredOf (sec : list gostring) : alexaOfferedVideoPayload :=
  match sec with m :: body => offeredVideoPayload m body | [] => noVideoPayload end.

Lemma offeredVideoLoop_skip body rest :
  forallb notMedia body = true → offeredVideoLoop (body ++ rest) = offeredVideoLoop rest.
Proof.
  induction body as [|l body IH]; [done|]. cbn [forallb app offeredVideoLoop]. intros [Hl%negb_true_iff Hb]%andb_true_iff.
  destruct (HasPrefix l §"m=video ") eqn:E; [apply video_is_media in E; congruence|by apply IH].
Qed.

Lemma offeredVideoLoop_sections secs :
  Forall is_section secs → offeredVideoLoop (concat secs) = map offeredOf (filter (λ sec, isVideo sec = true) secs).
Proof.
  induction 1 as [|[|m body] secs Hsec Hs IH]; [done|by destruct Hsec|]. destruct Hsec as [Hm Hb].
  cbn [concat app offeredVideoLoop]. rewrite offeredVideoLoop_skip, IH by done. rewrite filter_cons. cbn [isVideo].
  destruct (HasPrefix m §"m=video "); cbn [decide_rel]; case_decide; try done. cbn [map offeredOf]. f_equal.
  unfold offeredVideoPayload. destruct (Fields m) as [|? [|? [|? [|? ?]]]]; try done. by rewrite selectedRtpmap_body.
Qed.

(** The payloads of the offer are those of its video sections. *)
Lemma alexaOfferedVideoPayloads_sections offer :
  alexaOfferedVideoPayloads offer = map offeredOf (offerVideos offer).
Proof.
  unfold alexaOfferedVideoPayloads, offerVideos. set (lines := Split _ lf).
  rewrite <- (sectionsOf_concat lines) at 1. destruct (sectionsOf_sectioned lines) as [Hp Hs].
  by rewrite offeredVideoLoop_skip, offeredVideoLoop_sections.
Qed.

Lemma offeredVideoPayload_selects m body p : p ≠ [] → payload (offeredVideoPayload m body) = p ↔ selects m p.
Proof.
  intros Hp. unfold selects, offeredVideoPayload. destruct (Fields m) as [|f0 [|f1 [|f2 [|f3 more]]]]; try (split; [by intros <-|naive_solver]).
  assert ((if existsb (seqb §"102") (f3 :: more) then §"102" else f3) =
          if bool_decide (§"102" ∈ f3 :: more) then §"102" else f3) as Hsel.
  { case_bool_decide as Hin; [by rewrite (proj2 (existsb_seqb_elem _ _))|].
    destruct (existsb _ _) eqn:E; [|done]. by apply existsb_seqb_elem in E. }
  cbn [payload]. rewrite Hsel. split; [intros <-; by exists f0, f1, f2, f3, more|].
  by intros (?&?&?&?&?&[= <- <- <- <- <-]&->).
Qed.

Lemma selectedRtpmap_offered p line body :
  forallb notMedia body = true → selectedRtpmap p body = line ∧ line ≠ [] ↔ offeredRtpmap p line body.
Proof.
  intros Hb. unfold offeredRtpmap. induction body as [|l body IH]; cbn [selectedRtpmap].
  { split; [by intros [<- ?]|]. by intros ([|]&after&?&_). }
  cbn [forallb] in Hb. apply andb_true_iff in Hb as [Hl%negb_true_iff Hb]. rewrite Hl.
  destruct (mapsPayload p l) eqn:E.
  - apply mapsPayload_spec in E. split.
    + intros [<- _]. by exists [], body.
    + intros ([|b before]&after&[= -> Heq]&Hm&Hf).
      * split; [done|]. by destruct Hm as (v&e&more&->&_).
      * apply Forall_cons in Hf as [Hf _]. done.
  - assert (¬ mapsTo p l) by (rewrite <- mapsPayload_spec; congruence). rewrite IH by done. split.
    + intros (before&after&->&Hm&Hf). exists (l :: before), after. split_and!; [done|done|by constructor].
    + intros ([|b before]&after&[= -> Heq]&Hm&Hf); [done|]. apply Forall_cons in Hf as [_ Hf]. by exists before, after.
Qed.

(** *** The edited section is the one described *)

Lemma isDirection_spec l : isDirection l = true ↔ l ∈ directions.
Proof.
  unfold isDirection, isOtherDirection, inactiveLine, directions. rewrite !orb_true_iff, !seqb_eq, list_elem_of_In. simpl. naive_solver.
Qed.

Lemma existsb_direction body : existsb isDirection body = true ↔ Exists (λ l, l ∈ directions) body.
Proof.
  induction body as [|l body IH]; [by rewrite Exists_nil|]. cbn [existsb].
  by rewrite orb_true_iff, Exists_cons, IH, isDirection_spec.
Qed.

Lemma existsb_direction_false body : existsb isDirection body = false ↔ Forall (λ l, l ∉ directions) body.
Proof.
  induction body as [|l body IH]; [done|]. cbn [existsb].
  by rewrite orb_false_iff, Forall_cons, IH, <- not_true_iff_false, isDirection_spec.
Qed.

Lemma inactivate_stilled l : inactivate l = stilled l.
Proof.
  unfold stilled. destruct (isDirection l) eqn:E.
  - rewrite bool_decide_eq_true_2 by by apply isDirection_spec. unfold isDirection, inactivate, inactiveLine in *.
    destruct (isOtherDirection l); [done|]. rewrite orb_false_r in E. by apply seqb_eq in E.
  - rewrite bool_decide_eq_false_2 by (rewrite <- isDirection_spec; congruence).
    apply inactivate_fixed. unfold isDirection in E. by apply orb_false_iff in E as [_ ?].
Qed.

Lemma stilled_quiet body : Forall (λ l, l ∉ directions) body → map stilled body = body.
Proof.
  induction 1 as [|l body Hl Hb IH]; [done|]. cbn [map]. rewrite IH. unfold stilled. by rewrite bool_decide_eq_false_2.
Qed.

Lemma appendLine_split isLast (P : Prop) x body :
  (isLast = true ↔ P) → ∃ before after, body = before ++ after ∧ appendLine isLast x body = before ++ x :: after ∧ atEnd P before after.
Proof.
  intros HP. unfold appendLine, atEnd. destruct isLast; cbn [andb].
  - case_bool_decide as Hl.
    + apply last_Some in Hl as [b ->]. rewrite removelast_last. exists b, [[]]. split_and!; [done|done|]. right. split; [by apply HP|done].
    + exists body, []. rewrite app_nil_r. split_and!; [done|done|]. left. split; [done|]. by intros [_ ?].
  - exists body, []. rewrite app_nil_r. split_and!; [done|done|]. left. split; [done|]. intros [?%HP _]. done.
Qed.

Lemma insertAttribute_split isLast (P : Prop) x body :
  (isLast = true ↔ P) →
  ∃ before after, body = before ++ after ∧ insertAttribute isLast x body = before ++ x :: after ∧ beforeAttributes P before after.
Proof.
  intros HP. unfold insertAttribute, beforeAttributes. destruct (find_from _ body 0) as [k|] eqn:E.
  - apply find_from_Some in E as (l1&y&l2&->&->&Hy&Hl1). exists l1, (y :: l2). split_and!; [done|by apply insert_at_app| |by left; exists y, l2].
    rewrite forallb_Forall in Hl1. eapply Forall_impl; [exact Hl1|]. intros z Hz. by apply negb_true_iff in Hz.
  - apply find_from_None in E. rewrite forallb_Forall in E. destruct (appendLine_split isLast P x body HP) as (before&after&->&->&Hat).
    exists before, after. split_and!; [done|done| |by right]. apply Forall_app in E as [E _].
    eapply Forall_impl; [exact E|]. intros z Hz. by apply negb_true_iff in Hz.
Qed.

Lemma mapsTo_not_direction p l : mapsTo p l → l ∉ directions.
Proof.
  intros (v&e&more&->&_). unfold directions. rewrite !elem_of_cons, elem_of_nil. intros [|[|[|[|[]]]]]; discriminate.
Qed.

Lemma directions_insert before x after :
  x ∉ directions → existsb isDirection (before ++ x :: after) = existsb isDirection (before ++ after).
Proof.
  intros Hx. rewrite !existsb_app. cbn [existsb]. destruct (isDirection x) eqn:E; [by apply isDirection_spec in E|done].
Qed.

Lemma withInactive_rewritten isLast (P : Prop) body mapped :
  (isLast = true ↔ P) → existsb isDirection mapped = existsb isDirection body →
  (Exists (λ l, l ∈ directions) body ∧ withInactive isLast mapped = map stilled mapped) ∨
  (Forall (λ l, l ∉ directions) body ∧
   ∃ before after, mapped = before ++ after ∧ withInactive isLast mapped = before ++ §"a=inactive" :: after ∧ atEnd P before after).
Proof.
  intros HP Hd. unfold withInactive. rewrite (map_ext _ _ inactivate_stilled), Hd. destruct (existsb isDirection body) eqn:E.
  - left. split; [by apply existsb_direction|done].
  - right. split; [by apply existsb_direction_false|]. apply existsb_direction_false in Hd. rewrite stilled_quiet by done.
    by apply appendLine_split.
Qed.

Lemma editedBody_rewritten isLast (P : Prop) om offered body :
  (isLast = true ↔ P) → forallb notMedia offered = true → payload (offeredVideoPayload om offered) ≠ [] →
  rewrittenBody P (payload (offeredVideoPayload om offered)) offered body (editedBody isLast (offeredVideoPayload om offered) body).
Proof.
  intros HP Hnm Hp. set (o := offeredVideoPayload om offered) in *.
  assert (Hoff : rtpmap o = selectedRtpmap (payload o) offered).
  { subst o. unfold offeredVideoPayload in *. by destruct (Fields om) as [|? [|? [|? [|? ?]]]]. }
  assert (Hrtp : ∀ line, offeredRtpmap (payload o) line offered ↔ rtpmap o = line ∧ line ≠ []).
  { intros line. rewrite Hoff. symmetry. by apply selectedRtpmap_offered. }
  unfold rewrittenBody, editedBody, withRtpmap, alexaSectionHasRTPMap.
  destruct (seqb (rtpmap o) []) eqn:Er; cbn [negb andb].
  - apply seqb_eq in Er. exists body. split; [|by apply withInactive_rewritten]. right. split; [right|done].
    intros line [<- ?]%Hrtp. done.
  - apply seqb_neq in Er. assert (Hline : offeredRtpmap (payload o) (rtpmap o) offered) by by apply Hrtp.
    destruct (existsb (mapsPayload (payload o)) body) eqn:Em; cbn [negb].
    + exists body. split; [|by apply withInactive_rewritten]. right. split; [left; by apply existsb_maps|done].
    + destruct (insertAttribute_split isLast P (rtpmap o) body HP) as (before&after&->&Hins&Hat).
      exists (insertAttribute isLast (rtpmap o) (before ++ after)). split.
      * left. exists (rtpmap o), before, after. split_and!; try done. by apply existsb_maps_false.
      * apply withInactive_rewritten; [done|]. rewrite Hins. apply directions_insert.
        destruct Hline as (?&?&_&Hm&_). by eapply mapsTo_not_direction.
Qed.

Lemma selects_nonempty om p : selects om p → p ≠ [].
Proof.
  intros (media&port&proto&first&more&HF&->). case_bool_decide; [done|].
  pose proof (Fields_words om) as Hw. rewrite HF, !Forall_cons in Hw. tauto.
Qed.

Lemma offerVideos_lookup offer n om offered :
  offerVideos offer !! n = Some (om :: offered) →
  alexaOfferedVideoPayloads offer !! n = Some (offeredVideoPayload om offered) ∧ forallb notMedia offered = true.
Proof.
  intros H. rewrite alexaOfferedVideoPayloads_sections, list_lookup_fmap, H. split; [done|].
  apply list_elem_of_lookup_2, list_elem_of_filter in H as [_ H].
  pose proof (sectionsOf_sectioned (Split (ReplaceAll offer crlf lf) lf)) as [_ Hs]. rewrite Forall_forall in Hs.
  by destruct (Hs _ H).
Qed.

(** The payload the code finds for a rejected section, [n]-th of the video sections. *)
Definition offeredAt (offer : gostring) (n : nat) : alexaOfferedVideoPayload :=
  default noVideoPayload (alexaOfferedVideoPayloads offer !! n).

Lemma videoSection_rejected isLast (P : Prop) offer n m body proto p offered :
  (isLast = true ↔ P) → rejectedVideo offer n m proto p offered →
  ∃ m' body', videoSection isLast (offeredAt offer n) (m :: body) = m' :: body' ∧
    HasPrefix m' §"m=video " = true ∧ lineWords m' = [§"m=video"; §"0"; proto; p] ∧ rewrittenBody P p offered body body'.
Proof.
  intros HP [[Hv Hw] (om&Hom&Hsel)]. pose proof (selects_nonempty _ _ Hsel) as Hp.
  destruct (offerVideos_lookup _ _ _ _ Hom) as [Ho Hnm]. unfold offeredAt. rewrite Ho. cbn [from_option id videoSection].
  pose proof (MLine_rejects m p proto Hp Hw) as He.
  apply (offeredVideoPayload_selects om offered p Hp) in Hsel. rewrite Hsel.
  destruct (normalizeAlexaRejectedVideoMLine m p) as [m' []] eqn:E; [|done]. clear He.
  exists m', (editedBody isLast (offeredVideoPayload om offered) body). split; [done|].
  destruct (offeredVideoPayload_ok om offered) as [[_ Hword] _]. rewrite Hsel in Hword.
  destruct (MLine_words _ _ _ (Hword Hp) E) as (proto'&Hw'&Hw2). split; [by rewrite (MLine_keeps_prefix _ _ _ E)|].
  assert (proto' = proto) as -> by (destruct Hw as [Hw|Hw], Hw2 as [Hw2|Hw2]; congruence).
  split; [done|]. subst p. by apply editedBody_rewritten.
Qed.

Lemma rejectedVideo_eligible offer n m :
  HasPrefix m §"m=video " = true →
  (normalizeAlexaRejectedVideoMLine m (payload (offeredAt offer n))).2 = true ↔
  ∃ proto p offered, rejectedVideo offer n m proto p offered.
Proof.
  intros Hv. split.
  - destruct (normalizeAlexaRejectedVideoMLine m _) as [m' e] eqn:E. cbn [snd]. intros ->.
    destruct (MLine_nonempty _ _ _ E) as [_ Hp]. unfold offeredAt in *. rewrite alexaOfferedVideoPayloads_sections, list_lookup_fmap in *.
    destruct (offerVideos offer !! n) as [[|om offered]|] eqn:Hom; [done| |done]. cbn [fmap option_fmap option_map from_option id offeredOf] in *.
    assert (selects om (payload (offeredVideoPayload om offered))) as Hsel by by eapply offeredVideoPayload_selects.
    destruct (offeredVideoPayload_ok om offered) as [[_ Hword] _].
    destruct (MLine_words _ _ _ (Hword Hp) E) as (proto&_&Hw). eexists proto, _, offered. split; [by split|]. by exists om.
  - intros (proto&p&offered&[_ Hw]&om&Hom&Hsel). pose proof (selects_nonempty _ _ Hsel) as Hp.
    destruct (offerVideos_lookup _ _ _ _ Hom) as [Ho _]. unfold offeredAt. rewrite Ho. cbn [from_option id].
    apply (offeredVideoPayload_selects om offered p Hp) in Hsel. rewrite Hsel. by eapply MLine_rejects.
Qed.

Lemma rejectedVideo_cases offer n m :
  (∃ proto p offered, rejectedVideo offer n m proto p offered) ∨ ∀ proto p offered, ¬ rejectedVideo offer n m proto p offered.
Proof.
  destruct (HasPrefix m §"m=video ") eqn:Hv; [|right; intros ??? [[Hv' _] _]; congruence].
  pose proof (rejectedVideo_eligible offer n m Hv) as He. destruct (normalizeAlexaRejectedVideoMLine _ _).2; [left; by apply He|right].
  intros proto p offered Hrej. assert (false = true) by (apply He; eauto). done.
Qed.

Lemma rejectedVideo_inj offer n m proto1 p1 offered1 proto2 p2 offered2 :
  rejectedVideo offer n m proto1 p1 offered1 → rejectedVideo offer n m proto2 p2 offered2 →
  proto1 = proto2 ∧ p1 = p2 ∧ offered1 = offered2.
Proof.
  intros [[_ Hw1] (om1&Ho1&Hs1)] [[_ Hw2] (om2&Ho2&Hs2)]. rewrite Ho1 in Ho2. injection Ho2 as <- <-.
  split; [destruct Hw1 as [Hw1|Hw1], Hw2 as [Hw2|Hw2]; congruence|]. split; [|done].
  destruct Hs1 as (?&?&?&?&?&H1&->), Hs2 as (?&?&?&?&?&H2&->). rewrite H1 in H2. by injection H2 as -> -> -> -> ->.
Qed.

Lemma videoSection_accepted isLast offer n m body :
  HasPrefix m §"m=video " = true → (∀ proto p offered, ¬ rejectedVideo offer n m proto p offered) →
  videoSection isLast (offeredAt offer n) (m :: body) = m :: body.
Proof.
  intros Hv Hn. pose proof (rejectedVideo_eligible offer n m Hv) as He. cbn [videoSection].
  destruct (normalizeAlexaRejectedVideoMLine m _) as [m' []]; [|done]. destruct (proj1 He eq_refl) as (?&?&?&Hrej).
  by destruct (Hn _ _ _ Hrej).
Qed.

(** ** Properties *)

(** C28. The in-place loop of [normalizeAlexaRejectedVideoPayloads], which inserts
    lines into the slice it is walking and skips over them, ends on every
    offer and answer within its fuel and computes the section-by-section
    reference. *)
Theorem normalizeVideo_refines_sections (offer answer : gostring) :
  normalizeAlexaRejectedVideoPayloads offer answer =
  Some (Join ((sectionsOf (linesOf answer)).1 ++
        concat (videoSections (alexaOfferedVideoPayloads offer) 0 (sectionsOf (linesOf answer)).2))
    (lineSeparatorOf answer)).
Proof. apply normalizeVideo_lines. Qed.

(** C9. In a CRLF answer, the [n]-th video section (counted from 0) is
    rewritten exactly when its media line is [m=video 0 proto] or
    [m=video 0 proto 0] and the offer's [n]-th video section offers a payload:
    then the media line's words are [m=video 0 proto payload], with the payload
    102 if it is offered and the first otherwise; the first offered rtpmap line
    of the payload is added immediately before the first attribute, unless the
    section has one; every direction is made inactive, and [a=inactive] is added
    at the end if there is none.  All other sections, the session part and the
    line separator are unchanged. *)
Theorem normalizeVideo_rewrites_rejected_video (offer answer : gostring) :
  Contains answer crlf = true →
  ∃ result, normalizeAlexaRejectedVideoPayloads offer answer = Some result ∧
  let secs := (sectionsOf (linesOf answer)).2 in
  let secs' := (sectionsOf (linesOf result)).2 in
  lineSeparatorOf result = crlf ∧
  (sectionsOf (linesOf result)).1 = (sectionsOf (linesOf answer)).1 ∧
  length secs' = length secs ∧
  ∀ i m body, secs !! i = Some (m :: body) →
    let n := videoIndexOf secs i in
    (∀ proto payload offered, rejectedVideo offer n m proto payload offered →
      ∃ m' body', secs' !! i = Some (m' :: body') ∧
        HasPrefix m' §"m=video " = true ∧ lineWords m' = [§"m=video"; §"0"; proto; payload] ∧
        rewrittenBody (S i = length secs) payload offered body body') ∧
    ((∀ proto payload offered, ¬ rejectedVideo offer n m proto payload offered) → secs' !! i = Some (m :: body)).
Proof.
  intros Hc. destruct (normalizeVideo_sectionsOf offer answer Hc) as (result&Hr&Hcr&Hs).
  exists result. split; [done|]. rewrite Hs. cbn [fst snd].
  split; [unfold lineSeparatorOf; by rewrite Hcr|]. split; [done|]. split; [apply videoSections_length|]. intros i m body Hi.
  rewrite (videoSections_lookup _ _ _ _ _ Hi). cbn [Nat.add isVideo]. split.
  - intros proto payload offered Hrej. rewrite (proj1 (proj1 Hrej)).
    destruct (videoSection_rejected _ _ _ _ _ body _ _ _ (Nat.eqb_eq (S i) (length (sectionsOf (linesOf answer)).2)) Hrej)
      as (m'&body'&Heq&?). exists m', body'. by rewrite <- Heq.
  - intros Hn. destruct (HasPrefix m §"m=video ") eqn:Hv; [|done]. f_equal. by apply videoSection_accepted.
Qed.

Lemma normalizeVideo_rewrites_rejected_video_witness :
  let offer := §"v=0" ++ crlf ++ §"m=video 9 UDP/TLS/RTP/SAVPF 102 112" ++ crlf ++ §"a=rtpmap:102 VP8/90000" ++ crlf in
  let answer := §"v=0" ++ crlf ++ §"m=video  0  UDP/TLS/RTP/SAVPF  0" ++ crlf ++ §"a=recvonly" ++ crlf in
  Contains answer crlf = true ∧
  ∃ result m' body', normalizeAlexaRejectedVideoPayloads offer answer = Some result ∧
    (sectionsOf (linesOf result)).2 !! 0 = Some (m' :: body') ∧
    lineWords m' = [§"m=video"; §"0"; §"UDP/TLS/RTP/SAVPF"; §"102"].
Proof.
  intros offer answer. assert (Contains answer crlf = true) as Hc by reflexivity.
  split; [exact Hc|].
  destruct (normalizeVideo_rewrites_rejected_video offer answer Hc) as (result&Hr&_&_&_&H).
  destruct (H 0 §"m=video  0  UDP/TLS/RTP/SAVPF  0" [§"a=recvonly"; []] eq_refl) as [H1 _].
  destruct (H1 §"UDP/TLS/RTP/SAVPF" §"102" [§"a=rtpmap:102 VP8/90000"; []]) as (m'&body'&Hs&_&Hw&_).
  - split; [split; [reflexivity|right; reflexivity]|]. exists §"m=video 9 UDP/TLS/RTP/SAVPF 102 112".
    split; [vm_compute; reflexivity|]. exists §"m=video", §"9", §"UDP/TLS/RTP/SAVPF", §"102", [§"112"].
    split; [reflexivity|vm_compute; reflexivity].
  - exists result, m', body'. split; [exact Hr|split; [exact Hs|exact Hw]].
Defined.

(** Rewriting rejected video twice is rewriting it once, on CRLF answers. *)
Theorem normalizeVideo_idempotent (offer answer : gostring) :
  Contains answer crlf = true →
  ∃ result, normalizeAlexaRejectedVideoPayloads offer answer = Some result ∧
    normalizeAlexaRejectedVideoPayloads offer result = Some result.
Proof.
  intros Hc. destruct (normalizeVideo_sectionsOf offer answer Hc) as (result&Hr&Hc'&Hs).
  exists result. split; [done|].
  rewrite (normalizeVideo_lines offer result), Hs. cbn [fst snd].
  rewrite videoSections_idem by apply alexaOfferedVideoPayloads_ok.
  pose proof (sectionsOf_concat (linesOf result)) as Hcat. rewrite Hs in Hcat. cbn [fst snd] in Hcat.
  by rewrite Hcat, Join_linesOf.
Qed.

Lemma normalizeVideo_idempotent_witness :
  let offer := §"v=0" ++ crlf ++ §"m=video 9 UDP/TLS/RTP/SAVPF 102 112" ++ crlf ++ §"a=rtpmap:102 VP8/90000" ++ crlf in
  let answer := §"v=0" ++ crlf ++ §"m=video  0  UDP/TLS/RTP/SAVPF  0" ++ crlf ++ §"a=recvonly" ++ crlf in
  Contains answer crlf = true ∧
  ∃ result, normalizeAlexaRejectedVideoPayloads offer answer = Some result ∧
    normalizeAlexaRejectedVideoPayloads offer result = Some result.
Proof.
  intros offer answer. assert (Contains answer crlf = true) as Hc by reflexivity.
  split; [exact Hc|]. exact (normalizeVideo_idempotent offer answer Hc).
Defined.
