(* ===== verification/SdpAnswer.v ===== *)
(** * The offer check, the answer pipeline and the logged SDP metadata

    [validateOffer] is the gate of Server.NewSession; [normalizeAnswer] is the
    composition NewSession applies to the local description (video payloads,
    then mids, then rtcp-mux candidates); [extractICESDPLogMetadata] is what
    the log line reports.  All in internal/rtc/server.go. *)

From S2P Require Import Prelude GoString GoConv SdpText SdpMux SdpMid SdpVideo.

(** ** validateOffer *)

(** The part of pion's [sdp.SessionDescription] the check reads. *)
Record sdpAttribute := { Key : gostring; Value : gostring }.
Record mediaDescription := {
  Media : gostring;
  PortValue : Z;
  Formats : list gostring;
  Attributes : list sdpAttribute
}.

Inductive offerError :=
| ErrInvalidSDP
| ErrOpusRequired (audioSectionMissing : bool).

(** The attribute is an rtpmap of an offered format for opus/48000. *)
Definition opusAttribute (formats : list gostring) (attribute : sdpAttribute) : bool :=
  if negb (seqb (Key attribute) (§"rtpmap")) then false else
  match Fields (Value attribute) with
  | [f0; f1] =>
      if negb (existsb (seqb f0) formats) then false else
      match Split (ToLower f1) (§"/") with
      | name :: rate :: _ => seqb name (§"opus") && seqb rate (§"48000")
      | _ => false
      end
  | _ => false
  end.

(** The loop over the media descriptions; [true]: an Opus format was found. *)
Fixpoint offerLoop (medias : list mediaDescription) (foundAudio : bool) : bool * bool :=
  match medias with
  | [] => (false, foundAudio)
  | media :: rest =>
      if negb (seqb (Media media) (§"audio")) then offerLoop rest foundAudio
      else if (PortValue media =? 0)%Z then offerLoop rest true
      else if existsb (opusAttribute (Formats media)) (Attributes media) then (true, true)
      else offerLoop rest true
  end.

(** [Unmarshal] is pion's parser: [None] for an error. *)
Definition validateOffer (Unmarshal : gostring → option (list mediaDescription)) (raw : gostring) : result offerError unit :=
  match Unmarshal raw with
  | None => Err ErrInvalidSDP
  | Some medias =>
      let '(opus, foundAudio) := offerLoop medias false in
      if opus then Ok tt
      else if negb foundAudio then Err (ErrOpusRequired true) else Err (ErrOpusRequired false)
  end.

(** ** extractICESDPLogMetadata *)

Record iceSDPLogMetadata := {
  HasIceLite : bool;
  HasTrickle : bool;
  BundleMIDs : list gostring
}.

Fixpoint metadataLoop (lines : list gostring) (metadata : iceSDPLogMetadata) (bundleSeen : bool) : iceSDPLogMetadata :=
  match lines with
  | [] => metadata
  | line :: rest =>
      if isMedia line then metadata
      else if seqb line (§"a=ice-lite") then
        metadataLoop rest {| HasIceLite := true; HasTrickle := HasTrickle metadata; BundleMIDs := BundleMIDs metadata |} bundleSeen
      else if HasPrefix line (§"a=ice-options:") then
        let trickle := existsb (seqb (§"trickle")) (Fields (TrimPrefix line (§"a=ice-options:"))) in
        metadataLoop rest {| HasIceLite := HasIceLite metadata; HasTrickle := HasTrickle metadata || trickle;
                             BundleMIDs := BundleMIDs metadata |} bundleSeen
      else
        match Fields line with
        | f0 :: mids =>
            if negb bundleSeen && seqb f0 (§"a=group:BUNDLE") then
              metadataLoop rest {| HasIceLite := HasIceLite metadata; HasTrickle := HasTrickle metadata;
                                   BundleMIDs := BundleMIDs metadata ++ mids |} true
            else metadataLoop rest metadata bundleSeen
        | [] => metadataLoop rest metadata bundleSeen
        end
  end.

Definition extractICESDPLogMetadata (raw : gostring) : iceSDPLogMetadata :=
  metadataLoop (Split (ReplaceAll raw crlf lf) lf)
    {| HasIceLite := false; HasTrickle := false; BundleMIDs := [] |} false.

(** ** The pipeline of Server.NewSession *)

Definition normalizeAnswer (UnmarshalCandidate : gostring → bool) (offer answer : gostring) : option gostring :=
  match normalizeAlexaRejectedVideoPayloads offer answer with
  | Some videoNormalizedAnswer =>
      let midNormalizedAnswer := normalizeAlexaRejectedMediaMIDs offer videoNormalizedAnswer in
      Some (normalizeAlexaRTCPMuxCandidates UnmarshalCandidate midNormalizedAnswer)
  | None => None
  end.

(** ** Specifications *)

(** An audio section that is not disabled and offers Opus at 48 kHz. *)
Definition offersOpus (media : mediaDescription) : Prop :=
  Media media = §"audio" ∧ PortValue media ≠ 0%Z ∧
  ∃ attribute pt codec params, attribute ∈ Attributes media ∧ Key attribute = §"rtpmap" ∧
    Fields (Value attribute) = [pt; codec] ∧ pt ∈ Formats media ∧
    Split (ToLower codec) (§"/") = §"opus" :: §"48000" :: params.

(** The session-level lines of a text, split at LF after CRLF is read as LF. *)
Definition sessionLines (raw : gostring) : list gostring :=
  take_while notMedia (Split (ReplaceAll raw crlf lf) lf).

Definition trickleLine (line : gostring) : bool :=
  HasPrefix line (§"a=ice-options:") &&
  existsb (seqb (§"trickle")) (Fields (TrimPrefix line (§"a=ice-options:"))).

(** The mids of a BUNDLE group line. *)
Definition bundleLine (line : gostring) : option (list gostring) :=
  if seqb line (§"a=ice-lite") || HasPrefix line (§"a=ice-options:") then None else
  match Fields line with
  | f0 :: mids => if seqb f0 (§"a=group:BUNDLE") then Some mids else None
  | [] => None
  end.

Definition firstBundle (lines : list gostring) : list gostring := default [] (head (omap bundleLine lines)).

(** ** validateOffer *)

Lemma opusAttribute_true formats attribute :
  opusAttribute formats attribute = true ↔
  Key attribute = §"rtpmap" ∧ ∃ pt codec params, Fields (Value attribute) = [pt; codec] ∧ pt ∈ formats ∧
    Split (ToLower codec) (§"/") = §"opus" :: §"48000" :: params.
Proof.
  unfold opusAttribute. destruct (seqb (Key attribute) _) eqn:Ek; cbn [negb].
  2:{ apply seqb_neq in Ek. split; [done|]. by intros (?&_). }
  apply seqb_eq in Ek. destruct (Fields (Value attribute)) as [|f0 [|f1 [|f2 fs]]];
    try (split; [done|by intros (_&?&?&?&[= ]&_)]).
  destruct (existsb (seqb f0) formats) eqn:Ef; cbn [negb].
  2:{ split; [done|]. intros (_&?&?&?&[= <- <-]&Hin&_). apply existsb_seqb_elem in Hin. congruence. }
  apply existsb_seqb_elem in Ef. destruct (Split (ToLower f1) (§"/")) as [|name [|rate params]] eqn:Es;
    [split; [done|]; intros (_&?&?&?&[= <- <-]&_&Hs); congruence..|].
  rewrite andb_true_iff, !seqb_eq. split.
  - intros [-> ->]. split; [done|]. by exists f0, f1, params.
  - intros (_&?&?&?&[= <- <-]&_&Hs). rewrite Es in Hs. by injection Hs.
Qed.

Lemma offerLoop_spec medias found :
  ((offerLoop medias found).1 = true ↔ ∃ media, media ∈ medias ∧ offersOpus media) ∧
  ((offerLoop medias found).1 = false →
    ((offerLoop medias found).2 = true ↔ found = true ∨ ∃ media, media ∈ medias ∧ Media media = §"audio")).
Proof.
  assert (∀ media, Media media = §"audio" → PortValue media ≠ 0%Z →
    existsb (opusAttribute (Formats media)) (Attributes media) = true ↔ offersOpus media) as Hop.
  { intros media Ha Hp. rewrite existsb_elem. unfold offersOpus. setoid_rewrite opusAttribute_true. naive_solver. }
  revert found. induction medias as [|media medias IH]; intros found; cbn [offerLoop].
  { split; [split; [done|intros (?&?%elem_of_nil&_); done]|].
    intros _. cbn [snd]. split; [by left|]. intros [?|(?&?%elem_of_nil&_)]; done. }
  assert (∀ b, ¬ offersOpus media →
    (offerLoop medias b).1 = true ↔ ∃ m, m ∈ media :: medias ∧ offersOpus m) as Hno.
  { intros b Hn. rewrite (proj1 (IH b)). setoid_rewrite elem_of_cons. naive_solver. }
  destruct (seqb (Media media) (§"audio")) eqn:Ea; cbn [negb].
  - apply seqb_eq in Ea.
    assert ((∃ m, m ∈ media :: medias ∧ Media m = §"audio")) as Haud by (exists media; by split; [left|]).
    destruct (PortValue media =? 0)%Z eqn:Ep.
    + apply Z.eqb_eq in Ep. split; [apply Hno; by intros (_&?&_)|].
      intros H. rewrite (proj2 (IH true)) by done. naive_solver.
    + apply Z.eqb_neq in Ep. destruct (existsb _ (Attributes media)) eqn:Ee.
      * cbn [fst snd]. split; [|done]. split; [|done]. intros _. exists media. split; [by left|]. by apply Hop.
      * split; [apply Hno; intros Ho; apply Hop in Ho; [congruence|done..]|].
        intros H. rewrite (proj2 (IH true)) by done. naive_solver.
  - apply seqb_neq in Ea. split; [apply Hno; by intros (?&_)|].
    intros H. rewrite (proj2 (IH found)) by done. setoid_rewrite elem_of_cons. naive_solver.
Qed.

(** C17. [validateOffer] accepts an offer exactly when it parses and some audio
    section with a non-zero port maps one of its own formats to opus/48000
    (in any letter case, whatever follows the rate); it reports invalid SDP
    exactly when parsing fails, and otherwise Opus as required, saying whether
    the offer has an audio section at all. *)
Theorem validateOffer_spec (Unmarshal : gostring → option (list mediaDescription)) (raw : gostring) :
  match Unmarshal raw with
  | None => validateOffer Unmarshal raw = Err ErrInvalidSDP
  | Some medias =>
      (validateOffer Unmarshal raw = Ok tt ↔ ∃ media, media ∈ medias ∧ offersOpus media) ∧
      (validateOffer Unmarshal raw = Err (ErrOpusRequired true) ↔
        ¬ ∃ media, media ∈ medias ∧ Media media = §"audio") ∧
      (validateOffer Unmarshal raw = Err (ErrOpusRequired false) ↔
        (∃ media, media ∈ medias ∧ Media media = §"audio") ∧ ¬ ∃ media, media ∈ medias ∧ offersOpus media)
  end.
Proof.
  unfold validateOffer. destruct (Unmarshal raw) as [medias|]; [|done].
  destruct (offerLoop_spec medias false) as [H1 H2].
  destruct (offerLoop medias false) as [opus found]. cbn [fst snd] in *.
  assert ((∃ media, media ∈ medias ∧ offersOpus media) → ∃ media, media ∈ medias ∧ Media media = §"audio") as Himp
    by (intros (m&Hm&Ha&_); by exists m).
  destruct opus.
  - split; [by rewrite <- H1|]. split; split; try done; [intros Hn; destruct Hn; apply Himp; by apply H1|].
    intros [_ Hn]. destruct Hn. by apply H1.
  - assert (¬ ∃ media, media ∈ medias ∧ offersOpus media) as Hn by (rewrite <- H1; done).
    specialize (H2 eq_refl).
    assert (found = true ↔ ∃ media, media ∈ medias ∧ Media media = §"audio") as H3.
    { rewrite H2. split; [intros [?|?]; done|by right]. }
    destruct found; cbn [negb]; (split; [by split|]); split; split; try done; tauto.
Qed.

(** ** extractICESDPLogMetadata *)

Lemma firstBundle_cons line lines :
  firstBundle (line :: lines) = match bundleLine line with Some mids => mids | None => firstBundle lines end.
Proof.
  unfold firstBundle. change (omap bundleLine (line :: lines)) with
    (match bundleLine line with Some m => m :: omap bundleLine lines | None => omap bundleLine lines end).
  by destruct (bundleLine line).
Qed.

Lemma firstBundle_nil : firstBundle [] = [].
Proof. done. Qed.

Lemma metadataLoop_spec lines md seen :
  metadataLoop lines md seen =
  {| HasIceLite := HasIceLite md || existsb (λ l, seqb l (§"a=ice-lite")) (take_while notMedia lines);
     HasTrickle := HasTrickle md || existsb trickleLine (take_while notMedia lines);
     BundleMIDs := BundleMIDs md ++ (if seen then [] else firstBundle (take_while notMedia lines)) |}.
Proof.
  revert md seen. induction lines as [|line rest IH]; intros md seen; cbn [metadataLoop take_while].
  { cbn [existsb]. rewrite firstBundle_nil. destruct md as [a b c], seen; simpl; by rewrite !orb_false_r, app_nil_r. }
  assert (notMedia line = negb (isMedia line)) as -> by done. destruct (isMedia line); cbn [negb].
  { cbn [existsb]. rewrite firstBundle_nil. destruct md as [a b c], seen; simpl; by rewrite !orb_false_r, app_nil_r. }
  cbn [existsb]. rewrite firstBundle_cons. unfold bundleLine at 1, trickleLine at 1.
  destruct (seqb line (§"a=ice-lite")) eqn:E1.
  { apply seqb_eq in E1 as ->. rewrite IH. cbn [HasIceLite HasTrickle BundleMIDs orb andb].
    rewrite orb_true_r. done. }
  destruct (HasPrefix line (§"a=ice-options:")) eqn:E2; cbn [orb andb].
  { rewrite IH. cbn [HasIceLite HasTrickle BundleMIDs]. by rewrite orb_assoc. }
  destruct (Fields line) as [|f0 mids]; [by rewrite IH|].
  destruct seen; cbn [negb andb]; [by rewrite IH|].
  destruct (seqb f0 (§"a=group:BUNDLE")); rewrite IH; cbn [HasIceLite HasTrickle BundleMIDs]; [|done].
  by rewrite app_nil_r.
Qed.

(** The log metadata is read off the session-level lines only: ice-lite and
    the trickle option if some line has them, and the mids of the first BUNDLE
    group, in order. *)
Theorem extractICESDPLogMetadata_spec (raw : gostring) :
  extractICESDPLogMetadata raw =
  {| HasIceLite := existsb (λ l, seqb l (§"a=ice-lite")) (sessionLines raw);
     HasTrickle := existsb trickleLine (sessionLines raw);
     BundleMIDs := firstBundle (sessionLines raw) |}.
Proof. unfold extractICESDPLogMetadata. by rewrite metadataLoop_spec. Qed.

(** ** The pipeline *)

(** What a media line being active audio, or video, means for its first words. *)
Lemma Fields_video t : ∃ rest, Fields (§"m=video " ++ t) = §"m=video" :: rest.
Proof.
  unfold Fields, runes. rewrite length_app. change (length (§"m=video ")) with 8.
  exists (fields_go (runes_fuel (length t) t) []). reflexivity.
Qed.

Lemma video_not_activeAudio line : HasPrefix line (§"m=video ") = true → activeAudioLine line = false.
Proof.
  intros (t&->)%HasPrefix_true. unfold activeAudioLine. destruct (Fields_video t) as (rest&->).
  destruct rest; [done|]. by rewrite (proj2 (seqb_neq _ _)).
Qed.

Lemma alexaMediaLineFields_Fields line fields : alexaMediaLineFields line = Some fields → fields = Fields line.
Proof.
  unfold alexaMediaLineFields. intros H.
  destruct (Fields line) as [|f0 [|f1 [|f2 [|f3 fs]]]]; try done.
  repeat case_match; simplify_eq; done.
Qed.

Lemma activeAudio_not_rejected os i m body : activeAudioLine m = true → ¬ rejectedWithoutMid os i (m :: body).
Proof.
  intros Ha (m'&body'&o&fields&Heq&_&Hf&H0&_). simplify_eq.
  apply alexaMediaLineFields_Fields in Hf as ->. unfold activeAudioLine in Ha.
  destruct (Fields m') as [|f0 [|f1 fs]]; try done. unfold field in H0. simpl in H0. subst f1.
  by rewrite andb_false_r in Ha.
Qed.

Section Pipeline.
Variable UnmarshalCandidate : gostring → bool.

(** What the pipeline makes of section [i]. *)
Definition answerSection (isLast : bool) (o : alexaOfferedVideoPayload) (os : list alexaOfferMediaSection)
    (i : nat) (sec : list gostring) : list gostring :=
  muxSection UnmarshalCandidate
    (midSection os i (if isVideo sec then videoSection isLast o sec else sec)).

Fixpoint answerSections (vs : list alexaOfferedVideoPayload) (os : list alexaOfferMediaSection)
    (videoIndex i : nat) (secs : list (list gostring)) : list (list gostring) :=
  match secs with
  | [] => []
  | sec :: rest =>
      answerSection (match rest with [] => true | _ => false end) (default noVideoPayload (vs !! videoIndex)) os i sec
      :: answerSections vs os (if isVideo sec then S videoIndex else videoIndex) (S i) rest
  end.

Lemma answerSections_compose vs os vi i secs :
  map (muxSection UnmarshalCandidate) (midSections os i (videoSections vs vi secs)) =
  answerSections vs os vi i secs.
Proof.
  revert vi i; induction secs as [|sec secs IH]; intros vi i; [done|].
  cbn [videoSections answerSections]. unfold answerSection.
  destruct (isVideo sec); cbn [midSections map]; by rewrite IH.
Qed.

Lemma midSection_isVideo os i sec : isVideo (midSection os i sec) = isVideo sec.
Proof. destruct (midSection_cases os i sec) as [->|(m&body&o&k&->&_&_&->)]; done. Qed.

Lemma muxSection_isVideo sec : isVideo (muxSection UnmarshalCandidate sec) = isVideo sec.
Proof. unfold muxSection. destruct sec; by case_match. Qed.

Lemma answerSection_isVideo isLast o os i sec : isVideo (answerSection isLast o os i sec) = isVideo sec.
Proof.
  unfold answerSection. rewrite muxSection_isVideo, midSection_isVideo.
  destruct (isVideo sec) eqn:E; [by rewrite videoSection_isVideo|done].
Qed.

Lemma video_not_eligible sec : isVideo sec = true → muxEligible sec = false.
Proof. destruct sec as [|m body]; [done|]. simpl. intros H. by rewrite video_not_activeAudio. Qed.

(** Inserting a line that is no direction keeps an edited body edited. *)
Lemma editedBody_insert isLast o k x body :
  offered_ok o → isOtherDirection x = false →
  editedBody isLast o (insert_at k x (editedBody isLast o body)) = insert_at k x (editedBody isLast o body).
Proof.
  intros Ho Hx. unfold editedBody at 1.
  assert (∀ (p : gostring → bool) l, existsb p l = true → existsb p (insert_at k x l) = true) as Hex.
  { intros p l (y&Hy&Hp)%existsb_elem. apply existsb_elem. exists y. rewrite elem_of_insert_at. tauto. }
  rewrite withRtpmap_fixed.
  - apply withInactive_fixed; [apply Hex, withInactive_directions|].
    apply forallb_insert_at; [by rewrite Hx|apply withInactive_directions].
  - destruct (decide (rtpmap o = [])); [by left|right]. apply Hex. by apply withInactive_has, withRtpmap_has.
Qed.

Lemma mid_not_direction t : isOtherDirection (§"a=mid:" ++ t) = false.
Proof. unfold isOtherDirection. rewrite !orb_false_iff, !seqb_neq. split_and!; discriminate. Qed.

(** The video edit does nothing on what the other two steps leave. *)
Lemma videoSection_after_mid isLast o os i sec :
  offered_ok o →
  videoSection isLast o (midSection os i (videoSection isLast o sec)) = midSection os i (videoSection isLast o sec).
Proof.
  intros Ho. destruct (midSection_cases os i (videoSection isLast o sec)) as [->|(m1&b1&om&k&Hv&_&_&->)].
  { by apply videoSection_idem. }
  destruct (videoSection_cases isLast o sec) as [Heq|(m&m'&body&->&E&Heq)].
  - rewrite Heq in Hv. subst sec. simpl in *.
    destruct (normalizeAlexaRejectedVideoMLine m1 (payload o)) as [m'' []] eqn:E; [|done].
    destruct (MLine_nonempty _ _ _ E) as [_ Hp]. injection Heq as Hm Hb. subst m''. f_equal.
    pose proof (editedBody_insert isLast o k (§"a=mid:" ++ mid om) b1 Ho (mid_not_direction _)) as H.
    change (editedBody isLast o b1 = b1) in Hb. rewrite Hb in H. exact H.
  - rewrite Heq in Hv. injection Hv as <- <-. simpl. destruct (MLine_nonempty _ _ _ E) as [_ Hp].
    pose proof (MLine_idem _ _ _ (proj2 Ho Hp) E) as Hid.
    destruct (normalizeAlexaRejectedVideoMLine m' (payload o)) as [m'' []]; simpl in Hid; subst; [|done].
    f_equal. by apply editedBody_insert, mid_not_direction.
Qed.

Lemma answerSection_idem isLast o os i sec :
  offered_ok o →
  answerSection isLast o os i (answerSection isLast o os i sec) = answerSection isLast o os i sec.
Proof.
  intros Ho. unfold answerSection at 1. rewrite answerSection_isVideo. unfold answerSection.
  set (s := if isVideo sec then videoSection isLast o sec else sec).
  destruct (muxEligible (midSection os i s)) eqn:Ee.
  - assert (isVideo sec = false) as Hv.
    { destruct (isVideo sec) eqn:E; [|done]. rewrite video_not_eligible in Ee; [done|].
      rewrite midSection_isVideo. subst s. by rewrite videoSection_isVideo. }
    subst s. rewrite Hv in *.
    rewrite midSection_other; [apply muxSection_idem|].
    assert (muxEligible (muxSection UnmarshalCandidate (midSection os i sec)) = true) as Ee'
      by (by rewrite muxSection_eligible).
    destruct (muxSection UnmarshalCandidate (midSection os i sec)) as [|m body]; [done|].
    simpl in Ee'. apply andb_true_iff in Ee' as [Ha _]. by apply activeAudio_not_rejected.
  - assert (muxSection UnmarshalCandidate (midSection os i s) = midSection os i s) as Hmux
      by (unfold muxSection; by rewrite Ee). rewrite !Hmux.
    assert ((if isVideo sec then videoSection isLast o (midSection os i s) else midSection os i s) =
      midSection os i s) as ->.
    { subst s. destruct (isVideo sec); [|done]. by apply videoSection_after_mid. }
    by rewrite midSection_idem.
Qed.
Lemma answerSections_length vs os vi i secs : length (answerSections vs os vi i secs) = length secs.
Proof. revert vi i; induction secs as [|sec secs IH]; intros vi i; [done|]. simpl. by rewrite IH. Qed.

Lemma answerSections_idem vs os vi i secs :
  Forall offered_ok vs →
  answerSections vs os vi i (answerSections vs os vi i secs) = answerSections vs os vi i secs.
Proof.
  intros Hvs. revert vi i. induction secs as [|sec secs IH]; intros vi i; [done|].
  cbn [answerSections]. rewrite answerSection_isVideo, IH. f_equal.
  assert (match answerSections vs os (if isVideo sec then S vi else vi) (S i) secs with [] => true | _ => false end =
    match secs with [] => true | _ => false end) as -> by (by destruct secs).
  by apply answerSection_idem, offered_default_ok.
Qed.

Lemma normalizeAnswer_sectionsOf offer answer :
  Contains answer crlf = true →
  ∃ result, normalizeAnswer UnmarshalCandidate offer answer = Some result ∧
    Contains result crlf = true ∧
    sectionsOf (linesOf result) = ((sectionsOf (linesOf answer)).1,
      answerSections (alexaOfferedVideoPayloads offer) (alexaOfferMediaSections offer) 0 0
        (sectionsOf (linesOf answer)).2).
Proof.
  intros Hc. destruct (normalizeVideo_sectionsOf offer answer Hc) as (v&Hv&Hvc&Hvs).
  unfold normalizeAnswer. rewrite Hv. eexists. split; [done|].
  destruct (normalizeMid_sectionsOf offer v Hvc) as [Hmsep Hms].
  destruct (normalizeMux_linesOf UnmarshalCandidate (normalizeAlexaRejectedMediaMIDs offer v)) as [_ Hsep].
  split.
  - rewrite Hmsep in Hsep. unfold lineSeparatorOf in Hsep. by case_match.
  - rewrite normalizeMux_sectionsOf, Hms, Hvs. cbn [fst snd]. by rewrite answerSections_compose.
Qed.

(** What the pipeline leaves of section [i]: the three edits, one after the other. *)
Lemma answerSections_section offer secs i sec :
  secs !! i = Some sec →
  answerSections (alexaOfferedVideoPayloads offer) (alexaOfferMediaSections offer) 0 0 secs !! i =
  Some (muxSection UnmarshalCandidate (midSection (alexaOfferMediaSections offer) i
    (if isVideo sec then videoSection (S i =? length secs) (offeredAt offer (videoIndexOf secs i)) sec else sec))).
Proof.
  intros Hi. rewrite <- answerSections_compose, list_lookup_fmap, midSections_lookup, (videoSections_lookup _ _ _ _ _ Hi).
  by destruct (isVideo sec).
Qed.

Lemma video_not_active m body : HasPrefix m §"m=video " = true → ¬ activeMux (m :: body).
Proof.
  intros Hv Ha%(activeMux_eligible (m :: body)). rewrite (video_not_eligible (m :: body)) in Ha; done.
Qed.

(** A section whose video is not rejected: its media line and every line but
    candidates of component 2 are left. *)
Lemma mux_keeps m before x body :
  ∃ body', muxSection UnmarshalCandidate (m :: before ++ x ++ body) = m :: body' ∧
    filter (λ l, ¬ component2 UnmarshalCandidate l) (before ++ body) `sublist_of` body' ∧
    (¬ activeMux (m :: before ++ x ++ body) → body' = before ++ x ++ body).
Proof.
  destruct (decide (muxEligible (m :: before ++ x ++ body) = true)) as [He|He]; rewrite <- activeMux_iff in He.
  - rewrite muxSection_active by done. eexists. split; [done|]. split; [|done].
    rewrite !filter_app. apply sublist_app; [done|]. by apply sublist_inserts_l.
  - rewrite muxSection_inactive by done. eexists. split; [done|]. split; [|done].
    etrans; [apply sublist_filter|]. apply sublist_app; [done|]. by apply sublist_inserts_l.
Qed.

Lemma mux_mid_keeps offer i m body :
  ∃ body', muxSection UnmarshalCandidate (midSection (alexaOfferMediaSections offer) i (m :: body)) = m :: body' ∧
    filter (λ l, ¬ component2 UnmarshalCandidate l) body `sublist_of` body' ∧
    ((∀ value, ¬ lostMid offer i (m :: body) value) → ¬ activeMux (m :: body) → body' = body).
Proof.
  destruct (midSection_lost_cases offer i (m :: body)) as [->|(value&m1&before&after&Hl&[= <- ->]&_&->)].
  - destruct (mux_keeps m [] [] body) as (body'&?&?&?). by exists body'.
  - destruct (mux_keeps m before [§"a=mid:" ++ value] after) as (body'&Heq&?&_). exists body'. split_and!; [done..|].
    intros Hn. by destruct (Hn value).
Qed.

(** A video section only gains a mid. *)
Lemma mux_mid_video offer i m body :
  HasPrefix m §"m=video " = true →
  ∃ body', muxSection UnmarshalCandidate (midSection (alexaOfferMediaSections offer) i (m :: body)) = m :: body' ∧
    (body' = body ∨ ∃ value before after, lostMid offer i (m :: body) value ∧ body = before ++ after ∧
       attributeStart before after ∧ body' = before ++ (§"a=mid:" ++ value) :: after).
Proof.
  intros Hv. destruct (midSection_lost_cases offer i (m :: body)) as [->|(value&m1&before&after&Hl&[= <- ->]&Hat&->)];
    rewrite muxSection_inactive by (by apply video_not_active).
  - exists body. split; [done|by left].
  - eexists. split; [done|]. right. by exists value, before, after.
Qed.

(** C29. The composition NewSession applies to a CRLF local description always
    succeeds, keeps the line separator, the session part and the number and
    order of the media sections, and each section is still the section it was:
    - a rejected video section, rewritten as the video normalizer does, stays
      [m=video 0] with its protocol; after that it can only gain its mid line;
    - any other section, video or not, keeps its media line and all its lines,
      in order, other than parsable candidates of component 2;
    - and it comes out line for line unless it lost its mid or is active audio
      with rtcp-mux. *)
Theorem normalizeAnswer_preserves_structure (offer answer : gostring) :
  Contains answer crlf = true →
  ∃ result, normalizeAnswer UnmarshalCandidate offer answer = Some result ∧
  let secs := (sectionsOf (linesOf answer)).2 in
  let secs' := (sectionsOf (linesOf result)).2 in
  lineSeparatorOf result = crlf ∧
  (sectionsOf (linesOf result)).1 = (sectionsOf (linesOf answer)).1 ∧
  length secs' = length secs ∧
  ∀ i m body, secs !! i = Some (m :: body) →
    ∃ m' body', secs' !! i = Some (m' :: body') ∧
    (∀ proto payload offered, rejectedVideo offer (videoIndexOf secs i) m proto payload offered →
      HasPrefix m' §"m=video " = true ∧ lineWords m' = [§"m=video"; §"0"; proto; payload] ∧
      ∃ rewritten, rewrittenBody (S i = length secs) payload offered body rewritten ∧
        (body' = rewritten ∨
         ∃ value before after, lostMid offer i (m' :: rewritten) value ∧ rewritten = before ++ after ∧
           attributeStart before after ∧ body' = before ++ (§"a=mid:" ++ value) :: after)) ∧
    ((∀ proto payload offered, ¬ rejectedVideo offer (videoIndexOf secs i) m proto payload offered) →
      m' = m ∧ filter (λ l, ¬ component2 UnmarshalCandidate l) body `sublist_of` body' ∧
      ((∀ value, ¬ lostMid offer i (m :: body) value) → ¬ activeMux (m :: body) → body' = body)).
Proof.
  intros Hc. destruct (normalizeAnswer_sectionsOf offer answer Hc) as (result&Hr&Hcr&Hs).
  exists result. split; [done|]. rewrite Hs. cbn [fst snd].
  split; [unfold lineSeparatorOf; by rewrite Hcr|]. split; [done|]. split; [apply answerSections_length|]. intros i m body Hi.
  rewrite (answerSections_section _ _ _ _ Hi). cbn [isVideo]. set (n := videoIndexOf _ i).
  destruct (rejectedVideo_cases offer n m) as [(proto&payload&offered&Hrej)|Hn].
  - destruct (videoSection_rejected _ _ _ _ _ body _ _ _ (Nat.eqb_eq (S i) (length (sectionsOf (linesOf answer)).2)) Hrej)
      as (m'&rewritten&Heq&Hv'&Hw&Hbody). rewrite (proj1 (proj1 Hrej)), Heq.
    destruct (mux_mid_video offer i m' rewritten Hv') as (body'&->&Hcases). exists m', body'. split; [done|]. split.
    + intros proto' payload' offered' Hrej'. destruct (rejectedVideo_inj _ _ _ _ _ _ _ _ _ Hrej Hrej') as (<-&<-&<-).
      split; [done|]. split; [done|]. by exists rewritten.
    + intros Hn. by destruct (Hn _ _ _ Hrej).
  - assert ((if HasPrefix m §"m=video " then videoSection (S i =? length (sectionsOf (linesOf answer)).2) (offeredAt offer n) (m :: body)
             else m :: body) = m :: body) as ->.
    { destruct (HasPrefix m §"m=video ") eqn:Hv; [|done]. by apply videoSection_accepted. }
    destruct (mux_mid_keeps offer i m body) as (body'&->&?&?). exists m, body'. split; [done|]. split; [|done].
    intros ??? Hrej. by destruct (Hn _ _ _ Hrej).
Qed.

(** C30. On an answer with CRLF line endings the whole pipeline is idempotent: a
    normalized answer is left alone.  ([normalizeAnswer_lf_twice] below shows
    that LF answers are excepted.) *)
Theorem normalizeAnswer_idempotent (offer answer : gostring) :
  Contains answer crlf = true →
  ∃ result, normalizeAnswer UnmarshalCandidate offer answer = Some result ∧
    normalizeAnswer UnmarshalCandidate offer result = Some result.
Proof.
  intros Hc. destruct (normalizeAnswer_sectionsOf offer answer Hc) as (result&Hr&Hrc&Hs).
  exists result. split; [done|].
  destruct (normalizeAnswer_sectionsOf offer result Hrc) as (result'&Hr'&Hrc'&Hs').
  rewrite Hr'. f_equal. rewrite Hs in Hs'. cbn [fst snd] in Hs'.
  rewrite answerSections_idem in Hs' by apply alexaOfferedVideoPayloads_ok.
  rewrite <- (Join_linesOf result), <- (Join_linesOf result').
  rewrite <- (sectionsOf_concat (linesOf result)), <- (sectionsOf_concat (linesOf result')), Hs, Hs'.
  unfold lineSeparatorOf. by rewrite Hrc, Hrc'.
Qed.

End Pipeline.

Lemma normalizeAnswer_preserves_structure_witness :
  let offer := §"v=0" ++ crlf ++ §"m=audio 9 UDP/TLS/RTP/SAVPF 111" ++ crlf ++ §"a=mid:0" ++ crlf in
  let answer := §"v=0" ++ crlf ++ §"m=audio 0 UDP/TLS/RTP/SAVPF 111" ++ crlf ++ §"a=inactive" ++ crlf in
  Contains answer crlf = true ∧
  ∃ result, normalizeAnswer (λ _, true) offer answer = Some result ∧
    length (sectionsOf (linesOf result)).2 = length (sectionsOf (linesOf answer)).2.
Proof.
  intros offer answer. assert (Contains answer crlf = true) as Hc by reflexivity. split; [exact Hc|].
  destruct (normalizeAnswer_preserves_structure (λ _, true) offer answer Hc) as (result&Hr&_&_&Hl&_).
  exists result. split; [exact Hr|exact Hl].
Defined.

Lemma normalizeAnswer_idempotent_witness :
  let offer := §"v=0" ++ crlf ++ §"m=audio 9 UDP/TLS/RTP/SAVPF 111" ++ crlf ++ §"a=mid:0" ++ crlf in
  let answer := §"v=0" ++ crlf ++ §"m=audio 0 UDP/TLS/RTP/SAVPF 111" ++ crlf ++ §"a=inactive" ++ crlf in
  Contains answer crlf = true ∧
  ∃ result, normalizeAnswer (λ _, true) offer answer = Some result ∧
    normalizeAnswer (λ _, true) offer result = Some result.
Proof.
  intros offer answer. assert (Contains answer crlf = true) as Hc by reflexivity. split; [exact Hc|].
  exact (normalizeAnswer_idempotent (λ _, true) offer answer Hc).
Defined.

(** An LF answer and an offer whose last line is a mid that ends in a CR: the
    inserted line makes a CRLF, and the answer is split otherwise from then on. *)
Example normalizeAnswer_lf_twice :
  let offer := §"v=0" ++ lf ++ §"m=audio 9 RTP 0" ++ lf ++ §"a=mid:1" ++ [CR] in
  let answer := §"m=audio 0 RTP 0" ++ lf ++ §"a=inactive" ++ lf in
  let once := §"m=audio 0 RTP 0" ++ lf ++ §"a=mid:1" ++ crlf ++ §"a=inactive" ++ lf in
  normalizeAnswer (λ _, true) offer answer = Some once ∧ normalizeAnswer (λ _, true) offer once ≠ Some once.
Proof. split; [reflexivity|]. vm_compute. discriminate. Qed.
