(* ===== verification/Path.v ===== *)
(** * Package path/filepath on a slash-separated system

    [Clean], [Join], [Rel] and [IsAbs] as the recorder calls them, lexically,
    on byte strings.  A cleaned absolute path is its list of elements; the
    laws say that cleaning yields proper elements and that [Rel] goes up
    exactly for what is not below the base. *)

From S2P Require Import Prelude GoString.

Definition slash : gostring := §"/".
Definition IsAbs (path : gostring) : bool := HasPrefix path slash.

(** The elements of a path after lexical processing; [acc] holds the kept ones
    in reverse.  [..] removes the last kept element unless that is itself a
    [..]; a rooted path has nothing above its root. *)
Fixpoint cleanElems (rooted : bool) (acc elems : list gostring) : list gostring :=
  match elems with
  | [] => rev acc
  | e :: r =>
      if seqb e [] || seqb e §"." then cleanElems rooted acc r
      else if seqb e §".." then
        match acc with
        | top :: acc' =>
            if seqb top §".." then cleanElems rooted (e :: acc) r else cleanElems rooted acc' r
        | [] => if rooted then cleanElems rooted [] r else cleanElems rooted [e] r
        end
      else cleanElems rooted (e :: acc) r
  end.

Definition pathElems (path : gostring) : list gostring := cleanElems (IsAbs path) [] (Split path slash).

Definition Clean (path : gostring) : gostring :=
  if IsAbs path then slash ++ Join (pathElems path) slash
  else match pathElems path with [] => §"." | l => Join l slash end.

(** filepath.Join(dir, name) for two non-empty arguments. *)
Definition JoinPath (dir name : gostring) : gostring := Clean (dir ++ slash ++ name).

(** The elements [Rel] walks over: the root of an absolute path is an empty one. *)
Definition relElems (cleaned : gostring) : list gostring :=
  if seqb cleaned [] then [] else if seqb cleaned slash then [[]] else Split cleaned slash.

Fixpoint dropCommon (b t : list gostring) : list gostring * list gostring :=
  match b, t with
  | x :: b', y :: t' => if seqb x y then dropCommon b' t' else (b, t)
  | _, _ => (b, t)
  end.

(** filepath.Rel; [None] is its error. *)
Definition Rel (basepath targpath : gostring) : option gostring :=
  let base := Clean basepath in
  let targ := Clean targpath in
  if seqb targ base then Some §"." else
  let base := if seqb base §"." then [] else base in
  if negb (Bool.eqb (IsAbs base) (IsAbs targ)) then None else
  let '(b, t) := dropCommon (relElems base) (relElems targ) in
  match b, t with
  | [], _ => Some (Join t slash)
  | e :: _, _ :: _ => if seqb e §".." then None else Some (Join (replicate (length b) §".." ++ t) slash)
  | _, [] => Some (Join (replicate (length b) §"..") slash)
  end.

(** ** Laws *)

(** A name between two slashes of a cleaned absolute path. *)
Definition elem_ok (e : gostring) : Prop :=
  e ≠ [] ∧ e ≠ §"." ∧ e ≠ §".." ∧ Contains e slash = false.

Lemma slash_no_overlap : no_overlap slash.
Proof. apply byte_no_overlap. Qed.

Lemma Split_slash_ok path : Forall (λ x, Contains x slash = false) (Split path slash).
Proof. by apply Split_no_sep. Qed.

Lemma cleanElems_ok acc elems :
  Forall elem_ok acc → Forall (λ x, Contains x slash = false) elems →
  Forall elem_ok (cleanElems true acc elems).
Proof.
  intros Ha He. revert acc Ha. induction He as [|e r Hc He IH]; intros acc Ha; simpl.
  { by apply Forall_rev. }
  destruct (seqb e []) eqn:E0; [by apply IH|]. destruct (seqb e §".") eqn:E1; [by apply IH|].
  apply seqb_neq in E0, E1. simpl. destruct (seqb e §"..") eqn:E2.
  - destruct acc as [|top acc]; [by apply IH|]. inversion_clear Ha as [|?? (_&_&Ht&_) ?].
    rewrite (proj2 (seqb_neq _ _) Ht). by apply IH.
  - apply seqb_neq in E2. apply IH. by constructor.
Qed.

Lemma pathElems_ok path : IsAbs path = true → Forall elem_ok (pathElems path).
Proof. unfold pathElems. intros ->. apply cleanElems_ok; [done|apply Split_slash_ok]. Qed.

(** Proper elements are kept as they are. *)
Lemma cleanElems_app rooted acc l r :
  Forall elem_ok l → cleanElems rooted acc (l ++ r) = cleanElems rooted (rev l ++ acc) r.
Proof.
  intros Hl. revert acc. induction Hl as [|e l (H0&H1&H2&_) Hl IH]; intros acc; [done|]. cbn [app cleanElems rev].
  rewrite (proj2 (seqb_neq _ _) H0), (proj2 (seqb_neq _ _) H1), (proj2 (seqb_neq _ _) H2). simpl.
  by rewrite IH, <- app_assoc.
Qed.

Lemma cleanElems_all rooted l : Forall elem_ok l → cleanElems rooted [] l = l.
Proof.
  intros Hl. pose proof (cleanElems_app rooted [] l [] Hl) as H. rewrite app_nil_r in H. rewrite H.
  cbn [cleanElems]. by rewrite app_nil_r, rev_involutive.
Qed.

Definition absPath (l : list gostring) : gostring := slash ++ Join l slash.

Lemma IsAbs_absPath l : IsAbs (absPath l) = true.
Proof. apply HasPrefix_app. Qed.

Lemma Split_absPath l : l ≠ [] → Forall elem_ok l → Split (absPath l) slash = [] :: l.
Proof.
  intros Hne Hl. unfold absPath. change (slash ++ Join l slash) with ([] ++ slash ++ Join l slash).
  rewrite <- (Join_cons [] l slash) by done. apply Split_Join; [apply slash_no_overlap|done|].
  constructor; [done|]. eapply Forall_impl; [exact Hl|]. by intros e (_&_&_&?).
Qed.

Lemma pathElems_absPath l : Forall elem_ok l → pathElems (absPath l) = l.
Proof.
  intros Hl. unfold pathElems. rewrite IsAbs_absPath. destruct l as [|e l]; [done|].
  rewrite Split_absPath by done.
  change (cleanElems true [] ([] :: e :: l)) with (cleanElems true [] (e :: l)).
  by apply cleanElems_all.
Qed.

Lemma Clean_abs path : IsAbs path = true → Clean path = absPath (pathElems path).
Proof. unfold Clean. by intros ->. Qed.

Lemma Clean_absPath l : Forall elem_ok l → Clean (absPath l) = absPath l.
Proof. intros H. by rewrite Clean_abs, pathElems_absPath by apply IsAbs_absPath || done. Qed.

Lemma absPath_inj l k : Forall elem_ok l → Forall elem_ok k → absPath l = absPath k → l = k.
Proof. intros Hl Hk H. by rewrite <- (pathElems_absPath l), <- (pathElems_absPath k), H. Qed.

Lemma cleanElems_snoc rooted acc l name :
  elem_ok name → cleanElems rooted acc (l ++ [name]) = cleanElems rooted acc l ++ [name].
Proof.
  intros (H0&H1&H2&_). revert acc; induction l as [|e l IH]; intros acc; cbn [app cleanElems].
  - by rewrite (proj2 (seqb_neq _ _) H0), (proj2 (seqb_neq _ _) H1), (proj2 (seqb_neq _ _) H2).
  - repeat case_match; apply IH.
Qed.

(** Joining a proper name to an absolute directory appends one element. *)
Lemma JoinPath_abs dir name :
  IsAbs dir = true → elem_ok name → JoinPath dir name = absPath (pathElems dir ++ [name]).
Proof.
  intros Hd Hn. unfold JoinPath.
  assert (IsAbs (dir ++ slash ++ name) = true) as Ha by (by apply HasPrefix_mono).
  rewrite Clean_abs by done. f_equal. unfold pathElems. rewrite Ha, Hd.
  assert (Split (dir ++ slash ++ name) slash = Split dir slash ++ [name]) as ->.
  { assert (dir ++ slash ++ name = Join (Split dir slash ++ [name]) slash) as ->.
    { rewrite <- (Join_Split dir slash) at 1 by done.
      pose proof (Split_nonempty dir slash) as Hne. revert Hne. generalize (Split dir slash).
      intros l; induction l as [|x [|y l] IH]; intros Hne; [done|done|].
      specialize (IH ltac:(done)). cbn [app] in *. rewrite !(Join_cons x) by done. rewrite <- IH.
      by rewrite <- !app_assoc. }
    apply Split_Join; [apply slash_no_overlap|by destruct (Split dir slash)|].
    apply Forall_app; split; [apply Split_slash_ok|]. constructor; [apply Hn|done]. }
  by apply cleanElems_snoc.
Qed.

(** ** Rel between absolute paths *)

Lemma dropCommon_app b t :
  let '(b', t') := dropCommon b t in
  ∃ p, b = p ++ b' ∧ t = p ++ t' ∧ (b' = [] → b `prefix_of` t) ∧ (b' ≠ [] → ¬ b `prefix_of` t).
Proof.
  revert t; induction b as [|x b IH]; intros t; simpl.
  - exists []. split_and!; try done. intros _. apply prefix_nil.
  - destruct t as [|y t]; [exists []; split_and!; try done; intros _; apply prefix_nil_not|].
    destruct (seqb x y) eqn:E.
    + apply seqb_eq in E as <-. specialize (IH t). destruct (dropCommon b t) as [b' t'].
      destruct IH as (p&->&->&H1&H2). exists (x :: p). split_and!; try done.
      * intros H. by apply prefix_cons, H1.
      * intros Hb Hp%prefix_cons_inv_2. by apply H2.
    + apply seqb_neq in E. exists []. split_and!; try done. intros _ Hp%prefix_cons_inv_1. done.
Qed.

Lemma relElems_absPath l : Forall elem_ok l → relElems (absPath l) = [] :: l.
Proof.
  intros Hl. unfold relElems. destruct l as [|e l]; [done|].
  rewrite (proj2 (seqb_neq _ _)) by done. rewrite (proj2 (seqb_neq _ _)).
  - by rewrite Split_absPath.
  - intros H. change (absPath (e :: l) = absPath []) in H. by apply absPath_inj in H.
Qed.

Definition goesUp (rel : gostring) : bool := seqb rel §".." || HasPrefix rel §"../".

(** Between absolute paths [Rel] never fails; it goes up exactly when the base's
    elements are not a prefix of the target's, and otherwise it is the rest. *)
Lemma Rel_abs base targ :
  IsAbs base = true → IsAbs targ = true →
  ∃ rel, Rel base targ = Some rel ∧ IsAbs rel = false ∧
    (goesUp rel = false ↔ pathElems base `prefix_of` pathElems targ).
Proof.
  intros Hb Ht. unfold Rel. rewrite !Clean_abs by done.
  pose proof (pathElems_ok _ Hb) as Eb. pose proof (pathElems_ok _ Ht) as Et. clear Hb Ht.
  generalize dependent (pathElems targ). generalize dependent (pathElems base). intros b Eb t Et.
  destruct (seqb (absPath t) (absPath b)) eqn:E.
  { apply seqb_eq, absPath_inj in E as ->; [|done..]. exists §".". by split_and!. }
  replace (seqb (absPath b) §".") with false by done. rewrite !IsAbs_absPath. cbn [negb Bool.eqb].
  rewrite !relElems_absPath by done. cbn [dropCommon]. replace (seqb [] []) with true by done.
  pose proof (dropCommon_app b t) as H. destruct (dropCommon b t) as [b' t'].
  destruct H as (p&->&->&H1&H2). apply Forall_app in Eb as [_ Eb]. apply Forall_app in Et as [_ Et].
  destruct b' as [|e b'].
  - exists (Join t' slash). destruct t' as [|x t'].
    { rewrite app_nil_r, seqb_refl in E. done. }
    inversion_clear Et as [|?? (Hx0&Hx1&Hx2&Hx) _]. split; [done|].
    assert (Hpre : ∀ s, (∃ c x', x = c :: x' ∧ c ≠ "/"%byte ∧ HasPrefix (x ++ s) slash = false)).
    { intros s. destruct x as [|c x]; [done|]. exists c, x. split; [done|].
      assert (c ≠ "/"%byte) as Hc by (intros ->; done). split; [done|].
      cbn [app HasPrefix slash lit]. unfold HasPrefix. simpl. by rewrite bool_decide_eq_false_2. }
    destruct (Hpre (match t' with [] => [] | _ => slash ++ Join t' slash end)) as (_&_&_&_&Habs).
    assert (Join (x :: t') slash = x ++ match t' with [] => [] | _ => slash ++ Join t' slash end) as ->.
    { destruct t'; simpl; by rewrite ?app_nil_r. }
    split; [exact Habs|]. split; [intros _; apply H1; done|intros _].
    unfold goesUp. apply orb_false_iff. split.
    + apply seqb_neq. intros Hj. destruct t' as [|z t']; [by rewrite app_nil_r in Hj|].
      assert (Contains (x ++ slash ++ Join (z :: t') slash) slash = true) as Hcs
        by (apply Contains_true; eauto). rewrite Hj in Hcs. done.
    + apply not_true_iff_false. intros (u&Hu)%HasPrefix_true.
      assert (∀ v, x ++ v = §".." ++ slash ++ u → x = []%list ∨ x = §"." ∨ x = §".." ∨ Contains x slash = true) as Hcase.
      { intros v Hv. destruct x as [|c1 [|c2 [|c3 x]]]; simplify_eq/=; auto. }
      destruct (Hcase _ Hu) as [?|[?|[?|?]]]; congruence.
  - inversion_clear Eb as [|?? (_&_&He&_) _]. 
    assert (¬ p ++ e :: b' `prefix_of` p ++ t') as Hn by (by apply H2).
    assert (Hup : ∀ r, IsAbs (Join (replicate (length (e :: b')) §".." ++ r) slash) = false ∧
                       goesUp (Join (replicate (length (e :: b')) §".." ++ r) slash) = true).
    { intros r. cbn [length replicate app]. destruct (replicate (length b') §".." ++ r) as [|y l]; [done|].
      rewrite Join_cons by done. split; [done|]. unfold goesUp. apply orb_true_iff. right. done. }
    destruct t' as [|y t'].
    + eexists. split; [done|]. specialize (Hup []). rewrite app_nil_r in Hup. destruct Hup as [-> ->]. done.
    + rewrite (proj2 (seqb_neq _ _) He). eexists. split; [done|].
      destruct (Hup (y :: t')) as [-> ->]. done.
Qed.
