(* ===== verification/Router.v ===== *)
(** * URL paths and the request router (what handler.go uses of net/url and net/http)

    Escaping of path segments, and http.ServeMux for patterns without method
    and host: patterns are parsed into segments and added to a routing tree;
    a request path is cleaned, matched segment by segment (a literal before a
    wildcard before a trailing "/"), and redirected when it was not clean or
    when only the path with a slash added has a pattern of its own. *)

From S2P Require Import Prelude GoString Path.

(** ** Escapes *)

Definition unhex (c : byte) : option Z :=
  let z := bval c in
  if (48 <=? z)%Z && (z <=? 57)%Z then Some (z - 48)%Z
  else if (97 <=? z)%Z && (z <=? 102)%Z then Some (z - 87)%Z
  else if (65 <=? z)%Z && (z <=? 70)%Z then Some (z - 55)%Z
  else None.

(** url.PathUnescape; an escape that is not valid never reaches a handler. *)
Fixpoint PathUnescape (s : gostring) : gostring :=
  match s with
  | [] => []
  | c :: r =>
      if bool_decide (c = "%"%byte) then
        match r with
        | a :: b :: r' =>
            match unhex a, unhex b with
            | Some x, Some y => bchr (x * 16 + y) :: PathUnescape r'
            | _, _ => c :: PathUnescape r
            end
        | _ => c :: PathUnescape r
        end
      else c :: PathUnescape r
  end.

Definition alphanumeric (c : byte) : bool :=
  let z := bval c in ((65 <=? z) && (z <=? 90) || (97 <=? z) && (z <=? 122) || (48 <=? z) && (z <=? 57))%Z.

(** The bytes url.PathEscape keeps. *)
Definition pathByte (c : byte) : bool :=
  alphanumeric c || existsb (λ d, bool_decide (c = d)) ["-"; "_"; "."; "~"; "$"; "&"; "+"; ":"; "="; "@"]%byte.
Definition hexUpper (d : Z) : byte := bchr (if (d <? 10)%Z then 48 + d else 55 + d).
Definition escapeByte (c : byte) : gostring :=
  if pathByte c then [c] else ["%"%byte; hexUpper (bval c / 16)%Z; hexUpper (bval c mod 16)%Z].
Definition PathEscape (s : gostring) : gostring := concat (map escapeByte s).

(** ** Paths *)

(** The clean form of a request path; a trailing slash is kept. *)
Definition cleanPath (p : gostring) : gostring :=
  match p with
  | [] => slash
  | _ =>
      let p := if IsAbs p then p else slash ++ p in
      let np := Clean p in
      if bool_decide (last p = Some "/"%byte) && negb (seqb np slash) then np ++ slash else np
  end.

(** The unescaped segments of a path; a trailing slash is the segment "/". *)
Fixpoint requestSegments (l : list gostring) : list gostring :=
  match l with
  | [] => []
  | [x] => [if seqb x [] then slash else PathUnescape x]
  | x :: r => PathUnescape x :: requestSegments r
  end.

Definition segmentsOf (path : gostring) : list gostring :=
  if IsAbs path then requestSegments (tail (Split path slash)) else [].

(** ** Patterns *)

(** A literal, {name}, or a trailing slash ({name...} is not used). *)
Inductive segment := Lit (s : gostring) | Wild (name : gostring) | Multi.
#[global] Instance segment_eq_dec : EqDecision segment.
Proof. solve_decision. Defined.

Definition parseSegment (s : gostring) : segment :=
  if HasPrefix s §"{" && bool_decide (last s = Some "}"%byte) then Wild (removelast (tail s)) else Lit s.

Fixpoint parseSegments (l : list gostring) : list segment :=
  match l with
  | [] => []
  | [x] => [if seqb x [] then Multi else parseSegment x]
  | x :: r => parseSegment x :: parseSegments r
  end.

Definition parsePattern (s : gostring) : list segment := parseSegments (tail (Split s slash)).

(** What a pattern matches, with the values of its wildcards. *)
Fixpoint patternMatch (p : list segment) (segs : list gostring) : option (list gostring) :=
  match p, segs with
  | [], [] => Some []
  | Lit s :: p, seg :: segs => if seqb seg s then patternMatch p segs else None
  | Wild _ :: p, seg :: segs => if seqb seg slash then None else cons seg <$> patternMatch p segs
  | Multi :: _, _ :: _ => Some []
  | _, _ => None
  end.

(** Every path of the first pattern is one of the second. *)
Definition moreSpecific (p q : list segment) : Prop :=
  ∀ segs, is_Some (patternMatch p segs) → is_Some (patternMatch q segs).

Fixpoint covers (p q : list segment) : bool :=
  match p, q with
  | [], [] => true
  | _ :: _, Multi :: _ => true
  | Lit s :: p, Lit t :: q => seqb s t && covers p q
  | Lit s :: p, Wild _ :: q => negb (seqb s slash) && covers p q
  | Wild _ :: p, Wild _ :: q => covers p q
  | _, _ => false
  end.

Definition wildNames (p : list segment) : list gostring :=
  omap (λ seg, match seg with Wild name => Some name | _ => None end) p.

(** r.PathValue. *)
Definition PathValue (p : list segment) (values : list gostring) (name : gostring) : gostring :=
  match list_find (λ nv : gostring * gostring, nv.1 = name) (zip (wildNames p) values) with
  | Some (_, (_, v)) => v
  | None => []
  end.

(** ** The routing tree *)

Section Tree.
Context {A : Type}.

Inductive node := Node (leaf : option (list segment * A)) (lits : list (gostring * node)) (wild : option node) (multi : option (list segment * A)).

Definition emptyNode : node := Node None [] None None.

Fixpoint upsert (s : gostring) (f : node → node) (lits : list (gostring * node)) : list (gostring * node) :=
  match lits with
  | [] => [(s, f emptyNode)]
  | (t, n) :: rest => if seqb s t then (t, f n) :: rest else (t, n) :: upsert s f rest
  end.

Fixpoint findChild (s : gostring) (lits : list (gostring * node)) : option node :=
  match lits with
  | [] => None
  | (t, n) :: rest => if seqb s t then Some n else findChild s rest
  end.

Fixpoint addSegments (p : list segment) (x : list segment * A) (n : node) : node :=
  let '(Node leaf lits wild multi) := n in
  match p with
  | [] => Node (Some x) lits wild multi
  | Lit s :: p => Node leaf (upsert s (addSegments p x) lits) wild multi
  | Wild _ :: p => Node leaf lits (Some (addSegments p x (default emptyNode wild))) multi
  | Multi :: _ => Node leaf lits wild (Some x)
  end.

(** mux.HandleFunc, once per pattern. *)
Definition buildTree (patterns : list (gostring * A)) : node :=
  foldl (λ n pa, addSegments (parsePattern pa.1) (parsePattern pa.1, pa.2) n) emptyNode patterns.

Fixpoint matchPath (n : node) (segs : list gostring) (matches : list gostring) : option (list segment * A * list gostring) :=
  let '(Node leaf lits wild multi) := n in
  match segs with
  | [] => match leaf with Some x => Some (x, matches) | None => None end
  | seg :: rest =>
      let literal := match findChild seg lits with Some c => matchPath c rest matches | None => None end in
      let wildcard := match wild with
                      | Some c => if seqb seg slash then None else matchPath c rest (matches ++ [seg])
                      | None => None
                      end in
      match literal, wildcard, multi with
      | Some r, _, _ => Some r
      | None, Some r, _ => Some r
      | None, None, Some x => Some (x, matches)
      | None, None, None => None
      end
  end.

(** The pattern found is the path itself, not a prefix of it. *)
Definition exactMatch (found : option (list segment * A * list gostring)) (path : gostring) : bool :=
  match found with
  | None => false
  | Some (p, _, _) =>
      match last p with
      | Some Multi => bool_decide (last path = Some "/"%byte) && (length p =? length (Split path slash) - 1)
      | _ => true
      end
  end.

Inductive dispatch :=
| Handler (p : list segment) (h : A) (values : list gostring)
| RedirectTo (location : gostring)
| NoHandler.

(** findHandler: a CONNECT request's path is not cleaned, and not redirected
    but for the slash. *)
Definition findHandler (tree : node) (connect : bool) (escaped : gostring) : dispatch :=
  let path := if connect then escaped else cleanPath escaped in
  let found := matchPath tree (segmentsOf path) [] in
  if negb (exactMatch found path) && negb (bool_decide (last path = Some "/"%byte)) && negb (seqb path []) &&
     exactMatch (matchPath tree (segmentsOf (path ++ slash)) []) (path ++ slash)
  then RedirectTo (cleanPath (PathUnescape escaped) ++ slash)
  else if negb (seqb path escaped) then RedirectTo path
  else match found with
       | Some (p, h, values) => Handler p h values
       | None => NoHandler
       end.
End Tree.
Arguments node : clear implicits.
Arguments dispatch : clear implicits.

(** ** Lemmas: escapes and clean paths *)

Lemma PathUnescape_cons c r :
  PathUnescape (c :: r) =
  if bool_decide (c = "%"%byte) then
    match r with
    | a :: b :: r' => match unhex a, unhex b with
                      | Some x, Some y => bchr (x * 16 + y) :: PathUnescape r'
                      | _, _ => c :: PathUnescape r
                      end
    | _ => c :: PathUnescape r
    end
  else c :: PathUnescape r.
Proof. done. Qed.

Lemma PathUnescape_slash_cons a b :
  PathUnescape (a ++ "/"%byte :: b) = PathUnescape a ++ "/"%byte :: PathUnescape b.
Proof.
  remember (length a) as n eqn:Hn. revert a Hn. induction (lt_wf n) as [n _ IH]. intros a ->.
  assert (Hrec : ∀ a', length a' < length a →
    PathUnescape (a' ++ "/"%byte :: b) = PathUnescape a' ++ "/"%byte :: PathUnescape b) by (intros; by eapply IH).
  assert (Hno : unhex "/"%byte = None) by done.
  destruct a as [|c [|x [|y a]]]; cbn [app]; [done|..]; rewrite !(PathUnescape_cons c).
  - rewrite Hno. case_bool_decide; [|done]. destruct b; done.
  - specialize (Hrec [x] ltac:(simpl; lia)). cbn [app] in Hrec. rewrite Hno, Hrec.
    case_bool_decide; [|done]. by destruct (unhex x).
  - pose proof (Hrec (x :: y :: a) ltac:(simpl; lia)) as H1. pose proof (Hrec a ltac:(simpl; lia)) as H2.
    cbn [app] in H1. rewrite H1, H2. case_bool_decide; [|done]. by destruct (unhex x), (unhex y).
Qed.

Lemma PathUnescape_slash a b : PathUnescape (a ++ slash ++ b) = PathUnescape a ++ slash ++ PathUnescape b.
Proof. apply PathUnescape_slash_cons. Qed.

Lemma PathUnescape_plain s : forallb (λ c, negb (bool_decide (c = "%"%byte))) s = true → PathUnescape s = s.
Proof.
  induction s as [|c s IH]; [done|]. cbn [forallb PathUnescape]. intros [Hc Hs]%andb_true_iff.
  apply negb_true_iff in Hc. by rewrite Hc, IH.
Qed.

Lemma Split_abs path : IsAbs path = true → ∃ rest, Split path slash = [] :: rest ∧ path = slash ++ Join rest slash ∧ rest ≠ [].
Proof.
  intros (t&->)%HasPrefix_true. unfold Split. change (slash ++ t) with ([] ++ slash ++ t).
  rewrite split_go_line by (done || apply slash_no_overlap). exists (split_go slash 0 t). split; [done|].
  rewrite Join_split_go by done. split; [done|]. apply Split_nonempty.
Qed.

Lemma last_absPath l : Forall elem_ok l → l ≠ [] → last (absPath l) ≠ Some "/"%byte.
Proof.
  intros Hl Hne. destruct (exists_last Hne) as (l'&e&->). apply Forall_app in Hl as [_ Hl].
  inversion_clear Hl as [|?? (Hne'&_&_&Hs) _]. destruct (exists_last Hne') as (e'&x&->).
  assert (∃ pre, absPath (l' ++ [e' ++ [x]]) = pre ++ [x]) as (pre&->).
  { unfold absPath. clear Hne. induction l' as [|y l' (pre&IH)].
    - exists (slash ++ e'). by rewrite <- app_assoc.
    - exists (slash ++ y ++ pre). cbn [app]. rewrite Join_cons by (by destruct l'). rewrite IH.
      by rewrite <- !app_assoc. }
  rewrite last_snoc. intros [= ->]. apply not_true_iff_false in Hs. apply Hs, Contains_true. exists e', []. done.
Qed.

(** A clean path is routed as it is. *)
Lemma cleanPath_absPath l : Forall elem_ok l → l ≠ [] → cleanPath (absPath l) = absPath l.
Proof.
  intros Hl Hne. unfold cleanPath. destruct (absPath l) as [|c p] eqn:E; [done|]. rewrite <- E.
  rewrite IsAbs_absPath, Clean_absPath by done.
  by rewrite bool_decide_eq_false_2 by by apply last_absPath.
Qed.

Lemma Forall_byte (P : byte → bool) : forallb (λ n, P (bchr (Z.of_nat n))) (seq 0 256) = true → ∀ c, P c = true.
Proof.
  rewrite forallb_forall. intros H c. specialize (H (N.to_nat (Byte.to_N c))).
  assert (bchr (Z.of_nat (N.to_nat (Byte.to_N c))) = c) as E by (by destruct c).
  rewrite E in H. apply H, in_seq. pose proof (Byte.to_N_bounded c). lia.
Qed.

Lemma hexUpper_byte c :
  unhex (hexUpper (bval c / 16)) = Some (bval c / 16)%Z ∧ unhex (hexUpper (bval c mod 16)) = Some (bval c mod 16)%Z ∧
  bchr (bval c / 16 * 16 + bval c mod 16) = c.
Proof.
  set (ok := λ c, bool_decide (unhex (hexUpper (bval c / 16)) = Some (bval c / 16)%Z ∧
    unhex (hexUpper (bval c mod 16)) = Some (bval c mod 16)%Z ∧ bchr (bval c / 16 * 16 + bval c mod 16) = c)).
  assert (ok c = true) as H by (apply (Forall_byte ok); vm_compute; reflexivity). by apply bool_decide_eq_true_1 in H.
Qed.

Lemma PathUnescape_PathEscape s : PathUnescape (PathEscape s) = s.
Proof.
  induction s as [|c s IH]; [done|]. unfold PathEscape, escapeByte in *. cbn [map concat].
  destruct (pathByte c) eqn:Hc; cbn [app]; rewrite PathUnescape_cons.
  - rewrite IH, bool_decide_eq_false_2; [done|]. by intros ->.
  - rewrite bool_decide_eq_true_2 by done. destruct (hexUpper_byte c) as (->&->&->). by rewrite IH.
Qed.

Lemma PathEscape_no_slash s : Contains (PathEscape s) slash = false.
Proof.
  assert (forallb (λ c, negb (bool_decide (c = "/"%byte))) (PathEscape s) = true) as H.
  { induction s as [|c s IH]; [done|]. change (PathEscape (c :: s)) with (escapeByte c ++ PathEscape s). rewrite forallb_app, IH, andb_true_r.
    by apply (Forall_byte (λ c, forallb (λ c, negb (bool_decide (c = "/"%byte))) (escapeByte c))). }
  apply not_true_iff_false. intros (a&b&E)%Contains_true. rewrite E, !forallb_app in H. by bool_simpl.
Qed.

Lemma PathEscape_inj s t : PathEscape s = PathEscape t → s = t.
Proof. intros E. by rewrite <- (PathUnescape_PathEscape s), E, PathUnescape_PathEscape. Qed.

Lemma PathEscape_elem s : s ≠ [] → s ≠ §"." → s ≠ §".." → elem_ok (PathEscape s).
Proof.
  intros H0 H1 H2. split_and!; [| | |apply PathEscape_no_slash]; intros E.
  - by apply H0, PathEscape_inj.
  - by apply H1, PathEscape_inj.
  - by apply H2, PathEscape_inj.
Qed.

(** The segments of a clean path without a trailing slash. *)
Lemma segmentsOf_absPath l : l ≠ [] → Forall elem_ok l → segmentsOf (absPath l) = map PathUnescape l.
Proof.
  intros Hne Hl. unfold segmentsOf. rewrite IsAbs_absPath, Split_absPath by done. cbn [tail].
  induction Hl as [|x l Hx Hl IH]; [done|]. destruct l as [|y l].
  - cbn. by rewrite (proj2 (seqb_neq x [])) by apply Hx.
  - cbn [requestSegments map]. f_equal. by apply IH.
Qed.

(** ** Lemmas: patterns *)

Lemma covers_moreSpecific p q : covers p q = true → moreSpecific p q.
Proof.
  intros H segs [vals Hm]. revert q segs vals H Hm. induction p as [|x p IH]; intros q segs vals H Hm.
  - by destruct q as [|[] ?].
  - destruct segs as [|seg segs]; [by destruct x|].
    assert (Hrest : ∀ q', covers p q' = true → (∃ v, patternMatch p segs = Some v) → is_Some (patternMatch q' segs))
      by (intros q' Hq [v Hv]; eauto).
    destruct q as [|[t|n|] q]; [by destruct x| | |by eexists].
    + destruct x as [u|u|]; try done. cbn in H, Hm |- *. apply andb_true_iff in H as [Hut%seqb_eq Hc]. subst.
      destruct (seqb seg t); [|done]. eauto.
    + destruct x as [u|u|]; try done; cbn in H, Hm |- *.
      * apply andb_true_iff in H as [Hu Hc]. destruct (seqb seg u) eqn:E; [|done]. apply seqb_eq in E as ->.
        apply negb_true_iff in Hu. rewrite Hu. apply fmap_is_Some. eauto.
      * destruct (seqb seg slash); [done|]. apply fmap_Some in Hm as (v&Hv&_). apply fmap_is_Some. eauto.
Qed.
