(* ===== verification/Recording.v ===== *)
(** * Recordings (internal/recording/recorder.go)

    The file name a session records into and the recorder itself.  The path
    is built from the session id by [sanitizeSessionID] and the time of
    creation, and checked by [ensureContained]; the recorder passes packets to
    the OGG writer (github.com/pion/webrtc oggwriter, a parameter) until it is
    closed.  Calls hold the recorder's mutex from start to end, so concurrent
    use is a sequence of whole calls. *)

From S2P Require Import Prelude GoString GoConv Path.

(** ** sanitizeSessionID *)

Definition inRange (lo hi r : Z) : bool := (lo <=? r)%Z && (r <=? hi)%Z.

(** unicode.IsLetter and unicode.IsDigit on ASCII; the loop discards every
    larger rune whatever they say. *)
Definition asciiLetter (r : Z) : bool := inRange 65 90 r || inRange 97 122 r.
Definition asciiDigit (r : Z) : bool := inRange 48 57 r.

Definition allowedRune (r : Z) : bool :=
  (asciiLetter r || asciiDigit r || (r =? 45)%Z || (r =? 46)%Z) && (r <=? MaxASCII)%Z.

Fixpoint sanitizeLoop (rs : list Z) (previousUnderscore : bool) : gostring :=
  match rs with
  | [] => []
  | r :: rest =>
      if allowedRune r then EncodeRune r ++ sanitizeLoop rest false
      else if previousUnderscore then sanitizeLoop rest true
      else "_"%byte :: sanitizeLoop rest true
  end.

(** The cutset [._-] and strings.Trim with it. *)
Definition edgeByte (c : byte) : bool := bool_decide (c ∈ §"._-").
Definition TrimEdges (s : gostring) : gostring :=
  rev (drop_while edgeByte (rev (drop_while edgeByte s))).

Definition sanitizeSessionID (value : gostring) : gostring :=
  let result := TrimEdges (sanitizeLoop (map fst (runes value)) false) in
  if seqb result [] || seqb result §".." then §"session"
  else if 128 <? length result then take 128 result
  else result.

(** ** The path of a recording *)

(** The UTC time the file name is stamped with. *)
Record utcTime := { Year : Z; Month : Z; Day : Z; Hour : Z; Minute : Z; Second : Z; Nanosecond : Z }.

(** The last [width] decimal digits of [n], zero-padded on the left; for
    [0 <= n < 10^width] what the time package prints for the field. *)
Fixpoint pad (width : nat) (n : Z) : gostring :=
  match width with
  | O => []
  | S w => pad w (n / 10) ++ [bchr (48 + n mod 10)]
  end.

(** [Format("20060102T150405.000000000Z")]. *)
Definition formatStamp (t : utcTime) : gostring :=
  pad 4 (Year t) ++ pad 2 (Month t) ++ pad 2 (Day t) ++ §"T" ++
  pad 2 (Hour t) ++ pad 2 (Minute t) ++ pad 2 (Second t) ++ §"." ++ pad 9 (Nanosecond t) ++ §"Z".

Inductive recordingError :=
| ErrClosed
| errResolveDirectory
| errResolvePath
| errEscapes
| errCreateWriter
| errPacketRequired
| errWriter.

Definition ensureContained (dir path : gostring) : result recordingError unit :=
  match Rel dir path with
  | None => Err errResolvePath
  | Some rel =>
      if seqb rel §".." || HasPrefix rel (§".." ++ slash) || IsAbs rel then Err errEscapes else Ok tt
  end.

Definition recordingFilename (now : utcTime) (sessionID : gostring) : gostring :=
  formatStamp now ++ §"_" ++ sanitizeSessionID sessionID ++ §".ogg".

(** filepath.Abs, given the working directory ([None]: it cannot be found). *)
Definition Abs (getwd : option gostring) (dir : gostring) : option gostring :=
  if IsAbs dir then Some (Clean dir)
  else match getwd with Some wd => Some (JoinPath wd dir) | None => None end.

Record oggRecorder := { recorderPath : gostring; closed : bool }.

(** [OGGFactory.New]; [openWriter] says whether oggwriter.New succeeds on a path. *)
Definition newRecorder (getwd : option gostring) (openWriter : gostring → bool) (factoryDir : gostring)
    (now : utcTime) (sessionID : gostring) : result recordingError oggRecorder :=
  match Abs getwd factoryDir with
  | None => Err errResolveDirectory
  | Some dir =>
      let path := JoinPath dir (recordingFilename now sessionID) in
      let! _ := ensureContained dir path in
      guard! openWriter path else errCreateWriter in
      Ok {| recorderPath := path; closed := false |}
  end.

(** ** The recorder *)

Section Recorder.
Context {packet : Type}.

Inductive recorderCall := CallWriteRTP (p : option packet) | CallClose.
(** What the recorder asks of the OGG writer. *)
Inductive writerCall := WriterWriteRTP (p : packet) | WriterClose.

(** The writer's answer to each call it gets. *)
Variable writerFails : writerCall → bool.

Definition askWriter (c : writerCall) : option recordingError :=
  if writerFails c then Some errWriter else None.

Definition WriteRTP (r : oggRecorder) (p : option packet) : oggRecorder * list writerCall * option recordingError :=
  if closed r then (r, [], Some ErrClosed)
  else match p with
       | None => (r, [], Some errPacketRequired)
       | Some q => (r, [WriterWriteRTP q], askWriter (WriterWriteRTP q))
       end.

Definition CloseRecorder (r : oggRecorder) : oggRecorder * list writerCall * option recordingError :=
  if closed r then (r, [], None)
  else ({| recorderPath := recorderPath r; closed := true |}, [WriterClose], askWriter WriterClose).

Definition recorderStep (r : oggRecorder) (c : recorderCall) : oggRecorder * list writerCall * option recordingError :=
  match c with
  | CallWriteRTP p => WriteRTP r p
  | CallClose => CloseRecorder r
  end.

(** A sequence of calls: the writer calls made and the results returned. *)
Fixpoint recorderRun (r : oggRecorder) (cs : list recorderCall) : oggRecorder * list writerCall * list (option recordingError) :=
  match cs with
  | [] => (r, [], [])
  | c :: rest =>
      let '(r', w, e) := recorderStep r c in
      let '(r'', ws, es) := recorderRun r' rest in
      (r'', w ++ ws, e :: es)
  end.
End Recorder.

(** ** Lemmas *)

(** Bytes that may occur in a sanitized id. *)
Definition safeByte (c : byte) : bool := allowedRune (bval c) || bool_decide (c = "_"%byte).

Lemma allowedRune_range r : allowedRune r = true → (45 <= r <= 122)%Z.
Proof.
  unfold allowedRune, asciiLetter, asciiDigit, inRange. intros H. bool_simpl.
  repeat match goal with H : _ || _ = true |- _ => apply orb_true_iff in H as [?|?] end; bool_simpl; lia.
Qed.

Lemma EncodeRune_allowed r : allowedRune r = true → EncodeRune r = [bchr r] ∧ safeByte (bchr r) = true.
Proof.
  intros H. pose proof (allowedRune_range r H). split.
  - unfold EncodeRune. rewrite (proj2 (Z.ltb_ge r 0)), (proj2 (Z.ltb_ge 0x10FFFF r)),
      (proj2 (Z.leb_gt 0xD800 r)) by lia. simpl. by rewrite (proj2 (Z.leb_le _ _)) by lia.
  - unfold safeByte. by rewrite bval_bchr, H by lia.
Qed.

Lemma sanitizeLoop_safe rs u : forallb safeByte (sanitizeLoop rs u) = true.
Proof.
  revert u; induction rs as [|r rs IH]; intros u; cbn [sanitizeLoop]; [done|].
  destruct (allowedRune r) eqn:E.
  - apply EncodeRune_allowed in E as [-> Hs]. simpl. by rewrite Hs, IH.
  - destruct u; [apply IH|]. cbn [forallb]. by rewrite IH.
Qed.

Lemma TrimEdges_stops s : stops edgeByte (TrimEdges s).
Proof.
  unfold TrimEdges. pose proof (drop_while_stops edgeByte s) as H.
  destruct (drop_while_rev_prefix edgeByte (drop_while edgeByte s)) as (t&Ht).
  destruct (rev _) as [|c r]; [done|]. rewrite Ht in H. done.
Qed.

Lemma TrimEdges_safe s : forallb safeByte s = true → forallb safeByte (TrimEdges s) = true.
Proof.
  intros H. unfold TrimEdges. rewrite forallb_rev. apply forallb_drop_while.
  rewrite forallb_rev. by apply forallb_drop_while.
Qed.

Lemma runes_ascii s : forallb (λ c, (bval c <? 0x80)%Z) s = true → map fst (runes s) = map bval s.
Proof.
  unfold runes. generalize (Nat.le_refl (length s)). generalize (length s) at 2 3. intros n Hn.
  revert s Hn; induction n as [|n IH]; intros [|c s] Hn H; simpl in *; try done; try lia.
  apply andb_true_iff in H as [Hc H]. rewrite Hc. simpl. f_equal. rewrite drop_0. apply IH; [lia|done].
Qed.

Lemma safeByte_ascii c : safeByte c = true → (bval c <? 0x80)%Z = true.
Proof.
  unfold safeByte. intros [H%allowedRune_range|H%bool_decide_eq_true_1]%orb_true_iff; [lia|by subst].
Qed.

Lemma bchr_bval c : bchr (bval c) = c.
Proof. apply bval_inj. apply bval_bchr, bval_range. Qed.

Lemma sanitizeLoop_fixed s u :
  forallb safeByte s = true → Contains s §"__" = false → (u = true → HasPrefix s §"_" = false) →
  sanitizeLoop (map bval s) u = s.
Proof.
  revert u; induction s as [|c s IH]; intros u; [done|]. cbn [forallb map sanitizeLoop].
  intros [Hc Hs]%andb_true_iff Hd Hu. cbn [Contains] in Hd. apply orb_false_iff in Hd as [Hp Hd].
  unfold safeByte in Hc. destruct (allowedRune (bval c)) eqn:E.
  - destruct (EncodeRune_allowed _ E) as [-> _]. rewrite bchr_bval. simpl. by rewrite IH.
  - apply bool_decide_eq_true_1 in Hc as ->. destruct u; [by specialize (Hu eq_refl)|].
    rewrite IH; [done..|]. intros _. exact Hp.
Qed.

Lemma sanitizeSessionID_props value :
  let s := sanitizeSessionID value in
  s ≠ [] ∧ length s ≤ 128 ∧ forallb safeByte s = true ∧ stops edgeByte s.
Proof.
  unfold sanitizeSessionID. cbn zeta. set (r := TrimEdges _).
  assert (forallb safeByte r = true) as Hr by apply TrimEdges_safe, sanitizeLoop_safe.
  pose proof (TrimEdges_stops (sanitizeLoop (map fst (runes value)) false)) as Hs. fold r in Hs.
  destruct (seqb r [] || seqb r §"..") eqn:E.
  { split_and!; [done|vm_compute; lia|reflexivity|reflexivity]. }
  apply orb_false_iff in E as [E%seqb_neq _]. destruct (128 <? length r) eqn:L.
  - apply Nat.ltb_lt in L. split_and!.
    + intros H%(f_equal length). rewrite length_take in H. cbn [length] in H. lia.
    + rewrite length_take. lia.
    + by apply forallb_take.
    + by apply stops_take.
  - apply Nat.ltb_ge in L. by split_and!.
Qed.

Lemma safe_no_slash s : forallb safeByte s = true → Contains s slash = false.
Proof.
  intros H. apply not_true_iff_false. intros (a&b&->)%Contains_true.
  rewrite !forallb_app in H. bool_simpl. done.
Qed.

Lemma pad_safe w n : forallb safeByte (pad w n) = true.
Proof.
  revert n; induction w as [|w IH]; intros n; cbn [pad]; [done|]. rewrite forallb_app, IH. cbn [forallb andb].
  pose proof (Z.mod_pos_bound n 10 ltac:(lia)). unfold safeByte. rewrite bval_bchr by lia.
  unfold allowedRune, asciiDigit, inRange, MaxASCII.
  rewrite (proj2 (Z.leb_le 48 _)), (proj2 (Z.leb_le _ 57)), (proj2 (Z.leb_le _ 0x7F)) by lia.
  by rewrite orb_true_r.
Qed.

Lemma length_pad w n : length (pad w n) = w.
Proof. revert n; induction w as [|w IH]; intros n; cbn [pad]; [done|]. rewrite length_app, IH. simpl. lia. Qed.

Lemma bchr_digit_inj a b : (0 <= a < 10)%Z → (0 <= b < 10)%Z → bchr (48 + a) = bchr (48 + b) → a = b.
Proof. intros Ha Hb H%(f_equal bval). rewrite !bval_bchr in H by lia. lia. Qed.

Lemma pad_inj w a b :
  (0 <= a < 10 ^ Z.of_nat w)%Z → (0 <= b < 10 ^ Z.of_nat w)%Z → pad w a = pad w b → a = b.
Proof.
  revert a b; induction w as [|w IH]; intros a b Ha Hb; [simpl in *; lia|].
  rewrite Nat2Z.inj_succ, Z.pow_succ_r in Ha, Hb by lia. cbn [pad].
  intros [H1 H2]%app_inj_2; [|done]. injection H2 as H2.
  pose proof (Z.mod_pos_bound a 10 ltac:(lia)). pose proof (Z.mod_pos_bound b 10 ltac:(lia)).
  apply bchr_digit_inj in H2; [|lia..].
  pose proof (Z.div_mod a 10 ltac:(lia)). pose proof (Z.div_mod b 10 ltac:(lia)).
  apply IH in H1; [lia|split; [apply Z.div_pos; lia|apply Z.div_lt_upper_bound; lia]..].
Qed.

Lemma recordingFilename_safe now id : forallb safeByte (recordingFilename now id) = true.
Proof.
  unfold recordingFilename, formatStamp. destruct (sanitizeSessionID_props id) as (_&_&Hs&_).
  rewrite !forallb_app, !pad_safe, Hs. reflexivity.
Qed.

Lemma recordingFilename_length now id : 32 ≤ length (recordingFilename now id) ≤ 159.
Proof.
  unfold recordingFilename, formatStamp. destruct (sanitizeSessionID_props id) as (Hne&Hl&_).
  assert (length (sanitizeSessionID id) ≠ 0) by (by destruct (sanitizeSessionID id)).
  rewrite !length_app, !length_pad. change (length §"T") with 1. change (length §".") with 1.
  change (length §"Z") with 1. change (length §"_") with 1. change (length §".ogg") with 4. lia.
Qed.

Lemma recordingFilename_ok now id : elem_ok (recordingFilename now id).
Proof.
  pose proof (recordingFilename_length now id) as Hl.
  split_and!; [intros H; rewrite H in Hl; vm_compute in Hl; lia..|].
  apply safe_no_slash, recordingFilename_safe.
Qed.

Lemma ensureContained_abs dir path :
  IsAbs dir = true → IsAbs path = true →
  (pathElems dir `prefix_of` pathElems path ∧ ensureContained dir path = Ok tt) ∨
  (¬ pathElems dir `prefix_of` pathElems path ∧ ensureContained dir path = Err errEscapes).
Proof.
  intros Hd Hp. destruct (Rel_abs dir path Hd Hp) as (rel&Hrel&Habs&Hup).
  unfold ensureContained. rewrite Hrel, Habs, orb_false_r.
  change (seqb rel §".." || HasPrefix rel (§".." ++ slash)) with (goesUp rel).
  destruct (goesUp rel) eqn:E; [right|left]; (split; [|done]).
  - intros H%Hup. done.
  - by apply Hup.
Qed.

Lemma Abs_abs getwd d dir : (∀ wd, getwd = Some wd → IsAbs wd = true) → Abs getwd d = Some dir → IsAbs dir = true.
Proof.
  unfold Abs. intros Hwd. destruct (IsAbs d) eqn:E.
  - intros [= <-]. rewrite Clean_abs by done. apply IsAbs_absPath.
  - destruct getwd as [wd|]; [|done]. intros [= <-]. unfold JoinPath. 
    rewrite Clean_abs by (apply HasPrefix_mono, Hwd; done). apply IsAbs_absPath.
Qed.

(** ** Properties *)

(** C19. Whatever the session id is, its sanitized form is between 1 and 128
    bytes long, made of ASCII letters, digits, dot, dash and underscore only,
    and does not start with a dot, dash or underscore: no separator, no parent
    reference, no hidden file, no option-like name. *)
Theorem sanitizeSessionID_safe (value : gostring) :
  let s := sanitizeSessionID value in
  1 ≤ length s ≤ 128 ∧ forallb safeByte s = true ∧ Contains s slash = false ∧ stops edgeByte s.
Proof.
  cbn zeta. destruct (sanitizeSessionID_props value) as (Hne&Hl&Hs&He). split_and!; try done.
  - destruct (sanitizeSessionID value); [done|simpl; lia].
  - by apply safe_no_slash.
Qed.

(** An id that is already safe names its recording unchanged. *)
Theorem sanitizeSessionID_keeps_safe_ids (s : gostring) :
  s ≠ [] → length s ≤ 128 → forallb safeByte s = true → Contains s §"__" = false → TrimEdges s = s →
  sanitizeSessionID s = s.
Proof.
  intros Hne Hl Hs Hd Ht. unfold sanitizeSessionID.
  rewrite runes_ascii by (eapply forallb_impl; [apply safeByte_ascii|done]).
  rewrite sanitizeLoop_fixed by done. rewrite Ht, (proj2 (seqb_neq _ _) Hne).
  assert (seqb s §".." = false) as -> by (apply seqb_neq; intros ->; done).
  simpl. by rewrite (proj2 (Nat.ltb_ge _ _)).
Qed.

Lemma sanitizeSessionID_keeps_safe_ids_witness :
  TrimEdges §"amzn1.echo-api_42" = §"amzn1.echo-api_42" ∧
  sanitizeSessionID §"amzn1.echo-api_42" = §"amzn1.echo-api_42".
Proof.
  split; [vm_compute; reflexivity|].
  apply sanitizeSessionID_keeps_safe_ids; [discriminate|vm_compute; lia|vm_compute; reflexivity..].
Defined.

(** [ensureContained] between absolute paths lets through exactly the
    paths whose cleaned elements extend those of the directory, and reports
    every other path as escaping. *)
Theorem ensureContained_spec (dir path : gostring) :
  IsAbs dir = true → IsAbs path = true →
  (ensureContained dir path = Ok tt ↔ pathElems dir `prefix_of` pathElems path) ∧
  (ensureContained dir path = Err errEscapes ↔ ¬ pathElems dir `prefix_of` pathElems path).
Proof.
  intros Hd Hp. destruct (ensureContained_abs dir path Hd Hp) as [[H ->]|[H ->]]; naive_solver.
Qed.

Lemma ensureContained_spec_witness :
  ensureContained §"/srv/rec/" §"/srv/rec/../rec/./..x.ogg" = Ok tt ∧
  ensureContained §"/srv/rec" §"/srv/rec/../record/x.ogg" = Err errEscapes.
Proof.
  split.
  - apply (ensureContained_spec §"/srv/rec/" §"/srv/rec/../rec/./..x.ogg"); [reflexivity..|].
    exists [§"..x.ogg"]. vm_compute. reflexivity.
  - apply (ensureContained_spec §"/srv/rec" §"/srv/rec/../record/x.ogg"); [reflexivity..|].
    intros [k Hk]. vm_compute in Hk. discriminate Hk.
Defined.

(** C35. A new recorder is always a file directly inside the recordings
    directory, under the time stamp and the sanitized id, whatever the session
    id and the configured directory are: the containment check never fails,
    and only the directory lookup and the OGG writer can. *)
Theorem newRecorder_in_directory getwd openWriter (factoryDir : gostring) (now : utcTime) (id : gostring) :
  (∀ wd, getwd = Some wd → IsAbs wd = true) →
  newRecorder getwd openWriter factoryDir now id =
  match Abs getwd factoryDir with
  | None => Err errResolveDirectory
  | Some dir =>
      let path := absPath (pathElems dir ++ [recordingFilename now id]) in
      if openWriter path then Ok {| recorderPath := path; closed := false |} else Err errCreateWriter
  end.
Proof.
  intros Hwd. unfold newRecorder. destruct (Abs getwd factoryDir) as [dir|] eqn:E; [|done].
  apply Abs_abs in E; [|done].
  rewrite (JoinPath_abs dir _ E (recordingFilename_ok now id)). cbn zeta.
  set (path := absPath _).
  assert (pathElems path = pathElems dir ++ [recordingFilename now id]) as Hp.
  { apply pathElems_absPath, Forall_app. split; [by apply pathElems_ok|].
    constructor; [apply recordingFilename_ok|done]. }
  destruct (ensureContained_abs dir path E (IsAbs_absPath _)) as [[_ ->]|[H _]]; [done|].
  destruct H. rewrite Hp. by apply prefix_app_r.
Qed.

Definition sampleTime : utcTime :=
  {| Year := 2026; Month := 8; Day := 2; Hour := 12; Minute := 34; Second := 56; Nanosecond := 123456789 |}.

Lemma newRecorder_in_directory_witness :
  newRecorder (Some §"/srv") (λ _, true) §"./rec" sampleTime §"../../escape/session name" =
  Ok {| recorderPath := §"/srv/rec/20260802T123456.123456789Z_escape_session_name.ogg"; closed := false |}.
Proof.
  rewrite (newRecorder_in_directory (Some §"/srv") (λ _, true) §"./rec" sampleTime §"../../escape/session name").
  - vm_compute. reflexivity.
  - intros wd [= <-]. reflexivity.
Defined.

(** The ranges of the fields of a UTC time in the years 0 to 9999. *)
Definition time_ok (t : utcTime) : Prop :=
  (0 <= Year t < 10000 ∧ 0 <= Month t < 100 ∧ 0 <= Day t < 100 ∧ 0 <= Hour t < 100 ∧
   0 <= Minute t < 100 ∧ 0 <= Second t < 100 ∧ 0 <= Nanosecond t < 1000000000)%Z.

Lemma app_pad_inj w a b s t :
  (0 <= a < 10 ^ Z.of_nat w)%Z → (0 <= b < 10 ^ Z.of_nat w)%Z → pad w a ++ s = pad w b ++ t → a = b ∧ s = t.
Proof.
  intros Ha Hb H. apply app_inj_1 in H as [H ->]; [|by rewrite !length_pad]. by apply pad_inj in H.
Qed.

Lemma recordingFilename_inj now1 now2 id1 id2 :
  time_ok now1 → time_ok now2 → recordingFilename now1 id1 = recordingFilename now2 id2 →
  now1 = now2 ∧ sanitizeSessionID id1 = sanitizeSessionID id2.
Proof.
  intros (?&?&?&?&?&?&?) (?&?&?&?&?&?&?). unfold recordingFilename, formatStamp. rewrite <- !app_assoc. intros Heq.
  repeat (apply app_pad_inj in Heq; [destruct Heq as [? Heq]|simpl; lia..]; try apply app_inv_head in Heq).
  apply app_inv_head, app_inv_tail in Heq. split; [|done]. destruct now1, now2; simpl in *; congruence.
Qed.

(** Two recordings of the same factory get different files unless they
    start at the same nanosecond for the same sanitized id. *)
Theorem newRecorder_distinct_paths getwd openWriter factoryDir now1 now2 id1 id2 r1 r2 :
  (∀ wd, getwd = Some wd → IsAbs wd = true) → time_ok now1 → time_ok now2 →
  newRecorder getwd openWriter factoryDir now1 id1 = Ok r1 →
  newRecorder getwd openWriter factoryDir now2 id2 = Ok r2 →
  recorderPath r1 = recorderPath r2 → now1 = now2 ∧ sanitizeSessionID id1 = sanitizeSessionID id2.
Proof.
  intros Hwd Ht1 Ht2. rewrite !newRecorder_in_directory by done.
  destruct (Abs getwd factoryDir) as [dir|] eqn:E; [|done]. apply Abs_abs in E; [|done]. cbn zeta.
  repeat case_match; try done. intros [= <-] [= <-]. cbn [recorderPath]. intros Heq.
  assert (∀ now id, Forall elem_ok (pathElems dir ++ [recordingFilename now id])) as Hok.
  { intros now id. apply Forall_app. split; [by apply pathElems_ok|].
    constructor; [apply recordingFilename_ok|done]. }
  apply absPath_inj in Heq; [|apply Hok..]. apply app_inv_head in Heq. apply (f_equal head) in Heq. cbn [head] in Heq. apply (inj Some) in Heq.
  by apply recordingFilename_inj.
Qed.

Definition laterTime : utcTime :=
  {| Year := 2026; Month := 8; Day := 2; Hour := 12; Minute := 34; Second := 56; Nanosecond := 123456790 |}.

Lemma newRecorder_distinct_paths_witness :
  match newRecorder None (λ _, true) §"/srv" sampleTime §"same", newRecorder None (λ _, true) §"/srv" laterTime §"same" with
  | Ok r1, Ok r2 => recorderPath r1 ≠ recorderPath r2
  | _, _ => False
  end.
Proof.
  destruct (newRecorder None (λ _, true) §"/srv" sampleTime §"same") as [r1|] eqn:E1; [|vm_compute in E1; discriminate E1].
  destruct (newRecorder None (λ _, true) §"/srv" laterTime §"same") as [r2|] eqn:E2; [|vm_compute in E2; discriminate E2].
  intros H.
  destruct (newRecorder_distinct_paths None (λ _, true) §"/srv" sampleTime laterTime §"same" §"same" r1 r2) as [Ht _].
  - intros wd Hwd. discriminate Hwd.
  - repeat split; vm_compute; congruence.
  - repeat split; vm_compute; congruence.
  - exact E1.
  - exact E2.
  - exact H.
  - vm_compute in Ht. discriminate Ht.
Defined.

(** ** The recorder's calls *)

Section RecorderRuns.
Context {packet : Type}.
Implicit Types (cs : list (recorderCall (packet := packet))) (writerFails : writerCall (packet := packet) → bool).

Definition isClose (c : recorderCall (packet := packet)) : bool :=
  match c with CallClose => true | _ => false end.

(** The packet a call of an open recorder hands to the writer. *)
Definition writtenBy (c : recorderCall (packet := packet)) : option writerCall :=
  match c with CallWriteRTP (Some q) => Some (WriterWriteRTP q) | _ => None end.

(** What a call returns before and after the recorder was closed. *)
Definition openResult writerFails (c : recorderCall (packet := packet)) : option recordingError :=
  match c with
  | CallWriteRTP None => Some errPacketRequired
  | CallWriteRTP (Some q) => askWriter writerFails (WriterWriteRTP q)
  | CallClose => askWriter writerFails WriterClose
  end.
Definition closedResult (c : recorderCall (packet := packet)) : option recordingError :=
  match c with CallWriteRTP _ => Some ErrClosed | CallClose => None end.

Lemma recorderRun_closed writerFails p cs :
  recorderRun writerFails {| recorderPath := p; closed := true |} cs =
  ({| recorderPath := p; closed := true |}, [], map closedResult cs).
Proof. induction cs as [|[q|] cs IH]; simpl; [done|by rewrite IH..]. Qed.

Lemma recorderRun_open writerFails p cs :
  let before := take_while (λ c, negb (isClose c)) cs in
  let after := drop_while (λ c, negb (isClose c)) cs in
  recorderRun writerFails {| recorderPath := p; closed := false |} cs =
  match after with
  | [] => ({| recorderPath := p; closed := false |}, omap writtenBy before, map (openResult writerFails) before)
  | _ :: rest =>
      ({| recorderPath := p; closed := true |}, omap writtenBy before ++ [WriterClose],
       map (openResult writerFails) before ++ askWriter writerFails WriterClose :: map closedResult rest)
  end.
Proof.
  induction cs as [|c cs IH]; [done|]. cbn zeta in *. destruct c as [q|].
  - cbn [recorderRun recorderStep WriteRTP closed take_while drop_while isClose negb].
    destruct q as [q|]; rewrite IH; by destruct (drop_while _ cs).
  - cbn [recorderRun recorderStep CloseRecorder closed take_while drop_while isClose negb].
    cbn [recorderPath]. by rewrite recorderRun_closed.
Qed.
End RecorderRuns.

(** C34. For every sequence of calls to a fresh recorder: the writer receives
    exactly the packets written before the first Close, in order, then is closed
    once if Close was called at all; calls before return what the writer
    answers (or that a packet is required), writes after it return ErrClosed
    without reaching the writer, and further closes succeed doing nothing. *)
Theorem recorder_lifecycle {packet : Type} (writerFails : writerCall (packet := packet) → bool) (path : gostring)
    (cs : list (recorderCall (packet := packet))) :
  let before := take_while (λ c, negb (isClose c)) cs in
  let after := drop_while (λ c, negb (isClose c)) cs in
  let '(r, toWriter, results) := recorderRun writerFails {| recorderPath := path; closed := false |} cs in
  recorderPath r = path ∧ closed r = existsb isClose cs ∧
  toWriter = omap writtenBy before ++ (if existsb isClose cs then [WriterClose] else []) ∧
  results = map (openResult writerFails) before ++
            match after with [] => [] | _ :: rest => askWriter writerFails WriterClose :: map closedResult rest end.
Proof.
  cbn zeta. rewrite recorderRun_open. cbn zeta.
  assert (existsb isClose cs = match drop_while (λ c, negb (isClose c)) cs with [] => false | _ => true end) as ->
    by (induction cs as [|[q|] cs IH]; simpl; auto).
  destruct (drop_while _ cs); split_and!; by rewrite ?app_nil_r.
Qed.
