(* ===== verification/AudioPrime.v ===== *)
(** * Audio priming (internal/rtc/audio_prime.go, audio_prime_tone.go)

    [runAudioPrime] sends a fixed number of pre-encoded Opus frames, one per
    tick, until it is done, cancelled or the writer fails.  What the
    goroutine observes from outside (the context, the select, the writer's
    answer) is an [iteration] per pass through the loop; the calls it makes
    are recorded, so the theorems speak about what was written. *)

From S2P Require Import Prelude GoString GoConv Duration.

Definition audioPrimeFrameDuration : Z := 20 * Millisecond.
Definition audioPrimeModeSilence : gostring := §"silence".
Definition audioPrimeModeTone : gostring := §"tone".

(** ** The frames *)

Definition hexDigit (c : byte) : Z :=
  if (bval c <=? 57)%Z then (bval c - 48)%Z else (bval c - 87)%Z.

Fixpoint hexPairs (s : gostring) : gostring :=
  match s with
  | a :: b :: r => bchr (hexDigit a * 16 + hexDigit b) :: hexPairs r
  | _ => []
  end.

Definition hexBytes (s : String.string) : gostring := hexPairs (lit s).

Definition opusSilenceFrame : gostring := hexBytes "f8fffe".

Definition opusToneFrames : list gostring := map hexBytes [
  "fcb4065aa7b5e1fd0bbe007ff9077284d8f40bd2d54c467d2c08d1e586ca0117cba253a961e86a7e076cfa490607e5d4d71936e253ebfdaf6afb4dc3c90869ca040875e31ace14b45809d78ed4ad2d73238f334221cfa7a9eaab3abe2cc48d7375d64ecf1ca44fb70f8069eacb5a1d9748b0d76b2f42311e9cbbd71449b4e08917e60dfea6b4347746943b5943a43148c8805c05e6cdec1f415afd6ab41ed56d"%string;
  "fcb386c251b6e785f9461b50d626757bffdeb3a0b19c89fb9c9c9ec5bae7d7751935a36716b4b134c9dcd2a47c8af853942ba4ab89f48e7dba040c2f158054dc57583a62baa1938a9781eeb5a86dddbc56ce5747891aa28e9b91812e37809dd13bbb0a13d6a40b61d3cbc3d94d58427d68a4220072974249d20862ab4909dfef93e0955a49e1f20a64abe28a5292c001f6d9bf813f5f5fe1f40111125baa01ae"%string;
  "fcb02ec2da45de508f5fb564d650ede7226eb5226715c4bab2c09218064fc9e49d0661ead016517e1a5f150121d08c2b6aef892c9ef474b0a0aa2eb335011e6130fd202ca2374ea963058ff07c4e6e940e23dba95837774f7692236e10283fa06144ce6f0232946e781a0f8b3732f2d417d011b9da26f2d8ac100e427405a56bc78ab38877f0d3a6f9fd962a647d66efcc6ebc607d287d67af4cddc9005acdae"%string;
  "fcac5a764b9107e71e3bc05437e7ef0dfee7199a008ba33d2256082be95229bfd24c29650ff100eb8c96cbca095b7e188d050c6ca94a8f200b8fafe72fa14a6a99d2729842c239614092b35f4ac933d2c91242d47c5bc4f6b64a58a21079dbb35a3c416770e6d281bc46bb2200509a1849f81d051f9f7b43ca11634e0cfa9cd0126a28a697509528a6be25a5d377038f7e74be007d52d50078110000005a23ae"%string;
  "fcb01fc9aa9651520e60b4d3decc6bfabdde07284082f6d9a5320dd2eef1727dd31f7d3dd0e9faf77d47097619af0a8c35aaa92ef6eb72c58520fcaa4821c36d7f016b1c23b4c9ab960f0a21eee7e87fea4aa774e6965fdd7870f26cc59e6eaee041d467592106e01e1968d2d94aa0b90984927eede3d9d58701daa56d826fbfaa12ed2d999d259b70128dcfebbd7cd8dee3ef181fea1f414b8660037dd4cdae"%string
].

Definition audioPrimeFramesForMode (mode : gostring) : list gostring :=
  if seqb mode audioPrimeModeTone then opusToneFrames else [opusSilenceFrame].

(** ** The loop *)

Record mediaSample := { Data : gostring; Duration : Z }.

Inductive audioPrimeCompletionReason :=
| audioPrimeReasonDuration
| audioPrimeReasonCancelled.

Inductive primeError :=
| errAudioPrimeFramesMissing
| writeError.

(** What one pass of the loop observes: [ctx.Err() != nil] before the select,
    whether the select took [ctx.Done()] rather than a tick, [ctx.Err() != nil]
    after the tick, and whether the writer accepts the sample. *)
Record iteration := {
  errBefore : bool;
  selectDone : bool;
  errAfterTick : bool;
  writeFails : bool
}.

(** A call of [WriteSample] and whether it succeeded. *)
Record writeCall := { sample : mediaSample; accepted : bool }.

Record primeOutcome := {
  calls : list writeCall;
  frames : nat;
  reason : option audioPrimeCompletionReason;
  err : option primeError;
  tickerStops : nat
}.

(** The deferred [ticker.Stop()] runs once, on every return. *)
Definition primeReturn (cs : list writeCall) (n : nat) (r : option audioPrimeCompletionReason) (e : option primeError) : primeOutcome :=
  {| calls := cs; frames := n; reason := r; err := e; tickerStops := 1 |}.

(** The sample of frame [n]: [encodedFrames[n % len(encodedFrames)]]. *)
Definition primeSample (encodedFrames : list gostring) (n : nat) : mediaSample :=
  {| Data := default [] (encodedFrames !! (n mod length encodedFrames)); Duration := audioPrimeFrameDuration |}.

(** [remaining = targetFrames - frames]; [env n] is the pass made with [frames = n]
    (a pass that does not return increments [frames]). *)
Fixpoint primeLoop (env : nat → iteration) (encodedFrames : list gostring) (remaining n : nat) (cs : list writeCall) : primeOutcome :=
  match remaining with
  | O => primeReturn cs n (Some audioPrimeReasonDuration) None
  | S remaining' =>
      if errBefore (env n) then primeReturn cs n (Some audioPrimeReasonCancelled) None
      else if selectDone (env n) then primeReturn cs n (Some audioPrimeReasonCancelled) None
      else if errAfterTick (env n) then primeReturn cs n (Some audioPrimeReasonCancelled) None
      else
        let s := primeSample encodedFrames n in
        if writeFails (env n) then primeReturn (cs ++ [{| sample := s; accepted := false |}]) n None (Some writeError)
        else primeLoop env encodedFrames remaining' (S n) (cs ++ [{| sample := s; accepted := true |}])
  end.

(** [targetFrames] is a Go int: a non-positive one leaves the loop at once. *)
Definition runAudioPrime (env : nat → iteration) (targetFrames : Z) (encodedFrames : list gostring) : primeOutcome :=
  match encodedFrames with
  | [] => primeReturn [] 0 None (Some errAudioPrimeFramesMissing)
  | _ => primeLoop env encodedFrames (Z.to_nat targetFrames) 0 []
  end.

(** ** Specification *)

(** The pass lets the loop write: no cancellation seen. *)
Definition undisturbed (it : iteration) : bool := negb (errBefore it || selectDone it || errAfterTick it).

(** The number of passes before the first one that is cancelled or fails. *)
Fixpoint goodPasses (env : nat → iteration) (remaining n : nat) : nat :=
  match remaining with
  | O => O
  | S r => if undisturbed (env n) && negb (writeFails (env n)) then S (goodPasses env r (S n)) else O
  end.

(** RFC 6716, section 3.1: duration in microseconds of the frames a packet
    with this table-of-contents byte carries, for the CELT configurations
    (16 to 31) and the one-frame code. *)
Definition celtPacketMicros (toc : Z) : option Z :=
  let config := Z.shiftr toc 3 in
  if (16 <=? config)%Z && (Z.land toc 3 =? 0)%Z
  then Some (match (config mod 4)%Z with 0%Z => 2500 | 1%Z => 5000 | 2%Z => 10000 | _ => 20000 end)%Z
  else None.

Definition packetMicros (frame : gostring) : option Z :=
  match frame with c :: _ => celtPacketMicros (bval c) | [] => None end.

Lemma primeLoop_spec env fs remaining n cs :
  let k := goodPasses env remaining n in
  let o := primeLoop env fs remaining n cs in
  let written := map (λ i, {| sample := primeSample fs i; accepted := true |}) (seq n k) in
  frames o = n + k ∧ tickerStops o = 1 ∧ k ≤ remaining ∧
  (k = remaining → calls o = cs ++ written ∧ reason o = Some audioPrimeReasonDuration ∧ err o = None) ∧
  (k < remaining → undisturbed (env (n + k)) = false →
     calls o = cs ++ written ∧ reason o = Some audioPrimeReasonCancelled ∧ err o = None) ∧
  (k < remaining → undisturbed (env (n + k)) = true →
     writeFails (env (n + k)) = true ∧
     calls o = cs ++ written ++ [{| sample := primeSample fs (n + k); accepted := false |}] ∧
     reason o = None ∧ err o = Some writeError).
Proof.
  revert n cs; induction remaining as [|r IH]; intros n cs; cbn zeta.
  { simpl. rewrite app_nil_r. split_and!; try done; lia. }
  specialize (IH (S n)). cbn [primeLoop goodPasses]. unfold undisturbed in *.
  destruct (errBefore (env n)) eqn:E1; cbn [negb orb andb].
  { simpl. rewrite Nat.add_0_r, E1, app_nil_r. simpl. split_and!; try done; lia. }
  destruct (selectDone (env n)) eqn:E2; cbn [negb orb andb].
  { simpl. rewrite Nat.add_0_r, E1, E2, app_nil_r. simpl. split_and!; try done; lia. }
  destruct (errAfterTick (env n)) eqn:E3; cbn [negb orb andb].
  { simpl. rewrite Nat.add_0_r, E1, E2, E3, app_nil_r. simpl. split_and!; try done; lia. }
  destruct (writeFails (env n)) eqn:E4; cbn [negb].
  { simpl. rewrite Nat.add_0_r, E1, E2, E3, E4. simpl. split_and!; try done; lia. }
  specialize (IH (cs ++ [{| sample := primeSample fs n; accepted := true |}])). cbn zeta in IH.
  set (k := goodPasses env r (S n)) in *. cbn [seq map]. rewrite <- Nat.add_succ_comm.
  destruct IH as (H1&H2&H3&H4&H5&H6). rewrite <- app_assoc in H4, H5, H6. cbn [app] in H4, H5, H6.
  split_and!; [done|done|lia|..].
  - intros [= Hk]. by apply H4.
  - intros Hk Hu. apply H5; [lia|done].
  - intros Hk Hu. apply H6; [lia|done].
Qed.

Lemma goodPasses_all env r n :
  (∀ i, undisturbed (env i) = true ∧ writeFails (env i) = false) → goodPasses env r n = r.
Proof.
  intros H. revert n; induction r as [|r IH]; intros n; simpl; [done|].
  destruct (H n) as [-> ->]. simpl. by rewrite IH.
Qed.

Definition totalDuration (cs : list writeCall) : Z :=
  foldr (λ c acc, (if accepted c then Duration (sample c) else 0) + acc)%Z 0%Z cs.

Lemma totalDuration_written fs n k :
  totalDuration (map (λ i, {| sample := primeSample fs i; accepted := true |}) (seq n k)) =
  (Z.of_nat k * audioPrimeFrameDuration)%Z.
Proof.
  revert n; induction k as [|k IH]; intros n; [done|]. cbn [seq map totalDuration foldr].
  fold (totalDuration (map (λ i, {| sample := primeSample fs i; accepted := true |}) (seq (S n) k))).
  rewrite IH. cbn [accepted sample primeSample Duration]. lia.
Qed.

(** C37. [runAudioPrime] with [k] good passes in front (no cancellation seen, no
    failed write) writes exactly the frames 0 to [k-1], cycling through the
    encoded frames with 20 ms each, and reports [k]; it ends with reason
    duration exactly when [k] is the target, with reason cancelled and no
    further write when pass [k] is cancelled, and with the writer's error after
    the refused sample otherwise.  The ticker is stopped once in every case. *)
Theorem runAudioPrime_spec (env : nat → iteration) (targetFrames : Z) (encodedFrames : list gostring) :
  encodedFrames ≠ [] →
  let target := Z.to_nat targetFrames in
  let k := goodPasses env target 0 in
  let o := runAudioPrime env targetFrames encodedFrames in
  let written := map (λ i, {| sample := primeSample encodedFrames i; accepted := true |}) (seq 0 k) in
  frames o = k ∧ tickerStops o = 1 ∧ k ≤ target ∧
  (k = target → calls o = written ∧ reason o = Some audioPrimeReasonDuration ∧ err o = None) ∧
  (k < target → undisturbed (env k) = false →
     calls o = written ∧ reason o = Some audioPrimeReasonCancelled ∧ err o = None) ∧
  (k < target → undisturbed (env k) = true →
     calls o = written ++ [{| sample := primeSample encodedFrames k; accepted := false |}] ∧
     reason o = None ∧ err o = Some writeError).
Proof.
  intros Hne. cbn zeta. unfold runAudioPrime. destruct encodedFrames as [|f fs]; [done|].
  destruct (primeLoop_spec env (f :: fs) (Z.to_nat targetFrames) 0 []) as (H1&H2&H3&H4&H5&H6).
  split_and!; [done|done|done|exact H4|exact H5|]. intros Hk Hu. by destruct (H6 Hk Hu) as [_ ?].
Qed.

Lemma runAudioPrime_spec_witness :
  let env := λ n, {| errBefore := false; selectDone := n =? 2; errAfterTick := false; writeFails := false |} in
  [opusSilenceFrame] ≠ [] ∧ frames (runAudioPrime env 5 [opusSilenceFrame]) = 2.
Proof.
  intros env. assert ([opusSilenceFrame] ≠ []) as Hne by discriminate. split; [exact Hne|].
  exact (proj1 (runAudioPrime_spec env 5 [opusSilenceFrame] Hne)).
Defined.

(** For both modes (any other mode name sends silence) there is a frame to
    send, and by its RFC 6716 table-of-contents byte every embedded packet
    carries exactly one frame duration of audio. *)
Theorem audioPrimeFrames_last_20ms (mode : gostring) :
  audioPrimeFramesForMode mode ≠ [] ∧
  Forall (λ f, packetMicros f = Some (audioPrimeFrameDuration / 1000)%Z) (audioPrimeFramesForMode mode).
Proof.
  unfold audioPrimeFramesForMode. destruct (seqb mode audioPrimeModeTone); (split; [done|]);
    unfold opusToneFrames; cbn [map];
    repeat (apply Forall_cons; split; [vm_compute; reflexivity|]); by apply Forall_nil.
Qed.

(** C38. Undisturbed priming for a duration that is a multiple of the frame
    duration sends exactly that much audio: the number of frames the session
    asks for is the quotient, all of them are accepted, and their durations
    add up to the configured duration. *)
Theorem audioPrime_sends_whole_duration (env : nat → iteration) (d : Z) (mode : gostring) :
  (0 <= d)%Z → (Z.rem d audioPrimeFrameDuration = 0)%Z →
  (∀ i, undisturbed (env i) = true ∧ writeFails (env i) = false) →
  let o := runAudioPrime env (Z.quot d audioPrimeFrameDuration) (audioPrimeFramesForMode mode) in
  totalDuration (calls o) = d ∧ reason o = Some audioPrimeReasonDuration ∧ err o = None.
Proof.
  intros Hd Hrem Henv. cbn zeta.
  assert (audioPrimeFramesForMode mode ≠ []) as Hne by (unfold audioPrimeFramesForMode; by case_match).
  unfold runAudioPrime. destruct (audioPrimeFramesForMode mode) as [|f fs]; [done|].
  set (n := Z.to_nat (Z.quot d audioPrimeFrameDuration)).
  destruct (primeLoop_spec env (f :: fs) n 0 []) as (_&_&_&H4&_&_).
  rewrite goodPasses_all in H4 by done. destruct (H4 eq_refl) as (->&->&->).
  split; [|done]. cbn [app]. rewrite totalDuration_written. subst n.
  pose proof (Z.quot_rem' d audioPrimeFrameDuration) as Hqr. rewrite Hrem in Hqr.
  rewrite Z2Nat.id; [lia|]. by apply Z.quot_pos.
Qed.

Lemma audioPrime_sends_whole_duration_witness :
  let env := λ _ : nat, {| errBefore := false; selectDone := false; errAfterTick := false; writeFails := false |} in
  totalDuration (calls (runAudioPrime env (Z.quot (60 * Millisecond) audioPrimeFrameDuration)
    (audioPrimeFramesForMode audioPrimeModeTone))) = (60 * Millisecond)%Z.
Proof.
  intros env. refine (proj1 (audioPrime_sends_whole_duration env (60 * Millisecond) audioPrimeModeTone _ _ _)).
  - discriminate.
  - reflexivity.
  - intros i. split; reflexivity.
Defined.
