(* ===== verification/Server.v ===== *)
(** * Server construction and NewSession (internal/rtc/server.go)

    [NewServer] checks and completes its options; [NewSession] runs from the
    deadline check to the normalized answer.  The calls into pion/webrtc are
    third-party code: what they answer is given by [engineCalls] and
    [peerCalls], and NewSession records what it opens and closes, so that its
    error paths can be held to releasing everything.  [serverOptions] is the
    wiring of cmd/rtc-server: an accepted configuration passes all checks. *)

From S2P Require Import Prelude GoString GoConv Duration Config SdpVideo SdpAnswer AudioPrime.

(** ** NewServer *)

(** net.IP: a slice of octets, empty for nil. *)
Definition To4 (ip : list Z) : option (list Z) :=
  if length ip =? 4 then Some ip
  else if (length ip =? 16) && bool_decide (take 12 ip = replicate 10 0%Z ++ [255; 255]%Z) then Some (drop 12 ip)
  else None.

Record options := {
  optPublicIP : list Z;
  optUDPPortMin : Z;
  optUDPPortMax : Z;
  optICELite : bool;
  optAudioPrimeEnabled : bool;
  optAudioPrimeDuration : Z;
  optAudioPrimeMode : gostring;
  optRecordings : option gostring;    (* the factory, by its directory *)
  optAnswerTimeout : Z;
  optDisconnectGrace : Z
}.

Record server := {
  recordings : gostring;
  answerTimeout : Z;
  disconnectGrace : Z;
  audioPrimeEnabled : bool;
  audioPrimeDuration : Z;
  audioPrimeMode : gostring
}.

Inductive serverError :=
| ErrPublicIPv4Required | ErrUDPPortRange | ErrFactoryRequired | ErrPrimeDuration | ErrPrimeMode
| ErrRegisterCodec | ErrSetPortRange | ErrAddressRewrite.

(** Whether the engine accepts the codec, the port range and the rewrite rule. *)
Record engineCalls := {
  RegisterCodec : bool;
  SetEphemeralUDPPortRange : Z → Z → bool;
  SetICEAddressRewriteRules : list Z → bool
}.

(** The fallback for a duration that is not positive. *)
Definition positiveOr (d fallback : Z) : Z := if (d <=? 0)%Z then fallback else d.

Definition NewServer (engine : engineCalls) (opts : options) : result serverError server :=
  match To4 (optPublicIP opts) with
  | None => Err ErrPublicIPv4Required
  | Some _ =>
      guard! negb ((optUDPPortMin opts =? 0) || (optUDPPortMax opts <? optUDPPortMin opts))%Z else ErrUDPPortRange in
      match optRecordings opts with
      | None => Err ErrFactoryRequired
      | Some factory =>
          let timeout := positiveOr (optAnswerTimeout opts) (4500 * Millisecond) in
          let grace := positiveOr (optDisconnectGrace opts) (5 * Second) in
          let duration := positiveOr (optAudioPrimeDuration opts) (10 * Second) in
          guard! negb ((duration <? audioPrimeFrameDuration)%Z || negb (Z.rem duration audioPrimeFrameDuration =? 0)%Z)
            else ErrPrimeDuration in
          let mode := if seqb (optAudioPrimeMode opts) [] then audioPrimeModeSilence else optAudioPrimeMode opts in
          guard! (seqb mode audioPrimeModeSilence || seqb mode audioPrimeModeTone) else ErrPrimeMode in
          guard! RegisterCodec engine else ErrRegisterCodec in
          guard! SetEphemeralUDPPortRange engine (optUDPPortMin opts) (optUDPPortMax opts) else ErrSetPortRange in
          guard! SetICEAddressRewriteRules engine (optPublicIP opts) else ErrAddressRewrite in
          Ok {| recordings := factory; answerTimeout := timeout; disconnectGrace := grace;
                audioPrimeEnabled := optAudioPrimeEnabled opts; audioPrimeDuration := duration; audioPrimeMode := mode |}
      end
  end.

(** netip.Addr.AsSlice: the four octets. *)
Definition AsSlice (ip : Z) : list Z :=
  [Z.land (Z.shiftr ip 24) 255; Z.land (Z.shiftr ip 16) 255; Z.land (Z.shiftr ip 8) 255; Z.land ip 255].

(** The options cmd/rtc-server builds from its configuration. *)
Definition serverOptions (cfg : config) : options :=
  {| optPublicIP := AsSlice (PublicIP cfg); optUDPPortMin := UDPPortMin cfg; optUDPPortMax := UDPPortMax cfg;
     optICELite := ICELite cfg; optAudioPrimeEnabled := AudioPrimeEnabled cfg;
     optAudioPrimeDuration := AudioPrimeDuration cfg; optAudioPrimeMode := AudioPrimeMode cfg;
     optRecordings := Some (RecordingsDir cfg); optAnswerTimeout := 4500 * Millisecond; optDisconnectGrace := 5 * Second |}.

(** ** NewSession *)

Inductive newSessionError :=
| NewInvalidSDP | NewOpusRequired (audioSectionMissing : bool) | NewAnswerTimeout | NewPeerError.

(** Which happened first after SetLocalDescription: gathering completed (with
    the local description, if there is one) or the deadline. *)
Inductive gatherOutcome := Gathered (local : option gostring) | DeadlineFirst.

Record peerCalls := {
  deadlineExpired : bool;
  NewPeerConnection : bool;
  NewTrack : bool;
  AddTrack : bool;
  SetRemoteDescription : bool;
  CreateAnswer : bool;
  SetLocalDescription : bool;
  gathering : gatherOutcome
}.

(** What NewSession opens and closes: the peer connection, the session that
    owns it, the goroutine reading RTCP. *)
Inductive effect := OpenPeer | ClosePeer | MakeSession | CloseSession | ReadRTCP.
#[global] Instance effect_eq_dec : EqDecision effect.
Proof. solve_decision. Defined.

Definition asNewSessionError (e : offerError) : newSessionError :=
  match e with SdpAnswer.ErrInvalidSDP => NewInvalidSDP | SdpAnswer.ErrOpusRequired b => NewOpusRequired b end.

Section NewSession.
Variable Unmarshal : gostring → option (list mediaDescription).
Variable UnmarshalCandidate : gostring → bool.

(** [None] would be a loop of the normalizers that does not end. *)
Definition NewSession (calls : peerCalls) (offer : gostring) : option (list effect * result newSessionError gostring) :=
  if deadlineExpired calls then Some ([], Err NewAnswerTimeout)
  else match validateOffer Unmarshal offer with
  | Err e => Some ([], Err (asNewSessionError e))
  | Ok _ =>
      if negb (NewPeerConnection calls) then Some ([], Err NewPeerError)
      else if negb (NewTrack calls) then Some ([OpenPeer; ClosePeer], Err NewPeerError)
      else if negb (AddTrack calls) then Some ([OpenPeer; MakeSession; CloseSession], Err NewPeerError)
      else
        let opened := [OpenPeer; MakeSession; ReadRTCP] in
        if negb (SetRemoteDescription calls) then Some (opened ++ [CloseSession], Err NewInvalidSDP)
        else if negb (CreateAnswer calls) then Some (opened ++ [CloseSession], Err NewPeerError)
        else if negb (SetLocalDescription calls) then Some (opened ++ [CloseSession], Err NewPeerError)
        else match gathering calls with
        | Gathered None => Some (opened ++ [CloseSession], Err NewPeerError)
        | Gathered (Some local) =>
            match normalizeAnswer UnmarshalCandidate offer local with
            | Some normalizedAnswer => Some (opened, Ok normalizedAnswer)
            | None => None
            end
        | DeadlineFirst => Some (opened ++ [CloseSession], Err NewAnswerTimeout)
        end
  end.
End NewSession.

(** ** Lemmas *)

Lemma octets_of_addr a b c d : Forall octet [a; b; c; d] → AsSlice (addrOf [a; b; c; d]) = [a; b; c; d].
Proof.
  rewrite !Forall_cons. intros (Ha&Hb&Hc&Hd&_). unfold octet in *. unfold AsSlice, addrOf. cbn [foldl].
  change 255%Z with (Z.ones 8). rewrite !Z.land_ones, !Z.shiftr_div_pow2 by lia.
  change (2 ^ 8)%Z with 256%Z. change (2 ^ 16)%Z with 65536%Z. change (2 ^ 24)%Z with 16777216%Z.
  repeat f_equal; Z.div_mod_to_equations; lia.
Qed.

Lemma validPrime_range d : validPrime d = true ↔ (audioPrimeFrameDuration <= d)%Z ∧ Z.rem d audioPrimeFrameDuration = 0%Z.
Proof.
  unfold validPrime. change audioPrimeFrame with audioPrimeFrameDuration.
  rewrite negb_true_iff, orb_false_iff, negb_false_iff, Z.ltb_ge, Z.eqb_eq. done.
Qed.

Lemma durationValue_prime raw d : durationValue raw (10 * Second) validPrime d → validPrime d = true.
Proof. by intros [[_ ->]|(_&_&?)]. Qed.

Lemma normalizeAnswer_total UnmarshalCandidate offer answer : is_Some (normalizeAnswer UnmarshalCandidate offer answer).
Proof. unfold normalizeAnswer. rewrite normalizeVideo_lines. eauto. Qed.

(** NewSession always returns. *)
Lemma NewSession_returns Unmarshal UnmarshalCandidate calls offer : is_Some (NewSession Unmarshal UnmarshalCandidate calls offer).
Proof.
  unfold NewSession. repeat case_match; eauto.
  match goal with H : normalizeAnswer ?u ?o ?l = None |- _ => destruct (normalizeAnswer_total u o l); congruence end.
Qed.

(** How many times something was done. *)
Definition times (e : effect) (l : list effect) : nat := length (filter (λ x, x = e) l).

(** ** Properties *)

(** C39. A configuration Load accepts passes every check of NewServer with the
    options the server command builds: only the engine can refuse it, and the
    server gets the configured values; the address handed to the engine is the
    one written in PUBLIC_IP. *)
Theorem config_starts os getenv cfg engine :
  Load os (Some getenv) = Ok cfg →
  NewServer engine (serverOptions cfg) =
    (guard! RegisterCodec engine else ErrRegisterCodec in
     guard! SetEphemeralUDPPortRange engine (UDPPortMin cfg) (UDPPortMax cfg) else ErrSetPortRange in
     guard! SetICEAddressRewriteRules engine (optPublicIP (serverOptions cfg)) else ErrAddressRewrite in
     Ok {| recordings := RecordingsDir cfg; answerTimeout := 4500 * Millisecond; disconnectGrace := 5 * Second;
           audioPrimeEnabled := AudioPrimeEnabled cfg; audioPrimeDuration := AudioPrimeDuration cfg;
           audioPrimeMode := AudioPrimeMode cfg |}) ∧
  getenv §"PUBLIC_IP" = dotted (optPublicIP (serverOptions cfg)).
Proof.
  intros Hacc%Load_accepts. destruct Hacc. split.
  - unfold NewServer, serverOptions.
    cbn [optPublicIP optUDPPortMin optUDPPortMax optRecordings optAnswerTimeout optDisconnectGrace optAudioPrimeEnabled
      optAudioPrimeDuration optAudioPrimeMode optICELite].
    change (To4 (AsSlice (PublicIP cfg))) with (Some (AsSlice (PublicIP cfg))). cbv iota.
    assert (1 <= UDPPortMin cfg)%Z as Hmin by (destruct acc_min as [[_ ->]|(_&_&?)]; lia).
    rewrite (proj2 (Z.eqb_neq (UDPPortMin cfg) 0)), (proj2 (Z.ltb_ge _ _)) by lia. cbn [orb negb].
    pose proof (durationValue_prime _ _ acc_duration) as Hp. pose proof (proj1 (validPrime_range _) Hp) as [Hlo Hrem].
    assert (positiveOr (AudioPrimeDuration cfg) (10 * Second) = AudioPrimeDuration cfg) as ->.
    { unfold positiveOr. by rewrite (proj2 (Z.leb_gt _ _)) by (unfold audioPrimeFrameDuration, Millisecond in Hlo; lia). }
    change (positiveOr (4500 * Millisecond) _) with (4500 * Millisecond)%Z. change (positiveOr (5 * Second) _) with (5 * Second)%Z.
    rewrite (proj2 (Z.ltb_ge _ _)), (proj2 (Z.eqb_eq _ _)) by done. cbn [orb negb].
    assert (seqb (AudioPrimeMode cfg) [] = false ∧ seqb (AudioPrimeMode cfg) audioPrimeModeSilence || seqb (AudioPrimeMode cfg) audioPrimeModeTone = true)
      as [-> ->] by (by destruct acc_mode as [_ [->| ->]]). done.
  - destruct acc_ip as (a&b&c&d&Ho&->&Hip&_). unfold serverOptions. cbn [optPublicIP]. by rewrite Hip, octets_of_addr.
Qed.

Lemma config_starts_witness :
  NewServer {| RegisterCodec := true; SetEphemeralUDPPortRange := Z.leb; SetICEAddressRewriteRules _ := true |} (serverOptions sampleConfig) =
  Ok {| recordings := §"/data/recordings"; answerTimeout := 4500000000; disconnectGrace := 5000000000; audioPrimeEnabled := false;
        audioPrimeDuration := 10000000000; audioPrimeMode := §"silence" |}.
Proof.
  destruct (config_starts sampleOs (sampleGetenv []) sampleConfig
    {| RegisterCodec := true; SetEphemeralUDPPortRange := Z.leb; SetICEAddressRewriteRules _ := true |} Load_defaults) as [H _].
  rewrite H. vm_compute. reflexivity.
Defined.

(** Every call of the engine before gathering succeeds. *)
Definition engineOk (calls : peerCalls) : bool :=
  NewPeerConnection calls && NewTrack calls && AddTrack calls && SetRemoteDescription calls && CreateAnswer calls &&
  SetLocalDescription calls.

(** Calls in which the remote description is refused. *)
Definition remoteRefused (calls : peerCalls) : bool :=
  NewPeerConnection calls && NewTrack calls && AddTrack calls && negb (SetRemoteDescription calls).

(** One outcome of NewSession against its specification. *)
Ltac outcome :=
  eexists _, _; split; [reflexivity|]; cbn [is_ok asNewSessionError]; split; [vm_compute; repeat split; lia|];
  cbv zeta; split_and!; naive_solver.

(** C12. NewSession always returns.  It succeeds exactly if the deadline has not
    passed, the offer is valid and every call of the engine succeeds, then with
    the normalized local description and the peer and its session left open; on
    every error what was opened is closed exactly once, by the session as soon
    as there is one; and a timeout, an invalid SDP and a missing Opus codec are
    reported exactly in their cases. *)
Theorem NewSession_spec Unmarshal UnmarshalCandidate calls offer :
  ∃ effects r, NewSession Unmarshal UnmarshalCandidate calls offer = Some (effects, r) ∧
  (if is_ok r then times ClosePeer effects = 0 ∧ times CloseSession effects = 0 ∧ times MakeSession effects = 1
   else times OpenPeer effects = times ClosePeer effects + times CloseSession effects ∧
        times MakeSession effects = times CloseSession effects ∧ times ReadRTCP effects ≤ times CloseSession effects) ∧
  let valid := deadlineExpired calls = false ∧ validateOffer Unmarshal offer = Ok tt in
  (∀ answer, r = Ok answer ↔ valid ∧ engineOk calls = true ∧
     ∃ local, gathering calls = Gathered (Some local) ∧ normalizeAnswer UnmarshalCandidate offer local = Some answer) ∧
  (r = Err NewAnswerTimeout ↔
     deadlineExpired calls = true ∨ valid ∧ engineOk calls = true ∧ gathering calls = DeadlineFirst) ∧
  (r = Err NewInvalidSDP ↔
     deadlineExpired calls = false ∧ validateOffer Unmarshal offer = Err SdpAnswer.ErrInvalidSDP ∨
     valid ∧ remoteRefused calls = true) ∧
  (∀ b, r = Err (NewOpusRequired b) ↔
     deadlineExpired calls = false ∧ validateOffer Unmarshal offer = Err (SdpAnswer.ErrOpusRequired b)).
Proof.
  unfold NewSession, engineOk, remoteRefused. destruct calls as [expired np nt at_ sr ca sl g].
  cbn [deadlineExpired NewPeerConnection NewTrack AddTrack SetRemoteDescription CreateAnswer SetLocalDescription gathering].
  destruct expired; [outcome|]. destruct (validateOffer Unmarshal offer) as [[]|[|b]]; [|outcome..].
  destruct np, nt, at_, sr, ca, sl; cbn [negb andb]; try outcome.
  destruct g as [[local|]|]; [|outcome..].
  destruct (normalizeAnswer_total UnmarshalCandidate offer local) as [answer Ha]. rewrite Ha. outcome.
Qed.
