(* ===== verification/HttpApi.v ===== *)
(** * The HTTP API (internal/httpapi/handler.go)

    [ServeHTTP] checks the bearer token of every request below /v1/, the
    router of net/http ([Router.v]) picks the handler of one of the patterns, and the handlers validate the request
    and call the session service, here an interface ([SessionService]) with
    the laws its clients rely on ([SessionLaws]).  The service's state is
    passed through, so that "the service was not called" is a statement.

    Parameter: sha256.  Bodies are decoded and encoded as encoding/json does
    ([Json.v]), media types parsed as mime does ([Mime.v]).  A request carries its escaped path;
    [r.URL.Path] is its decoding. *)

From S2P Require Import Prelude GoString Utf8 Json Mime Path Router.

(** ** The session service *)

Inductive rtcError :=
| ErrInvalidSDP | ErrOpusRequired | ErrSessionExists | ErrSessionNotFound | ErrAnswerTimeout | ErrOther.
#[global] Instance rtcError_eq_dec : EqDecision rtcError.
Proof. solve_decision. Defined.

Class SessionService (S : Type) := {
  svcCreate : S → gostring → gostring → S * result rtcError gostring;
  svcMarkConnected : S → gostring → S * option rtcError;
  svcClose : S → gostring → S * option rtcError
}.

(** What the handlers' clients may rely on, for states satisfying [svcInv]: the
    service is a set of live ids. *)
Class SessionLaws (S : Type) `{SessionService S} := {
  svcInv : S → Prop;
  live : S → gostring → Prop;
  law_create : ∀ s id offer, svcInv s → let '(s', r) := svcCreate s id offer in
    svcInv s' ∧ match r with
                | Ok _ => ¬ live s id ∧ ∀ j, live s' j ↔ j = id ∨ live s j
                | Err e => (e = ErrSessionExists ↔ live s id) ∧ ∀ j, live s' j ↔ live s j
                end;
  law_mark : ∀ s id, svcInv s → let '(s', e) := svcMarkConnected s id in
    svcInv s' ∧ (∀ j, live s' j ↔ live s j) ∧ e = None ∧ live s id ∨
    svcInv s' ∧ (∀ j, live s' j ↔ live s j) ∧ e = Some ErrSessionNotFound ∧ ¬ live s id;
  law_close : ∀ s id, svcInv s → let '(s', e) := svcClose s id in
    svcInv s' ∧ (∀ j, live s' j ↔ live s j ∧ j ≠ id) ∧ (e = Some ErrSessionNotFound ↔ ¬ live s id)
}.

(** ** Requests and responses *)

Record request := {
  Method : gostring;
  escapedPath : gostring;
  Authorization : gostring;
  ContentType : gostring;
  Body : gostring
}.

Inductive response :=
| JSON (status : Z) (fields : list (gostring * gostring))
| ErrorResponse (status : Z) (code message : gostring)
| MuxRedirect (location : gostring)
| MuxNotFound.

Definition StatusOK : Z := 200.
Definition StatusBadRequest : Z := 400.
Definition StatusUnauthorized : Z := 401.
Definition StatusNotFound : Z := 404.
Definition StatusMethodNotAllowed : Z := 405.
Definition StatusConflict : Z := 409.
Definition StatusRequestEntityTooLarge : Z := 413.
Definition StatusUnsupportedMediaType : Z := 415.
Definition StatusInternalServerError : Z := 500.
Definition StatusGatewayTimeout : Z := 504.

Definition urlPath (r : request) : gostring := PathUnescape (escapedPath r).

Inductive route :=
| RouteHealth | RouteCreate | RouteConnected (id : gostring) | RouteSession (id : gostring) | RouteV1NotFound
| RouteRedirect (location : gostring) | RouteNotFound.

(** The patterns registered by [New], each with the handler it calls. *)
Inductive handlerName := healthHandler | createSessionHandler | connectedHandler | sessionHandler | notFoundHandler.
#[global] Instance handlerName_eq_dec : EqDecision handlerName.
Proof. solve_decision. Defined.

Definition patterns : list (gostring * handlerName) :=
  [(§"/healthz", healthHandler);
   (§"/v1/rtc/sessions", createSessionHandler);
   (§"/v1/rtc/sessions/{sessionId}/connected", connectedHandler);
   (§"/v1/rtc/sessions/{sessionId}", sessionHandler);
   (§"/v1/", notFoundHandler)].

Definition tree : node handlerName := buildTree patterns.

(** A handler called for a request, with its r.PathValue("sessionId"). *)
Definition handlerRoute (h : handlerName) (id : gostring) : route :=
  match h with
  | healthHandler => RouteHealth
  | createSessionHandler => RouteCreate
  | connectedHandler => RouteConnected id
  | sessionHandler => RouteSession id
  | notFoundHandler => RouteV1NotFound
  end.

Definition muxRoute (r : request) : route :=
  match findHandler tree (seqb (Method r) §"CONNECT") (escapedPath r) with
  | Handler p h values => handlerRoute h (PathValue p values §"sessionId")
  | RedirectTo location => RouteRedirect location
  | NoHandler => RouteNotFound
  end.

(** The same without the tree, on the segments of a path. *)
Definition matchSegments (segs : list gostring) : option (handlerName * list gostring) :=
  match segs with
  | [a] => if seqb a §"healthz" then Some (healthHandler, []) else None
  | a :: rest =>
      if negb (seqb a §"v1") then None
      else match rest with
           | [b; c] => if seqb b §"rtc" && seqb c §"sessions" then Some (createSessionHandler, []) else Some (notFoundHandler, [])
           | [b; c; d] =>
               if seqb b §"rtc" && seqb c §"sessions" && negb (seqb d slash) then Some (sessionHandler, [d]) else Some (notFoundHandler, [])
           | [b; c; d; e] =>
               if seqb b §"rtc" && seqb c §"sessions" && negb (seqb d slash) && seqb e §"connected"
               then Some (connectedHandler, [d]) else Some (notFoundHandler, [])
           | _ => Some (notFoundHandler, [])
           end
  | [] => None
  end.

(** writeJSON: the value as an Encoder prints it, with a newline.  A map of
    strings has its keys sorted; an error is a struct in a struct.  The bodies
    of the router's own responses are net/http's. *)
Definition writeJSON (value : gostring) : gostring := value ++ lf.

Definition responseBody (r : response) : option gostring :=
  match r with
  | JSON _ fields => Some (writeJSON (stringsText (sortKeys fields)))
  | ErrorResponse _ code message =>
      Some (writeJSON (objectText [(§"error", stringsText [(§"code", code); (§"message", message)])]))
  | MuxRedirect _ | MuxNotFound => None
  end.

(** ** Validation *)

Definition maxRequestBody : nat := Z.to_nat (Z.shiftl 1 20).

Definition idStart (c : byte) : bool :=
  let z := bval c in ((65 <=? z) && (z <=? 90) || (97 <=? z) && (z <=? 122) || (48 <=? z) && (z <=? 57))%Z.
Definition idByte (c : byte) : bool :=
  idStart c || bool_decide (c = "_"%byte) || bool_decide (c = "."%byte) || bool_decide (c = "-"%byte).

(** [^[A-Za-z0-9][A-Za-z0-9_.-]{0,127}$]. *)
Definition sessionIDPattern (id : gostring) : bool :=
  match id with
  | c :: r => idStart c && forallb idByte r && (length r <=? 127)
  | [] => false
  end.

Record createSessionRequest := { SessionID : gostring; OfferSDP : gostring }.

(** Decoding a value into the struct, by the names of its fields' tags. *)
Definition requestFields : list gostring := [§"sessionId"; §"offerSdp"].
Definition Unmarshal (v : jvalue) : option createSessionRequest :=
  (λ m : gmap gostring gostring, {| SessionID := default [] (m !! §"sessionId"); OfferSDP := default [] (m !! §"offerSdp") |}) <$>
    decodeStruct requestFields true v.

(** ** The handler *)

Section Handler.
Context {S : Type} `{!SessionService S}.
Variable sha256 : gostring → gostring.
Variable token : gostring.

Definition bearer : gostring := §"Bearer ".

Definition authorized (header : gostring) : bool :=
  if negb (HasPrefix header bearer) then false
  else seqb (sha256 (TrimPrefix header bearer)) (sha256 token).

(** http.MaxBytesReader: at most the limit is read; [tooLarge] when reading on
    fails because of it. *)
Definition decodeJSON (body : gostring) : result Z createSessionRequest :=
  let stream := if maxRequestBody <? length body then take maxRequestBody body else body in
  let tooLarge := maxRequestBody <? length body in
  let atEnd := if tooLarge then StatusRequestEntityTooLarge else StatusBadRequest in
  match scanValue stream with
  | Complete value rest =>
      match Unmarshal value with
      | None => Err StatusBadRequest
      | Some req =>
          match scanValue rest with
          | Blank => if tooLarge then Err atEnd else Ok req
          | Incomplete | Scalar _ => Err atEnd
          | Complete _ _ | Malformed => Err StatusBadRequest
          end
      end
  | Scalar value =>
      if tooLarge then Err atEnd
      else match Unmarshal value with None => Err StatusBadRequest | Some req => Ok req end
  | Malformed => Err StatusBadRequest
  | Blank | Incomplete => Err atEnd
  end.

Definition methodNotAllowed : response :=
  ErrorResponse StatusMethodNotAllowed §"method_not_allowed" §"method not allowed".
Definition invalidSessionID : response :=
  ErrorResponse StatusBadRequest §"invalid_session_id" §"sessionId must contain only safe ASCII identifier characters".

Definition writeRTCError (e : rtcError) : response :=
  match e with
  | ErrInvalidSDP => ErrorResponse StatusBadRequest §"invalid_sdp" §"offer SDP is invalid"
  | ErrOpusRequired => ErrorResponse StatusBadRequest §"opus_required" §"offer SDP must contain an Opus audio codec"
  | ErrSessionExists => ErrorResponse StatusConflict §"session_exists" §"sessionId already exists"
  | ErrSessionNotFound => ErrorResponse StatusNotFound §"session_not_found" §"session was not found"
  | ErrAnswerTimeout => ErrorResponse StatusGatewayTimeout §"answer_timeout" §"SDP answer generation timed out"
  | ErrOther => ErrorResponse StatusInternalServerError §"internal_error" §"internal server error"
  end.

Definition health (s : S) (r : request) : S * response :=
  if negb (seqb (Method r) §"GET") then (s, methodNotAllowed) else (s, JSON StatusOK [(§"status", §"ok")]).

Definition createSession (s : S) (r : request) : S * response :=
  if negb (seqb (Method r) §"POST") then (s, methodNotAllowed)
  else match ParseMediaType (ContentType r) with
  | Some mediaType =>
      if negb (seqb mediaType §"application/json") then
        (s, ErrorResponse StatusUnsupportedMediaType §"unsupported_media_type" §"Content-Type must be application/json")
      else match decodeJSON (Body r) with
      | Err status =>
          if (status =? StatusRequestEntityTooLarge)%Z
          then (s, ErrorResponse status §"request_too_large" §"request body must not exceed 1 MiB")
          else (s, ErrorResponse status §"invalid_request" §"request body must be one valid JSON object")
      | Ok req =>
          if negb (sessionIDPattern (SessionID req)) then (s, invalidSessionID)
          else if blank (OfferSDP req) then (s, ErrorResponse StatusBadRequest §"invalid_sdp" §"offerSdp must not be empty")
          else match svcCreate s (SessionID req) (OfferSDP req) with
               | (s', Ok answer) => (s', JSON StatusOK [(§"sessionId", SessionID req); (§"answerSdp", answer)])
               | (s', Err e) => (s', writeRTCError e)
               end
      end
  | None => (s, ErrorResponse StatusUnsupportedMediaType §"unsupported_media_type" §"Content-Type must be application/json")
  end.

Definition connected (s : S) (r : request) (id : gostring) : S * response :=
  if negb (seqb (Method r) §"POST") then (s, methodNotAllowed)
  else if negb (sessionIDPattern id) then (s, invalidSessionID)
  else match svcMarkConnected s id with
       | (s', Some e) => (s', writeRTCError e)
       | (s', None) => (s', JSON StatusOK [(§"status", §"ok")])
       end.

Definition session (s : S) (r : request) (id : gostring) : S * response :=
  if negb (seqb (Method r) §"DELETE") then (s, methodNotAllowed)
  else if negb (sessionIDPattern id) then (s, invalidSessionID)
  else match svcClose s id with
       | (s', Some e) => (s', writeRTCError e)
       | (s', None) => (s', JSON StatusOK [(§"status", §"closed")])
       end.

Definition mux (s : S) (r : request) : S * response :=
  match muxRoute r with
  | RouteHealth => health s r
  | RouteCreate => createSession s r
  | RouteConnected id => connected s r id
  | RouteSession id => session s r id
  | RouteV1NotFound => (s, ErrorResponse StatusNotFound §"not_found" §"resource not found")
  | RouteRedirect location => (s, MuxRedirect location)
  | RouteNotFound => (s, MuxNotFound)
  end.

Definition ServeHTTP (s : S) (r : request) : S * response :=
  if HasPrefix (urlPath r) §"/v1/" && negb (authorized (Authorization r))
  then (s, ErrorResponse StatusUnauthorized §"unauthorized" §"a valid bearer token is required")
  else mux s r.
End Handler.

(** ** Lemmas: escapes, cleaning and routing *)

(** A handler below /v1/ is only reached by a path whose decoding starts there. *)
Definition belowV1 (rt : route) : bool :=
  match rt with RouteCreate | RouteConnected _ | RouteSession _ | RouteV1NotFound => true | _ => false end.

(** The pattern a handler was registered for. *)
Definition patternOf (h : handlerName) : list segment :=
  match list_find (λ ph : gostring * handlerName, ph.2 = h) patterns with Some (_, (s, _)) => parsePattern s | None => [] end.

Lemma matchPath_tree segs :
  matchPath tree segs [] = match matchSegments segs with Some (h, values) => Some (patternOf h, h, values) | None => None end.
Proof.
  let t := eval vm_compute in tree in change tree with t.
  destruct segs as [|a rest]; [done|]. cbn [matchPath findChild].
  change (["h"; "e"; "a"; "l"; "t"; "h"; "z"])%byte with §"healthz". change (["v"; "1"])%byte with §"v1".
  cbn [matchSegments]. destruct (seqb a §"healthz") eqn:Ea.
  { apply seqb_eq in Ea as ->. by destruct rest. }
  destruct (seqb a §"v1"); [|by destruct rest]. destruct rest as [|b rest]; [done|]. cbn [matchPath findChild].
  change (["r"; "t"; "c"])%byte with §"rtc". cbn [negb].
  destruct (seqb b §"rtc"); [|by destruct rest as [|c [|d [|e [|f rest]]]]]. destruct rest as [|c rest]; [done|]. cbn [matchPath findChild].
  change (["s"; "e"; "s"; "s"; "i"; "o"; "n"; "s"])%byte with §"sessions".
  destruct (seqb c §"sessions"); [|by destruct rest as [|d [|e [|f rest]]]]. destruct rest as [|d rest]; [done|]. cbn [matchPath findChild].
  destruct (seqb d slash); [by destruct rest as [|e [|f rest]]|]. destruct rest as [|e rest]; [done|]. cbn [matchPath findChild].
  change (["c"; "o"; "n"; "n"; "e"; "c"; "t"; "e"; "d"])%byte with §"connected".
  destruct (seqb e §"connected"); by destruct rest as [|f rest].
Qed.

Lemma matchSegments_v1 segs h values :
  matchSegments segs = Some (h, values) → h ≠ healthHandler → ∃ b rest, segs = §"v1" :: b :: rest.
Proof.
  destruct segs as [|a [|b rest]]; cbn [matchSegments]; [done| |].
  - destruct (seqb a §"healthz"); [by intros [= <- _]|done].
  - destruct (seqb a §"v1") eqn:E; [|done]. apply seqb_eq in E as ->. eauto.
Qed.

Lemma findHandler_found {A} (t : node A) connect escaped p h values :
  findHandler t connect escaped = Handler p h values → matchPath t (segmentsOf escaped) [] = Some (p, h, values).
Proof.
  unfold findHandler. set (path := if connect then escaped else cleanPath escaped).
  case_match; [done|]. destruct (seqb path escaped) eqn:E; cbn [negb]; [|done]. apply seqb_eq in E as ->.
  destruct (matchPath t (segmentsOf escaped) []) as [[[p' h'] values']|]; [by intros [= -> -> ->]|done].
Qed.

Lemma muxRoute_v1 r : belowV1 (muxRoute r) = true → HasPrefix (urlPath r) §"/v1/" = true.
Proof.
  unfold muxRoute. destruct (findHandler _ _ _) as [p h values|loc|] eqn:Hf; [|done|done]. intros Hb.
  apply findHandler_found in Hf. rewrite matchPath_tree in Hf.
  destruct (matchSegments (segmentsOf (escapedPath r))) as [[h' values']|] eqn:Hm; [|done]. injection Hf as _ -> ->.
  assert (h ≠ healthHandler) as Hne by by intros ->. destruct (matchSegments_v1 _ _ _ Hm Hne) as (b&rest&Hs).
  unfold segmentsOf in Hs. destruct (IsAbs (escapedPath r)) eqn:Ha; [|done].
  destruct (Split_abs _ Ha) as (l&Hl&Hj&_). rewrite Hl in Hs. cbn [tail] in Hs.
  destruct l as [|x [|y l]]; try done. cbn [requestSegments] in Hs. injection Hs as Hx _.
  unfold urlPath. rewrite Hj, Join_cons by done.
  change (slash ++ x ++ slash ++ Join (y :: l) slash) with ([] ++ slash ++ (x ++ slash ++ Join (y :: l) slash)).
  rewrite !PathUnescape_slash, Hx. apply HasPrefix_true. by exists (PathUnescape (Join (y :: l) slash)).
Qed.

Lemma idByte_plain c : idByte c = true → c ≠ "%"%byte ∧ c ≠ "/"%byte.
Proof. intros H. split; intros ->; done. Qed.

Lemma sessionIDPattern_bytes id : sessionIDPattern id = true → forallb idByte id = true ∧ length id ≤ 128 ∧ id ≠ [].
Proof.
  destruct id as [|c r]; [done|]. cbn [sessionIDPattern forallb]. intros [[Hc Hr]%andb_true_iff Hl%Nat.leb_le]%andb_true_iff.
  unfold idByte at 1. rewrite Hc, Hr. simpl. split_and!; [done|lia|done].
Qed.

Lemma sessionIDPattern_elem id : sessionIDPattern id = true → elem_ok id ∧ PathUnescape id = id ∧ id ≠ slash.
Proof.
  intros H. destruct (sessionIDPattern_bytes id H) as (Hb&_&Hne).
  split_and!; [split_and!; [done|by intros ->|by intros ->|]|..].
  - apply not_true_iff_false. intros (a&b&->)%Contains_true. rewrite !forallb_app in Hb. bool_simpl. done.
  - apply PathUnescape_plain. eapply forallb_impl; [|exact Hb]. intros c Hc. destruct (idByte_plain c Hc) as [Hp _].
    apply negb_true_iff. by apply bool_decide_eq_false_2.
  - by intros ->.
Qed.

Lemma patternOf_exact h : h ≠ notFoundHandler → last (patternOf h) ≠ Some Multi.
Proof. by destruct h. Qed.

Lemma muxRoute_absPath r l h values :
  escapedPath r = absPath l → Forall elem_ok l → l ≠ [] →
  matchSegments (map PathUnescape l) = Some (h, values) → h ≠ notFoundHandler →
  muxRoute r = handlerRoute h (PathValue (patternOf h) values §"sessionId").
Proof.
  intros Hp Hl Hne Hm Hh. unfold muxRoute, findHandler. rewrite Hp, cleanPath_absPath by done.
  assert ((if seqb (Method r) §"CONNECT" then absPath l else absPath l) = absPath l) as -> by by destruct (seqb _ _).
  rewrite segmentsOf_absPath, matchPath_tree, Hm by done. cbn [exactMatch].
  assert (match last (patternOf h) with
          | Some Multi => bool_decide (last (absPath l) = Some "/"%byte) && (length (patternOf h) =? length (Split (absPath l) slash) - 1)
          | _ => true end = true) as -> by (pose proof (patternOf_exact h Hh); destruct (last (patternOf h)) as [[]|]; done).
  by rewrite seqb_refl.
Qed.

Ltac forall_list := repeat first [apply Forall_nil; exact I|apply Forall_cons; split]; auto.

(** Requests of the API for an id. *)
Definition connectedPath (id : gostring) : gostring := absPath [§"v1"; §"rtc"; §"sessions"; id; §"connected"].
Definition sessionPath (id : gostring) : gostring := absPath [§"v1"; §"rtc"; §"sessions"; id].
Definition createPath : gostring := absPath [§"v1"; §"rtc"; §"sessions"].

Lemma elem_ok_lits : elem_ok §"v1" ∧ elem_ok §"rtc" ∧ elem_ok §"sessions" ∧ elem_ok §"connected".
Proof. by repeat split. Qed.

(** An id in a path segment, escaped or not: any but the empty one, "." and
    ".." (which the path's cleaning removes) and "/" (a trailing slash). *)
Definition routable (id : gostring) : Prop := id ≠ [] ∧ id ≠ §"." ∧ id ≠ §".." ∧ id ≠ slash.

Lemma route_session r e id :
  elem_ok e → PathUnescape e = id → id ≠ slash → escapedPath r = sessionPath e → muxRoute r = RouteSession id.
Proof.
  intros He Hu Hs Hp. destruct elem_ok_lits as (?&?&?&?).
  rewrite (muxRoute_absPath r _ sessionHandler [id] Hp); [done|by forall_list|done| |done].
  cbn [map matchSegments]. rewrite Hu. by rewrite (proj2 (seqb_neq id slash)).
Qed.

Lemma route_connected r e id :
  elem_ok e → PathUnescape e = id → id ≠ slash → escapedPath r = connectedPath e → muxRoute r = RouteConnected id.
Proof.
  intros He Hu Hs Hp. destruct elem_ok_lits as (?&?&?&?).
  rewrite (muxRoute_absPath r _ connectedHandler [id] Hp); [done|by forall_list|done| |done].
  cbn [map matchSegments]. rewrite Hu. by rewrite (proj2 (seqb_neq id slash)).
Qed.

Lemma route_create r : escapedPath r = createPath → muxRoute r = RouteCreate.
Proof. intros Hp. unfold muxRoute. rewrite Hp. by destruct (seqb (Method r) _). Qed.

(** ** What a client can tell from a response *)

(** A creation that is answered with a session made its id live; an authorized
    DELETE ends the session whatever is answered. *)
Inductive news := Created (id : gostring) | Deleted (id : gostring).

Definition told (sha256 : gostring → gostring) (token : gostring) (r : request) (resp : response) : option news :=
  if negb (authorized sha256 token (Authorization r)) then None
  else match muxRoute r, resp with
  | RouteCreate, JSON _ ((_, id) :: _) => Some (Created id)
  | RouteSession id, _ => if seqb (Method r) §"DELETE" && sessionIDPattern id then Some (Deleted id) else None
  | _, _ => None
  end.

Lemma authorized_below sha256 token r :
  HasPrefix (urlPath r) §"/v1/" && negb (authorized sha256 token (Authorization r)) = false →
  belowV1 (muxRoute r) = true → authorized sha256 token (Authorization r) = true.
Proof. intros Ha Hb%muxRoute_v1. rewrite Hb in Ha. by destruct (authorized _ _ _). Qed.

(** The call of the service behind a request, as far as the client can tell. *)
Lemma ServeHTTP_told {S : Type} `{SessionService S} (sha256 : gostring → gostring) (token : gostring) (s : S) (r : request) :
  let '(s', resp) := ServeHTTP sha256 token s r in
  match told sha256 token r resp with
  | Some (Created id) => ∃ offer answer, svcCreate s id offer = (s', Ok answer)
  | Some (Deleted id) => ∃ err, svcClose s id = (s', err)
  | None => s' = s ∨ (∃ id offer err, svcCreate s id offer = (s', Err err)) ∨ (∃ id err, svcMarkConnected s id = (s', err))
  end.
Proof.
  destruct (ServeHTTP _ _ s r) as [s' resp] eqn:E. unfold ServeHTTP in E. unfold told.
  destruct (HasPrefix (urlPath r) §"/v1/" && negb (authorized sha256 token (Authorization r))) eqn:Ha.
  { injection E as <- <-. apply andb_true_iff in Ha as [_ ->]. by left. }
  pose proof (authorized_below _ _ _ Ha) as Hauth. clear Ha.
  unfold mux in E. destruct (muxRoute r) as [| |id|id| |loc|] eqn:Hr; try rewrite (Hauth eq_refl); cbn [negb].
  - unfold health in E. destruct (negb (seqb (Method r) _)); injection E as <- <-; destruct (negb _); by left.
  - unfold createSession in E.
    destruct (negb (seqb (Method r) _)); [injection E as <- <-; by left|].
    destruct (ParseMediaType _) as [mt|]; [|injection E as <- <-; by left].
    destruct (negb (seqb mt _)); [injection E as <- <-; by left|].
    destruct (decodeJSON _) as [req|status]; [|case_match; injection E as <- <-; by left].
    destruct (negb (sessionIDPattern (SessionID req))); [injection E as <- <-; by left|].
    destruct (blank (OfferSDP req)); [injection E as <- <-; by left|].
    destruct (svcCreate s (SessionID req) (OfferSDP req)) as [s1 [answer|e]] eqn:Hc; injection E as <- <-; [by exists (OfferSDP req), answer|].
    destruct (writeRTCError e) eqn:Hw; [by destruct e|right; left; by eexists _, _, _..].
  - unfold connected in E.
    destruct (negb (seqb _ _)); [injection E as <- <-; by left|]. destruct (negb (sessionIDPattern id)); [injection E as <- <-; by left|].
    destruct (svcMarkConnected s id) as [s1 [e|]] eqn:Hc; injection E as <- <-; right; right; by eexists _, _.
  - unfold session in E. destruct (seqb (Method r) §"DELETE"); cbn [negb andb] in E |- *; [|injection E as <- <-; by left].
    destruct (sessionIDPattern id); cbn [negb] in E; [|injection E as <- <-; by left].
    destruct (svcClose s id) as [s1 [e|]] eqn:Hc; injection E as <- <-; by eexists.
  - injection E as <- <-. by left.
  - injection E as <- <-. destruct (negb _); by left.
  - injection E as <- <-. destruct (negb _); by left.
Qed.

Lemma decodeJSON_status body status :
  decodeJSON body = Err status → status = StatusBadRequest ∨ status = StatusRequestEntityTooLarge.
Proof. unfold decodeJSON. intros H. repeat case_match; simplify_eq; auto. Qed.

(** ** Properties *)

(** The service was not called. *)
Ltac unchanged Hsame := left; split; [done|by intros H1 H2; destruct (Hsame H1 H2)].

(** C8. A request changes the service's state only through one of its three
    operations, called once, with an id of the documented form and for Create a
    non-blank offer, and only if the request was authorized: its decoded path
    is below /v1/ and its bearer token hashes like the configured one. *)
Theorem service_access {S : Type} `{!SessionService S} sha256 (token : gostring)
    (s : S) (r : request) :
  let s' := fst (ServeHTTP sha256 token s r) in
  (s' = s ∧ (HasPrefix (urlPath r) §"/v1/" = true → authorized sha256 token (Authorization r) = false →
     snd (ServeHTTP sha256 token s r) =
     ErrorResponse StatusUnauthorized §"unauthorized" §"a valid bearer token is required")) ∨
  (HasPrefix (urlPath r) §"/v1/" = true ∧ authorized sha256 token (Authorization r) = true ∧
   ∃ id, sessionIDPattern id = true ∧
     ((∃ offer, blank offer = false ∧ s' = fst (svcCreate s id offer)) ∨
      s' = fst (svcMarkConnected s id) ∨ s' = fst (svcClose s id))).
Proof.
  cbn zeta. unfold ServeHTTP. destruct (HasPrefix (urlPath r) §"/v1/" && negb (authorized sha256 token (Authorization r))) eqn:Ha.
  { by left. }
  assert (belowV1 (muxRoute r) = true → HasPrefix (urlPath r) §"/v1/" = true ∧ authorized sha256 token (Authorization r) = true) as Hv.
  { intros Hb%muxRoute_v1. rewrite Hb in Ha. split; [done|]. by destruct (authorized _ _ _). }
  assert (Hsame : HasPrefix (urlPath r) §"/v1/" = true → authorized sha256 token (Authorization r) = false → False)
    by (intros H1 H2; by rewrite H1, H2 in Ha).
  clear Ha. unfold mux. destruct (muxRoute r) as [| |id|id| |loc|] eqn:Hr; try specialize (Hv eq_refl) as [Hv1 Hv2]; try unchanged Hsame.
  - unfold health. case_match; unchanged Hsame.
  - unfold createSession.
    destruct (negb _); [unchanged Hsame|]. destruct (ParseMediaType _) as [mt|]; [|unchanged Hsame].
    destruct (negb (seqb mt _)); [unchanged Hsame|].
    destruct (decodeJSON _) as [req|status]; [|case_match; unchanged Hsame].
    destruct (sessionIDPattern (SessionID req)) eqn:Hid; [cbn [negb]|unchanged Hsame].
    destruct (blank (OfferSDP req)) eqn:Hb; [unchanged Hsame|].
    right. split_and!; [done|done|]. exists (SessionID req). split; [done|]. left.
    exists (OfferSDP req). split; [done|]. by destruct (svcCreate s _ _) as [s' [|]].
  - unfold connected. destruct (negb (seqb _ _)); [unchanged Hsame|].
    destruct (sessionIDPattern id) eqn:Hid; [|unchanged Hsame].
    right. split_and!; [done|done|]. exists id. split; [done|]. right; left. cbn [negb].
    by destruct (svcMarkConnected s id) as [s' [|]].
  - unfold session. destruct (negb (seqb _ _)); [unchanged Hsame|].
    destruct (sessionIDPattern id) eqn:Hid; [|unchanged Hsame].
    right. split_and!; [done|done|]. exists id. split; [done|]. right; right. cbn [negb].
    by destruct (svcClose s id) as [s' [|]].
Qed.

(** The error of an unknown id is told apart from every other one. *)
Lemma writeRTCError_not_found e :
  writeRTCError e = ErrorResponse StatusNotFound §"session_not_found" §"session was not found" ↔ e = ErrSessionNotFound.
Proof. split; [by destruct e|by intros ->]. Qed.

Lemma writeRTCError_exists e :
  writeRTCError e = ErrorResponse StatusConflict §"session_exists" §"sessionId already exists" ↔ e = ErrSessionExists.
Proof. split; [by destruct e|by intros ->]. Qed.

Section Served.
Context {S : Type} `{SessionLaws S}.
Variables (sha256 : gostring → gostring) (token : gostring) (s : S) (r : request) (id : gostring).
Hypothesis (Hinv : svcInv s) (Hid : sessionIDPattern id = true) (Hauth : authorized sha256 token (Authorization r) = true).

Lemma serve_connected :
  Method r = §"POST" → escapedPath r = connectedPath id →
  let '(s', resp) := ServeHTTP sha256 token s r in
  svcInv s' ∧ (∀ j, live s' j ↔ live s j) ∧
  (resp = JSON StatusOK [(§"status", §"ok")] ∧ live s id ∨
   resp = ErrorResponse StatusNotFound §"session_not_found" §"session was not found" ∧ ¬ live s id).
Proof.
  intros Hm Hp. unfold ServeHTTP, mux. rewrite Hauth, andb_false_r, (route_connected r id id) by (done || by apply sessionIDPattern_elem). unfold connected. rewrite Hm, Hid. cbn.
  pose proof (law_mark s id Hinv) as Hl. destruct (svcMarkConnected s id) as [s1 [e|]].
  - destruct Hl as [(_&_&Hn&_)|(?&?&[= ->]&?)]; [done|]. split_and!; [done|done|]. by right.
  - destruct Hl as [(?&?&_&?)|(_&_&Hn&_)]; [|done]. split_and!; [done|done|]. by left.
Qed.

Lemma serve_delete :
  Method r = §"DELETE" → escapedPath r = sessionPath id →
  let '(s', resp) := ServeHTTP sha256 token s r in
  svcInv s' ∧ (∀ j, live s' j ↔ live s j ∧ j ≠ id) ∧
  (resp = ErrorResponse StatusNotFound §"session_not_found" §"session was not found" ↔ ¬ live s id).
Proof.
  intros Hm Hp. unfold ServeHTTP, mux. rewrite Hauth, andb_false_r, (route_session r id id) by (done || by apply sessionIDPattern_elem). unfold session. rewrite Hm, Hid. cbn.
  pose proof (law_close s id Hinv) as Hl. destruct (svcClose s id) as [s1 [e|]]; destruct Hl as (?&?&Hnf); (split_and!; [done|done|]).
  - rewrite writeRTCError_not_found. rewrite <- Hnf. split; [by intros ->|by intros [= ->]].
  - split; [done|]. by intros Hn%Hnf.
Qed.

Lemma serve_create offer :
  Method r = §"POST" → escapedPath r = createPath → ParseMediaType (ContentType r) = Some §"application/json" →
  decodeJSON (Body r) = Ok {| SessionID := id; OfferSDP := offer |} → blank offer = false →
  let '(s', resp) := ServeHTTP sha256 token s r in
  svcInv s' ∧
  ((∃ answer, resp = JSON StatusOK [(§"sessionId", id); (§"answerSdp", answer)] ∧ ¬ live s id ∧
              ∀ j, live s' j ↔ j = id ∨ live s j) ∨
   (∃ e, resp = writeRTCError e ∧ ∀ j, live s' j ↔ live s j) ∧
   (resp = ErrorResponse StatusConflict §"session_exists" §"sessionId already exists" ↔ live s id)).
Proof.
  intros Hm Hp Hct Hdec Hb. unfold ServeHTTP, mux. rewrite Hauth, andb_false_r, (route_create r Hp). unfold createSession.
  rewrite Hm, Hct, Hdec. cbn [SessionID OfferSDP]. rewrite Hid, Hb. cbn.
  pose proof (law_create s id offer Hinv) as Hl. destruct (svcCreate s id offer) as [s1 [answer|e]].
  - destruct Hl as (?&?&?). split; [done|]. left. eauto.
  - destruct Hl as (?&Hex&?). split; [done|]. right. split; [eauto|]. by rewrite writeRTCError_exists.
Qed.
End Served.

(** C33. Over a service with its laws, the API is a set of live ids: POST
    .../{id}/connected answers 200 or 404 as the id is live, DELETE removes
    exactly that id and answers 404 exactly if it was not live, and POST of a
    valid creation answers 409 exactly if it was live, makes it live if it
    answers 200, and changes nothing otherwise. *)
Theorem http_live_ids {S : Type} `{SessionLaws S} sha256 (token : gostring)
    (s : S) (r : request) (id : gostring) :
  svcInv s → sessionIDPattern id = true → authorized sha256 token (Authorization r) = true →
  let '(s', resp) := ServeHTTP sha256 token s r in
  (Method r = §"POST" → escapedPath r = connectedPath id →
     svcInv s' ∧ (∀ j, live s' j ↔ live s j) ∧
     (resp = JSON StatusOK [(§"status", §"ok")] ∧ live s id ∨
      resp = ErrorResponse StatusNotFound §"session_not_found" §"session was not found" ∧ ¬ live s id)) ∧
  (Method r = §"DELETE" → escapedPath r = sessionPath id →
     svcInv s' ∧ (∀ j, live s' j ↔ live s j ∧ j ≠ id) ∧
     (resp = ErrorResponse StatusNotFound §"session_not_found" §"session was not found" ↔ ¬ live s id)) ∧
  (Method r = §"POST" → escapedPath r = createPath → ParseMediaType (ContentType r) = Some §"application/json" →
   ∀ offer, decodeJSON (Body r) = Ok {| SessionID := id; OfferSDP := offer |} → blank offer = false →
     svcInv s' ∧
     ((∃ answer, resp = JSON StatusOK [(§"sessionId", id); (§"answerSdp", answer)] ∧ ¬ live s id ∧
                 ∀ j, live s' j ↔ j = id ∨ live s j) ∨
      (∃ e, resp = writeRTCError e ∧ ∀ j, live s' j ↔ live s j) ∧
      (resp = ErrorResponse StatusConflict §"session_exists" §"sessionId already exists" ↔ live s id))).
Proof.
  intros Hinv Hid Hauth.
  pose proof (serve_connected sha256 token s r id Hinv Hid Hauth) as H1.
  pose proof (serve_delete sha256 token s r id Hinv Hid Hauth) as H2.
  pose proof (serve_create sha256 token s r id Hinv Hid Hauth) as H3.
  destruct (ServeHTTP _ _ s r) as [s' resp]. split_and!; [done|done|]. intros Hm Hp Hct offer. by apply H3.
Qed.

(** A service that keeps its ids in a list and accepts every offer. *)
Definition listCreate (s : list gostring) (id offer : gostring) : list gostring * result rtcError gostring :=
  if bool_decide (id ∈ s) then (s, Err ErrSessionExists) else (id :: s, Ok offer).
Definition listMark (s : list gostring) (id : gostring) : list gostring * option rtcError :=
  (s, if bool_decide (id ∈ s) then None else Some ErrSessionNotFound).
Definition listClose (s : list gostring) (id : gostring) : list gostring * option rtcError :=
  (filter (λ j, j ≠ id) s, if bool_decide (id ∈ s) then None else Some ErrSessionNotFound).

#[global] Instance listService : SessionService (list gostring) :=
  {| svcCreate := listCreate; svcMarkConnected := listMark; svcClose := listClose |}.

#[global] Program Instance listLaws : SessionLaws (list gostring) :=
  {| svcInv _ := True; live s id := id ∈ s |}.
Next Obligation.
  intros s id offer _. unfold svcCreate, listService, listCreate. case_bool_decide; (split; [done|]); [by split|].
  split; [done|]. intros j. by rewrite elem_of_cons.
Qed.
Next Obligation.
  intros s id _. unfold svcMarkConnected, listService, listMark. case_bool_decide; [left|right]; by split_and!.
Qed.
Next Obligation.
  intros s id _. unfold svcClose, listService, listClose. split; [done|]. split.
  - intros j. rewrite list_elem_of_filter. tauto.
  - by case_bool_decide.
Qed.

Lemma http_live_ids_witness :
  let r := {| Method := §"DELETE"; escapedPath := §"/v1/rtc/sessions/kitchen"; Authorization := §"Bearer secret";
              ContentType := []; Body := [] |} in
  snd (ServeHTTP (λ x, x) §"secret" [§"hall"; §"kitchen"] r) ≠
  ErrorResponse StatusNotFound §"session_not_found" §"session was not found".
Proof.
  intros r Hresp.
  pose proof (http_live_ids (λ x, x) §"secret" [§"hall"; §"kitchen"] r §"kitchen"
    I eq_refl eq_refl) as H.
  destruct (ServeHTTP _ _ _ r) as [s' resp]. destruct H as (_&Hdel&_).
  destruct (Hdel eq_refl eq_refl) as (_&_&Hiff). apply Hiff; [exact Hresp|]. apply list_elem_of_further, list_elem_of_here.
Defined.

(** ** The router *)

(** What each registered pattern matches, and what the tree finds. *)
Lemma matchSegments_spec segs :
  match matchSegments segs with
  | Some (h, values) => patternMatch (patternOf h) segs = Some values ∧
      ∀ h', is_Some (patternMatch (patternOf h') segs) → covers (patternOf h) (patternOf h') = true
  | None => ∀ h', patternMatch (patternOf h') segs = None
  end.
Proof.
  assert (Hp : patternOf healthHandler = [Lit §"healthz"] ∧
    patternOf createSessionHandler = [Lit §"v1"; Lit §"rtc"; Lit §"sessions"] ∧
    patternOf connectedHandler = [Lit §"v1"; Lit §"rtc"; Lit §"sessions"; Wild §"sessionId"; Lit §"connected"] ∧
    patternOf sessionHandler = [Lit §"v1"; Lit §"rtc"; Lit §"sessions"; Wild §"sessionId"] ∧
    patternOf notFoundHandler = [Lit §"v1"; Multi]) by (vm_compute; by split_and!).
  destruct Hp as (P1&P2&P3&P4&P5).
  assert (Hhv : ∀ a, seqb a §"healthz" = true → seqb a §"v1" = false) by by intros a ->%seqb_eq.
  destruct segs as [|a [|b [|c [|d [|e [|f rest]]]]]]; cbn [matchSegments];
    repeat match goal with |- context [seqb ?x ?y] => destruct (seqb x y) eqn:? end; cbn [andb negb];
    try match goal with H : seqb _ §"healthz" = true |- _ => pose proof (Hhv _ H) end; try congruence.
  all: try (split; [rewrite ?P1, ?P2, ?P3, ?P4, ?P5; cbn [patternMatch];
      repeat match goal with H : seqb _ _ = _ |- _ => rewrite H end; reflexivity|]).
  all: intros []; rewrite ?P1, ?P2, ?P3, ?P4, ?P5; cbn [patternMatch];
    repeat match goal with H : seqb _ _ = _ |- _ => rewrite H end;
    repeat match goal with |- context [seqb ?x ?y] => is_var x; destruct (seqb x y) end;
    first [reflexivity|by intros _|by intros [? [=]]].
Qed.

Lemma patterns_of s h : (s, h) ∈ patterns → parsePattern s = patternOf h.
Proof.
  assert (forallb (λ ph : gostring * handlerName, bool_decide (parsePattern ph.1 = patternOf ph.2)) patterns = true) as H
    by (vm_compute; reflexivity).
  rewrite forallb_forall in H. intros Hin%list_elem_of_In. apply H in Hin. by apply bool_decide_eq_true_1 in Hin.
Qed.

Lemma patterns_registered h : ∃ s, (s, h) ∈ patterns ∧ patternOf h = parsePattern s.
Proof.
  assert (∀ n s, patterns !! n = Some (s, h) → ∃ s, (s, h) ∈ patterns ∧ patternOf h = parsePattern s) as H.
  { intros n s Hn%list_elem_of_lookup_2. exists s. by rewrite (patterns_of s h Hn). }
  destruct h; [by eapply (H 0)|by eapply (H 1)|by eapply (H 2)|by eapply (H 3)|by eapply (H 4)].
Qed.

(** C26. The routing tree implements the documented precedence of net/http over
    the patterns [New] registers: the handler found for a path is that of a
    registered pattern that matches it, with the values of its wildcards, and
    every other registered pattern that matches the path matches all paths of
    this one; no handler is found only if no pattern matches. *)
Theorem router_most_specific (segs : list gostring) :
  match matchPath tree segs [] with
  | Some (p, h, values) =>
      (∃ s, (s, h) ∈ patterns ∧ p = parsePattern s) ∧ patternMatch p segs = Some values ∧
      ∀ s' h', (s', h') ∈ patterns → is_Some (patternMatch (parsePattern s') segs) → moreSpecific p (parsePattern s')
  | None => ∀ s' h', (s', h') ∈ patterns → patternMatch (parsePattern s') segs = None
  end.
Proof.
  rewrite matchPath_tree. pose proof (matchSegments_spec segs) as Hm. destruct (matchSegments segs) as [[h values]|].
  - destruct Hm as [Hv Hc]. split_and!; [apply patterns_registered|done|].
    intros s' h' Hin. rewrite (patterns_of s' h' Hin). intros Hs. by apply covers_moreSpecific, Hc.
  - intros s' h' Hin. by rewrite (patterns_of s' h' Hin).
Qed.

(** C25. An id survives the URL: the segment a client writes with url.PathEscape
    decodes to the id, and a request for it (not CONNECT) reaches the session's
    handlers with exactly that id if and only if the id is not empty, ".", ".."
    or "/". *)
Theorem session_path_roundtrip (id : gostring) (r : request) :
  Method r ≠ §"CONNECT" →
  PathUnescape (PathEscape id) = id ∧
  (escapedPath r = sessionPath (PathEscape id) → (muxRoute r = RouteSession id ↔ routable id)) ∧
  (escapedPath r = connectedPath (PathEscape id) → routable id → muxRoute r = RouteConnected id).
Proof.
  intros Hm. split; [apply PathUnescape_PathEscape|]. split.
  - intros Hp. split.
    + intros Hr. split_and!; intros ->; unfold muxRoute in Hr; rewrite Hp, (proj2 (seqb_neq _ _) Hm) in Hr;
        vm_compute in Hr; discriminate Hr.
    + intros (H1&H2&H3&H4). eapply route_session; [by apply PathEscape_elem|apply PathUnescape_PathEscape|done|done].
  - intros Hp (H1&H2&H3&H4). eapply route_connected; [by apply PathEscape_elem|apply PathUnescape_PathEscape|done|done].
Qed.

Lemma session_path_roundtrip_witness :
  let r := {| Method := §"DELETE"; escapedPath := §"/v1/rtc/sessions/a%2Fb%20%25"; Authorization := []; ContentType := []; Body := [] |} in
  escapedPath r = sessionPath (PathEscape §"a/b %") ∧ muxRoute r = RouteSession §"a/b %".
Proof.
  intros r. assert (escapedPath r = sessionPath (PathEscape §"a/b %")) as Hp by (vm_compute; reflexivity).
  split; [exact Hp|].
  assert (Method r ≠ §"CONNECT") as Hm by (vm_compute; discriminate).
  apply (proj1 (proj2 (session_path_roundtrip §"a/b %" r Hm)) Hp).
  split; [discriminate|]. split; [discriminate|]. split; discriminate.
Defined.

(** ** The request body *)

Lemma decodeJSON_ok body req :
  decodeJSON body = Ok req →
  length body ≤ maxRequestBody ∧ ∃ value, Unmarshal value = Some req ∧
    (scanValue body = Scalar value ∨ ∃ rest, scanValue body = Complete value rest ∧ scanValue rest = Blank).
Proof.
  unfold decodeJSON. intros H. destruct (Nat.ltb_spec maxRequestBody (length body)); repeat case_match; simplify_eq; eauto 10.
Qed.

Lemma decodeJSON_large body :
  decodeJSON body = Err StatusRequestEntityTooLarge → maxRequestBody < length body.
Proof.
  unfold decodeJSON. intros H. destruct (Nat.ltb_spec maxRequestBody (length body)); [done|]. repeat case_match; simplify_eq.
Qed.

Lemma to_nat_pos z : (0 < z)%Z → Z.to_nat z ≠ 0.
Proof. lia. Qed.

Lemma maxRequestBody_pos : maxRequestBody ≠ 0.
Proof. unfold maxRequestBody. by apply to_nat_pos. Qed.

#[global] Opaque maxRequestBody.

Lemma decodeJSON_small stream v rest :
  length stream ≤ maxRequestBody → scanValue stream = Complete v rest → scanValue rest = Blank →
  decodeJSON stream = match Unmarshal v with Some req => Ok req | None => Err StatusBadRequest end.
Proof. intros Hl Hs Hr. unfold decodeJSON. rewrite (proj2 (Nat.ltb_ge _ _) Hl), Hs, Hr. by destruct (Unmarshal v). Qed.

(** The request struct an object of strings decodes to. *)
Lemma Unmarshal_strings fields :
  Unmarshal (JObject (stringMembers fields)) =
  (λ m : gmap gostring gostring, {| SessionID := default [] (m !! §"sessionId"); OfferSDP := default [] (m !! §"offerSdp") |}) <$>
    foldl (setString requestFields true) (Some ∅) fields.
Proof. unfold Unmarshal. by rewrite decodeStruct_stringMembers. Qed.

Definition requestText (id offer : gostring) : gostring := stringsText [(§"sessionId", id); (§"offerSdp", offer)].

Lemma Unmarshal_request id offer :
  Unmarshal (JObject (stringMembers [(§"sessionId", id); (§"offerSdp", offer)])) =
  Some {| SessionID := ToValidUTF8 id; OfferSDP := ToValidUTF8 offer |}.
Proof.
  rewrite Unmarshal_strings. cbn [foldl setString fst snd].
  change (fieldNamed requestFields (ToValidUTF8 §"sessionId")) with (Some §"sessionId").
  change (fieldNamed requestFields (ToValidUTF8 §"offerSdp")) with (Some §"offerSdp"). reflexivity.
Qed.

Lemma setString_None names strict fields : foldl (setString names strict) None fields = None.
Proof. by induction fields. Qed.

Lemma setString_unknown names fields m f :
  f ∈ fields → fieldNamed names (ToValidUTF8 f.1) = None → foldl (setString names true) m fields = None.
Proof.
  intros Hf Hn. revert m. induction Hf as [f fields|f g fields _ IH]; intros m; cbn [foldl]; [|by apply IH].
  destruct m as [m|]; [|apply setString_None]. cbn [setString]. rewrite Hn. apply setString_None.
Qed.

Lemma decodeJSON_request id offer space :
  forallb isSpace space = true →
  decodeJSON (requestText id offer ++ space) =
  if maxRequestBody <? length (requestText id offer ++ space) then Err StatusRequestEntityTooLarge
  else Ok {| SessionID := ToValidUTF8 id; OfferSDP := ToValidUTF8 offer |}.
Proof.
  intros Hsp. set (body := requestText id offer ++ space). set (fields := [(§"sessionId", id); (§"offerSdp", offer)]).
  assert (fields ≠ []) as Hne by done.
  destruct (Nat.ltb_spec maxRequestBody (length body)) as [Hl|Hl].
  - unfold decodeJSON. rewrite (proj2 (Nat.ltb_lt _ _) Hl). unfold body, requestText. fold fields.
    destruct (scanValue_stringsText_take fields space maxRequestBody Hne Hsp maxRequestBody_pos) as [->|(rest&Hr&->)]; [reflexivity|].
    unfold fields. rewrite Unmarshal_request, (scanValue_spaces rest Hr). reflexivity.
  - rewrite (decodeJSON_small _ _ _ Hl (scanValue_stringsText fields space Hne) (scanValue_spaces _ Hsp)).
    unfold fields. rewrite Unmarshal_request. reflexivity.
Qed.

Lemma sessionIDPattern_valid id : sessionIDPattern id = true → ToValidUTF8 id = id.
Proof.
  intros Hid. apply ToValidUTF8_ascii. destruct (sessionIDPattern_bytes id Hid) as (Hb&_&_). revert Hb. apply forallb_impl.
  intros c. unfold idByte, idStart. intros H. repeat (apply orb_true_iff in H as [H|H]); try (apply bool_decide_eq_true_1 in H as ->; reflexivity); lia.
Qed.

(** C16. The body a client prints for a creation is read back: the id and the
    offer with every byte that is not UTF-8 replaced by U+FFFD - for valid UTF-8
    the strings themselves - or 413 exactly if the body is too long, also with
    white space after it.  An object of strings with any name that is no field
    of the request, up to case, is refused with 400. *)
Theorem request_body_roundtrip (id offer space : gostring) :
  forallb isSpace space = true →
  let body := requestText id offer ++ space in
  decodeJSON body =
    (if maxRequestBody <? length body then Err StatusRequestEntityTooLarge
     else Ok {| SessionID := ToValidUTF8 id; OfferSDP := ToValidUTF8 offer |}) ∧
  (ValidString id = true → ToValidUTF8 id = id) ∧
  ∀ fields name x, (name, x) ∈ fields → fieldNamed requestFields (ToValidUTF8 name) = None →
    length (stringsText fields) ≤ maxRequestBody → decodeJSON (stringsText fields) = Err StatusBadRequest.
Proof.
  intros Hsp body. split_and!.
  - by apply decodeJSON_request.
  - apply ToValidUTF8_valid.
  - intros fields name x Hin Hn Hl. assert (fields ≠ []) as Hne by (by intros ->; apply elem_of_nil in Hin).
    pose proof (scanValue_stringsText fields [] Hne) as Hs. rewrite app_nil_r in Hs.
    rewrite (decodeJSON_small _ _ _ Hl Hs eq_refl), Unmarshal_strings, (setString_unknown _ _ _ _ Hin Hn). done.
Qed.

(** An offer with a byte that is no UTF-8. *)
Lemma request_body_roundtrip_witness :
  decodeJSON (requestText §"kitchen" (§"v=0 " ++ [Byte.xff]) ++ lf) =
    Ok {| SessionID := §"kitchen"; OfferSDP := §"v=0 " ++ [Byte.xef; Byte.xbf; Byte.xbd] |}.
Proof.
  pose proof (request_body_roundtrip §"kitchen" (§"v=0 " ++ [Byte.xff]) lf eq_refl) as [H _].
  replace (maxRequestBody <? _) with false in H by (vm_compute; reflexivity). exact H.
Defined.

Lemma writeRTCError_status e : ∃ status code message, writeRTCError e = ErrorResponse status code message ∧ status ≠ StatusRequestEntityTooLarge.
Proof. destruct e; do 3 eexists; (split; [reflexivity|discriminate]). Qed.

Section Creation.
Context {S : Type} `{!SessionService S}.
Variables (s s' : S) (r : request) (resp : response).
Hypothesis (Hserve : createSession s r = (s', resp)).

Lemma create_ok fields :
  resp = JSON StatusOK fields → ∃ value req answer,
     (scanValue (Body r) = Scalar value ∨ ∃ rest, scanValue (Body r) = Complete value rest ∧ scanValue rest = Blank) ∧
     Unmarshal value = Some req ∧ sessionIDPattern (SessionID req) = true ∧ blank (OfferSDP req) = false ∧
     svcCreate s (SessionID req) (OfferSDP req) = (s', Ok answer) ∧
     fields = [(§"sessionId", SessionID req); (§"answerSdp", answer)].
Proof using Hserve.
  intros ->. revert Hserve. unfold createSession.
  destruct (negb (seqb (Method r) _)); [done|]. destruct (ParseMediaType _) as [mt|]; [|done].
  destruct (negb (seqb mt _)); [done|].
  destruct (decodeJSON _) as [req|status] eqn:Hd; [|by case_match].
  destruct (sessionIDPattern (SessionID req)) eqn:Hid; [|done]. destruct (blank (OfferSDP req)) eqn:Hb; [done|]. cbn [negb].
  destruct (svcCreate s _ _) as [s1 [answer|e]] eqn:Hc; [|by destruct e]. intros [= -> <-].
  destruct (decodeJSON_ok _ _ Hd) as (_&value&?&?). by exists value, req, answer.
Qed.

Lemma create_413 code message :
  resp = ErrorResponse StatusRequestEntityTooLarge code message → maxRequestBody < length (Body r).
Proof using Hserve.
  intros ->. revert Hserve. unfold createSession.
  destruct (negb (seqb (Method r) _)); [done|]. destruct (ParseMediaType _) as [mt|]; [|done].
  destruct (negb (seqb mt _)); [done|].
  destruct (decodeJSON _) as [req|status] eqn:Hd.
  - destruct (negb (sessionIDPattern _)); [done|]. destruct (blank _); [done|].
    destruct (svcCreate s _ _) as [s1 [answer|e]]; [done|]. by destruct e.
  - destruct (decodeJSON_status _ _ Hd) as [->| ->]; [done|]. intros _. by eapply decodeJSON_large.
Qed.

Lemma create_large : maxRequestBody < length (Body r) → s' = s ∧ ∀ fields, resp ≠ JSON StatusOK fields.
Proof using Hserve.
  intros Hl. revert Hserve. unfold createSession.
  destruct (negb (seqb (Method r) _)); [by intros [= <- <-]|]. destruct (ParseMediaType _) as [mt|]; [|by intros [= <- <-]].
  destruct (negb (seqb mt _)); [by intros [= <- <-]|].
  destruct (decodeJSON _) as [req|status] eqn:Hd; [|by case_match; intros [= <- <-]].
  destruct (decodeJSON_ok _ _ Hd) as [? _]. lia.
Qed.

Lemma create_large_413 :
  maxRequestBody < length (Body r) → Method r = §"POST" → ParseMediaType (ContentType r) = Some §"application/json" →
  scanValue (take maxRequestBody (Body r)) = Blank ∨ scanValue (take maxRequestBody (Body r)) = Incomplete ∨
    (∃ value, scanValue (take maxRequestBody (Body r)) = Scalar value) →
  resp = ErrorResponse StatusRequestEntityTooLarge §"request_too_large" §"request body must not exceed 1 MiB".
Proof using Hserve.
  intros Hl Hm Hct Hs. revert Hserve. unfold createSession. rewrite Hm, Hct, !seqb_refl. cbn [negb].
  assert (decodeJSON (Body r) = Err StatusRequestEntityTooLarge) as ->; [|by intros [= _ <-]].
  unfold decodeJSON. rewrite (proj2 (Nat.ltb_lt _ _) Hl). by destruct Hs as [->|[->|[value ->]]].
Qed.
End Creation.

(** A creation is answered 415 exactly if its Content-Type is malformed or not
    application/json, and then the service is not called; the type may be
    written in any letter case and with any parameters of different names. *)
Theorem create_media_type {S : Type} `{!SessionService S} (s : S) (r : request) :
  Method r = §"POST" →
  ((∃ code message, (createSession s r).2 = ErrorResponse StatusUnsupportedMediaType code message) ↔
   ParseMediaType (ContentType r) ≠ Some §"application/json") ∧
  (ParseMediaType (ContentType r) ≠ Some §"application/json" → (createSession s r).1 = s) ∧
  ∀ typ subtype ps, ContentType r = typ ++ §"/" ++ subtype ++ concat (map parameterText ps) →
    token typ → token subtype → Forall (λ p, token p.1 ∧ token p.2) ps → NoDup (map (λ p, ToLower p.1) ps) →
    ToLower (typ ++ §"/" ++ subtype) = §"application/json" → ParseMediaType (ContentType r) = Some §"application/json".
Proof.
  intros Hm. unfold createSession. rewrite Hm, seqb_refl. cbn [negb]. split_and!.
  - destruct (ParseMediaType (ContentType r)) as [mt|]; [|split; eauto].
    destruct (seqb mt §"application/json") eqn:Hmt; cbn [negb].
    + apply seqb_eq in Hmt as ->. split; [|by intros []]. intros (code&message&H). exfalso. revert H.
      destruct (decodeJSON (Body r)) as [req|status] eqn:Hd.
      * destruct (negb (sessionIDPattern (SessionID req))); [done|]. destruct (blank (OfferSDP req)); [done|].
        destruct (svcCreate s _ _) as [s' [answer|e]]; [done|by destruct e].
      * by destruct (decodeJSON_status _ _ Hd) as [->| ->].
    + split; [|eauto]. intros _ [= ->]. by rewrite seqb_refl in Hmt.
  - destruct (ParseMediaType (ContentType r)) as [mt|]; [|done]. destruct (seqb mt §"application/json") eqn:Hmt; [|done].
    apply seqb_eq in Hmt as ->. by intros [].
  - intros typ subtype ps -> Ht Hs Hps Hd Hl. by rewrite ParseMediaType_text, Hl.
Qed.

(** C23. The body of a creation is limited to 1 MiB: a longer one never reaches
    the session service and is never accepted, whatever it begins with; 413 is
    answered only for a longer one, and is answered when its first MiB is not
    refused for another reason (blank, the beginning of a value, or a value
    that may go on).  A creation answered with 200 had a body of one JSON value
    and white space, with an id and an offer that pass validation, and the
    answer is the service's. *)
Theorem create_body_limit {S : Type} `{!SessionService S} sha256 (token : gostring)
    (s : S) (r : request) :
  muxRoute r = RouteCreate →
  let '(s', resp) := ServeHTTP sha256 token s r in
  (maxRequestBody < length (Body r) → s' = s ∧ (∀ fields, resp ≠ JSON StatusOK fields) ∧
     (Method r = §"POST" → authorized sha256 token (Authorization r) = true →
      ParseMediaType (ContentType r) = Some §"application/json" →
      scanValue (take maxRequestBody (Body r)) = Blank ∨ scanValue (take maxRequestBody (Body r)) = Incomplete ∨
        (∃ value, scanValue (take maxRequestBody (Body r)) = Scalar value) →
      resp = ErrorResponse StatusRequestEntityTooLarge §"request_too_large" §"request body must not exceed 1 MiB")) ∧
  (∀ code message, resp = ErrorResponse StatusRequestEntityTooLarge code message → maxRequestBody < length (Body r)) ∧
  (∀ fields, resp = JSON StatusOK fields → ∃ value req answer,
     (scanValue (Body r) = Scalar value ∨ ∃ rest, scanValue (Body r) = Complete value rest ∧ scanValue rest = Blank) ∧
     Unmarshal value = Some req ∧ sessionIDPattern (SessionID req) = true ∧ blank (OfferSDP req) = false ∧
     svcCreate s (SessionID req) (OfferSDP req) = (s', Ok answer) ∧
     fields = [(§"sessionId", SessionID req); (§"answerSdp", answer)]).
Proof.
  intros Hroute. unfold ServeHTTP, mux. rewrite Hroute.
  destruct (HasPrefix (urlPath r) §"/v1/" && negb (authorized sha256 token (Authorization r))) eqn:Ha.
  { apply andb_true_iff in Ha as [_ Ha]. split_and!; try done. intros _. split_and!; try done. intros _ Hau. by rewrite Hau in Ha. }
  destruct (createSession s r) as [s' resp] eqn:Hc. split_and!.
  - intros Hl. destruct (create_large _ _ _ _ Hc Hl). split_and!; [done|done|].
    intros Hm _. by eapply create_large_413.
  - by eapply create_413.
  - by eapply create_ok.
Qed.

(** A creation that the service which accepts every offer answers with 200. *)
Lemma create_body_limit_witness :
  let r := {| Method := §"POST"; escapedPath := §"/v1/rtc/sessions"; Authorization := §"Bearer secret";
              ContentType := §"application/json"; Body := stringsText [(§"sessionId", §"kitchen"); (§"offerSdp", §"v=0")] |} in
  let fields := [(§"sessionId", §"kitchen"); (§"answerSdp", §"v=0")] in
  let served := ServeHTTP (λ x, x) §"secret" [§"hall"] r in
  served = ([§"kitchen"; §"hall"], JSON StatusOK fields) ∧
  ∃ req answer, sessionIDPattern (SessionID req) = true ∧ blank (OfferSDP req) = false ∧
    fields = [(§"sessionId", SessionID req); (§"answerSdp", answer)].
Proof.
  intros r fields served.
  assert (served = ([§"kitchen"; §"hall"], JSON StatusOK fields)) as Hserved.
  { unfold served, ServeHTTP, mux. assert (muxRoute r = RouteCreate) as -> by (vm_compute; reflexivity).
    assert (createSession [§"hall"] r =
            ([§"kitchen"; §"hall"], JSON StatusOK fields)) as -> by reflexivity.
    assert (HasPrefix (urlPath r) §"/v1/" && negb (authorized (λ x, x) §"secret" (Authorization r)) = false) as -> by (vm_compute; reflexivity).
    reflexivity. }
  split; [exact Hserved|].
  assert (muxRoute r = RouteCreate) as Hr by (vm_compute; reflexivity).
  pose proof (create_body_limit (λ x, x) §"secret" [§"hall"] r Hr) as H.
  fold served in H. rewrite Hserved in H. destruct H as (_&_&Hok).
  destruct (Hok fields eq_refl) as (value&req&answer&_&_&Hid&Hb&_&Hf). exists req, answer.
  split; [exact Hid|]. split; [exact Hb|exact Hf].
Defined.
