(* ===== verification/Contract.v ===== *)
(** * What the manager relies on in a session

    The contract between internal/rtc/session.go and session_manager.go, as a
    labelled transition system over a session's [life]: how far its Close is,
    whether onTerminal was called, what Close reports, the connected flag and
    the expiry timer the manager hands over.  [SessionLife.v] shows that every
    run of the session's goroutines follows it, [ManagerLife.v] that the
    sessions the manager is proved against do everything it allows. *)

From S2P Require Import Prelude.

Inductive phase := Open | Closing | Closed.
#[global] Instance phase_eq_dec : EqDecision phase.
Proof. solve_decision. Defined.

(** The expiry timer: not made, made by time.AfterFunc, handed over to the
    session, fired or stopped. *)
Inductive expiry := NoTimer | Made | Handed | Gone.
#[global] Instance expiry_eq_dec : EqDecision expiry.
Proof. solve_decision. Defined.

Record life := { lphase : phase; lnotified : bool; lfailed : bool; lmarked : bool; lexpiry : expiry }.
#[global] Instance life_eq_dec : EqDecision life.
Proof. solve_decision. Defined.

Definition newLife : life := {| lphase := Open; lnotified := false; lfailed := false; lmarked := false; lexpiry := NoTimer |}.

(** The timer is stopped somewhere between the beginning and the end of Close,
    and may fire until then. *)
Definition stopExpiry (x : expiry) : expiry := match x with Handed => Gone | _ => x end.

(** A timer handed to a session that is closed is stopped. *)
Definition handExpiry (ph : phase) (x : expiry) : expiry :=
  match x with Made => match ph with Closed => Gone | _ => Handed end | _ => x end.

Inductive label :=
| Begin                    (* Close is entered for the first time *)
| Notify                   (* onTerminal is called *)
| End (failed : bool)      (* the first Close is done *)
| Return (failed : bool)   (* a call of Close returns *)
| Fire                     (* the expiry timer fires *)
| Mark                     (* MarkConnected *)
| Make                     (* time.AfterFunc *)
| HandOver.                (* setExpiryTimer, of the timer made *)
#[global] Instance label_eq_dec : EqDecision label.
Proof. solve_decision. Defined.

(** The labels of the session; the others are calls of the manager. *)
Definition ownLabel (l : label) : bool :=
  match l with Begin | Notify | End _ | Return _ | Fire => true | Mark | Make | HandOver => false end.

Definition contractStep (l : label) (x : life) : option life :=
  let '{| lphase := ph; lnotified := n; lfailed := f; lmarked := m; lexpiry := e |} := x in
  match l, ph, n, e with
  | Begin, Open, _, _ => Some {| lphase := Closing; lnotified := n; lfailed := f; lmarked := m; lexpiry := e |}
  | Notify, Closing, false, _ => Some {| lphase := Closing; lnotified := true; lfailed := f; lmarked := m; lexpiry := e |}
  | End g, Closing, true, _ => Some {| lphase := Closed; lnotified := true; lfailed := g; lmarked := m; lexpiry := stopExpiry e |}
  | Return g, Closed, _, _ => if Bool.eqb g f then Some x else None
  | Fire, _, _, (Made | Handed) => Some {| lphase := ph; lnotified := n; lfailed := f; lmarked := m; lexpiry := Gone |}
  | Mark, _, _, _ => Some {| lphase := ph; lnotified := n; lfailed := f; lmarked := true; lexpiry := e |}
  | Make, _, _, NoTimer => Some {| lphase := ph; lnotified := n; lfailed := f; lmarked := m; lexpiry := Made |}
  | HandOver, _, _, (Made | Gone) => Some {| lphase := ph; lnotified := n; lfailed := f; lmarked := m; lexpiry := handExpiry ph e |}
  | _, _, _, _ => None
  end.

(** A silent step or one with a label. *)
Definition follows (l : option label) (x y : life) : Prop :=
  match l with Some l => contractStep l x = Some y | None => x = y end.

(** A sequence of labels. *)
Fixpoint contractRun (ls : list label) (x : life) : option life :=
  match ls with
  | [] => Some x
  | l :: ls => match contractStep l x with Some x => contractRun ls x | None => None end
  end.

Lemma contractRun_snoc ls l x y z :
  contractRun ls x = Some y → contractStep l y = Some z → contractRun (ls ++ [l]) x = Some z.
Proof.
  revert x; induction ls as [|m ls IH]; intros x; simpl; [by intros [= ->] ->|].
  destruct (contractStep m x); [apply IH|done].
Qed.

Lemma contractRun_follows ls l x y z :
  contractRun ls x = Some y → follows l y z → contractRun (ls ++ option_list l) x = Some z.
Proof. destruct l as [l|]; simpl; [apply contractRun_snoc|]. by intros ? <-; rewrite app_nil_r. Qed.
