(* ===== verification/Session.v ===== *)
(** * A session (internal/rtc/session.go)

    A session is used by goroutines of four kinds: peer-connection callbacks,
    timer callbacks, recording loops and callers of its methods.  Each
    goroutine is a program counter; a step runs one goroutine up to its next
    interaction.  A section under [stateMu] is one step: it reads the context
    at most once and nobody else sees the guarded fields in between.  What is
    done outside the mutex ([cancel], checks of the context, the calls of the
    recorder and the peer, [sync.Once]) is a step of its own, so that every
    interleaving of these is a run of the model. *)

From S2P Require Import Prelude GoString.

(** webrtc.PeerConnectionState. *)
Inductive PeerConnectionState :=
| StateUnknown | StateNew | StateConnecting | StateConnected | StateDisconnected | StateFailed | StateClosed.
#[global] Instance PeerConnectionState_eq_dec : EqDecision PeerConnectionState.
Proof. solve_decision. Defined.
Definition stateIs (a b : PeerConnectionState) : bool := bool_decide (a = b).

(** sync.Once: not called, its function running, returned. *)
Inductive once := NotStarted | Running | Returned.

Inductive closeError := recorderCloseError | peerCloseError.

(** A timer of time.AfterFunc.  A disconnect timer's closure holds the
    generation; [armedAt] is the number of state changes handled when it was
    made, which no code reads. *)
Inductive timerKind := DisconnectTimer (generation : Z) (armedAt : nat) | ExpiryTimer.
Inductive timerStatus := Armed | Stopped | Fired.
Record timer := { kind : timerKind; status : timerStatus }.

Record session := {
  (** fields of the Go struct ([ctxDone]: [ctx.Err() != nil]; [audioPrimeCancel]: it is not nil) *)
  ctxDone : bool;
  connected : bool;
  audioClaimed : bool;
  recorder : option nat;
  disconnectTimer : option nat;
  disconnectGeneration : Z;
  peerState : PeerConnectionState;
  expiryTimer : option nat;
  audioPrimeCancel : bool;
  audioPrimeOnce : once;
  closeOnce : once;
  closeErr : option closeError;
  (** what the session has done to its environment *)
  recorders : list nat;  (** how often each recorder created was closed *)
  newCalls : nat;  (** calls of recordings.New *)
  timers : list timer;  (** every timer made for the session *)
  expiryGiven : bool;  (** Manager.Create made its expiry timer *)
  primeCancelled : bool;  (** the prime context's cancel function was called *)
  primeRuns : nat;  (** runAudioPrime goroutines started *)
  handled : nat;  (** peer state changes handled *)
  peerCloses : nat;  (** calls of peer.Close *)
  terminals : nat  (** calls of onTerminal *)
}.

Definition set_ctxDone (v : bool) (s : session) : session :=
  {| ctxDone := v; connected := connected s; audioClaimed := audioClaimed s; recorder := recorder s; disconnectTimer := disconnectTimer s; disconnectGeneration := disconnectGeneration s; peerState := peerState s; expiryTimer := expiryTimer s; audioPrimeCancel := audioPrimeCancel s; audioPrimeOnce := audioPrimeOnce s; closeOnce := closeOnce s; closeErr := closeErr s; recorders := recorders s; newCalls := newCalls s; timers := timers s; expiryGiven := expiryGiven s; primeCancelled := primeCancelled s; primeRuns := primeRuns s; handled := handled s; peerCloses := peerCloses s; terminals := terminals s |}.
Definition set_connected (v : bool) (s : session) : session :=
  {| ctxDone := ctxDone s; connected := v; audioClaimed := audioClaimed s; recorder := recorder s; disconnectTimer := disconnectTimer s; disconnectGeneration := disconnectGeneration s; peerState := peerState s; expiryTimer := expiryTimer s; audioPrimeCancel := audioPrimeCancel s; audioPrimeOnce := audioPrimeOnce s; closeOnce := closeOnce s; closeErr := closeErr s; recorders := recorders s; newCalls := newCalls s; timers := timers s; expiryGiven := expiryGiven s; primeCancelled := primeCancelled s; primeRuns := primeRuns s; handled := handled s; peerCloses := peerCloses s; terminals := terminals s |}.
Definition set_audioClaimed (v : bool) (s : session) : session :=
  {| ctxDone := ctxDone s; connected := connected s; audioClaimed := v; recorder := recorder s; disconnectTimer := disconnectTimer s; disconnectGeneration := disconnectGeneration s; peerState := peerState s; expiryTimer := expiryTimer s; audioPrimeCancel := audioPrimeCancel s; audioPrimeOnce := audioPrimeOnce s; closeOnce := closeOnce s; closeErr := closeErr s; recorders := recorders s; newCalls := newCalls s; timers := timers s; expiryGiven := expiryGiven s; primeCancelled := primeCancelled s; primeRuns := primeRuns s; handled := handled s; peerCloses := peerCloses s; terminals := terminals s |}.
Definition set_recorder (v : option nat) (s : session) : session :=
  {| ctxDone := ctxDone s; connected := connected s; audioClaimed := audioClaimed s; recorder := v; disconnectTimer := disconnectTimer s; disconnectGeneration := disconnectGeneration s; peerState := peerState s; expiryTimer := expiryTimer s; audioPrimeCancel := audioPrimeCancel s; audioPrimeOnce := audioPrimeOnce s; closeOnce := closeOnce s; closeErr := closeErr s; recorders := recorders s; newCalls := newCalls s; timers := timers s; expiryGiven := expiryGiven s; primeCancelled := primeCancelled s; primeRuns := primeRuns s; handled := handled s; peerCloses := peerCloses s; terminals := terminals s |}.
Definition set_disconnectTimer (v : option nat) (s : session) : session :=
  {| ctxDone := ctxDone s; connected := connected s; audioClaimed := audioClaimed s; recorder := recorder s; disconnectTimer := v; disconnectGeneration := disconnectGeneration s; peerState := peerState s; expiryTimer := expiryTimer s; audioPrimeCancel := audioPrimeCancel s; audioPrimeOnce := audioPrimeOnce s; closeOnce := closeOnce s; closeErr := closeErr s; recorders := recorders s; newCalls := newCalls s; timers := timers s; expiryGiven := expiryGiven s; primeCancelled := primeCancelled s; primeRuns := primeRuns s; handled := handled s; peerCloses := peerCloses s; terminals := terminals s |}.
Definition set_disconnectGeneration (v : Z) (s : session) : session :=
  {| ctxDone := ctxDone s; connected := connected s; audioClaimed := audioClaimed s; recorder := recorder s; disconnectTimer := disconnectTimer s; disconnectGeneration := v; peerState := peerState s; expiryTimer := expiryTimer s; audioPrimeCancel := audioPrimeCancel s; audioPrimeOnce := audioPrimeOnce s; closeOnce := closeOnce s; closeErr := closeErr s; recorders := recorders s; newCalls := newCalls s; timers := timers s; expiryGiven := expiryGiven s; primeCancelled := primeCancelled s; primeRuns := primeRuns s; handled := handled s; peerCloses := peerCloses s; terminals := terminals s |}.
Definition set_peerState (v : PeerConnectionState) (s : session) : session :=
  {| ctxDone := ctxDone s; connected := connected s; audioClaimed := audioClaimed s; recorder := recorder s; disconnectTimer := disconnectTimer s; disconnectGeneration := disconnectGeneration s; peerState := v; expiryTimer := expiryTimer s; audioPrimeCancel := audioPrimeCancel s; audioPrimeOnce := audioPrimeOnce s; closeOnce := closeOnce s; closeErr := closeErr s; recorders := recorders s; newCalls := newCalls s; timers := timers s; expiryGiven := expiryGiven s; primeCancelled := primeCancelled s; primeRuns := primeRuns s; handled := handled s; peerCloses := peerCloses s; terminals := terminals s |}.
Definition set_expiryTimer (v : option nat) (s : session) : session :=
  {| ctxDone := ctxDone s; connected := connected s; audioClaimed := audioClaimed s; recorder := recorder s; disconnectTimer := disconnectTimer s; disconnectGeneration := disconnectGeneration s; peerState := peerState s; expiryTimer := v; audioPrimeCancel := audioPrimeCancel s; audioPrimeOnce := audioPrimeOnce s; closeOnce := closeOnce s; closeErr := closeErr s; recorders := recorders s; newCalls := newCalls s; timers := timers s; expiryGiven := expiryGiven s; primeCancelled := primeCancelled s; primeRuns := primeRuns s; handled := handled s; peerCloses := peerCloses s; terminals := terminals s |}.
Definition set_audioPrimeCancel (v : bool) (s : session) : session :=
  {| ctxDone := ctxDone s; connected := connected s; audioClaimed := audioClaimed s; recorder := recorder s; disconnectTimer := disconnectTimer s; disconnectGeneration := disconnectGeneration s; peerState := peerState s; expiryTimer := expiryTimer s; audioPrimeCancel := v; audioPrimeOnce := audioPrimeOnce s; closeOnce := closeOnce s; closeErr := closeErr s; recorders := recorders s; newCalls := newCalls s; timers := timers s; expiryGiven := expiryGiven s; primeCancelled := primeCancelled s; primeRuns := primeRuns s; handled := handled s; peerCloses := peerCloses s; terminals := terminals s |}.
Definition set_audioPrimeOnce (v : once) (s : session) : session :=
  {| ctxDone := ctxDone s; connected := connected s; audioClaimed := audioClaimed s; recorder := recorder s; disconnectTimer := disconnectTimer s; disconnectGeneration := disconnectGeneration s; peerState := peerState s; expiryTimer := expiryTimer s; audioPrimeCancel := audioPrimeCancel s; audioPrimeOnce := v; closeOnce := closeOnce s; closeErr := closeErr s; recorders := recorders s; newCalls := newCalls s; timers := timers s; expiryGiven := expiryGiven s; primeCancelled := primeCancelled s; primeRuns := primeRuns s; handled := handled s; peerCloses := peerCloses s; terminals := terminals s |}.
Definition set_closeOnce (v : once) (s : session) : session :=
  {| ctxDone := ctxDone s; connected := connected s; audioClaimed := audioClaimed s; recorder := recorder s; disconnectTimer := disconnectTimer s; disconnectGeneration := disconnectGeneration s; peerState := peerState s; expiryTimer := expiryTimer s; audioPrimeCancel := audioPrimeCancel s; audioPrimeOnce := audioPrimeOnce s; closeOnce := v; closeErr := closeErr s; recorders := recorders s; newCalls := newCalls s; timers := timers s; expiryGiven := expiryGiven s; primeCancelled := primeCancelled s; primeRuns := primeRuns s; handled := handled s; peerCloses := peerCloses s; terminals := terminals s |}.
Definition set_closeErr (v : option closeError) (s : session) : session :=
  {| ctxDone := ctxDone s; connected := connected s; audioClaimed := audioClaimed s; recorder := recorder s; disconnectTimer := disconnectTimer s; disconnectGeneration := disconnectGeneration s; peerState := peerState s; expiryTimer := expiryTimer s; audioPrimeCancel := audioPrimeCancel s; audioPrimeOnce := audioPrimeOnce s; closeOnce := closeOnce s; closeErr := v; recorders := recorders s; newCalls := newCalls s; timers := timers s; expiryGiven := expiryGiven s; primeCancelled := primeCancelled s; primeRuns := primeRuns s; handled := handled s; peerCloses := peerCloses s; terminals := terminals s |}.
Definition set_recorders (v : list nat) (s : session) : session :=
  {| ctxDone := ctxDone s; connected := connected s; audioClaimed := audioClaimed s; recorder := recorder s; disconnectTimer := disconnectTimer s; disconnectGeneration := disconnectGeneration s; peerState := peerState s; expiryTimer := expiryTimer s; audioPrimeCancel := audioPrimeCancel s; audioPrimeOnce := audioPrimeOnce s; closeOnce := closeOnce s; closeErr := closeErr s; recorders := v; newCalls := newCalls s; timers := timers s; expiryGiven := expiryGiven s; primeCancelled := primeCancelled s; primeRuns := primeRuns s; handled := handled s; peerCloses := peerCloses s; terminals := terminals s |}.
Definition set_newCalls (v : nat) (s : session) : session :=
  {| ctxDone := ctxDone s; connected := connected s; audioClaimed := audioClaimed s; recorder := recorder s; disconnectTimer := disconnectTimer s; disconnectGeneration := disconnectGeneration s; peerState := peerState s; expiryTimer := expiryTimer s; audioPrimeCancel := audioPrimeCancel s; audioPrimeOnce := audioPrimeOnce s; closeOnce := closeOnce s; closeErr := closeErr s; recorders := recorders s; newCalls := v; timers := timers s; expiryGiven := expiryGiven s; primeCancelled := primeCancelled s; primeRuns := primeRuns s; handled := handled s; peerCloses := peerCloses s; terminals := terminals s |}.
Definition set_timers (v : list timer) (s : session) : session :=
  {| ctxDone := ctxDone s; connected := connected s; audioClaimed := audioClaimed s; recorder := recorder s; disconnectTimer := disconnectTimer s; disconnectGeneration := disconnectGeneration s; peerState := peerState s; expiryTimer := expiryTimer s; audioPrimeCancel := audioPrimeCancel s; audioPrimeOnce := audioPrimeOnce s; closeOnce := closeOnce s; closeErr := closeErr s; recorders := recorders s; newCalls := newCalls s; timers := v; expiryGiven := expiryGiven s; primeCancelled := primeCancelled s; primeRuns := primeRuns s; handled := handled s; peerCloses := peerCloses s; terminals := terminals s |}.
Definition set_expiryGiven (v : bool) (s : session) : session :=
  {| ctxDone := ctxDone s; connected := connected s; audioClaimed := audioClaimed s; recorder := recorder s; disconnectTimer := disconnectTimer s; disconnectGeneration := disconnectGeneration s; peerState := peerState s; expiryTimer := expiryTimer s; audioPrimeCancel := audioPrimeCancel s; audioPrimeOnce := audioPrimeOnce s; closeOnce := closeOnce s; closeErr := closeErr s; recorders := recorders s; newCalls := newCalls s; timers := timers s; expiryGiven := v; primeCancelled := primeCancelled s; primeRuns := primeRuns s; handled := handled s; peerCloses := peerCloses s; terminals := terminals s |}.
Definition set_primeCancelled (v : bool) (s : session) : session :=
  {| ctxDone := ctxDone s; connected := connected s; audioClaimed := audioClaimed s; recorder := recorder s; disconnectTimer := disconnectTimer s; disconnectGeneration := disconnectGeneration s; peerState := peerState s; expiryTimer := expiryTimer s; audioPrimeCancel := audioPrimeCancel s; audioPrimeOnce := audioPrimeOnce s; closeOnce := closeOnce s; closeErr := closeErr s; recorders := recorders s; newCalls := newCalls s; timers := timers s; expiryGiven := expiryGiven s; primeCancelled := v; primeRuns := primeRuns s; handled := handled s; peerCloses := peerCloses s; terminals := terminals s |}.
Definition set_primeRuns (v : nat) (s : session) : session :=
  {| ctxDone := ctxDone s; connected := connected s; audioClaimed := audioClaimed s; recorder := recorder s; disconnectTimer := disconnectTimer s; disconnectGeneration := disconnectGeneration s; peerState := peerState s; expiryTimer := expiryTimer s; audioPrimeCancel := audioPrimeCancel s; audioPrimeOnce := audioPrimeOnce s; closeOnce := closeOnce s; closeErr := closeErr s; recorders := recorders s; newCalls := newCalls s; timers := timers s; expiryGiven := expiryGiven s; primeCancelled := primeCancelled s; primeRuns := v; handled := handled s; peerCloses := peerCloses s; terminals := terminals s |}.
Definition set_handled (v : nat) (s : session) : session :=
  {| ctxDone := ctxDone s; connected := connected s; audioClaimed := audioClaimed s; recorder := recorder s; disconnectTimer := disconnectTimer s; disconnectGeneration := disconnectGeneration s; peerState := peerState s; expiryTimer := expiryTimer s; audioPrimeCancel := audioPrimeCancel s; audioPrimeOnce := audioPrimeOnce s; closeOnce := closeOnce s; closeErr := closeErr s; recorders := recorders s; newCalls := newCalls s; timers := timers s; expiryGiven := expiryGiven s; primeCancelled := primeCancelled s; primeRuns := primeRuns s; handled := v; peerCloses := peerCloses s; terminals := terminals s |}.
Definition set_peerCloses (v : nat) (s : session) : session :=
  {| ctxDone := ctxDone s; connected := connected s; audioClaimed := audioClaimed s; recorder := recorder s; disconnectTimer := disconnectTimer s; disconnectGeneration := disconnectGeneration s; peerState := peerState s; expiryTimer := expiryTimer s; audioPrimeCancel := audioPrimeCancel s; audioPrimeOnce := audioPrimeOnce s; closeOnce := closeOnce s; closeErr := closeErr s; recorders := recorders s; newCalls := newCalls s; timers := timers s; expiryGiven := expiryGiven s; primeCancelled := primeCancelled s; primeRuns := primeRuns s; handled := handled s; peerCloses := v; terminals := terminals s |}.
Definition set_terminals (v : nat) (s : session) : session :=
  {| ctxDone := ctxDone s; connected := connected s; audioClaimed := audioClaimed s; recorder := recorder s; disconnectTimer := disconnectTimer s; disconnectGeneration := disconnectGeneration s; peerState := peerState s; expiryTimer := expiryTimer s; audioPrimeCancel := audioPrimeCancel s; audioPrimeOnce := audioPrimeOnce s; closeOnce := closeOnce s; closeErr := closeErr s; recorders := recorders s; newCalls := newCalls s; timers := timers s; expiryGiven := expiryGiven s; primeCancelled := primeCancelled s; primeRuns := primeRuns s; handled := handled s; peerCloses := peerCloses s; terminals := v |}.

(** Configuration: [audioPrimeEnabled], [audioPrimeWriter != nil], [onTerminal != nil]. *)
Record sessionConfig := { audioPrimeEnabled : bool; audioPrimeWriter : bool; hasOnTerminal : bool }.

Definition newSession : session :=
  {| ctxDone := false; connected := false; audioClaimed := false; recorder := None; disconnectTimer := None;
     disconnectGeneration := 0; peerState := StateUnknown; expiryTimer := None; audioPrimeCancel := false;
     audioPrimeOnce := NotStarted; closeOnce := NotStarted; closeErr := None; recorders := []; newCalls := 0;
     timers := []; expiryGiven := false; primeCancelled := false; primeRuns := 0; handled := 0;
     peerCloses := 0; terminals := 0 |}.

(** [Stop] of a timer that has fired changes nothing. *)
Definition stopTimer (t : nat) (ts : list timer) : list timer :=
  alter (λ tm, match status tm with Armed => {| kind := kind tm; status := Stopped |} | _ => tm end) t ts.

Definition stopTimerOpt (t : option nat) (ts : list timer) : list timer :=
  match t with Some t => stopTimer t ts | None => ts end.

Definition uint64 (z : Z) : Z := (z mod 2 ^ 64)%Z.

(** Where a goroutine is. *)
Inductive pc :=
| Finished
(** Close *)
| CloseEnter | CloseCancel | CloseReadPrime | ClosePrimeCancel (c : bool) | CloseTake
| CloseRecorder (r : option nat) | ClosePeer | CloseTerminal | CloseFinish
| CloseReturn | CloseReturned (e : option closeError)
(** handlePeerConnectionState and the audio prime *)
| HandleState (s : PeerConnectionState)
| StartPrime | PrimeOnce | PrimeSection | PrimeAbort | PrimeGo | PrimeRunning
| StopPrime | StopPrimeCancel (c : bool)
(** tracks *)
| StartRecorder | RecordRead (r : nat) | RecordWrite (r : nat)
(** timers and the remaining methods *)
| CloseIfStillDisconnected (generation : Z) (armedAt : nat)
| ExpiryCallback
| SetExpiryTimer (t : nat)
| MarkConnected
(** the OnTrack callback: the track is audio, its MIME type *)
| OnTrack (audio : bool) (mime : gostring) | DrainRead.
#[global] Instance once_eq_dec : EqDecision once.
Proof. solve_decision. Defined.
#[global] Instance closeError_eq_dec : EqDecision closeError.
Proof. solve_decision. Defined.
#[global] Instance pc_eq_dec : EqDecision pc.
Proof. solve_decision. Defined.

(** The answer of the environment where a step asks it something. *)
Inductive answer := Succeeds | Fails.

(** strings.EqualFold with "audio/opus": of its letters only the s has a fold
    beyond ASCII (U+017F). *)
Definition foldRune (r : Z) : Z :=
  if (r =? 0x17F)%Z then 115%Z else if (65 <=? r)%Z && (r <=? 90)%Z then (r + 32)%Z else r.
Definition isOpus (mime : gostring) : bool :=
  bool_decide (map (λ seg, foldRune seg.1) (runes mime) = map bval §"audio/opus").

(** drainRemoteTrack reads on until a read fails. *)
Definition drainRemoteTrack (a : answer) : bool := match a with Succeeds => true | Fails => false end.

(** ** The critical sections *)

Definition startRecorder (a : answer) (s : session) : session * pc * list pc :=
  if audioClaimed s || ctxDone s then (s, DrainRead, [])
  else
    let s := set_newCalls (S (newCalls s)) (set_audioClaimed true s) in
    match a with
    | Fails => (s, DrainRead, [CloseEnter])
    | Succeeds =>
        let r := length (recorders s) in
        (set_recorder (Some r) (set_recorders (recorders s ++ [0]) s), RecordRead r, [])
    end.

Definition setExpiryTimer (t : nat) (s : session) : session :=
  if ctxDone s then set_timers (stopTimer t (timers s)) s else set_expiryTimer (Some t) s.

Definition handlePeerConnectionState (state : PeerConnectionState) (s : session) : session :=
  let s := set_handled (S (handled s)) s in
  let s := set_disconnectGeneration (uint64 (disconnectGeneration s + 1)) s in
  let generation := disconnectGeneration s in
  let s := set_peerState state s in
  let s := set_disconnectTimer None (set_timers (stopTimerOpt (disconnectTimer s) (timers s)) s) in
  if stateIs state StateDisconnected && negb (ctxDone s) then
    let tm := {| kind := DisconnectTimer generation (handled s); status := Armed |} in
    set_disconnectTimer (Some (length (timers s))) (set_timers (timers s ++ [tm]) s)
  else s.

Definition closeIfStillDisconnected (generation : Z) (s : session) : session * bool :=
  let shouldClose := negb (ctxDone s) && stateIs (peerState s) StateDisconnected &&
                     (disconnectGeneration s =? generation)%Z in
  (if shouldClose then set_disconnectTimer None s else s, shouldClose).

Definition closeTake (s : session) : session * option nat :=
  let ts := stopTimerOpt (expiryTimer s) (stopTimerOpt (disconnectTimer s) (timers s)) in
  (set_recorder None (set_expiryTimer None (set_disconnectTimer None (set_timers ts s))), recorder s).

Definition recorderClosed (s : session) (r : nat) : bool := 0 <? default 0 (recorders s !! r).

(** ** One step of a goroutine: the session, where it is next, what it starts.
    [None]: it has returned, or it waits for a [sync.Once]. *)
Definition goroutineStep (cfg : sessionConfig) (a : answer) (p : pc) (s : session) : option (session * pc * list pc) :=
  match p with
  | Finished | CloseReturned _ => None
  (* Close *)
  | CloseEnter =>
      match closeOnce s with
      | NotStarted => Some (set_closeOnce Running s, CloseCancel, [])
      | Running => None
      | Returned => Some (s, CloseReturn, [])
      end
  | CloseCancel => Some (set_ctxDone true s, CloseReadPrime, [])
  | CloseReadPrime => Some (s, ClosePrimeCancel (audioPrimeCancel s), [])
  | ClosePrimeCancel c => Some (if c then set_primeCancelled true s else s, CloseTake, [])
  | CloseTake => let '(s, r) := closeTake s in Some (s, CloseRecorder r, [])
  | CloseRecorder None => Some (s, ClosePeer, [])
  | CloseRecorder (Some r) =>
      let s := set_recorders (alter S r (recorders s)) s in
      Some (match a with Fails => set_closeErr (Some recorderCloseError) s | Succeeds => s end, ClosePeer, [])
  | ClosePeer =>
      let s := set_peerCloses (S (peerCloses s)) s in
      Some (match a, closeErr s with Fails, None => set_closeErr (Some peerCloseError) s | _, _ => s end, CloseTerminal, [])
  | CloseTerminal => Some (if hasOnTerminal cfg then set_terminals (S (terminals s)) s else s, CloseFinish, [])
  | CloseFinish => Some (set_closeOnce Returned s, CloseReturn, [])
  | CloseReturn => Some (s, CloseReturned (closeErr s), [])
  (* handlePeerConnectionState *)
  | HandleState state =>
      let s := handlePeerConnectionState state s in
      if stateIs state StateConnected then Some (s, StartPrime, [])
      else if stateIs state StateFailed || stateIs state StateClosed then Some (s, StopPrime, [])
      else Some (s, Finished, [])
  | StartPrime =>
      if negb (audioPrimeEnabled cfg) || negb (audioPrimeWriter cfg) || ctxDone s then Some (s, Finished, [])
      else Some (s, PrimeOnce, [])
  | PrimeOnce =>
      match audioPrimeOnce s with
      | NotStarted => Some (set_audioPrimeOnce Running s, PrimeSection, [])
      | Running => None
      | Returned => Some (s, Finished, [])
      end
  | PrimeSection =>
      if ctxDone s then Some (s, PrimeAbort, []) else Some (set_audioPrimeCancel true s, PrimeGo, [])
  | PrimeAbort => Some (set_audioPrimeOnce Returned (set_primeCancelled true s), Finished, [])
  | PrimeGo => Some (set_audioPrimeOnce Returned (set_primeRuns (S (primeRuns s)) s), Finished, [PrimeRunning])
  | PrimeRunning => Some (s, Finished, [])
  | StopPrime => Some (s, StopPrimeCancel (audioPrimeCancel s), [])
  | StopPrimeCancel c => Some (if c then set_primeCancelled true s else s, Finished, [CloseEnter])
  (* tracks *)
  | OnTrack audio mime => Some (s, if negb audio || negb (isOpus mime) then DrainRead else StartRecorder, [])
  | DrainRead => Some (s, if drainRemoteTrack a then DrainRead else Finished, [])
  | StartRecorder => Some (startRecorder a s)
  | RecordRead r => Some (s, match a with Succeeds => RecordWrite r | Fails => Finished end, [])
  | RecordWrite r =>
      if recorderClosed s r then Some (s, Finished, [])
      else match a with
           | Succeeds => Some (s, RecordRead r, [])
           | Fails => Some (s, Finished, [CloseEnter])
           end
  (* timers *)
  | CloseIfStillDisconnected g _ =>
      let '(s, shouldClose) := closeIfStillDisconnected g s in
      Some (s, if shouldClose then CloseEnter else Finished, [])
  | ExpiryCallback => Some (s, match a with Succeeds => CloseEnter | Fails => Finished end, [])
  | SetExpiryTimer t => Some (setExpiryTimer t s, Finished, [])
  | MarkConnected => Some (set_connected true s, Finished, [])
  end.

Definition Connected (s : session) : bool := connected s.

(** ** Runs *)

Record system := { sess : session; goroutines : list pc }.

(** What callers and the peer connection may start at any time. *)
Definition startable (p : pc) : bool :=
  match p with
  | CloseEnter | HandleState _ | OnTrack _ _ | MarkConnected => true
  | _ => false
  end.

Definition callback (k : timerKind) : pc :=
  match k with
  | DisconnectTimer g n => CloseIfStillDisconnected g n
  | ExpiryTimer => ExpiryCallback
  end.

Definition start (p : pc) (c : system) : system := {| sess := sess c; goroutines := goroutines c ++ [p] |}.

Definition fire (t : nat) (c : system) : option system :=
  match timers (sess c) !! t with
  | Some {| kind := k; status := Armed |} =>
      Some {| sess := set_timers (<[t := {| kind := k; status := Fired |}]> (timers (sess c))) (sess c);
              goroutines := goroutines c ++ [callback k] |}
  | _ => None
  end.

(** Manager.Create makes the one expiry timer and hands it over. *)
Definition giveExpiry (c : system) : option system :=
  if expiryGiven (sess c) then None
  else
    let s := sess c in
    let tm := {| kind := ExpiryTimer; status := Armed |} in
    Some {| sess := set_expiryGiven true (set_timers (timers s ++ [tm]) s);
            goroutines := goroutines c ++ [SetExpiryTimer (length (timers s))] |}.

Definition run (cfg : sessionConfig) (i : nat) (a : answer) (c : system) : option system :=
  match goroutines c !! i with
  | None => None
  | Some p =>
      match goroutineStep cfg a p (sess c) with
      | None => None
      | Some (s, p', started) => Some {| sess := s; goroutines := <[i := p']> (goroutines c) ++ started |}
      end
  end.

Inductive step (cfg : sessionConfig) (c : system) : system → Prop :=
| step_run i a c' : run cfg i a c = Some c' → step cfg c c'
| step_start p : startable p = true → step cfg c (start p c)
| step_fire t c' : fire t c = Some c' → step cfg c c'
| step_expiry c' : giveExpiry c = Some c' → step cfg c c'.

Definition initial : system := {| sess := newSession; goroutines := [] |}.

Definition reachable (cfg : sessionConfig) (c : system) : Prop := rtc (step cfg) initial c.

#[local] Arguments Nat.ltb : simpl never.
#[local] Arguments Nat.leb : simpl never.

(** ** The body of Close

    [closeBody p]: the goroutine runs the function given to [closeOnce]; its
    stage counts the steps taken ([9]: the function has returned). *)

Definition closeStage (p : pc) : nat :=
  match p with
  | CloseCancel => 1 | CloseReadPrime => 2 | ClosePrimeCancel _ => 3 | CloseTake => 4
  | CloseRecorder _ => 5 | ClosePeer => 6 | CloseTerminal => 7 | CloseFinish => 8
  | _ => 0
  end.

Definition closeBody (p : pc) : bool := 0 <? closeStage p.

(** The recorder the closing goroutine has taken and not yet closed. *)
Definition held (p : pc) : option nat := match p with CloseRecorder r => r | _ => None end.

(** What has been done to the session when Close is at stage [k] and holds [h]. *)
Record closeState (cfg : sessionConfig) (k : nat) (h : option nat) (s : session) : Prop := {
  cs_ctx : ctxDone s = (1 <? k);
  cs_recorders : recorders s = [] ∨ recorders s = [if k <=? 5 then 0 else 1];
  cs_owner : (if k <=? 4 then recorder s else if k <=? 5 then h else None) =
             if k <=? 5 then match recorders s with [] => None | _ => Some 0 end else None;
  cs_taken : 4 < k → recorder s = None ∧ disconnectTimer s = None ∧ expiryTimer s = None;
  cs_claimed : newCalls s = (if audioClaimed s then 1 else 0) ∧ (audioClaimed s = false → recorders s = []);
  cs_peer : peerCloses s = if 6 <? k then 1 else 0;
  cs_terminals : terminals s = if (7 <? k) && hasOnTerminal cfg then 1 else 0;
  cs_err : (k <= 5 → closeErr s = None) ∧ (k <= 6 → closeErr s ≠ Some peerCloseError)
}.

Definition closeInv (cfg : sessionConfig) (c : system) : Prop :=
  let body := sel closeBody (goroutines c) in
  match closeOnce (sess c) with
  | NotStarted => body = [] ∧ closeState cfg 0 None (sess c)
  | Running => ∃ p, body = [p] ∧ closeState cfg (closeStage p) (held p) (sess c)
  | Returned => body = [] ∧ closeState cfg 9 None (sess c)
  end.

Lemma closeState_congr cfg k h s s' :
  closeState cfg k h s →
  ctxDone s' = ctxDone s → recorders s' = recorders s → recorder s' = recorder s →
  (4 < k → disconnectTimer s' = None ∧ expiryTimer s' = None) →
  newCalls s' = newCalls s → audioClaimed s' = audioClaimed s →
  peerCloses s' = peerCloses s → terminals s' = terminals s → closeErr s' = closeErr s →
  closeState cfg k h s'.
Proof.
  intros [H1 H2 H3 H4 H5 H6 H7 H8] E1 E2 E3 E4 E5 E6 E7 E8 E9.
  split; rewrite ?E1, ?E2, ?E3, ?E5, ?E6, ?E7, ?E8, ?E9; auto.
  intros Hk. destruct (E4 Hk). by destruct (H4 Hk) as (?&_&_).
Qed.

Lemma handlePeerConnectionState_fields state s :
  let s' := handlePeerConnectionState state s in
  ctxDone s' = ctxDone s ∧ recorders s' = recorders s ∧ recorder s' = recorder s ∧
  (ctxDone s = true → disconnectTimer s' = None) ∧ expiryTimer s' = expiryTimer s ∧
  newCalls s' = newCalls s ∧ audioClaimed s' = audioClaimed s ∧ peerCloses s' = peerCloses s ∧
  terminals s' = terminals s ∧ closeErr s' = closeErr s ∧ closeOnce s' = closeOnce s.
Proof.
  cbn zeta. unfold handlePeerConnectionState. cbn zeta.
  destruct (stateIs state StateDisconnected), (ctxDone s) eqn:E; cbn; rewrite ?E; cbn; split_and!; done.
Qed.

Lemma startRecorder_closeState cfg k a s s' p' started h :
  startRecorder a s = (s', p', started) → closeState cfg k h s →
  closeState cfg k h s' ∧ closeOnce s' = closeOnce s ∧ closeBody p' = false ∧ sel closeBody started = [].
Proof.
  intros Hs Hcs. unfold startRecorder in Hs. destruct (audioClaimed s || ctxDone s) eqn:E.
  { by injection Hs as <- <- <-. }
  apply orb_false_iff in E as [Hcl Hctx]. pose proof Hcs as [H1 H2 H3 H4 H5 H6 H7 H8].
  rewrite Hctx in H1. symmetry in H1. apply Nat.ltb_ge in H1. rewrite Hcl in H5. destruct H5 as [Hn Hr].
  specialize (Hr eq_refl). cbn in Hs. rewrite Hr, Hn in Hs. cbn in Hs.
  assert (closeBody p' = false ∧ sel closeBody started = []) as [Hb1 Hb2]
    by (destruct a; injection Hs as _ <- <-; done).
  assert (∃ r rs, (rs = [] ∧ r = None ∨ rs = [0] ∧ r = Some 0) ∧
    s' = set_recorder r (set_recorders rs (set_newCalls 1 (set_audioClaimed true s)))) as (r&rs&Hrs&->).
  { rewrite Hr in H3. rewrite (proj2 (Nat.leb_le k 4)), (proj2 (Nat.leb_le k 5)) in H3 by lia.
    destruct a; injection Hs as <- <- <-; [exists (Some 0), [0]; by split; [right|]|].
    exists None, []. split; [by left|]. destruct s; simpl in *; by subst. }
  split_and!; [|done..].
  split; cbn; try done; rewrite ?(proj2 (Nat.leb_le k 4)), ?(proj2 (Nat.leb_le k 5)) by lia; try lia.
  - rewrite Hctx. symmetry. by apply Nat.ltb_ge.
  - destruct Hrs as [[-> _]|[-> _]]; auto.
  - by destruct Hrs as [[-> ->]|[-> ->]].
Qed.

(** A goroutine outside the body changes nothing the body relies on. *)
Lemma outside_step cfg a p s s' p' started k h :
  goroutineStep cfg a p s = Some (s', p', started) → closeBody p = false →
  (p = CloseEnter → closeOnce s = Returned) → closeState cfg k h s →
  closeState cfg k h s' ∧ closeOnce s' = closeOnce s ∧ closeBody p' = false ∧ sel closeBody started = [].
Proof.
  intros Hstep Hp He Hcs. pose proof (cs_ctx _ _ _ _ Hcs) as Hctx.
  assert (4 < k → ctxDone s = true) as Hdone by (intros H4; rewrite Hctx; apply Nat.ltb_lt; lia).
  assert (4 < k → disconnectTimer s = None ∧ expiryTimer s = None) as Htaken
    by (intros H4; by destruct (cs_taken _ _ _ _ Hcs H4) as (_&?&?)).
  destruct p; try discriminate Hp; cbn [goroutineStep] in Hstep.
  all: try match type of Hstep with context [handlePeerConnectionState ?st ?ss] =>
    solve [destruct (handlePeerConnectionState_fields st ss) as (F1&F2&F3&F4&F5&F6&F7&F8&F9&F10&F11);
      assert (closeState cfg k h (handlePeerConnectionState st ss)) as Hcs'
        by (eapply closeState_congr; eauto; intros H4; rewrite F5; split; [auto|by apply Htaken]);
      step_cases Hstep; auto] end.
  all: try by (eapply startRecorder_closeState; [by injection Hstep|done]).
  all: try (specialize (He eq_refl); rewrite He in Hstep).
  all: unfold closeIfStillDisconnected, setExpiryTimer in Hstep; step_cases Hstep; split_and!; try done.
  all: repeat case_match; try done; (eapply closeState_congr; try done); intros H4; cbn;
    specialize (Hdone H4); destruct (Htaken H4); split; congruence.
Qed.

Lemma body_step cfg a p s s' p' started :
  goroutineStep cfg a p s = Some (s', p', started) → closeBody p = true →
  closeState cfg (closeStage p) (held p) s →
  started = [] ∧
  ((closeBody p' = true ∧ closeOnce s' = closeOnce s ∧ closeState cfg (closeStage p') (held p') s') ∨
   (closeBody p' = false ∧ closeOnce s' = Returned ∧ closeState cfg 9 None s')).
Proof.
  intros Hstep Hp [H1 H2 H3 H4 H5 H6 H7 [H8 H9]].
  destruct p; try discriminate Hp; cbn [goroutineStep] in Hstep; cbn [closeStage held] in *;
    cbv [Nat.leb Nat.ltb andb] in *; unfold closeTake in Hstep; step_cases Hstep; (split; [done|]).
  all: try (left; split; [done|split; [repeat case_match; done|]]).
  all: try (right; split; [done|split; [done|]]).
  all: goal_cases; (split; cbn; cbv [Nat.leb Nat.ltb andb]; auto with lia; try congruence).
  all: try solve [destruct H2 as [E|E]; rewrite E in *; simplify_eq; cbn; destruct H5; intuition congruence].
  all: rewrite H7; by goal_cases.
Qed.

Lemma closeInv_start cfg p c : startable p = true → closeInv cfg c → closeInv cfg (start p c).
Proof.
  unfold closeInv, start. cbn [sess goroutines]. rewrite sel_app. intros Hp.
  assert (sel closeBody [p] = []) as -> by by destruct p. by rewrite app_nil_r.
Qed.

Lemma closeInv_run cfg i a c c' : run cfg i a c = Some c' → closeInv cfg c → closeInv cfg c'.
Proof.
  unfold run. destruct (goroutines c !! i) as [p|] eqn:Hi; [|done].
  destruct (goroutineStep cfg a p (sess c)) as [[[s' p'] started]|] eqn:Hstep; [|done]. intros [= <-].
  unfold closeInv. cbn [sess goroutines]. rewrite sel_app. destruct (closeBody p) eqn:Hp.
  - (* inside the body *)
    assert (Hin : p ∈ sel closeBody (goroutines c))
      by (apply elem_of_sel; split; [done|by eapply list_elem_of_lookup_2]).
    destruct (closeOnce (sess c)) eqn:Ho;
      [intros [E _]; rewrite E in Hin; by apply elem_of_nil in Hin| |intros [E _]; rewrite E in Hin; by apply elem_of_nil in Hin].
    intros (q&Hsel&Hcs). destruct (sel_insert_inside _ _ _ _ p' _ Hi Hp Hsel) as [-> Hsel'].
    destruct (body_step _ _ _ _ _ _ _ Hstep Hp Hcs) as [-> [(Hb&Ho'&Hcs')|(Hb&Ho'&Hcs')]];
      rewrite Ho', Hsel', Hb; [rewrite Ho|]; eauto.
  - (* outside *)
    destruct (decide (p = CloseEnter ∧ closeOnce (sess c) = NotStarted)) as [[-> Ho]|Hne].
    + cbn [goroutineStep] in Hstep. rewrite Ho in *. injection Hstep as <- <- <-. intros [Hsel Hcs].
      cbn [closeOnce set_closeOnce]. exists CloseCancel.
      rewrite (sel_insert_enter _ _ _ _ _ Hi Hsel) by done. split; [done|].
      destruct Hcs as [???????[??]]; split; cbn; auto with lia.
    + assert (p = CloseEnter → closeOnce (sess c) = Returned) as He.
      { intros ->. cbn [goroutineStep] in Hstep. destruct (closeOnce (sess c)); [|done|done]. by destruct Hne. }
      assert (∀ k h, closeState cfg k h (sess c) → closeState cfg k h s' ∧ closeOnce s' = closeOnce (sess c) ∧
        closeBody p' = false ∧ sel closeBody started = []) as Hout by eauto using outside_step.
      destruct (closeOnce (sess c)) eqn:Ho.
      * intros [Hsel Hcs]. destruct (Hout _ _ Hcs) as (Hcs'&->&Hp'&->).
        by rewrite app_nil_r, (sel_insert_out _ _ _ _ _ Hi Hp Hp').
      * intros (q&Hsel&Hcs). destruct (Hout _ _ Hcs) as (Hcs'&->&Hp'&->).
        rewrite app_nil_r, (sel_insert_out _ _ _ _ _ Hi Hp Hp'). eauto.
      * intros [Hsel Hcs]. destruct (Hout _ _ Hcs) as (Hcs'&->&Hp'&->).
        by rewrite app_nil_r, (sel_insert_out _ _ _ _ _ Hi Hp Hp').
Qed.

(** Changing timers alone. *)
Lemma closeInv_env cfg c s' gs :
  closeInv cfg c → sel closeBody gs = [] →
  (∀ k h, closeState cfg k h (sess c) → closeState cfg k h s') → closeOnce s' = closeOnce (sess c) →
  closeInv cfg {| sess := s'; goroutines := goroutines c ++ gs |}.
Proof.
  unfold closeInv. cbn [sess goroutines]. intros Hinv Hgs Hcs ->. rewrite sel_app, Hgs, app_nil_r.
  destruct (closeOnce (sess c)); [|destruct Hinv as (p&?&?); exists p|]; destruct_and?; auto.
Qed.

Lemma closeInv_step cfg c c' : step cfg c c' → closeInv cfg c → closeInv cfg c'.
Proof.
  intros [i a c1 H|p H|t c1 H|c1 H] Hinv.
  - by eapply closeInv_run.
  - by apply closeInv_start.
  - unfold fire in H. destruct (timers (sess c) !! t) as [[k []]|]; try done. injection H as <-.
    apply closeInv_env; [done|by destruct k| |done]. intros ?? Hcs. eapply closeState_congr; try done.
    intros Hk. by destruct (cs_taken _ _ _ _ Hcs Hk) as (_&?&?).
  - unfold giveExpiry in H. destruct (expiryGiven (sess c)); [done|]. injection H as <-.
    apply closeInv_env; [done|done| |done]. intros ?? Hcs. eapply closeState_congr; try done.
    intros Hk. by destruct (cs_taken _ _ _ _ Hcs Hk) as (_&?&?).
Qed.

Lemma reachable_ind cfg (P : system → Prop) :
  P initial → (∀ c c', P c → step cfg c c' → P c') → ∀ c, reachable cfg c → P c.
Proof. intros H0 Hs c Hr. unfold reachable in Hr. pattern c. eapply rtc_ind_r; [done| |done]. eauto. Qed.

Lemma reachable_closeInv cfg c : reachable cfg c → closeInv cfg c.
Proof.
  apply reachable_ind; [|eauto using closeInv_step]. split; [done|]. split; cbn; auto; by split.
Qed.

(** ** Timers *)

Definition timerPc (p : pc) : bool :=
  match p with CloseIfStillDisconnected _ _ | SetExpiryTimer _ => true | _ => false end.
Definition isSetExpiry (p : pc) : bool := match p with SetExpiryTimer _ => true | _ => false end.

(** The timers of a session and the goroutines [P] that use one: the current
    disconnect timer was made at the last state change, as long as the
    generation has not wrapped around no other one is armed, and the expiry
    timer is stored or on its way. *)
Record timerState (P : list pc) (s : session) : Prop := {
  ti_gen : disconnectGeneration s = uint64 (Z.of_nat (handled s));
  ti_cur : ∀ t, disconnectTimer s = Some t →
    ∃ g st, timers s !! t = Some {| kind := DisconnectTimer g (handled s); status := st |};
  ti_disc : ∀ t g n st, timers s !! t = Some {| kind := DisconnectTimer g n; status := st |} →
    g = uint64 (Z.of_nat n) ∧ n ≤ handled s ∧
    ((Z.of_nat (handled s) < 2 ^ 64)%Z → st = Armed → disconnectTimer s = Some t);
  ti_uniq : ∀ t1 t2 g1 g2 n st1 st2,
    timers s !! t1 = Some {| kind := DisconnectTimer g1 n; status := st1 |} →
    timers s !! t2 = Some {| kind := DisconnectTimer g2 n; status := st2 |} → t1 = t2;
  ti_closure : ∀ g n, CloseIfStillDisconnected g n ∈ P →
    ∃ t, timers s !! t = Some {| kind := DisconnectTimer g n; status := Fired |};
  ti_expiry : ∀ t, timers s !! t = Some {| kind := ExpiryTimer; status := Armed |} →
    expiryTimer s = Some t ∨ SetExpiryTimer t ∈ P;
  ti_given : sel isSetExpiry P = [] ∨
    (expiryGiven s = true ∧ expiryTimer s = None ∧ ∃ t, sel isSetExpiry P = [SetExpiryTimer t]);
  ti_fresh : expiryGiven s = false → expiryTimer s = None ∧ sel isSetExpiry P = []
}.

Definition timerInv (c : system) : Prop := timerState (sel timerPc (goroutines c)) (sess c).

Definition stop (tm : timer) : timer :=
  match status tm with Armed => {| kind := kind tm; status := Stopped |} | _ => tm end.

Lemma stopTimerOpt_lookup o ts j :
  stopTimerOpt o ts !! j = (λ tm, if bool_decide (o = Some j) then stop tm else tm) <$> ts !! j.
Proof.
  destruct o as [t|]; cbn [stopTimerOpt]; [|rewrite bool_decide_eq_false_2 by done; by destruct (ts !! j)].
  unfold stopTimer. destruct (decide (t = j)) as [->|Hne].
  - rewrite list_lookup_alter_eq, bool_decide_eq_true_2 by done. by destruct (ts !! j).
  - rewrite list_lookup_alter_ne, bool_decide_eq_false_2 by (done || congruence). by destruct (ts !! j).
Qed.

(** A timer after some of them were stopped: its kind is the old one, a fired
    one stays fired, an armed one was armed and is not one of those stopped. *)
Lemma stopTimerOpt_inv o ts j k st :
  stopTimerOpt o ts !! j = Some {| kind := k; status := st |} →
  ∃ st0, ts !! j = Some {| kind := k; status := st0 |} ∧ (st = Armed → st0 = Armed ∧ o ≠ Some j).
Proof.
  rewrite stopTimerOpt_lookup, fmap_Some. intros ([k0 st0]&Hj&Heq). case_bool_decide as Ho.
  - unfold stop in Heq. simpl in Heq. exists st0. by destruct st0; injection Heq as -> ->.
  - injection Heq as -> ->. eauto.
Qed.

Lemma stopTimerOpt_kind o ts j k st :
  ts !! j = Some {| kind := k; status := st |} →
  ∃ st', stopTimerOpt o ts !! j = Some {| kind := k; status := st' |} ∧ (st = Fired → st' = Fired).
Proof.
  intros Hj. rewrite stopTimerOpt_lookup, Hj. simpl. case_bool_decide; unfold stop; simpl; [destruct st|]; by eexists.
Qed.

Lemma timerState_frame P s s' :
  timerState P s → disconnectGeneration s' = disconnectGeneration s → handled s' = handled s →
  disconnectTimer s' = disconnectTimer s → timers s' = timers s → expiryTimer s' = expiryTimer s →
  expiryGiven s' = expiryGiven s → timerState P s'.
Proof.
  intros [H1 H2 H3 H4 H5 H6 H7 H8] E1 E2 E3 E4 E5 E6.
  split; rewrite ?E1, ?E2, ?E3, ?E4, ?E5, ?E6; auto.
Qed.

(** Stopping timers that are no longer referred to. *)
Lemma timerState_stop P s o :
  timerState P s →
  let s' := set_timers (stopTimerOpt o (timers s)) s in
  timerState P s' ∧
  (∀ t k st, timers s' !! t = Some {| kind := k; status := st |} → st = Armed → o ≠ Some t).
Proof.
  intros [H1 H2 H3 H4 H5 H6 H7 H8]. cbn zeta. split; [split; cbn; auto|].
  - intros t Ht. destruct (H2 t Ht) as (g&st&Hl). destruct (stopTimerOpt_kind o _ _ _ _ Hl) as (st'&?&_). eauto.
  - intros t g n st (st0&Ht&Ha)%stopTimerOpt_inv. destruct (H3 _ _ _ _ Ht) as (?&?&Hcur). split_and!; try done.
    intros Hb Hst. by apply Hcur, Ha.
  - intros t1 t2 g1 g2 n st1 st2 (st1'&Ht1&_)%stopTimerOpt_inv (st2'&Ht2&_)%stopTimerOpt_inv. eauto.
  - intros g n Hin. destruct (H5 g n Hin) as (t&Ht). exists t.
    destruct (stopTimerOpt_kind o _ _ _ _ Ht) as (st'&Hl&Hf). by rewrite Hl, Hf.
  - intros t (st0&Ht&Ha)%stopTimerOpt_inv. apply H6. destruct (Ha eq_refl) as [-> _]. done.
  - intros t k st (st0&_&Ha)%stopTimerOpt_inv Hst. by apply Ha.
Qed.

Lemma uint64_succ z : uint64 (uint64 z + 1) = uint64 (z + 1).
Proof. unfold uint64. by rewrite Zplus_mod_idemp_l. Qed.

Lemma uint64_small n : (Z.of_nat n < 2 ^ 64)%Z → uint64 (Z.of_nat n) = Z.of_nat n.
Proof. intros H. unfold uint64. apply Z.mod_small. lia. Qed.

(** A state change: the generation counts it and the current timer is stopped. *)
Lemma timerState_change P s st :
  timerState P s →
  let s1 := set_disconnectGeneration (uint64 (disconnectGeneration s + 1)) (set_handled (S (handled s)) s) in
  timerState P (set_disconnectTimer None (set_timers (stopTimerOpt (disconnectTimer s) (timers s)) (set_peerState st s1))).
Proof.
  intros H. destruct (timerState_stop P s (disconnectTimer s) H) as [[H1 H2 H3 H4 H5 H6 H7 H8] Hst].
  cbn in *. split; cbn; auto; try done.
  - rewrite H1, uint64_succ. f_equal. lia.
  - intros t g n st' Ht. destruct (H3 _ _ _ _ Ht) as (?&?&Ha). split_and!; [done|lia|].
    intros Hb ->. destruct (Hst _ _ _ Ht eq_refl). apply Ha; [lia|done].
Qed.

Lemma lookup_snoc_inv {A} (l : list A) x j y :
  (l ++ [x]) !! j = Some y → l !! j = Some y ∨ (j = length l ∧ y = x).
Proof. intros [H|[H1 H2]]%lookup_app_Some; [by left|]. apply list_lookup_singleton_Some in H2 as [? ->]. right. split; [lia|done]. Qed.

(** A fresh disconnect timer for the last state change. *)
Lemma timerState_arm P s :
  timerState P s → disconnectTimer s = None →
  (∀ t g n st, timers s !! t = Some {| kind := DisconnectTimer g n; status := st |} → n < handled s) →
  (∀ t g n, (Z.of_nat (handled s) < 2 ^ 64)%Z → timers s !! t ≠ Some {| kind := DisconnectTimer g n; status := Armed |}) →
  timerState P (set_disconnectTimer (Some (length (timers s)))
    (set_timers (timers s ++ [{| kind := DisconnectTimer (disconnectGeneration s) (handled s); status := Armed |}]) s)).
Proof.
  intros [H1 H2 H3 H4 H5 H6 H7 H8] Hnone Hold Harm. split; cbn; auto.
  - intros t [= <-]. exists (disconnectGeneration s), Armed. by rewrite list_lookup_middle.
  - intros t g n st [Ht|[-> [= -> -> ->]]]%lookup_snoc_inv; [|split_and!; auto].
    destruct (H3 _ _ _ _ Ht) as (?&?&_). split_and!; [done..|]. intros Hb ->. by destruct (Harm _ _ _ Hb Ht).
  - intros t1 t2 g1 g2 n st1 st2 [Ht1|[-> [= -> -> ->]]]%lookup_snoc_inv [Ht2|[-> [= Heq]]]%lookup_snoc_inv; eauto.
    + specialize (Hold _ _ _ _ Ht1). lia.
    + specialize (Hold _ _ _ _ Ht2). lia.
  - intros g n Hin. destruct (H5 g n Hin) as (t&Ht). exists t. by apply lookup_app_l_Some.
  - intros t [Ht|[_ [=]]]%lookup_snoc_inv. auto.
Qed.

Lemma timerState_handle P s st : timerState P s → timerState P (handlePeerConnectionState st s).
Proof.
  intros H. pose proof (timerState_change P s st H) as Hc. cbn zeta in Hc. unfold handlePeerConnectionState. cbn zeta.
  set (s1 := set_disconnectTimer None _) in *.
  destruct (stateIs st StateDisconnected && _); [|exact Hc].
  apply (timerState_arm P s1); [exact Hc|done|..].
  - intros t g n st' (st0&Ht&_)%stopTimerOpt_inv. cbn in Ht. destruct (ti_disc _ _ H _ _ _ _ Ht) as (_&?&_).
    cbn. lia.
  - intros t g n Hb Ht. destruct (ti_disc _ _ Hc _ _ _ _ Ht) as (_&_&Ha). by specialize (Ha Hb eq_refl).
Qed.

Lemma timerState_take P s : timerState P s → timerState P (closeTake s).1.
Proof.
  intros H. destruct (timerState_stop P s (disconnectTimer s) H) as [Hs1 Hn1].
  destruct (timerState_stop P _ (expiryTimer s) Hs1) as [[H1 H2 H3 H4 H5 H6 H7 H8] Hn2]. cbn in *.
  split; cbn; auto; try done.
  - intros t g n st Ht. destruct (H3 _ _ _ _ Ht) as (?&?&Ha). split_and!; try done. intros Hb ->.
    apply stopTimerOpt_inv in Ht as (st0&Ht&Hst). destruct (Hst eq_refl) as [-> _].
    destruct (Hn1 _ _ _ Ht eq_refl). by apply Ha.
  - intros t Ht. right. destruct (H6 t Ht) as [He|?]; [|done]. by destruct (Hn2 _ _ _ Ht eq_refl).
  - destruct H7 as [?|(?&?&?)]; auto.
  - intros Hg. by destruct (H8 Hg).
Qed.

(** The goroutines using timers lose one. *)
Lemma timerState_fewer P P' s :
  timerState P s → (∀ g n, CloseIfStillDisconnected g n ∈ P' → CloseIfStillDisconnected g n ∈ P) →
  sel isSetExpiry P' = sel isSetExpiry P → timerState P' s.
Proof.
  intros [H1 H2 H3 H4 H5 H6 H7 H8] Hc Hs. split; rewrite ?Hs; auto.
  intros t Ht. destruct (H6 t Ht) as [?|Hin]; [by left|right].
  assert (SetExpiryTimer t ∈ sel isSetExpiry P) as Hin' by by apply elem_of_sel.
  rewrite <- Hs in Hin'. by apply elem_of_sel in Hin' as [_ ?].
Qed.

Lemma stateIs_true a b : stateIs a b = true ↔ a = b.
Proof. apply bool_decide_eq_true. Qed.

(** The check passes only for the closure of the timer made at the last state
    change, and that state is disconnected. *)
Lemma closeIfStill_current P s g n :
  timerState P s → CloseIfStillDisconnected g n ∈ P → (Z.of_nat (handled s) < 2 ^ 64)%Z →
  (closeIfStillDisconnected g s).2 = true →
  ctxDone s = false ∧ peerState s = StateDisconnected ∧ n = handled s ∧
  ∃ t, timers s !! t = Some {| kind := DisconnectTimer g n; status := Fired |}.
Proof.
  intros [H1 H2 H3 H4 H5 H6 H7 H8] Hin Hb. unfold closeIfStillDisconnected. cbn [snd].
  intros [[Hctx Hst]%andb_true_iff Hg%Z.eqb_eq]%andb_true_iff. apply negb_true_iff in Hctx.
  apply stateIs_true in Hst. destruct (H5 _ _ Hin) as (t&Ht). destruct (H3 _ _ _ _ Ht) as (Hgn&Hle&_).
  split_and!; try done; [|by exists t]. rewrite H1, Hgn, !uint64_small in Hg by lia. lia.
Qed.

Lemma timerState_closeIfStill l1 l2 s g n :
  timerState (l1 ++ CloseIfStillDisconnected g n :: l2) s →
  timerState (l1 ++ l2) (closeIfStillDisconnected g s).1.
Proof.
  intros H.
  assert (timerState (l1 ++ l2) s) as [H1 H2 H3 H4 H5 H6 H7 H8].
  { eapply timerState_fewer; [exact H|intros; apply elem_of_middle; auto|]. by rewrite !sel_app. }
  pose proof (closeIfStill_current _ s g n H ltac:(apply elem_of_middle; auto)) as Hcur.
  unfold closeIfStillDisconnected in *. cbn [fst snd] in *. destruct (negb (ctxDone s) && _ && _); [|by split].
  split; cbn; auto; [done|]. intros t g' n' st Ht. destruct (H3 _ _ _ _ Ht) as (?&?&Ha). split_and!; try done.
  intros Hb ->. destruct (Hcur Hb eq_refl) as (_&_&->&t'&Ht').
  destruct (H2 t (Ha Hb eq_refl)) as (g''&st''&Hl). rewrite Hl in Ht. injection Ht as -> <- ->.
  assert (t = t') as -> by eauto. congruence.
Qed.

Lemma timerState_setExpiry l1 l2 s t :
  timerState (l1 ++ SetExpiryTimer t :: l2) s → timerState (l1 ++ l2) (setExpiryTimer t s).
Proof.
  intros H. pose proof H as [H1 H2 H3 H4 H5 H6 H7 H8].
  rewrite sel_app in H7, H8. cbn [sel isSetExpiry] in H7, H8.
  destruct H7 as [H7|(Hg&He&t'&H7)]; [by destruct (sel isSetExpiry l1)|].
  assert (t' = t ∧ sel isSetExpiry (l1 ++ l2) = []) as [-> Hs].
  { rewrite sel_app. destruct (sel isSetExpiry l1) as [|x l] eqn:E; simpl in H7.
    - by injection H7 as -> ->.
    - injection H7 as -> H7. by destruct l. }
  assert (Hrest : ∀ t', SetExpiryTimer t' ∈ l1 ++ l2 → False).
  { intros t' Hin. eapply sel_none in Hin; [|exact Hs]. done. }
  assert (Hc : ∀ g n, CloseIfStillDisconnected g n ∈ l1 ++ l2 → ∃ t0,
    timers s !! t0 = Some {| kind := DisconnectTimer g n; status := Fired |}) by (intros; apply H5, elem_of_middle; auto).
  unfold setExpiryTimer. destruct (ctxDone s).
  - destruct (timerState_stop _ s (Some t) H) as [[H1' H2' H3' H4' H5' H6' H7' H8'] Hn]. cbn in *.
    split; cbn; rewrite ?Hs; auto.
    + intros g n Hin. apply H5', elem_of_middle. auto.
    + intros t0 Ht. left. destruct (H6' t0 Ht) as [?|Hin]; [done|].
      apply elem_of_middle in Hin as [[= ->]|Hin]; [|by destruct (Hrest t0)].
      by destruct (Hn _ _ _ Ht eq_refl).
  - split; cbn; rewrite ?Hs; auto.
    + intros t0 Ht. left. destruct (H6 t0 Ht) as [?|Hin]; [congruence|].
      apply elem_of_middle in Hin as [[= ->]|Hin]; [done|by destruct (Hrest t0)].
    + congruence.
Qed.

Lemma timerState_fire P s t k :
  timerState P s → timers s !! t = Some {| kind := k; status := Armed |} →
  timerState (P ++ sel timerPc [callback k]) (set_timers (<[t := {| kind := k; status := Fired |}]> (timers s)) s).
Proof.
  intros [H1 H2 H3 H4 H5 H6 H7 H8] Ht.
  assert (Hlen : t < length (timers s)) by by eapply lookup_lt_Some.
  assert (Hinv : ∀ j k' st, <[t := {| kind := k; status := Fired |}]> (timers s) !! j = Some {| kind := k'; status := st |} →
    (∃ st0, timers s !! j = Some {| kind := k'; status := st0 |} ∧ (st = Armed → st0 = Armed))).
  { intros j k' st Hj. destruct (decide (t = j)) as [<-|Hne].
    - rewrite list_lookup_insert_eq in Hj by done. injection Hj as -> <-. eauto.
    - rewrite list_lookup_insert_ne in Hj by done. eauto. }
  assert (Hfwd : ∀ j k' st, timers s !! j = Some {| kind := k'; status := st |} →
    ∃ st', <[t := {| kind := k; status := Fired |}]> (timers s) !! j = Some {| kind := k'; status := st' |} ∧
           (st = Fired → st' = Fired)).
  { intros j k' st Hj. destruct (decide (t = j)) as [<-|Hne].
    - rewrite list_lookup_insert_eq by done. rewrite Ht in Hj. injection Hj as <- <-. eauto.
    - rewrite list_lookup_insert_ne by done. eauto. }
  assert (Hsel : sel isSetExpiry (P ++ sel timerPc [callback k]) = sel isSetExpiry P).
  { rewrite sel_app. destruct k; by rewrite app_nil_r. }
  split; cbn; rewrite ?Hsel; auto.
  - intros j Hj. destruct (H2 j Hj) as (g&st&Hl). destruct (Hfwd _ _ _ Hl) as (st'&?&_). eauto.
  - intros j g n st (st0&Hj&Ha)%Hinv. destruct (H3 _ _ _ _ Hj) as (?&?&Hcur). split_and!; auto.
  - intros t1 t2 g1 g2 n st1 st2 (?&?&_)%Hinv (?&?&_)%Hinv. eauto.
  - intros g n [Hin|Hin]%elem_of_app.
    + destruct (H5 _ _ Hin) as (j&Hj). exists j. destruct (Hfwd _ _ _ Hj) as (st'&Hl&Hf). by rewrite Hl, Hf.
    + exists t. rewrite list_lookup_insert_eq by done. destruct k as [g' n'|]; simpl in Hin; [|by apply elem_of_nil in Hin].
      by apply list_elem_of_singleton in Hin as [= -> ->].
  - intros j (st0&Hj&Ha)%Hinv. rewrite (Ha eq_refl) in Hj. rewrite elem_of_app. destruct (H6 j Hj); auto.
  - by destruct k; rewrite ?app_nil_r; rewrite ?sel_app, ?app_nil_r.
  - by destruct k; rewrite ?app_nil_r; rewrite ?sel_app, ?app_nil_r.
Qed.

Lemma timerState_give P s :
  timerState P s → expiryGiven s = false →
  timerState (P ++ [SetExpiryTimer (length (timers s))])
    (set_expiryGiven true (set_timers (timers s ++ [{| kind := ExpiryTimer; status := Armed |}]) s)).
Proof.
  intros [H1 H2 H3 H4 H5 H6 H7 H8] Hg. destruct (H8 Hg) as [He Hs]. split; cbn; auto.
  - intros t Ht. destruct (H2 t Ht) as (g&st&Hl). exists g, st. by apply lookup_app_l_Some.
  - intros t g n st [Ht|[_ [=]]]%lookup_snoc_inv. eauto.
  - intros t1 t2 g1 g2 n st1 st2 [Ht1|[_ [=]]]%lookup_snoc_inv [Ht2|[_ [=]]]%lookup_snoc_inv. eauto.
  - intros g n [Hin|Hin%list_elem_of_singleton]%elem_of_app; [|done]. destruct (H5 _ _ Hin) as (t&?).
    exists t. by apply lookup_app_l_Some.
  - intros t [Ht|[-> _]]%lookup_snoc_inv; [|right; apply elem_of_app; right; by left].
    destruct (H6 t Ht); [by left|right; apply elem_of_app; by left].
  - right. split_and!; [done..|]. exists (length (timers s)). by rewrite sel_app, Hs.
  - done.
Qed.

(** What the steps that are not about timers leave alone. *)
Lemma plain_step cfg a p s s' p' started :
  goroutineStep cfg a p s = Some (s', p', started) → timerPc p = false →
  (∀ st, p ≠ HandleState st) → p ≠ CloseTake →
  timerPc p' = false ∧ sel timerPc started = [] ∧
  disconnectGeneration s' = disconnectGeneration s ∧ handled s' = handled s ∧
  disconnectTimer s' = disconnectTimer s ∧ timers s' = timers s ∧ expiryTimer s' = expiryTimer s ∧
  expiryGiven s' = expiryGiven s.
Proof.
  intros Hstep Hp Hh Ht. destruct p; try discriminate Hp; try done; try (by destruct (Hh s0)); cbn [goroutineStep] in Hstep;
    unfold startRecorder in Hstep; step_cases Hstep; goal_cases; split_and!; done.
Qed.

Lemma timerInv_run cfg i a c c' : run cfg i a c = Some c' → timerInv c → timerInv c'.
Proof.
  unfold run, timerInv. destruct (goroutines c !! i) as [p|] eqn:Hi; [|done].
  destruct (goroutineStep cfg a p (sess c)) as [[[s' p'] started]|] eqn:Hstep; [|done]. intros [= <-] H.
  cbn [sess goroutines]. destruct (timerPc p) eqn:Hp.
  - assert (timerPc p' = false ∧ started = []) as [Hp' ->].
    { destruct p; try discriminate Hp; cbn [goroutineStep] in Hstep; unfold closeIfStillDisconnected in Hstep;
        step_cases Hstep; by goal_cases. }
    rewrite app_nil_r. destruct (sel_insert_leave _ _ _ _ p' Hi Hp Hp') as (l1&l2&E1&->). rewrite E1 in H.
    destruct p; try discriminate Hp; cbn [goroutineStep] in Hstep.
    + apply timerState_closeIfStill in H. destruct (closeIfStillDisconnected _ _). by injection Hstep as <- _.
    + injection Hstep as <- _. by apply timerState_setExpiry.
  - assert (timerPc p' = false ∧ sel timerPc started = [] ∧ timerState (sel timerPc (goroutines c)) s') as (Hp'&Hs&H').
    { destruct (decide (p = CloseTake)) as [->|Ht].
      { cbn [goroutineStep] in Hstep. pose proof (timerState_take _ _ H). destruct (closeTake _). by injection Hstep as <- <- <-. }
      assert ((∃ st, p = HandleState st) ∨ ∀ st, p ≠ HandleState st) as [[st ->]|Hh] by (destruct p; eauto).
      { cbn [goroutineStep] in Hstep. pose proof (timerState_handle _ _ st H). step_cases Hstep; by split_and!. }
      destruct (plain_step _ _ _ _ _ _ _ Hstep) as (?&?&?&?&?&?&?&?); [done..|].
      split_and!; [done|done|by eapply timerState_frame]. }
    by rewrite (sel_insert_started _ _ _ _ _ _ Hi Hp Hp' Hs).
Qed.

Lemma timerInv_step cfg c c' : step cfg c c' → timerInv c → timerInv c'.
Proof.
  intros [i a c1 H|p H|t c1 H|c1 H] Hinv.
  - by eapply timerInv_run.
  - unfold timerInv, start. cbn [sess goroutines]. rewrite sel_app.
    assert (sel timerPc [p] = []) as -> by by destruct p. by rewrite app_nil_r.
  - unfold fire in H. destruct (timers (sess c) !! t) as [[k []]|] eqn:Ht; try done. injection H as <-.
    unfold timerInv. cbn [sess goroutines]. rewrite sel_app. by apply timerState_fire.
  - unfold giveExpiry in H. destruct (expiryGiven (sess c)) eqn:Hg; [done|]. injection H as <-.
    unfold timerInv. cbn [sess goroutines]. rewrite sel_app. by apply timerState_give.
Qed.

Lemma reachable_timerInv cfg c : reachable cfg c → timerInv c.
Proof.
  apply reachable_ind; [|eauto using timerInv_step].
  split; cbn; try done; auto; intros; by (left || set_solver).
Qed.

(** ** The audio prime *)

Definition primeBody (p : pc) : bool :=
  match p with PrimeSection | PrimeAbort | PrimeGo => true | _ => false end.
(** The cancel function is stored by the section, just before the run starts. *)
Definition primeStored (p : pc) : bool := match p with PrimeGo => true | _ => false end.

Definition primeState (cfg : sessionConfig) (body : list pc) (s : session) : Prop :=
  match audioPrimeOnce s with
  | NotStarted => body = [] ∧ primeRuns s = 0 ∧ audioPrimeCancel s = false
  | Running => ∃ p, body = [p] ∧ primeRuns s = 0 ∧ audioPrimeCancel s = primeStored p ∧
                    audioPrimeEnabled cfg && audioPrimeWriter cfg = true
  | Returned => body = [] ∧ primeRuns s = (if audioPrimeCancel s then 1 else 0) ∧
                audioPrimeEnabled cfg && audioPrimeWriter cfg = true
  end.

Definition isPrimeOnce (p : pc) : bool := match p with PrimeOnce => true | _ => false end.

Definition primeInv (cfg : sessionConfig) (c : system) : Prop :=
  primeState cfg (sel primeBody (goroutines c)) (sess c) ∧
  (PrimeOnce ∈ goroutines c → audioPrimeEnabled cfg && audioPrimeWriter cfg = true).

Lemma handlePeerConnectionState_prime state s :
  let s' := handlePeerConnectionState state s in
  audioPrimeOnce s' = audioPrimeOnce s ∧ primeRuns s' = primeRuns s ∧ audioPrimeCancel s' = audioPrimeCancel s.
Proof. cbn zeta. unfold handlePeerConnectionState. cbn zeta. by destruct (stateIs state StateDisconnected), (ctxDone s) eqn:E; cbn; rewrite ?E. Qed.

(** Steps outside the body: they start no run and enter the body only through
    the once. *)
Lemma prime_outside_step cfg a p s s' p' started :
  goroutineStep cfg a p s = Some (s', p', started) → primeBody p = false →
  ((p = PrimeOnce ∧ audioPrimeOnce s = NotStarted ∧ p' = PrimeSection ∧ s' = set_audioPrimeOnce Running s) ∨
   (primeBody p' = false ∧ audioPrimeOnce s' = audioPrimeOnce s ∧ primeRuns s' = primeRuns s ∧
    audioPrimeCancel s' = audioPrimeCancel s)) ∧ sel primeBody started = [] ∧
  (p' = PrimeOnce → audioPrimeEnabled cfg && audioPrimeWriter cfg = true) ∧ sel isPrimeOnce started = [].
Proof.
  intros Hstep Hp. destruct p as [| | | | | | | | | | | |st| | | | | | | | | | | | | | | | |]; try discriminate Hp; cbn [goroutineStep] in Hstep;
    try (destruct (handlePeerConnectionState_prime st s) as (F1&F2&F3));
    unfold closeIfStillDisconnected, setExpiryTimer, startRecorder, closeTake in Hstep;
    step_cases Hstep; split_and!; try done; try (by left); try (right; split_and!; goal_cases; done); try (by goal_cases).
  intros _. by repeat match goal with H : _ || _ = false |- _ => apply orb_false_iff in H as [? ?]
    | H : negb _ = false |- _ => apply negb_false_iff in H; rewrite H end.
Qed.

Lemma prime_inside_step cfg a p s s' p' started :
  goroutineStep cfg a p s = Some (s', p', started) → primeBody p = true → audioPrimeOnce s = Running →
  primeState cfg [p] s →
  primeState cfg (if primeBody p' then [p'] else []) s' ∧ sel primeBody started = [] ∧ sel isPrimeOnce started = [] ∧ p' ≠ PrimeOnce.
Proof.
  intros Hstep Hp Ho. unfold primeState. rewrite Ho. intros (q&[= <-]&Hr&Hc&He).
  destruct p; try discriminate Hp; cbn [goroutineStep] in Hstep; step_cases Hstep; split_and!; try done;
    cbn; rewrite ?Ho, ?Hr, ?Hc, ?He; try (by eexists).
  all: eexists; split_and!; done.
Qed.

Lemma primeOnce_kept gs i p' started :
  PrimeOnce ∈ <[i := p']> gs ++ started → p' ≠ PrimeOnce → sel isPrimeOnce started = [] → PrimeOnce ∈ gs.
Proof.
  intros [[->|?]%elem_of_insert_or|Hin]%elem_of_app Hp' Hs; [done|done|].
  by eapply sel_none in Hin; [|exact Hs].
Qed.

Lemma primeInv_run cfg i a c c' : run cfg i a c = Some c' → primeInv cfg c → primeInv cfg c'.
Proof.
  unfold run. destruct (goroutines c !! i) as [p|] eqn:Hi; [|done].
  destruct (goroutineStep cfg a p (sess c)) as [[[s' p'] started]|] eqn:Hstep; [|done]. intros [= <-] [H Henter].
  unfold primeInv. cbn [sess goroutines]. destruct (primeBody p) eqn:Hp.
  - assert (Hin : p ∈ sel primeBody (goroutines c))
      by (apply elem_of_sel; split; [done|by eapply list_elem_of_lookup_2]).
    assert (audioPrimeOnce (sess c) = Running ∧ sel primeBody (goroutines c) = [p]) as [Ho Hsel].
    { unfold primeState in H. destruct (audioPrimeOnce (sess c)).
      - destruct H as [E _]. rewrite E in Hin. by apply elem_of_nil in Hin.
      - destruct H as (q&E&_). rewrite E in Hin |- *. by apply list_elem_of_singleton in Hin as ->.
      - destruct H as [E _]. rewrite E in Hin. by apply elem_of_nil in Hin. }
    rewrite Hsel in H. destruct (prime_inside_step _ _ _ _ _ _ _ Hstep Hp Ho H) as (H'&Hs1&Hs2&Hne).
    rewrite sel_app, Hs1, app_nil_r. destruct (sel_insert_inside _ _ _ _ p' _ Hi Hp Hsel) as [_ ->].
    split; [done|]. intros Hin'. eapply Henter, primeOnce_kept; eauto.
  - destruct (prime_outside_step _ _ _ _ _ _ _ Hstep Hp) as ([(->&Ho&->&->)|(Hp'&E1&E2&E3)]&Hs1&Hen&Hs2).
    + assert (PrimeOnce ∈ goroutines c) as Hin by by eapply list_elem_of_lookup_2.
      unfold primeState in H. rewrite Ho in H. destruct H as (Hsel&Hr&Hc).
      rewrite sel_app, Hs1, app_nil_r, (sel_insert_enter _ _ _ _ _ Hi Hsel) by done. split; [|auto].
      cbn. exists PrimeSection. rewrite Hc. auto.
    + split; [|intros Hin].
      * rewrite (sel_insert_started _ _ _ _ _ _ Hi Hp Hp' Hs1). unfold primeState in *. by rewrite E1, E2, E3.
      * destruct (decide (p' = PrimeOnce)) as [->|Hne]; [auto|]. eapply Henter, primeOnce_kept; eauto.
Qed.

Lemma primeInv_env cfg c s' p :
  primeInv cfg c → primeBody p = false → p ≠ PrimeOnce →
  audioPrimeOnce s' = audioPrimeOnce (sess c) → primeRuns s' = primeRuns (sess c) →
  audioPrimeCancel s' = audioPrimeCancel (sess c) →
  primeInv cfg {| sess := s'; goroutines := goroutines c ++ [p] |}.
Proof.
  intros [H He] Hp Hne E1 E2 E3. unfold primeInv, primeState in *. cbn [sess goroutines].
  rewrite sel_app. cbn [sel]. rewrite Hp, app_nil_r, E1, E2, E3. split; [done|].
  intros [?|Hin%list_elem_of_singleton]%elem_of_app; [auto|done].
Qed.

Lemma primeInv_step cfg c c' : step cfg c c' → primeInv cfg c → primeInv cfg c'.
Proof.
  intros [i a c1 H|p H|t c1 H|c1 H] Hinv.
  - by eapply primeInv_run.
  - apply primeInv_env; [done|by destruct p|by intros ->|done..].
  - unfold fire in H. destruct (timers (sess c) !! t) as [[k []]|]; try done. injection H as <-.
    apply primeInv_env; [done|by destruct k|by destruct k|done..].
  - unfold giveExpiry in H. destruct (expiryGiven (sess c)); [done|]. injection H as <-. by apply primeInv_env.
Qed.

Lemma reachable_primeInv cfg c : reachable cfg c → primeInv cfg c.
Proof.
  apply reachable_ind; [|eauto using primeInv_step]. split; [done|]. intros H. by apply elem_of_nil in H.
Qed.

(** ** What a returned Close has seen *)

Definition returning (p : pc) : bool := match p with CloseReturn | CloseReturned _ => true | _ => false end.

Definition returnInv (c : system) : Prop :=
  ∀ p, p ∈ goroutines c → returning p = true →
  closeOnce (sess c) = Returned ∧ (∀ e, p = CloseReturned e → e = closeErr (sess c)).

(** Once closeOnce has returned, neither it nor the error changes. *)
Lemma closed_step_stable cfg c c' :
  closeInv cfg c → step cfg c c' → closeOnce (sess c) = Returned →
  closeOnce (sess c') = Returned ∧ closeErr (sess c') = closeErr (sess c).
Proof.
  intros Hinv [i a c1 H|p H|t c1 H|c1 H] Ho; [|done|..].
  - unfold run in H. destruct (goroutines c !! i) as [p|] eqn:Hi; [|done].
    destruct (goroutineStep cfg a p (sess c)) as [[[s' p'] started]|] eqn:Hstep; [|done]. injection H as <-.
    cbn [sess]. unfold closeInv in Hinv. rewrite Ho in Hinv. destruct Hinv as [Hsel _].
    apply list_elem_of_lookup_2 in Hi. eapply sel_none in Hi; [|exact Hsel].
    destruct p as [| | | | | | | | | | | |st| | | | | | | | | | | | | | | | |]; try discriminate Hi; cbn [goroutineStep] in Hstep;
      try (destruct (handlePeerConnectionState_fields st (sess c)) as (_&_&_&_&_&_&_&_&_&Fe&Fo));
      unfold startRecorder, closeIfStillDisconnected, setExpiryTimer in Hstep; step_cases Hstep; goal_cases; cbn; split; congruence.
  - unfold fire in H. destruct (timers (sess c) !! t) as [[k []]|]; try done. by injection H as <-.
  - unfold giveExpiry in H. destruct (expiryGiven (sess c)); [done|]. by injection H as <-.
Qed.

Lemma returning_step cfg a p s s' p' started :
  goroutineStep cfg a p s = Some (s', p', started) →
  sel returning started = [] ∧
  (returning p' = true → (closeOnce s' = Returned ∨ returning p = true ∧ closeOnce s' = closeOnce s) ∧
                         (∀ e, p' = CloseReturned e → e = closeErr s')).
Proof.
  intros Hstep. destruct p; cbn [goroutineStep] in Hstep;
    unfold startRecorder, closeIfStillDisconnected, setExpiryTimer, closeTake in Hstep; step_cases Hstep; goal_cases;
    (split; [done|]); intros Hr; try discriminate Hr; (split; [by auto|congruence]).
Qed.

Lemma returnInv_step cfg c c' : closeInv cfg c → step cfg c c' → returnInv c → returnInv c'.
Proof.
  intros Hinv Hstep H q Hq Hr.
  assert (Hold : q ∈ goroutines c → closeOnce (sess c') = Returned ∧ (∀ e, q = CloseReturned e → e = closeErr (sess c'))).
  { intros Hin. destruct (H q Hin Hr) as [Ho He].
    destruct (closed_step_stable cfg c c' Hinv Hstep Ho) as [? Heq]. split; [done|]. intros e ->. by rewrite (He e), Heq. }
  destruct Hstep as [i a c1 Hs|p Hs|t c1 Hs|c1 Hs].
  - unfold run in Hs. destruct (goroutines c !! i) as [p|] eqn:Hi; [|done].
    destruct (goroutineStep cfg a p (sess c)) as [[[s' p'] started]|] eqn:Hgs; [|done]. injection Hs as <-.
    cbn [sess goroutines] in *. destruct (returning_step _ _ _ _ _ _ _ Hgs) as [Hst Hret].
    apply elem_of_app in Hq as [Hq|Hq]; [|pose proof (sel_none _ _ _ Hst Hq); congruence].
    apply elem_of_insert_or in Hq as [->|Hq]; [|auto].
    destruct (Hret Hr) as [[?|[Hp Ho]] He]; [done|]. split; [|done].
    apply list_elem_of_lookup_2 in Hi. destruct (H p Hi Hp) as [? _]. congruence.
  - apply elem_of_app in Hq as [Hq|Hq%list_elem_of_singleton]; [auto|]. subst. by destruct p.
  - unfold fire in Hs. destruct (timers (sess c) !! t) as [[k []]|]; try done. injection Hs as <-.
    apply elem_of_app in Hq as [Hq|Hq%list_elem_of_singleton]; [auto|]. subst. by destruct k.
  - unfold giveExpiry in Hs. destruct (expiryGiven (sess c)); [done|]. injection Hs as <-.
    apply elem_of_app in Hq as [Hq|Hq%list_elem_of_singleton]; [auto|]. by subst.
Qed.

Lemma reachable_returnInv cfg c : reachable cfg c → returnInv c.
Proof.
  intros Hr. cut (closeInv cfg c ∧ returnInv c); [by intros [_ ?]|]. revert c Hr. apply reachable_ind.
  - split; [apply (reachable_closeInv cfg initial), rtc_refl|]. intros p Hp. by apply elem_of_nil in Hp.
  - intros c c' [Hc H] Hs. split; [by eapply closeInv_step|by eapply returnInv_step].
Qed.

(** Every step of the closing goroutine is enabled and moves it on. *)
Lemma body_enabled cfg a p s :
  closeBody p = true → ∃ s' p', goroutineStep cfg a p s = Some (s', p', []) ∧
    (closeStage p' = S (closeStage p) ∨ (p = CloseFinish ∧ closeOnce s' = Returned)).
Proof. destruct p as [| | | | | |[]| | | | | | | | | | | | | | | | | | | | | | |]; try done; intros _; cbn [goroutineStep]; unfold closeTake;
  do 2 eexists; (split; [reflexivity|]); first [by left|by right]. Qed.

(** Run goroutine [i] once per answer. *)
Fixpoint runs (cfg : sessionConfig) (i : nat) (answers : list answer) (c : system) : option system :=
  match answers with
  | [] => Some c
  | a :: rest => match run cfg i a c with Some c' => runs cfg i rest c' | None => None end
  end.

Lemma body_completes cfg i answers c p :
  closeInv cfg c → goroutines c !! i = Some p → closeBody p = true → length answers = 9 - closeStage p →
  ∃ c', runs cfg i answers c = Some c' ∧ closeOnce (sess c') = Returned.
Proof.
  revert c p. induction answers as [|a answers IH]; intros c p Hinv Hi Hp Hlen.
  { destruct p; try discriminate Hp; simpl in Hlen; lia. }
  destruct (body_enabled cfg a p (sess c) Hp) as (s'&p'&Hstep&Hnext).
  assert (Hrun : run cfg i a c = Some {| sess := s'; goroutines := <[i := p']> (goroutines c) ++ [] |})
    by (unfold run; by rewrite Hi, Hstep).
  cbn [runs]. rewrite Hrun. destruct Hnext as [Hnext|[-> Hret]].
  - apply (IH _ p'); [by eapply closeInv_run| | |].
    + cbn [goroutines]. rewrite app_nil_r. apply list_lookup_insert_eq. by eapply lookup_lt_Some.
    + unfold closeBody in *. rewrite Hnext. done.
    + rewrite Hnext. simpl in Hlen. lia.
  - simpl in Hlen. destruct answers; [|simpl in Hlen; lia]. eauto.
Qed.

Lemma running_body cfg c :
  closeInv cfg c → closeOnce (sess c) = Running → ∃ i p, goroutines c !! i = Some p ∧ closeBody p = true.
Proof.
  unfold closeInv. intros H Ho. rewrite Ho in H. destruct H as (p&Hsel&_).
  assert (p ∈ sel closeBody (goroutines c)) as [Hp Hin]%elem_of_sel by (rewrite Hsel; by left).
  apply list_elem_of_lookup in Hin as [i Hi]. eauto.
Qed.

Lemma running_prime cfg c :
  primeInv cfg c → audioPrimeOnce (sess c) = Running →
  ∃ i p, goroutines c !! i = Some p ∧ primeBody p = true ∧ ∀ a, ∃ c', run cfg i a c = Some c'.
Proof.
  unfold primeInv, primeState. intros [H _] Ho. rewrite Ho in H. destruct H as (p&Hsel&_).
  assert (p ∈ sel primeBody (goroutines c)) as [Hp Hin]%elem_of_sel by (rewrite Hsel; by left).
  apply list_elem_of_lookup in Hin as [i Hi]. exists i, p. split_and!; [done|done|].
  intros a. unfold run. rewrite Hi. destruct p; try discriminate Hp; cbn [goroutineStep]; try destruct (ctxDone (sess c)); eexists; reflexivity.
Qed.

(** A goroutine that can be run, whatever the environment answers. *)
Definition enabled (cfg : sessionConfig) (i : nat) (c : system) : Prop := ∀ a, ∃ c', run cfg i a c = Some c'.

(** ** Properties *)

(** C1. When [Close] has run, in every interleaving: the context is cancelled,
    no recorder is left in the session and the one that was created, if any, was
    closed exactly once, no timer is armed except an expiry timer still on its
    way to [setExpiryTimer] (which will stop it), the peer was closed once and
    the manager told once. *)
Theorem session_closed_releases (cfg : sessionConfig) (c : system) :
  reachable cfg c → closeOnce (sess c) = Returned →
  ctxDone (sess c) = true ∧ recorder (sess c) = None ∧
  (recorders (sess c) = [] ∨ recorders (sess c) = [1]) ∧
  peerCloses (sess c) = 1 ∧ terminals (sess c) = (if hasOnTerminal cfg then 1 else 0) ∧
  ((Z.of_nat (handled (sess c)) < 2 ^ 64)%Z →
   ∀ t k, timers (sess c) !! t = Some {| kind := k; status := Armed |} →
   k = ExpiryTimer ∧ SetExpiryTimer t ∈ goroutines c).
Proof.
  intros Hr Ho. pose proof (reachable_closeInv _ _ Hr) as Hc. pose proof (reachable_timerInv _ _ Hr) as Ht.
  unfold closeInv in Hc. rewrite Ho in Hc. destruct Hc as [_ [H1 H2 H3 H4 H5 H6 H7 H8]].
  destruct (H4 ltac:(lia)) as (Hrec&Hdt&Het). split_and!; try done.
  intros Hb t [g n|] Hl.
  - destruct (ti_disc _ _ Ht _ _ _ _ Hl) as (_&_&Ha). rewrite Hdt in Ha. by specialize (Ha Hb eq_refl).
  - split; [done|]. destruct (ti_expiry _ _ Ht _ Hl) as [?|Hin]; [congruence|].
    by apply elem_of_sel in Hin as [_ ?].
Qed.

(** A session with a recording and an armed disconnect timer, closed twice at once. *)
Definition closingRun (cfg : sessionConfig) : option system :=
  let c := start CloseEnter (start CloseEnter (start (HandleState StateDisconnected) (start (OnTrack true §"audio/OPUS") initial))) in
  match runs cfg 0 [Succeeds; Succeeds] c with
  | Some c => match runs cfg 1 [Succeeds] c with
              | Some c => match runs cfg 2 (replicate 9 Fails) c with
                          | Some c => runs cfg 3 [Succeeds; Succeeds] c
                          | None => None
                          end
              | None => None
              end
  | None => None
  end.

Lemma runs_steps cfg i answers c c' : runs cfg i answers c = Some c' → rtc (step cfg) c c'.
Proof.
  revert c; induction answers as [|a answers IH]; intros c; cbn [runs]; [intros [= ->]; apply rtc_refl|].
  destruct (run cfg i a c) as [c1|] eqn:E; [|done]. intros H. eapply rtc_l; [by eapply step_run|by apply IH].
Qed.

Lemma closingRun_reachable cfg c : closingRun cfg = Some c → reachable cfg c.
Proof.
  unfold closingRun, reachable. cbn zeta. set (c0 := start CloseEnter _).
  assert (rtc (step cfg) initial c0) as H0.
  { do 4 (eapply rtc_r; [|by apply step_start]). apply rtc_refl. }
  repeat match goal with |- context [match ?r with Some _ => _ | None => None end] => destruct r eqn:?; [|done] end.
  intros. repeat (etrans; [|eapply runs_steps; eassumption]). exact H0.
Qed.

Definition sampleConfig : sessionConfig := {| audioPrimeEnabled := true; audioPrimeWriter := true; hasOnTerminal := true |}.

Lemma session_closed_releases_witness :
  ∃ c, closingRun sampleConfig = Some c ∧ closeOnce (sess c) = Returned ∧ recorders (sess c) = [1] ∧ peerCloses (sess c) = 1.
Proof.
  destruct (closingRun sampleConfig) as [c|] eqn:E; [|vm_compute in E; discriminate E].
  assert (closeOnce (sess c) = Returned) as Ho by (vm_compute in E; injection E as <-; reflexivity).
  exists c. destruct (session_closed_releases sampleConfig c (closingRun_reachable _ _ E) Ho) as (_&_&_&Hp&_).
  split; [reflexivity|]. split; [exact Ho|]. split; [vm_compute in E; injection E as <-; reflexivity|exact Hp].
Defined.

(** C20. At any time of any run: recordings.New was called at most once, at most
    one recorder exists and it was closed at most once, the peer was closed, the
    manager told and the audio prime started at most once each; a prime run was
    started only with the prime enabled, and its cancel function is then stored. *)
Theorem session_at_most_once (cfg : sessionConfig) (c : system) :
  reachable cfg c →
  newCalls (sess c) ≤ 1 ∧ length (recorders (sess c)) ≤ newCalls (sess c) ∧
  Forall (λ closes, closes ≤ 1) (recorders (sess c)) ∧
  peerCloses (sess c) ≤ 1 ∧ terminals (sess c) ≤ 1 ∧ primeRuns (sess c) ≤ 1 ∧
  (primeRuns (sess c) = 1 →
   audioPrimeEnabled cfg && audioPrimeWriter cfg = true ∧ audioPrimeCancel (sess c) = true).
Proof.
  intros Hr. pose proof (reachable_closeInv _ _ Hr) as Hc. destruct (reachable_primeInv _ _ Hr) as [Hp _].
  assert (∃ k h, closeState cfg k h (sess c)) as (k&h&[H1 H2 H3 H4 [H5 H5'] H6 H7 H8]).
  { unfold closeInv in Hc. destruct (closeOnce (sess c)); [|destruct Hc as (p&_&?)|]; destruct_and?; eauto. }
  assert (length (recorders (sess c)) ≤ newCalls (sess c)).
  { rewrite H5. destruct (audioClaimed (sess c)); [|by rewrite H5'].
    destruct H2 as [-> | ->]; simpl; lia. }
  split_and!.
  - rewrite H5. destruct (audioClaimed _); lia.
  - done.
  - destruct H2 as [->| ->]; [done|]. apply Forall_singleton. destruct (k <=? 5); lia.
  - rewrite H6. destruct (6 <? k); lia.
  - rewrite H7. destruct (_ && _); lia.
  - unfold primeState in Hp. destruct (audioPrimeOnce (sess c)); [destruct Hp as (_&->&_)|destruct Hp as (p&_&->&_)|destruct Hp as (_&->&_)]; try lia.
    destruct (audioPrimeCancel _); lia.
  - unfold primeState in Hp. destruct (audioPrimeOnce (sess c)); [destruct Hp as (_&->&_)|destruct Hp as (p&_&->&_)|destruct Hp as (_&->&Hen)]; try done.
    by destruct (audioPrimeCancel _).
Qed.

Lemma session_at_most_once_witness :
  ∃ c, closingRun sampleConfig = Some c ∧ length (goroutines c) = 4 ∧ newCalls (sess c) ≤ 1.
Proof.
  destruct (closingRun sampleConfig) as [c|] eqn:E; [|vm_compute in E; discriminate E].
  exists c. split; [reflexivity|]. split; [vm_compute in E; injection E as <-; reflexivity|].
  exact (proj1 (session_at_most_once sampleConfig c (closingRun_reachable _ _ E))).
Defined.

(** All calls of [Close] return the same error, also calls that return
    later, and only after the body has run. *)
Theorem session_close_result (cfg : sessionConfig) (c c' : system) (e e' : option closeError) :
  reachable cfg c → rtc (step cfg) c c' →
  CloseReturned e ∈ goroutines c → CloseReturned e' ∈ goroutines c' →
  closeOnce (sess c) = Returned ∧ e' = e.
Proof.
  intros Hr Hcc Hin Hin'.
  assert (closeOnce (sess c) = Returned ∧ e = closeErr (sess c)) as [Ho He].
  { destruct (reachable_returnInv _ _ Hr _ Hin eq_refl) as [? H]. auto. }
  split; [done|].
  assert (reachable cfg c') as Hr' by by (unfold reachable in *; etrans).
  destruct (reachable_returnInv _ _ Hr' _ Hin' eq_refl) as [_ H']. rewrite (H' e' eq_refl), He.
  clear Hin Hin' H' Hr' He. induction Hcc as [|c c1 c2 Hs Hcc IH]; [done|].
  destruct (closed_step_stable cfg c c1 (reachable_closeInv _ _ Hr) Hs Ho) as [Ho1 He1].
  rewrite IH, He1; [done| |done]. unfold reachable in *. by eapply rtc_r.
Qed.

Lemma session_close_result_witness :
  ∃ c, closingRun sampleConfig = Some c ∧ goroutines c !! 3 = Some (CloseReturned (Some recorderCloseError)) ∧
  ∀ c' e', rtc (step sampleConfig) c c' → CloseReturned e' ∈ goroutines c' → e' = Some recorderCloseError.
Proof.
  destruct (closingRun sampleConfig) as [c|] eqn:E; [|vm_compute in E; discriminate E].
  assert (goroutines c !! 3 = Some (CloseReturned (Some recorderCloseError))) as H3
    by (vm_compute in E; injection E as <-; reflexivity).
  exists c. split; [reflexivity|]. split; [exact H3|]. intros c' e' Hs Hin.
  destruct (session_close_result sampleConfig c c' _ e' (closingRun_reachable _ _ E) Hs (list_elem_of_lookup_2 _ _ _ H3) Hin) as [_ He].
  exact He.
Defined.

(** C13. A fired grace timer closes the session exactly when the session is not
    closed already, its peer state is disconnected and no state change has been
    handled since the timer was made (fewer than 2^64 changes): a reconnection
    in between, even one followed by a new disconnection, makes it stale. *)
Theorem disconnect_timer_current (cfg : sessionConfig) (c : system) (i : nat) (g : Z) (n : nat) (a : answer) :
  reachable cfg c → (Z.of_nat (handled (sess c)) < 2 ^ 64)%Z →
  goroutines c !! i = Some (CloseIfStillDisconnected g n) →
  ∃ c' p', run cfg i a c = Some c' ∧ goroutines c' !! i = Some p' ∧
    (p' = CloseEnter ∨ p' = Finished) ∧
    (p' = CloseEnter ↔ ctxDone (sess c) = false ∧ peerState (sess c) = StateDisconnected ∧ n = handled (sess c)).
Proof.
  intros Hr Hb Hi. pose proof (reachable_timerInv _ _ Hr) as Ht.
  assert (CloseIfStillDisconnected g n ∈ sel timerPc (goroutines c)) as Hin
    by (apply elem_of_sel; split; [done|by eapply list_elem_of_lookup_2]).
  pose proof (closeIfStill_current _ _ _ _ Ht Hin Hb) as Hcur.
  destruct (ti_closure _ _ Ht _ _ Hin) as (t&Hl). destruct (ti_disc _ _ Ht _ _ _ _ Hl) as (Hg&_&_).
  unfold run. rewrite Hi. cbn [goroutineStep]. destruct (closeIfStillDisconnected g (sess c)) as [s' b] eqn:E.
  exists {| sess := s'; goroutines := <[i := if b then CloseEnter else Finished]> (goroutines c) ++ [] |}, (if b then CloseEnter else Finished).
  cbn [goroutines]. split_and!; [done| |by destruct b; auto|].
  { rewrite app_nil_r. apply list_lookup_insert_eq. by eapply lookup_lt_Some. }
  cbn [snd] in Hcur. split.
  - destruct b; [|done]. intros _. destruct (Hcur eq_refl) as (?&?&?&_). done.
  - intros (Hctx&Hst&->). unfold closeIfStillDisconnected in E.
    rewrite Hctx, Hst, (ti_gen _ _ Ht), Hg in E. rewrite Z.eqb_refl in E. by injection E as _ <-.
Qed.

(** Disconnected, the timer fires, and before its goroutine runs the peer
    reconnects and disconnects again. *)
Definition staleRun (cfg : sessionConfig) : option system :=
  match runs cfg 0 [Succeeds] (start (HandleState StateDisconnected) initial) with
  | Some c =>
      match fire 0 c with
      | Some c =>
          match runs cfg 2 [Succeeds] (start (HandleState StateConnected) c) with
          | Some c => runs cfg 3 [Succeeds] (start (HandleState StateDisconnected) c)
          | None => None
          end
      | None => None
      end
  | None => None
  end.

Lemma staleRun_reachable cfg c : staleRun cfg = Some c → reachable cfg c.
Proof.
  unfold staleRun, reachable.
  destruct (runs cfg 0 _ _) as [c1|] eqn:E1; [|done]. destruct (fire 0 c1) as [c2|] eqn:E2; [|done].
  destruct (runs cfg 2 _ _) as [c3|] eqn:E3; [|done]. intros E4.
  etrans; [apply rtc_once, (step_start _ _ (HandleState StateDisconnected)); done|].
  etrans; [eapply runs_steps, E1|]. etrans; [eapply rtc_once, step_fire, E2|].
  etrans; [apply rtc_once, (step_start _ _ (HandleState StateConnected)); done|].
  etrans; [eapply runs_steps, E3|].
  etrans; [apply rtc_once, (step_start _ _ (HandleState StateDisconnected)); done|].
  by eapply runs_steps.
Qed.

Lemma disconnect_timer_current_witness :
  ∃ c c', staleRun sampleConfig = Some c ∧ peerState (sess c) = StateDisconnected ∧
          run sampleConfig 1 Succeeds c = Some c' ∧ goroutines c' !! 1 = Some Finished.
Proof.
  destruct (staleRun sampleConfig) as [c|] eqn:E; [|vm_compute in E; discriminate E].
  assert (peerState (sess c) = StateDisconnected ∧ handled (sess c) = 3 ∧
          goroutines c !! 1 = Some (CloseIfStillDisconnected 1 1)) as (Hst&Hn&Hi)
    by (vm_compute in E; injection E as <-; repeat split).
  assert ((Z.of_nat (handled (sess c)) < 2 ^ 64)%Z) as Hb by (rewrite Hn; reflexivity).
  destruct (disconnect_timer_current sampleConfig c 1 1 1 Succeeds (staleRun_reachable _ _ E) Hb Hi)
    as (c'&p'&Hrun&Hp'&[->| ->]&Hiff).
  - destruct (proj1 Hiff eq_refl) as (_&_&H). rewrite Hn in H. discriminate H.
  - exists c, c'. split; [reflexivity|]. split; [exact Hst|]. split; [exact Hrun|exact Hp'].
Defined.

(** C31. No goroutine is stuck: one that has not returned can run whatever the
    environment answers, or waits for a [sync.Once] whose function another
    goroutine is running, and that one can. *)
Theorem session_progress (cfg : sessionConfig) (c : system) (i : nat) (p : pc) :
  reachable cfg c → goroutines c !! i = Some p →
  p = Finished ∨ (∃ e, p = CloseReturned e) ∨ enabled cfg i c ∨
  (p = CloseEnter ∧ ∃ j q, goroutines c !! j = Some q ∧ closeBody q = true ∧ enabled cfg j c) ∨
  (p = PrimeOnce ∧ ∃ j q, goroutines c !! j = Some q ∧ primeBody q = true ∧ enabled cfg j c).
Proof.
  intros Hr Hi. pose proof (reachable_closeInv _ _ Hr) as Hc. pose proof (reachable_primeInv _ _ Hr) as Hp.
  destruct (decide (p = CloseEnter ∧ closeOnce (sess c) = Running)) as [[-> Ho]|Hn1].
  { right; right; right; left. split; [done|]. destruct (running_body _ _ Hc Ho) as (j&q&Hj&Hq). exists j, q.
    split_and!; [done..|]. intros a. unfold run. rewrite Hj.
    destruct (body_enabled cfg a q (sess c) Hq) as (s'&p'&->&_). eauto. }
  destruct (decide (p = PrimeOnce ∧ audioPrimeOnce (sess c) = Running)) as [[-> Ho]|Hn2].
  { right; right; right; right. split; [done|]. destruct (running_prime _ _ Hp Ho) as (j&q&Hj&Hq&Hen). by exists j, q. }
  assert (p = Finished ∨ (∃ e, p = CloseReturned e) ∨ ∀ a, goroutineStep cfg a p (sess c) ≠ None) as [?|[?|Hen]].
  { destruct p; eauto; right; right; intros a; cbn [goroutineStep]; unfold closeTake, closeIfStillDisconnected; goal_cases; try done; tauto. }
  - by left.
  - right; by left.
  - right; right; left. intros a. unfold run. rewrite Hi. specialize (Hen a).
    destruct (goroutineStep cfg a p (sess c)) as [[[??]?]|]; [eauto|done].
Qed.

Lemma session_progress_witness :
  ∃ c, runs sampleConfig 0 [Succeeds] (start CloseEnter (start CloseEnter initial)) = Some c ∧
       run sampleConfig 1 Succeeds c = None ∧ ∃ j q, goroutines c !! j = Some q ∧ closeBody q = true ∧ enabled sampleConfig j c.
Proof.
  destruct (runs sampleConfig 0 [Succeeds] (start CloseEnter (start CloseEnter initial))) as [c|] eqn:E; [|discriminate E].
  exists c. split; [reflexivity|].
  assert (run sampleConfig 1 Succeeds c = None ∧ goroutines c !! 1 = Some CloseEnter) as [Hblocked Hi]
    by (vm_compute in E; injection E as <-; split; reflexivity).
  split; [exact Hblocked|].
  assert (reachable sampleConfig c) as Hr.
  { eapply rtc_l; [apply (step_start _ _ CloseEnter); reflexivity|]. eapply rtc_l; [apply (step_start _ _ CloseEnter); reflexivity|].
    eapply runs_steps, E. }
  destruct (session_progress sampleConfig c 1 CloseEnter Hr Hi) as [H|[[e H]|[H|[[_ H]|[H _]]]]]; [discriminate H|discriminate H| |exact H|discriminate H].
  destruct (H Succeeds) as [c' H']. rewrite Hblocked in H'. discriminate H'.
Defined.

(** C32. [Close] completes: from any reachable state in which its body is
    running, some goroutine finishes it in at most eight steps of its own,
    whatever the recorder and the peer answer. *)
Theorem session_close_completes (cfg : sessionConfig) (c : system) :
  reachable cfg c → closeOnce (sess c) = Running →
  ∃ i n, n ≤ 8 ∧ ∀ answers, length answers = n → ∃ c', runs cfg i answers c = Some c' ∧ closeOnce (sess c') = Returned.
Proof.
  intros Hr Ho. pose proof (reachable_closeInv _ _ Hr) as Hc. destruct (running_body _ _ Hc Ho) as (i&p&Hi&Hp).
  exists i, (9 - closeStage p). split; [destruct p; try discriminate Hp; simpl; lia|].
  intros answers Hlen. by eapply body_completes.
Qed.

Lemma session_close_completes_witness :
  ∃ c, runs sampleConfig 0 [Succeeds] (start CloseEnter initial) = Some c ∧
  ∃ i n, n ≤ 8 ∧ ∀ answers, length answers = n → ∃ c', runs sampleConfig i answers c = Some c' ∧ closeOnce (sess c') = Returned.
Proof.
  destruct (runs sampleConfig 0 [Succeeds] (start CloseEnter initial)) as [c|] eqn:E; [|discriminate E].
  exists c. split; [reflexivity|]. apply (session_close_completes sampleConfig c).
  - eapply rtc_l; [apply (step_start _ _ CloseEnter); reflexivity|]. eapply runs_steps, E.
  - vm_compute in E. injection E as <-. reflexivity.
Defined.

(** A failed or closed peer connection closes the session: the handler's
    goroutine stops the grace timer, cancels a stored audio prime and starts a
    goroutine that calls [Close]. *)
Theorem peer_failure_closes (cfg : sessionConfig) (c : system) (i : nat) (st : PeerConnectionState) (a1 a2 a3 : answer) :
  goroutines c !! i = Some (HandleState st) → st = StateFailed ∨ st = StateClosed →
  ∃ c', runs cfg i [a1; a2; a3] c = Some c' ∧
    goroutines c' = <[i := Finished]> (goroutines c) ++ [CloseEnter] ∧
    disconnectTimer (sess c') = None ∧ peerState (sess c') = st ∧
    (audioPrimeCancel (sess c) = true → primeCancelled (sess c') = true).
Proof.
  intros Hi Hst.
  assert (stateIs st StateConnected = false ∧ stateIs st StateFailed || stateIs st StateClosed = true ∧
          stateIs st StateDisconnected = false) as (E1&E2&E3) by (by destruct Hst as [->| ->]).
  set (s1 := handlePeerConnectionState st (sess c)).
  assert (Hs1 : audioPrimeCancel s1 = audioPrimeCancel (sess c) ∧ disconnectTimer s1 = None ∧ peerState s1 = st).
  { unfold s1, handlePeerConnectionState. cbn zeta. by rewrite E3. }
  destruct Hs1 as (Hc&Hd&Hp).
  assert (Hlen : i < length (goroutines c)) by by eapply lookup_lt_Some.
  unfold runs, run. rewrite Hi. cbn [goroutineStep]. rewrite E1, E2. cbn [sess goroutines].
  rewrite app_nil_r, list_lookup_insert_eq by done. cbn [goroutineStep sess goroutines].
  rewrite app_nil_r, list_lookup_insert_eq by (by rewrite length_insert). cbn [goroutineStep sess goroutines].
  eexists. split; [reflexivity|]. cbn [sess goroutines]. rewrite !list_insert_insert_eq. fold s1. rewrite Hc.
  split; [done|]. destruct (audioPrimeCancel (sess c)); done.
Qed.

Lemma peer_failure_closes_witness :
  ∃ c', runs sampleConfig 0 [Succeeds; Succeeds; Succeeds] (start (HandleState StateFailed) initial) = Some c' ∧
        goroutines c' = [Finished; CloseEnter].
Proof.
  destruct (peer_failure_closes sampleConfig (start (HandleState StateFailed) initial) 0 StateFailed Succeeds Succeeds Succeeds)
    as (c'&Hr&Hg&_); [reflexivity|left; reflexivity|]. exists c'. split; [exact Hr|exact Hg].
Defined.
