(* ===== verification/SessionLife.v ===== *)
(** * Every run of a session follows the contract of [Contract.v]

    The steps of [Session.v] are labelled with what the manager sees of them:
    Close entered for the first time, onTerminal called, the first Close done,
    a Close returned, the expiry timer made, handed over or fired, the session
    marked connected.  [lifeOf] reads a session's life off its state; the trace
    of every run is one the contract allows, and ends in that life. *)

From S2P Require Import Prelude Contract Session.

(** What a goroutine about to run at [p] shows of its step. *)
Definition pcLabel (p : pc) (s : session) : option label :=
  match p with
  | CloseEnter => match closeOnce s with NotStarted => Some Begin | _ => None end
  | CloseTerminal => Some Notify
  | CloseFinish => Some (End (bool_decide (is_Some (closeErr s))))
  | CloseReturn => Some (Return (bool_decide (is_Some (closeErr s))))
  | SetExpiryTimer _ => Some HandOver
  | MarkConnected => Some Mark
  | _ => None
  end.

Definition timerLabel (k : timerKind) : option label :=
  match k with ExpiryTimer => Some Fire | DisconnectTimer _ _ => None end.

Inductive action (cfg : sessionConfig) (c : system) : option label → system → Prop :=
| action_run i a p c' : goroutines c !! i = Some p → run cfg i a c = Some c' → action cfg c (pcLabel p (sess c)) c'
| action_start p : startable p = true → action cfg c None (start p c)
| action_fire t tm c' : timers (sess c) !! t = Some tm → fire t c = Some c' → action cfg c (timerLabel (kind tm)) c'
| action_expiry c' : giveExpiry c = Some c' → action cfg c (Some Make) c'.

(** The labels of a run from a new session. *)
Inductive trace (cfg : sessionConfig) : list label → system → Prop :=
| trace_new : trace cfg [] initial
| trace_action ls l c c' : trace cfg ls c → action cfg c l c' → trace cfg (ls ++ option_list l) c'.

Lemma action_step cfg c c' : step cfg c c' ↔ ∃ l, action cfg c l c'.
Proof.
  split.
  - intros [i a c1 H|p H|t c1 H|c1 H].
    + destruct (goroutines c !! i) as [p|] eqn:Hi; [|unfold run in H; by rewrite Hi in H].
      exists (pcLabel p (sess c)). by eapply action_run.
    + exists None. by apply action_start.
    + destruct (timers (sess c) !! t) as [tm|] eqn:Ht; [|unfold fire in H; by rewrite Ht in H].
      exists (timerLabel (kind tm)). by eapply action_fire.
    + exists (Some Make). by apply action_expiry.
  - intros [l [i a p c1 _ H|p H|t tm c1 _ H|c1 H]]; [by eapply step_run|by apply step_start|by eapply step_fire|by apply step_expiry].
Qed.

Lemma trace_reachable cfg ls c : trace cfg ls c → reachable cfg c.
Proof.
  induction 1 as [|ls l c c' _ IH Ha]; [by apply rtc_refl|]. unfold reachable in *.
  eapply rtc_r; [done|]. apply action_step. eauto.
Qed.

Lemma reachable_trace cfg c : reachable cfg c → ∃ ls, trace cfg ls c.
Proof.
  revert c. apply (reachable_ind cfg (λ c, ∃ ls, trace cfg ls c)); [by exists []; constructor|]. intros c1 c2 [ls Hls] [l Ha]%action_step.
  exists (ls ++ option_list l). by econstructor.
Qed.

(** ** The life of a session *)

Definition isExpiryTimer (tm : timer) : bool := match kind tm with ExpiryTimer => true | _ => false end.
Definition isFired (tm : timer) : bool := match status tm with Fired => true | _ => false end.

(** The expiry timer has fired; its hand-over is still to come. *)
Definition expiryFired (ts : list timer) : bool := existsb (λ tm, isExpiryTimer tm && isFired tm) ts.
Definition expiryPending (gs : list pc) : bool := existsb isSetExpiry gs.

Definition expiryOf (c : system) : expiry :=
  if negb (expiryGiven (sess c)) then NoTimer
  else if expiryFired (timers (sess c)) then Gone
  else if expiryPending (goroutines c) then Made
  else match closeOnce (sess c) with Returned => Gone | _ => Handed end.

Definition phaseOf (o : once) : phase :=
  match o with NotStarted => Open | Running => Closing | Returned => Closed end.

Definition lifeOf (c : system) : life :=
  {| lphase := phaseOf (closeOnce (sess c));
     lnotified := 0 <? terminals (sess c);
     lfailed := match closeOnce (sess c) with Returned => bool_decide (is_Some (closeErr (sess c))) | _ => false end;
     lmarked := connected (sess c);
     lexpiry := expiryOf c |}.

Lemma existsb_sel {A} (f : A → bool) l : existsb f l = match sel f l with [] => false | _ => true end.
Proof. induction l as [|x l IH]; simpl; [done|]. by destruct (f x). Qed.

(** ** One expiry timer *)

Definition expiryInv (c : system) : Prop :=
  length (sel isExpiryTimer (timers (sess c))) = if expiryGiven (sess c) then 1 else 0.

Lemma sel_alter {A} (f : A → bool) (g : A → A) i l :
  (∀ x, f (g x) = f x) → length (sel f (alter g i l)) = length (sel f l).
Proof.
  intros Hg. revert i; induction l as [|x l IH]; intros [|i]; simpl; try done.
  - rewrite Hg. by destruct (f x).
  - destruct (f x); simpl; [f_equal|]; apply IH.
Qed.

Lemma existsb_alter {A} (f : A → bool) (g : A → A) i l :
  (∀ x, f (g x) = f x) → existsb f (alter g i l) = existsb f l.
Proof.
  intros Hg. revert i; induction l as [|x l IH]; intros [|i]; simpl; try done.
  - by rewrite Hg.
  - f_equal. apply IH.
Qed.

(** Stopping a timer changes neither how many expiry timers there are nor
    whether one has fired. *)
Definition sameExpiry (ts ts' : list timer) : Prop :=
  length (sel isExpiryTimer ts') = length (sel isExpiryTimer ts) ∧ expiryFired ts' = expiryFired ts.

Lemma sameExpiry_stop t ts : sameExpiry ts (stopTimer t ts).
Proof. by split; [apply sel_alter|apply existsb_alter]; intros [k []]. Qed.

Lemma sameExpiry_stopOpt o ts : sameExpiry ts (stopTimerOpt o ts).
Proof. destruct o as [t|]; [apply sameExpiry_stop|done]. Qed.

Lemma sameExpiry_trans ts1 ts2 ts3 : sameExpiry ts1 ts2 → sameExpiry ts2 ts3 → sameExpiry ts1 ts3.
Proof. intros [??] [??]. split; congruence. Qed.

Lemma sameExpiry_disconnect ts g n st :
  sameExpiry ts (ts ++ [{| kind := DisconnectTimer g n; status := st |}]).
Proof.
  split.
  - rewrite sel_app. simpl. by rewrite app_nil_r.
  - unfold expiryFired. rewrite existsb_app. simpl. by rewrite !orb_false_r.
Qed.

Lemma handle_sameExpiry st s : sameExpiry (timers s) (timers (handlePeerConnectionState st s)).
Proof.
  unfold handlePeerConnectionState. cbn zeta. case_match; cbn.
  - eapply sameExpiry_trans; [apply sameExpiry_stopOpt|apply sameExpiry_disconnect].
  - apply sameExpiry_stopOpt.
Qed.

(** ** The goroutines' steps *)

Lemma handle_life st s :
  let s' := handlePeerConnectionState st s in
  connected s' = connected s ∧ expiryGiven s' = expiryGiven s.
Proof. cbn zeta. unfold handlePeerConnectionState. cbn zeta. by case_match. Qed.

Lemma step_sameExpiry cfg a p s s' p' started :
  goroutineStep cfg a p s = Some (s', p', started) →
  sameExpiry (timers s) (timers s') ∧ expiryGiven s' = expiryGiven s ∧
  isSetExpiry p' = false ∧ sel isSetExpiry started = [].
Proof.
  assert (Hrefl : ∀ ts, sameExpiry ts ts) by done.
  intros Hstep. destruct p as [| | | | | | | | | | | |st| | | | | | | | | | | | | |t| | |]; cbn [goroutineStep] in Hstep;
    try (destruct (handle_life st s) as [_ Hg]; pose proof (handle_sameExpiry st s));
    unfold startRecorder, closeIfStillDisconnected, closeTake in Hstep; step_cases Hstep; goal_cases; split_and!; try done.
  - cbn. eapply sameExpiry_trans; apply sameExpiry_stopOpt.
  - unfold setExpiryTimer. case_match; [apply sameExpiry_stop|done].
  - unfold setExpiryTimer. by case_match.
Qed.

(** A step without a label leaves the session's part of its life alone. *)
Lemma quiet_step cfg a p s s' p' started :
  goroutineStep cfg a p s = Some (s', p', started) → pcLabel p s = None →
  closeOnce s' = closeOnce s ∧ terminals s' = terminals s ∧ connected s' = connected s.
Proof.
  intros Hstep Hl. destruct p as [| | | | | | | | | | | |st| | | | | | | | | | | | | |t| | |];
    try discriminate Hl; cbn [goroutineStep pcLabel] in *;
    try (destruct (handle_life st s) as [? _]; destruct (handlePeerConnectionState_fields st s) as (_&_&_&_&_&_&_&_&?&_&?));
    unfold startRecorder, closeIfStillDisconnected, closeTake in Hstep; step_cases Hstep; goal_cases; done.
Qed.

Lemma run_inv cfg i a c c' :
  run cfg i a c = Some c' → ∃ p s' p' started, goroutines c !! i = Some p ∧
    goroutineStep cfg a p (sess c) = Some (s', p', started) ∧
    c' = {| sess := s'; goroutines := <[i := p']> (goroutines c) ++ started |}.
Proof.
  unfold run. destruct (goroutines c !! i) as [p|]; [|done].
  destruct (goroutineStep cfg a p (sess c)) as [[[s' p'] started]|] eqn:E; [|done]. intros [= <-]. eauto 8.
Qed.

Lemma fire_inv t c c' :
  fire t c = Some c' → ∃ k, timers (sess c) !! t = Some {| kind := k; status := Armed |} ∧
    c' = {| sess := set_timers (<[t := {| kind := k; status := Fired |}]> (timers (sess c))) (sess c);
            goroutines := goroutines c ++ [callback k] |}.
Proof. unfold fire. destruct (timers (sess c) !! t) as [[k []]|]; try done. intros [= <-]. eauto. Qed.

Lemma giveExpiry_inv c c' :
  giveExpiry c = Some c' → expiryGiven (sess c) = false ∧
    c' = {| sess := set_expiryGiven true (set_timers (timers (sess c) ++ [{| kind := ExpiryTimer; status := Armed |}]) (sess c));
            goroutines := goroutines c ++ [SetExpiryTimer (length (timers (sess c)))] |}.
Proof. unfold giveExpiry. destruct (expiryGiven (sess c)); [done|]. by intros [= <-]. Qed.

Lemma sel_insert_alike {A} (f : A → bool) l i x y :
  l !! i = Some x → f y = f x → length (sel f (<[i := y]> l)) = length (sel f l).
Proof.
  revert i; induction l as [|z l IH]; intros [|i]; simpl; try done.
  - intros [= ->] ->. by destruct (f x).
  - intros Hi Hf. destruct (f z); simpl; rewrite (IH i); done.
Qed.

Lemma expiryInv_step cfg c c' : step cfg c c' → expiryInv c → expiryInv c'.
Proof.
  unfold expiryInv. intros [i a c1 H|p H|t c1 H|c1 H] Hinv; [|done|..].
  - apply run_inv in H as (p&s'&p'&started&_&Hstep&->). cbn [sess].
    destruct (step_sameExpiry _ _ _ _ _ _ _ Hstep) as ([-> _]&->&_). done.
  - apply fire_inv in H as (k&Ht&->). cbn. by rewrite (sel_insert_alike _ _ _ _ _ Ht).
  - apply giveExpiry_inv in H as [Hg ->]. cbn. rewrite Hg in Hinv. rewrite sel_app, length_app, Hinv. done.
Qed.

Lemma reachable_expiryInv cfg c : reachable cfg c → expiryInv c.
Proof. revert c. by apply reachable_ind; [|eauto using expiryInv_step]. Qed.

(** An armed expiry timer: it is the only one, it was given, and it has not fired. *)
Lemma armed_not_fired c t :
  expiryInv c → timers (sess c) !! t = Some {| kind := ExpiryTimer; status := Armed |} →
  expiryGiven (sess c) = true ∧ expiryFired (timers (sess c)) = false.
Proof.
  unfold expiryInv. intros Hinv Ht. apply list_elem_of_lookup_2 in Ht.
  assert (Hin : {| kind := ExpiryTimer; status := Armed |} ∈ sel isExpiryTimer (timers (sess c))) by by apply elem_of_sel.
  destruct (expiryGiven (sess c)).
  - split; [done|]. apply not_true_iff_false. intros (tm&Htm&[Hk Hs]%andb_true_iff)%existsb_exists.
    assert (Hin' : tm ∈ sel isExpiryTimer (timers (sess c))) by (apply elem_of_sel; by rewrite list_elem_of_In).
    destruct (sel isExpiryTimer (timers (sess c))) as [|x [|]]; [by apply elem_of_nil in Hin| |done].
    apply list_elem_of_singleton in Hin, Hin'. subst. subst. done.
  - apply nil_length_inv in Hinv. rewrite Hinv in Hin. by apply elem_of_nil in Hin.
Qed.

Lemma sel_pending gs : sel isSetExpiry (sel timerPc gs) = sel isSetExpiry gs.
Proof. induction gs as [|p gs IH]; simpl; [done|]. destruct p; simpl; by rewrite IH. Qed.

(** Before its hand-over, or before Close is done. *)
Lemma armed_not_gone cfg c t :
  reachable cfg c → timers (sess c) !! t = Some {| kind := ExpiryTimer; status := Armed |} →
  closeOnce (sess c) = Returned → expiryPending (goroutines c) = true.
Proof.
  intros Hr Ht Ho. pose proof (reachable_closeInv _ _ Hr) as Hc. unfold closeInv in Hc. rewrite Ho in Hc.
  destruct Hc as [_ Hc]. destruct (cs_taken _ _ _ _ Hc) as (_&_&He); [lia|].
  destruct (ti_expiry _ _ (reachable_timerInv _ _ Hr) _ Ht) as [?|Hin]; [congruence|].
  apply existsb_exists. exists (SetExpiryTimer t). split; [|done].
  apply elem_of_sel in Hin as [_ Hin]. by rewrite <- list_elem_of_In.
Qed.

(** The hand-over is done once. *)
Lemma handed_over c i t :
  timerInv c → goroutines c !! i = Some (SetExpiryTimer t) →
  expiryGiven (sess c) = true ∧ expiryPending (<[i := Finished]> (goroutines c)) = false.
Proof.
  intros Ht Hi.
  assert (Hin : SetExpiryTimer t ∈ sel isSetExpiry (goroutines c))
    by (apply elem_of_sel; split; [done|by eapply list_elem_of_lookup_2]).
  destruct (ti_given _ _ Ht) as [Hn|(Hg&_&t'&Hs)]; rewrite sel_pending in *; [rewrite Hn in Hin; by apply elem_of_nil in Hin|].
  split; [done|]. unfold expiryPending. rewrite existsb_sel.
  by destruct (sel_insert_inside _ _ _ _ Finished _ Hi eq_refl Hs) as [_ ->].
Qed.

(** ** The session's actions *)

Lemma in_body cfg c i p :
  closeInv cfg c → goroutines c !! i = Some p → closeBody p = true →
  closeOnce (sess c) = Running ∧ closeState cfg (closeStage p) (held p) (sess c).
Proof.
  intros Hc Hi Hp. apply list_elem_of_lookup_2 in Hi.
  assert (Hin : p ∈ sel closeBody (goroutines c)) by by apply elem_of_sel.
  unfold closeInv in Hc. destruct (closeOnce (sess c)).
  - destruct Hc as [E _]. rewrite E in Hin. by apply elem_of_nil in Hin.
  - destruct Hc as (q&E&Hs). rewrite E in Hin. by apply list_elem_of_singleton in Hin as ->.
  - destruct Hc as [E _]. rewrite E in Hin. by apply elem_of_nil in Hin.
Qed.

(** A step that hands nothing over: the timer is gone once Close is done. *)
Lemma expiryOf_run cfg i a p c s' p' started :
  goroutines c !! i = Some p → goroutineStep cfg a p (sess c) = Some (s', p', started) → isSetExpiry p = false →
  (closeOnce (sess c) = Returned → closeOnce s' = Returned) →
  expiryOf {| sess := s'; goroutines := <[i := p']> (goroutines c) ++ started |} =
  match closeOnce s' with Returned => stopExpiry (expiryOf c) | _ => expiryOf c end.
Proof.
  intros Hi Hstep Hp Hret. destruct (step_sameExpiry _ _ _ _ _ _ _ Hstep) as ([_ Hf]&Hg&Hp'&Hs).
  unfold expiryOf, expiryPending. cbn [sess goroutines]. rewrite Hf, Hg, !existsb_sel.
  rewrite (sel_insert_started _ _ _ _ _ _ Hi Hp Hp' Hs).
  destruct (expiryGiven (sess c)), (expiryFired (timers (sess c))), (sel isSetExpiry (goroutines c)); cbn;
    try by destruct (closeOnce s').
  destruct (closeOnce (sess c)); [by destruct (closeOnce s')..|]. by rewrite Hret.
Qed.

Lemma expiryOf_returned c : closeOnce (sess c) = Returned → stopExpiry (expiryOf c) = expiryOf c.
Proof.
  intros Ho. unfold expiryOf. rewrite Ho.
  by destruct (expiryGiven (sess c)), (expiryFired (timers (sess c))), (expiryPending (goroutines c)).
Qed.

(** A pending hand-over is of a timer that was made, and may have fired. *)
Lemma expiryOf_pending c i t :
  timerInv c → goroutines c !! i = Some (SetExpiryTimer t) → expiryOf c = Made ∨ expiryOf c = Gone.
Proof.
  intros Hinv Hi. destruct (handed_over _ _ _ Hinv Hi) as [Hg _].
  assert (Hnow : expiryPending (goroutines c) = true).
  { apply existsb_exists. exists (SetExpiryTimer t). split; [|done]. rewrite <- list_elem_of_In. by eapply list_elem_of_lookup_2. }
  unfold expiryOf. rewrite Hg, Hnow. destruct (expiryFired (timers (sess c))); auto.
Qed.

Lemma expiryOf_handOver cfg a i t c s' p' started :
  timerInv c → goroutines c !! i = Some (SetExpiryTimer t) →
  goroutineStep cfg a (SetExpiryTimer t) (sess c) = Some (s', p', started) →
  expiryOf {| sess := s'; goroutines := <[i := p']> (goroutines c) ++ started |} =
  handExpiry (phaseOf (closeOnce (sess c))) (expiryOf c).
Proof.
  intros Hinv Hi Hstep. destruct (handed_over _ _ _ Hinv Hi) as [Hg Hpend].
  destruct (step_sameExpiry _ _ _ _ _ _ _ Hstep) as ([_ Hf]&Hg'&_&_).
  assert (Hnow : expiryPending (goroutines c) = true).
  { apply existsb_exists. exists (SetExpiryTimer t). split; [|done]. rewrite <- list_elem_of_In. by eapply list_elem_of_lookup_2. }
  assert (Ho : closeOnce s' = closeOnce (sess c)) by (injection Hstep as <- <- <-; unfold setExpiryTimer; by case_match).
  injection Hstep as E <- <-. unfold expiryOf. cbn [sess goroutines].
  rewrite app_nil_r, Hf, Hg', Hg, Hpend, Hnow, Ho. cbn.
  destruct (expiryFired (timers (sess c))), (closeOnce (sess c)); done.
Qed.

Lemma run_follows cfg i a p c c' :
  hasOnTerminal cfg = true → reachable cfg c → goroutines c !! i = Some p → run cfg i a c = Some c' →
  follows (pcLabel p (sess c)) (lifeOf c) (lifeOf c').
Proof.
  intros Hterm Hr Hi Hrun. pose proof (reachable_closeInv _ _ Hr) as Hc.
  assert (Hstable : closeOnce (sess c) = Returned → closeOnce (sess c') = Returned ∧ closeErr (sess c') = closeErr (sess c))
    by by apply closed_step_stable with cfg; [|eapply step_run].
  apply run_inv in Hrun as (q&s'&p'&started&Hq&Hstep&->). rewrite Hi in Hq. injection Hq as <-. cbn [sess] in Hstable.
  destruct (isSetExpiry p) eqn:Hset.
  { destruct p; try discriminate Hset. pose proof (expiryOf_handOver _ _ _ _ _ _ _ _ (reachable_timerInv _ _ Hr) Hi Hstep) as He.
    cbn in Hstep. injection Hstep as Es <- <-. cbn [follows pcLabel]. unfold lifeOf. rewrite He. cbn [sess].
    assert (closeOnce s' = closeOnce (sess c) ∧ terminals s' = terminals (sess c) ∧ closeErr s' = closeErr (sess c) ∧ connected s' = connected (sess c)) as (->&->&->&->)
      by (rewrite <- Es; unfold setExpiryTimer; by case_match).
    by destruct (expiryOf_pending _ _ _ (reachable_timerInv _ _ Hr) Hi) as [-> | ->]. }
  pose proof (expiryOf_run _ _ _ _ _ _ _ _ Hi Hstep Hset (λ H, proj1 (Hstable H))) as He.
  unfold lifeOf. rewrite He. cbn [sess]. destruct (pcLabel p (sess c)) as [l|] eqn:Hl; cbn [follows].
  - destruct (closeBody p) eqn:Hb.
    + destruct (in_body _ _ _ _ Hc Hi Hb) as [Ho [_ _ _ _ _ _ Ht _]].
      destruct p; try discriminate Hl; try discriminate Hset; try discriminate Hb; cbn in Ht, Hstep, Hl;
        rewrite ?Hterm in *; injection Hl as <-; injection Hstep as <- <- <-; cbn; rewrite Ho, Ht; done.
    + destruct p; try discriminate Hl; try discriminate Hset; try discriminate Hb; cbn in Hstep, Hl.
      * destruct (closeOnce (sess c)) eqn:Ho; try discriminate Hl. injection Hl as <-. by injection Hstep as <- <- <-.
      * injection Hl as <-. injection Hstep as <- <- <-.
        destruct (reachable_returnInv _ _ Hr CloseReturn) as [Ho _]; [by eapply list_elem_of_lookup_2|done|]. cbn.
        rewrite Ho. cbn. by rewrite Bool.eqb_reflx, expiryOf_returned.
      * injection Hl as <-. injection Hstep as <- <- <-. cbn. destruct (closeOnce (sess c)) eqn:Ho; try done.
        by rewrite expiryOf_returned.
  - destruct (quiet_step _ _ _ _ _ _ _ Hstep Hl) as (->&->&->).
    destruct (closeOnce (sess c)) eqn:Ho; try done. destruct (Hstable eq_refl) as [_ ->]. by rewrite expiryOf_returned.
Qed.

Lemma start_follows p c : startable p = true → lifeOf (start p c) = lifeOf c.
Proof.
  intros Hp. unfold lifeOf, expiryOf, expiryPending. cbn [sess goroutines start].
  rewrite existsb_app. assert (existsb isSetExpiry [p] = false) as -> by by destruct p. by rewrite orb_false_r.
Qed.

Lemma existsb_fire ts t k :
  ts !! t = Some {| kind := k; status := Armed |} →
  expiryFired (<[t := {| kind := k; status := Fired |}]> ts) =
  expiryFired ts || match k with ExpiryTimer => true | _ => false end.
Proof.
  unfold expiryFired. revert t; induction ts as [|x ts IH]; intros [|t]; simpl; try done.
  - intros [= ->]. destruct k; simpl; [by rewrite orb_false_r|by rewrite orb_true_r].
  - intros Ht. rewrite (IH t Ht). by rewrite orb_assoc.
Qed.

Lemma fire_follows cfg t tm c c' :
  reachable cfg c → timers (sess c) !! t = Some tm → fire t c = Some c' →
  follows (timerLabel (kind tm)) (lifeOf c) (lifeOf c').
Proof.
  intros Hr Htm (k&Ht&->)%fire_inv. rewrite Ht in Htm. injection Htm as <-. cbn [kind].
  assert (Hpend : expiryPending (goroutines c ++ [callback k]) = expiryPending (goroutines c)).
  { unfold expiryPending. rewrite existsb_app. destruct k; by rewrite orb_false_r. }
  assert (He : expiryFired (timers (set_timers (<[t := {| kind := k; status := Fired |}]> (timers (sess c))) (sess c))) =
               expiryFired (timers (sess c)) || match k with ExpiryTimer => true | _ => false end) by by apply existsb_fire.
  unfold lifeOf, expiryOf. cbn [sess goroutines]. rewrite Hpend, He. destruct k as [g n|]; cbn.
  - by rewrite orb_false_r.
  - destruct (armed_not_fired _ _ (reachable_expiryInv _ _ Hr) Ht) as [-> ->]. cbn.
    pose proof (armed_not_gone _ _ _ Hr Ht) as Hg.
    destruct (expiryPending (goroutines c)), (closeOnce (sess c)); try done. by specialize (Hg eq_refl).
Qed.

Lemma giveExpiry_follows cfg c c' :
  reachable cfg c → giveExpiry c = Some c' → contractStep Make (lifeOf c) = Some (lifeOf c').
Proof.
  intros Hr [Hg ->]%giveExpiry_inv. pose proof (reachable_expiryInv _ _ Hr) as Hinv. unfold expiryInv in Hinv. rewrite Hg in Hinv.
  apply nil_length_inv in Hinv.
  assert (Hn : expiryFired (timers (sess c)) = false).
  { apply not_true_iff_false. intros (tm&Htm&[Hk _]%andb_true_iff)%existsb_exists.
    assert (tm ∈ sel isExpiryTimer (timers (sess c))) as Hin by (apply elem_of_sel; by rewrite list_elem_of_In).
    rewrite Hinv in Hin. by apply elem_of_nil in Hin. }
  unfold lifeOf, expiryOf, expiryPending. cbn. rewrite Hg. unfold expiryFired in *. rewrite !existsb_app, Hn. cbn.
  by rewrite orb_true_r.
Qed.

Lemma action_follows cfg l c c' :
  hasOnTerminal cfg = true → reachable cfg c → action cfg c l c' → follows l (lifeOf c) (lifeOf c').
Proof.
  intros Hterm Hr [i a p c1 Hi H|p H|t tm c1 Ht H|c1 H].
  - by eapply run_follows.
  - by rewrite start_follows.
  - by eapply fire_follows.
  - by eapply giveExpiry_follows.
Qed.

(** C6. A session implements the contract the manager is proved against: what
    the manager sees of any run of the session's goroutines (Close entered,
    onTerminal called, the first Close done, a Close returned with or without an
    error, the expiry timer made, handed over or fired, the session marked) is a
    sequence the contract allows, and leads to the life read off the session's
    state. *)
Theorem session_refines_contract (cfg : sessionConfig) (ls : list label) (c : system) :
  hasOnTerminal cfg = true → trace cfg ls c → contractRun ls newLife = Some (lifeOf c).
Proof.
  intros Hterm. induction 1 as [|ls l c c' Hls IH Ha]; [done|].
  eapply contractRun_follows; [done|]. eapply action_follows; [done| |done]. by eapply trace_reachable.
Qed.

(** The labels and the state after running goroutine [i] once per answer. *)
Fixpoint runLabels (cfg : sessionConfig) (i : nat) (answers : list answer) (x : list label * system) : option (list label * system) :=
  match answers with
  | [] => Some x
  | a :: answers =>
      match goroutines x.2 !! i, run cfg i a x.2 with
      | Some p, Some c => runLabels cfg i answers (x.1 ++ option_list (pcLabel p (sess x.2)), c)
      | _, _ => None
      end
  end.

Lemma runLabels_trace cfg i answers x y :
  runLabels cfg i answers x = Some y → trace cfg x.1 x.2 → trace cfg y.1 y.2.
Proof.
  revert x; induction answers as [|a answers IH]; intros x; simpl; [by intros [= ->]|].
  destruct (goroutines x.2 !! i) as [p|] eqn:Hi; [|done]. destruct (run cfg i a x.2) as [c|] eqn:Hr; [|done].
  intros H Hx. eapply IH; [exact H|]. cbn [fst snd]. econstructor; [exact Hx|]. by eapply action_run.
Qed.

(** The manager gives a timer, the peer fails to close while Close runs, the
    timer is handed over late and a second caller gets the same error. *)
Definition contractTrace (cfg : sessionConfig) : option (list label * system) :=
  match giveExpiry (start CloseEnter (start CloseEnter initial)) with
  | Some c =>
      match runLabels cfg 0 [Succeeds; Succeeds; Succeeds; Succeeds; Succeeds; Succeeds; Fails; Succeeds; Succeeds; Succeeds] ([Make], c) with
      | Some x =>
          match runLabels cfg 2 [Succeeds] x with
          | Some x => runLabels cfg 1 [Succeeds; Succeeds] x
          | None => None
          end
      | None => None
      end
  | None => None
  end.

Lemma contractTrace_trace cfg x : contractTrace cfg = Some x → trace cfg x.1 x.2.
Proof.
  unfold contractTrace. destruct (giveExpiry _) as [c|] eqn:E0; [|done].
  destruct (runLabels cfg 0 _ _) as [x1|] eqn:E1; [|done]. destruct (runLabels cfg 2 _ x1) as [x2|] eqn:E2; [|done].
  intros E3. apply (runLabels_trace _ _ _ _ _ E3), (runLabels_trace _ _ _ _ _ E2), (runLabels_trace _ _ _ _ _ E1).
  cbn [fst snd]. apply (trace_action cfg [] (Some Make) (start CloseEnter (start CloseEnter initial))); [|by apply action_expiry].
  apply (trace_action cfg [] None (start CloseEnter initial)); [|by apply action_start].
  apply (trace_action cfg [] None initial); [constructor|by apply action_start].
Qed.

Lemma session_refines_contract_witness :
  ∃ x, contractTrace sampleConfig = Some x ∧
       x.1 = [Make; Begin; Notify; End true; Return true; HandOver; Return true] ∧
       contractRun x.1 newLife = Some {| lphase := Closed; lnotified := true; lfailed := true; lmarked := false; lexpiry := Gone |}.
Proof.
  destruct (contractTrace sampleConfig) as [x|] eqn:E; [|vm_compute in E; discriminate E].
  exists x. split; [reflexivity|].
  assert (x.1 = [Make; Begin; Notify; End true; Return true; HandOver; Return true] ∧
          lifeOf x.2 = {| lphase := Closed; lnotified := true; lfailed := true; lmarked := false; lexpiry := Gone |}) as [Hl Hx]
    by (vm_compute in E; injection E as <-; split; vm_compute; reflexivity).
  split; [exact Hl|]. rewrite <- Hx.
  apply (session_refines_contract sampleConfig); [reflexivity|]. exact (contractTrace_trace _ _ E).
Defined.
