(* ===== verification/Manager.v ===== *)
(** * The session manager (internal/rtc/session_manager.go)

    The manager maps ids to entries; [Create] reserves an entry, builds the
    session outside the lock and installs it only if its reservation is still
    the current one.  Entries and sessions are pointers (indices of heaps),
    goroutines are program counters, and a section under [mu] is one step;
    everything between two sections can interleave with other calls, with
    sessions that close on their own and with expiry timers.  Of a session only
    what the manager relies on is modelled, the contract of [Contract.v]:
    [Close] runs once, calls [onTerminal] in its body and makes later callers
    wait for its error, and the expiry timer is stopped or fires. *)

From S2P Require Import Prelude GoString Contract.

Inductive managerError := ErrSessionExists | ErrSessionNotFound | ErrNewSession | ErrCloseSession.
#[global] Instance managerError_eq_dec : EqDecision managerError.
Proof. solve_decision. Defined.

(** [sessionEntry], with the id its reservation and its [onTerminal] closure carry. *)
Record sessionEntry := { entryId : gostring; session : option nat }.

(** A session as the manager sees it: the id and entry its [onTerminal] closure
    holds, how far its [Close] is, the error [Close] returns, the connected
    flag and the expiry timer. *)
Record sessionObj := {
  sid : gostring; sentry : nat; sphase : phase; serr : option managerError; smarked : bool; sexpiry : expiry
}.

Record manager := { sessions : gmap gostring nat; entries : list sessionEntry; objs : list sessionObj }.

Definition NewManager : manager := {| sessions := ∅; entries := []; objs := [] |}.

Definition set_sessions (x : gmap gostring nat) (m : manager) : manager :=
  {| sessions := x; entries := entries m; objs := objs m |}.
Definition set_entries (x : list sessionEntry) (m : manager) : manager :=
  {| sessions := sessions m; entries := x; objs := objs m |}.
Definition set_objs (x : list sessionObj) (m : manager) : manager :=
  {| sessions := sessions m; entries := entries m; objs := x |}.
Definition set_phase (ph : phase) (o : sessionObj) : sessionObj :=
  {| sid := sid o; sentry := sentry o; sphase := ph; serr := serr o; smarked := smarked o; sexpiry := sexpiry o |}.
Definition set_expiry (x : expiry) (o : sessionObj) : sessionObj :=
  {| sid := sid o; sentry := sentry o; sphase := sphase o; serr := serr o; smarked := smarked o; sexpiry := x |}.

(** What a call returns. *)
Inductive reply :=
| ReplyOk
| ReplyErr (e : managerError)
| ReplyJoined (errs : list (option managerError)).

(** What a goroutine does once [session.Close()] has returned. *)
Inductive after :=
| AfterClose                                              (* Close: return its error *)
| AfterDrop                                               (* expire, or the session's own goroutines *)
| AfterAbort (id : gostring) (e : nat)                    (* NewSession returns an error *)
| AfterLost                                               (* Create: the reservation was removed *)
| AfterAll (rest : list nat) (errs : list (option managerError)). (* CloseAll's loop *)

Inductive pc :=
| Done (r : reply)
| CreateReserve (id : gostring)
| CreateNew (id : gostring) (e : nat)
| CreateRemove (id : gostring) (e : nat)
| CreateInstall (id : gostring) (e : nat) (s : nat)
| CreateArm (s : nat)
| CreateHandOver (s : nat)
| Expire (id : gostring) (s : nat)
| MarkLookup (id : gostring)
| MarkSession (s : nat)
| CloseLookup (id : gostring)
| CloseAllSection
| CloseAllNext (rest : list nat) (errs : list (option managerError))
| CloseCall (s : nat) (k : after)
| CloseTerminal (s : nat) (k : after)
| CloseDone (s : nat) (k : after).

#[global] Instance reply_eq_dec : EqDecision reply.
Proof. solve_decision. Defined.
#[global] Instance after_eq_dec : EqDecision after.
Proof. solve_decision. Defined.
#[global] Instance pc_eq_dec : EqDecision pc.
Proof. solve_decision. Defined.

(** What the environment answers: [NewSession] succeeds, fails before or after
    it has made a session, [session.Close] fails; [Order] is the order in which
    [CloseAll] iterates over its map. *)
Inductive answer := Succeeds | Fails | FailsAfterClose | Order (l : list nat).

(** ** The sections *)

Definition removeEntry (id : gostring) (expected : nat) (m : manager) : manager :=
  match sessions m !! id with
  | Some current => if bool_decide (current = expected) then set_sessions (delete id (sessions m)) m else m
  | None => m
  end.

Definition entrySession (m : manager) (e : nat) : option nat :=
  match entries m !! e with Some en => session en | None => None end.

(** The sessions [CloseAll] collects, in some order of the map. *)
Definition collected (m : manager) : list nat :=
  omap (λ p, entrySession m p.2) (map_to_list (sessions m)).

Definition resume (k : after) (err : option managerError) : pc :=
  match k with
  | AfterClose => Done (match err with Some e => ReplyErr e | None => ReplyOk end)
  | AfterDrop => Done ReplyOk
  | AfterAbort id e => CreateRemove id e
  | AfterLost => Done (ReplyErr ErrSessionNotFound)
  | AfterAll rest errs => CloseAllNext rest (errs ++ [err])
  end.

Definition newObj (id : gostring) (e : nat) : sessionObj :=
  {| sid := id; sentry := e; sphase := Open; serr := None; smarked := false; sexpiry := NoTimer |}.

(** [session.Close] is done: its error is what the recorder and the peer have
    answered, and a handed-over timer is stopped. *)
Definition closeAnswer (a : answer) : option managerError :=
  match a with Succeeds => None | _ => Some ErrCloseSession end.
Definition endClose (a : answer) (o : sessionObj) : sessionObj :=
  {| sid := sid o; sentry := sentry o; sphase := Closed;
     serr := closeAnswer a; smarked := smarked o;
     sexpiry := stopExpiry (sexpiry o) |}.

(** One step of a goroutine; [None]: it has returned or waits for [closeOnce]. *)
Definition goroutineStep (ttl : Z) (a : answer) (p : pc) (m : manager) : option (manager * pc) :=
  match p with
  | Done _ => None
  (* Create *)
  | CreateReserve id =>
      match sessions m !! id with
      | Some _ => Some (m, Done (ReplyErr ErrSessionExists))
      | None =>
          let e := length (entries m) in
          Some (set_sessions (<[id := e]> (sessions m))
                  (set_entries (entries m ++ [{| entryId := id; session := None |}]) m), CreateNew id e)
      end
  | CreateNew id e =>
      let s := length (objs m) in
      let made := set_objs (objs m ++ [newObj id e]) m in
      match a with
      | Fails => Some (m, CreateRemove id e)
      | FailsAfterClose => Some (made, CloseCall s (AfterAbort id e))
      | _ => Some (made, CreateInstall id e s)
      end
  | CreateRemove id e => Some (removeEntry id e m, Done (ReplyErr ErrNewSession))
  | CreateInstall id e s =>
      if bool_decide (sessions m !! id = Some e) then
        Some (set_entries (alter (λ en, {| entryId := entryId en; session := Some s |}) e (entries m)) m,
              if (0 <? ttl)%Z then CreateArm s else Done ReplyOk)
      else Some (m, CloseCall s AfterLost)
  | CreateArm s => Some (set_objs (alter (set_expiry Made) s (objs m)) m, CreateHandOver s)
  | CreateHandOver s =>
      Some (set_objs (alter (λ o, set_expiry (handExpiry (sphase o) (sexpiry o)) o) s (objs m)) m, Done ReplyOk)
  (* expire *)
  | Expire id s =>
      match sessions m !! id with
      | Some e =>
          if bool_decide (entrySession m e = Some s)
          then Some (set_sessions (delete id (sessions m)) m, CloseCall s AfterDrop)
          else Some (m, Done ReplyOk)
      | None => Some (m, Done ReplyOk)
      end
  (* MarkConnected *)
  | MarkLookup id =>
      match sessions m !! id with
      | Some e => match entrySession m e with
                  | Some s => Some (m, MarkSession s)
                  | None => Some (m, Done (ReplyErr ErrSessionNotFound))
                  end
      | None => Some (m, Done (ReplyErr ErrSessionNotFound))
      end
  | MarkSession s =>
      Some (set_objs (alter (λ o, {| sid := sid o; sentry := sentry o; sphase := sphase o; serr := serr o;
                                     smarked := true; sexpiry := sexpiry o |}) s (objs m)) m, Done ReplyOk)
  (* Close *)
  | CloseLookup id =>
      match sessions m !! id with
      | Some e =>
          let m' := set_sessions (delete id (sessions m)) m in
          match entrySession m e with
          | Some s => Some (m', CloseCall s AfterClose)
          | None => Some (m', Done (ReplyErr ErrSessionNotFound))
          end
      | None => Some (m, Done (ReplyErr ErrSessionNotFound))
      end
  (* CloseAll *)
  | CloseAllSection =>
      let l := match a with Order l => l | _ => collected m end in
      if bool_decide (l ≡ₚ collected m) then Some (set_sessions ∅ m, CloseAllNext l []) else None
  | CloseAllNext [] errs => Some (m, Done (ReplyJoined errs))
  | CloseAllNext (s :: rest) errs => Some (m, CloseCall s (AfterAll rest errs))
  (* Session.Close *)
  | CloseCall s k =>
      match objs m !! s with
      | Some o =>
          match sphase o with
          | Open => Some (set_objs (<[s := set_phase Closing o]> (objs m)) m, CloseTerminal s k)
          | Closing => None
          | Closed => Some (m, resume k (serr o))
          end
      | None => None
      end
  | CloseTerminal s k =>
      match objs m !! s with
      | Some o => Some (removeEntry (sid o) (sentry o) m, CloseDone s k)
      | None => None
      end
  | CloseDone s k =>
      match objs m !! s with
      | Some o => let o := endClose a o in Some (set_objs (<[s := o]> (objs m)) m, resume k (serr o))
      | None => None
      end
  end.

Definition Len (m : manager) : nat := size (sessions m).

(** ** Runs *)

Record system := { mgr : manager; goroutines : list pc }.

(** Calls that may arrive at any time. *)
Definition isCall (p : pc) : bool :=
  match p with CreateReserve _ | MarkLookup _ | CloseLookup _ | CloseAllSection => true | _ => false end.

Definition start (p : pc) (c : system) : system := {| mgr := mgr c; goroutines := goroutines c ++ [p] |}.

Definition run (ttl : Z) (i : nat) (a : answer) (c : system) : option system :=
  match goroutines c !! i with
  | None => None
  | Some p =>
      match goroutineStep ttl a p (mgr c) with
      | None => None
      | Some (m, p') => Some {| mgr := m; goroutines := <[i := p']> (goroutines c) |}
      end
  end.

(** An expiry timer that is armed fires and calls [expire]. *)
Definition fire (s : nat) (c : system) : option system :=
  match objs (mgr c) !! s with
  | Some o =>
      match sexpiry o with
      | Made | Handed =>
          Some {| mgr := set_objs (<[s := set_expiry Gone o]> (objs (mgr c))) (mgr c);
                  goroutines := goroutines c ++ [Expire (sid o) s] |}
      | _ => None
      end
  | None => None
  end.

Inductive step (ttl : Z) (c : system) : system → Prop :=
| step_run i a c' : run ttl i a c = Some c' → step ttl c c'
| step_call p : isCall p = true → step ttl c (start p c)
| step_own s : s < length (objs (mgr c)) → step ttl c (start (CloseCall s AfterDrop) c)
| step_fire s c' : fire s c = Some c' → step ttl c c'.

Definition initial : system := {| mgr := NewManager; goroutines := [] |}.

Definition reachable (ttl : Z) (c : system) : Prop := rtc (step ttl) initial c.

(** ** Who is responsible for what *)

Definition afterHolds (k : after) : list nat := match k with AfterAll rest _ => rest | _ => [] end.
Definition afterEntry (k : after) : option (gostring * nat) := match k with AfterAbort id e => Some (id, e) | _ => None end.

(** The sessions a goroutine will install or close. *)
Definition holds (p : pc) : list nat :=
  match p with
  | CreateInstall _ _ s => [s]
  | CloseAllNext rest _ => rest
  | CloseCall s k => s :: afterHolds k
  | CloseTerminal _ k | CloseDone _ k => afterHolds k
  | _ => []
  end.

(** The session whose Close the goroutine runs. *)
Definition closing (p : pc) : option nat :=
  match p with CloseTerminal s _ | CloseDone s _ => Some s | _ => None end.

(** The id and entry whose reservation the goroutine will resolve. *)
Definition creates (p : pc) : option (gostring * nat) :=
  match p with
  | CreateNew id e | CreateRemove id e | CreateInstall id e _ => Some (id, e)
  | CloseCall _ k | CloseTerminal _ k | CloseDone _ k => afterEntry k
  | _ => None
  end.
Definition reserves (p : pc) : option nat := match creates p with Some (_, e) => Some e | None => None end.
Definition closesB (s : nat) (p : pc) : bool := bool_decide (closing p = Some s).
Definition reservesB (e : nat) (p : pc) : bool := bool_decide (reserves p = Some e).

Definition installed (m : manager) (s : nat) (o : sessionObj) : Prop :=
  sessions m !! sid o = Some (sentry o) ∧ entrySession m (sentry o) = Some s.

Record managerInv (c : system) : Prop := {
  mi_map : ∀ id e, sessions (mgr c) !! id = Some e → ∃ en, entries (mgr c) !! e = Some en ∧ entryId en = id;
  mi_reserved : ∀ id e, sessions (mgr c) !! id = Some e → entrySession (mgr c) e = None →
    ∃ p, p ∈ goroutines c ∧ reserves p = Some e;
  mi_entry : ∀ e s, entrySession (mgr c) e = Some s → ∃ o, objs (mgr c) !! s = Some o ∧ sentry o = e;
  mi_obj : ∀ s o, objs (mgr c) !! s = Some o → ∃ en, entries (mgr c) !! sentry o = Some en ∧ entryId en = sid o;
  mi_uniq : ∀ s1 s2 o1 o2, objs (mgr c) !! s1 = Some o1 → objs (mgr c) !! s2 = Some o2 → sentry o1 = sentry o2 → s1 = s2;
  mi_open : ∀ s o, objs (mgr c) !! s = Some o → sphase o = Open →
    installed (mgr c) s o ∨ ∃ p, p ∈ goroutines c ∧ s ∈ holds p;
  mi_closing : ∀ s o, objs (mgr c) !! s = Some o →
    match sphase o with
    | Closing => ∃ p, sel (closesB s) (goroutines c) = [p]
    | _ => sel (closesB s) (goroutines c) = []
    end;
  mi_gone : ∀ s o, objs (mgr c) !! s = Some o → sphase o = Closed ∨ (∃ k, CloseDone s k ∈ goroutines c) →
    sessions (mgr c) !! sid o ≠ Some (sentry o);
  mi_creator : ∀ e, sel (reservesB e) (goroutines c) = [] ∨
    ∃ p, sel (reservesB e) (goroutines c) = [p] ∧ entrySession (mgr c) e = None ∧ e < length (entries (mgr c)) ∧
      (∀ id, p = CreateNew id e → ∀ s o, objs (mgr c) !! s = Some o → sentry o ≠ e);
  mi_new : ∀ p id e, p ∈ goroutines c → creates p = Some (id, e) → ∃ en, entries (mgr c) !! e = Some en ∧ entryId en = id;
  mi_install : ∀ id e s, CreateInstall id e s ∈ goroutines c → ∃ o, objs (mgr c) !! s = Some o ∧ sentry o = e ∧ sid o = id;
  mi_holds : ∀ p s, p ∈ goroutines c → s ∈ holds p → s < length (objs (mgr c));
  mi_run : ∀ p s, p ∈ goroutines c → closing p = Some s → s < length (objs (mgr c))
}.

(** ** Lemmas about the sections *)

Lemma removeEntry_lookup id expected m j e :
  sessions (removeEntry id expected m) !! j = Some e ↔
  sessions m !! j = Some e ∧ ¬ (j = id ∧ e = expected).
Proof.
  unfold removeEntry. destruct (sessions m !! id) as [current|] eqn:E.
  - case_bool_decide as Hc; simpl.
    + subst. destruct (decide (j = id)) as [->|Hne].
      * rewrite lookup_delete_eq, E. naive_solver.
      * rewrite lookup_delete_ne by done. naive_solver.
    + split; [|naive_solver]. intros Hj. split; [done|]. intros [-> ->]. congruence.
  - split; [|naive_solver]. intros Hj. split; [done|]. intros [-> ->]. congruence.
Qed.

Lemma removeEntry_entries id e m : entries (removeEntry id e m) = entries m ∧ objs (removeEntry id e m) = objs m.
Proof. unfold removeEntry. repeat case_match; done. Qed.

(** ** Preservation *)

(** A goroutine is replaced; everything the invariant asks of the old one is
    taken over by the new one or no longer needed. *)
Section Replace.
Context (gs : list pc) (i : nat) (p p' : pc) (Hi : gs !! i = Some p).

Lemma replace_other q : q ∈ gs → q ≠ p → q ∈ <[i := p']> gs.
Proof using Hi.
  intros (j&Hj)%list_elem_of_lookup Hne. destruct (decide (i = j)) as [<-|Hij]; [congruence|].
  apply list_elem_of_lookup. exists j. by rewrite list_lookup_insert_ne.
Qed.

Lemma replace_new : p' ∈ <[i := p']> gs.
Proof using Hi.
  apply list_elem_of_lookup. exists i. apply list_lookup_insert_eq. by eapply lookup_lt_Some.
Qed.

Lemma replace_exists (Q : pc → Prop) :
  (∃ q, q ∈ gs ∧ Q q) → (Q p → Q p') → ∃ q, q ∈ <[i := p']> gs ∧ Q q.
Proof using Hi.
  intros (q&Hq&HQ) Hpp. destruct (decide (q = p)) as [->|Hne].
  - exists p'. split; [apply replace_new|auto].
  - exists q. split; [by apply replace_other|done].
Qed.
End Replace.

(** The invariant reads only id, entry and phase of a session. *)
Definition view (o : sessionObj) : gostring * nat * phase := (sid o, sentry o, sphase o).

Lemma managerInv_view c m' :
  managerInv c → sessions m' = sessions (mgr c) → entries m' = entries (mgr c) →
  (∀ s, view <$> objs m' !! s = view <$> objs (mgr c) !! s) →
  managerInv {| mgr := m'; goroutines := goroutines c |}.
Proof.
  intros [H1 H2 H3 H4 H5 H6 H7 H8 H9 H10 H11 H12 H13] Es Ee Hv.
  assert (Hses : ∀ e, entrySession m' e = entrySession (mgr c) e) by (intros e; unfold entrySession; by rewrite Ee).
  assert (Hback : ∀ s o', objs m' !! s = Some o' → ∃ o, objs (mgr c) !! s = Some o ∧
            sid o' = sid o ∧ sentry o' = sentry o ∧ sphase o' = sphase o).
  { intros s o' Ho'. specialize (Hv s). rewrite Ho' in Hv. destruct (objs (mgr c) !! s) as [o|]; [|done].
    injection Hv as ???. eauto. }
  assert (Hforth : ∀ s o, objs (mgr c) !! s = Some o → ∃ o', objs m' !! s = Some o' ∧
            sid o' = sid o ∧ sentry o' = sentry o ∧ sphase o' = sphase o).
  { intros s o Ho. specialize (Hv s). rewrite Ho in Hv. destruct (objs m' !! s) as [o'|]; [|done].
    injection Hv as ???. eauto. }
  assert (Hlen : length (objs m') = length (objs (mgr c))).
  { assert (Hlt : ∀ s, s < length (objs m') ↔ s < length (objs (mgr c))).
    { intros s. rewrite <- !lookup_lt_is_Some, <- !(fmap_is_Some view). by rewrite Hv. }
    pose proof (Hlt (length (objs m'))). pose proof (Hlt (length (objs (mgr c)))). lia. }
  split; cbn [mgr goroutines]; rewrite ?Es, ?Ee, ?Hlen; auto.
  - intros id e. rewrite Hses. apply H2.
  - intros e s. rewrite Hses. intros Hs. destruct (H3 _ _ Hs) as (o&Ho&?). destruct (Hforth _ _ Ho) as (o'&?&?&?&?). exists o'. split; [done|congruence].
  - intros s o' Ho'. destruct (Hback _ _ Ho') as (o&Ho&->&->&_). eauto.
  - intros s1 s2 o1 o2 (o1'&?&_&->&_)%Hback (o2'&?&_&->&_)%Hback. eauto.
  - intros s o' (o&Ho&Ea&Eb&->)%Hback Hop. unfold installed. rewrite Es, Hses, Ea, Eb. by apply H6.
  - intros s o' (o&Ho&_&_&->)%Hback. by apply H7.
  - intros s o' (o&Ho&->&->&->)%Hback. by apply H8.
  - intros e. destruct (H9 e) as [?|(p&?&?&?&Hn)]; [by left|right]. exists p. rewrite Hses. split_and!; try done.
    intros id Hp s o' (o&Ho&_&->&_)%Hback. eauto.
  - intros id e s Hin. destruct (H11 _ _ _ Hin) as (o&Ho&?&?). destruct (Hforth _ _ Ho) as (o'&?&?&?&?). exists o'. split_and!; congruence.
Qed.

(** The goroutine that resolves a reservation is the only one, and its entry has
    no session yet. *)
Lemma creator_unique c i p e :
  managerInv c → goroutines c !! i = Some p → reserves p = Some e →
  sel (reservesB e) (goroutines c) = [p] ∧ entrySession (mgr c) e = None ∧ e < length (entries (mgr c)).
Proof.
  intros Hinv Hi Hr. apply list_elem_of_lookup_2 in Hi.
  assert (p ∈ sel (reservesB e) (goroutines c)) as Hin by (apply elem_of_sel; split; [by apply bool_decide_eq_true_2|done]).
  destruct (mi_creator _ Hinv e) as [Hz|(z&Hz&?&?&_)]; rewrite Hz in Hin; [by apply elem_of_nil in Hin|].
  apply list_elem_of_singleton in Hin as ->. done.
Qed.

(** While NewSession runs there is no session for its entry. *)
Lemma creator_no_object c i id e s o :
  managerInv c → goroutines c !! i = Some (CreateNew id e) → objs (mgr c) !! s = Some o → sentry o ≠ e.
Proof.
  intros Hinv Hi Ho. destruct (creator_unique _ _ _ e Hinv Hi eq_refl) as (Hs&_).
  destruct (mi_creator _ Hinv e) as [Hz|(z&Hz&_&_&Hn)]; rewrite Hs in Hz; [done|]. injection Hz as <-. eauto.
Qed.

(** Nobody closes a session that does not exist. *)
Lemma closing_none c s : managerInv c → length (objs (mgr c)) ≤ s → sel (closesB s) (goroutines c) = [].
Proof.
  intros Hinv Hs. destruct (sel (closesB s) (goroutines c)) as [|q l] eqn:E; [done|].
  assert (q ∈ sel (closesB s) (goroutines c)) as [Hq Hin]%elem_of_sel by (rewrite E; by left).
  apply bool_decide_eq_true_1, (mi_run _ Hinv q s Hin) in Hq. lia.
Qed.

Lemma closesB_out x p : closing p ≠ Some x → closesB x p = false.
Proof. apply bool_decide_eq_false_2. Qed.

Lemma insert_obj_inv {A} (l : list A) i x j y : <[i := x]> l !! j = Some y → (j = i ∧ y = x) ∨ (j ≠ i ∧ l !! j = Some y).
Proof. intros [(->&<-&_)|[Hne Hj]]%list_lookup_insert_Some; auto. Qed.

(** One goroutine, at [CloseDone], leaves the body of its session's Close. *)
Lemma closing_leaves c i s k o p' :
  managerInv c → goroutines c !! i = Some (CloseDone s k) → objs (mgr c) !! s = Some o → closing p' = None →
  sel (closesB s) (<[i := p']> (goroutines c)) = [].
Proof.
  intros Hinv Hi Ho Hp'. pose proof (mi_closing _ Hinv _ _ Ho) as Hc.
  assert (CloseDone s k ∈ sel (closesB s) (goroutines c)) as Hin
    by (apply elem_of_sel; split; [by apply bool_decide_eq_true_2|by eapply list_elem_of_lookup_2]).
  assert (∃ z, sel (closesB s) (goroutines c) = [z]) as (z&Hz)
    by (destruct (sphase o); [rewrite Hc in Hin; by apply elem_of_nil in Hin|done|rewrite Hc in Hin; by apply elem_of_nil in Hin]).
  destruct (sel_insert_inside (closesB s) _ _ _ p' _ Hi (bool_decide_eq_true_2 _ eq_refl) Hz) as [_ ->].
  by rewrite closesB_out by (by rewrite Hp').
Qed.

(** A goroutine that keeps its reservation, or resolves it. *)
Lemma creator_replace c i p p' x :
  managerInv c → goroutines c !! i = Some p → (∀ e, reserves p' = Some e → reserves p = Some e) → (∀ id e, p' ≠ CreateNew id e) →
  sel (reservesB x) (<[i := p']> (goroutines c)) = [] ∨
  ∃ z, sel (reservesB x) (<[i := p']> (goroutines c)) = [z] ∧ entrySession (mgr c) x = None ∧ x < length (entries (mgr c)) ∧
    (∀ id, z = CreateNew id x → ∀ s o, objs (mgr c) !! s = Some o → sentry o ≠ x).
Proof.
  intros Hinv Hi Hrs Hnew. destruct (decide (reserves p = Some x)) as [Hp|Hp].
  - destruct (creator_unique _ _ _ x Hinv Hi Hp) as (Hsel&?&?).
    destruct (sel_insert_inside (reservesB x) _ _ _ p' _ Hi (bool_decide_eq_true_2 _ Hp) Hsel) as [_ ->].
    destruct (reservesB x p'); [right|by left]. exists p'. split_and!; try done. intros id Hz. by destruct (Hnew id x).
  - assert (reserves p' ≠ Some x) as Hp' by auto.
    rewrite (sel_insert_out (reservesB x) _ _ _ _ Hi) by by apply bool_decide_eq_false_2. apply (mi_creator _ Hinv x).
Qed.

(** An entry without a session is added. *)
Lemma entrySession_snoc m id x :
  entrySession (set_entries (entries m ++ [{| entryId := id; session := None |}]) m) x = entrySession m x.
Proof.
  unfold entrySession. cbn. destruct (entries m !! x) as [en|] eqn:E.
  - by erewrite lookup_app_l_Some.
  - destruct ((entries m ++ [{| entryId := id; session := None |}]) !! x) as [en'|] eqn:E2; [|done]. apply lookup_snoc_Some in E2 as [[_ E2]|[_ <-]]; [congruence|done].
Qed.

(** An entry gets its session. *)
Lemma entries_install m e s x en :
  entries m !! x = Some en →
  ∃ en', alter (λ en, {| entryId := entryId en; session := Some s |}) e (entries m) !! x = Some en' ∧ entryId en' = entryId en.
Proof.
  intros Hx. destruct (decide (e = x)) as [->|Hne].
  - rewrite list_lookup_alter_eq, Hx. cbn. eauto.
  - rewrite list_lookup_alter_ne by done. eauto.
Qed.

Lemma entrySession_install m e s en x :
  entries m !! e = Some en →
  entrySession (set_entries (alter (λ en, {| entryId := entryId en; session := Some s |}) e (entries m)) m) x =
  if decide (x = e) then Some s else entrySession m x.
Proof.
  intros He. unfold entrySession. cbn. destruct (decide (x = e)) as [->|Hne].
  - by rewrite list_lookup_alter_eq, He.
  - by rewrite list_lookup_alter_ne.
Qed.

(** A step that at most removes ids from the map. *)
Lemma managerInv_shrink c i p p' m' :
  managerInv c → goroutines c !! i = Some p →
  entries m' = entries (mgr c) → objs m' = objs (mgr c) →
  (∀ id e, sessions m' !! id = Some e → sessions (mgr c) !! id = Some e) →
  (∀ s o, objs (mgr c) !! s = Some o → sphase o = Open →
     s ∈ holds p ∨ (installed (mgr c) s o ∧ sessions m' !! sid o ≠ Some (sentry o)) →
     s ∈ holds p' ∨ installed m' s o) →
  (∀ id e, reserves p = Some e → reserves p' = Some e ∨ sessions m' !! id ≠ Some e) →
  (∀ ide, creates p' = Some ide → creates p = Some ide) →
  closing p' = closing p →
  (∀ s k o, p' = CloseDone s k → objs (mgr c) !! s = Some o → sessions m' !! sid o ≠ Some (sentry o)) →
  (∀ s, s ∈ holds p' → s < length (objs (mgr c))) →
  (∀ id e, p' ≠ CreateNew id e) → (∀ id e s, p' ≠ CreateInstall id e s) →
  managerInv {| mgr := m'; goroutines := <[i := p']> (goroutines c) |}.
Proof.
  intros Hinv Hi Ee Eo Hsub Hopen Hres Hres' Hclo Hdone Hhold Hnew Hins.
  pose proof Hinv as [H1 H2 H3 H4 H5 H6 H7 H8 H9 H10 H11 H12 H13].
  assert (Hses : ∀ e, entrySession m' e = entrySession (mgr c) e) by (intros e; unfold entrySession; by rewrite Ee).
  pose proof (list_elem_of_lookup_2 _ _ _ Hi) as Hp.
  assert (Hrs : ∀ e, reserves p' = Some e → reserves p = Some e).
  { unfold reserves. intros e. destruct (creates p') as [[]|]; [by rewrite (Hres' _ eq_refl)|done]. }
  split; cbn [mgr goroutines]; rewrite ?Ee, ?Eo; auto.
  - intros id e Hs. rewrite Hses. intros Hn. destruct (H2 _ _ (Hsub _ _ Hs) Hn) as (q&Hq&Hr).
    apply (replace_exists _ _ p p' Hi (λ q, reserves q = Some e)); [eauto|].
    intros Hrp. by destruct (Hres id e Hrp).
  - intros e s. rewrite Hses. auto.
  - intros s o Ho Hop.
    destruct (decide (s ∈ holds p)) as [Hin|Hout].
    { destruct (Hopen s o Ho Hop (or_introl Hin)) as [?|?]; [right|by left]. exists p'. split; [by eapply replace_new|done]. }
    destruct (H6 s o Ho Hop) as [Hinst|(q&Hq&Hs)].
    + destruct (decide (sessions m' !! sid o = Some (sentry o))) as [Hk|Hk].
      * left. split; [done|]. rewrite Hses. apply Hinst.
      * destruct (Hopen s o Ho Hop (or_intror (conj Hinst Hk))) as [?|?]; [right|by left].
        exists p'. split; [by eapply replace_new|done].
    + right. exists q. split; [|done]. eapply replace_other; [done..|]. by intros ->.
  - intros s o Ho. specialize (H7 s o Ho).
    destruct (sel_replace_same (closesB s) _ _ _ p' Hi) as [Hs0 Hs1]; [unfold closesB; by rewrite Hclo|].
    destruct (sphase o); auto. destruct H7 as (z&Hz). destruct (Hs1 _ Hz) as (z'&?&_). eauto.
  - intros s o Ho Hg Hs. apply Hsub in Hs as Hs'. destruct Hg as [Hg|(k&Hk)].
    + by eapply (H8 s o Ho); [left|].
    + apply elem_of_insert_or in Hk as [<-|Hk]; [by eapply Hdone|]. eapply (H8 s o Ho); eauto.
  - intros e. rewrite Hses. by apply creator_replace with p.
  - intros q id e Hin Hc. apply elem_of_insert_or in Hin as [->|Hin]; eauto.
  - intros id e s Hin. apply elem_of_insert_or in Hin as [Hin|Hin]; [by destruct (Hins id e s)|eauto].
  - intros q s Hq Hs. apply elem_of_insert_or in Hq as [->|Hq]; eauto.
  - intros q s Hq Hs. apply elem_of_insert_or in Hq as [->|Hq]; [|eauto]. rewrite Hclo in Hs. eauto.
Qed.

Lemma resume_props k err :
  holds (resume k err) = afterHolds k ∧ creates (resume k err) = afterEntry k ∧ closing (resume k err) = None ∧
  (∀ id e, resume k err ≠ CreateNew id e) ∧ (∀ id e s, resume k err ≠ CreateInstall id e s) ∧
  (∀ s k', resume k err ≠ CloseDone s k').
Proof. by destruct k. Qed.

Lemma managerInv_reserve c i id :
  managerInv c → goroutines c !! i = Some (CreateReserve id) → sessions (mgr c) !! id = None →
  let e := length (entries (mgr c)) in
  managerInv {| mgr := set_sessions (<[id := e]> (sessions (mgr c)))
                         (set_entries (entries (mgr c) ++ [{| entryId := id; session := None |}]) (mgr c));
                goroutines := <[i := CreateNew id e]> (goroutines c) |}.
Proof.
  intros [H1 H2 H3 H4 H5 H6 H7 H8 H9 H10 H11 H12 H13] Hi Hfree e.
  set (m' := set_sessions _ _). set (p' := CreateNew id e).
  assert (Hold : ∀ x en, entries (mgr c) !! x = Some en → entries m' !! x = Some en ∧ x ≠ e).
  { intros x en Hx. split; [by apply lookup_app_l_Some|]. apply lookup_lt_Some in Hx. unfold e. lia. }
  assert (Hnewe : entries m' !! e = Some {| entryId := id; session := None |}) by by apply list_lookup_middle.
  assert (Hses : ∀ x, entrySession m' x = entrySession (mgr c) x).
  { intros x. apply entrySession_snoc. }
  assert (Hlt : ∀ x, x < length (entries (mgr c)) → x ≠ e) by (unfold e; lia).
  pose proof (list_elem_of_lookup_2 _ _ _ Hi) as Hp.
  assert (Hsel : ∀ x, x ≠ e → sel (reservesB x) (<[i := p']> (goroutines c)) = sel (reservesB x) (goroutines c)).
  { intros x Hx. eapply sel_insert_out; [done|done|]. apply bool_decide_eq_false_2. cbn. congruence. }
  assert (Hempty : sel (reservesB e) (goroutines c) = []).
  { destruct (H9 e) as [?|(p&_&_&Hl&_)]; [done|]. by apply Hlt in Hl. }
  assert (Hmap : ∀ j x, sessions m' !! j = Some x → (j = id ∧ x = e) ∨ (j ≠ id ∧ sessions (mgr c) !! j = Some x)).
  { intros j x. cbn. intros [[<- <-]|[? ?]]%lookup_insert_Some; auto. }
  split; cbn [mgr goroutines]; auto.
  - intros j x [[-> ->]|[_ Hx]]%Hmap; [eauto|]. destruct (H1 _ _ Hx) as (en&?&?). exists en. split; [by apply Hold|done].
  - intros j x [[-> ->]|[_ Hx]]%Hmap; rewrite Hses; intros Hn.
    + exists p'. split; [by eapply replace_new|done].
    + apply (replace_exists _ _ _ p' Hi (λ q, reserves q = Some x)); [eauto|done].
  - intros x s. rewrite Hses. auto.
  - intros s o Ho. destruct (H4 s o Ho) as (en&?&?). exists en. split; [by apply Hold|done].
  - intros s o Ho Hop. destruct (H6 s o Ho Hop) as [[Hm Hs]|Hh].
    + left. split; [|by rewrite Hses]. cbn. rewrite lookup_insert_ne; [done|]. congruence.
    + right. by apply (replace_exists _ _ _ p' Hi (λ q, s ∈ holds q)).
  - intros s o Ho. specialize (H7 s o Ho). unfold closesB in *.
    rewrite (sel_insert_out _ _ _ _ _ Hi); done.
  - intros s o Ho Hg [[_ Hx]|[_ Hx]]%Hmap.
    + destruct (H4 s o Ho) as (en&Hen&_). by destruct (Hold _ _ Hen).
    + eapply (H8 s o Ho); [|done]. destruct Hg as [?|(k&[Hk|Hk]%elem_of_insert_or)]; [by left|done|right; eauto].
  - intros x. destruct (decide (x = e)) as [->|Hne].
    + right. exists p'. split_and!.
      * apply (sel_insert_enter _ _ _ _ _ Hi Hempty). by apply bool_decide_eq_true_2.
      * unfold entrySession. by rewrite Hnewe.
      * cbn. rewrite length_app. simpl. unfold e. lia.
      * intros id' _ s o Ho. destruct (H4 s o Ho) as (en&Hen&_). by destruct (Hold _ _ Hen).
    + rewrite (Hsel x Hne), Hses. destruct (H9 x) as [?|(p&?&?&?&?)]; [by left|right].
      exists p. split_and!; try done. cbn. rewrite length_app. lia.
  - intros q j x [->|Hin]%elem_of_insert_or Hc; [injection Hc as <- <-; eauto|]. destruct (H10 q j x Hin Hc) as (en&?&?). exists en. split; [by apply Hold|done].
  - intros j x s [Hin|Hin]%elem_of_insert_or; [done|eauto].
  - intros q s [->|Hin]%elem_of_insert_or Hs; [by apply elem_of_nil in Hs|eauto].
  - intros q s [->|Hin]%elem_of_insert_or Hs; [done|eauto].
Qed.

(** Where the caller of [NewSession] goes on with the session it made. *)
Lemma new_props id e s p' :
  p' = CreateInstall id e s ∨ p' = CloseCall s (AfterAbort id e) →
  reserves p' = Some e ∧ creates p' = Some (id, e) ∧ holds p' = [s] ∧ closing p' = None ∧
  (∀ j x, p' ≠ CreateNew j x) ∧ (∀ x k, p' ≠ CloseDone x k).
Proof. by intros [->| ->]. Qed.

Lemma snoc_obj_inv (l : list sessionObj) o x y : (l ++ [o]) !! x = Some y → l !! x = Some y ∨ (x = length l ∧ y = o).
Proof. intros [[_ ?]|[-> <-]]%lookup_snoc_Some; auto. Qed.

(** [NewSession] has made a session. *)
Lemma managerInv_new c i id e p' :
  managerInv c → goroutines c !! i = Some (CreateNew id e) →
  let s := length (objs (mgr c)) in
  p' = CreateInstall id e s ∨ p' = CloseCall s (AfterAbort id e) →
  managerInv {| mgr := set_objs (objs (mgr c) ++ [newObj id e]) (mgr c); goroutines := <[i := p']> (goroutines c) |}.
Proof.
  intros Hinv Hi s Hp'. pose proof Hinv as [H1 H2 H3 H4 H5 H6 H7 H8 H9 H10 H11 H12 H13].
  pose proof (list_elem_of_lookup_2 _ _ _ Hi) as Hp.
  destruct (new_props _ _ _ _ Hp') as (Hr&Hc&Hh&Hcl&Hcn&Hcd).
  set (m' := set_objs _ _).
  assert (Hmid : objs m' !! s = Some (newObj id e)) by by apply list_lookup_middle.
  assert (Hfwd : ∀ x o, objs (mgr c) !! x = Some o → objs m' !! x = Some o) by (intros; by apply lookup_app_l_Some).
  assert (Hback : ∀ x o, objs m' !! x = Some o → objs (mgr c) !! x = Some o ∨ (x = s ∧ o = newObj id e)) by (intros x o; apply snoc_obj_inv).
  assert (Hnoobj : ∀ x o, objs (mgr c) !! x = Some o → sentry o ≠ e) by (intros x o; by eapply creator_no_object).
  destruct (creator_unique _ _ _ e Hinv Hi eq_refl) as (Hsel&Hnone&He).
  assert (Hsnone : sel (closesB s) (goroutines c) = []) by by apply closing_none.
  assert (Hclos : ∀ x, sel (closesB x) (<[i := p']> (goroutines c)) = sel (closesB x) (goroutines c)).
  { intros x. eapply sel_insert_out; [done|done|]. apply bool_decide_eq_false_2. by rewrite Hcl. }
  split; cbn [mgr goroutines]; auto.
  - intros j x Hx Hn. apply (replace_exists _ _ _ p' Hi (λ q, reserves q = Some x)); [eauto|]. simpl. by rewrite Hr.
  - intros x y Hx. destruct (H3 x y Hx) as (o&?&?). eauto.
  - intros x o [Ho|[-> ->]]%Hback; [eauto|]. by apply (H10 _ id e Hp).
  - intros x1 x2 o1 o2 [Ho1|[-> ->]]%Hback [Ho2|[-> ->]]%Hback; eauto; cbn; intros Heq; by destruct (Hnoobj _ _ ltac:(eassumption)).
  - intros x o [Ho|[-> ->]]%Hback Hop.
    + destruct (H6 x o Ho Hop) as [?|Hq]; [by left|right].
      apply (replace_exists _ _ _ p' Hi (λ q, x ∈ holds q)); [done|]. intros Hx. by apply elem_of_nil in Hx.
    + right. exists p'. split; [by eapply replace_new|]. rewrite Hh. by left.
  - intros x o. rewrite Hclos. intros [Ho|[-> ->]]%Hback; [by apply H7|done].
  - intros x o [Ho|[-> ->]]%Hback Hg.
    + eapply (H8 x o Ho). destruct Hg as [?|(k&[Hk|Hk]%elem_of_insert_or)]; [by left|by destruct (Hcd x k)|right; eauto].
    + destruct Hg as [?|(k&[Hk|Hk]%elem_of_insert_or)]; [done|by destruct (Hcd s k)|].
      apply (sel_none _ _ _ Hsnone), bool_decide_eq_false in Hk. done.
  - intros x. destruct (decide (x = e)) as [->|Hne].
    + right. exists p'. destruct (sel_insert_inside (reservesB e) _ _ _ p' _ Hi (bool_decide_eq_true_2 _ eq_refl) Hsel) as [_ ->].
      unfold reservesB. rewrite (bool_decide_eq_true_2 _ Hr). split_and!; try done. intros j Hj. by destruct (Hcn j e).
    + rewrite (sel_insert_out _ _ _ _ _ Hi); [|apply bool_decide_eq_false_2; cbn; congruence|apply bool_decide_eq_false_2; congruence].
      destruct (H9 x) as [?|(z&Hz&?&?&Hn)]; [by left|right]. exists z. split_and!; try done.
      intros j -> y o [Ho|[-> ->]]%Hback; [eauto|]. cbn. congruence.
  - intros q j x [->|Hin]%elem_of_insert_or Hq; [|eauto]. rewrite Hc in Hq. injection Hq as <- <-. by apply (H10 _ _ _ Hp).
  - intros j x y [Hin|Hin]%elem_of_insert_or.
    + destruct Hp' as [->| ->]; [|done]. injection Hin as -> -> ->. eauto.
    + destruct (H11 j x y Hin) as (o&?&?&?). eauto.
  - intros q x [->|Hin]%elem_of_insert_or Hx; cbn; rewrite length_app; simpl.
    + rewrite Hh in Hx. apply list_elem_of_singleton in Hx as ->. unfold s. lia.
    + specialize (H12 q x Hin Hx). lia.
  - intros q x [->|Hin]%elem_of_insert_or Hx; cbn; rewrite length_app; simpl; [congruence|].
    specialize (H13 q x Hin Hx). lia.
Qed.

(** The reservation is still the current one: the session is installed. *)
Lemma managerInv_install c i id e s p' :
  managerInv c → goroutines c !! i = Some (CreateInstall id e s) → sessions (mgr c) !! id = Some e →
  p' = CreateArm s ∨ p' = Done ReplyOk →
  managerInv {| mgr := set_entries (alter (λ en, {| entryId := entryId en; session := Some s |}) e (entries (mgr c))) (mgr c);
                goroutines := <[i := p']> (goroutines c) |}.
Proof.
  intros Hinv Hi Hcur Hp'. pose proof Hinv as [H1 H2 H3 H4 H5 H6 H7 H8 H9 H10 H11 H12 H13].
  pose proof (list_elem_of_lookup_2 _ _ _ Hi) as Hp. set (m' := set_entries _ _).
  assert (Hr : reserves p' = None) by by destruct Hp' as [->| ->].
  assert (Hh : holds p' = []) by by destruct Hp' as [->| ->].
  assert (Hcl : closing p' = None) by by destruct Hp' as [->| ->].
  destruct (H1 _ _ Hcur) as (en0&Hen0&Hid0). destruct (H11 _ _ _ Hp) as (o0&Ho0&Hse0&Hsid0).
  destruct (creator_unique _ _ _ e Hinv Hi eq_refl) as (Hsel&Hnone&_).
  pose proof (entries_install (mgr c) e s) as Hfwd.
  assert (Hses : ∀ x, entrySession m' x = if decide (x = e) then Some s else entrySession (mgr c) x)
    by (intros x; by eapply entrySession_install).
  assert (Hse : entrySession m' e = Some s) by by rewrite Hses, decide_True.
  assert (Hsx : ∀ x, x ≠ e → entrySession m' x = entrySession (mgr c) x) by (intros x Hx; by rewrite Hses, decide_False).
  assert (Eo : objs m' = objs (mgr c)) by done. assert (Es : sessions m' = sessions (mgr c)) by done.
  split; cbn [mgr goroutines]; unfold installed; rewrite ?Eo, ?Es; auto.
  - intros j x Hx. destruct (H1 j x Hx) as (en&Hen&?). destruct (Hfwd _ _ Hen) as (en'&?&?). exists en'. split; [done|congruence].
  - intros j x Hx Hn. destruct (decide (x = e)) as [->|Hne]; [congruence|]. rewrite Hsx in Hn by done.
    apply (replace_exists _ _ _ p' Hi (λ q, reserves q = Some x)); [eauto|]. cbn. congruence.
  - intros x y Hx. destruct (decide (x = e)) as [->|Hne].
    + rewrite Hse in Hx. injection Hx as <-. eauto.
    + rewrite Hsx in Hx by done. eauto.
  - intros x o Ho. destruct (H4 x o Ho) as (en&Hen&?). destruct (Hfwd _ _ Hen) as (en'&?&?). exists en'. split; [done|congruence].
  - intros x o Ho Hop. destruct (decide (x = s)) as [->|Hne].
    + left. rewrite Ho in Ho0. injection Ho0 as ->. split; [by rewrite Hsid0, Hse0|by rewrite Hse0].
    + destruct (H6 x o Ho Hop) as [[Hm Hs]|Hq].
      * left. split; [done|]. destruct (decide (sentry o = e)) as [He|He]; [congruence|]. by rewrite Hsx.
      * right. apply (replace_exists _ _ _ p' Hi (λ q, x ∈ holds q)); [done|].
        intros Hx%list_elem_of_singleton. done.
  - intros x o Ho. specialize (H7 x o Ho).
    assert (sel (closesB x) (<[i := p']> (goroutines c)) = sel (closesB x) (goroutines c)) as ->; [|done].
    eapply sel_insert_out; [done|done|]. apply bool_decide_eq_false_2. by rewrite Hcl.
  - intros x o Ho Hg. eapply (H8 x o Ho).
    destruct Hg as [?|(k&[Hk|Hk]%elem_of_insert_or)]; [by left|by destruct Hp' as [->| ->]|right; eauto].
  - intros x. assert (reservesB x p' = false) as Hf by (apply bool_decide_eq_false_2; by rewrite Hr).
    destruct (decide (x = e)) as [->|Hne].
    + left. destruct (sel_insert_inside (reservesB e) _ _ _ p' _ Hi (bool_decide_eq_true_2 _ eq_refl) Hsel) as [_ ->]. by rewrite Hf.
    + rewrite (sel_insert_out _ _ _ _ _ Hi), Hsx; [|done|apply bool_decide_eq_false_2; cbn; congruence|done].
      destruct (H9 x) as [?|(z&?&?&?&?)]; [by left|right]. exists z. split_and!; try done. cbn. by rewrite length_alter.
  - intros q j x [->|Hin]%elem_of_insert_or Hc; [by destruct Hp' as [->| ->]|].
    destruct (H10 q j x Hin Hc) as (en&Hen&?). destruct (Hfwd _ _ Hen) as (en'&?&?). exists en'. split; [done|congruence].
  - intros j x y [Hin|Hin]%elem_of_insert_or; [by destruct Hp' as [->| ->]|eauto].
  - intros q x [->|Hin]%elem_of_insert_or Hx; [rewrite Hh in Hx; by apply elem_of_nil in Hx|eauto].
  - intros q x [->|Hin]%elem_of_insert_or Hx; [congruence|eauto].
Qed.

(** A session's [Close] starts and ends: its phase changes along with the
    goroutine that runs it. *)
Lemma managerInv_phase c i p p' s o o' :
  managerInv c → goroutines c !! i = Some p → objs (mgr c) !! s = Some o →
  sid o' = sid o → sentry o' = sentry o → sphase o' ≠ Open →
  (closing p = None ∧ sphase o = Open ∧ closing p' = Some s ∧ sphase o' = Closing ∨
   (∃ k, p = CloseDone s k) ∧ closing p' = None ∧ sphase o' = Closed) →
  (∀ x, x ∈ holds p → x = s ∨ x ∈ holds p') → (∀ x, x ∈ holds p' → x ∈ holds p) → creates p' = creates p →
  (∀ j x, p' ≠ CreateNew j x) → (∀ j x y, p' ≠ CreateInstall j x y) → (∀ x k, p' ≠ CloseDone x k) →
  managerInv {| mgr := set_objs (<[s := o']> (objs (mgr c))) (mgr c); goroutines := <[i := p']> (goroutines c) |}.
Proof.
  intros Hinv Hi Ho Esid Esen Hno Hcase Hhold Hhold' Hcre Hnew Hins Hdone.
  pose proof Hinv as [H1 H2 H3 H4 H5 H6 H7 H8 H9 H10 H11 H12 H13].
  pose proof (list_elem_of_lookup_2 _ _ _ Hi) as Hp. set (m' := set_objs _ _).
  assert (Hres : reserves p' = reserves p) by (unfold reserves; by rewrite Hcre).
  assert (Hself : objs m' !! s = Some o') by (apply list_lookup_insert_eq; by eapply lookup_lt_Some).
  assert (Hback : ∀ x y, objs m' !! x = Some y → (x = s ∧ y = o') ∨ (x ≠ s ∧ objs (mgr c) !! x = Some y)).
  { intros x y. apply insert_obj_inv. }
  assert (Hlen : length (objs m') = length (objs (mgr c))) by apply length_insert.
  assert (Hnone : sphase o = Open → closing p = None → sel (closesB s) (goroutines c) = [])
    by (intros Hop _; pose proof (H7 s o Ho) as Hc; by rewrite Hop in Hc).
  split; cbn [mgr goroutines]; rewrite ?Hlen; auto.
  - intros j x Hx Hn. apply (replace_exists _ _ _ p' Hi (λ q, reserves q = Some x)); [eauto|]. by rewrite Hres.
  - intros x y Hx. destruct (H3 x y Hx) as (z&Hz&?). destruct (decide (y = s)) as [->|Hne].
    + exists o'. split; [done|]. congruence.
    + exists z. split; [|done]. cbn. by rewrite list_lookup_insert_ne.
  - intros x y [[-> ->]|[_ Hy]]%Hback; [rewrite Esid, Esen|]; eauto.
  - intros x1 x2 y1 y2 [[-> ->]|[Hn1 Hy1]]%Hback [[-> ->]|[Hn2 Hy2]]%Hback; rewrite ?Esen; eauto; intros Heq.
    all: symmetry in Heq || idtac; eauto.
  - intros x y [[-> ->]|[Hn Hy]]%Hback Hop; [done|]. destruct (H6 x y Hy Hop) as [?|Hq]; [by left|right].
    apply (replace_exists _ _ _ p' Hi (λ q, x ∈ holds q)); [done|]. intros Hx. by destruct (Hhold x Hx).
  - intros x y [[-> ->]|[Hn Hy]]%Hback.
    + destruct Hcase as [(Hcp&Hop&Hcp'&->)|((k&->)&Hcp'&->)].
      * exists p'. apply (sel_insert_enter _ _ _ _ _ Hi (Hnone Hop Hcp)). by apply bool_decide_eq_true_2.
      * by eapply closing_leaves.
    + assert (sel (closesB x) (<[i := p']> (goroutines c)) = sel (closesB x) (goroutines c)) as ->; [|by apply H7].
      eapply sel_insert_out; [done|..]; apply bool_decide_eq_false_2.
      * destruct Hcase as [(->&_)|((k&->)&_)]; [done|]. cbn. congruence.
      * destruct Hcase as [(_&_&->&_)|(_&->&_)]; congruence.
  - intros x y [[-> ->]|[Hn Hy]]%Hback Hg; rewrite ?Esid, ?Esen.
    + eapply (H8 s o Ho). destruct Hg as [Hg|(k&[Hk|Hk]%elem_of_insert_or)]; [|by destruct (Hdone s k)|right; eauto].
      destruct Hcase as [(_&_&_&Hph)|((k&->)&_&_)]; [congruence|]. right. eauto.
    + eapply (H8 x y Hy). destruct Hg as [Hg|(k&[Hk|Hk]%elem_of_insert_or)]; [by left|by destruct (Hdone x k)|right; eauto].
  - intros x. destruct (creator_replace c i p p' x) as [?|(z&?&?&?&Hn)]; [done|done|by intros e; rewrite Hres|done|by left|right].
    exists z. split_and!; try done. intros j -> a b [[-> ->]|[_ Hab]]%Hback; rewrite ?Esen; eauto.
  - intros q j x [->|Hin]%elem_of_insert_or Hq; [rewrite Hcre in Hq|]; eauto.
  - intros j x y [Hin|Hin]%elem_of_insert_or; [by destruct (Hins j x y)|].
    destruct (H11 j x y Hin) as (z&Hz&?&?). destruct (decide (y = s)) as [->|Hne].
    + exists o'. split; [done|]. split; congruence.
    + exists z. split; [|done]. cbn. by rewrite list_lookup_insert_ne.
  - intros q x [->|Hin]%elem_of_insert_or Hx; eauto.
  - intros q x [->|Hin]%elem_of_insert_or Hx; [|eauto].
    destruct Hcase as [(_&_&Hc&_)|(_&Hc&_)]; [|congruence]. rewrite Hc in Hx. injection Hx as <-. by eapply lookup_lt_Some.
Qed.

Lemma elem_of_collected m s :
  s ∈ collected m ↔ ∃ id e, sessions m !! id = Some e ∧ entrySession m e = Some s.
Proof.
  unfold collected. rewrite list_elem_of_omap. split.
  - intros ([id e]&Hin&Hs). apply elem_of_map_to_list in Hin. eauto.
  - intros (id&e&Hid&Hs). exists (id, e). by rewrite elem_of_map_to_list.
Qed.

(** Nothing but the goroutine changes. *)
Lemma managerInv_same c i p p' :
  managerInv c → goroutines c !! i = Some p →
  (∀ s o, objs (mgr c) !! s = Some o → sphase o = Open → s ∈ holds p → s ∈ holds p') →
  (∀ id e, reserves p = Some e → reserves p' = Some e ∨ sessions (mgr c) !! id ≠ Some e) →
  (∀ ide, creates p' = Some ide → creates p = Some ide) →
  closing p = None → closing p' = None →
  (∀ s, s ∈ holds p' → s < length (objs (mgr c))) →
  (∀ id e, p' ≠ CreateNew id e) → (∀ id e s, p' ≠ CreateInstall id e s) →
  managerInv {| mgr := mgr c; goroutines := <[i := p']> (goroutines c) |}.
Proof.
  intros Hinv Hi Hopen Hres Hcre Hc Hc' Hh Hn Hins. eapply managerInv_shrink; try done.
  - intros s o Ho Hop [Hin|[[Hm _] Hg]]; [left; eauto|done].
  - by rewrite Hc, Hc'.
  - intros s k o ->. done.
Qed.

(** A goroutine that neither holds nor reserves nor closes anything returns. *)
Lemma managerInv_reply c i p p' :
  managerInv c → goroutines c !! i = Some p →
  holds p = [] → creates p = None → closing p = None → holds p' = [] → creates p' = None → closing p' = None →
  managerInv {| mgr := mgr c; goroutines := <[i := p']> (goroutines c) |}.
Proof.
  intros Hinv Hi Hh Hc Hcl Hh' Hc' Hcl'. eapply managerInv_same; try done.
  - intros s o _ _. by rewrite Hh, Hh'.
  - unfold reserves. by rewrite Hc.
  - by rewrite Hc'.
  - rewrite Hh'. intros s Hs. by apply elem_of_nil in Hs.
  - by intros id e ->.
  - by intros id e s ->.
Qed.

Lemma managerInv_remove c i id e :
  managerInv c → goroutines c !! i = Some (CreateRemove id e) →
  managerInv {| mgr := removeEntry id e (mgr c); goroutines := <[i := Done (ReplyErr ErrNewSession)]> (goroutines c) |}.
Proof.
  intros Hinv Hi. pose proof (list_elem_of_lookup_2 _ _ _ Hi) as Hp.
  destruct (removeEntry_entries id e (mgr c)) as [Ee Eo].
  eapply managerInv_shrink; try done.
  - intros j x Hx. by apply removeEntry_lookup in Hx as [? _].
  - intros s o Ho Hop [Hs|[[Hm Hes] Hg]]; [by apply elem_of_nil in Hs|]. exfalso. apply Hg, removeEntry_lookup.
    split; [done|]. intros [_ He].
    destruct (mi_creator _ Hinv e) as [Hz|(z&_&Hn&_)]; [|congruence].
    apply (sel_none _ _ _ Hz) in Hp. apply bool_decide_eq_false in Hp. by destruct Hp.
  - intros j x [= ->]. right. intros (Hj&Hne)%removeEntry_lookup. apply Hne. split; [|done].
    destruct (mi_map _ Hinv _ _ Hj) as (en&Hen&<-). destruct (mi_new _ Hinv _ _ _ Hp eq_refl) as (en'&Hen'&<-). congruence.
  - intros s Hs. by apply elem_of_nil in Hs.
Qed.

(** Of a goroutine that runs a session's Close. *)
Lemma running_closing c i p s o :
  managerInv c → goroutines c !! i = Some p → closing p = Some s → objs (mgr c) !! s = Some o → sphase o = Closing.
Proof.
  intros Hinv Hi Hc Ho. pose proof (mi_closing _ Hinv _ _ Ho) as H.
  apply list_elem_of_lookup_2 in Hi.
  destruct (sphase o); [|done|]; apply (sel_none _ _ _ H) in Hi; apply bool_decide_eq_false in Hi; done.
Qed.

Lemma managerInv_terminal c i s k o :
  managerInv c → goroutines c !! i = Some (CloseTerminal s k) → objs (mgr c) !! s = Some o →
  managerInv {| mgr := removeEntry (sid o) (sentry o) (mgr c); goroutines := <[i := CloseDone s k]> (goroutines c) |}.
Proof.
  intros Hinv Hi Ho. pose proof (list_elem_of_lookup_2 _ _ _ Hi) as Hp.
  pose proof (running_closing _ _ _ _ _ Hinv Hi eq_refl Ho) as Hph.
  destruct (removeEntry_entries (sid o) (sentry o) (mgr c)) as [Ee Eo].
  eapply managerInv_shrink; try done.
  - intros j x Hx. by apply removeEntry_lookup in Hx as [? _].
  - intros x y Hy Hop [Hs|[[Hm Hes] Hg]]; [by left|]. exfalso. apply Hg, removeEntry_lookup. split; [done|].
    intros [_ He]. assert (x = s) as -> by (eapply (mi_uniq _ Hinv); eauto). congruence.
  - intros j x Hx. by left.
  - intros x k' y [= <- <-] Hy [_ Hne]%removeEntry_lookup. rewrite Ho in Hy. injection Hy as ->. by destruct Hne.
  - intros x Hx. eapply (mi_holds _ Hinv); [exact Hp|done].
Qed.

(** Deleting an id whose session the goroutine takes over. *)
Lemma managerInv_take c i p id e s k :
  managerInv c → goroutines c !! i = Some p → holds p = [] → creates p = None → closing p = None →
  sessions (mgr c) !! id = Some e → entrySession (mgr c) e = Some s → afterHolds k = [] → afterEntry k = None →
  managerInv {| mgr := set_sessions (delete id (sessions (mgr c))) (mgr c); goroutines := <[i := CloseCall s k]> (goroutines c) |}.
Proof.
  intros Hinv Hi Hh Hc Hcl Hid He Hk Hk'. eapply managerInv_shrink; try done.
  - intros j x. cbn. by intros [_ ?]%lookup_delete_Some.
  - intros x o Ho Hop [Hs|[[Hm Hes] Hg]]; [rewrite Hh in Hs; by apply elem_of_nil in Hs|]. left.
    cbn in Hg. destruct (decide (sid o = id)) as [Hj|Hj]; [|by rewrite lookup_delete_ne in Hg].
    assert (x = s) as ->; [|by left]. rewrite Hj in Hm. congruence.
  - unfold reserves. by rewrite Hc.
  - cbn. by rewrite Hk'.
  - intros x Hx. cbn in Hx. rewrite Hk in Hx. apply list_elem_of_singleton in Hx as ->.
    destruct (mi_entry _ Hinv _ _ He) as (o&Ho&_). by eapply lookup_lt_Some.
Qed.

Lemma managerInv_drop c i id e r :
  managerInv c → goroutines c !! i = Some (CloseLookup id) →
  sessions (mgr c) !! id = Some e → entrySession (mgr c) e = None →
  managerInv {| mgr := set_sessions (delete id (sessions (mgr c))) (mgr c); goroutines := <[i := Done r]> (goroutines c) |}.
Proof.
  intros Hinv Hi Hid He. eapply managerInv_shrink; try done.
  - intros j x. cbn. by intros [_ ?]%lookup_delete_Some.
  - intros x o Ho Hop [Hs|[[Hm Hes] Hg]]; [by apply elem_of_nil in Hs|]. exfalso.
    cbn in Hg. destruct (decide (sid o = id)) as [Hj|Hj]; [|by rewrite lookup_delete_ne in Hg]. congruence.
  - intros x Hx. by apply elem_of_nil in Hx.
Qed.

Lemma managerInv_clear c i l :
  managerInv c → goroutines c !! i = Some CloseAllSection → l ≡ₚ collected (mgr c) →
  managerInv {| mgr := set_sessions ∅ (mgr c); goroutines := <[i := CloseAllNext l []]> (goroutines c) |}.
Proof.
  intros Hinv Hi Hl. eapply managerInv_shrink; try done.
  - intros x o Ho Hop [Hs|[[Hm Hes] Hg]]; [by apply elem_of_nil in Hs|]. left. cbn. rewrite Hl.
    apply elem_of_collected. eauto.
  - intros x Hx. cbn in Hx. rewrite Hl in Hx. apply elem_of_collected in Hx as (id&e&_&He).
    destruct (mi_entry _ Hinv _ _ He) as (o&Ho&_). by eapply lookup_lt_Some.
Qed.

Lemma managerInv_call c i s k : 
  managerInv c → goroutines c !! i = Some (CloseCall s k) →
  (∀ o, objs (mgr c) !! s = Some o → sphase o ≠ Open) → ∀ err,
  managerInv {| mgr := mgr c; goroutines := <[i := resume k err]> (goroutines c) |}.
Proof.
  intros Hinv Hi Ho err. destruct (resume_props k err) as (Hh&Hc&Hcl&Hn&Hins&_).
  eapply managerInv_same; try done.
  - intros x o Hx Hop. rewrite Hh. cbn. intros [->|?]%elem_of_cons; [by destruct (Ho _ Hx)|done].
  - intros j x Hr. left. unfold reserves in *. by rewrite Hc.
  - by rewrite Hc.
  - rewrite Hh. intros x Hx. eapply (mi_holds _ Hinv); [by eapply list_elem_of_lookup_2|]. cbn. by right.
Qed.

Lemma managerInv_view_run c i p p' m' :
  managerInv c → goroutines c !! i = Some p → sessions m' = sessions (mgr c) → entries m' = entries (mgr c) →
  (∀ s, view <$> objs m' !! s = view <$> objs (mgr c) !! s) →
  holds p = [] → creates p = None → closing p = None → holds p' = [] → creates p' = None → closing p' = None →
  managerInv {| mgr := m'; goroutines := <[i := p']> (goroutines c) |}.
Proof.
  intros Hinv Hi Es Ee Hv ??????.
  by eapply (managerInv_reply {| mgr := m'; goroutines := goroutines c |} i p p'); [apply managerInv_view|..].
Qed.

Lemma alter_view f (s x : nat) (l : list sessionObj) :
  (∀ o, view (f o) = view o) → view <$> alter f s l !! x = view <$> l !! x.
Proof.
  intros Hf. rewrite list_lookup_alter. case_decide as Hd; [subst|done].
  destruct (l !! x); simpl; [by rewrite Hf|done].
Qed.

Lemma managerInv_run ttl i a c c' : run ttl i a c = Some c' → managerInv c → managerInv c'.
Proof.
  unfold run. destruct (goroutines c !! i) as [p|] eqn:Hi; [|done].
  destruct (goroutineStep ttl a p (mgr c)) as [[m' p']|] eqn:Hstep; [|done]. intros [= <-] Hinv.
  destruct p as [r|id|id e|id e|id e s|s|s|id s|id|s|id| |rest errs|s k|s k|s k]; cbn [goroutineStep] in Hstep.
  - done.
  - destruct (sessions (mgr c) !! id) as [e|] eqn:Hid; injection Hstep as <- <-.
    + by eapply managerInv_reply.
    + by apply managerInv_reserve.
  - destruct a; injection Hstep as <- <-; try (eapply managerInv_new; eauto).
    eapply managerInv_same; try done; [by left|]. intros x Hx. by apply elem_of_nil in Hx.
  - injection Hstep as <- <-. by apply managerInv_remove.
  - case_bool_decide as Hcur; injection Hstep as <- <-.
    + eapply managerInv_install; try done. destruct (0 <? ttl)%Z; auto.
    + pose proof (list_elem_of_lookup_2 _ _ _ Hi) as Hp. destruct (mi_install _ Hinv _ _ _ Hp) as (o&Ho&Hse&Hsi).
      eapply managerInv_same; try done.
      * intros j x [= ->]. right. intros Hj. apply Hcur.
        destruct (mi_map _ Hinv _ _ Hj) as (en&Hen&<-). destruct (mi_new _ Hinv _ _ _ Hp eq_refl) as (en'&Hen'&<-). congruence.
      * intros x Hx%list_elem_of_singleton. subst. by eapply lookup_lt_Some.
  - injection Hstep as <- <-. eapply managerInv_view_run; try done. intros x. by apply alter_view.
  - injection Hstep as <- <-. eapply managerInv_view_run; try done. intros x. by apply alter_view.
  - destruct (sessions (mgr c) !! id) as [e|] eqn:Hid; [case_bool_decide as He|]; injection Hstep as <- <-.
    + by eapply managerInv_take.
    + by eapply managerInv_reply.
    + by eapply managerInv_reply.
  - destruct (sessions (mgr c) !! id) as [e|]; [destruct (entrySession (mgr c) e)|]; injection Hstep as <- <-; by eapply managerInv_reply.
  - injection Hstep as <- <-. eapply managerInv_view_run; try done. intros x. by apply alter_view.
  - destruct (sessions (mgr c) !! id) as [e|] eqn:Hid; [destruct (entrySession (mgr c) e) eqn:He|]; injection Hstep as <- <-.
    + by eapply managerInv_take.
    + by eapply managerInv_drop.
    + by eapply managerInv_reply.
  - set (l := match a with Order l => l | _ => collected (mgr c) end) in Hstep.
    case_bool_decide as Hl; [|done]. injection Hstep as <- <-. by apply managerInv_clear.
  - destruct rest as [|s rest]; injection Hstep as <- <-; [by eapply managerInv_reply|].
    eapply managerInv_same; try done. intros x Hx. eapply (mi_holds _ Hinv); [by eapply list_elem_of_lookup_2|done].
  - destruct (objs (mgr c) !! s) as [o|] eqn:Ho; [|done].
    destruct (sphase o) eqn:Hph; [|done|]; injection Hstep as <- <-.
    + eapply managerInv_phase; try done; [by left|..]; cbn; intros x; [intros [->|?]%elem_of_cons; auto|by right].
    + eapply managerInv_call; try done. intros y Hy. congruence.
  - destruct (objs (mgr c) !! s) as [o|] eqn:Ho; [|done]. injection Hstep as <- <-. by apply managerInv_terminal.
  - destruct (objs (mgr c) !! s) as [o|] eqn:Ho; [|done]. injection Hstep as <- <-.
    destruct (resume_props k (closeAnswer a)) as (Hh&Hc&Hcl&Hn&Hins&Hd).
    eapply managerInv_phase; try done; [right; eauto|..]; intros x; rewrite Hh; auto.
Qed.

(** A goroutine is added. *)
Lemma managerInv_start c p :
  managerInv c → creates p = None → closing p = None → (∀ s, s ∈ holds p → s < length (objs (mgr c))) →
  managerInv (start p c).
Proof.
  intros [H1 H2 H3 H4 H5 H6 H7 H8 H9 H10 H11 H12 H13] Hc Hcl Hh.
  assert (Hin : ∀ q, q ∈ goroutines c ++ [p] ↔ q ∈ goroutines c ∨ q = p)
    by (intros q; by rewrite elem_of_app, list_elem_of_singleton).
  assert (Hr : ∀ e, sel (reservesB e) (goroutines c ++ [p]) = sel (reservesB e) (goroutines c)).
  { intros e. rewrite sel_app. cbn. unfold reservesB, reserves. rewrite Hc. cbn. by rewrite app_nil_r. }
  assert (Hs : ∀ s, sel (closesB s) (goroutines c ++ [p]) = sel (closesB s) (goroutines c)).
  { intros s. rewrite sel_app. cbn. unfold closesB. rewrite Hcl. cbn. by rewrite app_nil_r. }
  split; cbn [mgr goroutines start]; auto.
  - intros id e Hid He. destruct (H2 _ _ Hid He) as (q&?&?). exists q. rewrite Hin. auto.
  - intros s o Ho Hop. destruct (H6 s o Ho Hop) as [?|(q&?&?)]; [by left|right]. exists q. rewrite Hin. auto.
  - intros s o. rewrite Hs. apply H7.
  - intros s o Ho [?|(k&[?| <-]%Hin)]; [eapply H8; eauto|eapply H8; eauto|done].
  - intros e. rewrite Hr. apply H9.
  - intros q id e [?| ->]%Hin Hq; [eauto|congruence].
  - intros id e s [?| <-]%Hin; [eauto|done].
  - intros q s [?| ->]%Hin Hq; eauto.
  - intros q s [?| ->]%Hin Hq; [eauto|congruence].
Qed.

Lemma managerInv_step ttl c c' : step ttl c c' → managerInv c → managerInv c'.
Proof.
  intros [i a c1 H|p H|s H|s c1 H] Hinv.
  - by eapply managerInv_run.
  - apply managerInv_start; [done|by destruct p..|]. intros s Hs. destruct p; try discriminate H; by apply elem_of_nil in Hs.
  - apply managerInv_start; [done..|]. by intros x ->%list_elem_of_singleton.
  - unfold fire in H. destruct (objs (mgr c) !! s) as [o|] eqn:Ho; [|done].
    destruct (sexpiry o); try done; injection H as <-.
    all: eapply (managerInv_start {| mgr := _; goroutines := goroutines c |}); [|done..|intros x Hx; by apply elem_of_nil in Hx].
    all: apply managerInv_view; [done..|]; intros x; cbn; destruct (decide (s = x)) as [<-|Hne];
      [rewrite list_lookup_insert_eq by (by eapply lookup_lt_Some); by rewrite Ho|by rewrite list_lookup_insert_ne].
Qed.

Lemma reachable_managerInv ttl c : reachable ttl c → managerInv c.
Proof.
  intros Hr. unfold reachable in Hr. pattern c. eapply rtc_ind_r; [| |done].
  - split; cbn; try done; try (by left).
    all: intros; match goal with H : _ ∈ [] |- _ => by apply elem_of_nil in H | _ => idtac end.
  - intros y z _ Hs Hy. by eapply managerInv_step.
Qed.

(** ** Properties *)

Definition returned (p : pc) : Prop := match p with Done _ => True | _ => False end.

(** All calls have returned and nothing is closing. *)
Definition quiescent (c : system) : Prop := Forall returned (goroutines c).

Definition returnedB (p : pc) : bool := match p with Done _ => true | _ => false end.

Lemma returnedB_quiescent c : forallb returnedB (goroutines c) = true → quiescent c.
Proof. unfold quiescent. rewrite forallb_Forall. intros H. eapply Forall_impl; [exact H|]. by intros []. Qed.

Lemma quiescent_none c p : quiescent c → p ∈ goroutines c → holds p = [] ∧ creates p = None ∧ closing p = None.
Proof. unfold quiescent. rewrite Forall_forall. intros H Hp. specialize (H p Hp). by destruct p. Qed.

(** A current entry whose session is known: they belong together. *)
Lemma current_session c id e s :
  managerInv c → sessions (mgr c) !! id = Some e → entrySession (mgr c) e = Some s →
  ∃ o, objs (mgr c) !! s = Some o ∧ sid o = id ∧ sentry o = e.
Proof.
  intros Hinv Hid He. destruct (mi_entry _ Hinv _ _ He) as (o&Ho&Hs). exists o. split_and!; [done| |done].
  destruct (mi_obj _ Hinv _ _ Ho) as (en&Hen&<-). destruct (mi_map _ Hinv _ _ Hid) as (en'&Hen'&<-). congruence.
Qed.

Lemma quiescent_entry c id e :
  managerInv c → quiescent c → sessions (mgr c) !! id = Some e →
  ∃ s o, entrySession (mgr c) e = Some s ∧ objs (mgr c) !! s = Some o ∧ sid o = id ∧ sentry o = e ∧ sphase o = Open.
Proof.
  intros Hinv Hq Hid. destruct (entrySession (mgr c) e) as [s|] eqn:He.
  - destruct (current_session _ _ _ _ Hinv Hid He) as (o&Ho&Hsi&Hse). exists s, o. split_and!; try done.
    pose proof (mi_closing _ Hinv _ _ Ho) as Hc. destruct (sphase o) eqn:Hph; [done| |].
    + destruct Hc as (p&Hsel).
      assert (p ∈ sel (closesB s) (goroutines c)) as [Hp Hin]%elem_of_sel by (rewrite Hsel; by left).
      apply bool_decide_eq_true_1 in Hp. destruct (quiescent_none _ _ Hq Hin) as (_&_&?). congruence.
    + destruct (mi_gone _ Hinv _ _ Ho (or_introl Hph)). congruence.
  - destruct (mi_reserved _ Hinv _ _ Hid He) as (p&Hin&Hr). destruct (quiescent_none _ _ Hq Hin) as (_&Hc&_).
    unfold reserves in Hr. by rewrite Hc in Hr.
Qed.

(** C2. Once all calls have returned, in whatever order their sections, expiry
    timers and self-closing sessions interleaved: every id in the map has an
    open session, its own, and every session that is not in the map is closed.
    No reservation is left behind and no session leaks. *)
Theorem manager_quiescent (ttl : Z) (c : system) :
  reachable ttl c → quiescent c →
  (∀ id e, sessions (mgr c) !! id = Some e →
     ∃ s o, entrySession (mgr c) e = Some s ∧ objs (mgr c) !! s = Some o ∧ sid o = id ∧ sphase o = Open) ∧
  (∀ s o, objs (mgr c) !! s = Some o →
     (sessions (mgr c) !! sid o = Some (sentry o) ∧ entrySession (mgr c) (sentry o) = Some s) ∨ sphase o = Closed).
Proof.
  intros Hr Hq. pose proof (reachable_managerInv _ _ Hr) as Hinv. split.
  - intros id e Hid. destruct (quiescent_entry _ _ _ Hinv Hq Hid) as (s&o&?&?&?&_&?). eauto 10.
  - intros s o Ho. destruct (sphase o) eqn:Hph; [left|left|by right].
    + destruct (mi_open _ Hinv _ _ Ho Hph) as [Hi|(p&Hin&Hs)]; [done|].
      destruct (quiescent_none _ _ Hq Hin) as (Hh&_&_). rewrite Hh in Hs. by apply elem_of_nil in Hs.
    + pose proof (mi_closing _ Hinv _ _ Ho) as Hc. rewrite Hph in Hc. destruct Hc as (p&Hsel).
      assert (p ∈ sel (closesB s) (goroutines c)) as [Hp Hin]%elem_of_sel by (rewrite Hsel; by left).
      apply bool_decide_eq_true_1 in Hp. destruct (quiescent_none _ _ Hq Hin) as (_&_&?). congruence.
Qed.

(** Run goroutine [i] once per answer. *)
Fixpoint runs (ttl : Z) (i : nat) (answers : list answer) (c : system) : option system :=
  match answers with
  | [] => Some c
  | a :: rest => match run ttl i a c with Some c' => runs ttl i rest c' | None => None end
  end.

Lemma answers_steps ttl i answers c c' : runs ttl i answers c = Some c' → rtc (step ttl) c c'.
Proof.
  revert c; induction answers as [|a answers IH]; intros c; cbn [runs]; [intros [= ->]; apply rtc_refl|].
  destruct (run ttl i a c) as [c1|] eqn:E; [|done]. intros H. eapply rtc_l; [by eapply step_run|by apply IH].
Qed.

(** [CloseAll] runs while a [Create] is between its reservation and its
    installation. *)
Definition closeAllDuringCreate : option system :=
  let c := start CloseAllSection (start (CreateReserve §"kitchen") initial) in
  match runs 1 0 [Succeeds; Succeeds] c with
  | Some c => match runs 1 1 [Succeeds; Succeeds] c with
              | Some c => runs 1 0 (replicate 4 Succeeds) c
              | None => None
              end
  | None => None
  end.

Lemma closeAllDuringCreate_reachable c : closeAllDuringCreate = Some c → reachable 1 c.
Proof.
  unfold closeAllDuringCreate, reachable. cbn zeta. set (c0 := start CloseAllSection _).
  assert (rtc (step 1) initial c0) as H0.
  { do 2 (eapply rtc_r; [|by apply step_call]). apply rtc_refl. }
  repeat match goal with |- context [match ?r with Some _ => _ | None => None end] => destruct r eqn:?; [|done] end.
  intros. repeat (etrans; [|eapply answers_steps; eassumption]). exact H0.
Qed.

Definition closeAllDuringCreate_ok : bool :=
  match closeAllDuringCreate with
  | Some c => bool_decide (goroutines c = [Done (ReplyErr ErrSessionNotFound); Done (ReplyJoined [])]) &&
              bool_decide (sessions (mgr c) = ∅)
  | None => false
  end.

Lemma manager_quiescent_witness :
  ∃ c, closeAllDuringCreate = Some c ∧ goroutines c = [Done (ReplyErr ErrSessionNotFound); Done (ReplyJoined [])] ∧
       ∀ s o, objs (mgr c) !! s = Some o → sphase o = Closed.
Proof.
  assert (closeAllDuringCreate_ok = true) as Hok by (vm_compute; reflexivity). unfold closeAllDuringCreate_ok in Hok.
  destruct closeAllDuringCreate as [c|] eqn:E; [|discriminate Hok]. exists c.
  apply andb_true_iff in Hok as [Hg Hm]. apply bool_decide_eq_true_1 in Hg, Hm.
  split; [reflexivity|]. split; [exact Hg|]. intros s o Ho.
  assert (quiescent c) as Hq by (unfold quiescent; rewrite Hg; repeat constructor).
  destruct (proj2 (manager_quiescent 1 c (closeAllDuringCreate_reachable c E) Hq) s o Ho) as [[H _]|H]; [|exact H].
  rewrite Hm in H. discriminate H.
Defined.

(** *** The map only grows by a reservation *)

Lemma step_entries ttl c c' :
  step ttl c c' →
  length (entries (mgr c)) < length (entries (mgr c')) ∨
  (length (entries (mgr c)) = length (entries (mgr c')) ∧
   ∀ id e, sessions (mgr c') !! id = Some e → sessions (mgr c) !! id = Some e).
Proof.
  intros [i a c1 H|p H|s H|s c1 H].
  - unfold run in H. destruct (goroutines c !! i) as [p|] eqn:Hi; [|done].
    destruct (goroutineStep ttl a p (mgr c)) as [[m' p']|] eqn:Hstep; [|done]. injection H as <-. cbn [mgr].
    destruct p; cbn [goroutineStep] in Hstep;
      repeat match type of Hstep with
        | Some _ = Some _ => injection Hstep as <- <-
        | None = Some _ => discriminate Hstep
        | context [match ?x with _ => _ end] => destruct x eqn:?
        end; try (right; split; [done|done]).
    all: first [left; cbn; rewrite length_app; simpl; lia|right; rewrite ?(proj1 (removeEntry_entries _ _ _));
      split; [cbn; rewrite ?length_alter; done|]].
    all: first [done|by intros ?? [? _]%removeEntry_lookup|cbn; by intros ?? [_ ?]%lookup_delete_Some].
  - by right.
  - by right.
  - right. unfold fire in H. destruct (objs (mgr c) !! s) as [o|]; [|done]. by destruct (sexpiry o); try done; injection H as <-.
Qed.

Lemma steps_entries ttl c c' :
  rtc (step ttl) c c' →
  length (entries (mgr c)) ≤ length (entries (mgr c')) ∧
  (length (entries (mgr c)) = length (entries (mgr c')) →
   ∀ id e, sessions (mgr c') !! id = Some e → sessions (mgr c) !! id = Some e).
Proof.
  induction 1 as [c|c c1 c2 Hs _ [IH1 IH2]]; [done|]. destruct (step_entries _ _ _ Hs) as [Hl|[Hl Hsub]].
  - split; [lia|]. intros. lia.
  - split; [lia|]. intros Heq id e Hid. apply Hsub, IH2; [lia|done].
Qed.

(** C21. [CloseAll] is final for every [Create] that has reserved before it:
    provided no reservation is made after its section, then once all calls have
    returned the map is empty and every session ever made is closed, also those
    whose [Create] was in flight.  (The manager does not refuse a [Create] that
    reserves later; [create_after_close_all] below is one.) *)
Theorem manager_close_all (ttl : Z) (c c1 c2 : system) (i : nat) (a : answer) :
  reachable ttl c → goroutines c !! i = Some CloseAllSection → run ttl i a c = Some c1 →
  rtc (step ttl) c1 c2 → length (entries (mgr c2)) = length (entries (mgr c)) → quiescent c2 →
  sessions (mgr c2) = ∅ ∧ Forall (λ o, sphase o = Closed) (objs (mgr c2)).
Proof.
  intros Hr Hi Hrun Hs Hlen Hq.
  assert (Hm : sessions (mgr c1) = ∅ ∧ length (entries (mgr c1)) = length (entries (mgr c))).
  { unfold run in Hrun. rewrite Hi in Hrun. cbn [goroutineStep] in Hrun. case_bool_decide; [|done]. by injection Hrun as <-. }
  destruct Hm as [Hm Hl]. destruct (steps_entries _ _ _ Hs) as [_ Hsub].
  assert (sessions (mgr c2) = ∅) as He.
  { apply map_eq. intros id. rewrite lookup_empty. apply eq_None_not_Some. intros [e Hid].
    apply Hsub in Hid; [|lia]. by rewrite Hm in Hid. }
  split; [done|]. assert (reachable ttl c2) as Hr2.
  { unfold reachable in *. etrans; [exact Hr|]. eapply rtc_l; [by eapply step_run|done]. }
  apply Forall_lookup. intros s o Ho. destruct (proj2 (manager_quiescent _ _ Hr2 Hq) s o Ho) as [[H _]|?]; [|done].
  by rewrite He in H.
Qed.

(** A Create whose reservation comes after CloseAll's section keeps its session. *)
Definition createAfterCloseAll : option system :=
  match runs 1 1 [Succeeds; Succeeds] (start CloseAllSection (start (CreateReserve §"kitchen") initial)) with
  | Some c => runs 1 0 (replicate 5 Succeeds) c
  | None => None
  end.

Example create_after_close_all :
  match createAfterCloseAll with
  | Some c => goroutines c = [Done ReplyOk; Done (ReplyJoined [])] ∧ sessions (mgr c) !! §"kitchen" = Some 0 ∧
              map sphase (objs (mgr c)) = [Open]
  | None => False
  end.
Proof. vm_compute. split_and!; reflexivity. Qed.

(** The same run, with the systems before and after the section of CloseAll. *)
Definition closeAllRun : option (system * system * system) :=
  match runs 1 0 [Succeeds; Succeeds] (start CloseAllSection (start (CreateReserve §"kitchen") initial)) with
  | Some c => match run 1 1 Succeeds c with
              | Some c1 => match runs 1 1 [Succeeds] c1 with
                           | Some c2 => match runs 1 0 (replicate 4 Succeeds) c2 with
                                        | Some c3 => Some (c, c1, c3)
                                        | None => None
                                        end
                           | None => None
                           end
              | None => None
              end
  | None => None
  end.

Lemma closeAllRun_steps c c1 c3 :
  closeAllRun = Some (c, c1, c3) → reachable 1 c ∧ run 1 1 Succeeds c = Some c1 ∧ rtc (step 1) c1 c3.
Proof.
  unfold closeAllRun. set (c0 := start CloseAllSection _).
  assert (reachable 1 c0) as H0.
  { do 2 (eapply rtc_r; [|by apply step_call]). apply rtc_refl. }
  destruct (runs 1 0 _ c0) as [d|] eqn:E0; [|done]. destruct (run 1 1 _ d) as [d1|] eqn:E1; [|done].
  destruct (runs 1 1 _ d1) as [d2|] eqn:E2; [|done]. destruct (runs 1 0 _ d2) as [d3|] eqn:E3; [|done].
  intros [= <- <- <-]. split_and!; [|done|].
  - unfold reachable in *. etrans; [exact H0|]. by eapply answers_steps.
  - etrans; eapply answers_steps; eassumption.
Qed.

Definition closeAllRun_ok : bool :=
  match closeAllRun with
  | Some (c, c1, c3) =>
      bool_decide (goroutines c !! 1 = Some CloseAllSection) &&
      bool_decide (length (entries (mgr c3)) = length (entries (mgr c))) &&
      forallb returnedB (goroutines c3) && bool_decide (length (objs (mgr c3)) = 1)
  | None => false
  end.

Lemma manager_close_all_witness :
  ∃ c c1 c3, closeAllRun = Some (c, c1, c3) ∧ length (objs (mgr c3)) = 1 ∧ Forall (λ o, sphase o = Closed) (objs (mgr c3)).
Proof.
  assert (closeAllRun_ok = true) as Hok by (vm_compute; reflexivity). unfold closeAllRun_ok in Hok.
  destruct closeAllRun as [[[c c1] c3]|] eqn:E; [|discriminate Hok].
  destruct (closeAllRun_steps _ _ _ E) as (Hr&Hrun&Hs).
  apply andb_true_iff in Hok as [[[Hi Hlen]%andb_true_iff Hq]%andb_true_iff Ho].
  apply bool_decide_eq_true_1 in Hi, Hlen, Ho. apply returnedB_quiescent in Hq.
  exists c, c1, c3. split; [reflexivity|]. split; [exact Ho|].
  exact (proj2 (manager_close_all 1 c c1 c3 1 Succeeds Hr Hi Hrun Hs Hlen Hq)).
Defined.

(** Who may take an id out of the map: [Close] of that id, [CloseAll], the
    expiry of the very session installed, the failed [Create] that reserved it,
    or the closing of the session its current entry was reserved for.  A late
    callback of an earlier session never removes a later one. *)
Theorem manager_entry_removal (ttl : Z) (c c' : system) (i : nat) (a : answer) (id : gostring) (e : nat) :
  reachable ttl c → run ttl i a c = Some c' →
  sessions (mgr c) !! id = Some e → sessions (mgr c') !! id ≠ Some e →
  sessions (mgr c') !! id = None ∧
  (goroutines c !! i = Some (CloseLookup id) ∨
   goroutines c !! i = Some CloseAllSection ∨
   (∃ s, goroutines c !! i = Some (Expire id s) ∧ entrySession (mgr c) e = Some s) ∨
   goroutines c !! i = Some (CreateRemove id e) ∨
   (∃ s k o, goroutines c !! i = Some (CloseTerminal s k) ∧ objs (mgr c) !! s = Some o ∧ sid o = id ∧ sentry o = e)).
Proof.
  intros Hr Hrun Hid Hne. unfold run in Hrun. destruct (goroutines c !! i) as [p|]; [|done].
  destruct (goroutineStep ttl a p (mgr c)) as [[m' p']|] eqn:Hstep; [|done]. injection Hrun as <-. cbn [mgr] in *.
  assert (Hrem : ∀ j x, sessions (removeEntry j x (mgr c)) !! id ≠ Some e → sessions (removeEntry j x (mgr c)) !! id = None ∧ j = id ∧ x = e).
  { intros j x Hx. destruct (decide (id = j ∧ e = x)) as [[<- <-]|Hn]; [|by destruct Hx; apply removeEntry_lookup].
    split; [|done]. apply eq_None_not_Some. intros [y Hy]. apply Hx. rewrite Hy. apply removeEntry_lookup in Hy as [Hy _]. congruence. }
  assert (Hdel : ∀ j, delete j (sessions (mgr c)) !! id ≠ Some e → delete j (sessions (mgr c)) !! id = None ∧ j = id).
  { intros j Hj. destruct (decide (j = id)) as [->|Hn]; [by rewrite lookup_delete_eq|]. by rewrite lookup_delete_ne in Hj. }
  destruct p; cbn [goroutineStep] in Hstep;
    repeat match type of Hstep with
      | Some _ = Some _ => injection Hstep as <- <-
      | None = Some _ => discriminate Hstep
      | context [match ?x with _ => _ end] => destruct x eqn:?
      end; try done; cbn in Hne.
  - destruct (decide (id0 = id)) as [->|Hn]; [congruence|]. by rewrite lookup_insert_ne in Hne.
  - destruct (Hrem _ _ Hne) as (?&->&->). auto 10.
  - destruct (Hdel _ Hne) as [? ->]. split; [done|]. right; right; left. exists s. split; [done|].
    match goal with H : bool_decide _ = true |- _ => apply bool_decide_eq_true_1 in H end. congruence.
  - destruct (Hdel _ Hne) as [? ->]. auto.
  - destruct (Hdel _ Hne) as [? ->]. auto.
  - split; [done|]. auto.
  - destruct (Hrem _ _ Hne) as (?&<-&<-). split; [done|]. do 4 right. eauto 10.
Qed.

(** A first session is closed and its id created anew before the first one's
    callback runs: the callback leaves the new entry alone. *)
Definition recreated : option system :=
  let id := §"kitchen" in
  match runs 0 0 (replicate 3 Succeeds) (start (CreateReserve id) initial) with
  | Some c => match runs 0 1 [Succeeds; Succeeds] (start (CloseLookup id) c) with
              | Some c => runs 0 2 (replicate 3 Succeeds) (start (CreateReserve id) c)
              | None => None
              end
  | None => None
  end.

Lemma recreated_reachable c : recreated = Some c → reachable 0 c.
Proof.
  unfold recreated, reachable. cbn zeta.
  destruct (runs 0 0 _ _) as [c1|] eqn:E1; [|done]. destruct (runs 0 1 _ _) as [c2|] eqn:E2; [|done]. intros E3.
  eapply rtc_l; [apply (step_call _ _ (CreateReserve §"kitchen")); done|]. etrans; [eapply answers_steps, E1|].
  eapply rtc_l; [apply (step_call _ _ (CloseLookup §"kitchen")); done|]. etrans; [eapply answers_steps, E2|].
  eapply rtc_l; [apply (step_call _ _ (CreateReserve §"kitchen")); done|]. by eapply answers_steps.
Qed.

Definition recreated_ok : bool :=
  match recreated with
  | Some c =>
      bool_decide (goroutines c !! 1 = Some (CloseTerminal 0 AfterClose)) &&
      bool_decide (sessions (mgr c) !! §"kitchen" = Some 1) &&
      bool_decide (sentry <$> objs (mgr c) !! 0 = Some 0) && bool_decide (is_Some (run 0 1 Succeeds c))
  | None => false
  end.

Lemma manager_entry_removal_witness :
  ∃ c c', recreated = Some c ∧ goroutines c !! 1 = Some (CloseTerminal 0 AfterClose) ∧
    run 0 1 Succeeds c = Some c' ∧ sessions (mgr c') !! §"kitchen" = Some 1.
Proof.
  assert (recreated_ok = true) as Hok by (vm_compute; reflexivity). unfold recreated_ok in Hok.
  destruct recreated as [c|] eqn:E; [|discriminate Hok].
  apply andb_true_iff in Hok as [[[Hg Hs]%andb_true_iff Ho]%andb_true_iff Hrun].
  apply bool_decide_eq_true_1 in Hg, Hs, Ho, Hrun. destruct Hrun as [c' Er].
  exists c, c'. split; [reflexivity|]. split; [exact Hg|]. split; [exact Er|].
  destruct (decide (sessions (mgr c') !! §"kitchen" = Some 1)) as [H|H]; [exact H|].
  destruct (manager_entry_removal 0 c c' 1 Succeeds §"kitchen" 1 (recreated_reachable c E) Er Hs H) as [_ Hwho].
  rewrite Hg in Hwho. destruct Hwho as [Hw|[Hw|[(s&Hw&_)|[Hw|(s&k&o&Hw&Ho'&_&He)]]]]; try discriminate Hw.
  injection Hw as <- _. rewrite Ho' in Ho. cbn in Ho. injection Ho as Ho. rewrite Ho in He. discriminate He.
Defined.

(** *** Sequential use: a finite map *)

(** One call running alone, with at most [fuel] steps; [ans] answers for the
    environment at each step. *)
Fixpoint exec (ttl : Z) (fuel : nat) (ans : pc → answer) (p : pc) (m : manager) : option (manager * reply) :=
  match p with
  | Done r => Some (m, r)
  | _ =>
      match fuel with
      | O => None
      | S f => match goroutineStep ttl (ans p) p m with
               | Some (m', p') => exec ttl f ans p' m'
               | None => None
               end
      end
  end.

(** The abstraction: ids to sessions. *)
Definition abs (m : manager) : gmap gostring nat := omap (entrySession m) (sessions m).

Inductive call := CallCreate (id : gostring) | CallMarkConnected (id : gostring) | CallClose (id : gostring) | CallCloseAll.

Definition callPc (k : call) : pc :=
  match k with
  | CallCreate id => CreateReserve id
  | CallMarkConnected id => MarkLookup id
  | CallClose id => CloseLookup id
  | CallCloseAll => CloseAllSection
  end.

(** What the environment answers during one call: does NewSession succeed,
    what does closing a session return, in which order does CloseAll iterate. *)
Record environment := { newSucceeds : bool; closeFails : nat → bool; order : list nat }.

Definition answers (env : environment) (p : pc) : answer :=
  match p with
  | CreateNew _ _ => if newSucceeds env then Succeeds else Fails
  | CloseDone s _ => if closeFails env s then Fails else Succeeds
  | CloseAllSection => Order (order env)
  | _ => Succeeds
  end.

Definition closeResult (env : environment) (s : nat) : option managerError :=
  if closeFails env s then Some ErrCloseSession else None.

(** The specification: a map, the next session and the reply. *)
Definition spec (env : environment) (k : call) (fresh : nat) (m : gmap gostring nat) : gmap gostring nat * reply :=
  match k with
  | CallCreate id =>
      match m !! id with
      | Some _ => (m, ReplyErr ErrSessionExists)
      | None => if newSucceeds env then (<[id := fresh]> m, ReplyOk) else (m, ReplyErr ErrNewSession)
      end
  | CallMarkConnected id => (m, match m !! id with Some _ => ReplyOk | None => ReplyErr ErrSessionNotFound end)
  | CallClose id =>
      match m !! id with
      | Some s => (delete id m, match closeResult env s with Some e => ReplyErr e | None => ReplyOk end)
      | None => (m, ReplyErr ErrSessionNotFound)
      end
  | CallCloseAll => (∅, ReplyJoined (map (closeResult env) (order env)))
  end.

Lemma abs_lookup m id : abs m !! id = match sessions m !! id with Some e => entrySession m e | None => None end.
Proof. unfold abs. rewrite lookup_omap. by destruct (sessions m !! id). Qed.

Lemma abs_quiescent c id e :
  managerInv c → quiescent c → sessions (mgr c) !! id = Some e → ∃ s, abs (mgr c) !! id = Some s ∧ entrySession (mgr c) e = Some s.
Proof.
  intros Hinv Hq Hid. destruct (quiescent_entry _ _ _ Hinv Hq Hid) as (s&o&He&_). exists s. by rewrite abs_lookup, Hid.
Qed.

(** Closing an open session that is no longer in the map, alone. *)
Lemma exec_close ttl env fuel s k m o :
  objs m !! s = Some o → sphase o = Open → sessions m !! sid o ≠ Some (sentry o) → 3 ≤ fuel →
  ∃ o', sphase o' = Closed ∧
  exec ttl fuel (answers env) (CloseCall s k) m =
  exec ttl (fuel - 3) (answers env) (resume k (closeResult env s)) (set_objs (<[s := o']> (objs m)) m).
Proof.
  intros Ho Hop Hne Hf. exists (endClose (answers env (CloseDone s k)) (set_phase Closing o)). split; [done|].
  destruct fuel as [|[|[|f]]]; [lia..|]. replace (S (S (S f)) - 3) with f by lia.
  assert (Hlt : s < length (objs m)) by by eapply lookup_lt_Some.
  cbn [exec goroutineStep]. rewrite Ho, Hop. cbn [exec goroutineStep objs set_objs].
  rewrite list_lookup_insert_eq by done. cbn [sid sentry set_phase].
  assert (removeEntry (sid o) (sentry o) (set_objs (<[s := set_phase Closing o]> (objs m)) m) =
          set_objs (<[s := set_phase Closing o]> (objs m)) m) as ->.
  { unfold removeEntry. cbn [sessions set_objs]. destruct (sessions m !! sid o) as [e|]; [|done].
    rewrite bool_decide_eq_false_2; [done|congruence]. }
  cbn [exec goroutineStep objs set_objs]. rewrite list_lookup_insert_eq by done. rewrite list_insert_insert_eq.
  cbn [serr endClose]. unfold closeResult. cbn [answers]. by destruct (closeFails env s).
Qed.

(** CloseAll's loop over sessions that are open and out of the map. *)
Lemma exec_close_all ttl env rest errs m fuel :
  sessions m = ∅ → NoDup rest → (∀ s, s ∈ rest → ∃ o, objs m !! s = Some o ∧ sphase o = Open) →
  1 + 4 * length rest ≤ fuel →
  ∃ m', exec ttl fuel (answers env) (CloseAllNext rest errs) m = Some (m', ReplyJoined (errs ++ map (closeResult env) rest)) ∧
    sessions m' = ∅ ∧ (∀ s, s ∈ rest → ∃ o, objs m' !! s = Some o ∧ sphase o = Closed) ∧
    (∀ s, s ∉ rest → objs m' !! s = objs m !! s).
Proof.
  revert errs m fuel. induction rest as [|s rest IH]; intros errs m fuel Hm Hnd Hopen Hf; simpl in Hf.
  - destruct fuel as [|f]; [lia|]. exists m. cbn [exec goroutineStep map]. rewrite app_nil_r.
    assert (exec ttl f (answers env) (Done (ReplyJoined errs)) m = Some (m, ReplyJoined errs)) as -> by by destruct f.
    split_and!; try done. intros x Hx. by apply elem_of_nil in Hx.
  - apply NoDup_cons in Hnd as [Hs Hnd]. destruct (Hopen s ltac:(by left)) as (o&Ho&Hop).
    destruct fuel as [|fuel]; [lia|]. cbn [exec goroutineStep].
    destruct (exec_close ttl env fuel s (AfterAll rest errs) m o Ho Hop) as (o'&Ho'&->); [by rewrite Hm|lia|].
    cbn [resume]. set (m1 := set_objs _ _).
    destruct (IH (errs ++ [closeResult env s]) m1 (fuel - 3)) as (m'&Hexec&Hm'&Hcl&Hoth); [done|done| |lia|].
    { intros x Hx. destruct (Hopen x ltac:(by right)) as (y&Hy&?). exists y. split; [|done]. cbn.
      rewrite list_lookup_insert_ne; [done|]. by intros ->. }
    exists m'. rewrite Hexec. rewrite <- app_assoc. split_and!; [done|done| |].
    + intros x [->|Hx]%elem_of_cons; [|by apply Hcl]. exists o'. split; [|done]. rewrite Hoth by done.
      cbn. apply list_lookup_insert_eq. by eapply lookup_lt_Some.
    + intros x [Hn1 Hn2]%not_elem_of_cons. rewrite Hoth by done. cbn. by rewrite list_lookup_insert_ne.
Qed.

Lemma collected_NoDup c : managerInv c → NoDup (collected (mgr c)).
Proof.
  intros Hinv. apply NoDup_omap; [apply NoDup_map_to_list|].
  intros [i1 e1] [i2 e2] s H1%elem_of_map_to_list H2%elem_of_map_to_list E1 E2. cbn in E1, E2.
  destruct (current_session _ _ _ _ Hinv H1 E1) as (o1&Ho1&<-&<-).
  destruct (current_session _ _ _ _ Hinv H2 E2) as (o2&Ho2&<-&<-). by simplify_eq.
Qed.

Lemma exec_step ttl f ans p m m' p' :
  goroutineStep ttl (ans p) p m = Some (m', p') → exec ttl (S f) ans p m = exec ttl f ans p' m'.
Proof. intros H. destruct p; [done|..]; cbn [exec]; by rewrite H. Qed.

Lemma abs_insert_new m id s :
  let e := length (entries m) in
  (∀ j x, sessions m !! j = Some x → x < length (entries m)) →
  omap (entrySession {| sessions := ∅; entries := alter (λ en, {| entryId := entryId en; session := Some s |}) e
                          (entries m ++ [{| entryId := id; session := None |}]); objs := [] |})
    (<[id := e]> (sessions m)) = <[id := s]> (abs m).
Proof.
  intros e Hlt. apply map_eq. intros j. rewrite lookup_omap. destruct (decide (j = id)) as [->|Hne].
  - rewrite !lookup_insert_eq. cbn. unfold entrySession. cbn. rewrite list_lookup_alter_eq. unfold e. by rewrite list_lookup_middle.
  - rewrite !lookup_insert_ne, abs_lookup by done. destruct (sessions m !! j) as [x|] eqn:E; [|done]. cbn.
    specialize (Hlt _ _ E). unfold entrySession. cbn. rewrite list_lookup_alter_ne by (unfold e; lia).
    by rewrite lookup_app_l.
Qed.

Lemma abs_reserved m id :
  let e := length (entries m) in
  sessions m !! id = None → (∀ j x, sessions m !! j = Some x → x < length (entries m)) →
  omap (entrySession {| sessions := ∅; entries := entries m ++ [{| entryId := id; session := None |}]; objs := [] |})
    (delete id (<[id := e]> (sessions m))) = abs m.
Proof.
  intros e Hfree Hlt. rewrite delete_insert_id by done. apply map_eq. intros j. rewrite lookup_omap, abs_lookup.
  destruct (sessions m !! j) as [x|] eqn:E; [|done]. cbn. specialize (Hlt _ _ E).
  unfold entrySession. cbn. by rewrite lookup_app_l.
Qed.

Lemma exec_create ttl env id m :
  (∀ j x, sessions m !! j = Some x → x < length (entries m)) → sessions m !! id = None →
  ∃ m' r, exec ttl 5 (answers env) (CreateReserve id) m = Some (m', r) ∧
    (abs m', r) = (if newSucceeds env then (<[id := length (objs m)]> (abs m), ReplyOk) else (abs m, ReplyErr ErrNewSession)).
Proof.
  intros Hlt Hfree. set (e := length (entries m)). set (s := length (objs m)).
  set (m1 := set_sessions (<[id := e]> (sessions m)) (set_entries (entries m ++ [{| entryId := id; session := None |}]) m)).
  rewrite (exec_step _ _ _ _ _ m1 (CreateNew id e)) by (cbn [goroutineStep]; by rewrite Hfree).
  destruct (newSucceeds env) eqn:Hn.
  - set (m2 := set_objs (objs m1 ++ [newObj id e]) m1).
    rewrite (exec_step _ _ _ _ _ m2 (CreateInstall id e s)) by (cbn [goroutineStep answers]; by rewrite Hn).
    set (m3 := set_entries (alter (λ en, {| entryId := entryId en; session := Some s |}) e (entries m2)) m2).
    rewrite (exec_step _ _ _ _ _ m3 (if (0 <? ttl)%Z then CreateArm s else Done ReplyOk))
      by (cbn [goroutineStep]; rewrite bool_decide_eq_true_2; [done|apply lookup_insert_eq]).
    assert (abs m3 = <[id := s]> (abs m)) as Habs by by apply (abs_insert_new m id s).
    destruct (0 <? ttl)%Z; [|exists m3, ReplyOk; by rewrite Habs].
    erewrite !exec_step by reflexivity. do 2 eexists. split; [reflexivity|]. by rewrite <- Habs.
  - rewrite (exec_step _ _ _ _ _ m1 (CreateRemove id e)) by (cbn [goroutineStep answers]; by rewrite Hn).
    erewrite exec_step by reflexivity. do 2 eexists. split; [reflexivity|]. f_equal. unfold removeEntry.
    cbn [sessions m1 set_sessions set_entries]. rewrite lookup_insert_eq, bool_decide_eq_true_2 by done.
    by apply (abs_reserved m id).
Qed.

(** One call run alone does what the specification says; the sessions it takes
    out of the map are closed. *)
Definition implements (ttl : Z) (env : environment) (k : call) (m : manager) : Prop :=
  ∃ fuel m' r,
    fuel ≤ 5 + 4 * length (order env) ∧
    exec ttl fuel (answers env) (callPc k) m = Some (m', r) ∧
    (abs m', r) = spec env k (length (objs m)) (abs m) ∧
    (∀ id s, abs m !! id = Some s → abs m' !! id ≠ Some s → ∃ o, objs m' !! s = Some o ∧ sphase o = Closed).

Lemma abs_free c id : sessions (mgr c) !! id = None → abs (mgr c) !! id = None.
Proof. intros Hid. by rewrite abs_lookup, Hid. Qed.

Lemma implements_create ttl env c id : managerInv c → quiescent c → implements ttl env (CallCreate id) (mgr c).
Proof.
  intros Hinv Hq. unfold implements. cbn [callPc spec].
  assert (Hlt : ∀ j x, sessions (mgr c) !! j = Some x → x < length (entries (mgr c))).
  { intros j x Hj. destruct (mi_map _ Hinv _ _ Hj) as (en&Hen&_). by eapply lookup_lt_Some. }
  destruct (sessions (mgr c) !! id) as [e|] eqn:Hid.
  - destruct (abs_quiescent _ _ _ Hinv Hq Hid) as (s&Hs&_). exists 1, (mgr c), (ReplyErr ErrSessionExists).
    cbn [exec goroutineStep]. rewrite Hid, Hs. split_and!; done || lia.
  - destruct (exec_create ttl env id (mgr c) Hlt Hid) as (m'&r&Hexec&Habs). exists 5, m', r. split; [lia|]. split; [done|].
    pose proof (abs_free c id Hid) as Hn. rewrite Hn. split; [done|].
    intros j s Hj Hg. destruct Hg. destruct (newSucceeds env); injection Habs as -> _; [|done].
    rewrite lookup_insert_ne; [done|congruence].
Qed.

Lemma implements_mark ttl env c id : managerInv c → quiescent c → implements ttl env (CallMarkConnected id) (mgr c).
Proof.
  intros Hinv Hq. unfold implements. cbn [callPc spec]. exists 2.
  destruct (sessions (mgr c) !! id) as [e|] eqn:Hid; cbn [exec goroutineStep]; rewrite Hid.
  - destruct (abs_quiescent _ _ _ Hinv Hq Hid) as (s&Hs&He). rewrite He, Hs. cbn [exec goroutineStep].
    do 2 eexists. split; [lia|]. split; [reflexivity|]. by split.
  - rewrite (abs_free c id Hid). do 2 eexists. split; [lia|]. split; [reflexivity|]. by split.
Qed.

Lemma implements_close ttl env c id : managerInv c → quiescent c → implements ttl env (CallClose id) (mgr c).
Proof.
  intros Hinv Hq. unfold implements. cbn [callPc spec].
  destruct (sessions (mgr c) !! id) as [e|] eqn:Hid.
  - destruct (quiescent_entry _ _ _ Hinv Hq Hid) as (s&o&He&Ho&Hsi&Hse&Hop).
    assert (abs (mgr c) !! id = Some s) as Hs by (by rewrite abs_lookup, Hid). rewrite Hs.
    set (m1 := set_sessions (delete id (sessions (mgr c))) (mgr c)).
    destruct (exec_close ttl env 3 s AfterClose m1 o) as (o'&Ho'&Hexec); [done|done| |lia|].
    { rewrite Hsi. cbn. by rewrite lookup_delete_eq. }
    exists 4. rewrite (exec_step _ _ _ _ _ m1 (CloseCall s AfterClose)) by (cbn [goroutineStep]; by rewrite Hid, He).
    rewrite Hexec. cbn [resume exec Nat.sub]. do 2 eexists. split; [lia|]. split; [reflexivity|].
    assert (abs (set_objs (<[s := o']> (objs m1)) m1) = delete id (abs (mgr c))) as Habs by apply omap_delete.
    rewrite Habs. split; [done|]. intros j x Hj Hg.
    destruct (decide (j = id)) as [->|Hne]; [|by rewrite lookup_delete_ne in Hg].
    assert (x = s) as -> by congruence. exists o'. split; [|done]. cbn. apply list_lookup_insert_eq. by eapply lookup_lt_Some.
  - rewrite (abs_free c id Hid). exists 1, (mgr c), (ReplyErr ErrSessionNotFound).
    cbn [exec goroutineStep]. rewrite Hid. split_and!; done || lia.
Qed.

Lemma implements_close_all ttl env c :
  managerInv c → quiescent c → order env ≡ₚ collected (mgr c) → implements ttl env CallCloseAll (mgr c).
Proof.
  intros Hinv Hq Horder. unfold implements. cbn [callPc spec].
  destruct (exec_close_all ttl env (order env) [] (set_sessions ∅ (mgr c)) (1 + 4 * length (order env)))
    as (m'&Hexec&Hm'&Hcl&_); [done|by rewrite Horder; apply collected_NoDup| |done|].
  { intros s Hs. rewrite Horder in Hs. apply elem_of_collected in Hs as (id&e&Hid&He).
    destruct (quiescent_entry _ _ _ Hinv Hq Hid) as (s'&o&He'&Ho&_&_&Hop). exists o. split; [|done]. cbn. congruence. }
  exists (2 + 4 * length (order env)), m', (ReplyJoined (map (closeResult env) (order env))).
  change (2 + 4 * length (order env)) with (S (1 + 4 * length (order env))).
  rewrite (exec_step _ _ _ _ _ (set_sessions ∅ (mgr c)) (CloseAllNext (order env) []))
    by (cbn [goroutineStep answers]; by rewrite bool_decide_eq_true_2).
  split; [lia|]. split; [exact Hexec|]. split.
  - f_equal. apply map_eq. intros id. by rewrite abs_lookup, Hm'.
  - intros id s Hs _. apply Hcl. rewrite Horder. apply elem_of_collected. rewrite abs_lookup in Hs.
    destruct (sessions (mgr c) !! id) as [e|] eqn:Hid; [|done]. eauto.
Qed.

Lemma manager_implements ttl c env k :
  reachable ttl c → quiescent c → (k = CallCloseAll → order env ≡ₚ collected (mgr c)) → implements ttl env k (mgr c).
Proof.
  intros Hr Hq Horder. pose proof (reachable_managerInv _ _ Hr) as Hinv.
  destruct k; [by apply implements_create|by apply implements_mark|by apply implements_close|].
  apply implements_close_all; auto.
Qed.

(** C3. Used one call at a time, the manager is a finite map from ids to open
    sessions: from any state in which all calls have returned, each operation
    terminates within a bounded number of steps with the reply and the map the
    specification gives, whatever the environment answers, and a session that
    leaves the map has been closed. *)
Theorem manager_refines_map (ttl : Z) (c : system) (env : environment) (k : call) :
  reachable ttl c → quiescent c → (k = CallCloseAll → order env ≡ₚ collected (mgr c)) →
  ∃ fuel m' r,
    fuel ≤ 5 + 4 * length (order env) ∧
    exec ttl fuel (answers env) (callPc k) (mgr c) = Some (m', r) ∧
    (abs m', r) = spec env k (length (objs (mgr c))) (abs (mgr c)) ∧
    (∀ id s, abs (mgr c) !! id = Some s → abs m' !! id ≠ Some s →
       ∃ o, objs m' !! s = Some o ∧ sphase o = Closed).
Proof. apply manager_implements. Qed.

Definition sampleEnv : environment := {| newSucceeds := true; closeFails := λ _, true; order := [] |}.

Lemma manager_refines_map_witness :
  ∃ fuel m' r, exec 0 fuel (answers sampleEnv) (CreateReserve §"kitchen") NewManager = Some (m', r) ∧
    abs m' = <[§"kitchen" := 0]> ∅ ∧ r = ReplyOk.
Proof.
  destruct (manager_refines_map 0 initial sampleEnv (CallCreate §"kitchen")) as (fuel&m'&r&_&He&Hs&_).
  - apply rtc_refl.
  - apply Forall_nil. exact I.
  - intros H. discriminate H.
  - exists fuel, m', r. split; [exact He|]. injection Hs as -> ->. split; reflexivity.
Defined.
