(* ===== verification/ManagerLife.v ===== *)
(** * Sessions and their manager follow one contract

    [Manager.v] keeps of a session what [Contract.v] says; here every step of
    the manager is shown to move each session by at most one label of the
    contract, and the manager to go along with everything a session of
    [Session.v] does (a simulation of the session's runs by the manager's). *)

From S2P Require Import Prelude GoString Contract Session SessionLife Manager.

(** ** The life of a session the manager has made *)

Definition doneB (s : nat) (p : pc) : bool := match p with CloseDone s' _ => bool_decide (s' = s) | _ => false end.

Definition lifeIn (gs : list pc) (s : nat) (o : sessionObj) : life :=
  {| lphase := sphase o;
     lnotified := match sphase o with Open => false | Closing => existsb (doneB s) gs | Closed => true end;
     lfailed := match sphase o with Closed => bool_decide (is_Some (serr o)) | _ => false end;
     lmarked := smarked o;
     lexpiry := sexpiry o |}.

Definition lifeAt (c : system) (s : nat) : option life := lifeIn (goroutines c) s <$> objs (mgr c) !! s.

(** The session whose life a goroutine's next step may change. *)
Definition target (p : pc) : option nat :=
  match p with
  | CreateArm s | CreateHandOver s | MarkSession s | CloseCall s _ | CloseTerminal s _ | CloseDone s _ => Some s
  | _ => None
  end.

Lemma existsb_out {A} (f : A → bool) l i x y :
  l !! i = Some x → f x = false → f y = false → existsb f (<[i := y]> l) = existsb f l.
Proof. intros Hi Hx Hy. rewrite !existsb_sel. by rewrite (sel_insert_out _ _ _ _ _ Hi Hx Hy). Qed.

Lemma doneB_resume s k err : doneB s (resume k err) = false.
Proof. by destruct k. Qed.

Lemma step_other ttl a p m m' p' s o :
  goroutineStep ttl a p m = Some (m', p') → target p ≠ Some s → objs m !! s = Some o →
  objs m' !! s = Some o ∧ doneB s p = false ∧ doneB s p' = false.
Proof.
  intros Hstep Ht Ho.
  assert (Hne : ∀ x, Some x ≠ Some s → x ≠ s) by (intros x Hx ->; done).
  destruct p as [r|id|id e|id e|id e x|x|x|id x|id|x|id| |rest errs|x k|x k|x k]; cbn [goroutineStep target] in *;
    try apply Hne in Ht.
  all: try by (repeat case_match; simplify_eq/=; rewrite ?doneB_resume; split_and!).
  - destruct a; injection Hstep as <- <-; cbn; split_and!; try done; by apply lookup_app_l_Some.
  - injection Hstep as <- <-. by rewrite (proj2 (removeEntry_entries _ _ _)).
  - injection Hstep as <- <-. cbn. by rewrite list_lookup_alter_ne.
  - injection Hstep as <- <-. cbn. by rewrite list_lookup_alter_ne.
  - injection Hstep as <- <-. cbn. by rewrite list_lookup_alter_ne.
  - destruct (objs m !! x) as [y|]; [|done]. destruct (sphase y); try done; injection Hstep as <- <-; cbn;
      rewrite ?doneB_resume, ?list_lookup_insert_ne by done; done.
  - destruct (objs m !! x) as [y|]; [|done]. injection Hstep as <- <-. rewrite (proj2 (removeEntry_entries _ _ _)).
    cbn [doneB]. by rewrite (bool_decide_eq_false_2 (x = s)).
  - destruct (objs m !! x) as [y|]; [|done]. injection Hstep as <- <-. cbn.
    rewrite doneB_resume, bool_decide_eq_false_2, list_lookup_insert_ne by done. done.
Qed.

Lemma mrun_inv ttl i a c c' :
  run ttl i a c = Some c' → ∃ p m' p', goroutines c !! i = Some p ∧
    goroutineStep ttl a p (mgr c) = Some (m', p') ∧ c' = {| mgr := m'; goroutines := <[i := p']> (goroutines c) |}.
Proof.
  unfold run. destruct (goroutines c !! i) as [p|]; [|done].
  destruct (goroutineStep ttl a p (mgr c)) as [[m' p']|] eqn:E; [|done]. intros [= <-]. eauto 8.
Qed.

(** A step leaves the life of every session but its target's alone. *)
Lemma run_other ttl i a p c c' s :
  goroutines c !! i = Some p → run ttl i a c = Some c' → target p ≠ Some s → s < length (objs (mgr c)) →
  lifeAt c' s = lifeAt c s.
Proof.
  intros Hi (q&m'&p'&Hq&Hstep&->)%mrun_inv Ht [o Ho]%lookup_lt_is_Some_2.
  rewrite Hi in Hq. injection Hq as <-.
  destruct (step_other _ _ _ _ _ _ _ _ Hstep Ht Ho) as (Ho'&Hd&Hd').
  unfold lifeAt. cbn [mgr goroutines]. rewrite Ho, Ho'. cbn. unfold lifeIn. by rewrite (existsb_out _ _ _ _ _ Hi Hd Hd').
Qed.

(** ** The expiry timer is made once and handed over once *)

Definition armsB (s : nat) (p : pc) : bool :=
  match p with CreateInstall _ _ x | CreateArm x | CreateHandOver x => bool_decide (x = s) | _ => false end.

Definition expiryOk (p : pc) (x : expiry) : Prop :=
  match p with CreateHandOver _ => x = Made ∨ x = Gone | _ => x = NoTimer end.

Definition armed (c : system) (s : nat) : Prop :=
  match sel (armsB s) (goroutines c) with
  | [] => True
  | [p] => ∃ o, objs (mgr c) !! s = Some o ∧ expiryOk p (sexpiry o)
  | _ => False
  end.

Lemma armed_keep c c' s :
  armed c s → sel (armsB s) (goroutines c') = sel (armsB s) (goroutines c) →
  (∀ o, objs (mgr c) !! s = Some o → ∃ o', objs (mgr c') !! s = Some o' ∧
     ∀ p, armsB s p = true → p ∈ goroutines c → expiryOk p (sexpiry o) → expiryOk p (sexpiry o')) →
  armed c' s.
Proof.
  unfold armed. intros H -> Ho. destruct (sel (armsB s) (goroutines c)) as [|p [|]] eqn:E; try done.
  destruct H as (o&Hl&He). destruct (Ho o Hl) as (o'&Hl'&Hk). exists o'. split; [done|].
  assert (p ∈ sel (armsB s) (goroutines c)) as [??]%elem_of_sel by (rewrite E; by left). auto.
Qed.

Lemma armed_at c i p s :
  armed c s → goroutines c !! i = Some p → armsB s p = true →
  sel (armsB s) (goroutines c) = [p] ∧ ∃ o, objs (mgr c) !! s = Some o ∧ expiryOk p (sexpiry o).
Proof.
  unfold armed. intros H Hi Hp. apply list_elem_of_lookup_2 in Hi.
  assert (Hin : p ∈ sel (armsB s) (goroutines c)) by by apply elem_of_sel.
  destruct (sel (armsB s) (goroutines c)) as [|q [|]]; [by apply elem_of_nil in Hin| |done].
  apply list_elem_of_singleton in Hin as ->. eauto.
Qed.

Lemma expiryOk_stop p x : expiryOk p x → expiryOk p (stopExpiry x).
Proof. destruct p; cbn; try (by intros ->). intros [-> | ->]; auto. Qed.

(** The expiry timer only moves on. *)
Lemma step_expiry_kept ttl a p m m' p' s o q :
  goroutineStep ttl a p m = Some (m', p') → armsB s p = false → armsB s q = true →
  objs m !! s = Some o → expiryOk q (sexpiry o) →
  ∃ o', objs m' !! s = Some o' ∧ expiryOk q (sexpiry o').
Proof.
  intros Hstep Hp Hq Ho He. destruct (decide (target p = Some s)) as [Ht|Ht].
  - destruct p as [r|id|id e|id e|id e x|x|x|id x|id|x|id| |rest errs|x k|x k|x k]; try discriminate Ht;
      injection Ht as ->; cbn [goroutineStep] in Hstep;
      try (cbn in Hp; rewrite bool_decide_eq_true_2 in Hp by done; discriminate Hp).
    + injection Hstep as <- <-. cbn. rewrite list_lookup_alter_eq, Ho. cbn. eauto.
    + rewrite Ho in Hstep. destruct (sphase o); [| |]; simplify_eq/=; [|eauto].
      rewrite list_lookup_insert_eq by (by eapply lookup_lt_Some). eauto.
    + rewrite Ho in Hstep. injection Hstep as <- <-. rewrite (proj2 (removeEntry_entries _ _ _)). eauto.
    + rewrite Ho in Hstep. injection Hstep as <- <-. cbn. rewrite list_lookup_insert_eq by (by eapply lookup_lt_Some).
      eexists. split; [done|]. by apply expiryOk_stop.
  - destruct (step_other _ _ _ _ _ _ _ _ Hstep Ht Ho) as (?&_&_). eauto.
Qed.

(** Goroutines that start to arm a timer, or go on with it. *)
Lemma step_arms ttl a p m m' p' s :
  goroutineStep ttl a p m = Some (m', p') → armsB s p' = true →
  (∃ id e, p = CreateNew id e ∧ s = length (objs m) ∧ p' = CreateInstall id e s ∧ m' = set_objs (objs m ++ [newObj id e]) m) ∨
  (∃ id e, p = CreateInstall id e s ∧ p' = CreateArm s ∧ objs m' = objs m) ∨
  (p = CreateArm s ∧ p' = CreateHandOver s ∧ objs m' = alter (set_expiry Made) s (objs m)).
Proof.
  intros Hstep Hp'. destruct p; cbn [goroutineStep] in Hstep; repeat case_match; simplify_eq/=;
    try discriminate Hp'; try (apply bool_decide_eq_true_1 in Hp'; subst); eauto 10;
    by match goal with k : after |- _ => destruct k end.
Qed.

Lemma armed_run ttl i a c c' s : run ttl i a c = Some c' → armed c s → armed c' s.
Proof.
  intros (p&m'&p'&Hi&Hstep&->)%mrun_inv Harm.
  destruct (armsB s p') eqn:Hp'.
  - destruct (step_arms _ _ _ _ _ _ _ Hstep Hp') as [(id&e&->&->&->&->)|[(id&e&->&->&Ho)|(->&->&Ho)]].
    + assert (Hnone : sel (armsB (length (objs (mgr c)))) (goroutines c) = []).
      { unfold armed in Harm. destruct (sel _ _) as [|q [|]]; [done| |done].
        destruct Harm as (o&Ho&_). apply lookup_lt_Some in Ho. lia. }
      unfold armed. cbn [mgr goroutines]. rewrite (sel_insert_enter _ _ _ _ _ Hi Hnone Hp').
      exists (newObj id e). split; [by apply list_lookup_middle|done].
    + assert (armsB s (CreateInstall id e s) = true) as Hp by by apply bool_decide_eq_true_2.
      destruct (armed_at _ _ _ _ Harm Hi Hp) as [Hs (o&Hl&He)].
      unfold armed. cbn [mgr goroutines]. destruct (sel_insert_inside _ _ _ _ (CreateArm s) _ Hi Hp Hs) as [_ ->].
      rewrite Hp', Ho. eauto.
    + assert (armsB s (CreateArm s) = true) as Hp by by apply bool_decide_eq_true_2.
      destruct (armed_at _ _ _ _ Harm Hi Hp) as [Hs (o&Hl&He)].
      unfold armed. cbn [mgr goroutines]. destruct (sel_insert_inside _ _ _ _ (CreateHandOver s) _ Hi Hp Hs) as [_ ->].
      rewrite Hp', Ho, list_lookup_alter_eq, Hl. cbn. eauto.
  - destruct (armsB s p) eqn:Hp.
    + destruct (armed_at _ _ _ _ Harm Hi Hp) as [Hs _].
      unfold armed. cbn [mgr goroutines]. destruct (sel_insert_inside _ _ _ _ p' _ Hi Hp Hs) as [_ ->]. by rewrite Hp'.
    + unfold armed in *. cbn [mgr goroutines]. rewrite (sel_insert_out _ _ _ _ _ Hi Hp Hp').
      destruct (sel (armsB s) (goroutines c)) as [|q [|]] eqn:E; try done. destruct Harm as (o&Ho&He).
      assert (q ∈ sel (armsB s) (goroutines c)) as [Hq _]%elem_of_sel by (rewrite E; by left).
      by eapply step_expiry_kept.
Qed.

Lemma fire_spec s c c' :
  fire s c = Some c' → ∃ o, objs (mgr c) !! s = Some o ∧ (sexpiry o = Made ∨ sexpiry o = Handed) ∧
    c' = {| mgr := set_objs (<[s := set_expiry Gone o]> (objs (mgr c))) (mgr c); goroutines := goroutines c ++ [Expire (sid o) s] |}.
Proof.
  unfold fire. destruct (objs (mgr c) !! s) as [o|]; [|done]. intros H. exists o. split; [done|].
  destruct (sexpiry o); try done; injection H as <-; auto.
Qed.

Lemma armed_step ttl c c' s : step ttl c c' → armed c s → armed c' s.
Proof.
  intros [i a c1 H|p H|x H|x c1 H] Harm.
  - by eapply armed_run.
  - eapply armed_keep; [done| |eauto]. cbn. rewrite sel_app. destruct p; try discriminate H; by rewrite app_nil_r.
  - eapply armed_keep; [done| |eauto]. cbn. by rewrite sel_app, app_nil_r.
  - apply fire_spec in H as (o&Ho&Hx&->). eapply armed_keep; [done| |].
    + cbn. by rewrite sel_app, app_nil_r.
    + cbn. intros y Hy. destruct (decide (x = s)) as [->|Hne].
      * rewrite list_lookup_insert_eq by (by eapply lookup_lt_Some). eexists. split; [done|].
        rewrite Ho in Hy. injection Hy as <-. intros [] _ _; cbn; intros; try (destruct Hx; congruence). by right.
      * rewrite list_lookup_insert_ne by done. eauto.
Qed.

Lemma reachable_armed ttl c s : reachable ttl c → armed c s.
Proof.
  revert c. apply (rtc_ind_r (λ c, armed c s) initial); [exact I|].
  intros y z _ Hs Ha. by eapply armed_step.
Qed.

(** ** The steps of the manager are labels of the contract *)

(** What a step of a goroutine at [p], on a session whose life is [x], does to it. *)
Definition goroutineLabel (a : answer) (p : pc) (x : life) : option label :=
  match p with
  | CreateArm _ => Some Make
  | CreateHandOver _ => Some HandOver
  | MarkSession _ => Some Mark
  | CloseCall _ _ => match lphase x with Open => Some Begin | Closed => Some (Return (lfailed x)) | Closing => None end
  | CloseTerminal _ _ => Some Notify
  | CloseDone _ _ => Some (End (bool_decide (is_Some (closeAnswer a))))
  | _ => None
  end.

Lemma lifeAt_lookup c s o : objs (mgr c) !! s = Some o → lifeAt c s = Some (lifeIn (goroutines c) s o).
Proof. intros Ho. unfold lifeAt. by rewrite Ho. Qed.

(** The goroutine running a session's Close has called onTerminal exactly when
    it is at [CloseDone]. *)
Lemma closing_done c i p s o :
  managerInv c → goroutines c !! i = Some p → closing p = Some s → objs (mgr c) !! s = Some o →
  sphase o = Closing ∧ existsb (doneB s) (goroutines c) = doneB s p.
Proof.
  intros Hinv Hi Hc Ho. pose proof (running_closing _ _ _ _ _ Hinv Hi Hc Ho) as Hph. split; [done|].
  pose proof (mi_closing _ Hinv _ _ Ho) as Hs. rewrite Hph in Hs. destruct Hs as [q Hs].
  assert (Hin : ∀ z, z ∈ goroutines c → closing z = Some s → z = q).
  { intros z Hz Hcz. apply list_elem_of_singleton. rewrite <- Hs. apply elem_of_sel. split; [by apply bool_decide_eq_true_2|done]. }
  apply list_elem_of_lookup_2 in Hi. assert (p = q) as -> by by apply Hin.
  destruct (doneB s q) eqn:Hd.
  - apply existsb_exists. exists q. split; [by rewrite <- list_elem_of_In|done].
  - apply not_true_iff_false. intros (z&Hz&Hdz)%existsb_exists. rewrite <- list_elem_of_In in Hz.
    assert (z = q) as ->; [|congruence]. apply Hin; [done|].
    destruct z; try discriminate Hdz. cbn in *. apply bool_decide_eq_true_1 in Hdz. by subst.
Qed.

Lemma open_not_done c s o :
  managerInv c → objs (mgr c) !! s = Some o → sphase o = Open → existsb (doneB s) (goroutines c) = false.
Proof.
  intros Hinv Ho Hph. apply not_true_iff_false. intros (z&Hz&Hdz)%existsb_exists. rewrite <- list_elem_of_In in Hz.
  pose proof (mi_closing _ Hinv _ _ Ho) as Hs. rewrite Hph in Hs. apply (sel_none _ _ _ Hs) in Hz.
  apply bool_decide_eq_false in Hz. apply Hz. destruct z; try discriminate Hdz.
  cbn in *. apply bool_decide_eq_true_1 in Hdz. by subst.
Qed.

Lemma run_target ttl i a p c c' s x :
  reachable ttl c → goroutines c !! i = Some p → run ttl i a c = Some c' → target p = Some s → lifeAt c s = Some x →
  ∃ y, lifeAt c' s = Some y ∧ follows (goroutineLabel a p x) x y.
Proof.
  intros Hr Hi Hrun Ht Hx. pose proof (reachable_managerInv _ _ Hr) as Hinv. pose proof (reachable_armed _ _ s Hr) as Harm.
  apply mrun_inv in Hrun as (q&m'&p'&Hq&Hstep&->). rewrite Hi in Hq. injection Hq as <-.
  unfold lifeAt in Hx. apply fmap_Some in Hx as (o&Ho&->).
  assert (Hl : s < length (objs (mgr c))) by by eapply lookup_lt_Some.
  destruct p as [r|id|id e|id e|id e z|z|z|id z|id|z|id| |rest errs|z k|z k|z k]; try discriminate Ht;
    injection Ht as ->; cbn [goroutineStep] in Hstep.
  - destruct (armed_at _ _ _ _ Harm Hi (bool_decide_eq_true_2 _ eq_refl)) as [_ (o2&Ho2&He)].
    rewrite Ho in Ho2. injection Ho2 as <-. cbn in He. injection Hstep as <- <-.
    unfold lifeAt. cbn. rewrite list_lookup_alter_eq, Ho. eexists. split; [done|]. cbn. unfold lifeIn. rewrite He. cbn.
    by rewrite (existsb_out _ _ _ _ _ Hi).
  - destruct (armed_at _ _ _ _ Harm Hi (bool_decide_eq_true_2 _ eq_refl)) as [_ (o2&Ho2&He)].
    rewrite Ho in Ho2. injection Ho2 as <-. cbn in He. injection Hstep as <- <-.
    unfold lifeAt. cbn. rewrite list_lookup_alter_eq, Ho. eexists. split; [done|]. cbn. unfold lifeIn.
    rewrite (existsb_out _ _ _ _ _ Hi) by done. by destruct He as [-> | ->].
  - injection Hstep as <- <-. unfold lifeAt. cbn. rewrite list_lookup_alter_eq, Ho. eexists. split; [done|]. cbn. unfold lifeIn.
    by rewrite (existsb_out _ _ _ _ _ Hi).
  - rewrite Ho in Hstep. unfold lifeAt. cbn [goroutineLabel lphase lifeIn]. destruct (sphase o) eqn:Hph; [| |]; simplify_eq/=.
    + rewrite list_lookup_insert_eq by done. eexists. split; [done|]. cbn. unfold lifeIn. rewrite Hph. cbn.
      by rewrite (existsb_out _ _ _ _ _ Hi), (open_not_done _ _ _ Hinv Ho Hph).
    + rewrite Ho. eexists. split; [done|]. cbn. unfold lifeIn. rewrite Hph. cbn. by rewrite Bool.eqb_reflx.
  - destruct (closing_done _ _ _ _ _ Hinv Hi eq_refl Ho) as [Hph Hd]. rewrite Ho in Hstep. injection Hstep as <- <-.
    unfold lifeAt. cbn [mgr goroutines]. rewrite (proj2 (removeEntry_entries _ _ _)), Ho. eexists. split; [done|].
    cbn. unfold lifeIn. rewrite Hph, Hd. cbn.
    assert (existsb (doneB s) (<[i := CloseDone s k]> (goroutines c)) = true) as ->; [|done].
    apply existsb_exists. exists (CloseDone s k). split; [|by apply bool_decide_eq_true_2].
    rewrite <- list_elem_of_In. by eapply replace_new.
  - destruct (closing_done _ _ _ _ _ Hinv Hi eq_refl Ho) as [Hph Hd]. rewrite Ho in Hstep. injection Hstep as <- <-.
    unfold lifeAt. cbn. rewrite list_lookup_insert_eq by done. eexists. split; [done|].
    cbn. unfold lifeIn. rewrite Hph, Hd. cbn. by rewrite bool_decide_eq_true_2.
Qed.

Lemma lifeAt_start c p s : (∀ x k, p ≠ CloseDone x k) → lifeAt (start p c) s = lifeAt c s.
Proof.
  intros Hp. unfold lifeAt, start. cbn [mgr goroutines]. destruct (objs (mgr c) !! s) as [o|]; [|done]. cbn. unfold lifeIn.
  rewrite existsb_app. assert (existsb (doneB s) [p] = false) as -> by (destruct p; try done; by destruct (Hp s0 k)).
  by rewrite orb_false_r.
Qed.

Lemma lifeAt_fire x c c' s :
  fire x c = Some c' →
  match lifeAt c s with
  | Some y => if bool_decide (x = s) then (lexpiry y = Made ∨ lexpiry y = Handed) ∧ ∃ z, lifeAt c' s = Some z ∧ contractStep Fire y = Some z
              else lifeAt c' s = Some y
  | None => lifeAt c' s = None
  end.
Proof.
  intros (o&Ho&Hx&->)%fire_spec.
  assert (Hd : existsb (doneB s) (goroutines c ++ [Expire (sid o) x]) = existsb (doneB s) (goroutines c))
    by (rewrite existsb_app; apply orb_false_r).
  unfold lifeAt. cbn [mgr goroutines objs set_objs]. case_bool_decide as Hxs.
  - subst. rewrite Ho, list_lookup_insert_eq by (by eapply lookup_lt_Some). cbn. unfold lifeIn. rewrite Hd. cbn.
    split; [done|]. eexists. split; [done|]. by destruct Hx as [-> | ->].
  - rewrite list_lookup_insert_ne by done. destruct (objs (mgr c) !! s); [|done]. cbn. unfold lifeIn. by rewrite Hd.
Qed.

(** A step makes a session or keeps how many there are. *)
Lemma run_new ttl i a c c' s :
  run ttl i a c = Some c' → lifeAt c s = None → lifeAt c' s = None ∨ lifeAt c' s = Some newLife.
Proof.
  unfold lifeAt. intros (p&m'&p'&Hi&Hstep&->)%mrun_inv Hn. apply fmap_None in Hn. cbn [mgr goroutines].
  assert (objs m' !! s = None ∨ ∃ id e, objs m' !! s = Some (newObj id e)) as [-> |(id&e&->)]; [|by left|by right].
  destruct p as [r|id|id e|id e|id e x|x|x|id x|id|x|id| |rest errs|x k|x k|x k]; cbn [goroutineStep] in Hstep.
  all: try (by left; repeat case_match; simplify_eq/=; rewrite ?(proj2 (removeEntry_entries _ _ _))).
  all: try (left; apply lookup_ge_None in Hn; apply lookup_ge_None; repeat case_match; simplify_eq/=;
    rewrite ?length_alter, ?length_insert; done).
  destruct a; injection Hstep as <- <-; cbn; try (by left).
  all: destruct (lookup (M:=list sessionObj) s (objs (mgr c) ++ [newObj id e])) as [o|] eqn:E; [|by left].
  all: apply lookup_snoc_Some in E as [[_ E]|[_ <-]]; [congruence|right; eauto].
Qed.

(** The manager keeps to the contract: a step of it (of any goroutine, a
    call that arrives, a session that closes on its own or a timer that fires)
    moves a session by one label of the contract or not at all, and a session
    that appears is new.  In particular an expiry timer is made once per session
    and handed over once, after it was made. *)
Theorem manager_follows_contract (ttl : Z) (c c' : system) (s : nat) :
  reachable ttl c → step ttl c c' →
  match lifeAt c s with
  | Some x => ∃ l y, lifeAt c' s = Some y ∧ follows l x y
  | None => lifeAt c' s = None ∨ lifeAt c' s = Some newLife
  end.
Proof.
  intros Hr [i a c1 H|p H|x H|x c1 H].
  - destruct (lifeAt c s) as [x|] eqn:Hx; [|by eapply run_new].
    pose proof H as (p&m'&p'&Hi&_&_)%mrun_inv. destruct (decide (target p = Some s)) as [Ht|Ht].
    + destruct (run_target _ _ _ _ _ _ _ _ Hr Hi H Ht Hx) as (y&?&?). eauto.
    + exists None, x. split; [|done]. rewrite <- Hx. eapply run_other; try done.
      unfold lifeAt in Hx. apply fmap_Some in Hx as (o&Ho&_). by eapply lookup_lt_Some.
  - rewrite lifeAt_start by (by destruct p). destruct (lifeAt c s) as [y|]; [by exists None, y|by left].
  - rewrite lifeAt_start by done. destruct (lifeAt c s) as [y|]; [by exists None, y|by left].
  - pose proof (lifeAt_fire _ _ _ s H) as Hf. destruct (lifeAt c s) as [y|]; [|by left].
    case_bool_decide; [|by exists None, y]. destruct Hf as (_&z&?&?). by exists (Some Fire), z.
Qed.

(** ** The manager goes along with its sessions *)

(** What the manager's own goroutines do to a session happens when one of them is there. *)
Definition offers (c : system) (s : nat) (l : option label) : Prop :=
  match l with
  | Some Mark => MarkSession s ∈ goroutines c
  | Some Make => CreateArm s ∈ goroutines c
  | Some HandOver => CreateHandOver s ∈ goroutines c
  | _ => True
  end.

(** A goroutine that can make the step labelled [l] on session [s]. *)
Lemma run_label ttl i a p c s x l y :
  reachable ttl c → goroutines c !! i = Some p → target p = Some s → lifeAt c s = Some x →
  goroutineLabel a p x = Some l → contractStep l x = Some y →
  goroutineStep ttl a p (mgr c) ≠ None →
  ∃ c', step ttl c c' ∧ lifeAt c' s = Some y ∧ ∀ s', s' ≠ s → s' < length (objs (mgr c)) → lifeAt c' s' = lifeAt c s'.
Proof.
  intros Hr Hi Ht Hx Hl Hy Hstep. destruct (goroutineStep ttl a p (mgr c)) as [[m' p']|] eqn:E; [|done].
  assert (Hrun : run ttl i a c = Some {| mgr := m'; goroutines := <[i := p']> (goroutines c) |}).
  { unfold run. by rewrite Hi, E. }
  eexists. split; [by eapply step_run|]. split.
  - destruct (run_target _ _ _ _ _ _ _ _ Hr Hi Hrun Ht Hx) as (z&Hz&Hf). rewrite Hl in Hf. cbn in Hf. congruence.
  - intros s' Hne Hlt. eapply run_other; try done. congruence.
Qed.

Lemma lifeAt_Some c s x : lifeAt c s = Some x → ∃ o, objs (mgr c) !! s = Some o ∧ x = lifeIn (goroutines c) s o.
Proof. intros (o&?&->)%fmap_Some. eauto. Qed.

(** A caller of Close arrives. *)
Lemma own_close ttl c s x l y :
  reachable ttl c → lifeAt c s = Some x → contractStep l x = Some y →
  goroutineLabel Succeeds (CloseCall s AfterDrop) x = Some l →
  ∃ c', rtc (step ttl) c c' ∧ lifeAt c' s = Some y ∧ ∀ s', s' ≠ s → s' < length (objs (mgr c)) → lifeAt c' s' = lifeAt c s'.
Proof.
  intros Hr Hx Hy Hl. pose proof (lifeAt_Some _ _ _ Hx) as (o&Ho&Ex).
  assert (Hs : step ttl c (start (CloseCall s AfterDrop) c)) by (apply step_own; by eapply lookup_lt_Some).
  assert (Hx' : lifeAt (start (CloseCall s AfterDrop) c) s = Some x) by by rewrite lifeAt_start.
  destruct (run_label ttl (length (goroutines c)) Succeeds (CloseCall s AfterDrop) (start (CloseCall s AfterDrop) c) s x l y)
    as (c'&Hs'&Hy'&Hoth); try done.
  - unfold reachable in *. by eapply rtc_r.
  - by apply list_lookup_middle.
  - cbn. rewrite Ho. subst x. cbn in Hl. by destruct (sphase o).
  - exists c'. split; [eapply rtc_l, rtc_once; done|]. split; [done|]. intros s' Hne Hlt.
    rewrite (Hoth s') by done. by rewrite lifeAt_start.
Qed.

(** The goroutine in the body of a session's Close. *)
Lemma closing_goroutine c s o :
  managerInv c → objs (mgr c) !! s = Some o → sphase o = Closing →
  ∃ i k, goroutines c !! i = Some (if existsb (doneB s) (goroutines c) then CloseDone s k else CloseTerminal s k).
Proof.
  intros Hinv Ho Hph. pose proof (mi_closing _ Hinv _ _ Ho) as Hs. rewrite Hph in Hs. destruct Hs as [p Hs].
  assert (p ∈ sel (closesB s) (goroutines c)) as [Hp%bool_decide_eq_true_1 Hin]%elem_of_sel by (rewrite Hs; by left).
  apply list_elem_of_lookup in Hin as [i Hi]. destruct (closing_done _ _ _ _ _ Hinv Hi Hp Ho) as [_ ->].
  exists i. destruct p; try discriminate Hp; injection Hp as ->; cbn; rewrite ?bool_decide_eq_true_2 by done; eauto.
Qed.

(** Every label the contract allows can happen in the manager. *)
Lemma manager_accepts ttl c s x l y :
  reachable ttl c → lifeAt c s = Some x → contractStep l x = Some y → offers c s (Some l) →
  ∃ c', rtc (step ttl) c c' ∧ lifeAt c' s = Some y ∧ ∀ s', s' ≠ s → s' < length (objs (mgr c)) → lifeAt c' s' = lifeAt c s'.
Proof.
  intros Hr Hx Hy Hoff. pose proof (reachable_managerInv _ _ Hr) as Hinv.
  pose proof (lifeAt_Some _ _ _ Hx) as (o&Ho&Ex).
  assert (Hone : ∀ i a p, goroutines c !! i = Some p → target p = Some s → goroutineLabel a p x = Some l →
    goroutineStep ttl a p (mgr c) ≠ None →
    ∃ c', rtc (step ttl) c c' ∧ lifeAt c' s = Some y ∧ ∀ s', s' ≠ s → s' < length (objs (mgr c)) → lifeAt c' s' = lifeAt c s').
  { intros i a p Hi Ht Hl Hs. destruct (run_label _ _ _ _ _ _ _ _ _ Hr Hi Ht Hx Hl Hy Hs) as (c'&?&?&?).
    exists c'. split; [by apply rtc_once|done]. }
  destruct l as [| |g|g| | | |].
  - eapply own_close; try done. cbn. subst x. cbn in *. by destruct (sphase o).
  - assert (sphase o = Closing ∧ existsb (doneB s) (goroutines c) = false) as [Hph Hd].
    { subst x. cbn in Hy. destruct (sphase o); try done. by destruct (existsb _ _). }
    destruct (closing_goroutine _ _ _ Hinv Ho Hph) as (i&k&Hi). rewrite Hd in Hi.
    apply (Hone i Succeeds (CloseTerminal s k)); try done. cbn. by rewrite Ho.
  - assert (sphase o = Closing ∧ existsb (doneB s) (goroutines c) = true) as [Hph Hd].
    { subst x. cbn in Hy. destruct (sphase o); try done. by destruct (existsb _ _). }
    destruct (closing_goroutine _ _ _ Hinv Ho Hph) as (i&k&Hi). rewrite Hd in Hi.
    apply (Hone i (if g then Fails else Succeeds) (CloseDone s k)); try done; [by destruct g|]. cbn. by rewrite Ho.
  - assert (sphase o = Closed ∧ lfailed x = g) as [Hph Hg].
    { subst x. cbn in *. destruct (sphase o); try done. by destruct (Bool.eqb_spec g (bool_decide (is_Some (serr o)))). }
    eapply own_close; try done. cbn. rewrite Hg. subst x. cbn. by rewrite Hph.
  - assert (sexpiry o = Made ∨ sexpiry o = Handed) as He.
    { subst x. cbn in Hy. destruct (sphase o), (sexpiry o); auto; discriminate Hy. }
    destruct (fire s c) as [c'|] eqn:Hf; [|unfold fire in Hf; rewrite Ho in Hf; by destruct He as [E|E]; rewrite E in Hf].
    exists c'. split; [by eapply rtc_once, step_fire|]. split.
    + pose proof (lifeAt_fire _ _ _ s Hf) as H. rewrite Hx, bool_decide_eq_true_2 in H by done. destruct H as (_&z&Hz&Hz'). congruence.
    + intros s' Hne [o' Ho']%lookup_lt_is_Some_2. pose proof (lifeAt_fire _ _ _ s' Hf) as H.
      rewrite (lifeAt_lookup _ _ _ Ho'), bool_decide_eq_false_2 in H by done. by rewrite H, (lifeAt_lookup _ _ _ Ho').
  - apply list_elem_of_lookup in Hoff as [i Hi]. by apply (Hone i Succeeds (MarkSession s)).
  - apply list_elem_of_lookup in Hoff as [i Hi]. by apply (Hone i Succeeds (CreateArm s)).
  - apply list_elem_of_lookup in Hoff as [i Hi]. by apply (Hone i Succeeds (CreateHandOver s)).
Qed.

(** C7. The manager is proved against sessions that do everything a session
    can: whatever a session of [Session.v] does next, in any state a run leads
    to, the manager whose session [s] has the same life can follow, and the
    lives agree again; the other sessions are left alone.  What the manager does
    to the session itself (marking it, making and handing over its timer) it
    does when one of its goroutines is there. *)
Theorem manager_simulates_session (cfg : sessionConfig) (ttl : Z) (d d' : Session.system) (l : option label) (c : system) (s : nat) :
  hasOnTerminal cfg = true → Session.reachable cfg d → action cfg d l d' →
  reachable ttl c → lifeAt c s = Some (lifeOf d) → offers c s l →
  ∃ c', rtc (step ttl) c c' ∧ lifeAt c' s = Some (lifeOf d') ∧
        ∀ s', s' ≠ s → s' < length (objs (mgr c)) → lifeAt c' s' = lifeAt c s'.
Proof.
  intros Hterm Hd Ha Hr Hx Hoff. pose proof (action_follows _ _ _ _ Hterm Hd Ha) as Hf.
  destruct l as [l|]; cbn [follows] in Hf.
  - by eapply manager_accepts.
  - exists c. rewrite <- Hf. by split; [apply rtc_refl|].
Qed.

(** The session [Create] has installed is closing, in its own model and in the
    manager's, and is about to call onTerminal. *)
Definition closingSession (cfg : sessionConfig) : option Session.system :=
  Session.runs cfg 0 (replicate 7 Session.Succeeds) (Session.start CloseEnter Session.initial).

Definition closingManager : option system :=
  match runs 0 0 [Succeeds; Succeeds; Succeeds] (start (CreateReserve §"kitchen") initial) with
  | Some c => run 0 1 Succeeds (start (CloseCall 0 AfterDrop) c)
  | None => None
  end.

Lemma closingSession_reachable cfg d : closingSession cfg = Some d → Session.reachable cfg d.
Proof.
  intros H. unfold Session.reachable. eapply rtc_l; [apply (Session.step_start _ _ CloseEnter); reflexivity|]. by eapply runs_steps.
Qed.

Lemma closingManager_reachable c : closingManager = Some c → reachable 0 c.
Proof.
  unfold closingManager, reachable. destruct (runs 0 0 _ _) as [c1|] eqn:E; [|done]. intros H.
  eapply rtc_l; [by apply (step_call 0 initial (CreateReserve §"kitchen"))|].
  etrans; [by eapply answers_steps|]. eapply rtc_l; [|eapply rtc_once, step_run, H]. apply step_own.
  assert (option_map (λ c, bool_decide (0 < length (objs (mgr c)))) (runs 0 0 [Succeeds; Succeeds; Succeeds] (start (CreateReserve §"kitchen") initial)) = Some true)
    as Hb by (vm_compute; reflexivity).
  rewrite E in Hb. injection Hb as Hb. by apply bool_decide_eq_true_1 in Hb.
Qed.

Lemma manager_follows_contract_witness :
  ∃ c c', closingManager = Some c ∧ run 0 1 Succeeds c = Some c' ∧
          ∃ l y, lifeAt c' 0 = Some y ∧ follows l {| lphase := Closing; lnotified := false; lfailed := false; lmarked := false; lexpiry := NoTimer |} y.
Proof.
  destruct closingManager as [c|] eqn:E; [|vm_compute in E; discriminate E].
  destruct (run 0 1 Succeeds c) as [c'|] eqn:E'; [|vm_compute in E; injection E as <-; vm_compute in E'; discriminate E'].
  exists c, c'. split; [reflexivity|]. split; [exact E'|].
  assert (lifeAt c 0 = Some {| lphase := Closing; lnotified := false; lfailed := false; lmarked := false; lexpiry := NoTimer |}) as Hx
    by (vm_compute in E; injection E as <-; vm_compute; reflexivity).
  pose proof (manager_follows_contract 0 c c' 0 (closingManager_reachable _ E) (step_run _ _ _ _ _ E')) as H.
  rewrite Hx in H. exact H.
Defined.

Lemma manager_simulates_session_witness :
  ∃ c, closingManager = Some c ∧
  ∃ c', rtc (step 0) c c' ∧
        lifeAt c' 0 = Some {| lphase := Closing; lnotified := true; lfailed := false; lmarked := false; lexpiry := NoTimer |}.
Proof.
  destruct closingManager as [c|] eqn:E; [|vm_compute in E; discriminate E]. exists c. split; [reflexivity|].
  destruct (closingSession sampleConfig) as [d|] eqn:Ed; [|vm_compute in Ed; discriminate Ed].
  destruct (Session.run sampleConfig 0 Session.Succeeds d) as [d'|] eqn:Ed';
    [|vm_compute in Ed; injection Ed as <-; vm_compute in Ed'; discriminate Ed'].
  assert (Session.goroutines d !! 0 = Some Session.CloseTerminal ∧
          lifeOf d' = {| lphase := Closing; lnotified := true; lfailed := false; lmarked := false; lexpiry := NoTimer |} ∧
          lifeAt c 0 = Some (lifeOf d)) as (Hi&Hy&Hx).
  { vm_compute in Ed. injection Ed as <-. vm_compute in Ed'. injection Ed' as <-. vm_compute in E. injection E as <-.
    split; [|split]; vm_compute; reflexivity. }
  destruct (manager_simulates_session sampleConfig 0 d d' (Some Notify) c 0) as (c'&Hs&Hl&_).
  - reflexivity.
  - exact (closingSession_reachable _ _ Ed).
  - exact (action_run sampleConfig d 0 Session.Succeeds Session.CloseTerminal d' Hi Ed').
  - exact (closingManager_reachable _ E).
  - exact Hx.
  - exact I.
  - exists c'. split; [exact Hs|]. rewrite Hl, Hy. reflexivity.
Defined.
