(* ===== verification/ManagerLinear.v ===== *)
(** * Concurrent calls of the manager take effect atomically

    [manager_refines_map] ([Manager.v]) is about calls made one at a time; the
    HTTP server runs each handler in a goroutine of its own.  Here a call is
    followed through a run in which any other calls, expiries and closings
    interleave with its sections: one of its own steps is where it takes effect
    on the map of open sessions, with the reply the sequential specification
    gives there ([manager_linearizable]).  Only Create has two more outcomes,
    both from its reservation.  [abs_step] lists the steps that change the map. *)

From S2P Require Import Prelude GoString Contract Manager.

Section Linear.
Variable ttl : Z.

(** ** Following one goroutine *)

Lemma step_goroutine c c' i p :
  step ttl c c' → goroutines c !! i = Some p →
  goroutines c' !! i = Some p ∨
  ∃ a m p', goroutineStep ttl a p (mgr c) = Some (m, p') ∧ run ttl i a c = Some c' ∧ mgr c' = m ∧ goroutines c' !! i = Some p'.
Proof.
  intros [j a d H|q H|s H|s d H] Hi.
  - pose proof H as Hrun. unfold run in H. destruct (goroutines c !! j) as [q|] eqn:Hj; [|done].
    destruct (goroutineStep ttl a q (mgr c)) as [[m p']|] eqn:Hg; [|done]. injection H as <-. cbn [goroutines mgr] in *.
    destruct (decide (j = i)) as [->|Hne]; [right|left; by rewrite list_lookup_insert_ne].
    rewrite Hi in Hj. injection Hj as <-. exists a, m, p'. split_and!; [done|exact Hrun|done|].
    apply list_lookup_insert_eq. by eapply lookup_lt_Some.
  - left. cbn [goroutines start]. by apply lookup_app_l_Some.
  - left. cbn [goroutines start]. by apply lookup_app_l_Some.
  - left. unfold fire in H. destruct (objs (mgr c) !! s) as [o|]; [|done].
    destruct (sexpiry o); try done; injection H as <-; cbn [goroutines]; by apply lookup_app_l_Some.
Qed.

Lemma next_move c cn i p r :
  rtc (step ttl) c cn → goroutines c !! i = Some p → goroutines cn !! i = Some (Done r) → p ≠ Done r →
  ∃ d a m p' d', rtc (step ttl) c d ∧ goroutines d !! i = Some p ∧ goroutineStep ttl a p (mgr d) = Some (m, p') ∧
    run ttl i a d = Some d' ∧ mgr d' = m ∧ goroutines d' !! i = Some p' ∧ rtc (step ttl) d' cn.
Proof.
  intros Hs Hi Hr Hne. induction Hs as [c|c c1 cn Hstep Hs IH]; [congruence|].
  destruct (step_goroutine _ _ _ _ Hstep Hi) as [Hi1|(a&m&p'&Hg&Hrun&Hm&Hi1)].
  - destruct (IH Hi1 Hr) as (d&a&m&p'&d'&Hd&?). exists d, a, m, p', d'. split; [by eapply rtc_l|done].
  - exists c, a, m, p', c1. split_and!; try done.
Qed.

Lemma reachable_steps c d : reachable ttl c → rtc (step ttl) c d → reachable ttl d.
Proof. unfold reachable. intros. by etrans. Qed.

Lemma reachable_run c d i a : reachable ttl c → run ttl i a c = Some d → reachable ttl d.
Proof. intros Hc Hrun. eapply reachable_steps; [done|]. eapply rtc_once, step_run, Hrun. Qed.

(** ** A closed session keeps its error *)

Definition closedWith (c : system) (s : nat) (err : option managerError) : Prop :=
  ∃ o, objs (mgr c) !! s = Some o ∧ sphase o = Closed ∧ serr o = err.

Lemma alter_closed f (l : list sessionObj) x s o :
  (∀ o, sphase (f o) = sphase o ∧ serr (f o) = serr o) → l !! s = Some o →
  ∃ o', alter f x l !! s = Some o' ∧ sphase o' = sphase o ∧ serr o' = serr o.
Proof.
  intros Hf Ho. destruct (decide (x = s)) as [->|Hne].
  - exists (f o). rewrite list_lookup_alter_eq, Ho. split; [done|apply Hf].
  - exists o. by rewrite list_lookup_alter_ne.
Qed.

Lemma insert_closed (l : list sessionObj) x y s o :
  x ≠ s → l !! s = Some o → ∃ o', <[x := y]> l !! s = Some o' ∧ sphase o' = sphase o ∧ serr o' = serr o.
Proof. intros Hne Ho. exists o. by rewrite list_lookup_insert_ne. Qed.

Lemma step_closed c c' s err : managerInv c → step ttl c c' → closedWith c s err → closedWith c' s err.
Proof.
  intros Hinv Hstep (o&Ho&Hph&Herr).
  assert (∀ l, (∃ o', l !! s = Some o' ∧ sphase o' = sphase o ∧ serr o' = serr o) → objs (mgr c') = l → closedWith c' s err) as Hkeep.
  { intros l (o'&Ho'&Hp&He) Hl. exists o'. rewrite Hl. split_and!; [done|congruence|congruence]. }
  destruct Hstep as [j a d H|q H|x H|x d H]; [|by exists o|by exists o|].
  - unfold run in H. destruct (goroutines c !! j) as [q|] eqn:Hj; [|done].
    destruct (goroutineStep ttl a q (mgr c)) as [[m p']|] eqn:Hg; [|done]. injection H as <-.
    apply list_elem_of_lookup_2 in Hj. cbn [mgr] in Hkeep. assert (Hself : ∃ o', objs (mgr c) !! s = Some o' ∧ sphase o' = sphase o ∧ serr o' = serr o) by eauto.
    destruct q; cbn [goroutineStep] in Hg;
      repeat match type of Hg with
      | Some _ = Some _ => injection Hg as <- <-
      | None = Some _ => discriminate Hg
      | context [match ?x with _ => _ end] => destruct x eqn:?
      end; cbn [objs set_objs set_sessions set_entries] in Hkeep;
      try (eapply Hkeep; [|reflexivity]); try (rewrite (proj2 (removeEntry_entries _ _ _)));
      first [exact Hself|(eexists; split; [by apply lookup_app_l_Some|done])|by (apply alter_closed; [intros []|])|idtac].
    + apply insert_closed; [|done]. intros ->. congruence.
    + apply insert_closed; [|done]. intros ->. pose proof (mi_closing _ Hinv _ _ Ho) as Hc. rewrite Hph in Hc.
      assert (CloseDone s k ∈ sel (closesB s) (goroutines c)) as Hin by (apply elem_of_sel; split; [by apply bool_decide_eq_true|done]).
      rewrite Hc in Hin. by apply elem_of_nil in Hin.
  - unfold fire in H. destruct (objs (mgr c) !! x) as [y|] eqn:Hy; [|done].
    destruct (sexpiry y); try done; injection H as <-; (eapply Hkeep; [|reflexivity]);
      (destruct (decide (x = s)) as [->|Hne]; [|by apply insert_closed]);
      eexists; (split; [apply list_lookup_insert_eq; by eapply lookup_lt_Some|]); rewrite Ho in Hy; by injection Hy as <-.
Qed.

Lemma steps_closed c c' s err : reachable ttl c → rtc (step ttl) c c' → closedWith c s err → closedWith c' s err.
Proof.
  intros Hr Hs. induction Hs as [|c c1 c2 Hstep Hs IH]; [done|]. intros Hc. apply IH.
  - eapply reachable_steps; [done|by apply rtc_once].
  - eapply step_closed; [by eapply reachable_managerInv|done|done].
Qed.

(** The only error closing a session has is that of its recorder and peer. *)
Definition closeErrors (c : system) : Prop := Forall (λ o, serr o = None ∨ serr o = Some ErrCloseSession) (objs (mgr c)).

Lemma step_closeErrors c c' : step ttl c c' → closeErrors c → closeErrors c'.
Proof.
  unfold closeErrors. intros Hstep Hc.
  assert (∀ f x, (∀ o, serr (f o) = serr o) → Forall (λ o, serr o = None ∨ serr o = Some ErrCloseSession) (alter f x (objs (mgr c)))) as Halter.
  { intros f x Hf. apply Forall_alter; [done|]. intros o _ Ho. by rewrite Hf. }
  destruct Hstep as [j a d H|q H|x H|x d H]; [|done|done|].
  - unfold run in H. destruct (goroutines c !! j) as [q|] eqn:Hj; [|done].
    destruct (goroutineStep ttl a q (mgr c)) as [[m p']|] eqn:Hg; [|done]. injection H as <-. cbn [mgr].
    destruct q; cbn [goroutineStep] in Hg;
      repeat match type of Hg with
      | Some _ = Some _ => injection Hg as <- <-
      | None = Some _ => discriminate Hg
      | context [match ?x with _ => _ end] => destruct x eqn:?
      end; cbn [objs set_objs set_sessions set_entries]; rewrite ?(proj2 (removeEntry_entries _ _ _));
      first [done|by (apply Forall_app; split; [done|repeat constructor; left])|by apply Halter|idtac].
    + apply Forall_insert; [done|]. exact (Forall_lookup_1 _ _ _ _ Hc Heqo).
    + apply Forall_insert; [done|]. cbn [serr endClose]. destruct a; by (left + right).
  - unfold fire in H. destruct (objs (mgr c) !! x) as [y|] eqn:Hy; [|done].
    destruct (sexpiry y); try done; injection H as <-; cbn [mgr objs set_objs]; (apply Forall_insert; [done|]);
      exact (Forall_lookup_1 _ _ _ _ Hc Hy).
Qed.

Lemma reachable_closeErrors c : reachable ttl c → closeErrors c.
Proof.
  intros Hr. unfold reachable in Hr. pattern c. eapply rtc_ind_r; [|intros y z _ Hs Hy; by eapply step_closeErrors|done].
  apply Forall_nil. exact I.
Qed.

(** ** What is decided once a call has taken effect *)

Definition finalError (c : system) (s : nat) : option managerError :=
  match objs (mgr c) !! s with Some o => serr o | None => None end.
Definition closedIn (c : system) (s : nat) : Prop := ∃ err, closedWith c s err.

Definition errorReply (err : option managerError) : reply := match err with Some e => ReplyErr e | None => ReplyOk end.

(** The reply of a call that is about to [p], in terms of the errors of the
    sessions at its end. *)
Definition outcome (cn : system) (p : pc) (r : reply) : Prop :=
  match p with
  | Done r' => r = r'
  | CreateRemove _ _ => r = ReplyErr ErrNewSession
  | CreateArm _ | CreateHandOver _ | MarkSession _ => r = ReplyOk
  | CloseAllNext rest errs => r = ReplyJoined (errs ++ map (finalError cn) rest) ∧ Forall (closedIn cn) rest
  | CloseCall s k | CloseTerminal s k | CloseDone s k =>
      closedIn cn s ∧
      match k with
      | AfterClose => r = errorReply (finalError cn s)
      | AfterDrop => r = ReplyOk
      | AfterAbort _ _ => r = ReplyErr ErrNewSession
      | AfterLost => r = ReplyErr ErrSessionNotFound
      | AfterAll rest errs => r = ReplyJoined (errs ++ map (finalError cn) (s :: rest)) ∧ Forall (closedIn cn) rest
      end
  | _ => True
  end.

Lemma outcome_resume cn s k err r :
  closedWith cn s err → outcome cn (resume k err) r → outcome cn (CloseCall s k) r.
Proof.
  intros Hc Hout. assert (finalError cn s = err) as He by (unfold finalError; by destruct Hc as (o&->&_&<-)).
  cbn [outcome]. split; [by exists err|]. destruct k; cbn [resume outcome] in Hout; try done.
  - by rewrite He.
  - destruct Hout as [-> Hf]. split; [|done]. cbn [map]. by rewrite He, <- app_assoc.
Qed.

Lemma outcome_move c d i a p m p' cn r :
  reachable ttl c → goroutineStep ttl a p (mgr c) = Some (m, p') → run ttl i a c = Some d → mgr d = m →
  rtc (step ttl) d cn → outcome cn p' r → outcome cn p r.
Proof.
  intros Hr Hg Hrun Hm Hs Hout. assert (reachable ttl d) as Hrd by by eapply reachable_run.
  destruct p; cbn [goroutineStep] in Hg; try exact I;
    repeat match type of Hg with
    | Some _ = Some _ => injection Hg as <- <-
    | None = Some _ => discriminate Hg
    | context [match ?x with _ => _ end] => destruct x eqn:?
    end; try exact Hout.
  - cbn in Hout |- *. rewrite app_nil_r. by split.
  - destruct Hout as [Hc [-> Hf]]. by split; [|constructor].
  - apply (outcome_resume cn s k (serr s0)); [|done]. eapply steps_closed; [exact Hrd|done|].
    exists s0. by rewrite Hm.
  - apply (outcome_resume cn s k (serr (endClose a s0))); [|done]. eapply steps_closed; [exact Hrd|done|].
    exists (endClose a s0). rewrite Hm. split; [|done]. cbn [objs set_objs]. apply list_lookup_insert_eq. by eapply lookup_lt_Some.
Qed.

Lemma outcome_run c cn i p r :
  reachable ttl c → rtc (step ttl) c cn → goroutines c !! i = Some p → goroutines cn !! i = Some (Done r) → outcome cn p r.
Proof.
  intros Hr Hs. revert p Hr. induction Hs as [c|c c1 cn Hstep Hs IH]; intros p Hr Hi Hd; [rewrite Hi in Hd; by injection Hd as ->|].
  assert (reachable ttl c1) as Hr1 by (eapply reachable_steps; [done|by apply rtc_once]).
  destruct (step_goroutine _ _ _ _ Hstep Hi) as [Hi1|(a&m&p'&Hg&Hrun&Hm&Hi1)]; [by apply IH|].
  apply (outcome_move c c1 i a p m p' cn r Hr Hg Hrun Hm Hs), (IH p' Hr1 Hi1 Hd).
Qed.

(** ** The map of open sessions *)

Lemma abs_ext m m' : sessions m' = sessions m → entries m' = entries m → abs m' = abs m.
Proof. intros Hs He. unfold abs, entrySession. by rewrite Hs, He. Qed.

Lemma abs_delete m id : abs (set_sessions (delete id (sessions m)) m) = delete id (abs m).
Proof.
  apply map_eq. intros j. rewrite abs_lookup. cbn [sessions set_sessions]. destruct (decide (j = id)) as [->|Hne].
  - by rewrite !lookup_delete_eq.
  - by rewrite !lookup_delete_ne, abs_lookup.
Qed.

Lemma abs_removeEntry id e m :
  abs (removeEntry id e m) = abs m ∨ sessions m !! id = Some e ∧ abs (removeEntry id e m) = delete id (abs m).
Proof.
  unfold removeEntry. destruct (sessions m !! id) as [e'|]; [|by left].
  case_bool_decide as He; [|by left]. subst e'. right. by rewrite abs_delete.
Qed.

Lemma abs_clear m : abs (set_sessions ∅ m) = ∅.
Proof. apply map_eq. intros j. rewrite abs_lookup. cbn [sessions set_sessions]. by rewrite !lookup_empty. Qed.

Lemma entry_lt c id e : managerInv c → sessions (mgr c) !! id = Some e → e < length (entries (mgr c)).
Proof. intros Hinv Hid. destruct (mi_map _ Hinv _ _ Hid) as (en&Hen&_). by eapply lookup_lt_Some. Qed.

Lemma abs_reserve c id :
  managerInv c → sessions (mgr c) !! id = None →
  abs (set_sessions (<[id := length (entries (mgr c))]> (sessions (mgr c)))
         (set_entries (entries (mgr c) ++ [{| entryId := id; session := None |}]) (mgr c))) = abs (mgr c).
Proof.
  intros Hinv Hid. apply map_eq. intros j. rewrite !abs_lookup. cbn [sessions set_sessions set_entries].
  destruct (decide (j = id)) as [->|Hne].
  - rewrite lookup_insert_eq, Hid. unfold entrySession. cbn. by rewrite list_lookup_middle.
  - rewrite lookup_insert_ne by done. destruct (sessions (mgr c) !! j) as [x|] eqn:E; [|done].
    unfold entrySession. cbn. rewrite lookup_app_l; [done|]. by eapply entry_lt.
Qed.

(** The entry a Create in flight has reserved has no session yet. *)
Lemma reserved_no_session c p id e :
  managerInv c → p ∈ goroutines c → creates p = Some (id, e) → entrySession (mgr c) e = None.
Proof.
  intros Hinv Hin Hc. destruct (mi_creator _ Hinv e) as [Hn|(q&_&He&_)]; [|done].
  assert (p ∈ sel (reservesB e) (goroutines c)) as Hsel.
  { apply elem_of_sel. split; [|done]. unfold reservesB, reserves. rewrite Hc. by apply bool_decide_eq_true. }
  rewrite Hn in Hsel. by apply elem_of_nil in Hsel.
Qed.

Lemma abs_install c id e s :
  managerInv c → sessions (mgr c) !! id = Some e →
  abs (set_entries (alter (λ en, {| entryId := entryId en; session := Some s |}) e (entries (mgr c))) (mgr c)) =
  <[id := s]> (abs (mgr c)).
Proof.
  intros Hinv Hid. destruct (mi_map _ Hinv _ _ Hid) as (en&Hen&Hen').
  apply map_eq. intros j. rewrite abs_lookup. cbn [sessions set_entries]. destruct (decide (j = id)) as [->|Hne].
  - rewrite lookup_insert_eq, Hid. unfold entrySession. cbn. by rewrite list_lookup_alter_eq, Hen.
  - rewrite lookup_insert_ne, abs_lookup by done. destruct (sessions (mgr c) !! j) as [x|] eqn:E; [|done].
    unfold entrySession. cbn. rewrite list_lookup_alter_ne; [done|]. intros <-.
    destruct (mi_map _ Hinv _ _ E) as (en2&Hen2&<-). congruence.
Qed.

(** ** Taking effect *)

(** At the step from [d] to [d'] the call does what the specification says, in
    an environment that closes each session with the error it has at the end
    [cn] of the call; what left the map is closed by then. *)
Definition effect (k : call) (r : reply) (d d' cn : system) : Prop :=
  ∃ env fresh, (k = CallCloseAll → order env ≡ₚ collected (mgr d)) ∧
    (∀ s, closeResult env s = finalError cn s) ∧
    spec env k fresh (abs (mgr d)) = (abs (mgr d'), r) ∧
    ∀ id s, abs (mgr d) !! id = Some s → abs (mgr d') !! id ≠ Some s → closedIn cn s.

(** A Create that another one in flight for the same id refuses, although the
    id has no session. *)
Definition refused (k : call) (r : reply) (d d' : system) : Prop :=
  ∃ id e p, k = CallCreate id ∧ r = ReplyErr ErrSessionExists ∧ abs (mgr d') = abs (mgr d) ∧
    sessions (mgr d) !! id = Some e ∧ p ∈ goroutines d ∧ creates p = Some (id, e).

(** A Create whose reservation is gone when its session is ready. *)
Definition overtaken (i : nat) (k : call) (r : reply) (d d' cn : system) : Prop :=
  ∃ id e s x, k = CallCreate id ∧ r = ReplyErr ErrSessionNotFound ∧ abs (mgr d') = abs (mgr d) ∧
    sessions (mgr d') !! id = Some e ∧ rtc (step ttl) d' x ∧ rtc (step ttl) x cn ∧
    goroutines x !! i = Some (CreateInstall id e s) ∧ sessions (mgr x) !! id ≠ Some e ∧ closedIn cn s.

Definition takesEffect (i : nat) (k : call) (r : reply) (c cn : system) : Prop :=
  ∃ d a d', rtc (step ttl) c d ∧ run ttl i a d = Some d' ∧ rtc (step ttl) d' cn ∧
    (effect k r d d' cn ∨ refused k r d d' ∨ overtaken i k r d d' cn).

Lemma finalError_errors c s : reachable ttl c → finalError c s = None ∨ finalError c s = Some ErrCloseSession.
Proof.
  intros Hr. unfold finalError. destruct (objs (mgr c) !! s) as [o|] eqn:Ho; [|by left].
  exact (Forall_lookup_1 _ _ _ _ (reachable_closeErrors c Hr) Ho).
Qed.

(** The environment of a call that saw the errors of [cn]. *)
Definition endEnv (cn : system) (made : bool) (l : list nat) : environment :=
  {| newSucceeds := made; closeFails := λ s, bool_decide (is_Some (finalError cn s)); order := l |}.

Lemma closeResult_endEnv cn made l s : reachable ttl cn → closeResult (endEnv cn made l) s = finalError cn s.
Proof. intros Hr. unfold closeResult. cbn. by destruct (finalError_errors cn s Hr) as [->| ->]. Qed.

(** A call that is not CloseAll. *)
Lemma effect_intro cn made k r fresh d d' :
  reachable ttl cn → k ≠ CallCloseAll → spec (endEnv cn made []) k fresh (abs (mgr d)) = (abs (mgr d'), r) →
  (∀ id s, abs (mgr d) !! id = Some s → abs (mgr d') !! id ≠ Some s → closedIn cn s) → effect k r d d' cn.
Proof. intros Hr Hk Hs Hc. exists (endEnv cn made []), fresh. split_and!; [done|intros s; by apply closeResult_endEnv|done|done]. Qed.

(** ** The four calls *)

Section Call.
Variables (cn : system) (i : nat) (r : reply).
Hypotheses (Hrn : reachable ttl cn) (Hdone : goroutines cn !! i = Some (Done r)).

Lemma linear_mark c id :
  reachable ttl c → rtc (step ttl) c cn → goroutines c !! i = Some (MarkLookup id) → takesEffect i (CallMarkConnected id) r c cn.
Proof using Hdone Hrn.
  intros Hr Hs Hi. destruct (next_move _ _ _ _ _ Hs Hi Hdone ltac:(done)) as (d&a&m&p'&d'&Hd&_&Hg&Hrun&Hm&Hi'&Hs').
  assert (reachable ttl d') as Hrd by (eapply reachable_run; [by eapply reachable_steps|done]).
  pose proof (outcome_run _ _ _ _ _ Hrd Hs' Hi' Hdone) as Hout.
  exists d, a, d'. split_and!; [done|done|done|]. left.
  assert (abs (mgr d') = abs (mgr d) ∧ r = match abs (mgr d) !! id with Some _ => ReplyOk | None => ReplyErr ErrSessionNotFound end) as [Ha ->];
    [|by apply (effect_intro cn true _ _ 0); [..|cbn [spec]; rewrite Ha|intros id' s; rewrite Ha]].
  rewrite abs_lookup. cbn [goroutineStep] in Hg. destruct (sessions (mgr d) !! id) as [e|]; [destruct (entrySession (mgr d) e)|];
    injection Hg as <- <-; cbn [outcome] in Hout; by rewrite Hm, Hout.
Qed.

Lemma linear_close c id :
  reachable ttl c → rtc (step ttl) c cn → goroutines c !! i = Some (CloseLookup id) → takesEffect i (CallClose id) r c cn.
Proof using Hdone Hrn.
  intros Hr Hs Hi. destruct (next_move _ _ _ _ _ Hs Hi Hdone ltac:(done)) as (d&a&m&p'&d'&Hd&_&Hg&Hrun&Hm&Hi'&Hs').
  assert (reachable ttl d') as Hrd by (eapply reachable_run; [by eapply reachable_steps|done]).
  pose proof (outcome_run _ _ _ _ _ Hrd Hs' Hi' Hdone) as Hout.
  exists d, a, d'. split_and!; [done|done|done|]. left.
  cbn [goroutineStep] in Hg. destruct (sessions (mgr d) !! id) as [e|] eqn:Hid; [destruct (entrySession (mgr d) e) as [s|] eqn:He|];
    injection Hg as <- <-; cbn [outcome] in Hout.
  - destruct Hout as [Hc ->]. assert (abs (mgr d) !! id = Some s) as Hs0 by by rewrite abs_lookup, Hid.
    apply (effect_intro cn true _ _ 0); [done|done|cbn [spec]; by rewrite Hs0, closeResult_endEnv, Hm, abs_delete|].
    intros j x Hx Hx'. rewrite Hm, abs_delete in Hx'. destruct (decide (j = id)) as [->|Hne]; [congruence|].
    by rewrite lookup_delete_ne in Hx'.
  - assert (abs (mgr d) !! id = None) as Hs0 by by rewrite abs_lookup, Hid.
    assert (abs (mgr d') = abs (mgr d)) as Ha by by rewrite Hm, abs_delete, delete_id.
    apply (effect_intro cn true _ _ 0); [done|done|cbn [spec]; by rewrite Hs0, Ha, Hout|intros j x; by rewrite Ha].
  - assert (abs (mgr d) !! id = None) as Hs0 by by rewrite abs_lookup, Hid.
    apply (effect_intro cn true _ _ 0); [done|done|cbn [spec]; by rewrite Hs0, Hm, Hout|intros j x; by rewrite Hm].
Qed.

Lemma linear_close_all c :
  reachable ttl c → rtc (step ttl) c cn → goroutines c !! i = Some CloseAllSection → takesEffect i CallCloseAll r c cn.
Proof using Hdone Hrn.
  intros Hr Hs Hi. destruct (next_move _ _ _ _ _ Hs Hi Hdone ltac:(done)) as (d&a&m&p'&d'&Hd&_&Hg&Hrun&Hm&Hi'&Hs').
  assert (reachable ttl d') as Hrd by (eapply reachable_run; [by eapply reachable_steps|done]).
  pose proof (outcome_run _ _ _ _ _ Hrd Hs' Hi' Hdone) as Hout.
  exists d, a, d'. split_and!; [done|done|done|]. left. cbn [goroutineStep] in Hg.
  case_bool_decide as Hl; [|done]. set (l := match a with Order l => l | _ => collected (mgr d) end) in *.
  injection Hg as <- <-. destruct Hout as [-> Hc]. exists (endEnv cn true l), 0.
  split_and!; [done|intros s; by apply closeResult_endEnv| |].
  - cbn [spec]. rewrite Hm, abs_clear. f_equal. f_equal. cbn [app order endEnv]. apply map_ext. intros s. by apply closeResult_endEnv.
  - intros id s Hid _. rewrite Forall_forall in Hc. apply Hc. rewrite Hl. apply elem_of_collected.
    rewrite abs_lookup in Hid. destruct (sessions (mgr d) !! id) as [e|] eqn:He; [eauto|done].
Qed.

(** From the reservation on. *)
Lemma create_finish d id e :
  reachable ttl d → rtc (step ttl) d cn → goroutines d !! i = Some (CreateNew id e) →
  r = ReplyErr ErrNewSession ∨
  (∃ x s, rtc (step ttl) d x ∧ rtc (step ttl) x cn ∧ goroutines x !! i = Some (CreateInstall id e s) ∧
     sessions (mgr x) !! id ≠ Some e ∧ closedIn cn s ∧ r = ReplyErr ErrSessionNotFound) ∨
  ∃ x a x' s, rtc (step ttl) d x ∧ run ttl i a x = Some x' ∧ rtc (step ttl) x' cn ∧ r = ReplyOk ∧
    abs (mgr x) !! id = None ∧ abs (mgr x') = <[id := s]> (abs (mgr x)).
Proof using Hdone.
  intros Hr Hs Hi. destruct (next_move _ _ _ _ _ Hs Hi Hdone ltac:(done)) as (y&a&m&p'&y'&Hy&_&Hg&Hrun&_&Hi'&Hs').
  assert (reachable ttl y') as Hry by (eapply reachable_run; [by eapply reachable_steps|done]).
  pose proof (outcome_run _ _ _ _ _ Hry Hs' Hi' Hdone) as Hout. cbn [goroutineStep] in Hg.
  assert (rtc (step ttl) d y') as Hdy by (eapply rtc_r; [exact Hy|by eapply step_run]).
  assert (∀ s, p' = CreateInstall id e s →
    (∃ x s, rtc (step ttl) d x ∧ rtc (step ttl) x cn ∧ goroutines x !! i = Some (CreateInstall id e s) ∧
       sessions (mgr x) !! id ≠ Some e ∧ closedIn cn s ∧ r = ReplyErr ErrSessionNotFound) ∨
    ∃ x a x' s, rtc (step ttl) d x ∧ run ttl i a x = Some x' ∧ rtc (step ttl) x' cn ∧ r = ReplyOk ∧
      abs (mgr x) !! id = None ∧ abs (mgr x') = <[id := s]> (abs (mgr x))) as Hinstall.
  { intros s ->. destruct (next_move _ _ _ _ _ Hs' Hi' Hdone ltac:(done)) as (x&b&m2&p2&x'&Hx&Hix&Hg2&Hrun2&Hm2&Hi2&Hs2).
    assert (reachable ttl x) as Hrx by by eapply reachable_steps. pose proof (reachable_managerInv _ _ Hrx) as Hinv.
    assert (reachable ttl x') as Hrx' by by eapply reachable_run.
    pose proof (outcome_run _ _ _ _ _ Hrx' Hs2 Hi2 Hdone) as Hout2. cbn [goroutineStep] in Hg2.
    case_bool_decide as Hid; injection Hg2 as <- <-.
    - right. exists x, b, x', s. split_and!; [by etrans|done|done|by destruct (0 <? ttl)%Z| |rewrite Hm2; by apply abs_install].
      rewrite abs_lookup, Hid. apply list_elem_of_lookup_2 in Hix. by apply (reserved_no_session x (CreateInstall id e s) id e Hinv Hix).
    - left. destruct Hout2 as [Hc ->]. exists x, s. split_and!; [by etrans| |done|done|done|done].
      eapply rtc_l; [by eapply step_run|done]. }
  destruct a; injection Hg as <- <-; cbn [outcome] in Hout;
    first [by left|by (left; apply Hout)|right; by eapply Hinstall].
Qed.

Lemma linear_create c id :
  reachable ttl c → rtc (step ttl) c cn → goroutines c !! i = Some (CreateReserve id) → takesEffect i (CallCreate id) r c cn.
Proof using Hdone Hrn.
  intros Hr Hs Hi. destruct (next_move _ _ _ _ _ Hs Hi Hdone ltac:(done)) as (d&a&m&p'&d'&Hd&_&Hg&Hrun&Hm&Hi'&Hs').
  assert (reachable ttl d) as Hr0 by by eapply reachable_steps. pose proof (reachable_managerInv _ _ Hr0) as Hinv.
  assert (reachable ttl d') as Hrd by by eapply reachable_run.
  pose proof (outcome_run _ _ _ _ _ Hrd Hs' Hi' Hdone) as Hout. cbn [goroutineStep] in Hg.
  destruct (sessions (mgr d) !! id) as [e|] eqn:Hid; injection Hg as <- <-; cbn [outcome] in Hout.
  - exists d, a, d'. split_and!; [done|done|done|]. destruct (entrySession (mgr d) e) as [s|] eqn:He.
    + left. apply (effect_intro cn true _ _ 0); [done|done|cbn [spec]; by rewrite abs_lookup, Hid, He, Hm, Hout|intros j x; by rewrite Hm].
    + right. left. destruct (mi_reserved _ Hinv _ _ Hid He) as (p&Hin&Hres). exists id, e, p.
      assert (creates p = Some (id, e)) as Hc.
      { unfold reserves in Hres. destruct (creates p) as [[id' e']|] eqn:Hcr; [|done]. injection Hres as ->.
        destruct (mi_new _ Hinv _ _ _ Hin Hcr) as (en&Hen&<-). destruct (mi_map _ Hinv _ _ Hid) as (en'&Hen'&<-). congruence. }
      by split_and!; [..|rewrite Hm| | |].
  - assert (abs (mgr d') = abs (mgr d)) as Habs by (rewrite Hm; by apply abs_reserve).
    assert (abs (mgr d) !! id = None) as Hfree by by rewrite abs_lookup, Hid.
    destruct (create_finish _ _ _ Hrd Hs' Hi') as [->|[(x&s&Hx&Hxn&Hix&Hlost&Hc&->)|(x&b&x'&s&Hx&Hrx&Hxn&->&Hnone&Hins)]].
    + exists d, a, d'. split_and!; [done|done|done|]. left.
      apply (effect_intro cn false _ _ 0); [done|done|cbn [spec newSucceeds endEnv]; by rewrite Hfree, Habs|intros j x; by rewrite Habs].
    + exists d, a, d'. split_and!; [done|done|done|]. right. right. exists id, (length (entries (mgr d))), s, x.
      split_and!; try done. rewrite Hm. cbn. by rewrite lookup_insert_eq.
    + exists x, b, x'. split_and!; [|done|done|].
      * etrans; [exact Hd|]. eapply rtc_l; [by eapply step_run|done].
      * left. apply (effect_intro cn true _ _ s); [done|done|cbn [spec newSucceeds endEnv]; by rewrite Hnone, Hins|].
        intros j y Hj Hj'. rewrite Hins in Hj'. destruct (decide (j = id)) as [->|Hne]; [congruence|]. by rewrite lookup_insert_ne in Hj'.
Qed.
End Call.
End Linear.

(** A step of a goroutine at [p], and the map of open sessions. *)
Lemma abs_run (ttl : Z) (c c' : system) (i : nat) (a : answer) (p : pc) :
  reachable ttl c → run ttl i a c = Some c' → goroutines c !! i = Some p →
  abs (mgr c') = abs (mgr c) ∨
  match p with
  | CreateInstall id e s => abs (mgr c) !! id = None ∧ abs (mgr c') = <[id := s]> (abs (mgr c))
  | CloseLookup id => abs (mgr c') = delete id (abs (mgr c))
  | CloseAllSection => abs (mgr c') = ∅
  | Expire id s => abs (mgr c) !! id = Some s ∧ abs (mgr c') = delete id (abs (mgr c))
  | CloseTerminal s _ => ∃ o, objs (mgr c) !! s = Some o ∧ abs (mgr c') = delete (sid o) (abs (mgr c))
  | _ => False
  end.
Proof.
  intros Hr H Hi. pose proof (reachable_managerInv _ _ Hr) as Hinv. unfold run in H. rewrite Hi in H.
  destruct (goroutineStep ttl a p (mgr c)) as [[m p']|] eqn:Hg; [|done]. injection H as <-. cbn [mgr] in *.
  destruct p; cbn [goroutineStep] in Hg;
    repeat match type of Hg with
    | Some _ = Some _ => injection Hg as <- <-
    | None = Some _ => discriminate Hg
    | context [match ?x with _ => _ end] => destruct x eqn:?
    end; try (left; by apply abs_ext);
    try match goal with H : bool_decide _ = true |- _ => apply bool_decide_eq_true_1 in H end.
  - left. by apply abs_reserve.
  - left. destruct (abs_removeEntry id e (mgr c)) as [Ha|[Hid Ha]]; [done|]. rewrite Ha, delete_id; [done|]. rewrite abs_lookup, Hid.
    apply list_elem_of_lookup_2 in Hi. by apply (reserved_no_session c (CreateRemove id e) id e Hinv Hi).
  - right. split; [|by apply abs_install].
    rewrite abs_lookup, Heqb. apply list_elem_of_lookup_2 in Hi. by apply (reserved_no_session c (CreateInstall id e s) id e Hinv Hi).
  - right. split; [|by rewrite abs_delete]. by rewrite abs_lookup, Heqo.
  - right. by rewrite abs_delete.
  - right. by rewrite abs_delete.
  - right. by rewrite abs_clear.
  - destruct (abs_removeEntry (sid s0) (sentry s0) (mgr c)) as [Ha|[_ Ha]]; [by left|right]. by exists s0.
Qed.

(** The steps that change the map of open sessions: the four linearization
    points, and a session that expires or closes leaving it. *)
Theorem abs_step (ttl : Z) (c c' : system) :
  reachable ttl c → step ttl c c' →
  abs (mgr c') = abs (mgr c) ∨
  ∃ i a p, run ttl i a c = Some c' ∧ goroutines c !! i = Some p ∧
    match p with
    | CreateInstall id e s => abs (mgr c) !! id = None ∧ abs (mgr c') = <[id := s]> (abs (mgr c))
    | CloseLookup id => abs (mgr c') = delete id (abs (mgr c))
    | CloseAllSection => abs (mgr c') = ∅
    | Expire id s => abs (mgr c) !! id = Some s ∧ abs (mgr c') = delete id (abs (mgr c))
    | CloseTerminal s _ => ∃ o, objs (mgr c) !! s = Some o ∧ abs (mgr c') = delete (sid o) (abs (mgr c))
    | _ => False
    end.
Proof.
  intros Hr [i a d H|q H|x H|x d H]; [|by left|by left|].
  - assert (is_Some (goroutines c !! i)) as [p Hi] by (unfold run in H; by destruct (goroutines c !! i)).
    destruct (abs_run _ _ _ _ _ _ Hr H Hi) as [Ha|Ha]; [by left|right]. by exists i, a, p.
  - left. unfold fire in H. destruct (objs (mgr c) !! x) as [o|]; [|done]. destruct (sexpiry o); try done; injection H as <-; by apply abs_ext.
Qed.

(** C4. Concurrent calls are linearizable: a call that starts in any reachable
    state and returns, however other calls, expiry timers and closing sessions
    interleave with it, takes effect at one of its own steps - between its start
    and its return - on the map of open sessions, with the reply the sequential
    specification gives at that step.  The exceptions are two outcomes of
    Create that leave the map alone: it is refused because another Create for
    the id is in flight, or its reservation is gone when its session is ready,
    which is then closed. *)
Theorem manager_linearizable (ttl : Z) (c cn : system) (k : call) (r : reply) :
  reachable ttl c → rtc (step ttl) (start (callPc k) c) cn →
  goroutines cn !! length (goroutines c) = Some (Done r) →
  takesEffect ttl (length (goroutines c)) k r (start (callPc k) c) cn.
Proof.
  intros Hr Hs Hdone. assert (reachable ttl (start (callPc k) c)) as Hr0.
  { eapply reachable_steps; [done|]. apply rtc_once, step_call. by destruct k. }
  assert (reachable ttl cn) as Hrn by by eapply reachable_steps.
  assert (goroutines (start (callPc k) c) !! length (goroutines c) = Some (callPc k)) as Hi by by apply list_lookup_middle.
  destruct k; [by apply linear_create|by apply linear_mark|by apply linear_close|by apply linear_close_all].
Qed.

(** CloseAll between the reservation of a Create and its installation. *)
Lemma closeAllDuringCreate_from cn :
  closeAllDuringCreate = Some cn → rtc (step 1) (start (CreateReserve §"kitchen") initial) cn.
Proof.
  unfold closeAllDuringCreate. cbn zeta. set (c0 := start (CreateReserve §"kitchen") initial).
  assert (rtc (step 1) c0 (start CloseAllSection c0)) as H0 by (by apply rtc_once, step_call).
  repeat match goal with |- context [match ?r with Some _ => _ | None => None end] => destruct r eqn:?; [|done] end.
  intros. repeat (etrans; [|eapply answers_steps; eassumption]). exact H0.
Qed.

Lemma manager_linearizable_witness :
  ∃ cn, closeAllDuringCreate = Some cn ∧
    takesEffect 1 0 (CallCreate §"kitchen") (ReplyErr ErrSessionNotFound) (start (CreateReserve §"kitchen") initial) cn.
Proof.
  assert (closeAllDuringCreate_ok = true) as Hok by (vm_compute; reflexivity). unfold closeAllDuringCreate_ok in Hok.
  destruct closeAllDuringCreate as [cn|] eqn:E; [|discriminate Hok]. exists cn. split; [reflexivity|].
  apply andb_true_iff in Hok as [Hg _]. apply bool_decide_eq_true_1 in Hg.
  apply (manager_linearizable 1 initial cn (CallCreate §"kitchen") (ReplyErr ErrSessionNotFound)).
  - apply rtc_refl.
  - exact (closeAllDuringCreate_from cn E).
  - rewrite Hg. reflexivity.
Defined.
