(* ===== verification/ManagerTimer.v ===== *)
(** * The expiry timer of a live session

    With a positive TTL every session in the map has an armed timer once the
    calls in flight have returned ([live_armed]); without one no timer is ever
    made ([no_timers]).  The invariant follows a session from its installation:
    its Create still has to arm the timer, the timer is armed, or it has fired
    and the goroutine that takes the session out of the map is on its way. *)

From S2P Require Import Prelude GoString Contract Manager ManagerLife ManagerLinear.

(** What a step does to the timer of a session that is open after it. *)
Lemma step_timer ttl a p m m' p' s o' :
  goroutineStep ttl a p m = Some (m', p') → s < length (objs m) → objs m' !! s = Some o' → sphase o' = Open →
  ∃ o, objs m !! s = Some o ∧ sphase o = Open ∧ sexpiry o' =
    match p with
    | CreateArm x => if decide (x = s) then Made else sexpiry o
    | CreateHandOver x => if decide (x = s) then handExpiry Open (sexpiry o) else sexpiry o
    | _ => sexpiry o
    end.
Proof.
  intros Hstep [o Ho]%lookup_lt_is_Some_2 Ho' Hop. exists o. split; [done|].
  destruct (decide (target p = Some s)) as [Ht|Ht].
  - destruct p as [r|id|id e|id e|id e x|x|x|id x|id|x|id| |rest errs|x k|x k|x k]; try discriminate Ht;
      injection Ht as ->; cbn [goroutineStep] in Hstep.
    + injection Hstep as <- <-. cbn in Ho'. rewrite list_lookup_alter_eq, Ho in Ho'. injection Ho' as <-. by rewrite decide_True.
    + injection Hstep as <- <-. cbn in Ho'. rewrite list_lookup_alter_eq, Ho in Ho'. injection Ho' as <-. cbn in Hop |- *.
      by rewrite decide_True, Hop.
    + injection Hstep as <- <-. cbn in Ho'. rewrite list_lookup_alter_eq, Ho in Ho'. by injection Ho' as <-.
    + rewrite Ho in Hstep. destruct (sphase o) eqn:Hph; simplify_eq/=.
      * rewrite list_lookup_insert_eq in Ho' by (by eapply lookup_lt_Some). by injection Ho' as <-.
      * congruence.
    + rewrite Ho in Hstep. injection Hstep as <- <-. rewrite (proj2 (removeEntry_entries _ _ _)), Ho in Ho'. by injection Ho' as <-.
    + rewrite Ho in Hstep. injection Hstep as <- <-. cbn in Ho'.
      rewrite list_lookup_insert_eq in Ho' by (by eapply lookup_lt_Some). by injection Ho' as <-.
  - destruct (step_other _ _ _ _ _ _ _ _ Hstep Ht Ho) as (Hk&_&_). rewrite Hk in Ho'. injection Ho' as <-. split; [done|].
    destruct p; try done; rewrite decide_False; try done; by intros ->.
Qed.

Section Timers.
Variable ttl : Z.

(** ** With a TTL *)

Definition timerOf (c : system) (id : gostring) (s : nat) : Prop :=
  ∀ o, objs (mgr c) !! s = Some o → sphase o = Open →
    sexpiry o = Made ∨ sexpiry o = Handed ∨ (sexpiry o = NoTimer ∧ CreateArm s ∈ goroutines c) ∨
    (sexpiry o = Gone ∧ Expire id s ∈ goroutines c).

Definition timersInv (c : system) : Prop := ∀ id s, abs (mgr c) !! id = Some s → timerOf c id s.

Lemma live_session c id s :
  managerInv c → abs (mgr c) !! id = Some s →
  ∃ e o, sessions (mgr c) !! id = Some e ∧ entrySession (mgr c) e = Some s ∧ objs (mgr c) !! s = Some o ∧ sid o = id ∧ sentry o = e.
Proof.
  intros Hinv Hl. rewrite abs_lookup in Hl. destruct (sessions (mgr c) !! id) as [e|] eqn:Hid; [|done].
  destruct (current_session _ _ _ _ Hinv Hid Hl) as (o&?&?&?). by exists e, o.
Qed.

Lemma timers_run i a c c' : (0 < ttl)%Z → reachable ttl c → run ttl i a c = Some c' → timersInv c → timersInv c'.
Proof.
  intros Httl Hr Hrun Hinv id s Hl o' Ho' Hop. pose proof (reachable_managerInv _ _ Hr) as Hm.
  destruct (mrun_inv _ _ _ _ _ Hrun) as (p&m'&p'&Hi&Hstep&->). cbn [mgr goroutines] in *.
  assert (Hold : abs (mgr c) !! id = Some s ∨ ∃ e, p = CreateInstall id e s).
  { destruct (abs_run ttl c _ i a p Hr Hrun Hi) as [Ha|Ha]; cbn [mgr] in Ha; [left; congruence|].
    destruct p; try done.
    - destruct Ha as [_ Ha]. rewrite Ha in Hl. apply lookup_insert_Some in Hl as [[-> ->]|[_ Hl]]; [by right; exists e|by left].
    - destruct Ha as [_ Ha]. rewrite Ha in Hl. apply lookup_delete_Some in Hl as [_ Hl]. by left.
    - rewrite Ha in Hl. apply lookup_delete_Some in Hl as [_ Hl]. by left.
    - rewrite Ha in Hl. done.
    - destruct Ha as (z&_&Ha). rewrite Ha in Hl. apply lookup_delete_Some in Hl as [_ Hl]. by left. }
  destruct Hold as [Hold|[e ->]].
  - destruct (live_session _ _ _ Hm Hold) as (e&z&Hid&He&Hz&_).
    destruct (step_timer _ _ _ _ _ _ s o' Hstep) as (o&Ho&Hopen&Hx); [by eapply lookup_lt_Some|done|done|].
    destruct (Hinv id s Hold o Ho Hopen) as [Hex|[Hex|[[Hex Hin]|[Hex Hin]]]]; rewrite Hex in Hx.
    + destruct p; cbn in Hx; try (by left); case_decide; auto.
    + destruct p; cbn in Hx; try (by right; left); case_decide; auto.
    + destruct (decide (p = CreateArm s)) as [->|Hne]; [rewrite decide_True in Hx by done; by left|].
      right. right. left. split; [|by eapply replace_other]. destruct p; cbn in Hx; try done; case_decide; by simplify_eq.
    + destruct (decide (p = CreateArm s)) as [->|Hna]; [rewrite decide_True in Hx by done; by left|].
      right. right. right. destruct (decide (p = Expire id s)) as [->|Hne].
      * exfalso. cbn [goroutineStep] in Hstep. rewrite Hid, bool_decide_eq_true_2 in Hstep by done. injection Hstep as <- <-.
        rewrite abs_delete, lookup_delete_eq in Hl. done.
      * split; [|by eapply replace_other]. destruct p; cbn in Hx; try done; case_decide; by simplify_eq.
  - pose proof (reachable_armed _ _ s Hr) as Harm.
    destruct (armed_at _ _ _ _ Harm Hi (bool_decide_eq_true_2 _ eq_refl)) as [_ (o&Ho&He)]. cbn in He.
    destruct (step_timer _ _ _ _ _ _ s o' Hstep) as (o2&Ho2&_&Hx); [by eapply lookup_lt_Some|done|done|].
    rewrite Ho in Ho2. injection Ho2 as <-. cbn in Hx. right. right. left. split; [congruence|].
    cbn [goroutineStep] in Hstep. rewrite (proj2 (Z.ltb_lt 0 ttl) Httl) in Hstep. case_bool_decide; injection Hstep as <- <-.
    + by eapply replace_new.
    + exfalso. destruct (live_session _ _ _ Hm Hl) as (e2&z&Hid&_&Hz&_&Hs). rewrite Ho in Hz. injection Hz as <-.
      destruct (mi_install _ Hm id e s) as (z&Hz&Hse&_); [by eapply list_elem_of_lookup_2|]. rewrite Ho in Hz. injection Hz as <-. congruence.
Qed.

Lemma timers_step c c' : (0 < ttl)%Z → reachable ttl c → step ttl c c' → timersInv c → timersInv c'.
Proof.
  intros Httl Hr Hs Hinv. destruct Hs as [i a d H|p H|s H|x d H].
  - by eapply timers_run.
  - intros id s Hl o Ho Hop. cbn [start mgr goroutines] in *. rewrite !elem_of_app. destruct (Hinv id s Hl o Ho Hop); tauto.
  - intros id s' Hl o Ho Hop. cbn [start mgr goroutines] in *. rewrite !elem_of_app. destruct (Hinv id s' Hl o Ho Hop); tauto.
  - apply fire_spec in H as (o&Ho&_&->). intros id s Hl o' Ho' Hop. cbn [mgr goroutines set_objs objs] in *.
    change (abs (mgr c) !! id = Some s) in Hl. rewrite !elem_of_app. destruct (decide (x = s)) as [->|Hne].
    + rewrite list_lookup_insert_eq in Ho' by (by eapply lookup_lt_Some). injection Ho' as <-.
      destruct (live_session _ _ _ (reachable_managerInv _ _ Hr) Hl) as (e&z&_&_&Hz&<-&_). rewrite Ho in Hz. injection Hz as <-.
      right. right. right. split; [done|]. right. by left.
    + rewrite list_lookup_insert_ne in Ho' by done. destruct (Hinv id s Hl o' Ho' Hop); tauto.
Qed.

Lemma reachable_timers c : (0 < ttl)%Z → reachable ttl c → timersInv c.
Proof.
  intros Httl Hr. pattern c. eapply rtc_ind_r; [| |exact Hr].
  - intros id s H. rewrite abs_lookup in H. done.
  - intros y z Hy Hs Hinv. by eapply timers_step.
Qed.

(** Every session of a settled manager can expire. *)
Lemma live_armed c id s :
  (0 < ttl)%Z → reachable ttl c → quiescent c → abs (mgr c) !! id = Some s → is_Some (fire s c).
Proof.
  intros Httl Hr Hq Hl. pose proof (reachable_managerInv _ _ Hr) as Hm.
  destruct (live_session _ _ _ Hm Hl) as (e&o&Hid&He&Ho&_).
  destruct (quiescent_entry _ _ _ Hm Hq Hid) as (s2&o2&He2&Ho2&_&_&Hop).
  assert (s2 = s) as -> by congruence. rewrite Ho in Ho2. injection Ho2 as <-.
  assert (Hnone : ∀ p, p ∈ goroutines c → returned p) by by apply Forall_forall.
  unfold fire. rewrite Ho. destruct (reachable_timers c Httl Hr id s Hl o Ho Hop) as [->|[->|[[_ Hin]|[_ Hin]]]];
    [by eexists..|by apply Hnone in Hin|by apply Hnone in Hin].
Qed.

(** ** Without one *)

Definition timeless (c : system) : Prop :=
  Forall (λ o, sexpiry o = NoTimer) (objs (mgr c)) ∧
  Forall (λ p, match p with CreateArm _ | CreateHandOver _ => False | _ => True end) (goroutines c).

Lemma timeless_run i a c c' : (ttl <= 0)%Z → run ttl i a c = Some c' → timeless c → timeless c'.
Proof.
  intros Httl (p&m'&p'&Hi&Hstep&->)%mrun_inv [Ho Hg]. pose proof (Forall_lookup_1 _ _ _ _ Hg Hi) as Hp.
  assert ((0 <? ttl)%Z = false) as Hz by (apply Z.ltb_ge; lia).
  assert (Hnew : ∀ q, match q with CreateArm _ | CreateHandOver _ => False | _ => True end →
    Forall (λ p, match p with CreateArm _ | CreateHandOver _ => False | _ => True end) (<[i := q]> (goroutines c)))
    by (intros; by apply Forall_insert).
  unfold timeless. cbn [mgr goroutines]. destruct p; cbn [goroutineStep] in Hstep; try done; rewrite ?Hz in Hstep;
    repeat match type of Hstep with
    | Some _ = Some _ => injection Hstep as <- <-
    | None = Some _ => discriminate Hstep
    | context [match ?x with _ => _ end] => destruct x eqn:?
    end; cbn [objs set_objs set_sessions set_entries]; rewrite ?(proj2 (removeEntry_entries _ _ _));
    (split; [|apply Hnew; first [done|by destruct k]]);
    first [done|by (apply Forall_app; split; [done|by repeat constructor])|by (apply Forall_alter; [done|by intros ???])|idtac];
    (apply Forall_insert; [done|]); pose proof (Forall_lookup_1 _ _ _ _ Ho Heqo) as Hx; cbn; cbn in Hx; by rewrite Hx.
Qed.

Lemma no_timers c s : (ttl <= 0)%Z → reachable ttl c → fire s c = None.
Proof.
  intros Httl Hr. assert (timeless c) as [Ho _].
  { pattern c. eapply rtc_ind_r; [| |exact Hr]; [split; constructor|].
    intros y z _ [i a d H|p H|x H|x d H] Ht.
    - by eapply timeless_run.
    - destruct Ht. split; [done|]. apply Forall_app. split; [done|]. apply Forall_singleton. by destruct p.
    - destruct Ht. split; [done|]. apply Forall_app. split; [done|]. by apply Forall_singleton.
    - apply fire_spec in H as (o&Hx&Hex&->). destruct Ht as [Ht _].
      pose proof (Forall_lookup_1 _ _ _ _ Ht Hx) as Hn. cbn in Hn. rewrite Hn in Hex. by destruct Hex. }
  unfold fire. destruct (objs (mgr c) !! s) as [o|] eqn:Hx; [|done].
  pose proof (Forall_lookup_1 _ _ _ _ Ho Hx) as Hn. cbn in Hn. by rewrite Hn.
Qed.
End Timers.
