(* ===== verification/Gateway.v ===== *)
(** * The API over the manager

    The manager implements the session service the HTTP handlers are written
    against: [managerService] runs one call of the manager's model to its
    return, [managerLaws] discharges the laws with the manager's theorems, and
    the API's theorems then hold of the composed gateway.  A creation runs
    [NewSession] of [Server.v] on what the engine answers for it ([calls]);
    whether closing a session reports an error is the environment's choice
    ([closeError]).  A history is a sequence of requests, of expiry timers that
    fire and of sessions that close on their own; [learn] reads off its log
    which sessions are live. *)

From S2P Require Import Prelude GoString Mime Path SdpAnswer Server HttpApi Contract Manager ManagerLife ManagerLinear ManagerTimer.

(** errors.Is on what Create returns, as the handlers see it. *)
Definition asRtcError (e : newSessionError) : rtcError :=
  match e with
  | NewInvalidSDP => HttpApi.ErrInvalidSDP
  | NewOpusRequired _ => HttpApi.ErrOpusRequired
  | NewAnswerTimeout => HttpApi.ErrAnswerTimeout
  | NewPeerError => HttpApi.ErrOther
  end.

Lemma exec_mono ttl fuel ans p m x k : exec ttl fuel ans p m = Some x → exec ttl (fuel + k) ans p m = Some x.
Proof.
  revert p m. induction fuel as [|f IH]; intros p m.
  - destruct p; try done. by destruct k.
  - change (S f + k) with (S (f + k)). destruct p; cbn [exec]; try done; destruct (goroutineStep _ _ _ _) as [[??]|]; eauto.
Qed.

(** A call run alone is a run of the concurrent system. *)
Lemma exec_steps ttl fuel ans p m m' r gs :
  exec ttl fuel ans p m = Some (m', r) →
  rtc (step ttl) {| mgr := m; goroutines := gs ++ [p] |} {| mgr := m'; goroutines := gs ++ [Done r] |}.
Proof.
  revert p m. induction fuel as [|f IH]; intros p m H.
  - destruct p; try done. cbn in H. injection H as -> ->. apply rtc_refl.
  - destruct (goroutineStep ttl (ans p) p m) as [[m1 p1]|] eqn:E.
    + rewrite (exec_step _ _ _ _ _ _ _ E) in H. eapply rtc_l; [|by apply IH]. eapply step_run with (i := length gs) (a := ans p).
      unfold run. cbn [mgr goroutines]. rewrite list_lookup_middle by done. rewrite E.
      by rewrite (list_insert_middle gs []).
    + destruct p; cbn [exec] in H; try (by rewrite E in H). injection H as -> ->. apply rtc_refl.
Qed.

Section Service.
Context (ttl : Z) (closeError : system → nat → bool) (calls : system → gostring → peerCalls).
Context (parseSDP : gostring → option (list mediaDescription)) (UnmarshalCandidate : gostring → bool).

(** What NewSession returns for an offer; it always returns (Server.v). *)
Definition newResult (c : system) (id offer : gostring) : result newSessionError gostring :=
  match NewSession parseSDP UnmarshalCandidate (calls c id) offer with
  | Some (_, r) => r
  | None => Err NewPeerError
  end.

Definition envOf (c : system) (newSucceeds : bool) : environment :=
  {| newSucceeds := newSucceeds; closeFails := closeError c; order := [] |}.

(** A goroutine that starts at [p] and runs alone until it returns. *)
Definition runGoroutine (ok : bool) (p : pc) (c : system) : system * reply :=
  match exec ttl 5 (answers (envOf c ok)) p (mgr c) with
  | Some (m, r) => ({| mgr := m; goroutines := goroutines c ++ [Done r] |}, r)
  | None => (c, ReplyErr ErrNewSession)
  end.

Definition runCall (ok : bool) (k : call) (c : system) : system * reply := runGoroutine ok (callPc k) c.

Definition managerCreate (c : system) (id offer : gostring) : system * result rtcError gostring :=
  let made := newResult c id offer in
  match runCall (is_ok made) (CallCreate id) c with
  | (c', ReplyErr Manager.ErrSessionExists) => (c', Err HttpApi.ErrSessionExists)
  | (c', ReplyErr Manager.ErrSessionNotFound) => (c', Err HttpApi.ErrSessionNotFound)
  | (c', _) => (c', match made with Ok answer => Ok answer | Err e => Err (asRtcError e) end)
  end.

Definition asError (r : reply) : option rtcError :=
  match r with
  | ReplyOk => None
  | ReplyErr Manager.ErrSessionNotFound => Some HttpApi.ErrSessionNotFound
  | _ => Some HttpApi.ErrOther
  end.

Definition managerMarkConnected (c : system) (id : gostring) : system * option rtcError :=
  let '(c', r) := runCall false (CallMarkConnected id) c in (c', asError r).

Definition managerClose (c : system) (id : gostring) : system * option rtcError :=
  let '(c', r) := runCall false (CallClose id) c in (c', asError r).

Definition managerService : SessionService system :=
  {| svcCreate := managerCreate; svcMarkConnected := managerMarkConnected; svcClose := managerClose |}.

Definition settled (c : system) : Prop := reachable ttl c ∧ quiescent c.
Definition managerLive (c : system) (id : gostring) : Prop := is_Some (abs (mgr c) !! id).

(** One call from a settled state returns within its five steps, with the
    specified map and reply. *)
Lemma runCall_exec ok k c :
  settled c → k ≠ CallCloseAll →
  ∃ m r, exec ttl 5 (answers (envOf c ok)) (callPc k) (mgr c) = Some (m, r) ∧
    (abs m, r) = spec (envOf c ok) k (length (objs (mgr c))) (abs (mgr c)).
Proof.
  intros [Hr Hq] Hk.
  destruct (manager_implements ttl c (envOf c ok) k Hr Hq) as (fuel&m&r&Hf&Hexec&Hspec&_); [done|].
  cbn [order envOf length] in Hf. rewrite Nat.mul_0_r, Nat.add_0_r in Hf.
  apply (exec_mono _ _ _ _ _ _ (5 - fuel)) in Hexec. replace (fuel + (5 - fuel)) with 5 in Hexec by lia. by exists m, r.
Qed.

(** A goroutine started in a settled state that returns leaves it settled. *)
Lemma run_settled ok p c0 c m r :
  settled c0 → step ttl c0 (start p c) → quiescent c →
  exec ttl 5 (answers (envOf c ok)) p (mgr c) = Some (m, r) →
  settled {| mgr := m; goroutines := goroutines c ++ [Done r] |}.
Proof.
  intros [Hr _] Hs Hq Hexec. split.
  - unfold reachable in *. etrans; [exact Hr|]. eapply rtc_l; [exact Hs|]. by eapply exec_steps.
  - unfold quiescent in *. cbn [goroutines]. apply Forall_app. split; [done|]. by apply Forall_singleton.
Qed.

(** Settled again, with the specified map and reply. *)
Lemma runCall_spec ok k c :
  settled c → k ≠ CallCloseAll →
  settled (runCall ok k c).1 ∧
  (abs (mgr (runCall ok k c).1), (runCall ok k c).2) = spec (envOf c ok) k (length (objs (mgr c))) (abs (mgr c)).
Proof.
  intros Hs Hk. destruct (runCall_exec ok k c Hs Hk) as (m&r&Hexec&Hspec).
  unfold runCall, runGoroutine. rewrite Hexec. cbn [fst snd mgr]. split; [|done].
  eapply run_settled; [exact Hs|apply (step_call _ _ (callPc k)); by destruct k|apply Hs|exact Hexec].
Qed.

(** Create on a settled manager: refused for a live id, otherwise NewSession's
    result, with the session kept exactly if it succeeded. *)
Lemma managerCreate_spec c id offer : settled c →
  settled (managerCreate c id offer).1 ∧
  (managerCreate c id offer).2 =
    match abs (mgr c) !! id with
    | Some _ => Err HttpApi.ErrSessionExists
    | None => match newResult c id offer with Ok answer => Ok answer | Err e => Err (asRtcError e) end
    end ∧
  abs (mgr (managerCreate c id offer).1) =
    match abs (mgr c) !! id with
    | Some _ => abs (mgr c)
    | None => if is_ok (newResult c id offer) then <[id := length (objs (mgr c))]> (abs (mgr c)) else abs (mgr c)
    end.
Proof.
  intros Hs. unfold managerCreate.
  destruct (runCall_spec (is_ok (newResult c id offer)) (CallCreate id) c Hs) as [Hs' Hspec]; [done|].
  destruct (runCall _ (CallCreate id) c) as [c' r]. cbn [fst snd spec newSucceeds envOf] in *.
  destruct (abs (mgr c) !! id) as [x|]; [by injection Hspec as Ha ->|].
  destruct (newResult c id offer); cbn [is_ok] in *; by injection Hspec as Ha ->.
Qed.

#[local] Existing Instance managerService.

Program Definition managerLaws : SessionLaws system :=
  {| svcInv := settled; live := managerLive |}.
Next Obligation.
  intros c id offer Hs. cbn [svcCreate managerService]. destruct (managerCreate_spec c id offer Hs) as (Hs'&Hr&Ha).
  destruct (managerCreate c id offer) as [c' r]. cbn [fst snd] in *. split; [done|]. unfold managerLive. rewrite Ha, Hr.
  destruct (abs (mgr c) !! id) as [x|] eqn:Hid; [by split; [split; eauto|]|].
  destruct (newResult c id offer) as [a|e]; cbn [is_ok].
  - split; [by intros [??]|]. intros j. rewrite lookup_insert_is_Some. destruct (decide (j = id)); naive_solver.
  - split; [|done]. split; [by destruct e|by intros [??]].
Qed.
Next Obligation.
  intros c id Hs. cbn [svcMarkConnected managerService]. unfold managerMarkConnected, managerLive.
  destruct (runCall_spec false (CallMarkConnected id) c Hs) as [Hs' Hspec]; [done|]. destruct (runCall false (CallMarkConnected id) c) as [c' r].
  cbn [fst snd spec] in *. destruct (abs (mgr c) !! id) as [x|] eqn:Hid; injection Hspec as Ha ->; rewrite Ha; [left|right].
  - split_and!; [done|done|done|eauto].
  - split_and!; [done|done|done|by intros [??]].
Qed.
Next Obligation.
  intros c id Hs. cbn [svcClose managerService]. unfold managerClose, managerLive.
  destruct (runCall_spec false (CallClose id) c Hs) as [Hs' Hspec]; [done|]. destruct (runCall false (CallClose id) c) as [c' r].
  cbn [fst snd spec] in *. destruct (abs (mgr c) !! id) as [x|] eqn:Hid; injection Hspec as Ha ->; rewrite Ha; (split; [done|]).
  - split; [intros j; rewrite lookup_delete_is_Some; naive_solver|].
    split; [unfold closeResult; by destruct (closeFails _ x)|]. intros Hn. destruct Hn. eauto.
  - split; [intros j|by split; [intros _ [??]|]]. destruct (decide (j = id)) as [->|]; [|naive_solver].
    rewrite Hid. split; [by intros [??]|naive_solver].
Qed.

(** ** What happens between requests *)

(** A session's expiry timer fires, if it is armed, and [expire] runs; a session
    closes on its own, as on a terminal state of its peer.  A request is served. *)
Inductive event := Serve (r : request) | TimerFires (s : nat) | ClosesItself (s : nat).

(** What has happened. *)
Inductive entry := Served (r : request) (resp : response) | Expired (s : nat) | Ended (s : nat).

Definition timerFires (c : system) (s : nat) : system * list entry :=
  match fire s c, objs (mgr c) !! s with
  | Some c', Some o => ((runGoroutine false (Expire (sid o) s) {| mgr := mgr c'; goroutines := goroutines c |}).1, [Expired s])
  | _, _ => (c, [])
  end.

Definition closesItself (c : system) (s : nat) : system * list entry :=
  if s <? length (objs (mgr c)) then ((runGoroutine false (CloseCall s AfterDrop) c).1, [Ended s]) else (c, []).

Section History.
Variables (sha256 : gostring → gostring) (token : gostring).

Definition occurs (c : system) (e : event) : system * list entry :=
  match e with
  | Serve r => let '(c', resp) := ServeHTTP sha256 token c r in (c', [Served r resp])
  | TimerFires s => timerFires c s
  | ClosesItself s => closesItself c s
  end.

Fixpoint history (c : system) (es : list event) : system * list entry :=
  match es with
  | [] => (c, [])
  | e :: rest =>
      let '(c1, log) := occurs c e in
      let '(c2, log') := history c1 rest in (c2, log ++ log')
  end.

(** The gateway as main.go wires it, from its start: the API over the manager,
    whose sessions have the configured TTL. *)
Definition gateway (es : list event) : system * list entry := history initial es.

(** What the log says is live, without a look at the manager: the sessions are
    numbered in the order of the creations answered with a session; a session
    is live under its id until a DELETE of the id, its expiry or its end. *)
Record view := { made : nat; known : gmap gostring nat }.

Definition nothingKnown : view := {| made := 0; known := ∅ |}.

Definition learn (v : view) (e : entry) : view :=
  match e with
  | Served r resp =>
      match told sha256 token r resp with
      | Some (Created id) => {| made := S (made v); known := <[id := made v]> (known v) |}
      | Some (Deleted id) => {| made := made v; known := delete id (known v) |}
      | None => v
      end
  | Expired s | Ended s => {| made := made v; known := filter (λ x, x.2 ≠ s) (known v) |}
  end.

Definition requestsOf (es : list event) : list request := omap (λ e, match e with Serve r => Some r | _ => None end) es.
Definition servedRequests (log : list entry) : list request := omap (λ e, match e with Served r _ => Some r | _ => None end) log.

(** The manager is as the view says. *)
Definition seen (v : view) (c : system) : Prop := settled c ∧ length (objs (mgr c)) = made v ∧ abs (mgr c) = known v.

Lemma settled_initial : settled initial.
Proof. split; [apply rtc_refl|apply Forall_nil; exact I]. Qed.

(** *** Sessions are only made by creations *)

Lemma step_objs a p m m' p' :
  goroutineStep ttl a p m = Some (m', p') → (∀ id, p ≠ CreateReserve id) → (∀ id e, p ≠ CreateNew id e) →
  length (objs m') = length (objs m) ∧ (∀ id, p' ≠ CreateReserve id) ∧ (∀ id e, p' ≠ CreateNew id e).
Proof.
  intros Hstep Hp1 Hp2. destruct p; cbn [goroutineStep] in Hstep; try done; try (by destruct (Hp1 id)); try (by destruct (Hp2 id e));
    repeat match type of Hstep with
    | Some _ = Some _ => injection Hstep as <- <-
    | None = Some _ => discriminate Hstep
    | context [match ?x with _ => _ end] => destruct x eqn:?
    end; cbn [objs set_objs set_sessions set_entries]; rewrite ?(proj2 (removeEntry_entries _ _ _)), ?length_alter, ?length_insert;
    split_and!; first [done|by match goal with k : after |- _ => destruct k end|by destruct (0 <? ttl)%Z].
Qed.

Lemma exec_objs fuel ans p m m' r :
  exec ttl fuel ans p m = Some (m', r) → (∀ id, p ≠ CreateReserve id) → (∀ id e, p ≠ CreateNew id e) →
  length (objs m') = length (objs m).
Proof.
  revert p m. induction fuel as [|f IH]; intros p m H Hp1 Hp2; [destruct p; try done; by injection H as -> ->|].
  destruct (goroutineStep ttl (ans p) p m) as [[m1 p1]|] eqn:E.
  - rewrite (exec_step _ _ _ _ _ _ _ E) in H. destruct (step_objs _ _ _ _ _ E Hp1 Hp2) as (<-&?&?). by eapply IH.
  - destruct p; cbn [exec] in H; rewrite ?E in H; try done. by injection H as -> ->.
Qed.

Lemma runCall_objs ok k c :
  settled c → k ≠ CallCloseAll →
  length (objs (mgr (runCall ok k c).1)) =
  length (objs (mgr c)) + match k with CallCreate id => if bool_decide (abs (mgr c) !! id = None) && ok then 1 else 0 | _ => 0 end.
Proof.
  intros Hs Hk. destruct (runCall_exec ok k c Hs Hk) as (m&r&E&_). unfold runCall, runGoroutine. rewrite E. cbn [fst mgr].
  destruct k as [id|id|id|]; [|by rewrite Nat.add_0_r, (exec_objs _ _ _ _ _ _ E)..|done]. cbn [callPc] in E.
  destruct Hs as [Hr Hq]. pose proof (reachable_managerInv _ _ Hr) as Hinv. destruct (sessions (mgr c) !! id) as [e|] eqn:Hid.
  - destruct (abs_quiescent _ _ _ Hinv Hq Hid) as (s&Hs&_). rewrite Hs, bool_decide_eq_false_2 by done. cbn [andb].
    cbn [exec goroutineStep] in E. rewrite Hid in E. injection E as <- _. by rewrite Nat.add_0_r.
  - rewrite (abs_free c id Hid), bool_decide_eq_true_2 by done. cbn [andb].
    erewrite exec_step in E by (cbn [goroutineStep]; by rewrite Hid).
    destruct ok; (erewrite exec_step in E by (cbn [goroutineStep answers newSucceeds envOf]; reflexivity));
      rewrite (exec_objs _ _ _ _ _ _ E) by done; cbn; rewrite ?length_app; simpl; lia.
Qed.

Lemma managerCreate_objs c id offer : settled c →
  length (objs (mgr (managerCreate c id offer).1)) =
  length (objs (mgr c)) + match abs (mgr c) !! id with Some _ => 0 | None => if is_ok (newResult c id offer) then 1 else 0 end.
Proof.
  intros Hs. unfold managerCreate. pose proof (runCall_objs (is_ok (newResult c id offer)) (CallCreate id) c Hs ltac:(done)) as Hl.
  assert (Hfst : ∀ x, (match x with
    | (c', ReplyErr Manager.ErrSessionExists) => (c', Err HttpApi.ErrSessionExists)
    | (c', ReplyErr Manager.ErrSessionNotFound) => (c', Err HttpApi.ErrSessionNotFound)
    | (c', _) => (c', match newResult c id offer with Ok answer => Ok answer | Err e => Err (asRtcError e) end)
    end).1 = x.1 :> system) by (by intros [? [|[]|]]).
  rewrite Hfst, Hl. destruct (abs (mgr c) !! id) as [x|]; [done|]. by destruct (is_ok _).
Qed.

(** *** A session that expires or ends leaves the map *)

Lemma abs_drop c s o :
  managerInv c → objs (mgr c) !! s = Some o →
  filter (λ x : gostring * nat, x.2 ≠ s) (abs (mgr c)) =
  if decide (abs (mgr c) !! sid o = Some s) then delete (sid o) (abs (mgr c)) else abs (mgr c).
Proof.
  intros Hinv Ho. assert (Hid : ∀ j, abs (mgr c) !! j = Some s → j = sid o).
  { intros j Hj. destruct (live_session _ _ _ Hinv Hj) as (e&z&_&_&Hz&<-&_). congruence. }
  apply map_eq. intros j. apply option_eq. intros x. rewrite map_lookup_filter_Some. cbn [snd]. case_decide as Hs.
  - rewrite lookup_delete_Some. split.
    + intros [Hj Hne]. split; [|done]. intros <-. congruence.
    + intros [Hne Hj]. split; [done|]. intros ->. by apply Hne, eq_sym, Hid.
  - split; [by intros [? _]|]. intros Hj. split; [done|]. intros ->. apply Hs. by rewrite <- (Hid j Hj).
Qed.

(** A timer that fires takes its session out of the map, if it is in it. *)
Lemma timerFires_spec c s :
  settled c →
  let '(c', log) := timerFires c s in
  settled c' ∧ length (objs (mgr c')) = length (objs (mgr c)) ∧
  (log = [] ∧ c' = c ∨ log = [Expired s] ∧ abs (mgr c') = filter (λ x, x.2 ≠ s) (abs (mgr c))).
Proof.
  intros Hs. unfold timerFires. destruct (fire s c) as [c1|] eqn:Hf; [|by split_and!; [..|left]].
  pose proof (step_fire ttl c s c1 Hf) as Hstep. destruct (fire_spec _ _ _ Hf) as (o&Ho&_&->). rewrite Ho. cbn [mgr].
  set (m1 := set_objs _ (mgr c)) in *. set (c1 := {| mgr := m1; goroutines := goroutines c |}).
  destruct Hs as [Hr Hq]. pose proof (reachable_managerInv _ _ Hr) as Hinv.
  assert (Hrun : ∃ m r, exec ttl 5 (answers (envOf c1 false)) (Expire (sid o) s) m1 = Some (m, r) ∧
    abs m = filter (λ x, x.2 ≠ s) (abs (mgr c))).
  { rewrite (abs_drop c s o Hinv Ho). assert (abs m1 = abs (mgr c)) as Ha by by apply abs_ext.
    case_decide as Hl.
    - destruct (live_session _ _ _ Hinv Hl) as (e&z&Hid&He&_).
      destruct (quiescent_entry _ _ _ Hinv Hq Hid) as (s2&o2&He2&Ho2&_&_&Hop).
      assert (s2 = s) as -> by congruence. rewrite Ho in Ho2. injection Ho2 as <-.
      set (m2 := set_sessions (delete (sid o) (sessions m1)) m1).
      rewrite (exec_step _ _ _ _ _ m2 (CloseCall s AfterDrop))
        by (cbn [goroutineStep m1 sessions set_objs]; rewrite Hid; by rewrite bool_decide_eq_true_2).
      destruct (exec_close ttl (envOf c1 false) 4 s AfterDrop m2 (set_expiry Gone o)) as (o'&_&->); [|done| |lia|].
      { cbn. apply list_lookup_insert_eq. by eapply lookup_lt_Some. }
      { cbn. by rewrite lookup_delete_eq. }
      do 2 eexists. split; [reflexivity|]. etrans; [apply (abs_ext m2); done|]. subst m2. by rewrite abs_delete, Ha.
    - exists m1, ReplyOk. split; [|done]. rewrite abs_lookup in Hl.
      rewrite (exec_step _ _ _ _ _ m1 (Done ReplyOk)); [done|]. cbn [goroutineStep m1 sessions set_objs].
      destruct (sessions (mgr c) !! sid o) as [e|]; [|done]. by rewrite bool_decide_eq_false_2. }
  destruct Hrun as (m&r&Hexec&Ha). unfold runGoroutine. change (mgr c1) with m1. rewrite Hexec. cbn [fst mgr]. split.
  - exact (run_settled false _ _ c1 _ _ (conj Hr Hq) Hstep Hq Hexec).
  - split; [|by right]. rewrite (exec_objs _ _ _ _ _ _ Hexec) by done. subst m1. cbn. by rewrite length_insert.
Qed.

(** So does a session that closes on its own. *)
Lemma closesItself_spec c s :
  settled c →
  let '(c', log) := closesItself c s in
  settled c' ∧ length (objs (mgr c')) = length (objs (mgr c)) ∧
  (log = [] ∧ c' = c ∨ log = [Ended s] ∧ abs (mgr c') = filter (λ x, x.2 ≠ s) (abs (mgr c))).
Proof.
  intros [Hr Hq]. unfold closesItself. destruct (Nat.ltb_spec s (length (objs (mgr c)))) as [Hlt|]; [|by split_and!; [..|left]].
  pose proof (reachable_managerInv _ _ Hr) as Hinv. destruct (lookup_lt_is_Some_2 _ _ Hlt) as [o Ho].
  assert (Hrun : ∃ m r, exec ttl 5 (answers (envOf c false)) (CloseCall s AfterDrop) (mgr c) = Some (m, r) ∧
    abs m = filter (λ x, x.2 ≠ s) (abs (mgr c))).
  { rewrite (abs_drop c s o Hinv Ho). destruct (sphase o) eqn:Hph.
    - destruct (mi_open _ Hinv _ _ Ho Hph) as [[Hid He]|(p&Hin&Hp)].
      2: { destruct (quiescent_none _ _ Hq Hin) as (Hh&_). rewrite Hh in Hp. by apply elem_of_nil in Hp. }
      rewrite decide_True by by rewrite abs_lookup, Hid.
      set (m1 := set_objs (<[s := set_phase Closing o]> (objs (mgr c))) (mgr c)).
      assert (Ho1 : objs m1 !! s = Some (set_phase Closing o)) by by apply list_lookup_insert_eq.
      set (m2 := set_sessions (delete (sid o) (sessions m1)) m1).
      rewrite (exec_step _ _ _ _ _ m1 (CloseTerminal s AfterDrop)) by (cbn [goroutineStep]; by rewrite Ho, Hph).
      rewrite (exec_step _ _ _ _ _ m2 (CloseDone s AfterDrop)).
      2: { cbn [goroutineStep]. rewrite Ho1. unfold removeEntry. cbn [sid sentry set_phase m1 sessions set_objs].
           by rewrite Hid, bool_decide_eq_true_2. }
      erewrite exec_step by (cbn [goroutineStep]; by rewrite (Ho1 : objs m2 !! s = _)).
      do 2 eexists. split; [reflexivity|]. etrans; [apply (abs_ext m2); done|]. subst m2. rewrite abs_delete. by f_equal.
    - exfalso. pose proof (mi_closing _ Hinv _ _ Ho) as Hc. rewrite Hph in Hc. destruct Hc as (p&Hsel).
      assert (p ∈ sel (closesB s) (goroutines c)) as [Hp Hin]%elem_of_sel by (rewrite Hsel; by left).
      apply bool_decide_eq_true_1 in Hp. destruct (quiescent_none _ _ Hq Hin) as (_&_&?). congruence.
    - exists (mgr c), ReplyOk. split; [by rewrite (exec_step _ _ _ _ _ (mgr c) (Done ReplyOk)) by (cbn [goroutineStep]; by rewrite Ho, Hph)|].
      rewrite decide_False; [done|]. intros Hl. destruct (live_session _ _ _ Hinv Hl) as (e&z&Hid&_&Hz&_&<-).
      rewrite Ho in Hz. injection Hz as <-. by apply (mi_gone _ Hinv _ _ Ho (or_introl Hph)). }
  destruct Hrun as (m&r&Hexec&Ha). unfold runGoroutine. rewrite Hexec. cbn [fst mgr]. split.
  - exact (run_settled false _ _ c _ _ (conj Hr Hq) (step_own ttl c s Hlt) Hq Hexec).
  - split; [|by right]. by rewrite (exec_objs _ _ _ _ _ _ Hexec).
Qed.

(** *** One event *)

(** A served request: the manager follows what the client is told. *)
Lemma serve_seen v c r :
  seen v c →
  let '(c', resp) := ServeHTTP sha256 token c r in seen (learn v (Served r resp)) c'.
Proof.
  intros (Hs&Hm&Hk). pose proof (ServeHTTP_told sha256 token c r) as Ht. destruct (ServeHTTP sha256 token c r) as [c' resp].
  unfold seen. cbn [learn]. destruct (told sha256 token r resp) as [[id|id]|].
  - destruct Ht as (offer&answer&Hc). change (managerCreate c id offer = (c', Ok answer)) in Hc.
    pose proof (managerCreate_spec c id offer Hs) as Hspec. pose proof (managerCreate_objs c id offer Hs) as Hl.
    rewrite Hc in Hspec, Hl. cbn [fst snd] in *. destruct Hspec as (Hs'&Hr&Ha).
    destruct (abs (mgr c) !! id) as [x|] eqn:Hid; [done|]. destruct (newResult c id offer) as [answer'|e]; [|done].
    cbn [is_ok made known] in *. split_and!; [done|rewrite Hl, Hm; lia|by rewrite Ha, Hm, Hk].
  - destruct Ht as (err&Hc). change (managerClose c id = (c', err)) in Hc. unfold managerClose in Hc.
    destruct (runCall_spec false (CallClose id) c Hs) as [Hs' Hspec]; [done|].
    pose proof (runCall_objs false (CallClose id) c Hs ltac:(done)) as Hl. destruct (runCall false (CallClose id) c) as [c1 reply].
    injection Hc as -> _. cbn [fst snd spec made known] in *. split_and!; [done|by rewrite Hl, Nat.add_0_r|].
    rewrite <- Hk. destruct (abs (mgr c) !! id) as [x|] eqn:Hid; injection Hspec as -> _; [done|]. by rewrite delete_id.
  - destruct Ht as [->|[(id&offer&e&Hc)|(id&e&Hc)]]; [done|..].
    + change (managerCreate c id offer = (c', Err e)) in Hc.
      pose proof (managerCreate_spec c id offer Hs) as Hspec. pose proof (managerCreate_objs c id offer Hs) as Hl.
      rewrite Hc in Hspec, Hl. cbn [fst snd] in *. destruct Hspec as (Hs'&Hr&Ha).
      destruct (abs (mgr c) !! id) as [x|] eqn:Hid; [by rewrite Hl, Ha, Nat.add_0_r|].
      destruct (newResult c id offer) as [answer'|e']; [done|]. cbn [is_ok] in *. by rewrite Hl, Ha, Nat.add_0_r.
    + change (managerMarkConnected c id = (c', e)) in Hc. unfold managerMarkConnected in Hc.
      destruct (runCall_spec false (CallMarkConnected id) c Hs) as [Hs' Hspec]; [done|].
      pose proof (runCall_objs false (CallMarkConnected id) c Hs ltac:(done)) as Hl. destruct (runCall false (CallMarkConnected id) c) as [c1 reply].
      injection Hc as -> _. cbn [fst snd spec] in *. injection Hspec as -> _. by rewrite Hl, Nat.add_0_r.
Qed.

Lemma occurs_seen v c e :
  seen v c →
  let '(c', log) := occurs c e in
  seen (foldl learn v log) c' ∧ servedRequests log = requestsOf [e].
Proof.
  intros Hseen. destruct e as [r|s|s]; cbn [occurs].
  - pose proof (serve_seen v c r Hseen) as Hr. by destruct (ServeHTTP sha256 token c r).
  - destruct Hseen as (Hs&Hm&Hk). pose proof (timerFires_spec c s Hs) as Ht. destruct (timerFires c s) as [c' log].
    destruct Ht as (Hs'&Hl&[[-> ->]|[-> Ha]]); [done|]. split; [|done]. cbn [foldl learn]. unfold seen. cbn [made known].
    by rewrite Hl, Ha, Hk.
  - destruct Hseen as (Hs&Hm&Hk). pose proof (closesItself_spec c s Hs) as Ht. destruct (closesItself c s) as [c' log].
    destruct Ht as (Hs'&Hl&[[-> ->]|[-> Ha]]); [done|]. split; [|done]. cbn [foldl learn]. unfold seen. cbn [made known].
    by rewrite Hl, Ha, Hk.
Qed.

Lemma history_seen v c es :
  seen v c →
  let '(c', log) := history c es in
  seen (foldl learn v log) c' ∧ servedRequests log = requestsOf es.
Proof.
  revert v c. induction es as [|e es IH]; intros v c Hseen; cbn [history]; [done|].
  pose proof (occurs_seen v c e Hseen) as Hone. destruct (occurs c e) as [c1 log]. destruct Hone as [Hseen1 Hr1].
  specialize (IH _ _ Hseen1). destruct (history c1 es) as [c2 log']. destruct IH as [Hseen2 Hr2].
  rewrite foldl_app. split; [done|]. unfold servedRequests, requestsOf in *. rewrite omap_app, Hr1, Hr2.
  change (e :: es) with ([e] ++ es). by rewrite omap_app.
Qed.

(** C5. Whatever happens to the gateway from its start on - requests served one
    after the other, and between them expiry timers that fire and sessions that
    close on their own, in any order - the manager is left settled (no call in
    flight, a reachable state), and its map of open sessions is the one the log
    tells, without a look at the manager: the session of the k-th answered
    creation is live under its id, and that very session, until an authorized
    DELETE of the id, its own expiry or its own end.  With a positive TTL every
    live session's timer is armed; without one none can expire. *)
Theorem gateway_history (es : list event) :
  let '(c, log) := gateway es in
  settled c ∧ servedRequests log = requestsOf es ∧
  abs (mgr c) = known (foldl learn nothingKnown log) ∧
  map_Forall (λ _ s, is_Some (fire s c) ↔ (0 < ttl)%Z) (abs (mgr c)).
Proof.
  unfold gateway. assert (seen nothingKnown initial) as Hseen by (split; [apply settled_initial|done]).
  pose proof (history_seen _ _ es Hseen) as Hall. destruct (history initial es) as [c log].
  destruct Hall as [(Hs&_&Hk) Hr]. split_and!; [done|done|done|]. intros id s Hl. split.
  - intros [c' Hf]. destruct (Z.lt_ge_cases 0 ttl) as [|Hle]; [done|]. rewrite (no_timers ttl c s Hle (proj1 Hs)) in Hf. done.
  - intros Httl. destruct Hs. by eapply live_armed.
Qed.
End History.

(** C22. What a creation answers, end to end: for an authorized request with a
    valid body, 409 if the id is live, otherwise what NewSession returns for the
    offer - its answer with 200, or the status of its error - and the session
    is kept exactly if there was an answer. *)
Theorem gateway_create (sha256 : gostring → gostring)
    (token : gostring)
    (c : system) (r : request) (id offer : gostring) :
  settled c → authorized sha256 token (Authorization r) = true →
  Method r = §"POST" → escapedPath r = createPath → ParseMediaType (ContentType r) = Some §"application/json" →
  decodeJSON (Body r) = Ok {| SessionID := id; OfferSDP := offer |} →
  sessionIDPattern id = true → blank offer = false →
  let '(c', resp) := ServeHTTP (SessionService0 := managerService) sha256 token c r in
  settled c' ∧
  match abs (mgr c) !! id with
  | Some _ => resp = ErrorResponse StatusConflict §"session_exists" §"sessionId already exists" ∧ abs (mgr c') = abs (mgr c)
  | None => ∃ effects result, NewSession parseSDP UnmarshalCandidate (calls c id) offer = Some (effects, result) ∧
      match result with
      | Ok answer => resp = JSON StatusOK [(§"sessionId", id); (§"answerSdp", answer)] ∧
                     abs (mgr c') = <[id := length (objs (mgr c))]> (abs (mgr c))
      | Err e => resp = writeRTCError (asRtcError e) ∧ abs (mgr c') = abs (mgr c)
      end
  end.
Proof.
  intros Hs Ha Hm Hp Hct Hdec Hid Hb. unfold ServeHTTP. rewrite Ha, andb_false_r. unfold mux. rewrite (route_create r Hp).
  unfold createSession. rewrite Hm, Hct, Hdec. cbn [SessionID OfferSDP]. rewrite Hid, Hb. cbn [negb].
  change (svcCreate c id offer) with (managerCreate c id offer).
  destruct (managerCreate_spec c id offer Hs) as (Hs'&Hr&Hc). unfold newResult in *.
  destruct (managerCreate c id offer) as [c' res]. cbn [fst snd] in *.
  destruct (NewSession_returns parseSDP UnmarshalCandidate (calls c id) offer) as [[effects result] Hn]. rewrite Hn in Hr, Hc.
  destruct (abs (mgr c) !! id) as [x|]; [by rewrite Hr|]. destruct result as [answer|e]; rewrite Hr;
    (split; [done|]); eexists _, _; (split; [done|]); done.
Qed.
End Service.

(** Creations without Opus, with it and of a live id, an unauthorized DELETE, an
    expiry; then the id again: the first session's timer and its end do not
    concern the second session, which a DELETE ends although closing it reports
    an error. *)
Definition sampleRequest (method path token body : gostring) : request :=
  {| Method := method; escapedPath := path; Authorization := §"Bearer " ++ token; ContentType := §"application/json"; Body := body |}.

Definition samplePeer : peerCalls :=
  {| deadlineExpired := false; NewPeerConnection := true; NewTrack := true; AddTrack := true; SetRemoteDescription := true;
     CreateAnswer := true; SetLocalDescription := true; gathering := Gathered (Some §"v=0") |}.
Definition sampleSDP (raw : gostring) : option (list mediaDescription) :=
  if seqb raw §"opus" then
    Some [{| Media := §"audio"; PortValue := 9; Formats := [§"111"]; Attributes := [{| Key := §"rtpmap"; Value := §"111 opus/48000/2" |}] |}]
  else if seqb raw §"pcmu" then Some [{| Media := §"audio"; PortValue := 9; Formats := [§"0"]; Attributes := [] |}]
  else None.
Definition sampleGateway (es : list event) : system * list entry :=
  gateway 60 (λ _ _, true) (λ _ _, samplePeer) sampleSDP (λ _, true) (λ x, x) §"secret" es.

Definition createKitchen (offer : gostring) : request := sampleRequest §"POST" createPath §"secret" (requestText §"kitchen" offer).
Definition deleteKitchen (token : gostring) : request := sampleRequest §"DELETE" (sessionPath §"kitchen") token [].
Definition markKitchen : request := sampleRequest §"POST" (connectedPath §"kitchen") §"secret" [].

Definition sampleEvents : list event :=
  [Serve (createKitchen §"pcmu"); Serve (createKitchen §"opus"); Serve (createKitchen §"opus"); Serve (deleteKitchen §"guess"); TimerFires 0; Serve markKitchen;
   Serve (createKitchen §"opus"); TimerFires 0; ClosesItself 0; Serve markKitchen; Serve (deleteKitchen §"secret"); TimerFires 1; Serve (createKitchen §"opus")].

Definition answered : response := JSON 200 [(§"sessionId", §"kitchen"); (§"answerSdp", §"v=0")].
Definition notFound : response := ErrorResponse 404 §"session_not_found" §"session was not found".

Example sampleEvents_log : (sampleGateway sampleEvents).2 =
  [Served (createKitchen §"pcmu") (ErrorResponse 400 §"opus_required" §"offer SDP must contain an Opus audio codec");
   Served (createKitchen §"opus") answered;
   Served (createKitchen §"opus") (ErrorResponse 409 §"session_exists" §"sessionId already exists");
   Served (deleteKitchen §"guess") (ErrorResponse 401 §"unauthorized" §"a valid bearer token is required");
   Expired 0; Served markKitchen notFound;
   Served (createKitchen §"opus") answered; Ended 0; Served markKitchen (JSON 200 [(§"status", §"ok")]);
   Served (deleteKitchen §"secret") (ErrorResponse 500 §"internal_error" §"internal server error");
   Served (createKitchen §"opus") answered].
Proof. vm_compute. reflexivity. Qed.

Lemma gateway_history_witness : abs (mgr (sampleGateway sampleEvents).1) = {[ §"kitchen" := 2 ]}.
Proof.
  pose proof (gateway_history 60 (λ _ _, true) (λ _ _, samplePeer) sampleSDP (λ _, true) (λ x, x) §"secret" sampleEvents) as H.
  change (gateway _ _ _ _ _ _ _ sampleEvents) with (sampleGateway sampleEvents) in H.
  pose proof sampleEvents_log as Hlog. destruct (sampleGateway sampleEvents) as [c log]. cbn [fst snd] in *. subst log.
  destruct H as (_&_&->&_). apply (bool_decide_eq_true_1 _). vm_compute. reflexivity.
Defined.

Lemma gateway_create_witness :
  snd (ServeHTTP (SessionService0 := managerService 0 (λ _ _, true) (λ _ _, samplePeer) sampleSDP (λ _, true)) (λ x, x)
         §"secret" initial (sampleRequest §"POST" createPath §"secret" (requestText §"kitchen" §"opus"))) =
  JSON StatusOK [(§"sessionId", §"kitchen"); (§"answerSdp", §"v=0")].
Proof.
  pose proof (gateway_create 0 (λ _ _, true) (λ _ _, samplePeer) sampleSDP (λ _, true) (λ x, x) §"secret"
    initial (sampleRequest §"POST" createPath §"secret" (requestText §"kitchen" §"opus")) §"kitchen" §"opus" (settled_initial 0)
    eq_refl eq_refl eq_refl eq_refl eq_refl eq_refl eq_refl) as H.
  destruct (ServeHTTP _ _ _ _) as [c' resp]. destruct H as [_ (effects&result&Hn&Hr)].
  vm_compute in Hn. injection Hn as <- <-. exact (proj1 Hr).
Defined.
