(* ===== verification/ProbePeer.v ===== *)
(** * The probe's peer connection (cmd/rtc-probe/main.go: pionProbe)

    [newPionProbe] builds the peer: codecs, ICE server, transceivers, and the
    state callbacks that report the first decisive state on a channel of one
    place.  [Offer], [ApplyAnswerAndWait] and [Close] are its methods.  What
    pion/webrtc answers to each call is given; what the code does to it is a
    list of effects. *)

From S2P Require Import Prelude GoString.

Inductive probeError :=
| errOfferCreate | errLocalDescription | errICEGathering | errRemoteDescription | errICEFailed
| errPeerConnectionFailed | errConnectionTimeout | errOther.

(** A line of the log (probeLogger), as it is written: the mutex keeps lines
    whole. *)
Inductive logLine := Event (name : gostring) | Category (name category : gostring) | State (name state : gostring).

Definition render (l : logLine) : gostring :=
  match l with
  | Event name => name ++ lf
  | Category name category => name ++ §" category=" ++ category ++ lf
  | State name state => name ++ §" state=" ++ state ++ lf
  end.

(** What the peer's methods log and return. *)
Record peerProbe := {
  Offer : list logLine * result probeError gostring;
  ApplyAnswerAndWait : gostring → list logLine * option probeError
}.

(** ** Construction *)

Record probeOptions := { stunURL : gostring; includeVideo : bool }.

Inductive mediaKind := Audio | Video.
#[global] Instance mediaKind_eq_dec : EqDecision mediaKind.
Proof. solve_decision. Defined.

Record codecParameters := { MimeType : gostring; ClockRate : Z; Channels : Z; SDPFmtpLine : gostring; PayloadType : Z }.
#[global] Instance codecParameters_eq_dec : EqDecision codecParameters.
Proof. solve_decision. Defined.

Definition opusCodec : codecParameters :=
  {| MimeType := §"audio/opus"; ClockRate := 48000; Channels := 2; SDPFmtpLine := §"minptime=10;useinbandfec=1"; PayloadType := 111 |}.

Definition videoCodecs : list codecParameters :=
  [{| MimeType := §"video/H264"; ClockRate := 90000; Channels := 0;
      SDPFmtpLine := §"level-asymmetry-allowed=1;packetization-mode=1;profile-level-id=42001f"; PayloadType := 102 |};
   {| MimeType := §"video/H264"; ClockRate := 90000; Channels := 0;
      SDPFmtpLine := §"level-asymmetry-allowed=1;packetization-mode=1;profile-level-id=64001f"; PayloadType := 112 |}].

(** What the code does to pion: [Opened] holds the ICE servers. *)
Inductive peerEffect :=
| Registered (c : codecParameters) (k : mediaKind)
| Opened (iceServers : list gostring)
| Transceiver (k : mediaKind)
| CallbacksSet
| CallbacksCleared
| Closed.
#[global] Instance peerEffect_eq_dec : EqDecision peerEffect.
Proof. solve_decision. Defined.

(** Which of the calls succeed. *)
Record constructionCalls := {
  RegisterCodec : codecParameters → bool;
  NewPeerConnection : bool;
  AddTransceiver : mediaKind → bool
}.

(** The loop over the video codecs, up to the first that is refused. *)
Fixpoint registerCodecs (calls : constructionCalls) (k : mediaKind) (codecs : list codecParameters) : list peerEffect * bool :=
  match codecs with
  | [] => ([], true)
  | c :: rest =>
      if negb (RegisterCodec calls c) then ([], false)
      else let '(effects, ok) := registerCodecs calls k rest in (Registered c k :: effects, ok)
  end.

(** [true]: the probe was made. *)
Definition newPionProbe (calls : constructionCalls) (options : probeOptions) : list peerEffect * bool :=
  if negb (RegisterCodec calls opusCodec) then ([], false)
  else
    let '(video, ok) := if includeVideo options then registerCodecs calls Video videoCodecs else ([], true) in
    let registered := Registered opusCodec Audio :: video in
    if negb ok then (registered, false)
    else if negb (NewPeerConnection calls) then (registered, false)
    else
      let iceServers := if seqb (stunURL options) [] then [] else [stunURL options] in
      let opened := registered ++ [Opened iceServers] in
      if negb (AddTransceiver calls Audio) then (opened ++ [Closed], false)
      else
        let opened := opened ++ [Transceiver Audio] in
        if negb (includeVideo options) then (opened ++ [CallbacksSet], true)
        else if negb (AddTransceiver calls Video) then (opened ++ [Closed], false)
        else (opened ++ [Transceiver Video; CallbacksSet], true).

(** peer.Close. *)
Definition closePion : list peerEffect := [CallbacksCleared; Closed].

(** ** State changes *)

(** A state callback, with the state's name: the ICE state, or the
    connection's state with what the ICE state is then. *)
Inductive connectionState := StateConnected | StateFailed | StateClosed | StateOther.
Inductive callbackEvent :=
| ICEState (name : gostring) (failed : bool)
| PeerState (name : gostring) (state : connectionState) (iceFailed : bool).

(** The channel [connection] holds at most one result; sending to a full
    channel is dropped. *)
Definition signalConnection (channel : option (option probeError)) (result : option probeError) : option (option probeError) :=
  match channel with Some r => Some r | None => Some result end.

(** A callback logs the state and may signal. *)
Definition onEvent (channel : option (option probeError)) (e : callbackEvent) : option (option probeError) :=
  match e with
  | ICEState _ true => signalConnection channel (Some errICEFailed)
  | ICEState _ false => channel
  | PeerState _ StateConnected _ => signalConnection channel None
  | PeerState _ (StateFailed | StateClosed) iceFailed =>
      signalConnection channel (Some (if iceFailed then errICEFailed else errPeerConnectionFailed))
  | PeerState _ StateOther _ => channel
  end.

Definition eventLine (e : callbackEvent) : logLine :=
  match e with
  | ICEState name _ => State §"ice_connection_state" name
  | PeerState name _ _ => State §"peer_connection_state" name
  end.

(** What pion answers to one probe: the calls of Offer, whether gathering came
    before the context's end, the local description; then SetRemoteDescription,
    the state changes before the wait ended, and whether the timeout ended it. *)
Record pionCalls := {
  CreateOffer : bool;
  SetLocal : bool;
  gathered : bool;
  LocalDescription : option gostring;
  SetRemote : gostring → bool;
  events : list callbackEvent;
  timedOut : bool
}.

Definition pionOffer (calls : pionCalls) : list logLine * result probeError gostring :=
  if negb (CreateOffer calls) then ([], Err errOfferCreate)
  else if negb (SetLocal calls) then ([Event §"offer_created"], Err errLocalDescription)
  else
    let log := [Event §"offer_created"; Event §"local_description_set"] in
    if negb (gathered calls) then (log, Err errICEGathering)
    else match LocalDescription calls with
    | None => (log, Err errICEGathering)
    | Some sdp => if seqb sdp [] then (log, Err errICEGathering) else (log ++ [Event §"ice_gathering_completed"], Ok sdp)
    end.

Definition pionApplyAnswerAndWait (calls : pionCalls) (answer : gostring) : list logLine * option probeError :=
  if negb (SetRemote calls answer) then ([], Some errRemoteDescription)
  else ([Event §"remote_description_applied"],
        match foldl onEvent None (events calls) with
        | Some result => if timedOut calls then Some errConnectionTimeout else result
        | None => Some errConnectionTimeout
        end).

Definition pionProbe (calls : pionCalls) : peerProbe :=
  {| Offer := pionOffer calls; ApplyAnswerAndWait := pionApplyAnswerAndWait calls |}.

(** ** Lemmas *)

(** What a state change means for the connection, if it decides. *)
Definition decides (e : callbackEvent) : option (option probeError) :=
  match e with
  | ICEState _ failed => if failed then Some (Some errICEFailed) else None
  | PeerState _ StateConnected _ => Some None
  | PeerState _ (StateFailed | StateClosed) iceFailed => Some (Some (if iceFailed then errICEFailed else errPeerConnectionFailed))
  | PeerState _ StateOther _ => None
  end.

(** The first decisive state change is the result; later ones are dropped. *)
Lemma onEvent_first es : foldl onEvent None es = head (omap decides es).
Proof.
  assert (Hsome : ∀ es r, foldl onEvent (Some r) es = Some r).
  { clear. induction es as [|e es IH]; intros r; [done|]. cbn [foldl].
    assert (onEvent (Some r) e = Some r) as -> by (by destruct e as [? []|? [] ?]). apply IH. }
  induction es as [|e es IH]; [done|]. cbn [foldl omap list_omap].
  destruct e as [n []|n [] f]; cbn [onEvent signalConnection decides]; try (by rewrite Hsome); apply IH.
Qed.

Definition isOpened (e : peerEffect) : bool := match e with Opened _ => true | _ => false end.
Definition isClosed (e : peerEffect) : bool := match e with Closed => true | _ => false end.

Lemma registerCodecs_quiet calls k codecs :
  sel isOpened (registerCodecs calls k codecs).1 = [] ∧ sel isClosed (registerCodecs calls k codecs).1 = [].
Proof.
  induction codecs as [|c codecs IH]; cbn [registerCodecs]; [done|]. case_match; [done|].
  by destruct (registerCodecs calls k codecs).
Qed.

Lemma registerCodecs_all calls k codecs :
  (registerCodecs calls k codecs).2 = true → (registerCodecs calls k codecs).1 = map (λ c, Registered c k) codecs.
Proof.
  induction codecs as [|c codecs IH]; cbn [registerCodecs]; [done|]. case_match; [done|].
  destruct (registerCodecs calls k codecs) as [l b]. cbn [fst snd map] in *. intros Hb. by rewrite IH.
Qed.
