(* ===== verification/Probe.v ===== *)
(** * The probe command (cmd/rtc-probe/main.go)

    [runProbe] drives a peer and the session API: offer, create, apply the
    answer, delete.  The API is an interface ([SessionAPI]) over a state; the
    HTTP client of the probe is one implementation, here over a transport,
    and with the gateway's handler behind a network that can lose requests and
    responses or cut bodies ([fate]) the two ends meet.
    [run] reads the configuration, builds the peer of [ProbePeer.v] and closes
    it.  Parameters: url.Parse, the network and what pion answers. *)

From S2P Require Import Prelude GoString GoConv Utf8 Json Mime Path Router HttpApi ProbePeer.

(** ** Errors, categories and the log *)

Inductive createError := errCreateRequest | errInvalidAnswer.
#[global] Instance createError_eq_dec : EqDecision createError.
Proof. solve_decision. Defined.

Definition exitSuccess : Z := 0.
Definition exitProbeFailure : Z := 1.
Definition exitCleanupFailure : Z := 2.

(** The empty category stands for an error it does not know. *)
Definition probeFailureCategory (e : probeError) : gostring :=
  match e with
  | errOfferCreate => §"offer_create"
  | errLocalDescription => §"local_description"
  | errICEGathering => §"ice_gathering"
  | errRemoteDescription => §"remote_description"
  | errICEFailed => §"ice_failed"
  | errPeerConnectionFailed => §"peer_connection_failed"
  | errConnectionTimeout => §"timeout"
  | errOther => []
  end.

Definition categoryOr (e : probeError) (fallback : gostring) : gostring :=
  let category := probeFailureCategory e in if seqb category [] then fallback else category.

Definition reportCleanupFailure : list logLine := [Category §"probe_failed" §"cleanup"; Event §"cleanup_failed"].

(** ** The interfaces *)

(** Create returns the answer, whether the session was created, and an error. *)
Class SessionAPI (S : Type) := {
  apiCreate : S → gostring → gostring → S * (gostring * bool * option createError);
  apiDelete : S → gostring → S * bool      (* [true]: no error *)
}.

(** cleanupSession: a DELETE with a context and a timeout of its own, so that a
    cancelled probe still cleans up. *)
Definition cleanupSession {S : Type} `{SessionAPI S} (s : S) (sessionID : gostring) : S * bool := apiDelete s sessionID.

(** ** runProbe *)

(** The state of the API, the exit code and the log.  [peer.Close()] is
    deferred: it runs on every path, after all of this ([run] lists it). *)
Definition runProbe {S : Type} `{SessionAPI S} (peer : peerProbe) (sessionID : gostring) (s : S) : S * Z * list logLine :=
  let '(log, offered) := Offer peer in
  match offered with
  | Err e => (s, exitProbeFailure, log ++ [Category §"probe_failed" (categoryOr e §"offer_create")])
  | Ok offer =>
      match apiCreate s sessionID offer with
      | (s1, (_, created, Some e)) =>
          let category := if created || bool_decide (e = errInvalidAnswer) then §"answer_invalid" else §"request" in
          let log := log ++ [Category §"probe_failed" category] in
          if created then
            let '(s2, deleted) := cleanupSession s1 sessionID in
            (s2, exitProbeFailure, log ++ if deleted then [] else reportCleanupFailure)
          else (s1, exitProbeFailure, log)
      | (s1, (answer, _, None)) =>
          let '(applyLog, applied) := ApplyAnswerAndWait peer answer in
          let log := log ++ [Event §"answer_received"] ++ applyLog in
          let '(s2, deleted) := cleanupSession s1 sessionID in
          match applied with
          | Some e =>
              (s2, exitProbeFailure,
               log ++ [Category §"probe_failed" (categoryOr e §"peer_connection_failed")] ++
               if deleted then [] else reportCleanupFailure)
          | None =>
              if deleted then (s2, exitSuccess, log ++ [Event §"probe_connected"; Event §"probe_succeeded"])
              else (s2, exitCleanupFailure, log ++ [Event §"probe_connected"] ++ reportCleanupFailure)
          end
      end
  end.

(** ** The HTTP client *)

(** What the client sees of a response: its status and the bytes of the body
    that arrive. *)
Definition wireResponse : Type := Z * gostring.

Section Client.
Context {S : Type}.
Variable token : gostring.
(** One exchange: [None] if the client gets an error for it. *)
Variable send : S → request → S * option wireResponse.

(** The client reads the first bytes of the response and of them one value; it
    looks for the answer and ignores every other name. *)
Definition maxResponseBytes : nat := Z.to_nat (Z.shiftl 1 20).

Definition decodePayload (body : gostring) : option gostring :=
  match scanValue (take maxResponseBytes body) with
  | Complete v _ | Scalar v =>
      (λ m : gmap gostring gostring, default [] (m !! §"answerSdp")) <$> decodeStruct [§"answerSdp"] false v
  | Blank | Malformed | Incomplete => None
  end.

Definition success (status : Z) : bool := negb ((status <? 200) || (300 <=? status))%Z.

Definition createRequest (sessionID offer : gostring) : request :=
  {| Method := §"POST"; escapedPath := §"/v1/rtc/sessions"; Authorization := §"Bearer " ++ token;
     ContentType := §"application/json"; Body := requestText sessionID offer |}.

Definition clientCreate (s : S) (sessionID offer : gostring) : S * (gostring * bool * option createError) :=
  match send s (createRequest sessionID offer) with
  | (s', None) => (s', ([], false, Some errCreateRequest))
  | (s', Some (status, body)) =>
      if negb (success status) then (s', ([], false, Some errCreateRequest))
      else match decodePayload body with
           | None => (s', ([], true, Some errInvalidAnswer))
           | Some answer => if seqb answer [] then (s', ([], true, Some errInvalidAnswer)) else (s', (answer, true, None))
           end
  end.

Definition deleteRequest (sessionID : gostring) : request :=
  {| Method := §"DELETE"; escapedPath := §"/v1/rtc/sessions/" ++ PathEscape sessionID; Authorization := §"Bearer " ++ token;
     ContentType := []; Body := [] |}.

Definition clientDelete (s : S) (sessionID : gostring) : S * bool :=
  match send s (deleteRequest sessionID) with
  | (s', None) => (s', false)
  | (s', Some (status, _)) => (s', success status)
  end.

Definition sessionClient : SessionAPI S := {| apiCreate := clientCreate; apiDelete := clientDelete |}.
End Client.

(** ** The rest of the command *)

Definition hexByte (b : Z) : gostring :=
  let digit d := bchr (if (d <? 10)%Z then 48 + d else 87 + d) in [digit (b / 16)%Z; digit (b mod 16)%Z].

(** [random]: eight random bytes. *)
Definition newSessionID (random : list Z) : gostring := §"rtc-probe-" ++ concat (map hexByte random).

Definition parseIncludeVideo (value : gostring) : option bool := if seqb value [] then Some false else ParseBool value.

(** What newSessionClient looks at of a parsed URL. *)
Record parsedURL := { Scheme : gostring; Host : gostring; User : option gostring; RawQuery : gostring; Fragment : gostring }.

(** strings.TrimRight(s, "/"). *)
Definition trimSlashes (s : gostring) : gostring := rev (drop_while (λ c, bool_decide (c = "/"%byte)) (rev s)).

(** The client's base URL and token. *)
Definition newSessionClient (Parse : gostring → option parsedURL) (baseURL token : gostring) : option (gostring * gostring) :=
  match Parse baseURL with
  | None => None
  | Some u =>
      if negb (seqb (Scheme u) §"http") && negb (seqb (Scheme u) §"https") || seqb (Host u) [] || bool_decide (is_Some (User u)) ||
         negb (seqb (RawQuery u) []) || negb (seqb (Fragment u) [])
      then None else Some (trimSlashes baseURL, token)
  end.

(** The command: its configuration, the peer and the session id, then the
    probe; with what it does to the peer.  [random] is [None] if rand.Read
    fails; [calls] and [answers] are what pion answers. *)
Definition run {S : Type} (getenv : gostring → gostring) (Parse : gostring → option parsedURL) (calls : constructionCalls)
    (answers : pionCalls) (random : option (list Z)) (client : gostring * gostring → SessionAPI S) (s : S)
    : S * Z * list logLine * list peerEffect :=
  let failed category := (s, exitProbeFailure, [Category §"probe_failed" category]) in
  let baseURL := getenv §"RTC_SERVER_URL" in
  let token := getenv §"RTC_SERVER_TOKEN" in
  if seqb baseURL [] || seqb token [] then (failed §"configuration", [])
  else match parseIncludeVideo (getenv §"RTC_PROBE_INCLUDE_VIDEO") with
  | None => (failed §"configuration", [])
  | Some video =>
      match newSessionClient Parse baseURL token with
      | None => (failed §"configuration", [])
      | Some c =>
          let '(effects, made) := newPionProbe calls {| stunURL := getenv §"RTC_PROBE_STUN_URL"; includeVideo := video |} in
          if negb made then (failed §"peer", effects)
          else match random with
               | None => (failed §"session", effects ++ closePion)
               | Some bytes => (@runProbe S (client c) (pionProbe answers) (newSessionID bytes) s, effects ++ closePion)
               end
      end
  end.

(** ** Lemmas *)

Lemma runProbe_unfold {S : Type} `{SessionAPI S} peer id (s : S) :
  runProbe peer id s =
  match (Offer peer).2 with
  | Err e => (s, exitProbeFailure, (Offer peer).1 ++ [Category §"probe_failed" (categoryOr e §"offer_create")])
  | Ok offer =>
      let c := apiCreate s id offer in
      let d := apiDelete c.1 id in
      let log := (Offer peer).1 in
      let failed l := if d.2 then l else l ++ reportCleanupFailure in
      match c.2.2 with
      | Some e =>
          let log := log ++ [Category §"probe_failed" (if c.2.1.2 || bool_decide (e = errInvalidAnswer) then §"answer_invalid" else §"request")] in
          if c.2.1.2 then (d.1, exitProbeFailure, failed log) else (c.1, exitProbeFailure, log)
      | None =>
          let a := ApplyAnswerAndWait peer c.2.1.1 in
          let log := log ++ [Event §"answer_received"] ++ a.1 in
          match a.2 with
          | Some e => (d.1, exitProbeFailure, failed (log ++ [Category §"probe_failed" (categoryOr e §"peer_connection_failed")]))
          | None => if d.2 then (d.1, exitSuccess, log ++ [Event §"probe_connected"; Event §"probe_succeeded"])
                    else (d.1, exitCleanupFailure, log ++ [Event §"probe_connected"] ++ reportCleanupFailure)
          end
      end
  end.
Proof.
  unfold runProbe, cleanupSession. destruct (Offer peer) as [log [offer|e]]; [|done]. cbn [fst snd].
  destruct (apiCreate s id offer) as [s1 [[answer created] [e|]]]; cbn [fst snd].
  - destruct created; [|done]. destruct (apiDelete s1 id) as [s2 []]; cbn [fst snd]; by rewrite ?app_nil_r.
  - destruct (ApplyAnswerAndWait peer answer) as [al [e|]]; cbn [fst snd]; destruct (apiDelete s1 id) as [s2 []]; cbn [fst snd];
      by rewrite <- ?app_assoc, ?app_nil_r.
Qed.

Lemma authorized_bearer sha256 token : authorized sha256 token (§"Bearer " ++ token) = true.
Proof.
  unfold authorized. rewrite HasPrefix_app. cbn [negb]. unfold bearer. rewrite TrimPrefix_app. apply seqb_refl.
Qed.

Lemma pathByte_idByte c : idByte c = true → pathByte c = true.
Proof.
  unfold idByte, pathByte. change (alphanumeric c) with (idStart c). intros H. apply orb_true_iff in H as [H|H]; [apply orb_true_iff in H as [H|H]|].
  - apply orb_true_iff in H as [->|H]; [done|]. cbn [existsb]. rewrite H, !orb_true_r. done.
  - cbn [existsb]. rewrite H, !orb_true_r. done.
  - cbn [existsb]. rewrite H. by rewrite orb_true_r.
Qed.

Lemma PathEscape_id s : forallb idByte s = true → PathEscape s = s.
Proof.
  unfold PathEscape, escapeByte. induction s as [|c s IH]; [done|]. cbn [forallb map concat]. intros [Hc Hs]%andb_true_iff.
  rewrite (pathByte_idByte c Hc). cbn [app]. by rewrite IH.
Qed.

Lemma hexByte_ok b : (0 <= b < 256)%Z → forallb idByte (hexByte b) = true ∧ length (hexByte b) = 2.
Proof.
  intros Hb. split; [|done].
  assert (forallb (λ n, forallb idByte (hexByte (Z.of_nat n))) (seq 0 256) = true) as H by (vm_compute; reflexivity).
  rewrite forallb_forall in H. specialize (H (Z.to_nat b)). rewrite Z2Nat.id in H by lia. apply H, in_seq. lia.
Qed.

Lemma newSessionID_pattern random :
  Forall (λ b, 0 <= b < 256)%Z random → length random ≤ 32 → sessionIDPattern (newSessionID random) = true.
Proof.
  intros Hr Hl. assert (forallb idByte (concat (map hexByte random)) = true ∧ length (concat (map hexByte random)) = 2 * length random) as [Hb Hlen].
  { clear Hl. induction Hr as [|b random Hb Hr [IH1 IH2]]; [done|]. destruct (hexByte_ok b Hb) as [H1 H2].
    cbn [map concat]. rewrite forallb_app, H1, IH1, length_app, H2, IH2. split; [done|]. simpl. lia. }
  unfold newSessionID. change (§"rtc-probe-" ++ concat (map hexByte random)) with ("r"%byte :: (§"tc-probe-" ++ concat (map hexByte random))).
  cbn [sessionIDPattern]. rewrite forallb_app, Hb, length_app, Hlen. cbn [idStart andb]. apply andb_true_iff. split; [done|].
  apply Nat.leb_le. change (length §"tc-probe-") with 9. lia.
Qed.

(** ** The probe and the gateway *)

(** What the network does to one exchange: it loses the request before the
    server has it, or the response of a request the server has served, or ends
    the response's body early, or does its work. *)
Inductive fate := RequestLost | ResponseLost | BodyCut (n : nat) | Delivered.
#[global] Instance fate_eq_dec : EqDecision fate.
Proof. solve_decision. Defined.

Definition statusCode (r : response) : Z :=
  match r with JSON status _ => status | ErrorResponse status _ _ => status | MuxRedirect _ => 301 | MuxNotFound => 404 end.

Definition wire (r : response) : wireResponse := (statusCode r, default [] (responseBody r)).

Section Served.
Context {S : Type} `{SessionLaws S}.
Variables (sha256 : gostring → gostring) (token : gostring).
Variable network : request → fate.

Definition exchange (s : S) (r : request) : S * option wireResponse :=
  match network r with
  | RequestLost => (s, None)
  | ResponseLost => ((ServeHTTP sha256 token s r).1, None)
  | BodyCut n => let '(s', resp) := ServeHTTP sha256 token s r in (s', Some ((wire resp).1, take n (wire resp).2))
  | Delivered => let '(s', resp) := ServeHTTP sha256 token s r in (s', Some (wire resp))
  end.

Lemma writeRTCError_failure e : success (statusCode (writeRTCError e)) = false.
Proof. by destruct e. Qed.

(** A creation that is answered with a success made its id live, and one that
    is not changed nothing. *)
Lemma serve_create_any s r :
  svcInv s → Method r = §"POST" → escapedPath r = createPath → authorized sha256 token (Authorization r) = true →
  let '(s', resp) := ServeHTTP sha256 token s r in
  svcInv s' ∧
  (success (statusCode resp) = false ∧ (∀ j, live s' j ↔ live s j) ∨
   ∃ req answer, decodeJSON (Body r) = Ok req ∧
     resp = JSON StatusOK [(§"sessionId", SessionID req); (§"answerSdp", answer)] ∧
     ∀ j, live s' j ↔ j = SessionID req ∨ live s j).
Proof.
  intros Hinv Hm Hp Ha. unfold ServeHTTP, mux. rewrite Ha, andb_false_r, (route_create r Hp). unfold createSession. rewrite Hm. cbn [negb seqb].
  change (seqb §"POST" §"POST") with true. cbn [negb].
  destruct (ParseMediaType _) as [mt|]; [|by split; [|left]].
  destruct (negb (seqb mt _)); [by split; [|left]|].
  destruct (decodeJSON (Body r)) as [req|status] eqn:Hdec.
  2: { destruct (decodeJSON_status _ _ Hdec) as [->| ->]; by split; [|left]. }
  destruct (negb (sessionIDPattern (SessionID req))); [by split; [|left]|].
  destruct (blank (OfferSDP req)); [by split; [|left]|].
  pose proof (law_create s (SessionID req) (OfferSDP req) Hinv) as Hl.
  destruct (svcCreate s _ _) as [s1 [answer|e]].
  - destruct Hl as (?&_&Hj). split; [done|]. right. by exists req, answer.
  - destruct Hl as (?&_&Hj). split; [done|]. left. split; [apply writeRTCError_failure|done].
Qed.

(** What the client learns of a request that reached the server: nothing, or
    the status with some of the body. *)
Lemma exchange_served s r :
  network r ≠ RequestLost →
  (exchange s r).1 = (ServeHTTP sha256 token s r).1 ∧
  ((exchange s r).2 = None ∧ network r = ResponseLost ∨
   ∃ body, (exchange s r).2 = Some (statusCode (ServeHTTP sha256 token s r).2, body)).
Proof.
  unfold exchange. intros Hn. destruct (network r); [done| |..]; destruct (ServeHTTP sha256 token s r) as [s' resp]; cbn [fst snd wire];
    (split; [done|]); [by left|right; by eexists..].
Qed.

(** A creation whose request arrived and whose id the client does not report
    as created left it live only if the response was lost. *)
Lemma exchange_create s id offer :
  svcInv s →
  sessionIDPattern id = true →
  let '(s', (_, created, err)) := clientCreate token exchange s id offer in
  svcInv s' ∧ (err = None → created = true) ∧
  if created then ∀ j, live s' j ↔ j = id ∨ live s j
  else err = Some errCreateRequest ∧
       ((∀ j, live s' j ↔ live s j) ∨
        network (createRequest token id offer) = ResponseLost ∧ ∀ j, live s' j ↔ j = id ∨ live s j).
Proof.
  intros Hinv Hid. unfold clientCreate.
  assert (∀ req, decodeJSON (requestText id offer) = Ok req → SessionID req = id) as Hjson.
  { intros req. rewrite <- (app_nil_r (requestText id offer)), decodeJSON_request by done.
    destruct (maxRequestBody <? _); [done|]. intros [= <-]. by apply sessionIDPattern_valid. }
  set (r := createRequest token id offer).
  destruct (decide (network r = RequestLost)) as [Hlost|Hlost].
  { unfold exchange. rewrite Hlost. split_and!; [done|done|done|by left]. }
  destruct (exchange_served s r Hlost) as [Hs' Hwire].
  pose proof (serve_create_any s r Hinv eq_refl eq_refl (authorized_bearer _ _)) as Hs.
  destruct (exchange s r) as [s' w]. destruct (ServeHTTP _ _ s r) as [s'' resp]. cbn [fst snd] in *. subst s''.
  destruct Hs as [Hs' [[Hf Hj]|(req&answer&Hdec&->&Hj)]]; [|rewrite (Hjson req Hdec) in Hj];
    destruct Hwire as [[-> Hn]|[body ->]]; try (split_and!; [done|done|done|by auto]).
  - rewrite Hf. cbn [negb]. split_and!; [done|done|done|by left].
  - change (success (statusCode (JSON StatusOK _))) with true. cbn [negb].
    destruct (decodePayload body) as [a|]; [by destruct (seqb a [])|done].
Qed.

Lemma exchange_delete s id :
  svcInv s → sessionIDPattern id = true →
  let '(s', deleted) := clientDelete token exchange s id in
  svcInv s' ∧ ((∀ j, live s' j ↔ live s j ∧ j ≠ id) ∨
               network (deleteRequest token id) = RequestLost ∧ deleted = false ∧ ∀ j, live s' j ↔ live s j).
Proof.
  intros Hinv Hid. unfold clientDelete. set (r := deleteRequest token id).
  destruct (decide (network r = RequestLost)) as [Hlost|Hlost].
  { unfold exchange. rewrite Hlost. split; [done|by right]. }
  destruct (exchange_served s r Hlost) as [Hs' Hwire]. destruct (sessionIDPattern_bytes id Hid) as (Hb&_&_).
  assert (Hp : escapedPath r = §"/v1/rtc/sessions/" ++ id) by (subst r; cbn [deleteRequest escapedPath]; by rewrite (PathEscape_id id Hb)).
  pose proof (serve_delete sha256 token s r id Hinv Hid (authorized_bearer _ _) eq_refl Hp) as Hs.
  destruct (exchange s r) as [s' w]. destruct (ServeHTTP _ _ s r) as [s'' resp]. cbn [fst snd] in *. subst s''.
  destruct Hs as (Hinv'&Hj&_). destruct Hwire as [[-> _]|[body ->]]; (split; [done|by left]).
Qed.
End Served.

(** ** Properties *)

(** Against any API: the exit code is 0 exactly if the offer, the creation,
    the connection and the deletion all succeeded, 2 exactly if only the
    deletion failed, 1 otherwise; a session that was created is deleted exactly
    once whatever else failed, and otherwise the API is not called again; the
    log ends with probe_succeeded exactly for code 0. *)
Theorem runProbe_spec {S : Type} `{SessionAPI S} (peer : peerProbe) (id : gostring) (s : S) :
  let '(s', code, log) := runProbe peer id s in
  (code = 0 ∨ code = 1 ∨ code = 2)%Z ∧
  (last log = Some (Event §"probe_succeeded") ↔ code = 0%Z) ∧
  match (Offer peer).2 with
  | Err _ => s' = s ∧ code = 1%Z
  | Ok offer =>
      let '(s1, (answer, created, err)) := apiCreate s id offer in
      let '(s2, deleted) := apiDelete s1 id in
      let connected := err = None ∧ (ApplyAnswerAndWait peer answer).2 = None in
      s' = (if created || bool_decide (err = None) then s2 else s1) ∧
      (code = 0%Z ↔ connected ∧ deleted = true) ∧ (code = 2%Z ↔ connected ∧ deleted = false)
  end.
Proof.
  rewrite runProbe_unfold. unfold exitSuccess, exitProbeFailure, exitCleanupFailure, reportCleanupFailure.
  destruct (Offer peer) as [log [offer|e]]; cbn [fst snd].
  2: { rewrite last_snoc. naive_solver. }
  destruct (apiCreate s id offer) as [s1 [[answer created] [e|]]]; cbn [fst snd].
  - rewrite (bool_decide_eq_false_2 (Some e = None)), orb_false_r by done.
    destruct (apiDelete s1 id) as [s2 []], created; cbn [fst snd]; rewrite ?last_snoc, ?last_app; cbn; naive_solver.
  - rewrite (bool_decide_eq_true_2 (None = None)), orb_true_r by done.
    destruct (ApplyAnswerAndWait peer answer) as [al [e|]], (apiDelete s1 id) as [s2 []]; cbn [fst snd];
      rewrite ?app_assoc, ?last_snoc, ?last_app; cbn; naive_solver.
Qed.

(** ** The wire *)

(** What the server writes for an answer: the map's keys sorted. *)
Definition answerText (id answer : gostring) : gostring := stringsText [(§"answerSdp", answer); (§"sessionId", id)].

Lemma maxResponseBytes_pos : maxResponseBytes ≠ 0.
Proof. unfold maxResponseBytes. by apply to_nat_pos. Qed.

#[global] Opaque maxResponseBytes.

Lemma decodePayload_created id answer :
  decodePayload (wire (JSON StatusOK [(§"sessionId", id); (§"answerSdp", answer)])).2 =
  if maxResponseBytes <? length (answerText id answer) then None else Some (ToValidUTF8 answer).
Proof.
  change (wire _).2 with (answerText id answer ++ lf). unfold decodePayload, answerText.
  set (fields := [(§"answerSdp", answer); (§"sessionId", id)]). assert (fields ≠ []) as Hne by done.
  destruct (Nat.ltb_spec maxResponseBytes (length (stringsText fields))) as [Hl|Hl].
  - rewrite take_app_le, (scanValue_stringsText_prefix _ _ Hne Hl) by lia. pose proof maxResponseBytes_pos. by destruct maxResponseBytes.
  - rewrite take_app_ge, (scanValue_stringsText _ _ Hne), decodeStruct_stringMembers by done. reflexivity.
Qed.

(** C15. Client and server agree over the wire: on a network that loses nothing,
    the probe's Create with an id of the API's alphabet is the service's Create
    with the offer as UTF-8.  It reports a failed request, with the service not
    called, exactly if the body is over the server's limit or the offer is
    blank, and a failed request if the service refuses; an answer arrives as it
    is (with invalid UTF-8 replaced) and is reported invalid, with the session
    created, exactly if it is empty or its response is over the client's
    limit. *)
Theorem client_create_is_service_create {S : Type} `{!SessionService S} sha256 (token : gostring) (s : S) (id offer : gostring) :
  sessionIDPattern id = true →
  clientCreate token (exchange sha256 token (λ _, Delivered)) s id offer =
  if (maxRequestBody <? length (requestText id offer)) || blank (ToValidUTF8 offer) then (s, ([], false, Some errCreateRequest))
  else match svcCreate s id (ToValidUTF8 offer) with
       | (s', Err _) => (s', ([], false, Some errCreateRequest))
       | (s', Ok answer) =>
           if seqb answer [] || (maxResponseBytes <? length (answerText id answer)) then (s', ([], true, Some errInvalidAnswer))
           else (s', (ToValidUTF8 answer, true, None))
       end.
Proof.
  assert (ParseMediaType §"application/json" = Some §"application/json") as Hct by (vm_compute; reflexivity).
  intros Hid. unfold clientCreate, exchange. set (r := createRequest token id offer). unfold ServeHTTP, mux.
  change (Authorization r) with (§"Bearer " ++ token). rewrite (authorized_bearer sha256 token), andb_false_r, (route_create r eq_refl). cbn [negb].
  unfold createSession. cbn [r createRequest Method ContentType Body]. rewrite Hct, !seqb_refl. cbn [negb].
  rewrite <- (app_nil_r (requestText id offer)), decodeJSON_request, app_nil_r by done.
  destruct (maxRequestBody <? length (requestText id offer)); [reflexivity|]. cbn [orb SessionID OfferSDP].
  rewrite (sessionIDPattern_valid id Hid), Hid. cbn [negb]. destruct (blank (ToValidUTF8 offer)); [reflexivity|].
  destruct (svcCreate s id (ToValidUTF8 offer)) as [s' [answer|e]].
  - pose proof (decodePayload_created id answer) as Hd. destruct (wire _) as [status body] eqn:Hw. cbn [snd] in Hd.
    injection Hw as <- _. change (success 200) with true. cbn [negb]. rewrite Hd.
    destruct (maxResponseBytes <? length (answerText id answer)); [by rewrite orb_true_r|]. rewrite orb_false_r.
    destruct (seqb answer []) eqn:He; [by apply seqb_eq in He as ->|].
    destruct (seqb (ToValidUTF8 answer) []) eqn:Hv; [|done]. apply seqb_eq, ToValidUTF8_nil in Hv as ->. done.
  - cbn [wire]. by rewrite writeRTCError_failure.
Qed.

Lemma client_create_is_service_create_witness :
  clientCreate §"secret" (exchange (λ x, x) §"secret" (λ _, Delivered)) [§"hall"] §"kitchen" (§"v=0" ++ crlf) =
  ([§"kitchen"; §"hall"], (§"v=0" ++ crlf, true, None)).
Proof.
  rewrite (client_create_is_service_create (λ x, x) §"secret" [§"hall"] §"kitchen" (§"v=0" ++ crlf) eq_refl).
  vm_compute. reflexivity.
Defined.

(** C14. The probe against the gateway: over a network that may lose a request
    before it is served, lose the response of a request that was served, or cut
    its body, a probe with a fresh random id leaves the live sessions as they
    were, whatever its peer and the server answer - with two exceptions for its
    own session.  Its DELETE never arrived: then the log says cleanup_failed and
    the exit code is not 0.  Or the server created the session and the response
    was lost: then the probe takes the creation for failed, its log ends with
    that, its exit code is 1 and it sends no DELETE. *)
Theorem probe_leaves_no_session {S : Type} `{SessionLaws S} sha256 (token : gostring)
    (network : request → fate) (peer : peerProbe) (random : list Z) (s : S) :
  let id := newSessionID random in
  let api := sessionClient token (exchange sha256 token network) in
  svcInv s → ¬ live s id → length random = 8 → Forall (λ b, 0 <= b < 256)%Z random →
  let '(s', code, log) := runProbe (H := api) peer id s in
  svcInv s' ∧ (∀ j, j ≠ id → live s' j ↔ live s j) ∧
  (live s' id →
    network (deleteRequest token id) = RequestLost ∧ Event §"cleanup_failed" ∈ log ∧ code ≠ exitSuccess ∨
    ∃ offer, (Offer peer).2 = Ok offer ∧ network (createRequest token id offer) = ResponseLost ∧
      last log = Some (Category §"probe_failed" §"request") ∧ code = exitProbeFailure).
Proof.
  intros id api Hinv Hfresh Hlen Hr. rewrite runProbe_unfold.
  assert (Hpat : sessionIDPattern id = true) by (apply newSessionID_pattern; [done|lia]).
  destruct (Offer peer) as [log [offer|e]]; cbn [fst snd]; [|split_and!; naive_solver].
  pose proof (exchange_create sha256 token network s id offer Hinv Hpat) as Hc.
  change (apiCreate s id offer) with (clientCreate token (exchange sha256 token network) s id offer).
  destruct (clientCreate token _ s id offer) as [s1 [[answer created] err]]. cbn [fst snd]. destruct Hc as (Hinv1&Herr&Hj1).
  pose proof (exchange_delete sha256 token network s1 id Hinv1 Hpat) as Hd.
  change (apiDelete s1 id) with (clientDelete token (exchange sha256 token network) s1 id).
  destruct (clientDelete token _ s1 id) as [s2 deleted]. cbn [fst snd]. destruct Hd as (Hinv2&Hd).
  assert (Hin : ∀ l, Event §"cleanup_failed" ∈ l ++ reportCleanupFailure).
  { intros l. apply elem_of_app. right. apply list_elem_of_further, list_elem_of_here. }
  destruct created.
  2: { destruct Hj1 as [-> Hj1]. cbn [orb]. change (bool_decide (errCreateRequest = errInvalidAnswer)) with false. cbv iota.
       split_and!; [done|intros j Hne; destruct Hj1 as [Hj1|[_ Hj1]]; rewrite Hj1; naive_solver|].
       destruct Hj1 as [Hj1|[Hn _]]; [by intros []%Hj1%Hfresh|]. intros _. right. exists offer. rewrite last_snoc. by split_and!. }
  assert (Hother : ∀ j, j ≠ id → live s2 j ↔ live s j) by (intros j Hne; destruct Hd as [Hd|(_&_&Hd)]; rewrite Hd, Hj1; naive_solver).
  assert (Hleft : live s2 id → network (deleteRequest token id) = RequestLost ∧ deleted = false)
    by (destruct Hd as [Hd|(?&->&_)]; [by intros [_ []]%Hd|done]).
  destruct err as [e|]; [|destruct (ApplyAnswerAndWait peer answer) as [al [e|]]]; cbn [fst snd];
    [| |destruct deleted]; (split_and!; [done|done|]); intros [Hlost Hdel]%Hleft; try done; subst; left; split_and!; try done; try apply Hin.
  rewrite app_assoc. apply Hin.
Qed.

(** A probe that connects, against the service that keeps its ids in a list. *)
Definition samplePeer : peerProbe := {| Offer := ([], Ok §"v=0"); ApplyAnswerAndWait _ := ([], None) |}.

Definition sampleProbe (network : request → fate) : list gostring * Z * list logLine :=
  runProbe (H := sessionClient §"secret" (exchange (λ x, x) §"secret" network)) samplePeer (newSessionID (replicate 8 171%Z)) [§"hall"].

(** The response of the creation is lost: the session is left. *)
Example sampleProbe_response_lost :
  sampleProbe (λ r, if seqb (Method r) §"POST" then ResponseLost else Delivered) =
  ([§"rtc-probe-abababababababab"; §"hall"], exitProbeFailure, [Category §"probe_failed" §"request"]).
Proof. vm_compute. reflexivity. Qed.

(** Its body is cut: the session was created and is deleted. *)
Example sampleProbe_body_cut :
  sampleProbe (λ r, if seqb (Method r) §"POST" then BodyCut 5 else Delivered) =
  ([§"hall"], exitProbeFailure, [Category §"probe_failed" §"answer_invalid"]).
Proof. vm_compute. reflexivity. Qed.

Lemma probe_leaves_no_session_witness :
  let id := newSessionID (replicate 8 171%Z) in
  id = §"rtc-probe-abababababababab" ∧
  id ∉ (runProbe (H := sessionClient §"secret"
          (exchange (λ x, x) §"secret" (λ _, Delivered))) samplePeer id [§"hall"]).1.1.
Proof.
  split; [vm_compute; reflexivity|].
  assert (Hfresh : newSessionID (replicate 8 171%Z) ∉ [§"hall"]) by (apply (bool_decide_eq_true_1 _); vm_compute; reflexivity).
  assert (Hbytes : Forall (λ b, 0 <= b < 256)%Z (replicate 8 171%Z)) by (apply (bool_decide_eq_true_1 _); vm_compute; reflexivity).
  pose proof (probe_leaves_no_session (λ x, x) §"secret" (λ _, Delivered) samplePeer
    (replicate 8 171%Z) [§"hall"] I Hfresh eq_refl Hbytes) as H.
  destruct (runProbe _ _ _) as [[s' code] log]. destruct H as (_&_&Hlive). cbn [fst snd] in *.
  intros Hin. destruct (Hlive Hin) as [[Hn _]|(offer&_&Hn&_)]; discriminate Hn.
Defined.

(** The effects of a construction: what was opened is closed again exactly if
    it fails. *)
Lemma newPionProbe_effects calls options :
  let '(effects, made) := newPionProbe calls options in
  if made then
    effects = Registered opusCodec Audio :: (if includeVideo options then map (λ c, Registered c Video) videoCodecs else []) ++
      [Opened (if seqb (stunURL options) [] then [] else [stunURL options]); Transceiver Audio] ++
      (if includeVideo options then [Transceiver Video] else []) ++ [CallbacksSet]
  else length (sel isOpened effects) ≤ 1 ∧ length (sel isClosed effects) = length (sel isOpened effects).
Proof.
  unfold newPionProbe. destruct (negb (RegisterCodec calls opusCodec)); [by split; simpl; lia|].
  pose proof (registerCodecs_quiet calls Video videoCodecs) as [Ho Hc].
  pose proof (registerCodecs_all calls Video videoCodecs) as Hall.
  destruct (includeVideo options); cbn [negb].
  - destruct (registerCodecs calls Video videoCodecs) as [l []]; cbn [fst snd negb] in *; [rewrite (Hall eq_refl) in *|].
    + destruct (NewPeerConnection calls); cbn [negb]; [|by split; simpl; lia].
      destruct (AddTransceiver calls Audio), (AddTransceiver calls Video); cbn [negb]; try done; by split; simpl; lia.
    + cbn [sel isOpened isClosed]. rewrite Ho, Hc. by split; simpl; lia.
  - destruct (NewPeerConnection calls), (AddTransceiver calls Audio); cbn [negb]; try done; by split; simpl; lia.
Qed.

(** C27. The command releases its peer connection: whatever the environment
    holds and pion, the random source and the server answer, it opens at most
    one connection and closes it exactly if it was opened.  It gets past the
    failure code only with a URL, a token, a video flag and a client it
    accepts, and with a peer made with the configured STUN server and the video
    codecs asked for; without a connection it never calls the server. *)
Theorem probe_run_releases {S : Type} (getenv : gostring → gostring) (Parse : gostring → option parsedURL)
    (calls : constructionCalls) (answers : pionCalls) (random : option (list Z)) (client : gostring * gostring → SessionAPI S) (s : S) :
  let '(s', code, log, effects) := run getenv Parse calls answers random client s in
  length (sel isOpened effects) ≤ 1 ∧ length (sel isClosed effects) = length (sel isOpened effects) ∧
  (code ≠ exitProbeFailure → ∃ video c,
     getenv §"RTC_SERVER_URL" ≠ [] ∧ getenv §"RTC_SERVER_TOKEN" ≠ [] ∧
     parseIncludeVideo (getenv §"RTC_PROBE_INCLUDE_VIDEO") = Some video ∧
     newSessionClient Parse (getenv §"RTC_SERVER_URL") (getenv §"RTC_SERVER_TOKEN") = Some c ∧
     effects = Registered opusCodec Audio :: (if video then map (λ c, Registered c Video) videoCodecs else []) ++
       [Opened (if seqb (getenv §"RTC_PROBE_STUN_URL") [] then [] else [getenv §"RTC_PROBE_STUN_URL"]); Transceiver Audio] ++
       (if video then [Transceiver Video] else []) ++ [CallbacksSet; CallbacksCleared; Closed]) ∧
  (sel isOpened effects = [] → s' = s ∧ code = exitProbeFailure ∧ ∃ category, log = [Category §"probe_failed" category]).
Proof.
  unfold run. set (baseURL := getenv §"RTC_SERVER_URL"). set (token := getenv §"RTC_SERVER_TOKEN").
  destruct (seqb baseURL [] || seqb token []) eqn:Hempty; [split_and!; eauto; simpl; lia|].
  apply orb_false_iff in Hempty as [Hb%seqb_neq Ht%seqb_neq].
  destruct (parseIncludeVideo _) as [video|]; [|split_and!; eauto; simpl; lia].
  destruct (newSessionClient Parse baseURL token) as [c|]; [|split_and!; eauto; simpl; lia].
  set (options := Build_probeOptions _ _). pose proof (newPionProbe_effects calls options) as He.
  destruct (newPionProbe calls options) as [effects []]; cbn [negb]; [|destruct He; split_and!; eauto; done].
  assert (Hfull : effects ++ closePion = Registered opusCodec Audio :: (if video then map (λ c, Registered c Video) videoCodecs else []) ++
    [Opened (if seqb (getenv §"RTC_PROBE_STUN_URL") [] then [] else [getenv §"RTC_PROBE_STUN_URL"]); Transceiver Audio] ++
    (if video then [Transceiver Video] else []) ++ [CallbacksSet; CallbacksCleared; Closed]) by (rewrite He; by destruct video).
  assert (Hone : length (sel isOpened (effects ++ closePion)) = 1 ∧ length (sel isClosed (effects ++ closePion)) = 1)
    by (rewrite Hfull; by destruct video).
  destruct Hone as [Ho Hc].
  destruct random as [bytes|]; [destruct (runProbe _ _ _) as [[s' code] log]|];
    (split_and!; [lia|lia|intros _; exists video, c; by split_and!|intros Hn; by rewrite Hn in Ho]).
Qed.
