(* ===== verification/Main.v ===== *)
(** * The server command (cmd/rtc-server/main.go)

    [run] loads the configuration, builds the server and the manager, listens,
    and then either the HTTP server stops on its own or the context ends and
    the server is shut down; in both cases the manager is told to close all
    sessions.  What the HTTP server and the listener answer is given by
    [httpCalls]; [run] returns what it did and the errors it joins (none for
    nil). *)

From S2P Require Import Prelude GoString Duration Config Server.

(** Errors of http.Server: Serve's, and Shutdown's. *)
Inductive serveError := ErrServerClosed | ErrServe.
Inductive shutdownError := DeadlineExceeded | ErrShutdown.
#[global] Instance serveError_eq_dec : EqDecision serveError.
Proof. solve_decision. Defined.

Inductive runError :=
| RunConfig (e : configError) | RunServer (e : serverError) | RunListen
| RunServe (e : serveError) | RunShutdown (e : shutdownError) | RunClose | RunNotStopped | RunCloseAll.

(** What the command does to the HTTP server and the manager. *)
Inductive action := Listen | Shutdown (timeout : Z) | CloseServer | CloseAll.
#[global] Instance action_eq_dec : EqDecision action.
Proof. solve_decision. Defined.

(** The answers: net.Listen; whether Serve returned before the context ended,
    and with what; Shutdown's and Close's errors; what Serve returns while
    the command waits for it ([None]: nothing before the timer); and whether
    CloseAll reports an error. *)
Record httpCalls := {
  listens : bool;
  servedFirst : option serveError;
  shutdownResult : option shutdownError;
  closeFailed : bool;
  serveResult : option serveError;
  closeAllFailed : bool
}.

Definition shutdownHTTPServer (calls : httpCalls) (timeout : Z) : list action * list runError :=
  let timeout := positiveOr timeout (10 * Second) in
  let wait (did : list action) (shutdownErr : list runError) : list action * list runError :=
    match serveResult calls with
    | Some serveErr =>
        (did, shutdownErr ++ if bool_decide (serveErr = ErrServerClosed) then [] else [RunServe serveErr])
    | None => (did ++ [CloseServer], [RunNotStopped])
    end in
  match shutdownResult calls with
  | None => wait [Shutdown timeout] []
  | Some e =>
      if closeFailed calls then ([Shutdown timeout; CloseServer], [RunShutdown e; RunClose])
      else wait [Shutdown timeout; CloseServer] match e with DeadlineExceeded => [] | ErrShutdown => [RunShutdown e] end
  end.

Definition run (os : osCalls) (getenv : gostring → gostring) (engine : engineCalls) (calls : httpCalls) : list action * list runError :=
  match Load os (Some getenv) with
  | Err e => ([], [RunConfig e])
  | Ok cfg =>
      match NewServer engine (serverOptions cfg) with
      | Err e => ([], [RunServer e])
      | Ok _ =>
          if negb (listens calls) then ([], [RunListen])
          else
            let closeErr := if closeAllFailed calls then [RunCloseAll] else [] in
            match servedFirst calls with
            | Some err => ([Listen; CloseAll], if bool_decide (err = ErrServerClosed) then [] else [RunServe err])
            | None =>
                let '(did, shutdownErr) := shutdownHTTPServer calls (10 * Second) in
                ([Listen] ++ did ++ [CloseAll], shutdownErr ++ closeErr)
            end
      end
  end.

(** ** Lemmas *)

Lemma shutdown_actions calls timeout :
  ∃ t rest, (shutdownHTTPServer calls timeout).1 = Shutdown t :: rest ∧ (0 < t)%Z ∧ Forall (λ a, a = CloseServer) rest.
Proof.
  unfold shutdownHTTPServer. set (t := positiveOr timeout (10 * Second)).
  assert (0 < t)%Z by (subst t; unfold positiveOr; destruct (Z.leb_spec timeout 0); [reflexivity|lia]).
  exists t. destruct (shutdownResult calls) as [e|]; [destruct (closeFailed calls)|]; [| |]; try destruct (serveResult calls); simpl;
    eexists; (split; [reflexivity|]); (split; [done|]); repeat (apply Forall_cons; split; [done|]); apply Forall_nil; exact I.
Qed.

(** The HTTP server stopped as it should: Shutdown at worst ran into its
    deadline, and Serve then returned ErrServerClosed. *)
Definition stoppedCleanly (calls : httpCalls) : Prop :=
  serveResult calls = Some ErrServerClosed ∧
  match shutdownResult calls with
  | None => True
  | Some DeadlineExceeded => closeFailed calls = false
  | Some ErrShutdown => False
  end.

Lemma shutdown_errors calls timeout : (shutdownHTTPServer calls timeout).2 = [] ↔ stoppedCleanly calls.
Proof.
  unfold shutdownHTTPServer, stoppedCleanly.
  destruct (shutdownResult calls) as [[|]|], (closeFailed calls), (serveResult calls) as [[|]|]; simpl; naive_solver.
Qed.

(** ** Properties *)

(** C40. The command either stops before it listens, having done nothing, with
    the error of the configuration, the server or the listener; or it listens,
    and then on every path its last action is the one call of CloseAll, after
    the HTTP server has stopped or has been shut down with a positive timeout.
    It returns nil exactly if the server stopped cleanly and, after a shutdown,
    closing the sessions reported no error. *)
Theorem run_closes_sessions os getenv engine calls :
  let '(did, errs) := run os getenv engine calls in
  (did = [] ∧ errs ≠ [] ∧
     (is_ok (Load os (Some getenv)) = false ∨ listens calls = false ∨
      ∃ cfg, Load os (Some getenv) = Ok cfg ∧ is_ok (NewServer engine (serverOptions cfg)) = false)) ∨
  (listens calls = true ∧
   (∃ before, did = Listen :: (before ++ [CloseAll]) ∧ (CloseAll ∉ before) ∧
      match servedFirst calls with
      | Some _ => before = []
      | None => ∃ t rest, before = Shutdown t :: rest ∧ (0 < t)%Z
      end) ∧
   (errs = [] ↔ match servedFirst calls with
                | Some err => err = ErrServerClosed
                | None => stoppedCleanly calls ∧ closeAllFailed calls = false
                end)).
Proof.
  unfold run. destruct (Load os (Some getenv)) as [cfg|e] eqn:Hl; [|left; naive_solver].
  destruct (NewServer engine (serverOptions cfg)) as [srv|e] eqn:Hn.
  2: { left. split_and!; [done|done|]. right; right. exists cfg. by rewrite Hn. }
  destruct (listens calls); cbn [negb]; [|left; naive_solver].
  destruct (servedFirst calls) as [err|].
  - right. split; [done|]. split.
    + exists []. split_and!; [done|by apply not_elem_of_nil|done].
    + case_bool_decide; naive_solver.
  - pose proof (shutdown_actions calls (10 * Second)) as (t&rest&Hd&Ht&Hrest).
    pose proof (shutdown_errors calls (10 * Second)) as He.
    destruct (shutdownHTTPServer calls (10 * Second)) as [did errs]. cbn [fst snd] in *. subst did. right. split; [done|]. split.
    + exists (Shutdown t :: rest). split_and!; [done| |by eexists _, _].
      rewrite Forall_forall in Hrest. intros [[=]|Hin%Hrest]%elem_of_cons. done.
    + rewrite <- He. destruct (closeAllFailed calls); rewrite app_nil; naive_solver.
Qed.
